(* ===== verification/_CoqProject ===== *)
-Q . S2P
Prelude.v
CLib.v
GLib.v
Tree.v
DmString.v
ListT.v
ClientBase.v
ClientFrame.v
ClientSession.v
MiscText.v
MiscDate.v
Iconv.v
SqlFragment.v
SqlState.v
GListUtil.v
MailboxState.v
MailboxStateFacts.v
SearchKeys.v
SearchRun.v
SearchParse.v
SearchFacts.v
SearchEnds.v
Acl.v
AclFacts.v
Cidr.v
Capa.v
Auth.v
AuthExample.v
Pop3.v
Pop3Facts.v
Dsn.v
ImapText.v
ImapTextFacts.v
Mime.v
MimeFacts.v
MessageInit.v
Lmtp.v
LmtpFacts.v
SieveScript.v
Sieve.v
SieveFacts.v
SieveInputFacts.v
MailboxName.v
MessageStore.v
MessageStoreFacts.v
MessageExamples.v
MailStore.v
MailDeliver.v
MailStoreFacts.v
MailQuota.v
MailDeliverFacts.v
MailCreate.v
MailExamples.v
ImapSession.v
ImapTokenizer.v
ImapMailbox.v
ImapFetch.v
ImapCommands.v
ImapFolders.v
ImapMessages.v
ImapDispatch.v
ImapServer.v
ImapExample.v
ImapFrame.v
ImapTokenizerFacts.v
ImapKeeps.v
ImapMoves.v
ImapHandlers.v
ImapInvariant.v
ImapEvents.v
ImapServerFacts.v
ImapCommandFacts.v
ImapFetchFacts.v
ImapFetchReply.v
SearchReply.v
SearchExamples.v
