(* ===== verification/Prelude.v ===== *)
(** * A verification library for DBMail

    DBMail keeps mail in an SQL data base and serves it by POP3 (src/src/pop3.c), LMTP
    (lmtp.c), IMAP (imap4.c, imapcommands.c, dm_imapsession.c) and ManageSieve (sieve.c). This
    library models those servers as functional programs over explicit states and proves what
    makes them correct. File names below are relative to src/src/.

    ** The program and its parts

    A connection is a [ClientBase_T] (clientbase.c): two buffers between the protocol and a
    plain or TLS socket. A [ClientSession_T] (clientsession.c) adds what the three simple
    protocols keep; IMAP has a session of its own, [ImapSession], and runs its commands in a
    pool of threads that answer through a queue the main thread drains (server.c). The
    handlers share growing strings (dm_string.c), lists (dm_list.c), trees and texts
    (dm_misc.c), authentication (modules/authsql.c, dm_cram.c, dm_db.c), access control
    (dm_acl.c), the state of a mailbox (dm_mailboxstate.c) and the resolution of recipients
    (dm_dsn.c).

    ** The files

    Foundation:
    - [CLib], [GLib]: what the sources use of the C library and of GLib. C strings are lists of
      characters without NUL; integers are [Z] with [wrap32] and [wrap64] where the code
      computes at a width; [cformat] is the part of printf that the replies use and is [None]
      where the arguments do not fit the directives.
    - [DmString] (dm_string.c), [ListT] (dm_list.c, first half), [GListUtil] (dm_list.c, second
      half), [Tree] (dm_misc.c, trees), [MiscText], [ImapText], [ImapTextFacts] (dm_misc.c,
      texts). [ListT] has the heap with its pointers in [Module Heap] and the list with a cursor
      that the other files use; [Heap.list_ops_refine] connects them.
    - [MiscDate] (dm_misc.c, dates and message sets), [Iconv] (dm_iconv.c), [SqlFragment]
      (dm_db.c, the fragments of SQL that differ between the drivers), [SqlState] (statements on
      tables that may throw, TRY and CATCH, transactions; the monad [DB] of the functions around
      them, with what stays when statements throw and weakest preconditions when none does),
      [MailboxName] (dm_misc.c, name spaces of mailboxes; dm_db.c, patterns of LIKE).
    - [ClientBase], [ClientFrame] (clientbase.c) and [ClientSession] (clientsession.c).
      [ci_write_cb], [ci_write] and the loop they share, [ci_read_cb], [ci_read], [ci_readln],
      corking and STARTTLS. The answers of the kernel and of the TLS library are scripts in the
      state, so that a theorem holds for every sequence of short writes, retries and errors.

    State and policy:
    - [MailboxState], [MailboxStateFacts] (dm_mailboxstate.c): sequence numbers, flags, message
      sets. [Acl], [AclFacts] (dm_acl.c). [Cidr] (dm_cidr.c and the user map). [Capa]
      (dm_capa.c). [Auth], [AuthExample] (modules/authsql.c, dm_cram.c, db_user_validate).
      [Dsn] (dm_dsn.c).
    - Searches (dm_mailbox.c). [SearchKeys]: the tree of search keys with its cursor and the
      parser of SEARCH, SORT and THREAD; [SearchRun]: the statements, the walks over the tree,
      sorting, threads and the texts of the results; [SearchParse]: the parser reads what a query
      means; [SearchFacts]: the walks find what satisfies it; [SearchEnds]: everything ends.

    Messages (dm_message.c). [MessageStore]: a message as rows of the tables of parts, stored once
    for all messages, and its reconstruction; [MessageStoreFacts]: what was stored comes back;
    [MessageExamples]: the witness, and the trees and failures for which something else does.
    [MailStore] (dm_db.c): users with their quota, mailboxes and messages as tables, and the
    functions that find, create, delete and list mailboxes and copy, move and delete messages.
    [MailDeliver] (dm_message.c): the message that is stored in attempts and delivered by
    copying its row. [MessageInit]: the message that is made of a text that was received, over
    GMime's parser. [MailStoreFacts]: usage, billing and copying; [MailQuota]: the books stay
    right; [MailDeliverFacts]: what is delivered can be read; [MailCreate]: the levels of a path are
    created; [MailExamples]: witnesses, and the failures after which something else holds.

    Servers:
    - [Pop3], [Pop3Facts]: pop3.c with db_createsession and db_update_pop of dm_db.c.
    - [Lmtp], [LmtpFacts]: lmtp.c with insert_messages of dm_message.c.
    - [SieveScript], [Sieve], [SieveFacts], [SieveInputFacts]: dm_sievescript.c and sieve.c.
    - IMAP. [ImapSession]: the session record, the world it lives in and a state monad [IM] over
      it; [ImapTokenizer], [ImapTokenizerFacts]: imap4_tokenizer_main; [ImapMailbox]: mailbox
      cache, unsolicited responses, expunge; [Mime], [MimeFacts]: trees of MIME objects with their
      ENVELOPE and BODYSTRUCTURE texts (dm_misc.c); [ImapFetch]: the parser and the formatter of
      FETCH (dm_imapsession.c); [ImapCommands], [ImapFolders], [ImapMessages]: the
      jobs [_ic_*_enter]; [ImapDispatch]: the handlers [_ic_*] and their table; [ImapServer]:
      the callbacks, the queue and the workers as [event]s with [handle]; [ImapExample]: a small
      data base for the witnesses.
    - The proofs about IMAP: [ImapFrame] ([keeps], what a computation leaves alone, with the
      tactic [keep]), [ImapKeeps], [ImapMoves] and [ImapHandlers] (what jobs and handlers may
      do), [ImapInvariant] and [ImapEvents] (the invariant of a connection, event by event),
      [ImapServerFacts] and [ImapCommandFacts] (the theorems), [ImapFetchFacts] and
      [ImapFetchReply] (what FETCH reads and sends), [SearchReply] and [SearchExamples] (what
      SEARCH answers).

    ** Code outside of the repository

    Such code is an operation of a class, and what is relied on a class of laws with an
    instance: [GLibStr]/[GLibStrLaws] (string functions), [GTreeOps] (balanced trees, with the
    instance of finite maps), [GLibBase64], [Digests] (hash functions), [SocketLib] (inet_aton,
    fnmatch), [IconvLib]/[IconvLaws] (character sets), [ServerConf], [ImapConf], [SqlConf] and
    [SearchConf], [StoreConf], [MailConf] (configuration), [LikeOps]/[LikeLaws] (LIKE of the data
    base), [DeliverEnv]/[DeliverLaws] (caches of header values, filters and the Sieve engine). The data base is a table where the
    code's statements are simple enough to be written as operations on it (messages of POP3, the
    acl table, the scripts of Sieve, the parts of messages, users, mailboxes and messages), with a script that says which statements throw; elsewhere
    it is a class of queries ([AuthTables], [Dsn.AuthDB], [ImapDB], [ImapStore], [ImapSearch],
    [FetchDB], [SearchAnswers] with [SearchLaws]). [GMimeLib] and [TypeParser]
    are what GMime parses out of a header, [MessageParser] the objects that it makes of a text;
    the trees it builds are data.

    ** What the theorems show

    - Connections: whatever the kernel does, the stream that was sent plus what is queued is
      the sequence of the replies ([ci_writes_stream]).
    - Who may act: no session of any of the three servers with a login acts for a user without
      credentials that the back end accepts ([pop3_session_needs_auth], [imap_authenticated],
      [sieve_scripts_protected], [auth_validate_accepts]); rights decide what can be selected
      on a data base that answers, and a query that fails counts as a right ([imap_select_right],
      [acl_has_right_spec], [acl_has_right_failure]).
    - What commands do: POP3 commands refine an abstract maildrop and QUIT commits it
      ([pop3_command_refines], [pop3_quit_commits]); Sieve commands refine a table of scripts
      ([sieve_command_refines]); a failure leaves all or nothing ([sieve_put_atomic]);
      what the report of a delivery says, and what it hides ([deliver_one_status],
      [temporary_hides_failure]), and that every recipient gets one ([lmtp_data_replies]).
    - What arrives: dot-stuffed bodies, literals and quoted arguments are received octet for
      octet; the message is made of exactly the body that was sent, and GMime is given all of it
      unless it begins with a space ([space_reads_behind]) ([lmtp_data_text], [imap_literal_received], [imap_line_roundtrip],
      [sieve_putscript_received], [get_crlf_encoded_dots_recv]).
    - FETCH: the items are read as they are meant ([fetch_items_read]), those that peek change
      nothing ([fetch_peek_safe]), literals hold what they announce, but for the one kind of range
      that [section_octets] names exactly ([section_octets], [body_total_octets], [astring_read]) and structures are well-formed
      ([mime_texts_well_formed]); the exceptions are lemmas.
    - SEARCH: a [searchable] query is answered with exactly the messages that satisfy it
      ([search_reply]), and
      every search and sort ends ([search_terminates]); the arguments for which the answer is
      another one are lemmas of [SearchExamples].
    - Messages: what was stored is retrieved as it was, whatever other messages are stored
      ([message_roundtrip]); the exceptions are lemmas of [MessageExamples].
    - The tables: what is stored and delivered to a mailbox is there and reads as it was
      ([delivery_roundtrip]); the size kept for a user is the size of the user's messages, below
      the limit, through all calls that are [permitted] ([quota_kept]; copies that another user pays
      for and ids that do not fit an int break it) and after a rebuild ([quota_rebuilt]); a path
      is created level by level with its subscriptions, and nothing else with it ([path_created]); the
      names that users see of mailboxes lead back ([namespace_roundtrip]) and the patterns of
      names match what they should where LIKE knows the backslash ([mailbox_match_exact]). These are about statements that do
      not throw; what happens otherwise is in the definitions, with the failures that lose or
      double messages as lemmas of [MailExamples].
    - How the IMAP server runs: one command at a time, no use of a session after its memory was
      given back, and every command completed, down to the callback that schedules the events again
      ([imap_one_command], [imap_completes],
      [imap_input_terminates], [imap_command_refused]). Running out of fuel is a result of its own
      in the input loop ([NoFuel]), and the theorem is that it does not occur.
    - Data: sequence numbers, message sets, LIST patterns, rights strings, user map, alias
      expansion, lists, strings and capabilities against their specifications.

    A defect that modelling showed is stated as a lemma where that is possible, beside the
    theorem whose hypothesis excludes it.

    ** Fuel and bounds

    Loops that are not structural take fuel and are called with enough of it: the input loops
    with one more than the unread bytes, as every turn consumes a byte ([lmtp_handle_input_safe],
    [imap_input_terminates]); the write loop with the number of bytes and of scripted answers;
    the queue ([DRAIN_ROUNDS]) with one more turn than the clean-up can be deferred
    ([DEFERRED_MAX_LOOP]), which [imap_completes] shows to be enough; the search of recipients
    and [listex_match] with the length of the text; the parser of searches with [parse_fuel], four
    calls for every argument, and the walks with the height of the tree ([search_terminates]); the expansion of aliases with the code's own
    bound of twenty. A line of input that fills [MAX_LINESIZE] has no terminator in C and sets
    [fault], as do a followed NULL pointer and a failed assertion.

    ** Not modelled

    Locks and thread scheduling below the level of whole jobs: a job runs between two events of
    the main thread. SQL text and the result sets of libzdb; GMime's parser, which
    [MessageInit] takes as a parameter - [_mime_retrieve] ends with the text that it is given
    again -, and the caches of header values (dm_message.c); the rows that the statements of a search return; the tables of header values, filters and
    replies; the calls into
    libsieve (modules/sortsieve.c); LDAP (modules/authldap.c); process set-up (server.c, main.c);
    the HTTP interface; the memory pools (mpool/, third-party) and the functions that only give
    memory back; the command-line tools. Time-outs are events without a clock. *)
From stdpp Require Export base list gmap strings numbers sorting.
From Stdlib Require Export Ascii.
From Stdlib Require Import Lia.

Declare Scope dbmail_scope.
Delimit Scope dbmail_scope with dbmail.
Open Scope Z_scope.
Open Scope dbmail_scope.

(** ** Functional record update

    [r <| f := v |>] is the record [r] with its field [f] replaced, for every record type
    that has a [Settable] instance. *)
Class Settable (R : Type) := settable : R -> R.
Class Setter {R T : Type} (p : R -> T) := set_field : (T -> T) -> R -> R.
Arguments set_field {R T} p {_} _ _.

Ltac solve_setter :=
  match goal with
  | |- @Setter ?R _ ?p =>
      let upd := fresh "upd" in
      let rec_ := fresh "r" in
      refine (fun upd rec_ => _);
      let inst := constr:(@settable R _) in
      let e := eval hnf in (inst rec_) in
      let e' := eval pattern (p rec_) in e in
      match e' with
      | ?g _ => let body := eval cbv beta in (g (upd (p rec_))) in exact body
      end
  end.

#[export] Hint Extern 0 (Setter _) => solve_setter : typeclass_instances.

Notation "r <| p := v |>" := (set_field p (fun _ => v) r)
  (at level 1, left associativity, p at level 0, v at level 200) : dbmail_scope.
Notation "r <| p ::= f |>" := (set_field p f r)
  (at level 1, left associativity, p at level 0, f at level 200) : dbmail_scope.

(** ** Tactics *)

(** Case analysis on every match and conditional of the goal, keeping the equations. *)
Ltac split_cases := repeat (case_match; simplify_eq/=).

(** Case analysis on the matches of the hypothesis [H] as well. *)
Ltac split_hyp H :=
  repeat match type of H with
         | context [match ?x with _ => _ end] =>
             lazymatch x with
             | context [match _ with _ => _ end] => fail
             | _ => destruct x eqn:?; simplify_eq/=
             end
         end.

(** Boolean tests to propositions. *)
Ltac to_prop :=
  repeat match goal with
         | H : bool_decide _ = true |- _ => apply bool_decide_eq_true in H
         | H : bool_decide _ = false |- _ => apply bool_decide_eq_false in H
         | H : (_ && _)%bool = true |- _ => apply andb_true_iff in H; destruct H
         | H : (_ || _)%bool = false |- _ => apply orb_false_iff in H; destruct H
         | H : negb _ = true |- _ => apply negb_true_iff in H
         | H : negb _ = false |- _ => apply negb_false_iff in H
         | H : (_ =? _) = true |- _ => apply Z.eqb_eq in H
         | H : (_ =? _) = false |- _ => apply Z.eqb_neq in H
         | H : (_ <? _) = true |- _ => apply Z.ltb_lt in H
         | H : (_ <? _) = false |- _ => apply Z.ltb_ge in H
         | H : (_ <=? _) = true |- _ => apply Z.leb_le in H
         | H : (_ <=? _) = false |- _ => apply Z.leb_gt in H
         end.

Ltac bool_lia := to_prop; lia.

(** ** Hint databases *)
Create HintDb dbmail discriminated.

(** ** Sums over lists of integers *)
Definition sum_list_Z (l : list Z) : Z := foldr Z.add 0 l.

Lemma sum_list_Z_cons x l : sum_list_Z (x :: l) = x + sum_list_Z l.
Proof. reflexivity. Qed.

Lemma sum_list_Z_app l k : sum_list_Z (l ++ k) = sum_list_Z l + sum_list_Z k.
Proof. induction l; simpl; [done|]. unfold sum_list_Z in *; simpl. lia. Qed.

Lemma sum_list_Z_nonneg l : Forall (fun x => 0 <= x) l -> 0 <= sum_list_Z l.
Proof. induction 1; simpl; unfold sum_list_Z in *; simpl in *; lia. Qed.

(** ** Lists *)
Lemma elem_of_drop_weaken {A} (x : A) n l : x ∈ drop n l -> x ∈ l.
Proof. intros H. rewrite <- (take_drop n l). apply elem_of_app. by right. Qed.

Lemma elem_of_take_weaken {A} (x : A) n l : x ∈ take n l -> x ∈ l.
Proof. intros H. rewrite <- (take_drop n l). apply elem_of_app. by left. Qed.

Lemma alter_middle {A} (f : A -> A) (l k : list A) x i :
  i = length l -> alter f i (l ++ x :: k) = l ++ f x :: k.
Proof.
  intros ->. apply list_eq. intros j. destruct (decide (j = length l)) as [->|].
  - rewrite list_lookup_alter_eq, !list_lookup_middle by done. done.
  - rewrite list_lookup_alter_ne by done. destruct (decide (j < length l)%nat).
    + by rewrite !lookup_app_l by lia.
    + by rewrite !lookup_app_r, !lookup_cons_ne_0 by lia.
Qed.

Lemma alter_split {A} (f : A -> A) (l : list A) i x :
  l !! i = Some x -> alter f i l = take i l ++ f x :: drop (S i) l.
Proof.
  intros Hx. pose proof (lookup_lt_Some _ _ _ Hx). rewrite <- (take_drop_middle l i x Hx) at 1.
  apply alter_middle. rewrite length_take. lia.
Qed.

Lemma alter_fmap_Some {A} (f : A -> A) i (l : list A) :
  alter (fmap f) i (Some <$> l) = Some <$> alter f i l.
Proof.
  apply list_eq. intros j. rewrite list_lookup_fmap. destruct (decide (j = i)) as [->|].
  - rewrite !list_lookup_alter_eq, list_lookup_fmap. by destruct (l !! i).
  - rewrite !list_lookup_alter_ne, list_lookup_fmap by done. done.
Qed.

Lemma filter_all {A} (P : A -> Prop) `{!forall x, Decision (P x)} (l : list A) :
  (forall x, x ∈ l -> P x) -> filter P l = l.
Proof.
  induction l as [|x l IH]; intros Hl; [done|]. rewrite filter_cons, decide_True by (apply Hl; left).
  f_equal. apply IH. intros y Hy. apply Hl. by right.
Qed.

(** Sorted lists of numbers. *)
Lemma sorted_unique (l k : list Z) :
  StronglySorted Z.lt l -> StronglySorted Z.lt k -> (forall x, x ∈ l <-> x ∈ k) -> l = k.
Proof.
  intros Hl. revert k. induction Hl as [|x l Hl IH Hx]; intros k Hk He.
  { destruct k as [|y k]; [done|]. exfalso. apply (not_elem_of_nil y), He. left. }
  destruct Hk as [|y k Hk Hy].
  { exfalso. apply (not_elem_of_nil x), He. left. }
  rewrite Forall_forall in Hx, Hy. assert (x = y) as ->.
  { assert (x ∈ y :: k) as H1' by (apply He; left). assert (y ∈ x :: l) as H2' by (apply He; left).
    apply elem_of_cons in H1' as [?|H1']; [done|]. apply elem_of_cons in H2' as [?|H2']; [done|].
    specialize (Hx _ H2'). specialize (Hy _ H1'). lia. }
  f_equal. apply IH; [done|]. intros z. specialize (He z). rewrite !elem_of_cons in He.
  split; intros Hz.
  - destruct (proj1 He (or_intror Hz)) as [->|]; [|done]. specialize (Hx _ Hz). lia.
  - destruct (proj2 He (or_intror Hz)) as [->|]; [|done]. specialize (Hy _ Hz). lia.
Qed.
Lemma sorted_filter (P : Z -> Prop) `{!forall x, Decision (P x)} (l : list Z) :
  StronglySorted Z.lt l -> StronglySorted Z.lt (filter P l).
Proof.
  induction 1 as [|x l Hl IH Hx]; [constructor|]. rewrite filter_cons. case_decide; [|done].
  constructor; [done|]. rewrite Forall_forall in *. intros y [_ Hy]%list_elem_of_filter. by apply Hx.
Qed.
