(* ===== verification/CLib.v ===== *)
(** * The C library as the sources use it

    Characters and zero-terminated strings, the ctype tests in the C locale, the string
    searches, integers at their machine width, [strtoull]/[strtoll] and the part of
    [printf] that the servers' reply formats need.

    A zero-terminated string is the list of its characters before the terminator ([cstr]).
    A write of a terminator into a string is [take]; reading the terminator itself is
    [char_at], which yields [NUL] at the end of the string. *)
From S2P Require Import Prelude.

Abbreviation cstr := (list ascii).

(** ** Characters *)
Definition lit (s : string) : cstr := String.list_ascii_of_string s.
Definition CR : ascii := "013"%char.
Definition LF : ascii := "010"%char.
Definition TAB : ascii := "009"%char.
Definition SP : ascii := " "%char.
Definition DQUOTE : ascii := "034"%char.
Definition BACKSLASH : ascii := "\"%char.
Definition NUL : ascii := "000"%char.
Definition crlf : cstr := [CR; LF].

Definition code (c : ascii) : Z := Z.of_N (N_of_ascii c).
Definition ascii_of_code (z : Z) : ascii := ascii_of_N (Z.to_N z).

Definition isdigit (c : ascii) : bool := (48 <=? code c) && (code c <=? 57).
Definition isupper (c : ascii) : bool := (65 <=? code c) && (code c <=? 90).
Definition islower (c : ascii) : bool := (97 <=? code c) && (code c <=? 122).
Definition isalpha (c : ascii) : bool := isupper c || islower c.
Definition isspace (c : ascii) : bool :=
  (code c =? 32) || ((9 <=? code c) && (code c <=? 13)).
Definition tolower (c : ascii) : ascii :=
  if isupper c then ascii_of_code (code c + 32) else c.
Definition toupper (c : ascii) : ascii :=
  if islower c then ascii_of_code (code c - 32) else c.

(** ** Strings *)
Definition strlen (s : cstr) : Z := Z.of_nat (length s).
Definition char_at (s : cstr) (i : nat) : ascii := default NUL (s !! i).
Definition streq (a b : cstr) : bool := bool_decide (a = b).
Definition strcaseeq (a b : cstr) : bool := bool_decide (tolower <$> a = tolower <$> b).
Definition strneq (a b : cstr) (n : nat) : bool := bool_decide (take n a = take n b).
Definition strncaseeq (a b : cstr) (n : nat) : bool :=
  bool_decide (tolower <$> take n a = tolower <$> take n b).
Definition in_set (set : cstr) (c : ascii) : bool := bool_decide (c ∈ set).

(** [strchr] and [strrchr], as the index of the occurrence. *)
Fixpoint str_index (s : cstr) (c : ascii) : option nat :=
  match s with
  | [] => None
  | x :: s' => if bool_decide (x = c) then Some O else S <$> str_index s' c
  end.
Fixpoint str_rindex (s : cstr) (c : ascii) : option nat :=
  match s with
  | [] => None
  | x :: s' => match str_rindex s' c with
               | Some i => Some (S i)
               | None => if bool_decide (x = c) then Some O else None
               end
  end.

(** The two parts of a string around the first occurrence of a separator. *)
Definition split_at (s : cstr) (c : ascii) : option (cstr * cstr) :=
  i ← str_index s c; Some (take i s, drop (S i) s).

Fixpoint strspn (set s : cstr) : nat :=
  match s with
  | x :: s' => if in_set set x then S (strspn set s') else O
  | [] => O
  end.

(** [strstr], as the index of the occurrence. *)
Fixpoint strstr (s needle : cstr) : option nat :=
  if strneq s needle (length needle) then Some O
  else match s with
       | [] => None
       | _ :: s' => S <$> strstr s' needle
       end.

Fixpoint drop_lead (p : ascii -> bool) (s : cstr) : cstr :=
  match s with
  | x :: s' => if p x then drop_lead p s' else s
  | [] => []
  end.
Definition drop_trail (p : ascii -> bool) (s : cstr) : cstr := reverse (drop_lead p (reverse s)).

(** ** Integers at their width *)
Definition ULLONG_MAX : Z := 2 ^ 64 - 1.
Definition wrap64 (z : Z) : Z := z mod 2 ^ 64.
Definition wrap32 (z : Z) : Z := z mod 2 ^ 32.
Definition to_int32 (z : Z) : Z := let w := wrap32 z in if 2 ^ 31 <=? w then w - 2 ^ 32 else w.
Definition to_int64 (z : Z) : Z := let w := wrap64 z in if 2 ^ 63 <=? w then w - 2 ^ 64 else w.

(** The value of the leading digits of a string. *)
Fixpoint digits_val (acc : Z) (s : cstr) : Z :=
  match s with
  | x :: s' => if isdigit x then digits_val (10 * acc + (code x - 48)) s' else acc
  | [] => acc
  end.

(** Sign and magnitude read by the strto* functions in base 10. *)
Definition scan_int (s : cstr) : bool * Z :=
  match drop_lead isspace s with
  | x :: s' => if bool_decide (x = "-"%char) then (true, digits_val 0 s')
               else if bool_decide (x = "+"%char) then (false, digits_val 0 s')
               else (false, digits_val 0 (x :: s'))
  | [] => (false, 0)
  end.
Definition strtoull (s : cstr) : Z :=
  let '(neg, m) := scan_int s in
  if ULLONG_MAX <? m then ULLONG_MAX else if neg then wrap64 (- m) else m.
Definition strtoll (s : cstr) : Z :=
  let '(neg, m) := scan_int s in
  let v := if neg then - m else m in
  Z.max (- 2 ^ 63) (Z.min v (2 ^ 63 - 1)).

(** Where the scan of an integer ends ([endptr]): behind the digits, or at the start if there
    are none. *)
Definition scan_end (s : cstr) : cstr :=
  let t := drop_lead isspace s in
  let u := match t with
           | x :: u => if bool_decide (x = "-"%char) || bool_decide (x = "+"%char) then u else t
           | [] => t
           end in
  match u with
  | x :: _ => if isdigit x then drop_lead isdigit u else s
  | [] => s
  end.

(** ** Decimal output: a 64-bit integer has at most 20 digits *)
Fixpoint dec_aux (fuel : nat) (z : Z) (acc : cstr) : cstr :=
  match fuel with
  | O => acc
  | S fuel' =>
      let acc' := ascii_of_code (48 + z mod 10) :: acc in
      if z <? 10 then acc' else dec_aux fuel' (z / 10) acc'
  end.
Definition dec_of (z : Z) : cstr := dec_aux 20 z [].
Definition sdec_of (z : Z) : cstr := if z <? 0 then "-"%char :: dec_of (- z) else dec_of z.

(** ** printf

    The arguments of a reply format and the expansion of the directives that occur in the
    sources: [%s], [%d], [%lu] (the expansion of PRIu64), [%c] and [%%]. [None] is a format
    whose next directive has no matching argument: the C standard leaves the call
    undefined. *)
Inductive farg := FS (s : cstr) | FU (z : Z) | FD (z : Z) | FC (c : ascii).

Fixpoint cformat (f : cstr) (args : list farg) : option cstr :=
  match f with
  | [] => Some []
  | c :: f1 =>
      if bool_decide (c = "%"%char) then
        match f1 with
        | "%"%char :: f2 => cons "%"%char <$> cformat f2 args
        | "s"%char :: f2 => match args with FS s :: a => app s <$> cformat f2 a | _ => None end
        | "d"%char :: f2 => match args with FD z :: a => app (sdec_of z) <$> cformat f2 a | _ => None end
        | "c"%char :: f2 => match args with FC x :: a => cons x <$> cformat f2 a | _ => None end
        | "l"%char :: "u"%char :: f3 =>
            match args with FU z :: a => app (dec_of z) <$> cformat f3 a | _ => None end
        | _ => None
        end
      else cons c <$> cformat f1 args
  end.

(** ** Lemmas *)
Lemma code_range c : 0 <= code c < 256.
Proof. unfold code. pose proof (N_ascii_bounded c). lia. Qed.

Lemma ascii_of_code_code c : ascii_of_code (code c) = c.
Proof. unfold ascii_of_code, code. rewrite N2Z.id. apply ascii_N_embedding. Qed.

Lemma code_ascii_of_code z : 0 <= z < 256 -> code (ascii_of_code z) = z.
Proof. intros. unfold ascii_of_code, code. rewrite N_ascii_embedding; lia. Qed.

Lemma code_inj c d : code c = code d -> c = d.
Proof. intros H. by rewrite <- (ascii_of_code_code c), H, ascii_of_code_code. Qed.

Lemma wrap64_id z : 0 <= z < 2 ^ 64 -> wrap64 z = z.
Proof. apply Z.mod_small. Qed.

Lemma wrap64_range z : 0 <= wrap64 z < 2 ^ 64.
Proof. apply Z.mod_pos_bound. lia. Qed.

Lemma to_int32_id z : - 2 ^ 31 <= z < 2 ^ 31 -> to_int32 z = z.
Proof.
  intros. unfold to_int32, wrap32. destruct (decide (0 <= z)).
  - rewrite Z.mod_small by lia. case_match; bool_lia.
  - assert (z mod 2 ^ 32 = z + 2 ^ 32) as ->.
    { rewrite <- (Z.mod_small (z + 2 ^ 32) (2 ^ 32)) by lia.
      rewrite <- (Z_mod_plus_full z 1 (2 ^ 32)). f_equal. }
    case_match; bool_lia.
Qed.

Lemma str_index_Some s c i :
  str_index s c = Some i <-> s !! i = Some c /\ c ∉ take i s.
Proof.
  revert i; induction s as [|x s IH]; intros i; simpl.
  { split; [done|]. by intros [H _]. }
  case_bool_decide as Hx; subst.
  - split; [intros [= <-]; split; [done|simpl; by apply not_elem_of_nil]|].
    destruct i; simpl; [done|]. intros [_ H]. exfalso. apply H. left.
  - destruct (str_index s c) as [j|]; simpl.
    + split.
      * intros [= <-]. destruct (proj1 (IH j) eq_refl). split; [done|].
        simpl. by apply not_elem_of_cons.
      * destruct i as [|i]; simpl; [intros [[= ->] _]; done|].
        intros [H1 H2]. apply not_elem_of_cons in H2 as [_ H2].
        assert (Some j = Some i) as [= ->] by (apply IH; done). done.
    + split; [done|]. destruct i as [|i]; simpl; [intros [[= ->] _]; done|].
      intros [H1 H2]. apply not_elem_of_cons in H2 as [_ H2].
      assert (None = Some i) by (by apply IH). done.
Qed.

Lemma str_index_None s c : str_index s c = None <-> c ∉ s.
Proof.
  induction s as [|x s IH]; simpl; [split; [intros _; apply not_elem_of_nil|done]|].
  case_bool_decide; subst.
  - split; [done|]. intros H. exfalso; apply H; left.
  - rewrite not_elem_of_cons. destruct (str_index s c); simpl; split; try done.
    + intros [_ H']. by apply IH in H'.
    + intros _. split; [done|]. by apply IH.
Qed.

Lemma split_at_spec s c a b :
  split_at s c = Some (a, b) <-> s = a ++ c :: b /\ c ∉ a.
Proof.
  unfold split_at. split.
  - destruct (str_index s c) as [i|] eqn:Hi; simpl; [|done]. intros [= <- <-].
    apply str_index_Some in Hi as [H1 H2]. split; [|done].
    by rewrite take_drop_middle.
  - intros [-> H]. assert (str_index (a ++ c :: b) c = Some (length a)) as ->.
    { apply str_index_Some. rewrite list_lookup_middle, take_app_length by done. done. }
    simpl. rewrite take_app_length, drop_app_ge by lia.
    by replace (S (length a) - length a)%nat with 1%nat by lia.
Qed.

Lemma digits_val_app acc s t :
  Forall (fun x => isdigit x = true) s -> digits_val acc (s ++ t) = digits_val (digits_val acc s) t.
Proof.
  intros H. revert acc. induction H as [|x s Hx _ IH]; intros acc; simpl; [done|].
  by rewrite Hx, IH.
Qed.

Lemma isdigit_of_digit d : 0 <= d < 10 -> isdigit (ascii_of_code (48 + d)) = true.
Proof. intros. unfold isdigit. rewrite code_ascii_of_code by lia. lia. Qed.

Lemma digits_val_nonneg s acc : 0 <= acc -> 0 <= digits_val acc s.
Proof.
  revert acc; induction s as [|x s IH]; intros acc H; simpl; [done|].
  case_match; [|done]. apply IH. unfold isdigit in *. to_prop. lia.
Qed.

(** The digits printed for an integer that fits the fuel read back as that integer. *)
Lemma dec_aux_spec fuel z acc :
  0 <= z < 10 ^ Z.of_nat fuel ->
  exists ds, dec_aux fuel z acc = ds ++ acc /\
    Forall (fun x => isdigit x = true) ds /\ digits_val 0 ds = z /\ (fuel <> O -> ds <> []).
Proof.
  revert z acc. induction fuel as [|fuel IH]; intros z acc Hz.
  { exists []. simpl in *. repeat split; try done; try constructor. lia. }
  simpl. pose proof (Z.mod_pos_bound z 10 ltac:(lia)) as Hm.
  case_match; to_prop.
  - exists [ascii_of_code (48 + z mod 10)]. repeat split; try done.
    + constructor; [by apply isdigit_of_digit|constructor].
    + simpl. rewrite isdigit_of_digit, code_ascii_of_code by lia.
      rewrite Z.mod_small by lia. lia.
  - destruct (IH (z / 10) (ascii_of_code (48 + z mod 10) :: acc)) as (ds & E & F & V & _).
    { rewrite Nat2Z.inj_succ, Z.pow_succ_r in Hz by lia.
      split; [apply Z.div_pos; lia|]. apply Z.div_lt_upper_bound; lia. }
    exists (ds ++ [ascii_of_code (48 + z mod 10)]). split; [by rewrite E, <- app_assoc|].
    split; [apply Forall_app; split; [done|constructor; [by apply isdigit_of_digit|constructor]]|].
    split; [|intros _ E0; by apply app_eq_nil in E0 as [_ [=]]].
    rewrite digits_val_app, V by done. simpl.
    rewrite isdigit_of_digit, code_ascii_of_code by lia. pose proof (Z.div_mod z 10). lia.
Qed.

Lemma dec_of_digits z : 0 <= z < 2 ^ 64 ->
  Forall (fun x => isdigit x = true) (dec_of z) /\ digits_val 0 (dec_of z) = z /\ dec_of z <> [].
Proof.
  intros Hz. unfold dec_of. destruct (dec_aux_spec 20 z []) as (ds & E & F & V & N); [lia|].
  rewrite app_nil_r in E. rewrite E. auto.
Qed.

Lemma isdigit_not_space c : isdigit c = true -> isspace c = false.
Proof. unfold isdigit, isspace. intros. to_prop. lia. Qed.

Lemma isdigit_not_sign c : isdigit c = true -> c <> "-"%char /\ c <> "+"%char.
Proof. intros H; split; intros ->; done. Qed.

(** Printing an unsigned 64-bit integer with [%lu] and reading it back with [strtoull]. *)
Lemma strtoull_dec_of z : 0 <= z < 2 ^ 64 -> strtoull (dec_of z) = z.
Proof.
  intros Hz. destruct (dec_of_digits z Hz) as (F & V & N).
  unfold strtoull, scan_int. destruct (dec_of z) as [|x s]; [done|].
  apply Forall_cons in F as [Fx F]. simpl drop_lead.
  rewrite (isdigit_not_space _ Fx). destruct (isdigit_not_sign _ Fx).
  rewrite !bool_decide_eq_false_2 by done. rewrite V.
  unfold ULLONG_MAX. case_match; bool_lia.
Qed.
(** A number in front of something else. *)
Lemma strtoull_dec_app z c s : 0 <= z < 2 ^ 64 -> isdigit c = false -> strtoull (dec_of z ++ c :: s) = z.
Proof.
  intros Hz Hc. destruct (dec_of_digits z Hz) as (F & V & N). unfold strtoull, scan_int.
  destruct (dec_of z) as [|x ds]; [done|]. apply Forall_cons in F as [Fx F]. simpl drop_lead.
  rewrite (isdigit_not_space _ Fx). destruct (isdigit_not_sign _ Fx).
  rewrite !bool_decide_eq_false_2 by done. rewrite (app_comm_cons ds (c :: s) x), digits_val_app by (by constructor).
  rewrite V. simpl. rewrite Hc. unfold ULLONG_MAX. case_match; bool_lia.
Qed.
Lemma scan_end_dec n c s : 0 <= n < 2 ^ 64 -> isdigit c = false -> scan_end (dec_of n ++ c :: s) = c :: s.
Proof.
  intros Hn Hc. destruct (dec_of_digits n Hn) as (F & V & N). unfold scan_end.
  destruct (dec_of n) as [|x ds]; [done|]. apply Forall_cons in F as [Fx F]. cbn [app drop_lead].
  rewrite (isdigit_not_space _ Fx). destruct (isdigit_not_sign _ Fx). rewrite !bool_decide_eq_false_2 by done.
  cbn [orb]. rewrite Fx. cbn [drop_lead]. rewrite Fx. clear V N. induction F as [|y ds Fy F IH]; cbn [app drop_lead]; [by rewrite Hc|].
  by rewrite Fy.
Qed.

Lemma strtoull_range s : 0 <= strtoull s < 2 ^ 64.
Proof.
  unfold strtoull. destruct (scan_int s) as [neg m] eqn:E. unfold ULLONG_MAX in *.
  assert (0 <= m).
  { unfold scan_int in E. destruct (drop_lead isspace s) as [|x t]; [by simplify_eq|].
    repeat case_bool_decide; simplify_eq; by apply digits_val_nonneg. }
  case_match; to_prop; [lia|]. destruct neg; [apply wrap64_range|lia].
Qed.

(** A text without a percent sign is a safe format: it prints as itself. *)
Lemma cformat_plain s args : "%"%char ∉ s -> cformat s args = Some s.
Proof.
  induction s as [|c s IH]; intros H; simpl; [done|].
  apply not_elem_of_cons in H as [H1 H2]. rewrite bool_decide_eq_false_2 by congruence.
  by rewrite IH.
Qed.

(** The expansion of a format distributes over a leading literal text. *)
Lemma cformat_lit s f args : "%"%char ∉ s -> cformat (s ++ f) args = app s <$> cformat f args.
Proof.
  induction s as [|c s IH]; intros H; simpl; [by destruct (cformat f args)|].
  apply not_elem_of_cons in H as [H1 H2]. rewrite bool_decide_eq_false_2 by congruence.
  rewrite IH by done. by destruct (cformat f args).
Qed.

#[export] Hint Resolve strtoull_range wrap64_range code_range : dbmail.
