(* ===== verification/GLib.v ===== *)
(** * GLib as the sources use it

    GLib is not part of the repository. Its string functions are operations of the class
    [GLibStr]; the class [GLibStrLaws] states what GLib's manual promises about them, and
    [glib_model] shows that the promises can be kept. *)
From S2P Require Import Prelude CLib.

(** ** String utilities *)
Class GLibStr := {
  g_ascii_isspace : ascii -> bool;
  g_strstrip : cstr -> cstr;                  (** strip both ends, in place *)
  g_strchomp : cstr -> cstr;                  (** strip trailing white space *)
  g_strstr_len : cstr -> cstr -> option nat;  (** first occurrence of a needle *)
  g_strsplit : cstr -> ascii -> list cstr;    (** the parts between a one-character separator *)
}.

Class GLibStrLaws `{GLibStr} := {
  g_isspace_isspace c : g_ascii_isspace c = true -> isspace c = true;
  g_isspace_common : Forall (fun c => g_ascii_isspace c = true) [SP; TAB; CR; LF];
  g_strchomp_spec s : exists post, s = g_strchomp s ++ post /\
    Forall (fun c => g_ascii_isspace c = true) post /\
    (forall c, last (g_strchomp s) = Some c -> g_ascii_isspace c = false);
  g_strstrip_spec s : exists pre post, s = pre ++ g_strstrip s ++ post /\
    Forall (fun c => g_ascii_isspace c = true) (pre ++ post) /\
    (forall c, head (g_strstrip s) = Some c -> g_ascii_isspace c = false) /\
    (forall c, last (g_strstrip s) = Some c -> g_ascii_isspace c = false);
  g_strstr_len_spec s needle : g_strstr_len s needle = strstr s needle;
  g_strsplit_nil c : g_strsplit [] c = [];
  g_strsplit_none s c : s <> [] -> c ∉ s -> g_strsplit s c = [s];
  g_strsplit_cons a s c : c ∉ a -> s <> [] -> g_strsplit (a ++ c :: s) c = a :: g_strsplit s c;
  g_strsplit_last a c : c ∉ a -> g_strsplit (a ++ [c]) c = [a; []];
}.

(** ** Stripping *)
Lemma drop_lead_split p s : exists pre, s = pre ++ drop_lead p s /\ Forall (fun c => p c = true) pre.
Proof.
  induction s as [|x s (pre & E & F)]; simpl; [by exists []|].
  destruct (p x) eqn:Hp; [|by exists []].
  exists (x :: pre). simpl. rewrite <- E. auto.
Qed.

Lemma drop_lead_head p s c : head (drop_lead p s) = Some c -> p c = false.
Proof. induction s as [|x s IH]; simpl; [done|]. destruct (p x) eqn:E; naive_solver. Qed.

Lemma drop_trail_split p s : exists post, s = drop_trail p s ++ post /\ Forall (fun c => p c = true) post.
Proof.
  destruct (drop_lead_split p (reverse s)) as (pre & E & F). exists (reverse pre).
  unfold drop_trail. split; [|by apply Forall_reverse].
  by rewrite <- reverse_app, <- E, reverse_involutive.
Qed.

Lemma drop_trail_last p s c : last (drop_trail p s) = Some c -> p c = false.
Proof.
  unfold drop_trail. rewrite last_reverse. apply drop_lead_head.
Qed.

Lemma drop_trail_head p s c : head (drop_trail p s) = Some c -> head s = Some c.
Proof.
  destruct (drop_trail_split p s) as (post & E & _). rewrite E at 2.
  by destruct (drop_trail p s).
Qed.

Lemma drop_lead_id p s : (forall c, head s = Some c -> p c = false) -> drop_lead p s = s.
Proof. destruct s as [|x s]; simpl; [done|]. intros H. by rewrite (H x). Qed.

(** ** The functions with the behaviour of the manual *)
Definition glib_isspace (c : ascii) : bool :=
  in_set [SP; TAB; CR; LF; "012"%char] c.

Fixpoint glib_strsplit (n : nat) (s : cstr) (c : ascii) : list cstr :=
  match n, split_at s c with
  | S n', Some (a, b) => a :: glib_strsplit n' b c
  | _, _ => [s]
  end.

Lemma glib_strsplit_fuel n m s c : (length s <= n)%nat -> (length s <= m)%nat -> glib_strsplit n s c = glib_strsplit m s c.
Proof.
  revert m s. induction n as [|n IH]; intros [|m] s Hn Hm; simpl; try done.
  - by destruct s; [|simpl in *; lia].
  - by destruct s; [|simpl in *; lia].
  - destruct (split_at s c) as [[a b]|] eqn:E; [|done]. apply split_at_spec in E as [-> _].
    rewrite length_app in *. simpl in *. f_equal. apply IH; lia.
Qed.

#[export] Instance glib_model : GLibStr := {
  g_ascii_isspace := glib_isspace;
  g_strstrip s := drop_trail glib_isspace (drop_lead glib_isspace s);
  g_strchomp := drop_trail glib_isspace;
  g_strstr_len := strstr;
  g_strsplit s c := match s with [] => [] | _ => glib_strsplit (length s) s c end;
}.

#[export] Instance glib_model_laws : GLibStrLaws.
Proof.
  split; simpl.
  - intros c H. unfold glib_isspace, in_set in H. apply bool_decide_eq_true in H.
    repeat (apply elem_of_cons in H as [->|H]; [done|]). by apply elem_of_nil in H.
  - repeat constructor.
  - intros s. destruct (drop_trail_split glib_isspace s) as (post & E & F).
    exists post. split; [done|]. split; [done|]. intros c. apply drop_trail_last.
  - intros s. destruct (drop_lead_split glib_isspace s) as (pre & E1 & F1).
    destruct (drop_trail_split glib_isspace (drop_lead glib_isspace s)) as (post & E2 & F2).
    exists pre, post. rewrite <- E2. split; [done|]. split; [by apply Forall_app|].
    split; [|intros c; apply drop_trail_last].
    intros c H. by apply (drop_lead_head _ s), drop_trail_head with glib_isspace.
  - done.
  - done.
  - intros [|x s] c H1 H2; [done|]. simpl. unfold split_at.
    by rewrite (proj2 (str_index_None _ _) H2).
  - intros a s c Ha Hs. assert (split_at (a ++ c :: s) c = Some (a, s)) as E by (by apply split_at_spec).
    destruct (a ++ c :: s) as [|x t] eqn:Et; [by destruct a|]. simpl. rewrite E. f_equal.
    destruct s as [|y s]; [done|]. apply (f_equal length) in Et. rewrite length_app in Et. simpl in Et.
    apply glib_strsplit_fuel; simpl; lia.
  - intros a c Ha. assert (split_at (a ++ [c]) c = Some (a, [])) as E by (by apply split_at_spec).
    destruct (a ++ [c]) as [|x t] eqn:Et; [by destruct a|]. simpl. rewrite E. f_equal. by destruct (length t).
Qed.

(** ** Base64 *)
Class GLibBase64 := {
  g_base64_encode : list ascii -> cstr;
  g_base64_decode : cstr -> list ascii;
}.
Class GLibBase64Laws `{GLibBase64} := {
  g_base64_roundtrip s : g_base64_decode (g_base64_encode s) = s;
}.

(** ** Balanced trees

    [GTree] with unsigned 64-bit keys in the order of [ucmp]. *)
Class GTreeOps := {
  gtree : Type -> Type;
  g_tree_new {V} : gtree V;
  g_tree_insert {V} : gtree V -> Z -> V -> gtree V;
  g_tree_remove {V} : gtree V -> Z -> gtree V;
  g_tree_lookup {V} : gtree V -> Z -> option V;
  g_tree_traverse {V} : gtree V -> list (Z * V);   (** the order of g_tree_foreach *)
}.

Class GTreeLaws `{GTreeOps} := {
  g_tree_lookup_new {V} k : g_tree_lookup (V := V) g_tree_new k = None;
  g_tree_lookup_insert {V} (t : gtree V) k v : g_tree_lookup (g_tree_insert t k v) k = Some v;
  g_tree_lookup_insert_ne {V} (t : gtree V) k j v : k <> j -> g_tree_lookup (g_tree_insert t k v) j = g_tree_lookup t j;
  g_tree_lookup_remove {V} (t : gtree V) k : g_tree_lookup (g_tree_remove t k) k = None;
  g_tree_lookup_remove_ne {V} (t : gtree V) k j : k <> j -> g_tree_lookup (g_tree_remove t k) j = g_tree_lookup t j;
  g_tree_traverse_elem {V} (t : gtree V) k v : (k, v) ∈ g_tree_traverse t <-> g_tree_lookup t k = Some v;
  g_tree_traverse_sorted {V} (t : gtree V) : StronglySorted Z.lt (g_tree_traverse t).*1;
}.

(** Finite maps are trees. *)
Definition key_le {V} (a b : Z * V) : Prop := a.1 <= b.1.
#[export] Instance key_le_dec {V} (a b : Z * V) : Decision (key_le a b).
Proof. unfold key_le. apply _. Defined.
#[export] Instance key_le_trans {V} : Transitive (@key_le V).
Proof. intros a b c; unfold key_le; lia. Qed.
#[export] Instance key_le_total {V} : Total (@key_le V).
Proof. intros a b; unfold key_le; lia. Qed.

#[export] Instance gmap_tree : GTreeOps := {
  gtree := gmap Z;
  g_tree_new V := ∅;
  g_tree_insert V t k v := <[k := v]> t;
  g_tree_remove V t k := delete k t;
  g_tree_lookup V t k := t !! k;
  g_tree_traverse V t := merge_sort key_le (map_to_list t);
}.

Lemma sorted_keys {V} (l : list (Z * V)) :
  NoDup l.*1 -> StronglySorted key_le l -> StronglySorted Z.lt l.*1.
Proof.
  induction l as [|[k v] l IH]; intros Hn Hs; simpl; [constructor|].
  apply NoDup_cons in Hn as [Hk Hn]. apply StronglySorted_inv in Hs as [Hs Hf].
  constructor; [by apply IH|]. rewrite Forall_fmap. rewrite Forall_forall in *. intros [k' v'] Hin. simpl.
  specialize (Hf _ Hin). unfold key_le in Hf. simpl in Hf. assert (k <> k'); [|lia].
  intros ->. apply Hk. apply list_elem_of_fmap. by exists (k', v').
Qed.

#[export] Instance gmap_tree_laws : GTreeLaws.
Proof.
  split; simpl; intros.
  - apply lookup_empty.
  - apply lookup_insert_eq.
  - by apply lookup_insert_ne.
  - apply lookup_delete_eq.
  - by apply lookup_delete_ne.
  - rewrite merge_sort_Permutation. apply elem_of_map_to_list.
  - apply sorted_keys; [|apply (StronglySorted_merge_sort _)]. rewrite merge_sort_Permutation. apply NoDup_fst_map_to_list.
Qed.

Section trees.
Context `{GTreeLaws} {V : Type}.
Implicit Types t : gtree V.

Definition g_tree_nnodes t : nat := length (g_tree_traverse t).

Lemma g_tree_nodup t : NoDup (g_tree_traverse t).*1.
Proof.
  pose proof (g_tree_traverse_sorted t) as Hs. induction Hs as [|k l Hs IH Hf]; constructor; [|done].
  intros Hin. rewrite Forall_forall in Hf. specialize (Hf _ Hin). lia.
Qed.

Lemma g_tree_key_elem t k : k ∈ (g_tree_traverse t).*1 <-> is_Some (g_tree_lookup t k).
Proof.
  rewrite list_elem_of_fmap. split.
  - intros ([k' v] & -> & Hin). apply g_tree_traverse_elem in Hin. by exists v.
  - intros [v Hv]. exists (k, v). split; [done|]. by apply g_tree_traverse_elem.
Qed.

Lemma g_tree_empty t : g_tree_nnodes t = 0%nat <-> forall k, g_tree_lookup t k = None.
Proof.
  unfold g_tree_nnodes. split.
  - intros E k. destruct (g_tree_lookup t k) as [v|] eqn:Ek; [|done]. apply g_tree_traverse_elem in Ek.
    apply nil_length_inv in E. rewrite E in Ek. by apply elem_of_nil in Ek.
  - intros Hn. destruct (g_tree_traverse t) as [|[k v] l] eqn:E; [done|].
    assert (g_tree_lookup t k = Some v) as X; [|by rewrite Hn in X].
    apply g_tree_traverse_elem. rewrite E. left.
Qed.

Lemma g_tree_lookup_insert_case t k v j :
  g_tree_lookup (g_tree_insert t k v) j = if decide (k = j) then Some v else g_tree_lookup t j.
Proof. case_decide; [subst; apply g_tree_lookup_insert|by apply g_tree_lookup_insert_ne]. Qed.
Lemma g_tree_lookup_remove_case t k j :
  g_tree_lookup (g_tree_remove t k) j = if decide (k = j) then None else g_tree_lookup t j.
Proof. case_decide; [subst; apply g_tree_lookup_remove|by apply g_tree_lookup_remove_ne]. Qed.
End trees.
