(* ===== verification/Tree.v ===== *)
(** * dm_misc.c: boolean operations on trees

    [g_tree_keys], [g_tree_values] and [g_tree_merge], which combine the sets of messages
    that searches and message sets yield. *)
From S2P Require Import Prelude CLib GLib.

Inductive merge_condition := IST_SUBSEARCH_AND | IST_SUBSEARCH_OR | IST_SUBSEARCH_NOT.

Section tree.
Context `{GTreeOps} {V : Type}.
Implicit Types a b t : gtree V.

Definition g_tree_keys t : list Z := (g_tree_traverse t).*1.
Definition g_tree_values t : list V := (g_tree_traverse t).*2.

(** [traverse_tree_merger]: the keys of [t] that are not in [tree], in the order they are
    walked through. *)
Definition merger_list (tree t : gtree V) : list Z :=
  filter (fun k => g_tree_lookup tree k = None) (g_tree_keys t).

(** An element moves from [b] to [a]. *)
Definition move_key (ab : gtree V * gtree V) (k : Z) : gtree V * gtree V :=
  let '(a, b) := ab in
  match g_tree_lookup b k with
  | Some v => (g_tree_insert a k v, g_tree_remove b k)
  | None => ab
  end.

Definition toggle_key (ab : gtree V * gtree V) (k : Z) : gtree V * gtree V :=
  let '(a, b) := ab in
  match g_tree_lookup a k with
  | Some _ => (g_tree_remove a k, b)
  | None => move_key ab k
  end.

(** Both trees after [g_tree_merge a b condition]. *)
Definition g_tree_merge a b (condition : merge_condition) : gtree V * gtree V :=
  match condition with
  | IST_SUBSEARCH_AND =>
      if bool_decide (0 < g_tree_nnodes a)%nat then (foldl g_tree_remove a (merger_list b a), b) else (a, b)
  | IST_SUBSEARCH_OR =>
      if bool_decide (0 < g_tree_nnodes b)%nat then foldl move_key (a, b) (merger_list a b) else (a, b)
  | IST_SUBSEARCH_NOT =>
      if bool_decide (0 < g_tree_nnodes b)%nat then foldl toggle_key (a, b) (g_tree_keys b) else (a, b)
  end.
End tree.

(** What the conditions mean for one key. *)
Definition merge_value {V} (condition : merge_condition) (x y : option V) : option V :=
  match condition, x, y with
  | IST_SUBSEARCH_AND, Some v, Some _ => Some v
  | IST_SUBSEARCH_AND, _, _ => None
  | IST_SUBSEARCH_OR, Some v, _ => Some v
  | IST_SUBSEARCH_OR, None, y => y
  | IST_SUBSEARCH_NOT, Some _, Some _ => None
  | IST_SUBSEARCH_NOT, Some v, None => Some v
  | IST_SUBSEARCH_NOT, None, y => y
  end.

Section facts.
Context `{GTreeLaws} {V : Type}.
Implicit Types a b t : gtree V.

Lemma g_tree_keys_elem t k : k ∈ g_tree_keys t <-> is_Some (g_tree_lookup t k).
Proof. apply g_tree_key_elem. Qed.

Lemma merger_list_elem a b k : k ∈ merger_list a b <-> is_Some (g_tree_lookup b k) /\ g_tree_lookup a k = None.
Proof. unfold merger_list. rewrite list_elem_of_filter, g_tree_keys_elem. tauto. Qed.

Lemma remove_keys a ks j :
  g_tree_lookup (foldl g_tree_remove a ks) j = if decide (j ∈ ks) then None else g_tree_lookup a j.
Proof.
  revert a. induction ks as [|k ks IH]; intros a; cbn [foldl].
  { rewrite decide_False; [done|apply not_elem_of_nil]. }
  rewrite IH, g_tree_lookup_remove_case. repeat case_decide; set_solver.
Qed.

(** A fold over distinct keys that changes, for the key [k], only what the two trees have at
    [k]: the value of [a] becomes [f] of the two values. *)
Lemma fold_keys (step : gtree V * gtree V -> Z -> gtree V * gtree V) (f : option V -> option V -> option V) ks :
  (forall ab k j, k <> j -> g_tree_lookup (step ab k).1 j = g_tree_lookup ab.1 j /\
                            g_tree_lookup (step ab k).2 j = g_tree_lookup ab.2 j) ->
  (forall ab k, g_tree_lookup (step ab k).1 k = f (g_tree_lookup ab.1 k) (g_tree_lookup ab.2 k)) ->
  NoDup ks -> forall ab j,
  g_tree_lookup (foldl step ab ks).1 j =
    if decide (j ∈ ks) then f (g_tree_lookup ab.1 j) (g_tree_lookup ab.2 j) else g_tree_lookup ab.1 j.
Proof.
  intros Hne Heq. induction ks as [|k ks IH]; intros Hn ab j; cbn [foldl].
  { rewrite decide_False; [done|apply not_elem_of_nil]. }
  apply NoDup_cons in Hn as [Hk Hn]. rewrite IH by done. destruct (decide (k = j)) as [->|Hkj].
  - rewrite decide_False by done. rewrite decide_True by left. apply Heq.
  - destruct (Hne ab k j Hkj) as [-> ->]. repeat case_decide; set_solver.
Qed.

Lemma move_key_at (ab : gtree V * gtree V) k : g_tree_lookup (move_key ab k).1 k =
  match g_tree_lookup ab.2 k with Some v => Some v | None => g_tree_lookup ab.1 k end.
Proof.
  destruct ab as [a b]. simpl. destruct (g_tree_lookup b k); [apply g_tree_lookup_insert|done].
Qed.
Lemma move_key_ne (ab : gtree V * gtree V) k j : k <> j ->
  g_tree_lookup (move_key ab k).1 j = g_tree_lookup ab.1 j /\
  g_tree_lookup (move_key ab k).2 j = g_tree_lookup ab.2 j.
Proof.
  intros Hkj. destruct ab as [a b]. simpl. destruct (g_tree_lookup b k); [|done]. simpl.
  by rewrite g_tree_lookup_insert_ne, g_tree_lookup_remove_ne.
Qed.

Lemma g_tree_merge_lookup a b condition k :
  g_tree_lookup (g_tree_merge a b condition).1 k =
    merge_value condition (g_tree_lookup a k) (g_tree_lookup b k).
Proof.
  assert (forall t, ~ (0 < g_tree_nnodes t)%nat -> forall k, g_tree_lookup t k = None) as Hempty.
  { intros t Hn. apply g_tree_empty. lia. }
  assert (forall t u, NoDup (merger_list t u)) as Hnodup by (intros; apply NoDup_filter, g_tree_nodup).
  destruct condition; simpl; case_bool_decide as Hn.
  - simpl. rewrite remove_keys. case_decide as Hk; rewrite merger_list_elem in Hk.
    + destruct Hk as [[v ->] ->]. done.
    + destruct (g_tree_lookup a k) eqn:Ea; [|done]. destruct (g_tree_lookup b k); [done|].
      exfalso. apply Hk. by split.
  - simpl. by rewrite (Hempty a Hn).
  - rewrite (fold_keys move_key (fun x y : option V => match y with Some v => Some v | None => x end));
      [|apply move_key_ne|apply move_key_at|apply Hnodup].
    simpl. case_decide as Hk; rewrite merger_list_elem in Hk.
    + destruct Hk as [[v ->] ->]. done.
    + destruct (g_tree_lookup a k) eqn:Ea; [done|]. destruct (g_tree_lookup b k); [|done].
      exfalso. apply Hk. by split.
  - simpl. rewrite (Hempty b Hn). by destruct (g_tree_lookup a k).
  - rewrite (fold_keys toggle_key (fun x y : option V => match x with Some _ => None | None => y end)).
    + simpl. case_decide as Hk; rewrite g_tree_keys_elem in Hk.
      * destruct Hk as [v ->]. by destruct (g_tree_lookup a k).
      * destruct (g_tree_lookup b k); [exfalso; apply Hk; by eexists|]. by destruct (g_tree_lookup a k).
    + intros [a' b'] j i Hji. cbn [toggle_key]. destruct (g_tree_lookup a' j); [|by apply move_key_ne].
      simpl. by rewrite g_tree_lookup_remove_ne.
    + intros [a' b'] j. cbn [toggle_key fst snd]. destruct (g_tree_lookup a' j) eqn:E; [apply g_tree_lookup_remove|].
      rewrite move_key_at. simpl. rewrite E. by destruct (g_tree_lookup b' j).
    + apply g_tree_nodup.
  - simpl. rewrite (Hempty b Hn). by destruct (g_tree_lookup a k).
Qed.

(** [g_tree_merge] computes, key by key, the intersection, the union or the symmetric
    difference; a key that is in both trees keeps the value of the first. *)
Theorem g_tree_merge_spec a b condition k :
  g_tree_lookup (g_tree_merge a b condition).1 k =
    merge_value condition (g_tree_lookup a k) (g_tree_lookup b k).
Proof. apply g_tree_merge_lookup. Qed.
End facts.

Lemma g_tree_merge_spec_witness :
  let a : gtree Z := <[1 := 10]> (<[2 := 20]> ∅) in
  let b : gtree Z := <[2 := 21]> (<[3 := 31]> ∅) in
  g_tree_lookup (g_tree_merge a b IST_SUBSEARCH_NOT).1 2 = None /\
  g_tree_lookup (g_tree_merge a b IST_SUBSEARCH_NOT).1 3 = Some 31 /\
  g_tree_lookup (g_tree_merge a b IST_SUBSEARCH_OR).1 2 = Some 20.
Proof.
  cbv zeta. split_and!; (etransitivity; [apply g_tree_merge_spec|vm_compute; reflexivity]).
Defined.
