(* ===== verification/DmString.v ===== *)
(** * dm_string.c: the growable strings of the servers

    [String_T] as the C structure: an allocated block of [len + 1] bytes, of which [used]
    are the string. Every write into the block goes through [poke], which fails outside the
    block, and an assertion that does not hold is a failure too, so a result [Some _] says
    that the C code stayed inside its memory. The abstract string is [content], the first
    [used] bytes; the refinement lemmas state each operation in terms of it.

    The bytes a resized block is extended with come from the allocator: [fresh]. *)
From S2P Require Import Prelude CLib.

Record String_T := mkString { str : list ascii; len : nat; used : nat }.
#[export] Instance String_settable : Settable String_T :=
  fun r => mkString (str r) (len r) (used r).

Definition STRLEN : nat := 255.
Definition INT_MAX : Z := 2 ^ 31 - 1.

(** A write of the bytes [s] at offset [i] of a block. *)
Definition poke (blk : list ascii) (i : nat) (s : list ascii) : option (list ascii) :=
  if decide (i + length s <= length blk)%nat
  then Some (take i blk ++ s ++ drop (i + length s) blk) else None.

Definition content (S : String_T) : cstr := take (used S) (str S).

Definition string_wf (S : String_T) : Prop :=
  length (str S) = (len S + 1)%nat /\ (used S <= len S)%nat /\ str S !! used S = Some NUL.

Section dm_string.
Context (fresh : nat -> list ascii).

(** The block moved to a block of [newsize] bytes. *)
Definition mempool_resize (blk : list ascii) (newsize : nat) : list ascii :=
  take newsize blk ++ take (newsize - length blk) (fresh newsize).

(** vsnprintf(str + used, size, ...): the text cut to [size] bytes with its terminator. *)
Definition vsnprintf (blk : list ascii) (at_ size : nat) (text : cstr) : option (list ascii * nat) :=
  if INT_MAX <? Z.of_nat (length text) then None
  else match size with
       | O => Some (blk, length text)
       | S k => blk' ← poke blk at_ (take k text ++ [NUL]); Some (blk', length text)
       end.

(** The loop of [append]; [text] is the expansion of the format. *)
Fixpoint append (fuel : nat) (S : String_T) (text : cstr) : option String_T :=
  match fuel with
  | O => None
  | S fuel' =>
      '(blk, n) ← vsnprintf (str S) (used S) (len S - used S) text;
      let S := S <| str := blk |> in
      if decide (used S + n < len S)%nat then Some (S <| used := (used S + n)%nat |>)
      else
        let newlen := (len S + (STRLEN + n))%nat in
        append fuel' (S <| len := newlen |> <| str := mempool_resize (str S) (newlen + 1) |>) text
  end.

Definition p_string_new (s : cstr) : String_T :=
  {| str := s ++ [NUL]; len := length s; used := length s |}.

Definition p_string_assign (S : String_T) (s : cstr) : option String_T :=
  let l := length s in
  let S := S <| used := 0%nat |> <| str := replicate (len S + 1) NUL |> in
  let S := if decide (len S + 1 < l + 1)%nat
           then S <| len := l |> <| str := mempool_resize (str S) (l + 1) |> else S in
  blk ← poke (replicate (len S + 1) NUL) 0 s;
  Some (S <| str := blk |> <| used := l |>).

Definition p_string_printf (S : String_T) (text : cstr) : option String_T :=
  append 2 (S <| used := 0%nat |> <| str := replicate (len S + 1) NUL |>) text.

Definition p_string_append_vprintf (S : String_T) (text : cstr) : option String_T :=
  append 2 S text.

Definition p_string_append_len (S : String_T) (s : list ascii) : option String_T :=
  let l := length s in
  let S := if decide (len S < used S + l)%nat
           then S <| len := (len S + l)%nat |>
                  <| str := mempool_resize (str S) (len S + l + 1) |> else S in
  blk ← poke (str S) (used S) s;
  let u := (used S + l)%nat in
  blk ← poke blk u [NUL];
  Some (S <| str := blk |> <| used := u |>).

Definition p_string_len (S : String_T) : Z := Z.of_nat (used S).

Definition p_string_truncate (S : String_T) (l : nat) : option String_T :=
  if decide (used S <= l)%nat then Some S
  else blk ← poke (str S) l [NUL]; Some (S <| str := blk |> <| used := l |>).

(** [len] of the C function is a signed int; a negative one erases to the end. *)
Definition p_string_erase (S : String_T) (pos : nat) (n : Z) : option String_T :=
  if decide (pos <= used S)%nat then
    '(blk, k) ← (if n <? 0 then Some (str S, (used S - pos)%nat)
                 else let k := Z.to_nat n in
                      if decide (pos + k <= used S)%nat then
                        if decide (pos + k < used S)%nat then
                          blk ← poke (str S) pos (take (used S - (pos + k)) (drop (pos + k) (str S)));
                          Some (blk, k)
                        else Some (str S, k)
                      else None);
    let u := (used S - k)%nat in
    blk ← poke blk u [NUL];
    Some (S <| str := blk |> <| used := u |>)
  else None.

(** The in-place loop of [p_string_unescape]: [head] is the write index, [this] the read
    index. *)
Fixpoint unescape_loop (fuel : nat) (S : String_T) (head this : nat) (found_escape : bool)
    : option String_T :=
  match fuel with
  | O => None
  | S fuel' =>
      c ← str S !! this;
      if bool_decide (c = NUL) then
        blk ← poke (str S) head [NUL]; Some (S <| str := blk |>)
      else
        n ← str S !! (this + 1)%nat;
        if negb found_escape && bool_decide (c = BACKSLASH)
           && (bool_decide (n = DQUOTE) || bool_decide (n = BACKSLASH))
        then unescape_loop fuel' (S <| used := pred (used S) |>) head (this + 1)%nat true
        else blk ← poke (str S) head [c];
             unescape_loop fuel' (S <| str := blk |>) (head + 1)%nat (this + 1)%nat false
  end.
Definition p_string_unescape (S : String_T) : option String_T :=
  unescape_loop (length (str S)) S 0 0 false.

End dm_string.

(** The text after the escapes are resolved, as a function of the text: a backslash in front
    of a quote or of a backslash stands for that character. *)
Definition escapable (s : cstr) : bool :=
  match s with n :: _ => bool_decide (n = DQUOTE) || bool_decide (n = BACKSLASH) | [] => false end.
Fixpoint unescape (found : bool) (s : cstr) : cstr :=
  match s with
  | [] => []
  | c :: s' =>
      if negb found && bool_decide (c = BACKSLASH) &&
         escapable s'
      then unescape true s' else c :: unescape false s'
  end.

(** ** Blocks *)
Lemma poke_Some blk i s blk' :
  poke blk i s = Some blk' ->
  (i + length s <= length blk)%nat /\ blk' = take i blk ++ s ++ drop (i + length s) blk.
Proof. unfold poke. case_decide; [|done]. intros [= <-]. done. Qed.

Lemma poke_ok blk i s : (i + length s <= length blk)%nat ->
  poke blk i s = Some (take i blk ++ s ++ drop (i + length s) blk).
Proof. intros. unfold poke. by rewrite decide_True. Qed.

Lemma poke_length blk i s blk' : poke blk i s = Some blk' -> length blk' = length blk.
Proof.
  intros [H ->]%poke_Some. rewrite !length_app, length_take, length_drop. lia.
Qed.

(** The bytes a write leaves in front of it and under it. *)
Lemma poke_take_in blk i s blk' k :
  poke blk i s = Some blk' -> (k <= length s)%nat -> take (i + k) blk' = take i blk ++ take k s.
Proof.
  intros [H ->]%poke_Some Hk. rewrite take_app, length_take_le by lia.
  rewrite take_ge by (rewrite length_take; lia). f_equal.
  replace (i + k - i)%nat with k by lia. by rewrite take_app_le.
Qed.

Lemma poke_take blk i s blk' : poke blk i s = Some blk' -> take (i + length s) blk' = take i blk ++ s.
Proof. intros H. by rewrite (poke_take_in _ _ _ _ _ H), firstn_all by done. Qed.

Lemma poke_take_le blk i s blk' n : poke blk i s = Some blk' -> (n <= i)%nat -> take n blk' = take n blk.
Proof.
  intros [H ->]%poke_Some Hn. rewrite take_app_le by (rewrite length_take; lia).
  rewrite take_take. f_equal. lia.
Qed.

Lemma poke_lookup_in blk i s blk' k c :
  poke blk i s = Some blk' -> s !! k = Some c -> blk' !! (i + k)%nat = Some c.
Proof.
  intros [H ->]%poke_Some Hk. rewrite lookup_app_r by (rewrite length_take; lia).
  rewrite length_take_le by lia. replace (i + k - i)%nat with k by lia.
  rewrite lookup_app_l; [done|]. by eapply lookup_lt_Some.
Qed.

Lemma poke_lookup_ge blk i s blk' k :
  poke blk i s = Some blk' -> (i + length s <= k)%nat -> blk' !! k = blk !! k.
Proof.
  intros [H ->]%poke_Some Hk. rewrite lookup_app_r by (rewrite length_take; lia).
  rewrite length_take_le by lia. rewrite lookup_app_r by lia. rewrite lookup_drop.
  f_equal. lia.
Qed.

Section dm_string_facts.
Context (fresh : nat -> list ascii) (fresh_length : forall n, length (fresh n) = n).

Lemma mempool_resize_length blk n : length (mempool_resize fresh blk n) = n.
Proof.
  unfold mempool_resize. rewrite length_app, !length_take, fresh_length. lia.
Qed.

Lemma mempool_resize_take blk n m :
  (m <= length blk)%nat -> (m <= n)%nat -> take m (mempool_resize fresh blk n) = take m blk.
Proof.
  intros. unfold mempool_resize. rewrite take_app_le by (rewrite length_take; lia).
  rewrite take_take. f_equal. lia.
Qed.

Lemma content_new s : content (p_string_new s) = s /\ string_wf (p_string_new s).
Proof.
  unfold content, string_wf, p_string_new; simpl. rewrite take_app_length, length_app; simpl.
  by rewrite list_lookup_middle by done.
Qed.

Lemma append_S fuel S text :
  append fresh (Datatypes.S fuel) S text =
    ('(blk, n) ← vsnprintf (str S) (used S) (len S - used S) text;
     let S := S <| str := blk |> in
     if decide (used S + n < len S)%nat then Some (S <| used := (used S + n)%nat |>)
     else
       let newlen := (len S + (STRLEN + n))%nat in
       append fresh fuel (S <| len := newlen |>
         <| str := mempool_resize fresh (str S) (newlen + 1) |>) text).
Proof. reflexivity. Qed.

#[local] Arguments append : simpl never.

(** One pass of the loop where the text fits. *)
Lemma append_fits fuel S text :
  length (str S) = (len S + 1)%nat -> (used S <= len S)%nat ->
  Z.of_nat (length text) <= INT_MAX -> (used S + length text < len S)%nat ->
  exists S', append fresh (Datatypes.S fuel) S text = Some S' /\ content S' = content S ++ text /\
    string_wf S' /\ len S' = len S.
Proof.
  intros Hl Hu Ht Hf. rewrite append_S. unfold vsnprintf.
  assert (INT_MAX <? Z.of_nat (length text) = false) as -> by lia.
  destruct (len S - used S)%nat as [|k] eqn:Hk; [lia|]. rewrite take_ge by lia.
  destruct (poke (str S) (used S) (text ++ [NUL])) as [blk|] eqn:Hp.
  2:{ rewrite poke_ok in Hp; [done|]. rewrite length_app; simpl; lia. }
  simpl. rewrite decide_True by done. eexists; split; [done|].
  unfold content, string_wf; simpl. split; [|split; [|done]].
  - rewrite (poke_take_in _ _ _ _ _ Hp) by (rewrite length_app; lia). by rewrite take_app_length.
  - split; [by rewrite (poke_length _ _ _ _ Hp)|]. split; [lia|].
    eapply poke_lookup_in; [done|]. by rewrite list_lookup_middle.
Qed.

(** A pass of the loop stays in the block and keeps the string in front of it. *)
Lemma vsnprintf_keeps S text :
  length (str S) = (len S + 1)%nat -> (used S <= len S)%nat ->
  Z.of_nat (length text) <= INT_MAX ->
  exists blk, vsnprintf (str S) (used S) (len S - used S) text = Some (blk, length text) /\
    length blk = (len S + 1)%nat /\ take (used S) blk = take (used S) (str S).
Proof.
  intros Hl Hu Ht. unfold vsnprintf.
  assert (INT_MAX <? Z.of_nat (length text) = false) as -> by lia.
  destruct (len S - used S)%nat as [|k] eqn:Hk; [by eauto|].
  destruct (poke (str S) (used S) (take k text ++ [NUL])) as [blk|] eqn:Hp; simpl.
  - exists blk. rewrite (poke_length _ _ _ _ Hp), (poke_take_le _ _ _ _ (used S) Hp) by lia. done.
  - rewrite poke_ok in Hp; [done|]. rewrite length_app, length_take; simpl; lia.
Qed.

(** A formatted append never leaves the block, ends within two passes, and appends exactly
    the formatted text, whatever the allocator puts into the fresh part of the block. *)
Lemma append_refines S text :
  string_wf S -> Z.of_nat (length text) <= INT_MAX ->
  exists S', append fresh 2 S text = Some S' /\ content S' = content S ++ text /\ string_wf S'.
Proof.
  intros (Hl & Hu & Hz) Ht.
  destruct (decide (used S + length text < len S)%nat) as [Hf|Hf].
  { destruct (append_fits 1 S text) as (S' & ? & ? & ? & ?); eauto. }
  destruct (vsnprintf_keeps S text Hl Hu Ht) as (blk & E & Hlb & Htb).
  rewrite append_S, E. simpl. rewrite decide_False by done.
  match goal with |- context [append _ 1 ?S2 _] =>
    destruct (append_fits 0 S2 text) as (S' & E' & C & W & _) end; simpl.
  - rewrite mempool_resize_length. lia.
  - unfold STRLEN. lia.
  - done.
  - unfold STRLEN. lia.
  - exists S'. split; [exact E'|]. split; [|done]. rewrite C. f_equal. unfold content; simpl.
    rewrite mempool_resize_take by (unfold STRLEN; lia). done.
Qed.

Lemma p_string_append_len_refines S s :
  string_wf S ->
  exists S', p_string_append_len fresh S s = Some S' /\ content S' = content S ++ s /\ string_wf S'.
Proof.
  intros (Hl & Hu & Hz). unfold p_string_append_len.
  set (S1 := if decide (len S < used S + length s)%nat then _ else S).
  assert (length (str S1) = (len S1 + 1)%nat /\ (used S1 + length s <= len S1)%nat /\
          used S1 = used S /\ take (used S) (str S1) = take (used S) (str S)) as (H1 & H2 & H3 & H4).
  { subst S1. case_decide; simpl; [|repeat split; lia].
    rewrite mempool_resize_length, mempool_resize_take by lia. repeat split; lia. }
  destruct (poke (str S1) (used S1) s) as [b1|] eqn:P1; [|rewrite poke_ok in P1; [done|lia]].
  pose proof (poke_length _ _ _ _ P1) as L1. simpl.
  destruct (poke b1 (used S1 + length s) [NUL]) as [b2|] eqn:P2;
    [|rewrite poke_ok in P2; [done|simpl; lia]].
  pose proof (poke_length _ _ _ _ P2) as L2. simpl.
  eexists; split; [done|]. unfold content, string_wf; simpl. split.
  - rewrite (poke_take_le _ _ _ _ _ P2), (poke_take _ _ _ _ P1) by lia. congruence.
  - split; [lia|]. split; [lia|].
    rewrite <- (Nat.add_0_r (used S1 + length s)). by eapply poke_lookup_in.
Qed.

Lemma p_string_truncate_refines S l :
  string_wf S ->
  exists S', p_string_truncate S l = Some S' /\ content S' = take l (content S) /\ string_wf S'.
Proof.
  intros (Hl & Hu & Hz). unfold p_string_truncate. case_decide.
  { exists S. split; [done|]. split; [|done]. unfold content. rewrite take_take. f_equal. lia. }
  destruct (poke (str S) l [NUL]) as [b|] eqn:P; [|rewrite poke_ok in P; [done|simpl; lia]].
  simpl. eexists; split; [done|]. unfold content, string_wf; simpl. split.
  - rewrite (poke_take_le _ _ _ _ _ P), take_take by lia. f_equal. lia.
  - rewrite (poke_length _ _ _ _ P). split; [lia|]. split; [lia|].
    rewrite <- (Nat.add_0_r l). by eapply poke_lookup_in.
Qed.

Lemma p_string_assign_refines S s :
  string_wf S ->
  exists S', p_string_assign fresh S s = Some S' /\ content S' = s /\ string_wf S'.
Proof.
  intros (Hl & Hu & Hz). unfold p_string_assign.
  set (S1 := if decide _ then _ else _).
  assert (length s <= len S1)%nat as H1.
  { subst S1. case_decide; simpl in *; lia. }
  destruct (poke (replicate (len S1 + 1) NUL) 0 s) as [b|] eqn:P.
  2:{ rewrite poke_ok in P; [done|]. rewrite length_replicate. lia. }
  simpl. eexists; split; [done|]. unfold content, string_wf; simpl. split.
  - exact (poke_take _ _ _ _ P).
  - rewrite (poke_length _ _ _ _ P), length_replicate. split; [done|]. split; [done|].
    rewrite (poke_lookup_ge _ _ _ _ _ P) by done. apply lookup_replicate_2. lia.
Qed.

Lemma p_string_erase_refines S pos n :
  string_wf S -> (pos <= used S)%nat -> (n < 0 \/ Z.of_nat pos + n <= Z.of_nat (used S)) ->
  exists S', p_string_erase S pos n = Some S' /\ string_wf S' /\
    content S' = take pos (content S) ++
                 (if n <? 0 then [] else drop (pos + Z.to_nat n) (content S)).
Proof.
  intros (Hl & Hu & Hz) Hp Hn. unfold p_string_erase. rewrite decide_True by done.
  set (k := if n <? 0 then (used S - pos)%nat else Z.to_nat n).
  assert (pos + k <= used S)%nat as Hk by (subst k; case_match; bool_lia).
  set (m := if n <? 0 then _ else _).
  assert (exists blk, m = Some (blk, k) /\ length blk = length (str S) /\
    take (used S - k) blk = take pos (content S) ++
      (if n <? 0 then [] else drop (pos + Z.to_nat n) (content S))) as (blk & -> & Lb & Tb).
  { subst m. unfold content. rewrite take_take, Nat.min_l by lia.
    destruct (n <? 0) eqn:E; subst k.
    { eexists; split; [done|]. split; [done|]. rewrite app_nil_r. f_equal. lia. }
    rewrite decide_True by lia. set (k := Z.to_nat n) in *.
    rewrite skipn_firstn_comm. case_decide as Hlt.
    - destruct (poke (str S) pos _) as [b|] eqn:P; simpl.
      + exists b. split; [done|]. split; [by rewrite (poke_length _ _ _ _ P)|].
        replace (used S - k)%nat with (pos + length (take (used S - (pos + k)) (drop (pos + k) (str S))))%nat
          by (rewrite length_take, length_drop; lia).
        by rewrite (poke_take _ _ _ _ P).
      + rewrite poke_ok in P; [done|]. rewrite length_take, length_drop. lia.
    - eexists; split; [done|]. split; [done|].
      replace (used S - (pos + k))%nat with O by lia.
      rewrite app_nil_r. f_equal. lia. }
  simpl. destruct (poke blk (used S - k) [NUL]) as [b|] eqn:P;
    [|rewrite poke_ok in P; [done|simpl; lia]].
  simpl. eexists; split; [done|]. unfold string_wf; simpl. split.
  - rewrite (poke_length _ _ _ _ P). split; [lia|]. split; [lia|].
    rewrite <- (Nat.add_0_r (used S - k)). by eapply poke_lookup_in.
  - unfold content at 1; simpl. by rewrite (poke_take_le _ _ _ _ _ P), Tb by lia.
Qed.

End dm_string_facts.

(** ** Resolving escapes in place *)
Lemma unescape_length f s : (length (unescape f s) <= length s)%nat.
Proof.
  revert f; induction s as [|c s IH]; intros f; simpl; [done|].
  pose proof (IH true). pose proof (IH false). case_match; simpl; lia.
Qed.

Lemma lookup_of_drop {A} (l : list A) i x k : drop i l = x :: k -> l !! i = Some x /\ drop (i + 1) l = k.
Proof.
  intros H. split.
  - rewrite <- (Nat.add_0_r i), <- lookup_drop, H. done.
  - rewrite <- drop_drop, H. done.
Qed.

(** The loop from a read index [this] at or behind the write index [head]: it terminates
    within the fuel, never leaves the block, and writes the unescaped rest behind [head]. *)
Lemma unescape_loop_spec rest tail fuel S head this found :
  (head <= this)%nat -> drop this (str S) = rest ++ NUL :: tail -> NUL ∉ rest ->
  (length rest < fuel)%nat -> (length rest <= used S)%nat ->
  exists S', unescape_loop fuel S head this found = Some S' /\
    length (str S') = length (str S) /\ len S' = len S /\
    used S' = (used S + length (unescape found rest) - length rest)%nat /\
    take (head + length (unescape found rest)) (str S') = take head (str S) ++ unescape found rest /\
    str S' !! (head + length (unescape found rest))%nat = Some NUL.
Proof.
  revert fuel S head this found. induction rest as [|c rest IH];
    intros fuel S head this found Hht Hd Hn Hf Hu; destruct fuel as [|fuel]; simpl in Hf; try lia.
  - apply lookup_of_drop in Hd as [Hc Hd]. simpl. rewrite Hc. simpl.
    pose proof (lookup_lt_Some _ _ _ Hc).
    destruct (poke (str S) head [NUL]) as [b|] eqn:P; [|rewrite poke_ok in P; [done|simpl; lia]].
    eexists; split; [done|]. simpl. rewrite (poke_length _ _ _ _ P).
    rewrite Nat.add_0_r, app_nil_r, (poke_take_le _ _ _ _ _ P) by lia.
    repeat split; try lia; [by rewrite Nat.add_0_r|]. by eapply poke_lookup_in.
  - apply not_elem_of_cons in Hn as [Hc0 Hn]. simpl in Hd, Hu.
    apply lookup_of_drop in Hd as [Hc Hd]. pose proof (lookup_lt_Some _ _ _ Hc).
    assert (exists n, str S !! (this + 1)%nat = Some n /\
      escapable rest = (bool_decide (n = DQUOTE) || bool_decide (n = BACKSLASH))) as (n & Hnx & Em).
    { destruct rest as [|n rest']; simpl in Hd; apply lookup_of_drop in Hd as [Hx _]; eauto. }
    simpl. rewrite Hc; simpl. rewrite bool_decide_eq_false_2 by congruence. rewrite Hnx; simpl.
    rewrite Em. destruct (_ && _ && _) eqn:E.
    + destruct (IH fuel (S <| used := pred (used S) |>) head (this + 1)%nat true)
        as (S' & -> & H1 & H2 & H3 & H4 & H5); simpl; auto; try lia.
      simpl in *. exists S'. repeat split; auto. lia.
    + destruct (poke (str S) head [c]) as [b|] eqn:P; [|rewrite poke_ok in P; [done|simpl; lia]].
      simpl. destruct (IH fuel (S <| str := b |>) (head + 1)%nat (this + 1)%nat false)
        as (S' & -> & H1 & H2 & H3 & H4 & H5); simpl; auto; try lia.
      { rewrite <- Hd. apply list_eq. intros i. rewrite !lookup_drop.
        apply (poke_lookup_ge _ _ _ _ _ P). simpl; lia. }
      simpl in *. exists S'. rewrite (poke_length _ _ _ _ P) in H1.
      replace (head + Datatypes.S (length (unescape false rest)))%nat
        with (head + 1 + length (unescape false rest))%nat by lia.
      repeat split; auto; [lia|].
      rewrite H4, (poke_take _ _ _ _ P : take (head + 1) b = _), <- app_assoc. done.
Qed.

(** [p_string_unescape] on a string without embedded terminators: it terminates inside the
    block and leaves the unescaped text, with [used] counting it. *)
Lemma p_string_unescape_refines S :
  string_wf S -> NUL ∉ content S ->
  exists S', p_string_unescape S = Some S' /\ string_wf S' /\ content S' = unescape false (content S).
Proof.
  intros (Hl & Hu & Hz) Hn.
  assert (str S = content S ++ NUL :: drop (used S + 1) (str S)) as E.
  { unfold content. rewrite Nat.add_1_r. by rewrite take_drop_middle. }
  assert (length (content S) = used S) as Lc by (unfold content; rewrite length_take; lia).
  destruct (unescape_loop_spec (content S) (drop (used S + 1) (str S)) (length (str S)) S 0 0 false)
    as (S' & H0 & H1 & H2 & H3 & H4 & H5); auto; try lia.
  exists S'. split; [exact H0|]. pose proof (unescape_length false (content S)).
  simpl in *. rewrite Lc in *.
  replace (used S + length (unescape false (content S)) - used S)%nat
    with (length (unescape false (content S))) in H3 by lia.
  unfold string_wf. split; [|unfold content at 1; by rewrite H3].
  rewrite H1, H2, H3. repeat split; [lia|lia|done].
Qed.

(** ** Sequences of operations

    A string is only changed through the operations; their sequences are compared with
    their effect on the text. The specification is undefined where an assertion of the code
    fails or a formatted text is longer than an int can count. *)
Inductive string_op :=
| OpAssign (s : cstr)
| OpPrintf (text : cstr)
| OpAppend (text : cstr)
| OpAppendLen (s : cstr)
| OpTruncate (l : nat)
| OpErase (pos : nat) (n : Z).

Definition string_step (fresh : nat -> list ascii) (S : String_T) (op : string_op) : option String_T :=
  match op with
  | OpAssign s => p_string_assign fresh S s
  | OpPrintf t => p_string_printf fresh S t
  | OpAppend t => p_string_append_vprintf fresh S t
  | OpAppendLen s => p_string_append_len fresh S s
  | OpTruncate l => p_string_truncate S l
  | OpErase pos n => p_string_erase S pos n
  end.

Definition text_step (c : cstr) (op : string_op) : option cstr :=
  let printable t := bool_decide (Z.of_nat (length t) <= INT_MAX) in
  match op with
  | OpAssign s => Some s
  | OpPrintf t => if printable t then Some t else None
  | OpAppend t => if printable t then Some (c ++ t) else None
  | OpAppendLen s => Some (c ++ s)
  | OpTruncate l => Some (take l c)
  | OpErase pos n =>
      if decide (pos <= length c)%nat then
        if n <? 0 then Some (take pos c)
        else if Z.of_nat pos + n <=? Z.of_nat (length c)
             then Some (take pos c ++ drop (pos + Z.to_nat n) c) else None
      else None
  end.

Fixpoint run_ops {X} (step : X -> string_op -> option X) (x : X) (ops : list string_op) : option X :=
  match ops with
  | [] => Some x
  | op :: ops => x' ← step x op; run_ops step x' ops
  end.

Section sequences.
Context (fresh : nat -> list ascii) (fresh_length : forall n, length (fresh n) = n).

Lemma content_length S : string_wf S -> length (content S) = used S.
Proof. intros (H1 & H2 & _). unfold content. rewrite length_take. lia. Qed.

Lemma p_string_printf_refines S t :
  string_wf S -> Z.of_nat (length t) <= INT_MAX ->
  exists S', p_string_printf fresh S t = Some S' /\ content S' = t /\ string_wf S'.
Proof.
  intros (H1 & H2 & H3) Ht. unfold p_string_printf.
  match goal with |- context [append _ 2 ?S0 _] =>
    destruct (append_refines fresh fresh_length S0 t) as (S' & E & C & W); auto end.
  - unfold string_wf; simpl. rewrite length_replicate. split; [done|]. split; [lia|].
    apply (lookup_replicate_2 (len S + 1) NUL 0). lia.
  - eauto.
Qed.

Lemma string_step_refines S op c :
  string_wf S -> text_step (content S) op = Some c ->
  exists S', string_step fresh S op = Some S' /\ content S' = c /\ string_wf S'.
Proof.
  intros W. destruct op as [s|t|t|s|l|pos n]; simpl; intros H.
  - simplify_eq. by apply p_string_assign_refines.
  - case_bool_decide; simplify_eq. by apply p_string_printf_refines.
  - case_bool_decide; simplify_eq. by apply append_refines.
  - simplify_eq. by apply p_string_append_len_refines.
  - simplify_eq. by apply p_string_truncate_refines.
  - rewrite content_length in H by done. case_decide; [|done].
    destruct (p_string_erase_refines S pos n) as (S' & E & W' & C); try done.
    { split_hyp H; bool_lia. }
    exists S'. split; [done|]. split; [|done]. rewrite C. split_hyp H; by rewrite ?app_nil_r.
Qed.

(** Every sequence of string operations that the specification defines runs in the C
    representation without an access outside the allocated block, without a failing
    assertion and without unbounded looping, and leaves exactly the specified text with a
    terminator behind it, whatever the allocator fills new memory with. *)
Theorem string_ops_refine s0 ops c :
  run_ops text_step s0 ops = Some c ->
  exists S, run_ops (string_step fresh) (p_string_new s0) ops = Some S /\
    content S = c /\ string_wf S.
Proof.
  destruct (content_new s0) as [C0 W0]. revert C0 W0. generalize (p_string_new s0). intros S.
  revert S s0. induction ops as [|op ops IH]; simpl; intros S c0 C0 W0 H; [simplify_eq; eauto|].
  destruct (text_step c0 op) as [c1|] eqn:E; [|done]. simpl in H. subst c0.
  destruct (string_step_refines S op c1 W0 E) as (S' & E' & C' & W'). rewrite E'. simpl.
  by apply (IH S' c1).
Qed.

End sequences.

Lemma string_ops_refine_witness :
  exists S, run_ops (string_step (fun n => replicate n "?"%char)) (p_string_new (lit "ab"))
    [OpAppend (lit "cde"); OpErase 1 2; OpAppendLen (lit "fgh"); OpTruncate 5] = Some S /\
  content S = lit "adefg" /\ string_wf S.
Proof.
  apply (string_ops_refine (fun n => replicate n "?"%char)).
  - intros n. apply length_replicate.
  - reflexivity.
Defined.
