(* ===== verification/ListT.v ===== *)
(** * dm_list.c: the pool-based doubly linked lists

    [Module Heap] is the C code: nodes with [prev], [next] and [data] in a heap, a pointer
    operation failing ([None]) where the code would follow a NULL or dangling pointer or
    fail an assertion. [plist] is the abstract list: the items and the position of the node
    the pointer designates. The lemmas at the end show that the heap operations implement
    the [plist] operations, which is what the protocol handlers are written against. *)
From S2P Require Import Prelude CLib.

(** ** The abstract list with a cursor *)
Record plist (A : Type) := mkplist { items : list (option A); pos : nat }.
Arguments mkplist {A} _ _.
Arguments items {A} _.
Arguments pos {A} _.

Section plist.
Context {A : Type}.
Implicit Types L : plist A.

Definition p_list_new : plist A := mkplist [None] 0.
Definition ISEMPTY L : bool := match items L with [None] => true | _ => false end.
Definition p_list_append L (d : option A) : plist A :=
  if ISEMPTY L then mkplist [d] 0 else mkplist (items L ++ [d]) (length (items L)).
Definition p_list_prepend L (d : option A) : plist A :=
  if ISEMPTY L then mkplist [d] 0 else mkplist (d :: items L) 0.
Definition p_list_first L : plist A := mkplist (items L) 0.
Definition p_list_last L : plist A := mkplist (items L) (pred (length (items L))).
Definition p_list_next L : option (plist A) :=
  if decide (S (pos L) < length (items L))%nat then Some (mkplist (items L) (S (pos L))) else None.
Definition p_list_previous L : option (plist A) :=
  match pos L with O => None | S i => Some (mkplist (items L) i) end.
Definition p_list_data L : option A := mjoin (items L !! pos L).
Definition p_list_length L : nat := if ISEMPTY L then 0%nat else (length (items L) - pos L)%nat.
(** Removal of the node at index [j]; [None] is the NULL that is returned for the only node. *)
Definition p_list_remove L (j : nat) : option (plist A) :=
  match delete j (items L) with
  | [] => None
  | l => Some (mkplist l 0)
  end.
(** An update of the object the current node points to. *)
Definition p_list_update L (f : A -> A) : plist A :=
  mkplist (alter (fmap f) (pos L) (items L)) (pos L).
Definition plist_wf L : Prop := (pos L < length (items L))%nat.

(** The list [L] holds the objects [xs]: an empty list is a single node without data. *)
Definition held_items (xs : list A) : list (option A) :=
  match xs with [] => [None] | _ => Some <$> xs end.
Definition holds L (xs : list A) : Prop := items L = held_items xs /\ plist_wf L.

Lemma holds_new : holds p_list_new [].
Proof. split; [done|]. unfold plist_wf. simpl. lia. Qed.

Lemma holds_data L xs x : holds L xs -> p_list_data L = Some x -> xs !! pos L = Some x.
Proof.
  intros [E W] Hd. unfold p_list_data in Hd. rewrite E in Hd.
  destruct xs as [|x0 xs]; [by destruct (pos L)|]. simpl in Hd. rewrite <- fmap_cons, list_lookup_fmap in Hd.
  destruct ((x0 :: xs) !! pos L); simpl in Hd; congruence.
Qed.

Lemma holds_data_eq L xs : holds L xs -> p_list_data L = xs !! pos L.
Proof.
  intros [E W]. unfold plist_wf in W. unfold p_list_data. rewrite E in *.
  destruct xs as [|x0 xs]; [by destruct (pos L) as [|[]]|]. simpl. rewrite <- fmap_cons, list_lookup_fmap.
  by destruct ((x0 :: xs) !! pos L).
Qed.

Lemma holds_cursor L xs i : holds L xs -> (i < length (items L))%nat -> holds (mkplist (items L) i) xs.
Proof. intros [E W] Hi. by split. Qed.

Lemma holds_items_length L xs : holds L xs -> length (items L) = Nat.max 1 (length xs).
Proof. intros [-> _]. destruct xs; [done|]. simpl. rewrite length_fmap. lia. Qed.

Lemma holds_first L xs : holds L xs -> holds (p_list_first L) xs.
Proof. intros Hh. apply holds_cursor; [done|]. rewrite (holds_items_length _ _ Hh). lia. Qed.

Lemma append_holds L xs x : holds L xs -> holds (p_list_append L (Some x)) (xs ++ [x]).
Proof.
  intros [E W]. unfold p_list_append, ISEMPTY, holds, plist_wf. rewrite E. destruct xs as [|x0 xs]; simpl.
  - split; [done|lia].
  - destruct xs; simpl; rewrite ?fmap_app, ?length_app, ?length_fmap; simpl; (split; [done|lia]).
Qed.

Lemma prepend_holds L xs x : holds L xs -> holds (p_list_prepend L (Some x)) (x :: xs).
Proof.
  intros [E W]. unfold p_list_prepend, ISEMPTY, holds, plist_wf. rewrite E.
  destruct xs as [|x0 xs]; simpl; (split; [done|lia]).
Qed.

(** The length that is counted from a node is 0 exactly for the empty list. *)
Lemma holds_length L xs : holds L xs -> (0 < p_list_length L)%nat <-> xs <> [].
Proof.
  intros [E W]. unfold p_list_length, ISEMPTY, plist_wf in *. rewrite E in *.
  destruct xs as [|x0 xs]; simpl in *; [split; [lia|done]|]. rewrite length_fmap in *. split; [done|lia].
Qed.

Lemma holds_inj L xs ys : holds L xs -> holds L ys -> xs = ys.
Proof.
  intros [E1 _] [E2 _]. rewrite E1 in E2. destruct xs as [|x xs], ys as [|y ys]; simpl in *; try done.
  rewrite <- !fmap_cons in E2. by apply (inj (fmap Some)) in E2.
Qed.

End plist.

(** ** The C representation *)
Module Heap.
Section heap.
Context {A : Type}.

Abbreviation loc := positive.
Record node := mknode { prev : option loc; next : option loc; data : option A }.
#[export] Instance node_settable : Settable node := fun r => mknode (prev r) (next r) (data r).
Abbreviation heap := (gmap loc node).
Implicit Types h : heap.

Definition _alloc_list h : heap * loc :=
  let l := fresh (dom h) in (<[l := mknode None None None]> h, l).

Definition is_empty (n : node) : bool :=
  match n with mknode None None None => true | _ => false end.

Fixpoint walk_next (fuel : nat) h (l : loc) : option loc :=
  match fuel with
  | O => None
  | S fuel' => n ← h !! l; match next n with Some l' => walk_next fuel' h l' | None => Some l end
  end.
Fixpoint walk_prev (fuel : nat) h (l : loc) : option loc :=
  match fuel with
  | O => None
  | S fuel' => n ← h !! l; match prev n with Some l' => walk_prev fuel' h l' | None => Some l end
  end.
Definition p_list_last h (L : loc) : option loc := walk_next (size h) h L.
Definition p_list_first h (L : loc) : option loc := walk_prev (size h) h L.

Definition upd h (l : loc) (f : node -> node) : option heap :=
  n ← h !! l; Some (<[l := f n]> h).

Definition p_list_append h (L : loc) (d : option A) : option (heap * loc) :=
  n ← h !! L;
  if is_empty n then h ← upd h L (fun n => n <| data := d |>); Some (h, L)
  else
    L ← p_list_last h L;
    let '(h, new) := _alloc_list h in
    h ← upd h new (fun n => n <| data := d |> <| prev := Some L |>);
    h ← upd h L (fun n => n <| next := Some new |>);
    Some (h, new).

Definition p_list_prepend h (L : loc) (d : option A) : option (heap * loc) :=
  n ← h !! L;
  if is_empty n then h ← upd h L (fun n => n <| data := d |>); Some (h, L)
  else
    L ← p_list_first h L;
    let '(h, new) := _alloc_list h in
    h ← upd h new (fun n => n <| data := d |> <| next := Some L |>);
    h ← upd h L (fun n => n <| prev := Some new |>);
    Some (h, new).

Fixpoint count (fuel : nat) h (L : option loc) : option nat :=
  match L with
  | None => Some O
  | Some l => match fuel with
              | O => None
              | S fuel' => n ← h !! l; S <$> count fuel' h (next n)
              end
  end.
Definition p_list_length h (L : loc) : option nat :=
  n ← h !! L; if is_empty n then Some O else count (size h) h (Some L).

Definition p_list_remove h (L : loc) (E : option loc) : option (heap * option loc) :=
  match E with
  | None => Some (h, Some L)
  | Some E =>
      L ← p_list_first h L;
      e ← h !! E;
      h ← match prev e with Some p => upd h p (fun n => n <| next := next e |>) | None => Some h end;
      e ← h !! E;
      h ← match next e with Some q => upd h q (fun n => n <| prev := prev e |>) | None => Some h end;
      R ← (if decide (L = E) then n ← h !! L; Some (next n) else Some (Some L));
      h ← upd h E (fun n => n <| next := None |>);
      h ← upd h E (fun n => n <| prev := None |>);
      Some (h, R)
  end.

(** The nodes [locs] form a list that holds [its]. *)
Definition prev_loc (locs : list loc) (i : nat) : option loc :=
  match i with O => None | S j => locs !! j end.
Definition lrep h (locs : list loc) (its : list (option A)) : Prop :=
  NoDup locs /\ length locs = length its /\
  forall i l d, locs !! i = Some l -> its !! i = Some d ->
    h !! l = Some (mknode (prev_loc locs i) (locs !! S i) d).

(** The pointer [L] designates the cursor of the abstract list. *)
Definition repr h (locs : list loc) (L : loc) (P : plist A) : Prop :=
  lrep h locs (items P) /\ locs !! pos P = Some L.

Lemma lrep_lookup h locs its i l :
  lrep h locs its -> locs !! i = Some l ->
  exists d, its !! i = Some d /\ h !! l = Some (mknode (prev_loc locs i) (locs !! S i) d).
Proof.
  intros (_ & Hlen & H) Hl.
  destruct (lookup_lt_is_Some_2 its i) as [d Hd].
  { rewrite <- Hlen. by eapply lookup_lt_Some. }
  eauto.
Qed.

Lemma lrep_dom h locs its l : lrep h locs its -> l ∈ locs -> l ∈ dom h.
Proof.
  intros H [i Hi]%list_elem_of_lookup. destruct (lrep_lookup _ _ _ _ _ H Hi) as (d & _ & E).
  by eapply elem_of_dom_2.
Qed.

Lemma lrep_size h locs its : lrep h locs its -> (length locs <= size h)%nat.
Proof.
  intros H. pose proof H as (ND & _). rewrite <- size_dom, <- (size_list_to_set (C:=gset loc) locs) by done.
  apply subseteq_size. intros l Hl%elem_of_list_to_set. by eapply lrep_dom.
Qed.

(** The walks end within the size of the heap, at the ends of the list. *)
Lemma walk_next_spec h locs its i l fuel :
  lrep h locs its -> locs !! i = Some l -> (length locs - i <= fuel)%nat ->
  walk_next fuel h l = last locs.
Proof.
  intros H. revert i l. induction fuel as [|fuel IH]; intros i l Hl Hf.
  { apply lookup_lt_Some in Hl. lia. }
  simpl. destruct (lrep_lookup _ _ _ _ _ H Hl) as (d & _ & ->). simpl.
  destruct (locs !! S i) as [l'|] eqn:E; [apply (IH (S i)); auto; lia|].
  rewrite last_lookup. apply lookup_ge_None in E. apply lookup_lt_Some in Hl as Hlt.
  by replace (pred (length locs)) with i by lia.
Qed.

Lemma walk_prev_spec h locs its i l fuel :
  lrep h locs its -> locs !! i = Some l -> (i < fuel)%nat -> walk_prev fuel h l = head locs.
Proof.
  intros H. revert i l. induction fuel as [|fuel IH]; intros i l Hl Hf; [lia|].
  simpl. destruct (lrep_lookup _ _ _ _ _ H Hl) as (d & _ & ->). simpl.
  destruct i as [|i]; simpl; [by rewrite head_lookup|].
  destruct (lookup_lt_is_Some_2 locs i) as [l' El]; [apply lookup_lt_Some in Hl; lia|].
  rewrite El. apply (IH i); [done|lia].
Qed.

Lemma p_list_last_spec h locs its i l :
  lrep h locs its -> locs !! i = Some l -> p_list_last h l = last locs.
Proof. intros H Hl. eapply walk_next_spec; eauto. pose proof (lrep_size _ _ _ H). lia. Qed.

Lemma p_list_first_spec h locs its i l :
  lrep h locs its -> locs !! i = Some l -> p_list_first h l = head locs.
Proof.
  intros H Hl. eapply walk_prev_spec; eauto. pose proof (lrep_size _ _ _ H).
  apply lookup_lt_Some in Hl. lia.
Qed.

Lemma is_empty_spec h locs its i l n :
  lrep h locs its -> locs !! i = Some l -> h !! l = Some n ->
  is_empty n = ISEMPTY (mkplist its i).
Proof.
  intros H Hl Hn. destruct (lrep_lookup _ _ _ _ _ H Hl) as (d & Hd & E). simplify_eq.
  pose proof H as (_ & Hlen & _). unfold ISEMPTY; simpl.
  apply lookup_lt_Some in Hl as Hlt. apply lookup_lt_Some in Hd as Hlt'.
  destruct (locs !! S i) as [l'|] eqn:E'; simpl.
  { apply lookup_lt_Some in E'. rewrite Hlen in E'.
    destruct (prev_loc locs i), its as [|[] [|]]; simpl in *; try done; lia. }
  apply lookup_ge_None in E'. destruct i as [|i]; simpl.
  - destruct its as [|x [|]]; simpl in *; try lia. simplify_eq. by destruct d.
  - destruct (lookup_lt_is_Some_2 locs i) as [l' ->]; [lia|].
    destruct its as [|[] [|]]; simpl in *; try done; lia.
Qed.

Lemma locs_fresh h locs its l : lrep h locs its -> l ∉ dom h -> l ∉ locs.
Proof. intros H Hl Hin. by apply Hl, (lrep_dom h locs its). Qed.

Lemma locs_ne h locs its i j l l' :
  lrep h locs its -> locs !! i = Some l -> locs !! j = Some l' -> i <> j -> l <> l'.
Proof. intros (ND & _) Hi Hj Hne ->. apply Hne. by eapply NoDup_lookup. Qed.

(** Linking a fresh node behind the last one. *)
Lemma lrep_snoc h locs its l d new :
  lrep h locs its -> last locs = Some l -> new ∉ dom h ->
  exists n, h !! l = Some n /\
    lrep (<[l := n <| next := Some new |>]> (<[new := mknode (Some l) None d]> h))
         (locs ++ [new]) (its ++ [d]).
Proof.
  intros H Hl Hnew. rewrite last_lookup in Hl.
  destruct (lrep_lookup _ _ _ _ _ H Hl) as (dl & Hdl & Hn). eexists; split; [exact Hn|].
  pose proof H as (ND & Hlen & HH). pose proof (locs_fresh _ _ _ _ H Hnew) as Hf.
  pose proof (lookup_lt_Some _ _ _ Hl) as Hlt. split; [|split].
  - apply NoDup_app. repeat split; [done| |apply NoDup_singleton].
    intros x Hx ->%list_elem_of_singleton. done.
  - rewrite !length_app. simpl. lia.
  - intros i x e Hx He. destruct (decide (i = length locs)) as [->|Hi].
    { rewrite list_lookup_middle in Hx by done. rewrite Hlen, list_lookup_middle in He by done.
      simplify_eq. rewrite lookup_insert_ne by (intros ->; apply Hf; by eapply list_elem_of_lookup_2).
      rewrite lookup_insert_eq. rewrite lookup_app_r by lia.
      destruct (length locs) as [|m] eqn:Em; simpl in *; [lia|].
      rewrite lookup_app_l by lia. rewrite Hl. by replace (S m - m)%nat with 1%nat by lia. }
    apply lookup_lt_Some in Hx as Hix. rewrite length_app in Hix; simpl in Hix.
    rewrite lookup_app_l in Hx by lia. rewrite lookup_app_l in He by lia.
    assert (prev_loc (locs ++ [new]) i = prev_loc locs i) as ->.
    { destruct i; simpl; [done|]. apply lookup_app_l. lia. }
    destruct (decide (x = l)) as [->|Hne].
    + rewrite lookup_insert_eq. assert (i = pred (length locs)) as -> by (by eapply NoDup_lookup).
      simplify_eq. replace (S (pred (length locs))) with (length locs) by lia.
      by rewrite list_lookup_middle.
    + rewrite lookup_insert_ne by done.
      rewrite lookup_insert_ne by (intros ->; apply Hf; by eapply list_elem_of_lookup_2).
      rewrite (HH i x e) by done. rewrite lookup_app_l; [done|].
      enough (i <> pred (length locs)) by lia. intros ->. congruence.
Qed.

(** Linking a fresh node in front of the first one. *)
Lemma lrep_cons h locs its l d new :
  lrep h locs its -> head locs = Some l -> new ∉ dom h ->
  exists n, h !! l = Some n /\
    lrep (<[l := n <| prev := Some new |>]> (<[new := mknode None (Some l) d]> h))
         (new :: locs) (d :: its).
Proof.
  intros H Hl Hnew. rewrite head_lookup in Hl.
  destruct (lrep_lookup _ _ _ _ _ H Hl) as (dl & Hdl & Hn). eexists; split; [exact Hn|].
  pose proof H as (ND & Hlen & HH). pose proof (locs_fresh _ _ _ _ H Hnew) as Hf.
  split; [|split].
  - by apply NoDup_cons.
  - simpl. lia.
  - intros [|i] x e; simpl.
    + intros [= <-] [= <-]. rewrite lookup_insert_ne by (intros ->; apply Hf; by eapply list_elem_of_lookup_2).
      by rewrite lookup_insert_eq, Hl.
    + intros Hx He. destruct (decide (x = l)) as [->|Hne].
      * rewrite lookup_insert_eq. assert (i = 0%nat) as -> by (by eapply NoDup_lookup). by simplify_eq.
      * rewrite lookup_insert_ne by done.
        rewrite lookup_insert_ne by (intros ->; apply Hf; by eapply list_elem_of_lookup_2).
        rewrite (HH i x e) by done. destruct i as [|i]; [congruence|done].
Qed.

Lemma lrep_singleton_data h l d d' :
  lrep h [l] [d] -> lrep (<[l := mknode None None d']> h) [l] [d'].
Proof.
  intros _. split; [apply NoDup_singleton|]. split; [done|].
  intros [|i] x e; simpl; [|done]. intros [= <-] [= <-]. by rewrite lookup_insert_eq.
Qed.

Lemma repr_node h locs L P :
  lrep h locs (items P) -> locs !! pos P = Some L ->
  exists n, h !! L = Some n /\ is_empty n = ISEMPTY P.
Proof.
  intros H HL. destruct (lrep_lookup _ _ _ _ _ H HL) as (d & _ & En). eexists; split; [exact En|].
  destruct P. by eapply is_empty_spec.
Qed.

(** The heap operations implement the operations on the abstract list. *)
Lemma p_list_append_refines h locs L P d :
  repr h locs L P ->
  exists h' locs' L', p_list_append h L d = Some (h', L') /\ repr h' locs' L' (ListT.p_list_append P d).
Proof.
  intros [H HL]. destruct (repr_node _ _ _ _ H HL) as (nL & En & Ee).
  unfold p_list_append, ListT.p_list_append. rewrite En; simpl.
  rewrite Ee. destruct (ISEMPTY P) eqn:Em; unfold ISEMPTY in Em.
  - destruct P as [its i]; simpl in *. destruct its as [|[a|] [|]]; try done.
    pose proof H as (_ & Hlen & _). destruct locs as [|l0 [|]]; simpl in Hlen; try lia.
    destruct i as [|i]; simpl in *; [|done]. simplify_eq.
    unfold upd. rewrite En; simpl. destruct nL as [[] [] []]; try done.
    eexists _, [L], L. split; [done|]. split; [|done]. by eapply lrep_singleton_data.
  - rewrite (p_list_last_spec _ _ _ _ _ H HL).
    destruct (last locs) as [l|] eqn:El.
    2:{ apply last_None in El. by subst. }
    simpl. set (new := fresh (dom h)). pose proof (is_fresh (dom h)) as Hf. fold new in Hf.
    destruct (lrep_snoc h locs (items P) l d new H El Hf) as (n & En' & Hr).
    unfold upd. rewrite lookup_insert_eq; simpl. rewrite insert_insert_eq.
    rewrite lookup_insert_ne by (intros ->; apply Hf; by eapply elem_of_dom_2).
    rewrite En'; simpl. eexists _, (locs ++ [new]), new. split; [done|]. split; [done|]. simpl.
    pose proof H as (_ & Hlen & _). rewrite <- Hlen. by rewrite list_lookup_middle.
Qed.

Lemma p_list_prepend_refines h locs L P d :
  repr h locs L P ->
  exists h' locs' L', p_list_prepend h L d = Some (h', L') /\ repr h' locs' L' (ListT.p_list_prepend P d).
Proof.
  intros [H HL]. destruct (repr_node _ _ _ _ H HL) as (nL & En & Ee).
  unfold p_list_prepend, ListT.p_list_prepend. rewrite En; simpl.
  rewrite Ee. destruct (ISEMPTY P) eqn:Em; unfold ISEMPTY in Em.
  - destruct P as [its i]; simpl in *. destruct its as [|[a|] [|]]; try done.
    pose proof H as (_ & Hlen & _). destruct locs as [|l0 [|]]; simpl in Hlen; try lia.
    destruct i as [|i]; simpl in *; [|done]. simplify_eq.
    unfold upd. rewrite En; simpl. destruct nL as [[] [] []]; try done.
    eexists _, [L], L. split; [done|]. split; [|done]. by eapply lrep_singleton_data.
  - rewrite (p_list_first_spec _ _ _ _ _ H HL).
    destruct (head locs) as [l|] eqn:El; [|by destruct locs].
    simpl. set (new := fresh (dom h)). pose proof (is_fresh (dom h)) as Hf. fold new in Hf.
    destruct (lrep_cons h locs (items P) l d new H El Hf) as (n & En' & Hr).
    unfold upd. rewrite lookup_insert_eq; simpl. rewrite insert_insert_eq.
    rewrite lookup_insert_ne by (intros ->; apply Hf; by eapply elem_of_dom_2).
    rewrite En'; simpl. by eexists _, (new :: locs), new.
Qed.

Definition p_list_next h (L : loc) : option (option loc) := n ← h !! L; Some (next n).
Definition p_list_previous h (L : loc) : option (option loc) := n ← h !! L; Some (prev n).
Definition p_list_data h (L : loc) : option (option A) := n ← h !! L; Some (data n).

Lemma count_spec h locs its i fuel :
  lrep h locs its -> (i <= length locs)%nat -> (length locs - i <= fuel)%nat ->
  count fuel h (locs !! i) = Some (length locs - i)%nat.
Proof.
  intros H. revert i. induction fuel as [|fuel IH]; intros i Hi Hf.
  { rewrite (proj2 (lookup_ge_None locs i)) by lia. simpl. f_equal. lia. }
  destruct (locs !! i) as [l|] eqn:Hl; simpl.
  - destruct (lrep_lookup _ _ _ _ _ H Hl) as (d & _ & ->). simpl.
    apply lookup_lt_Some in Hl. rewrite IH by lia. simpl. f_equal. lia.
  - apply lookup_ge_None in Hl. f_equal. lia.
Qed.

Lemma p_list_length_refines h locs L P :
  repr h locs L P -> p_list_length h L = Some (ListT.p_list_length P).
Proof.
  intros [H HL]. destruct (repr_node _ _ _ _ H HL) as (n & En & Ee).
  unfold p_list_length, ListT.p_list_length. rewrite En; simpl. rewrite Ee.
  case_match; [done|]. pose proof (lookup_lt_Some _ _ _ HL). pose proof (lrep_size _ _ _ H).
  rewrite <- HL, (count_spec h locs (items P)) by (done || lia).
  by destruct H as (_ & -> & _).
Qed.

Lemma p_list_data_refines h locs L P :
  repr h locs L P -> p_list_data h L = Some (ListT.p_list_data P).
Proof.
  intros [H HL]. destruct (lrep_lookup _ _ _ _ _ H HL) as (d & Hd & En).
  unfold p_list_data, ListT.p_list_data. by rewrite En, Hd.
Qed.

Lemma p_list_next_refines h locs L P :
  repr h locs L P -> exists r, p_list_next h L = Some r /\
    match r, ListT.p_list_next P with
    | Some L', Some P' => repr h locs L' P' | None, None => True | _, _ => False end.
Proof.
  intros [H HL]. destruct (lrep_lookup _ _ _ _ _ H HL) as (d & Hd & En).
  unfold p_list_next, ListT.p_list_next. rewrite En; simpl. eexists; split; [done|].
  pose proof H as (_ & Hlen & _). rewrite <- Hlen. case_decide as E.
  - destruct (locs !! S (pos P)) eqn:E'; [done|]. apply lookup_ge_None in E'. lia.
  - by rewrite (proj2 (lookup_ge_None _ _)) by lia.
Qed.

Lemma p_list_previous_refines h locs L P :
  repr h locs L P -> exists r, p_list_previous h L = Some r /\
    match r, ListT.p_list_previous P with
    | Some L', Some P' => repr h locs L' P' | None, None => True | _, _ => False end.
Proof.
  intros [H HL]. destruct (lrep_lookup _ _ _ _ _ H HL) as (d & Hd & En).
  unfold p_list_previous, ListT.p_list_previous. rewrite En; simpl. eexists; split; [done|].
  destruct (pos P) as [|i] eqn:Ep; simpl; [done|].
  destruct (lookup_lt_is_Some_2 locs i) as [l El]; [apply lookup_lt_Some in HL; lia|].
  by rewrite El.
Qed.

(** Unlinking the node at index [j]. *)
Lemma lrep_delete h h' locs its j e :
  lrep h locs its -> locs !! j = Some e ->
  (forall i l n, locs !! i = Some l -> i <> j -> h !! l = Some n ->
     h' !! l = Some (mknode (if decide (i = S j) then prev_loc locs j else prev n)
                            (if decide (S i = j) then locs !! S j else next n) (data n))) ->
  lrep h' (delete j locs) (delete j its).
Proof.
  intros H He Hh. pose proof H as (ND & Hlen & HH). apply lookup_lt_Some in He as Hlt.
  split; [|split].
  - eapply sublist_NoDup; [done|apply sublist_delete].
  - rewrite !length_delete; [lia| |]; apply lookup_lt_is_Some; lia.
  - intros i l d Hl Hd. rewrite list_lookup_delete in Hl. rewrite list_lookup_delete in Hd.
    set (i' := if decide (i < j)%nat then i else S i) in *.
    assert (i' <> j) as Hne by (subst i'; case_decide; lia).
    rewrite (Hh i' l _ Hl Hne (HH i' l d Hl Hd)). simpl. f_equal. subst i'.
    case_decide as Hij; f_equal.
    + rewrite decide_False by lia. destruct i as [|i]; simpl; [done|].
      by rewrite list_lookup_delete_lt by lia.
    + case_decide; [|by rewrite list_lookup_delete_lt by lia].
      subst j. by rewrite list_lookup_delete_ge by lia.
    + case_decide as E.
      * assert (i = j) as -> by lia. destruct j as [|j]; simpl; [done|].
        by rewrite list_lookup_delete_lt by lia.
      * destruct i as [|i]; [lia|]. simpl. by rewrite list_lookup_delete_ge by lia.
    + rewrite decide_False by lia. by rewrite list_lookup_delete_ge by lia.
Qed.

Lemma upd_alter h l n f : h !! l = Some n -> upd h l f = Some (alter f l h).
Proof.
  intros E. unfold upd. rewrite E; simpl. f_equal. apply map_eq. intros k.
  destruct (decide (k = l)) as [->|].
  - by rewrite lookup_insert_eq, lookup_alter_eq, E.
  - by rewrite lookup_insert_ne, lookup_alter_ne.
Qed.

(** The heap after the links around [e] have been changed. *)
Definition unlink h (e : loc) (n : node) : heap :=
  let h1 := match prev n with Some p => alter (fun m => m <| next := next n |>) p h | None => h end in
  match next n with Some q => alter (fun m => m <| prev := prev n |>) q h1 | None => h1 end.

Lemma unlink_lookup h locs its j e n i l m :
  lrep h locs its -> locs !! j = Some e -> h !! e = Some n ->
  locs !! i = Some l -> h !! l = Some m ->
  unlink h e n !! l = Some (mknode (if decide (i = S j) then prev_loc locs j else prev m)
                                   (if decide (S i = j) then locs !! S j else next m) (data m)).
Proof.
  intros H Hj He Hi Hm. pose proof H as (ND & Hlen & HH).
  destruct (lrep_lookup _ _ _ _ _ H Hj) as (d & _ & En). rewrite En in He. simplify_eq.
  unfold unlink; simpl.
  set (h1 := match prev_loc locs j with Some p => _ | None => h end).
  assert (h1 !! l = Some (m <| next := if decide (S i = j) then locs !! S j else next m |>)) as E1.
  { subst h1. destruct j as [|j]; simpl; [by rewrite Hm; destruct m|].
    destruct (lookup_lt_is_Some_2 locs j) as [p Hp]; [apply lookup_lt_Some in Hj; lia|].
    rewrite Hp. case_decide.
    - assert (p = l) as -> by (simplify_eq; congruence). by rewrite lookup_alter_eq, Hm.
    - rewrite lookup_alter_ne; [by rewrite Hm; destruct m|].
      eapply locs_ne; eauto. }
  destruct (locs !! S j) as [q|] eqn:Hq.
  - destruct (decide (i = S j)) as [->|].
    + assert (l = q) as -> by congruence. rewrite lookup_alter_eq, E1. by destruct m.
    + rewrite lookup_alter_ne; [by rewrite E1; destruct m|]. eapply locs_ne; eauto.
  - rewrite decide_False; [by rewrite E1; destruct m|]. intros ->. congruence.
Qed.

(** The two guarded assignments of [p_list_remove]. *)
Lemma unlink_steps {X} h locs its j e n (k : heap -> option X) :
  lrep h locs its -> locs !! j = Some e -> h !! e = Some n ->
  (h ← match prev n with Some p => upd h p (fun m => m <| next := next n |>) | None => Some h end;
   e' ← h !! e;
   h ← match next e' with Some q => upd h q (fun m => m <| prev := prev e' |>) | None => Some h end;
   k h) = k (unlink h e n).
Proof.
  intros H Hj He. destruct (lrep_lookup _ _ _ _ _ H Hj) as (d & _ & En). rewrite En in He.
  simplify_eq. unfold unlink; simpl.
  set (h1 := match prev_loc locs j with Some p => alter _ p h | None => h end).
  assert (match prev_loc locs j with
          | Some p => upd h p (fun m => m <| next := locs !! S j |>) | None => Some h end = Some h1 /\
          forall i l, locs !! i = Some l -> S i <> j -> h1 !! l = h !! l) as [-> Hh1].
  { subst h1. destruct j as [|j]; simpl; [done|].
    destruct (lookup_lt_is_Some_2 locs j) as [p Hp]; [apply lookup_lt_Some in Hj; lia|].
    rewrite Hp. destruct (lrep_lookup _ _ _ _ _ H Hp) as (dp & _ & Ep).
    rewrite (upd_alter _ _ _ _ Ep). split; [done|]. intros i l Hi Hne.
    apply lookup_alter_ne. eapply locs_ne; eauto. }
  simpl. rewrite (Hh1 j e Hj) by lia. rewrite En; simpl.
  destruct (locs !! S j) as [q|] eqn:Hq; simpl; [|done].
  destruct (lrep_lookup _ _ _ _ _ H Hq) as (dq & _ & Eq).
  rewrite <- (Hh1 _ _ Hq) in Eq by lia. by rewrite (upd_alter _ _ _ _ Eq).
Qed.

Lemma p_list_remove_refines h locs L P j e :
  repr h locs L P -> locs !! j = Some e ->
  exists h' r, p_list_remove h L (Some e) = Some (h', r) /\
    match r, ListT.p_list_remove P j with
    | Some L', Some P' => repr h' (delete j locs) L' P' | None, None => True | _, _ => False end.
Proof.
  intros [H HL] Hj. destruct (lrep_lookup _ _ _ _ _ H Hj) as (d & Hd & En).
  pose proof H as (ND & Hlen & HH). set (n := mknode _ _ _) in En.
  assert (forall i l m, locs !! i = Some l -> h !! l = Some m -> unlink h e n !! l = Some (mknode
    (if decide (i = S j) then prev_loc locs j else prev m)
    (if decide (S i = j) then locs !! S j else next m) (data m))) as HU
    by (intros; by eapply unlink_lookup).
  assert (exists L0, head locs = Some L0) as [L0 HL0]
    by (destruct locs; [by rewrite lookup_nil in HL|eauto]).
  set (h' := <[e := mknode None None (data n)]> (unlink h e n)).
  exists h', (if decide (L0 = e) then locs !! S j else Some L0). split.
  - unfold p_list_remove. rewrite (p_list_first_spec _ _ _ _ _ H HL), HL0. simpl.
    rewrite En; simpl. rewrite (unlink_steps h locs (items P) j e n) by done. simpl.
    assert (unlink h e n !! e = Some n) as Eu.
    { rewrite (HU j e n Hj En), !decide_False by lia. done. }
    subst h'. unfold upd. case_decide; subst; simpl; rewrite Eu; simpl; rewrite ?Eu; simpl;
      rewrite lookup_insert_eq; simpl; by rewrite insert_insert_eq.
  - assert (lrep h' (delete j locs) (delete j (items P))) as Hr.
    { eapply lrep_delete; [done..|]. intros i l m Hi Hne Hm. subst h'.
      rewrite lookup_insert_ne by (eapply locs_ne; eauto). by apply HU. }
    rewrite head_lookup in HL0. unfold ListT.p_list_remove. case_decide as E; subst.
    + assert (j = 0%nat) as -> by (by eapply NoDup_lookup).
      destruct locs as [|l0 [|l1 locs]]; simpl in *; [done| |];
        destruct (items P) as [|x [|y its]]; simpl in *; try lia; done.
    + assert (delete j locs !! 0%nat = Some L0) as E0.
      { rewrite list_lookup_delete_lt; [done|]. destruct j; [congruence|lia]. }
      pose proof Hr as (_ & Hlen' & _).
      destruct (delete j (items P)) eqn:Ed; [|done].
      destruct (delete j locs); simpl in *; [done|lia].
Qed.

(** A pointer result and an abstract result agree: both NULL, or the pointer designates the
    cursor of the abstract list. *)
Definition ptr_rel h (r : option loc) (p : option (plist A)) : Prop :=
  match r, p with
  | Some L, Some P => exists locs, repr h locs L P
  | None, None => True
  | _, _ => False
  end.

(** The pointer code of dm_list.c implements the list with a cursor: from a heap where
    the pointer designates a list, every operation stays on valid nodes, terminates, and
    returns a pointer (or NULL) that designates what the abstract operation yields. *)
Theorem list_ops_refine h locs L P :
  repr h locs L P ->
  (forall d, exists h' L', p_list_append h L d = Some (h', L') /\
     ptr_rel h' (Some L') (Some (ListT.p_list_append P d))) /\
  (forall d, exists h' L', p_list_prepend h L d = Some (h', L') /\
     ptr_rel h' (Some L') (Some (ListT.p_list_prepend P d))) /\
  (exists L', p_list_first h L = Some L' /\ ptr_rel h (Some L') (Some (ListT.p_list_first P))) /\
  (exists L', p_list_last h L = Some L' /\ ptr_rel h (Some L') (Some (ListT.p_list_last P))) /\
  (exists r, p_list_next h L = Some r /\ ptr_rel h r (ListT.p_list_next P)) /\
  (exists r, p_list_previous h L = Some r /\ ptr_rel h r (ListT.p_list_previous P)) /\
  (forall j e, locs !! j = Some e -> exists h' r, p_list_remove h L (Some e) = Some (h', r) /\
     ptr_rel h' r (ListT.p_list_remove P j)) /\
  p_list_data h L = Some (ListT.p_list_data P) /\
  p_list_length h L = Some (ListT.p_list_length P).
Proof.
  intros HR. pose proof HR as [H HL]. pose proof H as (_ & Hlen & _).
  assert (locs <> []) as Hne by (by intros ->).
  repeat split; intros.
  - destruct (p_list_append_refines _ _ _ _ d HR) as (h' & l' & L' & ? & ?). simpl; eauto.
  - destruct (p_list_prepend_refines _ _ _ _ d HR) as (h' & l' & L' & ? & ?). simpl; eauto.
  - rewrite (p_list_first_spec _ _ _ _ _ H HL). destruct locs as [|l0 ?]; [done|].
    exists l0. split; [done|]. by exists (l0 :: locs).
  - rewrite (p_list_last_spec _ _ _ _ _ H HL). destruct (last locs) as [l|] eqn:El.
    + exists l. split; [done|]. exists locs. split; [done|]. simpl. by rewrite <- Hlen, <- last_lookup.
    + by apply last_None in El.
  - destruct (p_list_next_refines _ _ _ _ HR) as (r & E & Hr). exists r. split; [done|].
    unfold ptr_rel. repeat case_match; eauto.
  - destruct (p_list_previous_refines _ _ _ _ HR) as (r & E & Hr). exists r. split; [done|].
    unfold ptr_rel. repeat case_match; eauto.
  - destruct (p_list_remove_refines _ _ _ _ j e HR) as (h' & r & E & Hr); [done|].
    exists h', r. split; [done|]. unfold ptr_rel. repeat case_match; eauto.
  - by eapply p_list_data_refines.
  - by eapply p_list_length_refines.
Qed.

End heap.
Arguments node A : clear implicits.
Arguments mknode {A} _ _ _.

Lemma list_ops_refine_witness :
  exists h' r, p_list_remove (A := nat)
    (<[1%positive := mknode None (Some 2%positive) (Some 5%nat)]>
     (<[2%positive := mknode (Some 1%positive) None (Some 7%nat)]> ∅)) 2%positive (Some 1%positive)
    = Some (h', r) /\ ptr_rel h' r (Some (mkplist [Some 7%nat] 0)).
Proof.
  edestruct (list_ops_refine (A := nat)
    (<[1%positive := mknode None (Some 2%positive) (Some 5%nat)]>
     (<[2%positive := mknode (Some 1%positive) None (Some 7%nat)]> ∅))
    [1%positive; 2%positive] 2%positive (mkplist [Some 5%nat; Some 7%nat] 1))
    as (_ & _ & _ & _ & _ & _ & R & _).
  - split; [|reflexivity]. split; [|split; [reflexivity|]].
    + apply (bool_decide_eq_true_1 _). reflexivity.
    + intros [|[|i]] l d Hl Hd; simpl in *; simplify_eq; reflexivity.
  - exact (R 0%nat 1%positive eq_refl).
Defined.

End Heap.
