(* ===== verification/ClientBase.v ===== *)
(** * clientbase.c: the buffered client connection

    [ClientBase_T] with its two buffers, its state flags and its counters, and the functions
    that move bytes between the buffers and the socket, for plain and for TLS connections.

    The kernel and the TLS library are not part of the repository. What they answer is a
    script in the state: the results of the successive [write]/[SSL_write] calls
    ([wscript]), of the [read]/[SSL_read] calls ([rscript]) and of the TLS handshakes
    ([tscript]); when a script is used up the call would block. [wire] records the bytes the
    peer was sent. [fault] is set where the C code has no defined behaviour: a format that
    asks for an argument that is not there, or a read behind the end of a buffer. *)
From S2P Require Import Prelude CLib GLib.

(** ** Server configuration *)
Class ServerConf := {
  conf_timeout : nat;
  conf_login_timeout : nat;
  conf_ssl : bool;               (** server_conf->ssl *)
  conf_login_disabled : cstr;    (** the configuration value login_disabled *)
  conf_banner : cstr;            (** the configuration value banner *)
}.

Definition CLIENT_OK : Z := 0.
Definition CLIENT_AGAIN : Z := 1.
Definition CLIENT_ERR : Z := 2.
Definition CLIENT_EOF : Z := 4.
Definition TLS_SEGMENT : nat := Z.to_nat 262144.
Definition MAX_LINESIZE : nat := Z.to_nat 65536.
Definition IBUFLEN : nat := Z.to_nat 65535.
Lemma TLS_SEGMENT_Z : Z.of_nat TLS_SEGMENT = 262144.
Proof. unfold TLS_SEGMENT. lia. Qed.
Lemma MAX_LINESIZE_Z : Z.of_nat MAX_LINESIZE = 65536.
Proof. unfold MAX_LINESIZE. lia. Qed.
Lemma IBUFLEN_Z : Z.of_nat IBUFLEN = 65535.
Proof. unfold IBUFLEN. lia. Qed.
#[global] Opaque TLS_SEGMENT MAX_LINESIZE IBUFLEN.
Definition DM_SUCCESS : Z := 0.
Definition DM_EQUERY : Z := -1.
Definition DM_EGENERAL : Z := 1.
Definition EAGAIN : Z := 11.
Definition EINTR : Z := 4.
Definition SSL_ERROR_NONE : Z := 0.
Definition SSL_ERROR_SSL : Z := 1.
Definition SSL_ERROR_WANT_READ : Z := 2.
Definition SSL_ERROR_WANT_WRITE : Z := 3.
Definition SSL_ERROR_SYSCALL : Z := 5.
Definition SSL_ERROR_ZERO_RETURN : Z := 6.

(** ** What the environment answers *)

(** [Accept k]: up to [k + 1] bytes are taken; [Fail e]: -1 with errno (or the TLS error
    code) [e], which is not zero after a failure; [Ragged e]: 0, with TLS error code [e]. *)
Inductive wres := Accept (k : nat) | Fail (e : positive) | Ragged (e : Z).
(** [Data bs]: these bytes are available; [RFail e]: -1; [REof e]: 0. *)
Inductive rres := Data (bs : list ascii) | RFail (e : positive) | REof (e : Z).
(** The TLS handshake: the setup fails, the handshake succeeds, or it ends with a code. *)
Inductive tres := TlsSetupFails | TlsAccept | TlsError (e : Z).

Record ClientBase_T := mkci {
  ssl : bool;                      (** sock->ssl is not NULL *)
  ssl_state : Z;
  rx : Z;
  bytes_rx : Z;
  bytes_tx : Z;
  client_state : Z;
  rev_on : bool;                   (** the read event is scheduled *)
  wev_on : bool;                   (** the write event is scheduled *)
  tv_sec : Z;                      (** timeout *)
  tls_wbuf : list ascii;
  tls_wbuf_n : nat;
  rbuff_size : Z;
  read_buffer : list ascii;
  read_buffer_offset : nat;
  write_buffer : option (list ascii);
  write_buffer_offset : nat;
  len : Z;
  wscript : list wres;
  rscript : list rres;
  tscript : list tres;
  wire : list ascii;
  fault : bool;
}.
#[export] Instance ClientBase_settable : Settable ClientBase_T := fun r =>
  mkci (ssl r) (ssl_state r) (rx r) (bytes_rx r) (bytes_tx r) (client_state r) (rev_on r)
       (wev_on r) (tv_sec r) (tls_wbuf r) (tls_wbuf_n r) (rbuff_size r) (read_buffer r)
       (read_buffer_offset r) (write_buffer r) (write_buffer_offset r) (len r) (wscript r)
       (rscript r) (tscript r) (wire r) (fault r).

Definition has_flag (state f : Z) : bool := negb (Z.land state f =? 0).
Definition errored (c : ClientBase_T) : bool := has_flag (client_state c) CLIENT_ERR.
Definition set_flag (c : ClientBase_T) (f : Z) : ClientBase_T :=
  c <| client_state ::= fun s => Z.lor s f |>.

(** The zero-terminated string that starts a memory area. *)
Definition cstring_of (s : list ascii) : cstr :=
  match str_index s NUL with Some i => take i s | None => s end.

(** ** Buffers *)
Definition client_wbuf_clear (c : ClientBase_T) : ClientBase_T :=
  c <| write_buffer ::= fmap (fun _ => []) |>.
Definition client_rbuf_clear (c : ClientBase_T) : ClientBase_T :=
  c <| read_buffer := [] |>.
Definition client_rbuf_scale (c : ClientBase_T) : ClientBase_T :=
  if decide (read_buffer_offset c = length (read_buffer c))
  then c <| read_buffer := [] |> <| read_buffer_offset := 0%nat |> else c.
Definition client_wbuf_scale (c : ClientBase_T) : ClientBase_T :=
  match write_buffer c with
  | Some wb => if decide (write_buffer_offset c = length wb)
               then c <| write_buffer := Some [] |> <| write_buffer_offset := 0%nat |> else c
  | None => c
  end.

(** [client_error_cb]: [error] is errno on a plain connection; on a TLS connection
    [sslerr] is what SSL_get_error reports for the failed call. *)
Definition client_error_cb (c : ClientBase_T) (error sslerr : Z) : ClientBase_T * Z :=
  if ssl c then
    if sslerr =? SSL_ERROR_NONE then (c, 0)
    else if sslerr =? SSL_ERROR_ZERO_RETURN then (set_flag c CLIENT_EOF, 0)
    else if (sslerr =? SSL_ERROR_WANT_READ) || (sslerr =? SSL_ERROR_WANT_WRITE) then (c, 0)
    else (client_wbuf_clear (client_rbuf_clear c), -1)
  else
    if (error =? EAGAIN) || (error =? EINTR) then (c, 0)
    else (client_wbuf_clear (client_rbuf_clear c), error).

Definition ci_cork (c : ClientBase_T) : ClientBase_T := c <| rev_on := false |> <| wev_on := false |>.
Definition ci_uncork (c : ClientBase_T) : ClientBase_T :=
  if errored c then c
  else
    let c := if has_flag (client_state c) CLIENT_EOF then c else c <| rev_on := true |> in
    c <| wev_on := true |>.

(** Subtraction of two unsigned 64-bit quantities. *)
Definition usub64 (a b : Z) : Z := if b <=? a then a - b else a - b + 2 ^ 64.

(** The number of bytes that are queued, as an unsigned 64-bit difference. *)
Definition ci_wbuf_len (c : ClientBase_T) : ClientBase_T * Z :=
  if errored c then (client_wbuf_clear c, 0)
  else match write_buffer c with
       | Some wb => (c, usub64 (Z.of_nat (length wb)) (Z.of_nat (write_buffer_offset c)))
       | None => (c, 0)
       end.

(** strncpy(dst, s, n) into a buffer: the string up to its terminator, padded with zeros. *)
Definition strncpy (s : list ascii) (n : nat) : list ascii :=
  let t := take n (cstring_of s) in t ++ replicate (n - length t) NUL.

(** One call of write or SSL_write with the bytes [s]: the new state, the result and the
    error code. *)
Definition sys_write (c : ClientBase_T) (s : list ascii) : ClientBase_T * Z * Z :=
  match wscript c with
  | [] => (c, -1, if ssl c then SSL_ERROR_WANT_WRITE else EAGAIN)
  | r :: rest =>
      let c := c <| wscript := rest |> in
      match r with
      | Accept k => let t := Nat.min (S k) (length s) in
                    (c <| wire ::= fun w => w ++ take t s |>, Z.of_nat t, 0)
      | Fail e => (c, -1, Zpos e)
      | Ragged e => (c, 0, e)
      end
  end.

(** The retries after SSL_ERROR_WANT_READ; [count] is shared by the whole call. *)
Fixpoint ssl_retry (fuel : nat) (c : ClientBase_T) (t e : Z) (count tries : nat)
    : ClientBase_T * Z * Z * nat :=
  match fuel with
  | O => (c, t, e, count)
  | S fuel' =>
      if t <? 0 then
        if decide (count < tries)%nat then
          let '(c, t, e) := sys_write c (take (tls_wbuf_n c) (tls_wbuf c)) in
          ssl_retry fuel' c t e (S count) tries
        else (c, t, e, S count)
      else (c, t, e, count)
  end.

Section client.
Context `{ServerConf}.

(** The TLS branch: fill the segment unless a segment is pending, write it, retry. *)
Definition tls_write (c : ClientBase_T) (s : list ascii) (n count : nat)
    : ClientBase_T * Z * Z * nat :=
  let c := match tls_wbuf_n c with
           | O => c <| tls_wbuf := strncpy s n |> <| tls_wbuf_n := n |>
           | S _ => c end in
  let '(c, t, e) := sys_write c (take (tls_wbuf_n c) (tls_wbuf c)) in
  if (t <? 0) && (e =? SSL_ERROR_WANT_READ)
  then ssl_retry (S (conf_timeout - count)) c t e count conf_timeout
  else (c, t, e, count).

Definition sock_write (c : ClientBase_T) (s : list ascii) (n count : nat)
    : ClientBase_T * Z * Z * nat :=
  if ssl c then tls_write c s n count
  else let '(c, t, e) := sys_write c (take n s) in (c, t, e, count).

(** After the socket took [t] bytes of the queue, the buffer is advanced by as many. *)
Definition advance (c : ClientBase_T) (t : Z) : ClientBase_T :=
  let c := c <| bytes_tx ::= fun b => wrap64 (b + t) |>
             <| write_buffer_offset ::= fun o => (o + Z.to_nat t)%nat |> in
  let c := client_wbuf_scale c in
  if ssl c then c <| tls_wbuf := replicate TLS_SEGMENT NUL |> <| tls_wbuf_n := 0%nat |> else c.

(** A TLS write of no bytes: whether the error callback reports a broken connection. *)
Definition ragged_eof (c : ClientBase_T) (t e : Z) : ClientBase_T * bool :=
  if (t =? 0) && ssl c then let '(c, r) := client_error_cb c t e in (c, r <? 0) else (c, false).

(** The loop of [ci_write]. *)
Fixpoint write_loop (fuel : nat) (c : ClientBase_T) (count : nat) : ClientBase_T * Z :=
  match fuel with
  | O => (c, 0)
  | S fuel' =>
      let '(c, todo) := ci_wbuf_len c in
      if todo =? 0 then (c, 1)
      else
        let wb := default [] (write_buffer c) in
        if decide (length wb < write_buffer_offset c)%nat then (c <| fault := true |>, -1)
        else
          let n := Nat.min (Z.to_nat todo) (TLS_SEGMENT - 1) in
          let s := drop (write_buffer_offset c) wb in
          let '(c, t, e, count) := sock_write c s n count in
          if t =? -1 then
            let '(c, r) := client_error_cb c e e in
            if r =? 0 then (c, 0) else (set_flag c CLIENT_ERR, -1)
          else
            let '(c, hard) := ragged_eof c t e in
            if hard then (set_flag c CLIENT_ERR, -1)
            else
              write_loop fuel' (advance c t) count
  end.

(** [ci_write client msg ...]; [None] for a NULL message. Each pass of the loop that does
    not end it uses up one answer of the environment, so the length of the script bounds
    the passes. *)
Definition ci_write_msg (c : ClientBase_T) (msg : option (cstr * list farg)) : ClientBase_T * Z :=
  match write_buffer c with
  | None => (c, -1)
  | Some wb =>
      if errored c then (c, -1)
      else
        let c := match msg with
                 | None => c
                 | Some (f, args) =>
                     match cformat f args with
                     | Some t => c <| write_buffer := Some (wb ++ t) |>
                     | None => c <| fault := true |>
                     end
                 end in
        write_loop (S (length (wscript c))) c 0
  end.
Definition ci_write (c : ClientBase_T) (f : cstr) (args : list farg) : ClientBase_T * Z :=
  ci_write_msg c (Some (f, args)).

Definition ci_write_cb (c : ClientBase_T) : ClientBase_T :=
  let '(c, rest) := ci_wbuf_len c in
  if rest =? 0 then c
  else
    let '(c, result) := ci_write_msg c None in
    if result =? 0 then c <| wev_on := true |>
    else if result =? 1 then ci_uncork c
    else if result =? -1 then client_wbuf_clear c
    else c.

Definition ci_starttls (c : ClientBase_T) : ClientBase_T * Z :=
  if ssl c && (0 <? ssl_state c) then (c, DM_EGENERAL)
  else
    let '(c, ok) :=
      if ssl c then (c, true)
      else
        let c := c <| ssl_state := 0 |> in
        match tscript c with
        | TlsSetupFails :: ts => (c <| tscript := ts |>, false)
        | [] => (c, false)
        | _ => (c <| ssl := true |>, true)
        end in
    if negb ok then (c, DM_EGENERAL)
    else if ssl_state c =? 0 then
      let r := head (tscript c) in
      let c := c <| tscript ::= tail |> in
      let '(c, hard) :=
        match r with
        | Some TlsAccept => (c, false)
        | Some (TlsError e) => let '(c, e2) := client_error_cb c e e in (c, negb (e2 =? 0))
        | _ => let '(c, e2) := client_error_cb c SSL_ERROR_SSL SSL_ERROR_SSL in (c, negb (e2 =? 0))
        end in
      if hard then (c <| ssl := false |>, DM_EGENERAL)
      else let '(c, _) := ci_write_msg (c <| ssl_state := 1 |>) None in (c, DM_SUCCESS)
    else (c, DM_SUCCESS).

(** [client_init]: a connection for the socket [fd] with TLS state [sst], or for the standard
    streams when the peer has no address; the scripts are what the environment will answer.
    The memory of the structure is zeroed when it is allocated. *)
Definition client_init (caddr_len fd sst : Z) (ws : list wres) (rs : list rres) (ts : list tres)
    : ClientBase_T :=
  let c := {| ssl := false; ssl_state := sst; rx := 0; bytes_rx := 0; bytes_tx := 0;
              client_state := 0; rev_on := false; wev_on := false; tv_sec := 0;
              tls_wbuf := replicate TLS_SEGMENT NUL; tls_wbuf_n := 0%nat; rbuff_size := 0;
              read_buffer := []; read_buffer_offset := 0%nat; write_buffer := None;
              write_buffer_offset := 0%nat; len := 0; wscript := ws; rscript := rs;
              tscript := ts; wire := []; fault := false |} in
  let c := if caddr_len =? 0 then c
           else let c := c <| rx := fd |> in
                if sst =? -1 then (ci_starttls c).1 else c in
  c <| read_buffer := [] |> <| write_buffer := Some [] |>.

End client.

(** ** Input *)

(** One call of read or SSL_read; bytes that do not fit the buffer stay available. *)
Definition sys_read (c : ClientBase_T) : ClientBase_T * Z * list ascii * Z :=
  match rscript c with
  | [] => (c, -1, [], if ssl c then SSL_ERROR_WANT_READ else EAGAIN)
  | r :: rest =>
      match r with
      | Data bs =>
          let now := take (IBUFLEN - 1) bs in
          let later := drop (IBUFLEN - 1) bs in
          (c <| rscript := match later with [] => rest | _ => Data later :: rest end |>,
           Z.of_nat (length now), now, 0)
      | RFail e => (c <| rscript := rest |>, -1, [], Zpos e)
      | REof e => (c <| rscript := rest |>, 0, [], e)
      end
  end.

Fixpoint read_loop (fuel : nat) (c : ClientBase_T) : ClientBase_T :=
  match fuel with
  | O => c
  | S fuel' =>
      let '(c, t, ibuf, e) := sys_read c in
      if t <? 0 then
        let '(c, e') := client_error_cb c e e in
        set_flag c (if e' =? 0 then CLIENT_AGAIN else CLIENT_ERR)
      else if t =? 0 then
        let c := if ssl c then
                   let '(c, e') := client_error_cb c t e in
                   if e' =? 0 then c else set_flag c CLIENT_ERR
                 else set_flag c CLIENT_ERR in
        if ssl c || negb (rx c =? 0) then set_flag c CLIENT_EOF else c
      else
        read_loop fuel' (c <| bytes_rx ::= fun b => wrap64 (b + t) |>
                           <| client_state := CLIENT_OK |>
                           <| read_buffer ::= fun b => b ++ ibuf |>)
  end.

(** The reads that can succeed before the input is drained. *)
Definition read_bound (rs : list rres) : nat :=
  foldr (fun r n => match r with Data bs => (length bs + 1 + n)%nat | _ => S n end) 1%nat rs.
Definition ci_read_cb (c : ClientBase_T) : ClientBase_T := read_loop (read_bound (rscript c)) c.

(** [ci_read client buffer n]: the bytes copied to the buffer, if [n] are there. *)
Definition ci_read (c : ClientBase_T) (n : nat) : ClientBase_T * option (list ascii) :=
  let c := c <| len := 0 |> in
  if decide (read_buffer_offset c + n <= length (read_buffer c))%nat then
    let out := take n (drop (read_buffer_offset c) (read_buffer c)) in
    (client_rbuf_scale (c <| read_buffer_offset ::= fun o => (o + n)%nat |>
                          <| len := Z.of_nat n |>), Some out)
  else (c, None).

(** [stridx]: the length of the prefix in front of [ch] or of the terminator. *)
Fixpoint stridx (s : cstr) (ch : ascii) : nat :=
  match s with
  | [] => O
  | x :: s' => if bool_decide (x = ch) then O else S (stridx s' ch)
  end.

(** [ci_readln client buffer]: the line copied to the buffer, its line feed included, or
    the empty list when 0 is returned. An offset behind the end of the buffer reads what
    is left there from before. *)
Definition ci_readln `{GLibStr} (c : ClientBase_T) : ClientBase_T * list ascii :=
  let c := c <| len := 0 |> in
  let c := if bool_decide (read_buffer_offset c <= length (read_buffer c))%nat then c
           else c <| fault := true |> in
  let s := cstring_of (drop (read_buffer_offset c) (read_buffer c)) in
  match g_strstr_len s [LF] with
  | None => (c, [])
  | Some _ =>
      let l := stridx s LF in
      if decide (MAX_LINESIZE <= l)%nat then (set_flag c CLIENT_ERR, [])
      else
        (client_rbuf_scale (c <| read_buffer_offset ::= fun o => (o + (l + 1))%nat |>
                              <| len := Z.of_nat (l + 1) |>),
         take (l + 1) s)
  end.

(** ** The output stream

    What the peer receives is what was sent ([wire]) followed by what is queued
    ([pending]). *)
Definition pending (c : ClientBase_T) : list ascii :=
  drop (write_buffer_offset c) (default [] (write_buffer c)).
Definition stream (c : ClientBase_T) : list ascii := wire c ++ pending c.

(** The write side is consistent: the offset is inside the buffer, and a TLS segment that
    waits for a retry is a prefix of the queue. *)
Record write_wf (c : ClientBase_T) : Prop := {
  wf_buf : exists wb, write_buffer c = Some wb /\ (write_buffer_offset c <= length wb)%nat;
  wf_nul : ssl c = true -> NUL ∉ pending c;
  wf_seg : ssl c = true -> (tls_wbuf_n c <= length (pending c))%nat /\
             take (tls_wbuf_n c) (tls_wbuf c) = take (tls_wbuf_n c) (pending c);
}.

(** What a write leaves alone. *)
Definition input_side (c : ClientBase_T) :=
  (ssl c, ssl_state c, rx c, rbuff_size c, read_buffer c, read_buffer_offset c, rscript c, tscript c).

(** [c'] is [c] after one system call that took the first [t] bytes of [s] (none for -1). *)
Definition wstep (c : ClientBase_T) (s : list ascii) (c' : ClientBase_T) (t : Z) : Prop :=
  exists ws, c' = c <| wscript := ws |> <| wire := wire c ++ take (Z.to_nat t) s |> /\
    -1 <= t <= Z.of_nat (length s) /\ (length ws <= length (wscript c))%nat /\
    (t <> -1 -> (length ws < length (wscript c))%nat).

Lemma sys_write_spec c s :
  let '(c', t, e) := sys_write c s in wstep c s c' t.
Proof.
  unfold sys_write, wstep. destruct (wscript c) as [|[k|e|e] rest] eqn:E.
  - exists []. rewrite app_nil_r. split; [by destruct c; simpl in *; subst|].
    split; [lia|]. split; [done|lia].
  - exists rest. rewrite Nat2Z.id. split; [by destruct c|]. cbn [length]. repeat split; lia.
  - exists rest. rewrite app_nil_r. split; [by destruct c|]. cbn [length]. repeat split; lia.
  - exists rest. rewrite app_nil_r. split; [by destruct c|]. cbn [length]. repeat split; lia.
Qed.

Lemma ssl_retry_spec fuel c t e count tries :
  let '(c', t', e', count') := ssl_retry fuel c t e count tries in
  (t = -1 -> wstep c (take (tls_wbuf_n c) (tls_wbuf c)) c' t') /\
  (t <> -1 -> 0 <= t -> c' = c /\ t' = t).
Proof.
  revert c t e count. induction fuel as [|fuel IH]; intros c t e count; simpl.
  { split; [|done]. intros ->. exists (wscript c). rewrite app_nil_r. split; [by destruct c|]. repeat split; lia. }
  destruct (t <? 0) eqn:Ht; to_prop; [|split; [lia|done]].
  case_decide.
  2:{ split; [|lia]. intros ->. exists (wscript c). rewrite app_nil_r. split; [by destruct c|]. repeat split; lia. }
  pose proof (sys_write_spec c (take (tls_wbuf_n c) (tls_wbuf c))) as S1.
  destruct (sys_write c _) as [[c1 t1] e1]. destruct S1 as (ws & E1 & B1 & L1 & D1).
  specialize (IH c1 t1 e1 (S count)). destruct (ssl_retry fuel c1 t1 e1 (S count) tries)
    as [[[c2 t2] e2] n2]. destruct IH as [I1 I2].
  split; [intros ->|lia]. destruct (decide (t1 = -1)) as [->|Hne].
  - destruct (I1 eq_refl) as (ws2 & E2 & B2 & L2 & D2). subst c1; simpl in *.
    exists ws2. rewrite app_nil_r in E2. split; [by rewrite E2; destruct c|]. repeat split; lia.
  - destruct (I2 Hne) as [-> ->]; [lia|]. by exists ws.
Qed.

Lemma errored_set_EOF c : errored (set_flag c CLIENT_EOF) = errored c.
Proof.
  unfold errored, has_flag, set_flag; simpl. by rewrite Z.land_lor_distr_l, Z.lor_0_r.
Qed.

Lemma errored_set_ERR c : errored (set_flag c CLIENT_ERR) = true.
Proof.
  unfold errored, has_flag, set_flag, CLIENT_ERR; simpl. apply negb_true_iff, Z.eqb_neq.
  intros E%(f_equal (fun z => Z.testbit z 1)).
  by rewrite Z.land_spec, Z.lor_spec, Z.bits_0, orb_true_r in E.
Qed.

Lemma cstring_of_id s : NUL ∉ s -> cstring_of s = s.
Proof. intros H. unfold cstring_of. by rewrite (proj2 (str_index_None s NUL)). Qed.

Lemma strncpy_id s n : NUL ∉ s -> (n <= length s)%nat -> strncpy s n = take n s.
Proof.
  intros H Hn. unfold strncpy. rewrite cstring_of_id by done. rewrite length_take_le by done.
  by rewrite Nat.sub_diag, app_nil_r.
Qed.

Section client_facts.
Context `{ServerConf}.

(** The TLS branch takes bytes from the front of the queue, and leaves the segment it is
    retrying in place. *)
Lemma tls_write_spec c n count :
  write_wf c -> ssl c = true -> (0 < n <= length (pending c))%nat ->
  let '(c', t, e, count') := tls_write c (pending c) n count in
  exists k c1, c1 = c <| tls_wbuf := tls_wbuf c1 |> <| tls_wbuf_n := k |> /\
    (k <= length (pending c))%nat /\ take k (tls_wbuf c1) = take k (pending c) /\
    wstep c1 (take k (pending c)) c' t.
Proof.
  intros W Hs Hn. unfold tls_write. destruct (wf_seg c W Hs) as [W1 W2].
  set (c1 := match tls_wbuf_n c with O => _ | S _ => c end).
  assert (c1 = c <| tls_wbuf := tls_wbuf c1 |> <| tls_wbuf_n := tls_wbuf_n c1 |> /\
    (tls_wbuf_n c1 <= length (pending c))%nat /\
    take (tls_wbuf_n c1) (tls_wbuf c1) = take (tls_wbuf_n c1) (pending c)) as (E1 & L1 & T1).
  { subst c1. destruct (tls_wbuf_n c) as [|k] eqn:Ek; simpl.
    - split; [done|]. split; [lia|]. rewrite strncpy_id by (by apply wf_nul || lia).
      rewrite take_take. f_equal. lia.
    - rewrite <- Ek in *. split; [by destruct c|done]. }
  pose proof (sys_write_spec c1 (take (tls_wbuf_n c1) (tls_wbuf c1))) as SP.
  destruct (sys_write c1 _) as [[c2 t] e]. rewrite T1 in SP.
  destruct ((t <? 0) && _) eqn:Et; [|by exists (tls_wbuf_n c1), c1].
  destruct SP as (ws & E2 & B2 & L2 & D2). to_prop. assert (t = -1) as -> by lia.
  pose proof (ssl_retry_spec (S (conf_timeout - count)) c2 (-1) e count conf_timeout) as R.
  destruct (ssl_retry _ c2 (-1) e count conf_timeout) as [[[c3 t3] e3] n3].
  destruct R as [R _]. destruct (R eq_refl) as (ws3 & E3 & B3 & L3 & D3).
  exists (tls_wbuf_n c1), c1. split; [done|]. split; [done|]. split; [done|].
  subst c2. simpl in *. rewrite app_nil_r in E3. rewrite T1 in *.
  exists ws3. split; [by rewrite E3; destruct c1|]. repeat split; lia.
Qed.

(** An error callback that reports no error changes nothing but the end-of-file flag; one
    that reports an error keeps everything but the buffers. *)
Lemma client_error_cb_spec c e1 e2 :
  (ssl c = false -> e1 <> 0) ->
  let '(c', r) := client_error_cb c e1 e2 in
  fault c' = fault c /\
  (r = 0 -> c' = c \/ c' = set_flag c CLIENT_EOF).
Proof.
  unfold client_error_cb. intros He. repeat case_match; simplify_eq; simpl; split; auto; lia.
Qed.

Lemma sys_write_errno c s : let '(_, t, e) := sys_write c s in t = -1 -> e <> 0.
Proof. unfold sys_write. repeat case_match; simplify_eq; try done; lia. Qed.

(** A pass of the loop, seen from the queue. *)
Definition sent (c c' : ClientBase_T) : Prop :=
  errored c' = false /\ write_wf c' /\ stream c' = stream c /\ fault c' = fault c /\
  input_side c' = input_side c.

Lemma sent_refl c : errored c = false -> write_wf c -> sent c c.
Proof. unfold sent. auto. Qed.

Lemma sent_trans c1 c2 c3 : sent c1 c2 -> sent c2 c3 -> sent c1 c3.
Proof. unfold sent. intros (A1&A2&A3&A4&A5) (B1&B2&B3&B4&B5). split_and!; congruence || done. Qed.

Lemma sent_EOF c c' : sent c c' -> sent c (set_flag c' CLIENT_EOF).
Proof.
  intros (A1 & A2 & A3 & A4 & A5). unfold sent. rewrite errored_set_EOF. split_and!; try done.
  by destruct A2.
Qed.

Lemma advance_fields c t :
  wire (advance c t) = wire c /\ wscript (advance c t) = wscript c /\
  client_state (advance c t) = client_state c /\ fault (advance c t) = fault c /\
  input_side (advance c t) = input_side c /\
  (ssl c = true -> tls_wbuf_n (advance c t) = 0%nat).
Proof.
  unfold advance, client_wbuf_scale, input_side. simpl.
  destruct (write_buffer c), (ssl c) eqn:E; simpl; try case_decide; simpl; rewrite E; simpl;
    rewrite ?E; by split_and!.
Qed.

Lemma advance_pending c t :
  write_wf c -> 0 <= t <= Z.of_nat (length (pending c)) ->
  pending (advance c t) = drop (Z.to_nat t) (pending c) /\
  exists wb, write_buffer (advance c t) = Some wb /\ (write_buffer_offset (advance c t) <= length wb)%nat.
Proof.
  intros [(wb & Hwb & Ho) _ _] Ht. unfold advance, client_wbuf_scale, pending in *. simpl.
  rewrite Hwb in *. simpl in *. rewrite drop_drop. rewrite length_drop in Ht.
  case_decide as E; destruct (ssl c) eqn:Es; simpl; rewrite Es; simpl; rewrite ?Hwb; simpl;
    (split; [try done; rewrite drop_ge by lia; done|]); eexists; (split; [done|]); simpl; lia.
Qed.

Lemma advance_sent c t :
  errored c = false -> write_wf c -> 0 <= t <= Z.of_nat (length (pending c)) ->
  let c' := advance c t in
  errored c' = false /\ write_wf c' /\ fault c' = fault c /\ input_side c' = input_side c /\
  wire c' ++ take (Z.to_nat t) (pending c) ++ pending c' = stream c.
Proof.
  intros He W Ht. destruct (advance_fields c t) as (F1 & F2 & F3 & F4 & F5 & F6).
  destruct (advance_pending c t W Ht) as (P & B). cbn zeta.
  assert (ssl (advance c t) = ssl c) as Fs by (unfold input_side in F5; congruence).
  split; [unfold errored; by rewrite F3|]. split; [|split_and!; try done].
  - split; [done| |].
    + rewrite Fs, P. intros Es Hin. apply (wf_nul c W Es). by eapply elem_of_drop_weaken.
    + rewrite Fs. intros Es. rewrite (F6 Es). split; [lia|done].
  - by rewrite F1, P, take_drop.
Qed.

(** The state in which the loop evaluates its next system call. *)
Lemma wstep_wf c c1 k s c' t :
  write_wf c -> errored c = false -> c1 = c <| tls_wbuf := tls_wbuf c1 |> <| tls_wbuf_n := k |> ->
  (ssl c = true -> (k <= length (pending c))%nat /\ take k (tls_wbuf c1) = take k (pending c)) ->
  wstep c1 s c' t ->
  write_wf c' /\ errored c' = false /\ fault c' = fault c /\ input_side c' = input_side c /\
  pending c' = pending c /\ wire c' = wire c ++ take (Z.to_nat t) s.
Proof.
  intros W He E1 Hk (ws & E & _). rewrite E. rewrite E1. destruct W as [W1 W2 W3].
  by split_and!.
Qed.

Lemma sock_write_spec c n count :
  write_wf c -> errored c = false -> (0 < n <= length (pending c))%nat ->
  let '(c1, t, e, _) := sock_write c (pending c) n count in
  exists k, write_wf c1 /\ errored c1 = false /\ fault c1 = fault c /\
    input_side c1 = input_side c /\ pending c1 = pending c /\
    wire c1 = wire c ++ take (Z.to_nat t) (take k (pending c)) /\
    -1 <= t <= Z.of_nat (length (take k (pending c))) /\ (ssl c = false -> t = -1 -> e <> 0).
Proof.
  intros W He Hn. unfold sock_write. destruct (ssl c) eqn:Es.
  - pose proof (tls_write_spec c n count W Es Hn) as T.
    destruct (tls_write c (pending c) n count) as [[[c1 t] e] count1].
    destruct T as (k & c0 & E & L & TT & Wt). exists k.
    destruct (wstep_wf c c0 k (take k (pending c)) c1 t W He E (fun _ => conj L TT) Wt)
      as (Q1 & Q2 & Q3 & Q4 & Q5 & Q6). destruct Wt as (ws & _ & B & _).
    split_and!; (done || lia).
  - pose proof (sys_write_spec c (take n (pending c))) as Wt.
    pose proof (sys_write_errno c (take n (pending c))) as Er.
    destruct (sys_write c (take n (pending c))) as [[c1 t] e]. exists n.
    destruct (wstep_wf c c (tls_wbuf_n c) (take n (pending c)) c1 t W He)
      as (Q1 & Q2 & Q3 & Q4 & Q5 & Q6); [by destruct c|congruence|done|].
    destruct Wt as (ws & _ & B & _). split_and!; (done || lia).
Qed.

(** The end of a pass, when the call took [t] bytes. *)
Lemma sent_advance c c1 k t :
  write_wf c1 -> errored c1 = false -> fault c1 = fault c -> input_side c1 = input_side c ->
  pending c1 = pending c -> wire c1 = wire c ++ take (Z.to_nat t) (take k (pending c)) ->
  0 <= t <= Z.of_nat (length (take k (pending c))) ->
  sent c (advance c1 t).
Proof.
  intros W He Ef Ei Ep Ew Ht. rewrite length_take in Ht.
  assert (0 <= t <= Z.of_nat (length (pending c1))) as Ht' by (rewrite Ep; lia).
  destruct (advance_sent c1 t He W Ht') as (A1 & A2 & A3 & A4 & A5).
  destruct (advance_pending c1 t W Ht') as (P & _).
  destruct (advance_fields c1 t) as (F1 & _). 
  unfold sent. split_and!; try done; try congruence. unfold stream.
  rewrite F1, P, Ew, Ep, take_take, Nat.min_l by lia. by rewrite <- app_assoc, take_drop.
Qed.

Lemma ragged_eof_spec c t e :
  let '(c', hard) := ragged_eof c t e in
  fault c' = fault c /\ (hard = false -> c' = c \/ c' = set_flag c CLIENT_EOF).
Proof.
  unfold ragged_eof. destruct ((t =? 0) && ssl c) eqn:Eb; to_prop; [|by auto].
  assert (ssl c = false -> t <> 0) as He0 by congruence.
  pose proof (client_error_cb_spec c t e He0) as CB.
  destruct (client_error_cb c t e) as [c2 r] eqn:Ecb. destruct CB as [CF CB].
  split; [done|]. intros Hr. apply CB. unfold client_error_cb in Ecb.
  destruct (ssl c); [|done]. split_hyp Ecb; bool_lia.
Qed.

(** The loop neither loses, duplicates nor reorders a byte: until an error ends the
    connection, what was sent and what is queued stay the same stream. *)
Lemma write_loop_spec fuel c count :
  errored c = false -> write_wf c ->
  let '(c', r) := write_loop fuel c count in
  fault c' = fault c /\
  ((r = -1 /\ errored c' = true) \/
   (sent c c' /\ (r = 0 \/ r = 1 /\ pending c' = []))).
Proof.
  revert c count. induction fuel as [|fuel IH]; intros c count He W; simpl.
  { split; [done|]. right. split; [by apply sent_refl|by left]. }
  destruct (wf_buf c W) as (wb & Hwb & Ho).
  assert (pending c = drop (write_buffer_offset c) wb) as Hp by (unfold pending; by rewrite Hwb).
  unfold ci_wbuf_len. rewrite He, Hwb. unfold usub64.
  assert (Z.of_nat (write_buffer_offset c) <=? Z.of_nat (length wb) = true) as -> by lia.
  destruct (_ =? 0) eqn:E0; to_prop.
  { split; [done|]. right. split; [by apply sent_refl|]. right. split; [done|].
    rewrite Hp. apply drop_ge. lia. }
  rewrite Hwb; simpl. rewrite decide_False by lia. rewrite <- Hp.
  set (n := Nat.min _ _).
  assert (0 < n <= length (pending c))%nat as Hn.
  { rewrite Hp, length_drop. subst n. pose proof TLS_SEGMENT_Z. lia. }
  pose proof (sock_write_spec c n count W He Hn) as SW.
  destruct (sock_write c (pending c) n count) as [[[c1 t] e] count1].
  destruct SW as (k & W1 & He1 & Ef1 & Ei1 & Ep1 & Ew1 & Ht & Hee).
  assert (ssl c1 = ssl c) as Es by (unfold input_side in Ei1; congruence).
  destruct (t =? -1) eqn:Et; to_prop.
  - subst t. assert (ssl c1 = false -> e <> 0) as He0 by (rewrite Es; auto).
    pose proof (client_error_cb_spec c1 e e He0) as CB.
    destruct (client_error_cb c1 e e) as [c2 r]. destruct CB as [CF CB].
    assert (sent c c1) as Sc.
    { unfold sent, stream. rewrite Ew1, Ep1, app_nil_r. by split_and!. }
    destruct (r =? 0) eqn:Er; to_prop.
    + split; [congruence|]. right. split; [|by left].
      destruct (CB Er) as [->| ->]; [done|]. by apply sent_EOF.
    + split; [simpl; congruence|]. left. split; [done|apply errored_set_ERR].
  - pose proof (ragged_eof_spec c1 t e) as R. destruct (ragged_eof c1 t e) as [c2 hard].
    destruct R as [Ef2 Hh].
    destruct hard; [split; [simpl; congruence|]; left; split; [done|apply errored_set_ERR]|].
    assert (sent c (advance c2 t)) as S2.
    { destruct (Hh eq_refl) as [->| ->]; [by eapply sent_advance; eauto; lia|].
      eapply sent_advance; eauto; try (by destruct W1); [by rewrite errored_set_EOF|lia]. }
    pose proof S2 as (A1 & A2 & A3 & A4 & A5). specialize (IH (advance c2 t) count1 A1 A2).
    destruct (write_loop fuel (advance c2 t) count1) as [c' r]. destruct IH as [F [?|[S3 ?]]].
    + split; [congruence|by left].
    + split; [congruence|]. right. split; [by eapply sent_trans|done].
Qed.

(** The passes are bounded by the answers of the environment: more fuel than answers makes
    no difference. *)
Lemma sys_write_script c s :
  let '(c', t, _) := sys_write c s in
  (length (wscript c') <= length (wscript c))%nat /\
  (t <> -1 -> (length (wscript c') < length (wscript c))%nat).
Proof.
  pose proof (sys_write_spec c s) as W. destruct (sys_write c s) as [[c' t] e].
  destruct W as (ws & -> & _ & L1 & L2). done.
Qed.

Lemma ssl_retry_script fuel c t e count tries :
  let '(c', t', _, _) := ssl_retry fuel c t e count tries in
  (length (wscript c') <= length (wscript c))%nat /\
  (t = -1 -> t' <> -1 -> (length (wscript c') < length (wscript c))%nat).
Proof.
  revert c t e count. induction fuel as [|fuel IH]; intros c t e count; simpl; [done|].
  destruct (t <? 0) eqn:Ht; to_prop; [|by split; [|lia]].
  case_decide; [|done].
  pose proof (sys_write_script c (take (tls_wbuf_n c) (tls_wbuf c))) as S1.
  destruct (sys_write c _) as [[c1 t1] e1]. destruct S1 as [S1 S2].
  specialize (IH c1 t1 e1 (S count)).
  destruct (ssl_retry fuel c1 t1 e1 (S count) tries) as [[[c2 t2] e2] n2] eqn:Er.
  destruct IH as [I1 I2]. split; [lia|]. intros -> Hne.
  destruct (decide (t1 = -1)) as [->|Hn]; [specialize (I2 eq_refl Hne); lia|]. specialize (S2 Hn). lia.
Qed.

Lemma sock_write_script c s n count :
  let '(c', t, _, _) := sock_write c s n count in
  t <> -1 -> (length (wscript c') < length (wscript c))%nat.
Proof.
  unfold sock_write, tls_write. destruct (ssl c).
  - set (c1 := match tls_wbuf_n c with O => _ | S _ => c end).
    assert (wscript c1 = wscript c) as <- by (subst c1; by destruct (tls_wbuf_n c)).
    pose proof (sys_write_script c1 (take (tls_wbuf_n c1) (tls_wbuf c1))) as S1.
    destruct (sys_write c1 _) as [[c2 t] e] eqn:Es. destruct S1 as [S1 S2].
    destruct ((t <? 0) && _) eqn:Et; [|done]. to_prop.
    pose proof (sys_write_spec c1 (take (tls_wbuf_n c1) (tls_wbuf c1))) as W. rewrite Es in W.
    destruct W as (_ & _ & B & _). assert (t = -1) as -> by lia.
    pose proof (ssl_retry_script (S (conf_timeout - count)) c2 (-1) e count conf_timeout) as R.
    destruct (ssl_retry _ c2 (-1) e count conf_timeout) as [[[c3 t3] e3] n3].
    destruct R as [R1 R2]. intros Hne. specialize (R2 eq_refl Hne). lia.
  - pose proof (sys_write_script c (take n s)) as S1.
    destruct (sys_write c (take n s)) as [[c1 t] e]. by destruct S1.
Qed.

Lemma write_loop_fuel f1 f2 c count :
  (length (wscript c) < f1)%nat -> (length (wscript c) < f2)%nat ->
  write_loop f1 c count = write_loop f2 c count.
Proof.
  revert f2 c count. induction f1 as [|f1 IH]; intros f2 c count H1 H2; [lia|].
  destruct f2 as [|f2]; [lia|]. simpl. destruct (ci_wbuf_len c) as [c0 todo] eqn:E0.
  assert (wscript c0 = wscript c) as Ew0.
  { unfold ci_wbuf_len in E0. repeat case_match; by simplify_eq. }
  destruct (todo =? 0); [done|]. case_decide; [done|].
  match goal with |- context [sock_write ?a ?b ?m count] =>
    pose proof (sock_write_script a b m count) as S1;
    destruct (sock_write a b m count) as [[[c1 t] e] count1] end.
  destruct (t =? -1) eqn:Et; [done|]. to_prop. specialize (S1 Et). rewrite Ew0 in S1.
  assert (wscript (ragged_eof c1 t e).1 = wscript c1) as Er.
  { unfold ragged_eof, client_error_cb. repeat case_match; simplify_eq; done. }
  destruct (ragged_eof c1 t e) as [c2 hard]. simpl in Er. destruct hard; [done|].
  apply IH; destruct (advance_fields c2 t) as (_ & -> & _); rewrite Er; lia.
Qed.

(** ** What a handler may rely on *)

Lemma true_false_absurd (b : bool) (P : Prop) : b = true -> b = false -> P.
Proof. by intros ->. Qed.

(** A connection is healthy when it is closed by an error or its write side is
    consistent. *)
Definition healthy (c : ClientBase_T) : Prop := errored c = false -> write_wf c.

(** From [c] to [c'] the text [t] was queued or sent, unless the connection broke. *)
Definition replied (c c' : ClientBase_T) (t : cstr) : Prop :=
  healthy c' /\ fault c' = fault c /\
  (errored c' = false -> errored c = false /\ stream c' = stream c ++ t /\
     input_side c' = input_side c).

(** Once the connection is broken nothing is promised about the stream. *)
Lemma replied_broken c c' t : errored c' = true -> fault c' = fault c -> replied c c' t.
Proof.
  intros He Hf. split; [|split; [done|]]; unfold healthy; intros; by eapply true_false_absurd.
Qed.

Lemma replied_refl c : healthy c -> replied c c [].
Proof. intros H0. split_and!; try done. by rewrite app_nil_r. Qed.

Lemma replied_trans c1 c2 c3 t1 t2 :
  replied c1 c2 t1 -> replied c2 c3 t2 -> replied c1 c3 (t1 ++ t2).
Proof.
  intros (A1 & A2 & A3) (B1 & B2 & B3). split_and!; [done|congruence|].
  intros He. destruct (B3 He) as (Q1 & Q2 & Q3). destruct (A3 Q1) as (P1 & P2 & P3).
  split_and!; [done| |congruence]. by rewrite Q2, P2, app_assoc.
Qed.

Lemma replied_nil c1 c2 c3 t : replied c1 c2 t -> replied c2 c3 [] -> replied c1 c3 t.
Proof. intros A B. rewrite <- (app_nil_r t). by eapply replied_trans. Qed.

Lemma queue_wf c wb t :
  write_buffer c = Some wb -> write_wf c -> (ssl c = true -> NUL ∉ t) ->
  let c' := c <| write_buffer := Some (wb ++ t) |> in
  write_wf c' /\ pending c' = pending c ++ t.
Proof.
  intros Hwb [(wb' & E & Ho) W2 W3] Hn. simplify_eq. cbn zeta.
  assert (pending (c <| write_buffer := Some (wb ++ t) |>) = pending c ++ t) as P.
  { unfold pending; simpl. rewrite Hwb; simpl. by rewrite drop_app_le. }
  split; [|done]. split.
  - eexists; split; [done|]. simpl. rewrite length_app. lia.
  - rewrite P. intros Es. rewrite elem_of_app. intros [?|?]; [by apply W2|by apply Hn].
  - rewrite P. simpl. intros Es. destruct (W3 Es) as [L T]. rewrite length_app.
    split; [lia|]. by rewrite take_app_le.
Qed.

Lemma ci_write_msg_spec c f args t :
  healthy c -> cformat f args = Some t -> (errored c = false -> ssl c = true -> NUL ∉ t) ->
  let '(c', r) := ci_write_msg c (Some (f, args)) in
  replied c c' t /\ ((r = -1 /\ (errored c' = true)) \/
                     (errored c' = false /\ (r = 0 \/ (r = 1 /\ pending c' = [])))).
Proof.
  intros Hh Hf Hn. unfold ci_write_msg. destruct (errored c) eqn:He.
  { assert (replied c c t) by (by apply replied_broken).
    destruct (write_buffer c); auto. }
  destruct (wf_buf c (Hh He)) as (wb & Hwb & Ho). rewrite Hwb, Hf.
  destruct (queue_wf c wb t Hwb (Hh He) (Hn eq_refl)) as [W P].
  set (c0 := c <| write_buffer := Some (wb ++ t) |>) in *.
  pose proof (write_loop_spec (S (length (wscript c0))) c0 0 He W) as L.
  destruct (write_loop _ c0 0) as [c' r]. destruct L as [F [[-> E]|[S R]]].
  - split; [by apply replied_broken|auto].
  - destruct S as (A1 & A2 & A3 & A4 & A5). split; [|auto].
    split_and!; [by intros _|done|].
    intros _. split_and!; [done| |done]. rewrite A3. unfold stream. by rewrite P, app_assoc.
Qed.

Lemma ci_write_replied c f args t :
  healthy c -> cformat f args = Some t -> (errored c = false -> ssl c = true -> NUL ∉ t) ->
  replied c (ci_write c f args).1 t.
Proof.
  intros Hh Hf Hn. unfold ci_write. pose proof (ci_write_msg_spec c f args t Hh Hf Hn) as S.
  destruct (ci_write_msg c _) as [c' r]. by destruct S.
Qed.

Lemma ci_flush_replied c : healthy c -> replied c (ci_write_msg c None).1 [].
Proof.
  intros Hh. unfold ci_write_msg. destruct (errored c) eqn:He.
  { assert (replied c c []) by (by apply replied_refl). by destruct (write_buffer c). }
  destruct (wf_buf c (Hh He)) as (wb & Hwb & Ho). rewrite Hwb.
  pose proof (write_loop_spec (S (length (wscript c))) c 0 He (Hh He)) as L.
  destruct (write_loop _ c 0) as [c' r]. simpl. destruct L as [F [[-> E]|[S R]]].
  - by apply replied_broken.
  - destruct S as (A1 & A2 & A3 & A4 & A5). split_and!; [by intros _|done|].
    rewrite app_nil_r. auto.
Qed.

Lemma replied_cleared c c' : errored c' = true -> replied c c' [] -> replied c (client_wbuf_clear c') [].
Proof.
  intros He (_ & R & _). by apply replied_broken.
Qed.

Lemma ci_write_cb_replied c : healthy c -> replied c (ci_write_cb c) [].
Proof.
  intros Hh. unfold ci_write_cb, ci_wbuf_len. destruct (errored c) eqn:He; simpl.
  { apply replied_cleared; [done|by apply replied_refl]. }
  destruct (wf_buf c (Hh He)) as (wb & Hwb & Ho). rewrite Hwb.
  destruct (_ =? 0); [by apply replied_refl|].
  pose proof (ci_flush_replied c Hh) as R.
  destruct (ci_write_msg c None) as [c' r] eqn:E. simpl in R.
  destruct (r =? 0) eqn:E0; [destruct R as (R1 & R2 & R3); split_and!; try done;
    by intros He'; destruct (R1 He')|].
  destruct (r =? 1) eqn:E1.
  { unfold ci_uncork. destruct (errored c') eqn:He'; [done|]. destruct R as (R1 & R2 & R3).
    destruct (has_flag (client_state c') CLIENT_EOF); split_and!; try done;
      by intros _; destruct (R1 He'). }
  destruct (r =? -1) eqn:E2; [|done]. apply replied_cleared; [|done].
  unfold ci_write_msg in E. rewrite Hwb, He in E.
  pose proof (write_loop_spec (S (length (wscript c))) c 0 He (Hh He)) as L. rewrite E in L.
  destruct L as [_ [[_ L]|[_ L]]]; [done|]. to_prop. lia.
Qed.

Lemma client_init_healthy caddr_len fd sst ws rs ts : healthy (client_init caddr_len fd sst ws rs ts).
Proof.
  intros _. unfold client_init. destruct (caddr_len =? 0); simpl.
  { split; [by exists []|done|done]. }
  destruct (sst =? -1); simpl; [|split; [by exists []|done|done]].
  unfold ci_starttls, client_error_cb, ci_write_msg. simpl.
  destruct ts as [|[| |e] ts]; simpl; repeat (case_match; simplify_eq/=);
    (split; [by exists []| |]); simpl; try done; intros _; apply not_elem_of_nil.
Qed.

(** The output events of a connection: a handler writes a reply, or the event loop reports
    that the socket can take more. *)
Inductive out_event := EvWrite (f : cstr) (args : list farg) | EvWritable.
Definition out_step (c : ClientBase_T) (ev : out_event) : ClientBase_T :=
  match ev with
  | EvWrite f args => (ci_write_msg c (Some (f, args))).1
  | EvWritable => ci_write_cb c
  end.
Definition out_text (ev : out_event) : option cstr :=
  match ev with EvWrite f args => cformat f args | EvWritable => Some [] end.

(** C1. However the kernel or the TLS library slices, delays or refuses the writes, a
    sequence of replies and socket events yields exactly the replies' texts in their order:
    bytes sent followed by bytes queued are the old stream followed by the texts, and no
    undefined behaviour occurs, unless the connection has been marked broken. *)
Theorem ci_writes_stream c evs ts :
  healthy c -> Forall2 (fun ev t => out_text ev = Some t /\ NUL ∉ t) evs ts ->
  replied c (foldl out_step c evs) (concat ts).
Proof.
  intros Hh F. revert c Hh. induction F as [|ev t evs ts [E N] F IH]; intros c Hh; simpl.
  { by apply replied_refl. }
  assert (replied c (out_step c ev) t) as R.
  { destruct ev as [f args|]; simpl in *.
    - pose proof (ci_write_msg_spec c f args t Hh E (fun _ _ => N)) as S.
      destruct (ci_write_msg c _) as [c' r]. by destruct S.
    - simplify_eq. by apply ci_write_cb_replied. }
  eapply replied_trans; [done|]. apply IH. by destruct R.
Qed.

End client_facts.

(** A server without TLS, for examples. *)
Definition plain_conf : ServerConf := {|
  conf_timeout := 300; conf_login_timeout := 60; conf_ssl := false;
  conf_login_disabled := []; conf_banner := [] |}.

Lemma ci_writes_stream_witness :
  let c := client_init (H := plain_conf) 16 7 0 [Accept 3; Fail 11; Accept 0; Fail 11] [] [] in
  replied c (foldl (out_step (H := plain_conf)) c
    [EvWrite (lit "+OK %lu %s") [FU 12; FS (lit "ab")]; EvWritable; EvWrite crlf []])
    (concat [lit "+OK 12 ab"; []; crlf]).
Proof.
  apply (ci_writes_stream (H := plain_conf)).
  - apply client_init_healthy.
  - repeat constructor; try reflexivity; apply (bool_decide_eq_true_1 _); reflexivity.
Defined.

(** ** Plain connections *)

(** A plain connection that has not run into undefined behaviour. *)
Definition sound_io (c : ClientBase_T) : Prop :=
  fault c = false /\ (errored c = true \/ (write_wf c /\ ssl c = false)).
(** A plain connection whose write side is consistent. *)
Definition plain_io (c : ClientBase_T) : Prop := healthy c /\ ssl c = false.
Definition PERCENT : ascii := "%"%char.

Section plain.
Context `{ServerConf}.

Lemma sound_write c f a t : sound_io c -> cformat f a = Some t -> sound_io (ci_write c f a).1.
Proof.
  intros [Hf Hc] Ht. unfold ci_write. destruct Hc as [He|[W Hs]].
  - unfold ci_write_msg. rewrite He. destruct (write_buffer c); split; auto.
  - pose proof (ci_write_msg_spec c f a t (fun _ => W) Ht) as S.
    destruct (ci_write_msg c (Some (f, a))) as [c' r]. destruct S as [(R1 & R2 & R3) _]; [congruence|].
    split; [simpl; congruence|]. simpl. destruct (errored c') eqn:E; [by left|right].
    split; [by apply R1|]. destruct (R3 eq_refl) as (_ & _ & Ei). unfold input_side in Ei. congruence.
Qed.

Lemma sound_timeout c t : sound_io c -> sound_io (c <| tv_sec := t |>).
Proof. intros [Hf [He|[[W1 W2 W3] Hs]]]; (split; [done|]); [by left|by right]. Qed.

Lemma replied_write c0 c f a t T :
  plain_io c0 -> replied c0 c T -> cformat f a = Some t -> replied c0 (ci_write c f a).1 (T ++ t).
Proof.
  intros [Hh Hs] R Ht. eapply replied_trans; [exact R|]. apply ci_write_replied; [by destruct R|done|].
  intros He Hssl. destruct R as (_ & _ & R). destruct (R He) as (_ & _ & Ei). unfold input_side in Ei. congruence.
Qed.
(** A step of a handler on the connection: a broken connection stays broken, soundness is
    kept, and while the connection is not broken the input is not touched. *)
Definition io_step (c c' : ClientBase_T) : Prop :=
  (errored c = true -> errored c' = true) /\
  (sound_io c -> sound_io c' /\ (errored c' = false -> input_side c' = input_side c)).

Lemma io_refl c : io_step c c.
Proof. done. Qed.
Lemma io_trans c1 c2 c3 : io_step c1 c2 -> io_step c2 c3 -> io_step c1 c3.
Proof.
  intros [A1 A2] [B1 B2]. split; [auto|]. intros S1. destruct (A2 S1) as [S2 E2].
  destruct (B2 S2) as [S3 E3]. split; [done|]. intros He. rewrite (E3 He). apply E2.
  destruct (errored c2); [by rewrite B1 in He|done].
Qed.

Lemma io_write c f a : is_Some (cformat f a) -> io_step c (ci_write c f a).1.
Proof.
  intros [t Ht]. split.
  - intros He. unfold ci_write, ci_write_msg. rewrite He. by destruct (write_buffer c).
  - intros Hs. split; [by eapply sound_write|]. destruct Hs as [_ [He|[W Hs]]].
    + unfold ci_write, ci_write_msg. rewrite He. by destruct (write_buffer c).
    + intros He. apply (ci_write_replied c f a t (fun _ => W) Ht); [congruence|done].
Qed.

Lemma io_same c c' :
  errored c' = errored c -> fault c' = fault c -> write_buffer c' = write_buffer c ->
  write_buffer_offset c' = write_buffer_offset c -> input_side c' = input_side c -> io_step c c'.
Proof.
  intros E F W O I. split; [congruence|]. intros [Hf Hc]. split; [|done]. split; [congruence|].
  rewrite E. destruct Hc as [?|[Hw Hs]]; [by left|right].
  assert (ssl c' = false) as Hs' by (unfold input_side in I; congruence). split; [|done].
  destruct Hw as [(wb & E1 & E2) _ _]. split; [|congruence..]. rewrite W, O. eauto.
Qed.

Lemma io_cork c : io_step c (ci_cork c).
Proof. by apply io_same. Qed.
Lemma io_uncork c : io_step c (ci_uncork c).
Proof.
  unfold ci_uncork. destruct (errored c) eqn:E; [done|].
  destruct (has_flag (client_state c) CLIENT_EOF); by apply io_same.
Qed.
Lemma io_timeout c t : io_step c (c <| tv_sec := t |>).
Proof. by apply io_same. Qed.

End plain.

(** ** The input stream *)
Definition unread (c : ClientBase_T) : list ascii := drop (read_buffer_offset c) (read_buffer c).
Definition read_wf (c : ClientBase_T) : Prop := (read_buffer_offset c <= length (read_buffer c))%nat.

Lemma client_rbuf_scale_unread c : read_wf c -> unread (client_rbuf_scale c) = unread c /\ read_wf (client_rbuf_scale c).
Proof.
  intros Hr. unfold client_rbuf_scale, unread, read_wf in *. case_decide as E; simpl; [|done].
  by rewrite drop_ge by lia.
Qed.

Lemma stridx_spec s c : c ∈ s -> exists t, s = take (stridx s c) s ++ c :: t /\ c ∉ take (stridx s c) s.
Proof.
  induction s as [|x s IH]; simpl; [by intros ?%elem_of_nil|]. intros Hin.
  case_bool_decide as E; simpl; [subst; exists s; by split; [|apply not_elem_of_nil]|].
  apply elem_of_cons in Hin as [?|Hin]; [congruence|]. destruct (IH Hin) as (t & E1 & E2).
  exists t. rewrite <- E1. split; [done|]. by apply not_elem_of_cons.
Qed.

Lemma strstr_char s c : strstr s [c] = str_index s c.
Proof.
  induction s as [|x s IH]; simpl; [done|]. unfold strneq at 1. simpl.
  rewrite IH. change (take 0 s) with (@nil ascii). destruct (decide (x = c)) as [->|Hne].
  - by rewrite !bool_decide_eq_true_2 by done.
  - rewrite !bool_decide_eq_false_2; [done|done|]. by intros [= ?].
Qed.

Lemma cstring_of_prefix s : exists t, s = cstring_of s ++ t /\ NUL ∉ cstring_of s.
Proof.
  unfold cstring_of. destruct (str_index s NUL) as [i|] eqn:E.
  - apply str_index_Some in E as [_ E]. exists (drop i s). by rewrite take_drop.
  - apply str_index_None in E. exists []. by rewrite app_nil_r.
Qed.

Lemma ci_readln_spec `{GLibStrLaws} c :
  read_wf c ->
  let '(c', line) := ci_readln c in
  read_wf c' /\
  ((line = [] /\ unread c' = unread c /\
      (LF ∉ cstring_of (unread c) \/
       (errored c' = true /\ (MAX_LINESIZE <= stridx (cstring_of (unread c)) LF)%nat))) \/
   (exists l, line = l ++ [LF] /\ LF ∉ l /\ NUL ∉ l /\ (length line <= MAX_LINESIZE)%nat /\
      len c' = Z.of_nat (length line) /\ unread c = line ++ unread c')).
Proof.
  intros Hr. unfold ci_readln. rewrite bool_decide_eq_true_2 by exact Hr. cbv iota. simpl.
  fold (unread c). rewrite g_strstr_len_spec, strstr_char.
  destruct (str_index (cstring_of (unread c)) LF) as [i|] eqn:Ei.
  2:{ apply str_index_None in Ei. split; [done|]. left. auto. }
  assert (LF ∈ cstring_of (unread c)) as Hin.
  { apply str_index_Some in Ei as [Ei _]. by eapply list_elem_of_lookup_2. }
  set (s := cstring_of (unread c)) in *. destruct (stridx_spec s LF Hin) as (t & Es & Hn).
  case_decide as El.
  { split; [done|]. left. split; [done|]. split; [done|]. right. split; [apply errored_set_ERR|done]. }
  destruct (cstring_of_prefix (unread c)) as (u & Eu & Hz). fold s in Eu, Hz.
  set (l := take (stridx s LF) s) in *.
  assert (length l = stridx s LF) as Ll.
  { subst l. rewrite length_take_le; [done|]. rewrite Es at 2. rewrite length_app, length_take. simpl.
    destruct (Nat.le_gt_cases (stridx s LF) (length s)) as [|G]; [lia|].
    exfalso. rewrite take_ge in Es by lia.
    apply (f_equal length) in Es. rewrite length_app in Es. simpl in Es. lia. }
  assert (take (stridx s LF + 1) s = l ++ [LF]) as Et.
  { rewrite Es at 2. rewrite <- Ll, take_app_ge by lia.
    by replace (length l + 1 - length l)%nat with 1%nat by lia. }
  assert (read_wf (c <| len := 0 |> <| read_buffer_offset ::= fun o => (o + (stridx s LF + 1))%nat |>
                     <| len := Z.of_nat (stridx s LF + 1) |>)) as Hr'.
  { unfold read_wf in *. simpl. assert (length (unread c) = length (read_buffer c) - read_buffer_offset c)%nat
      as E1 by apply length_drop. rewrite Eu, Es, !length_app in E1. simpl in E1. lia. }
  destruct (client_rbuf_scale_unread _ Hr') as [U W]. split; [exact W|]. right. exists l.
  rewrite Et. split; [done|]. split; [done|]. split.
  { intros Hx. apply Hz. by eapply elem_of_take_weaken. }
  split; [rewrite length_app; simpl; lia|]. split.
  { unfold client_rbuf_scale. case_decide; simpl; rewrite length_app; simpl; f_equal; lia. }
  assert (unread c = (l ++ [LF]) ++ (t ++ u)) as Hs.
  { rewrite Eu, <- app_assoc. simpl. rewrite Es at 1. by rewrite <- app_assoc. }
  rewrite U. unfold unread at 2; simpl. rewrite <- drop_drop. fold (unread c). rewrite Hs.
  f_equal. rewrite drop_app_ge by (rewrite length_app; simpl; lia).
  by replace (stridx s LF + 1 - length (l ++ [LF]))%nat with O by (rewrite length_app; simpl; lia).
Qed.

(** A read of a line: the line returned is the input up to and including the first line
    feed, it holds no other line feed and no zero byte, it fits the caller's buffer, and the
    rest of the input stays unread; without a complete line nothing is consumed; a line that
    does not fit breaks the connection and is not copied. *)
Theorem ci_readln_line `{GLibStrLaws} c :
  read_wf c ->
  let '(c', line) := ci_readln c in
  read_wf c' /\
  ((line = [] /\ unread c' = unread c /\
      (LF ∉ cstring_of (unread c) \/
       (errored c' = true /\ (MAX_LINESIZE <= stridx (cstring_of (unread c)) LF)%nat))) \/
   (exists l, line = l ++ [LF] /\ LF ∉ l /\ NUL ∉ l /\ (length line <= MAX_LINESIZE)%nat /\
      len c' = Z.of_nat (length line) /\ unread c = line ++ unread c')).
Proof. apply ci_readln_spec. Qed.

Definition readln_example : ClientBase_T :=
  (client_init (H := plain_conf) 16 7 0 [] [] []) <| read_buffer := lit "NOOP" ++ crlf ++ lit "QU" |>.

Lemma ci_readln_line_witness :
  (ci_readln readln_example).2 = lit "NOOP" ++ crlf /\
  unread readln_example = (ci_readln readln_example).2 ++ unread (ci_readln readln_example).1.
Proof.
  pose proof (ci_readln_line readln_example ltac:(vm_compute; lia)) as T.
  assert ((ci_readln readln_example).2 = lit "NOOP" ++ crlf) as E by (vm_compute; reflexivity).
  destruct (ci_readln readln_example) as [c' line]. simpl in *. split; [exact E|].
  destruct T as [_ [[E' _]|(l & _ & _ & _ & _ & _ & E')]]; [congruence|exact E'].
Defined.

(** All the bytes that are available arrive in the read buffer, in their order, and the
    loop then reports that it would block. *)
Lemma read_loop_drains bss fuel c :
  Forall (fun bs => bs <> []) bss -> rscript c = map Data bss ->
  (read_bound (rscript c) <= fuel)%nat ->
  let c' := read_loop fuel c in
  read_buffer c' = read_buffer c ++ concat bss /\ rscript c' = [] /\
  read_buffer_offset c' = read_buffer_offset c /\
  (errored c = false -> errored c' = false).
Proof.
  revert bss c. induction fuel as [|fuel IH]; intros bss c Hne Hrs Hf.
  { rewrite Hrs in Hf. destruct bss; simpl in Hf; lia. }
  destruct bss as [|bs bss]; simpl; unfold sys_read; rewrite Hrs; simpl.
  - unfold client_error_cb. rewrite app_nil_r.
    assert (errored (set_flag c CLIENT_AGAIN) = errored c) as Ea.
    { unfold errored, has_flag, set_flag; simpl. by rewrite Z.land_lor_distr_l, Z.lor_0_r. }
    destruct (ssl c); simpl; (split; [done|]); (split; [done|]); (split; [done|]); by intros <-.
  - apply Forall_cons in Hne as [Hb Hne].
    rewrite Hrs in Hf. cbn [read_bound foldr map] in Hf. pose proof IBUFLEN_Z as HI.
    remember (IBUFLEN - 1)%nat as m eqn:Em. assert (0 < m)%nat as Hm by lia. clear Em HI.
    assert (0 < length (take m bs))%nat as Hl.
    { rewrite length_take. destruct bs; [by exfalso|]. simpl. lia. }
    assert (Z.of_nat (length (take m bs)) <? 0 = false) as -> by lia.
    assert (Z.of_nat (length (take m bs)) =? 0 = false) as -> by lia.
    destruct (drop m bs) as [|d ds] eqn:Ed.
    + match goal with |- context [read_loop fuel ?c1] =>
        destruct (IH bss c1) as (I1 & I2 & I3 & I4); [done|reflexivity|simpl; unfold read_bound; lia|] end.
      split_and!; [|exact I2|exact I3|intros _; by apply I4].
      rewrite I1. simpl. rewrite <- app_assoc. rewrite (take_ge bs); [done|].
      apply (f_equal length) in Ed. rewrite length_drop in Ed. simpl in Ed. lia.
    + match goal with |- context [read_loop fuel ?c1] =>
        destruct (IH ((d :: ds) :: bss) c1) as (I1 & I2 & I3 & I4); [by constructor|reflexivity| |] end.
      { simpl. unfold read_bound. apply (f_equal length) in Ed. rewrite length_drop in Ed. simpl in Ed.
        rewrite length_take in Hl. lia. }
      split_and!; [|exact I2|exact I3|intros _; by apply I4].
      rewrite I1. cbn [concat]. rewrite <- Ed. simpl read_buffer.
      by rewrite <- app_assoc, (app_assoc (take m bs)), take_drop.
Qed.

(** ** TLS negotiation *)

(** The result of [ci_starttls] is never negative, although its callers test for that: a
    failed handshake is reported as DM_EGENERAL. *)
Lemma ci_starttls_nonneg `{ServerConf} c : 0 <= (ci_starttls c).2.
Proof.
  unfold ci_starttls, DM_EGENERAL, DM_SUCCESS. destruct (_ && _); simpl; [lia|].
  repeat (case_match; simplify_eq/=; try lia).
Qed.

(** A handshake that fails while a reply is partly sent clears the queue but not the offset:
    the next write starts behind the end of the buffer. *)
Lemma ci_starttls_offset :
  let c := client_init (H := plain_conf) 16 7 0 [Accept 9; Fail 11] [] [TlsError 5] in
  let c := (ci_write (H := plain_conf) c (lit "+OK Begin TLS now" ++ crlf) []).1 in
  let c := (ci_starttls (H := plain_conf) c).1 in
  ssl c = false /\ errored c = false /\ fault (ci_write_msg (H := plain_conf) c None).1 = true.
Proof. vm_compute. auto. Qed.
