(* ===== verification/ClientFrame.v ===== *)
(** * What the functions of clientbase.c leave alone

    Writing keeps the scheduled events, and of the unread input either everything or nothing;
    reading a line or a literal takes what it returns from the unread input. *)
From S2P Require Import Prelude CLib GLib ClientBase.

(** The events and the read buffer after a write. *)
Record wrote (c c' : ClientBase_T) : Prop := {
  wrote_rev : rev_on c' = rev_on c;
  wrote_wev : wev_on c' = wev_on c;
  wrote_offset : read_buffer_offset c' = read_buffer_offset c;
  wrote_buffer : read_buffer c' = read_buffer c \/ read_buffer c' = [];
  wrote_flags : exists f, client_state c' = Z.lor (client_state c) f;
}.
#[export] Instance wrote_refl : Reflexive wrote.
Proof. intros c. split; auto. exists 0. by rewrite Z.lor_0_r. Qed.
#[export] Instance wrote_trans : Transitive wrote.
Proof.
  intros c1 c2 c3 [A1 A2 A3 A4 (f & A5)] [B1 B2 B3 B4 (g & B5)]. split; [congruence..| |].
  - destruct B4 as [B4|B4]; [rewrite B4|]; auto.
  - exists (Z.lor f g). by rewrite B5, A5, Z.lor_assoc.
Qed.

(** No more unread input than before. *)
Definition shrinks (c c' : ClientBase_T) : Prop := (length (unread c') <= length (unread c))%nat.
Lemma wrote_shrinks c c' : wrote c c' -> shrinks c c'.
Proof.
  intros [_ _ E B _]. unfold shrinks, unread. rewrite E. destruct B as [B|B]; rewrite B; [done|].
  rewrite drop_nil. simpl. lia.
Qed.

#[export] Instance shrinks_refl : Reflexive shrinks.
Proof. intros c. unfold shrinks. lia. Qed.
#[export] Instance shrinks_trans : Transitive shrinks.
Proof. intros c1 c2 c3. unfold shrinks. lia. Qed.

(** The connection is attended to: broken, or its events are scheduled, that of reading unless the
    client has closed it or [closing]. *)
Definition attended (closing : Prop) (c : ClientBase_T) : Prop :=
  errored c = true \/
  (wev_on c = true /\ (rev_on c = true \/ has_flag (client_state c) CLIENT_EOF = true \/ closing)).
Definition stays (c c' : ClientBase_T) : Prop := forall closing, attended closing c -> attended closing c'.
Lemma lor_flag a b f : has_flag a f = true -> has_flag (Z.lor a b) f = true.
Proof.
  unfold has_flag. rewrite !negb_true_iff, !Z.eqb_neq. intros N E. apply N.
  rewrite Z.land_lor_distr_l in E. by apply Z.lor_eq_0_iff in E as [E _].
Qed.
Lemma flagged_stays c c' :
  wev_on c' = wev_on c -> rev_on c' = rev_on c -> (exists f, client_state c' = Z.lor (client_state c) f) -> stays c c'.
Proof.
  intros W R (f & E) closing. unfold attended, errored. rewrite W, R, E.
  intros [A|(A & [B|[B|B]])]; [left; by apply lor_flag|right..]; split; auto. right; left. by apply lor_flag.
Qed.
Lemma wrote_stays c c' : wrote c c' -> stays c c'.
Proof. intros [R W _ _ F]. by apply flagged_stays. Qed.
Lemma same_stays c c' : wev_on c' = wev_on c -> rev_on c' = rev_on c -> client_state c' = client_state c -> stays c c'.
Proof. intros W R E. apply flagged_stays; [done|done|]. exists 0. by rewrite Z.lor_0_r. Qed.
#[export] Instance stays_refl : Reflexive stays.
Proof. by intros c cl. Qed.
#[export] Instance stays_trans : Transitive stays.
Proof. intros c1 c2 c3 A B cl C. auto. Qed.

Ltac wrote := split; simpl; auto; first [by exists 0; rewrite Z.lor_0_r|by eexists].

Lemma wrote_error_cb c e s : wrote c (client_error_cb c e s).1.
Proof. unfold client_error_cb. repeat case_match; wrote. Qed.
Lemma wrote_sys_write c s : wrote c (sys_write c s).1.1.
Proof. unfold sys_write. repeat case_match; wrote. Qed.
Lemma wrote_ssl_retry fuel c t e count tries : wrote c (ssl_retry fuel c t e count tries).1.1.1.
Proof.
  revert c t e count. induction fuel as [|fuel IH]; intros c t e count; simpl; [done|].
  destruct (t <? 0); [|done]. case_decide; [|done].
  pose proof (wrote_sys_write c (take (tls_wbuf_n c) (tls_wbuf c))) as W.
  destruct (sys_write c _) as [[c1 t1] e1]. etransitivity; [exact W|apply IH].
Qed.

Section client.
Context `{ServerConf}.

Lemma wrote_sock_write c s n count : wrote c (sock_write c s n count).1.1.1.
Proof.
  unfold sock_write, tls_write. destruct (ssl c).
  2:{ pose proof (wrote_sys_write c (take n s)) as W. by destruct (sys_write c (take n s)) as [[c1 t] e]. }
  set (c1 := match tls_wbuf_n c with O => _ | S _ => c end).
  assert (wrote c c1) as W1 by (subst c1; destruct (tls_wbuf_n c); wrote).
  pose proof (wrote_sys_write c1 (take (tls_wbuf_n c1) (tls_wbuf c1))) as W2.
  destruct (sys_write c1 _) as [[c2 t] e]. simpl in W2. destruct (_ && _).
  - pose proof (wrote_ssl_retry (S (conf_timeout - count)) c2 t e count conf_timeout).
    etransitivity; [exact W1|]. by etransitivity.
  - by etransitivity.
Qed.

Lemma wrote_wbuf_len c : wrote c (ci_wbuf_len c).1.
Proof. unfold ci_wbuf_len. repeat case_match; wrote. Qed.
Lemma wrote_advance c t : wrote c (advance c t).
Proof. unfold advance, client_wbuf_scale. repeat case_match; wrote. Qed.
Lemma wrote_ragged c t e : wrote c (ragged_eof c t e).1.
Proof.
  unfold ragged_eof. destruct (_ && _); [|done]. pose proof (wrote_error_cb c t e).
  by destruct (client_error_cb c t e).
Qed.
Lemma wrote_flag c f : wrote c (set_flag c f).
Proof. wrote. Qed.

Lemma wrote_loop fuel c count : wrote c (write_loop fuel c count).1.
Proof.
  revert c count. induction fuel as [|fuel IH]; intros c count; simpl; [done|].
  pose proof (wrote_wbuf_len c) as W. destruct (ci_wbuf_len c) as [c1 todo]. simpl in W.
  destruct (todo =? 0); [done|]. case_decide; [etransitivity; [exact W|wrote]|].
  match goal with |- context [sock_write ?c ?s ?n ?k] =>
    pose proof (wrote_sock_write c s n k) as W2; destruct (sock_write c s n k) as [[[c2 t] e] count2] end.
  simpl in W2. assert (wrote c c2) as W3 by (by etransitivity). destruct (t =? -1).
  - pose proof (wrote_error_cb c2 e e) as W4. destruct (client_error_cb c2 e e) as [c3 r].
    assert (wrote c c3) by (by etransitivity). destruct (r =? 0); [done|].
    etransitivity; [eassumption|apply wrote_flag].
  - pose proof (wrote_ragged c2 t e) as W4. destruct (ragged_eof c2 t e) as [c3 hard].
    assert (wrote c c3) by (by etransitivity). destruct hard; [etransitivity; [eassumption|apply wrote_flag]|].
    etransitivity; [eassumption|]. etransitivity; [apply wrote_advance|apply IH].
Qed.

Lemma wrote_write_msg c m : wrote c (ci_write_msg c m).1.
Proof.
  unfold ci_write_msg. destruct (write_buffer c); [|reflexivity]. destruct (errored c); [reflexivity|].
  etransitivity; [|apply wrote_loop]. destruct m as [[f a]|]; [|done]. destruct (cformat f a); wrote.
Qed.
Lemma wrote_write c f a : wrote c (ci_write c f a).1.
Proof. apply wrote_write_msg. Qed.

Lemma shrinks_same c c' : read_buffer c' = read_buffer c -> read_buffer_offset c' = read_buffer_offset c -> shrinks c c'.
Proof. unfold shrinks, unread. by intros -> ->. Qed.
Lemma shrinks_uncork c : shrinks c (ci_uncork c).
Proof. apply shrinks_same; unfold ci_uncork; by repeat case_match. Qed.
Lemma shrinks_write_cb c : shrinks c (ci_write_cb c).
Proof.
  unfold ci_write_cb. pose proof (wrote_wbuf_len c) as W. destruct (ci_wbuf_len c) as [c1 rest]. simpl in W.
  destruct (rest =? 0); [by apply wrote_shrinks|].
  pose proof (wrote_write_msg c1 None) as W2. destruct (ci_write_msg c1 None) as [c2 r]. simpl in W2.
  assert (shrinks c c2) as S by (apply wrote_shrinks; by etransitivity).
  repeat case_match; simplify_eq/=; try done. eapply shrinks_trans; [exact S|apply shrinks_uncork].
Qed.
Lemma uncork_attended closing c : attended closing (ci_uncork c).
Proof.
  unfold ci_uncork, attended. destruct (errored c) eqn:E; [by left|]. right.
  destruct (has_flag (client_state c) CLIENT_EOF) eqn:F; simpl; auto.
Qed.
Lemma stays_uncork c : stays c (ci_uncork c).
Proof. intros cl _. apply uncork_attended. Qed.
Lemma stays_write_cb c : stays c (ci_write_cb c).
Proof.
  unfold ci_write_cb. pose proof (wrote_wbuf_len c) as W. destruct (ci_wbuf_len c) as [c1 rest]. simpl in W.
  destruct (rest =? 0); [by apply wrote_stays|].
  pose proof (wrote_write_msg c1 None) as W2. destruct (ci_write_msg c1 None) as [c2 r]. simpl in W2.
  assert (stays c c2) as S by (apply wrote_stays; by etransitivity).
  assert (stays c2 (client_wbuf_clear c2)) by by apply same_stays.
  assert (stays c2 (c2 <| wev_on := true |>)) by (intros cl [A|[A B]]; [by left|right; by split]).
  pose proof (stays_uncork c2). repeat case_match; simplify_eq/=; by first [done | eapply stays_trans].
Qed.
Lemma wrote_starttls c : wrote c (ci_starttls c).1.
Proof.
  unfold ci_starttls. destruct (_ && _); [reflexivity|].
  set (x := if ssl c then _ else _). assert (wrote c x.1) as W by (subst x; repeat case_match; wrote).
  destruct x as [c1 ok]. simpl in W. destruct (negb ok); [done|].
  destruct (ssl_state c1 =? 0); [|done].
  set (y := match _ with Some TlsAccept => _ | _ => _ end).
  assert (wrote c1 y.1) as W2.
  { assert (forall c e, wrote c (let '(c, e2) := client_error_cb c e e in (c, negb (e2 =? 0))).1) as L.
    { intros z e. pose proof (wrote_error_cb z e e). by destruct (client_error_cb z e e). }
    set (c2 := c1 <| tscript ::= tail |>) in y. assert (wrote c1 c2) by wrote.
    subst y. destruct (head (tscript c1)) as [[]|]; try done; (etransitivity; [eassumption|apply L]). }
  destruct y as [c2 hard]. simpl in W2. assert (wrote c c2) as W3 by (by etransitivity). destruct hard.
  - etransitivity; [exact W3|wrote].
  - pose proof (wrote_write_msg (c2 <| ssl_state := 1 |>) None) as W4.
    destruct (ci_write_msg _ None) as [c3 r]. etransitivity; [exact W3|].
    etransitivity; [|exact W4]. wrote.
Qed.
End client.

(** ** Reading *)
Lemma length_unread c : length (unread c) = (length (read_buffer c) - read_buffer_offset c)%nat.
Proof. apply length_drop. Qed.
Lemma shrinks_rbuf_scale c : shrinks c (client_rbuf_scale c).
Proof. unfold client_rbuf_scale. case_decide; [|reflexivity]. unfold shrinks, unread; simpl. lia. Qed.
Lemma length_cstring_of s : (length (cstring_of s) <= length s)%nat.
Proof. destruct (cstring_of_prefix s) as (t & E & _). rewrite E at 2. rewrite length_app. lia. Qed.

Lemma ci_readln_takes `{GLibStr} c c' l :
  ci_readln c = (c', l) -> (length l + length (unread c') <= length (unread c))%nat.
Proof.
  unfold ci_readln. set (c0 := if bool_decide _ then _ else _).
  assert (unread c0 = unread c) as U by (subst c0; by case_match).
  assert (drop (read_buffer_offset c0) (read_buffer c0) = unread c) as U' by done. rewrite U'.
  destruct (g_strstr_len _ _); [|intros [= <- <-]; simpl; rewrite U; lia].
  case_decide; [intros [= <- <-]; simpl; change (unread (set_flag _ _)) with (unread c0); rewrite U; lia|].
  set (k := stridx _ _). intros [= <- <-].
  set (c1 := c0 <| read_buffer_offset ::= _ |> <| len := _ |>).
  pose proof (shrinks_rbuf_scale c1) as S. unfold shrinks in S. rewrite (length_unread c1) in S. simpl in S.
  pose proof (length_cstring_of (unread c)) as L. rewrite length_take. rewrite <- U, (length_unread c0) in L.
  rewrite <- U at 2. rewrite (length_unread c0). fold c1. rewrite <- U. lia.
Qed.
Lemma stays_rbuf_scale c : stays c (client_rbuf_scale c).
Proof. unfold client_rbuf_scale. by case_match; apply same_stays. Qed.
Lemma stays_readln `{GLibStr} c : stays c (ci_readln c).1.
Proof.
  unfold ci_readln. set (c0 := if bool_decide _ then _ else _).
  assert (stays c c0) as L by (subst c0; by case_match; apply same_stays).
  destruct (g_strstr_len _ _); [|exact L]. case_decide.
  - etransitivity; [exact L|]. apply flagged_stays; [done|done|by eexists].
  - simpl. etransitivity; [|apply stays_rbuf_scale]. etransitivity; [exact L|]. by apply same_stays.
Qed.
Lemma stays_read c n : stays c (ci_read c n).1.
Proof.
  unfold ci_read. case_decide; simpl; [|by apply same_stays]. etransitivity; [|apply stays_rbuf_scale]. by apply same_stays.
Qed.
Lemma ci_read_takes c n c' b :
  ci_read c n = (c', b) -> (length (default [] b) + length (unread c') <= length (unread c))%nat.
Proof.
  unfold ci_read. case_decide as D; intros [= <- <-]; simpl in *; [|done].
  set (c1 := c <| len := 0 |> <| read_buffer_offset ::= _ |> <| len := _ |>).
  pose proof (shrinks_rbuf_scale c1) as S. unfold shrinks in S. rewrite (length_unread c1) in S. simpl in S.
  change (length (take n (unread c)) + length (unread (client_rbuf_scale c1)) <= length (unread c))%nat.
  rewrite length_take. rewrite (length_unread c) in *. lia.
Qed.
