(* ===== verification/ClientSession.v ===== *)
(** * clientsession.c: the session a protocol server keeps per client

    [ClientSession_T] with the operations that create, reset and end a session and the
    callbacks of the event loop. The protocol handlers (POP3, LMTP) work on this record;
    [closed] says that the session's memory has been given back. *)
From S2P Require Import Prelude CLib GLib ListT ClientBase.

(** ** Client states *)
Definition CLIENTSTATE_ANY : Z := -1.
Definition CLIENTSTATE_INITIAL_CONNECT : Z := 0.
Definition CLIENTSTATE_NON_AUTHENTICATED : Z := 1.
Definition CLIENTSTATE_AUTHENTICATED : Z := 2.
Definition CLIENTSTATE_SELECTED : Z := 3.
Definition CLIENTSTATE_LOGOUT : Z := 4.
Definition CLIENTSTATE_QUIT : Z := 5.
Definition CLIENTSTATE_ERROR : Z := 6.
Definition CLIENTSTATE_QUIT_QUEUED : Z := 7.

(** ** Messages of a POP3 session *)
Definition MESSAGE_STATUS_NEW : Z := 0.
Definition MESSAGE_STATUS_SEEN : Z := 1.
Definition MESSAGE_STATUS_DELETE : Z := 2.

Record message := mkmessage {
  msize : Z;
  messageid : Z;
  realmessageid : Z;
  uidl : cstr;
  messagestatus : Z;
  virtual_messagestatus : Z;
}.
#[export] Instance message_settable : Settable message := fun r =>
  mkmessage (msize r) (messageid r) (realmessageid r) (uidl r) (messagestatus r)
            (virtual_messagestatus r).

(** ** Deliveries of an LMTP session *)
Definition DSN_CLASS_NONE : Z := 0.
Definition DSN_CLASS_OK : Z := 2.
Definition DSN_CLASS_TEMP : Z := 4.
Definition DSN_CLASS_FAIL : Z := 5.
Definition DSN_CLASS_QUOTA : Z := 6.
Definition BOX_NONE : Z := 0.

Record delivery_status_t := mkdsn { dsn_class : Z; dsn_subject : Z; dsn_detail : Z }.
Record Delivery_T := mkdelivery {
  d_useridnr : Z;
  address : option cstr;
  mailbox : option cstr;
  source : Z;
  userids : list Z;
  forwards : list cstr;
  dsn : delivery_status_t;
}.
#[export] Instance Delivery_settable : Settable Delivery_T := fun r =>
  mkdelivery (d_useridnr r) (address r) (mailbox r) (source r) (userids r) (forwards r) (dsn r).

Definition dsnuser_init : Delivery_T :=
  {| d_useridnr := 0; address := None; mailbox := None; source := BOX_NONE;
     userids := []; forwards := []; dsn := mkdsn 0 0 0 |}.

(** ** The session *)
Record ClientSession_T := mksession {
  ci : ClientBase_T;
  state : Z;
  error_count : Z;
  was_apop : Z;
  SessionResult : Z;
  parser_state : bool;
  command_type : Z;
  useridnr : Z;                         (** used by the ManageSieve server *)
  args : plist cstr;
  rbuff : list ascii;
  username : option cstr;
  password : option cstr;
  hostname : cstr;
  apop_stamp : option cstr;
  totalsize : Z;
  virtual_totalsize : Z;
  totalmessages : Z;
  virtual_totalmessages : Z;
  messagelst : plist message;
  from : plist cstr;
  rcpt : option (plist Delivery_T);     (** NULL until the first reset *)
  closed : bool;
}.
#[export] Instance ClientSession_settable : Settable ClientSession_T := fun r =>
  mksession (ci r) (state r) (error_count r) (was_apop r) (SessionResult r) (parser_state r)
    (command_type r) (useridnr r) (args r) (rbuff r) (username r) (password r) (hostname r) (apop_stamp r)
    (totalsize r) (virtual_totalsize r) (totalmessages r) (virtual_totalmessages r)
    (messagelst r) (from r) (rcpt r) (closed r).

(** [client_session_new]; [host] is what gethostname and [uid] what create_unique_id yield. *)
Definition client_session_new (c : ClientBase_T) (host uid : cstr) : ClientSession_T :=
  let host := take 63 host in
  {| ci := ci_cork c; state := CLIENTSTATE_INITIAL_CONNECT; error_count := 0; was_apop := 0;
     SessionResult := 0; parser_state := false; command_type := 0; useridnr := 0; args := p_list_new;
     rbuff := []; username := None; password := None; hostname := host;
     apop_stamp := Some (lit "<" ++ uid ++ lit "@" ++ host ++ lit ">");
     totalsize := 0; virtual_totalsize := 0; totalmessages := 0; virtual_totalmessages := 0;
     messagelst := p_list_new; from := p_list_new; rcpt := None; closed := false |}.

Definition client_session_reset_parser (s : ClientSession_T) : ClientSession_T :=
  s <| parser_state := false |> <| command_type := 0 |> <| rbuff := [] |> <| args := p_list_new |>.

Definition client_session_reset (s : ClientSession_T) : ClientSession_T :=
  client_session_reset_parser
    (s <| rcpt := Some p_list_new |> <| from := p_list_new |> <| apop_stamp := None |>
       <| username := None |> <| password := None |> <| state := CLIENTSTATE_INITIAL_CONNECT |>).

Definition client_session_set_timeout (s : ClientSession_T) (timeout : nat) : ClientSession_T :=
  s <| ci ::= fun c => c <| tv_sec := Z.of_nat timeout |> |>.

Section session.
Context `{ServerConf}.

(** The flush loop of [client_session_bailout]: until the queue is empty, the connection
    breaks, or a hundred attempts in a row made no progress. *)
Fixpoint bailout_flush (fuel : nat) (c : ClientBase_T) (after : Z) (failcount : nat) : ClientBase_T :=
  match fuel with
  | O => c
  | S fuel' =>
      if negb (after =? 0) && negb (errored c) && bool_decide (failcount < 100)%nat then
        let '(c, before) := ci_wbuf_len c in
        let c := ci_write_cb c in
        let '(c, after) := ci_wbuf_len c in
        bailout_flush fuel' c after (if before =? after then S failcount else O)
      else c
  end.

Definition client_session_bailout (s : ClientSession_T) : ClientSession_T :=
  let '(c, after) := ci_wbuf_len (ci s) in
  let c := ci_cork (bailout_flush (length (wscript c) + 102) c after 0) in
  let s := client_session_reset (s <| ci := c |>) in
  s <| state := CLIENTSTATE_QUIT_QUEUED |>
    <| ci ::= fun c => c <| ssl := false |> <| rx := -1 |> |>
    <| rcpt := None |> <| closed := true |>.

(** The read event: [handle_input] is the protocol's handler. *)
Definition client_session_read (handle_input : ClientSession_T -> ClientSession_T)
    (s : ClientSession_T) : ClientSession_T :=
  let s := s <| ci ::= ci_read_cb |> in
  let have := Z.of_nat (length (read_buffer (ci s))) in
  let need := rbuff_size (ci s) in
  let enough := if 0 <? need then need <=? have else 0 <? have in
  if errored (ci s) then client_session_bailout s
  else if has_flag (client_state (ci s)) CLIENT_EOF then
    let s := s <| ci ::= ci_cork |> in
    if enough then handle_input s else client_session_bailout s
  else if 0 <? have then handle_input s else s.

(** The write event, after the protocol's own callback. *)
Definition socket_write_cb (cb_write : ClientSession_T -> ClientSession_T)
    (s : ClientSession_T) : ClientSession_T :=
  let s := cb_write s in
  if (state s =? CLIENTSTATE_INITIAL_CONNECT) || (state s =? CLIENTSTATE_NON_AUTHENTICATED)
  then client_session_set_timeout s conf_login_timeout
  else if (state s =? CLIENTSTATE_AUTHENTICATED) || (state s =? CLIENTSTATE_SELECTED)
  then client_session_set_timeout s conf_timeout
  else if (state s =? CLIENTSTATE_LOGOUT) || (state s =? CLIENTSTATE_QUIT)
          || (state s =? CLIENTSTATE_ERROR)
  then client_session_bailout s
  else s.

End session.

(** ** Walking over a list of the session

    The handlers walk a list with the pattern: go to the first node, look at its data, stop
    where there is no next node, else continue with the next node. [walk] is that pattern
    for a list inside a state [S], with a body that can end the walk with a result. *)
Section walk.
Context {S A R : Type} (get : S -> plist A) (put : S -> plist A -> S).

Fixpoint walk (fuel : nat) (body : S -> option A -> S + R) (s : S) : S + R :=
  match fuel with
  | O => inl s
  | Datatypes.S fuel' =>
      match body s (p_list_data (get s)) with
      | inr r => inr r
      | inl s' => match p_list_next (get s') with
                  | None => inl s'
                  | Some L => walk fuel' body (put s' L)
                  end
      end
  end.

(** The rule for the walk: [P] holds at every visited node, [Q] where the walk ends at the
    last node, [QR] of a result. The body may change the items but not their number, and it
    does not move the cursor. Fuel for the remaining nodes is enough, so the rule does not
    depend on running out of it. *)
Lemma walk_rule (P Q : S -> Prop) (QR : R -> Prop) body fuel s :
  (forall s L, get (put s L) = L) ->
  (forall s, P s -> plist_wf (get s) ->
     match body s (p_list_data (get s)) with
     | inr r => QR r
     | inl s' => pos (get s') = pos (get s) /\ length (items (get s')) = length (items (get s)) /\
                 match p_list_next (get s') with Some L => P (put s' L) | None => Q s' end
     end) ->
  P s -> plist_wf (get s) -> (length (items (get s)) - pos (get s) <= fuel)%nat ->
  match walk fuel body s with inl s' => Q s' | inr r => QR r end.
Proof.
  intros Hput Hbody. revert s. induction fuel as [|fuel IH]; intros s HP Hwf Hf.
  { unfold plist_wf in Hwf. lia. }
  simpl. specialize (Hbody s HP Hwf). destruct (body s _) as [s'|r]; [|done].
  destruct Hbody as (Hpos & Hlen & Hn). unfold p_list_next in *. case_decide as Hd; [|done].
  apply IH; [done|..]; rewrite Hput; unfold plist_wf; simpl; lia.
Qed.

(** The rule for a property that does not depend on the position. *)
Lemma walk_preserves (P : S -> Prop) (QR : R -> Prop) body fuel s :
  (forall s L, P s -> P (put s L)) ->
  (forall s d, P s -> match body s d with inl s' => P s' | inr r => QR r end) ->
  P s -> match walk fuel body s with inl s' => P s' | inr r => QR r end.
Proof.
  intros Hput Hbody. revert s. induction fuel as [|fuel IH]; intros s HP; simpl; [done|].
  specialize (Hbody s (p_list_data (get s)) HP). destruct (body s _) as [s'|r]; [|done].
  destruct (p_list_next (get s')); [|done]. by apply IH, Hput.
Qed.
End walk.
