(* ===== verification/MiscText.v ===== *)
(** * dm_misc.c: text utilities

    Line endings and dot-stuffing of outgoing messages, the bounded substrings behind
    address parsing, the extraction of the base subject, shell escaping, IMAP syntax checks
    and mailbox name spaces. Functions that rewrite a string in place return the new string;
    [zap_between] works on the memory block of its copy, because its bounds matter. *)
From S2P Require Import Prelude CLib GLib DmString ClientBase.

(** ** IMAP strings

    [dbmail_imap_astring_as_string]: a quoted string or a literal. [astring_body] is the
    argument without enclosing double quotes, [astring_loop] the search for the first
    character that cannot be quoted; its result is the text of the literal. *)
Definition eight_bit (c : ascii) : bool := 128 <=? code c.
Definition astring_body (s : cstr) : cstr :=
  let n := length s in
  let penult := if bool_decide (2 < n)%nat then char_at s (n - 2) else BACKSLASH in
  if bool_decide (char_at s 0 = DQUOTE) && bool_decide (char_at s (n - 1) = DQUOTE) &&
     negb (bool_decide (penult = BACKSLASH))
  then take (n - 2) (tail s) else s.
Fixpoint astring_loop (s l : cstr) (prev : option ascii) (rest : cstr) : option cstr :=
  match rest with
  | [] => None
  | c :: rest =>
      if eight_bit c || in_set [CR; LF; DQUOTE; BACKSLASH] c then
        Some (match prev with
              | Some p => if bool_decide (c = DQUOTE) && negb (bool_decide (p = BACKSLASH)) then s else l
              | None => l
              end)
      else astring_loop s l (Some c) rest
  end.
Definition dbmail_imap_astring_as_string (s : cstr) : cstr :=
  match s with
  | [] => [DQUOTE; DQUOTE]
  | _ =>
      let l := astring_body s in
      match astring_loop s l None l with
      | Some p => lit "{" ++ dec_of (strlen p) ++ lit "}" ++ crlf ++ p
      | None => DQUOTE :: l ++ [DQUOTE]
      end
  end.

(** ** Line endings *)
Definition is_eol (c : ascii) : bool := bool_decide (c = CR) || bool_decide (c = LF).

(** [strip_crlf]: the loop stops at index 0, which is never cleared. *)
Fixpoint strip_loop (l : nat) (s : cstr) : cstr :=
  match l with
  | O => s
  | S l' => if is_eol (char_at s l) then strip_loop l' (take l s) else s
  end.
Definition strip_crlf (s : cstr) : cstr := strip_loop (pred (length s)) s.

(** The second loop of [get_crlf_encoded_opt]; [prev] is carried over from the first loop,
    which leaves the last character of the input in it. *)
Fixpoint crlf_encode (dots : bool) (prev : ascii) (s : cstr) : cstr :=
  match s with
  | [] => []
  | curr :: s' =>
      (if bool_decide (curr = LF) && negb (bool_decide (prev = CR)) then [CR] else []) ++
      (if dots && bool_decide (curr = "."%char) && bool_decide (prev = LF) then ["."%char] else []) ++
      curr :: crlf_encode dots curr s'
  end.
Definition count_lf (s : cstr) : nat := length (filter (fun c => c = LF) s).
(** The bytes that are allocated for the result, the terminator included. *)
Definition crlf_alloc (s : cstr) : nat := (length s + 2 * count_lf s + 1)%nat.
Definition get_crlf_encoded_opt (s : cstr) (dots : bool) : cstr :=
  crlf_encode dots (default NUL (last s)) s.
Definition get_crlf_encoded (s : cstr) : cstr := get_crlf_encoded_opt s false.
Definition get_crlf_encoded_dots (s : cstr) : cstr := get_crlf_encoded_opt s true.

(** ** Where the header of a message ends (dm_message.c) *)
(** The loop of [find_end_of_header]: [i] counts the characters in front of [h]; [n] is the
    number of characters left. *)
Fixpoint eoh_loop (n : nat) (h : cstr) (i : nat) (p1 p2 : ascii) : nat :=
  match n with
  | O => i
  | S n' =>
      let i := S i in
      let c := char_at h i in
      if bool_decide (c = LF) && (bool_decide (p1 = LF) || (bool_decide (p1 = CR) && bool_decide (p2 = LF)))
      then if bool_decide (i < length h)%nat then S i else i
      else eoh_loop n' h i c p1
  end.
Definition find_end_of_header (h : cstr) : nat := eoh_loop (length h) h 0 NUL NUL.

(** ** Command lines

    The command and the argument of a line, as the handlers of POP3 and LMTP take them
    apart; [None] for an empty line. *)
Definition command_words `{GLibStr} (buffer : cstr) : option (cstr * option cstr) :=
  match g_strstrip (strip_crlf buffer) with
  | [] => None
  | s => match split_at s SP with
         | None => Some (s, None)
         | Some (command, []) => Some (command, None)
         | Some (command, value) => Some (command, Some value)
         end
  end.

(** ** Bounded substrings *)
Fixpoint scan_right (n : nat) (s : cstr) (lo : nat) (right : ascii) : nat :=
  match n with
  | O => O
  | S n' => if bool_decide (char_at s n = right) || bool_decide (n <= lo)%nat
            then n else scan_right n' s lo right
  end.
(** [find_bounded]: the text between the bounds and the index of the right bound. *)
Definition find_bounded (value : cstr) (lb rb : ascii) : option (cstr * nat) :=
  let tmpleft := stridx value lb in
  let tmpright := scan_right (length value) value tmpleft rb in
  if bool_decide (char_at value tmpleft = lb) && bool_decide (char_at value tmpright = rb) then
    let tmpleft := if bool_decide (tmpright = tmpleft) then tmpleft else S tmpleft in
    Some (take (tmpright - tmpleft) (drop tmpleft value), tmpright)
  else None.

(** [zap_between]: a negative bound is clipped together with the text. The first component
    of the result is the return value; [None] is a write outside the copy. *)
Definition zap_between (instring : cstr) (lb rb : Z) : option (Z * option (cstr * Z * Z)) :=
  let clipleft := lb <? 0 in
  let clipright := rb <? 0 in
  let l := ascii_of_code (Z.abs lb) in
  let r := ascii_of_code (Z.abs rb) in
  match str_index instring l, str_rindex instring r with
  | Some start, Some end_ =>
      let start := if clipleft then start else S start in
      let end_ := if clipright then S end_ else end_ in
      let blk := instring ++ [NUL] in
      blk' ← poke blk start (drop end_ blk);
      let out := cstring_of blk' in
      Some (0, Some (out, strlen out, wrap64 (Z.of_nat end_ - Z.of_nat start)))
  | _, _ => Some (-1, None)
  end.

(** ** Lemmas on command lines *)
Lemma strip_loop_prefix l s : exists t, s = strip_loop l s ++ t.
Proof.
  revert s. induction l as [|l IH]; intros s; simpl; [by exists []; rewrite app_nil_r|].
  destruct (is_eol _); [|by exists []; rewrite app_nil_r].
  destruct (IH (take (S l) s)) as [t E]. exists (t ++ drop (S l) s). by rewrite app_assoc, <- E, take_drop.
Qed.

(** The argument is a part of the line. *)
Lemma command_words_part `{GLibStrLaws} buffer command v :
  command_words buffer = Some (command, Some v) -> exists pre post, buffer = pre ++ v ++ post.
Proof.
  unfold command_words. destruct (g_strstrip_spec (strip_crlf buffer)) as (pre & post & E & _).
  destruct (strip_loop_prefix (pred (length buffer)) buffer) as [t Et]. fold (strip_crlf buffer) in Et.
  set (s := g_strstrip (strip_crlf buffer)) in *. intros Hp.
  assert (exists pre', s = pre' ++ v) as [pre' Es].
  { destruct s as [|c s']; [done|]. destruct (split_at (c :: s') SP) as [[a b]|] eqn:Es; [|done].
    apply split_at_spec in Es as [-> _]. destruct b as [|b0 b]; [done|]. simplify_eq.
    exists (command ++ [SP]). by rewrite <- app_assoc. }
  exists (pre ++ pre'), (post ++ t). rewrite Et, E, Es. by rewrite <- !app_assoc.
Qed.

Lemma command_words_sub `{GLibStrLaws} buffer command v :
  command_words buffer = Some (command, Some v) -> forall x, x ∈ v -> x ∈ buffer.
Proof.
  intros (pre & post & ->)%command_words_part x Hx. rewrite !elem_of_app. auto.
Qed.

(** ** Theorems on line endings *)
Lemma count_lf_cons c s : count_lf (c :: s) = ((if decide (c = LF) then 1 else 0) + count_lf s)%nat.
Proof. unfold count_lf. rewrite filter_cons. by case_decide. Qed.

Lemma count_lf_snoc c s : count_lf (s ++ [c]) = count_lf (c :: s).
Proof.
  unfold count_lf. rewrite filter_app, length_app, !filter_cons, filter_nil. case_decide; simpl; lia.
Qed.

(** Every line feed accounts for at most one carriage return in front of it and one dot
    behind it. *)
Lemma crlf_encode_length dots prev s :
  (length (crlf_encode dots prev s) <=
     length s + count_lf s + count_lf (take (length s) (prev :: s)))%nat.
Proof.
  revert prev. induction s as [|c s IH]; intros prev; [done|].
  specialize (IH c). cbn [crlf_encode length take]. rewrite !length_app, !count_lf_cons. cbn [length].
  assert (length (if bool_decide (c = LF) && negb (bool_decide (prev = CR)) then [CR] else [])
          <= if decide (c = LF) then 1 else 0)%nat as H1.
  { destruct (decide (c = LF)); [by destruct (_ && _); simpl; lia|].
    by rewrite (bool_decide_eq_false_2 (c = LF)). }
  assert (length (if dots && bool_decide (c = "."%char) && bool_decide (prev = LF) then ["."%char] else [])
          <= if decide (prev = LF) then 1 else 0)%nat as H2.
  { destruct (decide (prev = LF)); [by destruct (dots && _ && _); simpl; lia|].
    by rewrite (bool_decide_eq_false_2 (prev = LF)), andb_false_r. }
  lia.
Qed.

(** The buffer that [get_crlf_encoded_opt] allocates is large enough for its output and
    the terminator, for every input: no heap overflow, although the loop that fills the
    buffer starts with the last character of the input as the previous one. *)
Theorem get_crlf_encoded_fits s dots :
  (length (get_crlf_encoded_opt s dots) + 1 <= crlf_alloc s)%nat.
Proof.
  unfold get_crlf_encoded_opt, crlf_alloc.
  pose proof (crlf_encode_length dots (default NUL (last s)) s) as HL.
  enough (count_lf (take (length s) (default NUL (last s) :: s)) = count_lf s) as E by lia.
  destruct s as [|x s' _] using rev_ind; [done|].
  rewrite last_snoc. simpl. rewrite length_app, Nat.add_1_r. cbn [take].
  by rewrite take_app_length, count_lf_snoc.
Qed.

(** What a POP3 client makes of a multi-line reply: a line that is a single dot ends it, a
    leading dot of any other line is removed. *)
Fixpoint multiline_recv (bol : bool) (s : cstr) : option (cstr * cstr) :=
  match s with
  | [] => None
  | c :: s' =>
      if bol && bool_decide (c = "."%char) then
        match s' with
        | x :: y :: rest =>
            if bool_decide (x = CR) && bool_decide (y = LF) then Some ([], rest)
            else multiline_recv false s'
        | _ => multiline_recv false s'
        end
      else '(t, rest) ← multiline_recv (bool_decide (c = LF)) s'; Some (c :: t, rest)
  end.

Definition terminator : cstr := crlf ++ lit "." ++ crlf.

Lemma multiline_recv_plain c s bol :
  c <> "."%char \/ bol = false ->
  multiline_recv bol (c :: s) =
    ('(t, rest) ← multiline_recv (bool_decide (c = LF)) s; Some (c :: t, rest)).
Proof.
  intros Hc. simpl. destruct Hc as [Hc| ->]; [|done].
  by rewrite (bool_decide_eq_false_2 (c = _)), andb_false_r.
Qed.

Lemma multiline_recv_end bol rest :
  multiline_recv bol (terminator ++ rest) = Some (crlf, rest).
Proof. by destruct bol. Qed.

(** One character of the encoding, read by the client. *)
Lemma crlf_encode_recv s prev bol rest :
  (prev = LF -> bol = true) -> (bol = true -> prev = LF \/ head s <> Some "."%char) ->
  multiline_recv bol (crlf_encode true prev s ++ terminator ++ rest) =
    Some (crlf_encode false prev s ++ crlf, rest).
Proof.
  revert prev bol. induction s as [|c s IH]; intros prev bol H1 H2.
  { apply multiline_recv_end. }
  assert (forall b, c <> "."%char \/ b = false ->
    multiline_recv b ((c :: crlf_encode true c s) ++ terminator ++ rest) =
    Some ((c :: crlf_encode false c s) ++ crlf, rest)) as Hc.
  { intros b Hd. rewrite <- app_comm_cons, multiline_recv_plain by done.
    rewrite (IH c (bool_decide (c = LF))); [done|..].
    - intros ->. by rewrite bool_decide_eq_true_2.
    - intros Hl%bool_decide_eq_true. by left. }
  cbn [crlf_encode andb]. destruct (decide (c = "."%char)) as [->|Hdot].
  - rewrite (bool_decide_eq_false_2 ("."%char = LF)) by done. cbn [andb app].
    rewrite (bool_decide_eq_true_2 ("."%char = "."%char)) by done. cbn [andb].
    destruct (decide (prev = LF)) as [Hp|Hp].
    + rewrite (H1 Hp), (bool_decide_eq_true_2 (prev = LF)) by done. cbn [app].
      transitivity (multiline_recv false (("."%char :: crlf_encode true "."%char s) ++ terminator ++ rest));
        [|by rewrite Hc by (by right)].
      cbn [app]. by destruct (crlf_encode true "."%char s ++ terminator ++ rest).
    + rewrite (bool_decide_eq_false_2 (prev = LF)) by done. cbn [app]. apply Hc. right.
      destruct bol; [|done]. destruct (H2 eq_refl); done.
  - rewrite (bool_decide_eq_false_2 (c = "."%char)) by done. cbn [andb app].
    destruct (bool_decide (c = LF) && _); cbn [app]; [|apply Hc; by left].
    rewrite multiline_recv_plain by (by left). rewrite bool_decide_eq_false_2 by done.
    by rewrite Hc by (by right).
Qed.

(** A client that reads a message sent by RETR or TOP recovers the message, with its line
    ends as CRLF, and stops exactly at the end of the reply: no line of the message can be
    taken for the terminator. The first character must not be a dot, unless the message
    ends in a line feed. *)
Theorem get_crlf_encoded_dots_recv s rest :
  head s <> Some "."%char \/ last s = Some LF ->
  multiline_recv true (get_crlf_encoded_dots s ++ terminator ++ rest) =
    Some (get_crlf_encoded s ++ crlf, rest).
Proof.
  intros Hs. apply crlf_encode_recv; [done|]. intros _. destruct Hs as [Hs|Hs]; [by right|].
  left. by rewrite Hs.
Qed.

Lemma get_crlf_encoded_dots_recv_witness :
  let s := lit "A: b" ++ [LF; LF] ++ lit ".end" ++ [LF] ++ lit "." ++ [LF] in
  multiline_recv true (get_crlf_encoded_dots s ++ terminator ++ lit "+OK") =
    Some (get_crlf_encoded s ++ crlf, lit "+OK").
Proof.
  apply (get_crlf_encoded_dots_recv (lit "A: b" ++ [LF; LF] ++ lit ".end" ++ [LF] ++ lit "." ++ [LF])
           (lit "+OK")).
  left. vm_compute. discriminate.
Defined.

(** The dot that starts a message is not stuffed when the message does not end in a line
    feed, because the previous character is taken from the end of the message: such a
    message is cut off at its first line. *)
Lemma get_crlf_encoded_dots_first_dot :
  get_crlf_encoded_dots (lit "." ++ [LF] ++ lit "secret") = lit "." ++ crlf ++ lit "secret" /\
  multiline_recv true (get_crlf_encoded_dots (lit "." ++ [LF] ++ lit "secret") ++ terminator) =
    Some ([], lit "secret" ++ terminator).
Proof. split; reflexivity. Qed.

(** ** Theorems on bounded substrings *)
Lemma char_at_lookup s i c : c <> NUL -> char_at s i = c <-> s !! i = Some c.
Proof. intros Hc. unfold char_at. destruct (s !! i); simpl; naive_solver. Qed.

Lemma stridx_le s c : (stridx s c <= length s)%nat.
Proof. induction s as [|x s IH]; simpl; [done|]. destruct (bool_decide (x = c)); lia. Qed.

Lemma stridx_lookup s c : c ∈ s -> s !! stridx s c = Some c /\ c ∉ take (stridx s c) s.
Proof.
  intros Hin. destruct (stridx_spec s c Hin) as (t & _ & Hn). split; [|done]. clear t Hn.
  induction s as [|x s IH]; simpl; [by apply elem_of_nil in Hin|].
  case_bool_decide; [by subst|]. simpl. apply IH. apply elem_of_cons in Hin as [?|?]; congruence.
Qed.

Lemma stridx_not s c : c ∉ s -> stridx s c = length s.
Proof.
  induction s as [|x s IH]; simpl; [done|]. intros [H1 H2]%not_elem_of_cons.
  rewrite bool_decide_eq_false_2 by congruence. by rewrite IH.
Qed.

Lemma scan_right_spec n s lo right :
  (lo <= n)%nat ->
  let m := scan_right n s lo right in
  (lo <= m <= n)%nat /\ (char_at s m = right \/ m = lo) /\
  (forall k, (m < k <= n)%nat -> char_at s k <> right).
Proof.
  induction n as [|n IH]; intros Hlo; simpl.
  { split_and!; [lia|lia|right; lia|intros; lia]. }
  destruct (bool_decide (char_at s (S n) = right)) eqn:E1; simpl; to_prop.
  { split_and!; [lia|lia|by left|intros; lia]. }
  destruct (bool_decide (S n <= lo)%nat) eqn:E2; to_prop.
  { split_and!; [lia|lia|right; lia|intros; lia]. }
  destruct IH as (I1 & I2 & I3); [lia|]. split_and!; [lia|lia|done|].
  intros k Hk. destruct (decide (k = S n)) as [->|]; [done|]. apply I3. lia.
Qed.

(** [find_bounded] succeeds exactly when the left bound occurs and the right bound occurs
    behind its first occurrence; it returns the text between the first left bound and the
    last right bound, and the position of that right bound. *)
Theorem find_bounded_spec value lb rb t p :
  lb <> NUL -> rb <> NUL -> lb <> rb ->
  find_bounded value lb rb = Some (t, p) <->
  exists a b, value = a ++ lb :: t ++ rb :: b /\ lb ∉ a /\ rb ∉ b /\ p = S (length a + length t).
Proof.
  intros Hl Hr Hne. unfold find_bounded.
  destruct (decide (lb ∈ value)) as [Hin|Hnin].
  2:{ split.
      - rewrite (stridx_not _ _ Hnin). rewrite (bool_decide_eq_false_2 (char_at value (length value) = lb)); [done|].
        rewrite char_at_lookup by done. intros X%lookup_lt_Some. lia.
      - intros (a & b & -> & _). exfalso. apply Hnin. apply elem_of_app. right. left. }
  destruct (stridx_lookup value lb Hin) as [Hi Hni].
  set (i := stridx value lb) in *. pose proof (lookup_lt_Some _ _ _ Hi) as Hlt.
  destruct (scan_right_spec (length value) value i rb) as (S1 & S2 & S3); [lia|].
  set (m := scan_right _ _ _ _) in *.
  rewrite (bool_decide_eq_true_2 (char_at value i = lb)) by (by apply char_at_lookup). simpl.
  assert (m = i -> char_at value m <> rb) as Hmi.
  { intros -> X. apply char_at_lookup in X; [|done]. congruence. }
  split.
  - case_bool_decide as Em; [|done].
    rewrite (bool_decide_eq_false_2 (m = i)) by (intros X; by apply Hmi).
    intros [= <- <-]. exists (take i value), (drop (S m) value).
    assert (i < m)%nat as Him by (destruct (decide (m = i)); [by destruct (Hmi e)|lia]).
    pose proof (proj1 (char_at_lookup value m rb Hr) Em) as Hm. pose proof (lookup_lt_Some _ _ _ Hm).
    split_and!; [|done| |].
    + rewrite <- (take_drop_middle value i lb Hi) at 1. f_equal. f_equal.
      rewrite <- (take_drop (m - S i) (drop (S i) value)) at 1. f_equal.
      rewrite drop_drop. replace (S i + (m - S i))%nat with m by lia.
      by rewrite (drop_S _ _ _ Hm).
    + intros [k Hk]%list_elem_of_lookup. rewrite lookup_drop in Hk.
      pose proof (lookup_lt_Some _ _ _ Hk). apply (S3 (S m + k)%nat); [lia|].
      by apply char_at_lookup.
    + rewrite !length_take, length_drop. lia.
  - intros (a & b & E & Ha & Hb & ->).
    assert (i = length a) as Ei.
    { assert (str_index value lb = Some i) as X by (by apply str_index_Some).
      assert (str_index value lb = Some (length a)) as Y; [|congruence].
      apply str_index_Some. rewrite E. by rewrite list_lookup_middle, take_app_length by done. }
    set (q := S (length a + length t)).
    assert (value !! q = Some rb) as Hq.
    { rewrite E, app_comm_cons, app_assoc. apply list_lookup_middle.
      rewrite length_app. simpl. subst q. lia. }
    assert (forall k, (q < k)%nat -> char_at value k <> rb) as Hgt.
    { intros k Hk X. apply char_at_lookup in X; [|done]. apply Hb.
      apply list_elem_of_lookup. exists (k - S q)%nat.
      rewrite E, app_comm_cons, app_assoc in X. rewrite lookup_app_r in X; [|rewrite length_app; simpl; lia].
      rewrite lookup_cons_ne_0 in X by (rewrite length_app; simpl; lia).
      rewrite <- X. f_equal. rewrite length_app; simpl. lia. }
    pose proof (lookup_lt_Some _ _ _ Hq) as Hql.
    assert (m = q) as ->.
    { destruct (decide (m < q)%nat) as [L|L].
      - exfalso. apply (S3 q); [lia|]. by apply char_at_lookup.
      - destruct (decide (m = q)); [done|]. exfalso. destruct S2 as [S2|S2]; [apply (Hgt m); [lia|done]|lia]. }
    rewrite bool_decide_eq_true_2 by (by apply char_at_lookup).
    rewrite bool_decide_eq_false_2 by lia. f_equal. f_equal. rewrite Ei, E.
    rewrite drop_app_ge by lia. replace (S (length a) - length a)%nat with 1%nat by lia. simpl.
    rewrite drop_0. replace (length a + length t - length a)%nat with (length t) by lia.
    by rewrite take_app_length.
Qed.

Lemma find_bounded_spec_witness :
  find_bounded (lit "FROM:<a<b>@c> SIZE") "<"%char ">"%char = Some (lit "a<b>@c", 12%nat).
Proof.
  apply (find_bounded_spec (lit "FROM:<a<b>@c> SIZE") "<"%char ">"%char); try discriminate.
  exists (lit "FROM:"), (lit " SIZE"). split_and!; try reflexivity;
    apply (bool_decide_eq_true_1 _); reflexivity.
Defined.

Lemma str_rindex_Some s c i :
  str_rindex s c = Some i -> s !! i = Some c /\ c ∉ drop (S i) s.
Proof.
  revert i; induction s as [|x s IH]; intros i; simpl; [done|].
  destruct (str_rindex s c) as [j|] eqn:E.
  - intros [= <-]. simpl. by apply IH.
  - case_bool_decide; [|done]. intros [= <-]. subst. split; [done|]. simpl.
    rewrite drop_0. clear IH. induction s as [|y s IH]; [by apply not_elem_of_nil|].
    simpl in E. destruct (str_rindex s c); [done|]. case_bool_decide; [done|].
    apply not_elem_of_cons. split; [congruence|]. by apply IH.
Qed.

(** [zap_between] stays inside its copy exactly when the text it removes is not of
    negative length, and then it removes exactly the text between the bounds; with the right
    bound in front of the left one it writes behind the end of the copy. *)
Theorem zap_between_safe s lb rb i j :
  NUL ∉ s ->
  str_index s (ascii_of_code (Z.abs lb)) = Some i ->
  str_rindex s (ascii_of_code (Z.abs rb)) = Some j ->
  let start := if lb <? 0 then i else S i in
  let end_ := if rb <? 0 then S j else j in
  ((start <= end_)%nat ->
     zap_between s lb rb = Some (0, Some (take start s ++ drop end_ s,
       strlen (take start s ++ drop end_ s), wrap64 (Z.of_nat end_ - Z.of_nat start)))) /\
  ((end_ < start)%nat -> zap_between s lb rb = None).
Proof.
  intros Hz Hi Hj. cbn zeta. unfold zap_between. rewrite Hi, Hj.
  apply str_index_Some in Hi as [Hi _]. apply str_rindex_Some in Hj as [Hj _].
  apply lookup_lt_Some in Hi. apply lookup_lt_Some in Hj.
  set (start := if lb <? 0 then i else S i). set (end_ := if rb <? 0 then S j else j).
  assert (start <= length s)%nat by (subst start; case_match; lia).
  assert (end_ <= length s)%nat by (subst end_; case_match; lia).
  split; intros Hse.
  - rewrite poke_ok by (rewrite length_drop, length_app; simpl; lia). simpl.
    assert (cstring_of (take start (s ++ [NUL]) ++ drop end_ (s ++ [NUL]) ++
       drop (start + length (drop end_ (s ++ [NUL]))) (s ++ [NUL])) = take start s ++ drop end_ s) as ->; [|done].
    rewrite take_app_le, drop_app_le by done. rewrite <- app_assoc, app_assoc. unfold cstring_of.
    assert (NUL ∉ take start s ++ drop end_ s) as Hn.
    { rewrite elem_of_app. intros [X|X]; apply Hz;
        [by eapply elem_of_take_weaken|by eapply elem_of_drop_weaken]. }
    cbn [app]. match goal with |- context [str_index ?x NUL] =>
      assert (str_index x NUL = Some (length (take start s ++ drop end_ s))) as -> end.
    { apply str_index_Some. by rewrite list_lookup_middle, take_app_length. }
    by rewrite take_app_length.
  - unfold poke. rewrite decide_False; [done|]. rewrite length_drop, length_app. simpl. lia.
Qed.

Lemma zap_between_safe_witness :
  zap_between (lit "john+lists@example.org") (- 43) 64 =
    Some (0, Some (lit "john@example.org", 16, 6)) /\
  zap_between (lit "john@example+org") (- 43) 64 = None.
Proof.
  split.
  - apply (zap_between_safe (lit "john+lists@example.org") (- 43) 64 4 10);
      [apply (bool_decide_eq_true_1 _); reflexivity|reflexivity|reflexivity|vm_compute; lia].
  - apply (zap_between_safe (lit "john@example+org") (- 43) 64 12 4);
      [apply (bool_decide_eq_true_1 _); reflexivity|reflexivity|reflexivity|vm_compute; lia].
Defined.
