(* ===== verification/MiscDate.v ===== *)
(** * dm_misc.c: dates and message sets

    The conversions between the dates of IMAP and of SQL, the tests of dates and of message sets
    in searches, and what they use of strptime and strftime in the C locale. *)
From S2P Require Import Prelude CLib.

(** ** strptime *)

(** [get_number] of strptime: blanks, then at most [n] digits while the value stays below. *)
Fixpoint number_digits (n : nat) (max acc : Z) (s : cstr) : Z * cstr :=
  match n, s with
  | S n, c :: s' => if isdigit c && (acc * 10 <=? max) then number_digits n max (acc * 10 + (code c - 48)) s' else (acc, s)
  | _, _ => (acc, s)
  end.
Definition strptime_number (min max : Z) (n : nat) (s : cstr) : option (Z * cstr) :=
  let s := drop_lead (fun c => bool_decide (c = SP)) s in
  match s with
  | c :: s' =>
      if isdigit c then
        let '(v, rest) := number_digits (pred n) max (code c - 48) s' in
        if (v <? min) || (max <? v) then None else Some (v, rest)
      else None
  | [] => None
  end.
Definition strptime_char (c : ascii) (s : cstr) : option cstr :=
  match s with d :: s => if bool_decide (c = d) then Some s else None | [] => None end.
Definition month_desc : list cstr := lit <$> ["Jan"; "Feb"; "Mar"; "Apr"; "May"; "Jun"; "Jul"; "Aug"; "Sep"; "Oct"; "Nov"; "Dec"]%string.
Definition month_names : list cstr := lit <$>
  ["January"; "February"; "March"; "April"; "May"; "June"; "July"; "August"; "September"; "October"; "November"; "December"]%string.
Definition month_len : list Z := [31; 29; 31; 30; 31; 30; 31; 31; 30; 31; 30; 31].

(** [%b]: the name of a month, in full or abbreviated, in any case. *)
Definition begins_with (name s : cstr) : bool := strncaseeq s name (length name).
Fixpoint find_month (names : list (cstr * cstr)) (i : Z) (s : cstr) : option (Z * cstr) :=
  match names with
  | [] => None
  | (full, short) :: names =>
      if begins_with full s then Some (i, drop (length full) s)
      else if begins_with short s then Some (i, drop (length short) s)
      else find_month names (i + 1) s
  end.
Definition strptime_month (s : cstr) : option (Z * cstr) := find_month (zip month_names month_desc) 1 s.

Definition two_digits (z : Z) : cstr := if z <? 10 then "0"%char :: dec_of z else dec_of z.

(** ** Conversions *)
Definition IMAP_STANDARD_DATE : cstr := lit "03-Nov-1979 00:00:00 +0000".
Definition month_name (m : Z) : cstr := default [] (month_desc !! Z.to_nat (m - 1)).
Definition date_sql2imap (sqldate : cstr) : cstr :=
  default IMAP_STANDARD_DATE (
    '(year, s) ← strptime_number 0 9999 4 sqldate;
    s ← strptime_char "-" s;
    '(month, s) ← strptime_number 1 12 2 s;
    s ← strptime_char "-" s;
    '(day, s) ← strptime_number 1 31 2 s;
    let s := drop_lead isspace s in
    '(hour, s) ← strptime_number 0 23 2 s;
    s ← strptime_char ":" s;
    '(minute, s) ← strptime_number 0 59 2 s;
    s ← strptime_char ":" s;
    '(second, s) ← strptime_number 0 61 2 s;
    if bool_decide (s = []) then
      Some (two_digits day ++ lit "-" ++ month_name month ++ lit "-" ++ dec_of year ++ SP ::
            two_digits hour ++ lit ":" ++ two_digits minute ++ lit ":" ++ two_digits second ++ lit " +0000")
    else None).

(** [None]: the buffer is left as it was. *)
Definition date_imap2sql (imapdate : cstr) : option cstr :=
  if (strlen imapdate <? 10) || (11 <? strlen imapdate) then None
  else
    '(day, s) ← strptime_number 1 31 2 imapdate;
    s ← strptime_char "-" s;
    '(month, s) ← strptime_month s;
    s ← strptime_char "-" s;
    '(year, s) ← strptime_number 0 9999 4 s;
    if bool_decide (s = []) then
      Some (dec_of year ++ lit "-" ++ two_digits month ++ lit "-" ++ two_digits day ++ lit " 00:00:00")
    else None.

(** The number of the month of a name, from zero. *)
Fixpoint month_index (names : list cstr) (sub : cstr) : nat :=
  match names with [] => 0 | n :: names => if strcaseeq n sub then 0 else S (month_index names sub) end.

Definition check_date (date : cstr) : bool :=
  let l := length date in
  if negb (l =? 11)%nat && negb (l =? 10)%nat then false
  else
    let j := if (l =? 11)%nat then 0%nat else 1%nat in
    if negb (bool_decide (char_at date (2 - j) = "-"%char)) || negb (bool_decide (char_at date (6 - j) = "-"%char)) then false
    else
      let days := to_int32 (strtoull date) in
      let i := month_index month_desc (take 3 (drop (3 - j) date)) in
      match month_len !! i with
      | None => false
      | Some n => (days <=? n) && forallb (fun i => isdigit (char_at date (i - j))) [7; 8; 9; 10]%nat
      end.

(** The numbers are the text of "YYYYMMDD" as [atoi] reads it. *)
Definition num_from_imapdate (date : cstr) : Z :=
  let j := if bool_decide (char_at date 1 = SP) || bool_decide (char_at date 1 = "-"%char) then 1%nat else 0%nat in
  let year := (fun i => char_at date (i - j)) <$> [7; 8; 9; 10]%nat in
  let i := Z.of_nat (month_index month_desc (take 3 (drop (3 - j) date))) + 1 in
  let month := if 12 <? i then 12 else i in
  let day := if (j =? 1)%nat then ["0"%char; char_at date 0] else [char_at date 0; char_at date 1] in
  to_int32 (strtoll (year ++ two_digits month ++ day)).

(** ** Message sets *)
Fixpoint msg_set_loop (s : cstr) (indigit : bool) : bool :=
  match s with
  | [] => true
  | c :: s =>
      if isdigit c || bool_decide (c = "*"%char) then msg_set_loop s true
      else if bool_decide (c = ","%char) || bool_decide (c = ":"%char) then indigit && msg_set_loop s false
      else false
  end.
Definition check_msg_set (s : cstr) : bool :=
  match s with
  | c :: _ => (isdigit c || bool_decide (c = "*"%char)) && msg_set_loop s false
  | [] => false
  end.
