(* ===== verification/Iconv.v ===== *)
(** * dm_iconv.c: character sets

    Text between the character sets of messages, of searches and of the data base. The
    converters are those of GMime, which is not part of the repository: they are operations of
    the class [IconvLib], whose laws are in [IconvLaws]. *)
From S2P Require Import Prelude CLib GLib MiscText.

Class IconvLib := {
  iconv_t : Type;
  g_mime_iconv_open : cstr -> cstr -> option iconv_t;        (** to, from; [None] is (iconv_t)-1 *)
  g_mime_iconv_strdup : option iconv_t -> cstr -> option cstr;
  g_utf8_invalid : cstr -> option nat;                       (** where g_utf8_validate stops; [None] is valid *)
  g_mime_locale_charset : cstr;
  g_mime_utils_header_encode_text : cstr -> cstr;
  g_mime_utils_header_decode_text : cstr -> cstr;
  g_mime_utils_header_decode_phrase : cstr -> cstr;
  conf_encoding : cstr;                                      (** ENCODING of the section DBMAIL *)
  conf_default_msg_encoding : cstr;
}.

Class IconvLaws `{IconvLib} := {
  g_utf8_ascii s : Forall (fun c => eight_bit c = false) s -> g_utf8_invalid s = None;
  g_utf8_app a b : g_utf8_invalid a = None -> g_utf8_invalid b = None -> g_utf8_invalid (a ++ b) = None;
  g_utf8_stops s i : g_utf8_invalid s = Some i -> (i < length s)%nat /\ g_utf8_invalid (take i s) = None;
}.

Section iconv.
Context `{IconvLib}.

Definition FIELDSIZE : nat := 1024.
(** The value of an option, or the character set of the locale. *)
Definition charset_or_locale (value : cstr) : cstr :=
  match value with [] => take (FIELDSIZE - 2) g_mime_locale_charset | _ => value end.
Definition ic_db_charset : cstr := charset_or_locale conf_encoding.
Definition ic_msg_charset : cstr := charset_or_locale conf_default_msg_encoding.
Definition UTF8 : cstr := lit "UTF-8".
Definition ic_to_db : option iconv_t := g_mime_iconv_open ic_db_charset UTF8.
Definition ic_from_db : option iconv_t := g_mime_iconv_open UTF8 ic_db_charset.
Definition ic_from_msg : option iconv_t := g_mime_iconv_open UTF8 ic_msg_charset.

(** [g_mime_utils_text_is_8bit] *)
Definition text_is_8bit (s : cstr) : bool := existsb eight_bit s.
Definition question_marks (s : cstr) : cstr := (fun c => if eight_bit c then "?"%char else c) <$> s.
(** The first text that is there. *)
Definition or_else {A} (x y : option A) : option A := match x with Some _ => x | None => y end.
(** A conversion through a converter that has to be opened; a charset may be missing. *)
Definition through (to : cstr) (charset : option cstr) (s : cstr) : option cstr :=
  charset ← charset; cd ← g_mime_iconv_open to charset; g_mime_iconv_strdup (Some cd) s.

Definition dbmail_iconv_str_to_utf8 (str_in : option cstr) (charset : option cstr) : option cstr :=
  s ← str_in;
  if bool_decide (g_utf8_invalid s = None) || negb (text_is_8bit s) then Some s
  else Some (default (question_marks s) (or_else (through UTF8 charset s) (g_mime_iconv_strdup ic_from_msg s))).

(** Whether [dbmail_iconv_str_to_db] looks at the charset it is given. *)
Definition str_to_db_needs_charset (s : cstr) : bool :=
  text_is_8bit s && bool_decide (g_mime_iconv_strdup ic_to_db s = None).

Definition dbmail_iconv_str_to_db (str_in : option cstr) (charset : option cstr) : option cstr :=
  s ← str_in;
  if negb (text_is_8bit s) then Some s
  else Some (default (question_marks s)
    (or_else (g_mime_iconv_strdup ic_to_db s)
      (or_else (through ic_db_charset charset s)
        (s2 ← g_mime_iconv_strdup ic_from_msg s; g_mime_iconv_strdup ic_to_db s2)))).

Definition dbmail_iconv_db_to_utf7 (str_in : option cstr) : option cstr :=
  s ← str_in;
  if negb (text_is_8bit s) then Some s
  else if bool_decide (g_utf8_invalid s = None) then Some (g_mime_utils_header_encode_text s)
  else Some (g_mime_utils_header_encode_text (default s (g_mime_iconv_strdup ic_from_db s))).

Definition dbmail_iconv_decode_text (s : cstr) : cstr := g_mime_utils_header_decode_text s.
Definition dbmail_iconv_decode_address (s : cstr) : cstr := g_mime_utils_header_decode_phrase s.

(** The octets that are not UTF-8 become question marks, one after the other. *)
Fixpoint repair_utf8 (fuel : nat) (s : cstr) : cstr :=
  match fuel, g_utf8_invalid s with
  | S fuel, Some i => take i s ++ "?"%char :: repair_utf8 fuel (drop (S i) s)
  | _, _ => s
  end.
Definition dbmail_iconv_decode_field (str_in : option cstr) (charset : option cstr) (isaddr : bool) : option cstr :=
  raw ← dbmail_iconv_str_to_utf8 str_in charset;
  let value := if isaddr then dbmail_iconv_decode_address raw else dbmail_iconv_decode_text raw in
  Some (repair_utf8 (length value) value).

(** ** Lemmas *)
Lemma question_marks_7bit s : text_is_8bit (question_marks s) = false.
Proof.
  unfold text_is_8bit, question_marks. induction s as [|c s IH]; [done|]. cbn [fmap list_fmap existsb].
  destruct (eight_bit c) eqn:E; [done|]. rewrite E. apply IH.
Qed.
Lemma text_7bit s : text_is_8bit s = false <-> Forall (fun c => eight_bit c = false) s.
Proof.
  unfold text_is_8bit. induction s as [|c s IH]; [done|]. cbn [existsb]. rewrite orb_false_iff, Forall_cons. tauto.
Qed.

(** A text always has a form for the data base, and 7-bit text is kept. *)
Lemma str_to_db_total s charset : exists t, dbmail_iconv_str_to_db (Some s) charset = Some t.
Proof. unfold dbmail_iconv_str_to_db. simpl. case_match; eauto. Qed.
Lemma str_to_db_ascii s charset : text_is_8bit s = false -> dbmail_iconv_str_to_db (Some s) charset = Some s.
Proof. unfold dbmail_iconv_str_to_db. simpl. by intros ->. Qed.
(** The charset matters only where the code looks at it. *)
Lemma str_to_db_charset s a b : str_to_db_needs_charset s = false ->
  dbmail_iconv_str_to_db (Some s) a = dbmail_iconv_str_to_db (Some s) b.
Proof.
  unfold str_to_db_needs_charset, dbmail_iconv_str_to_db. simpl. destruct (text_is_8bit s); [|done]. simpl.
  intros Hn%bool_decide_eq_false. by destruct (g_mime_iconv_strdup ic_to_db s).
Qed.

Section laws.
Context `{!IconvLaws}.

Lemma repair_utf8_valid n s : (length s <= n)%nat -> g_utf8_invalid (repair_utf8 n s) = None.
Proof.
  revert s. induction n as [|n IH]; intros s Hn; cbn [repair_utf8].
  { destruct s; [|simpl in Hn; lia]. by apply g_utf8_ascii. }
  destruct (g_utf8_invalid s) as [i|] eqn:E; [|done]. apply g_utf8_stops in E as [Hi Hv].
  apply g_utf8_app; [done|]. apply (g_utf8_app ["?"%char]); [by apply g_utf8_ascii; repeat constructor|].
  apply IH. rewrite length_drop. lia.
Qed.

(** Whatever is decoded is valid UTF-8: the loop ends, and the fuel is enough. *)
Lemma decode_field_valid s charset isaddr t :
  dbmail_iconv_decode_field s charset isaddr = Some t -> g_utf8_invalid t = None.
Proof.
  unfold dbmail_iconv_decode_field. destruct (dbmail_iconv_str_to_utf8 s charset) as [raw|]; [|done].
  cbn [mbind option_bind]. intros E. apply (inj Some) in E as <-. by apply repair_utf8_valid.
Qed.
End laws.
End iconv.
