(* ===== verification/SqlFragment.v ===== *)
(** * dm_db.c: the fragments of SQL that differ between the drivers

    [db_get_sql], with the formats of SQLite, MySQL, PostgreSQL and Oracle. [None] is the NULL
    that stands for a fragment a driver has not. *)
From S2P Require Import Prelude CLib.

Inductive db_driver := DM_DRIVER_SQLITE | DM_DRIVER_MYSQL | DM_DRIVER_POSTGRESQL | DM_DRIVER_ORACLE.

Inductive sql_fragment :=
  | SQL_TO_DATE | SQL_TO_DATETIME | SQL_TO_UNIXEPOCH | SQL_TO_CHAR | SQL_CURRENT_TIMESTAMP | SQL_EXPIRE | SQL_WITHIN
  | SQL_BINARY | SQL_SENSITIVE_LIKE | SQL_INSENSITIVE_LIKE | SQL_ENCODE_ESCAPE | SQL_STRCASE | SQL_PARTIAL | SQL_IGNORE
  | SQL_RETURNING | SQL_TABLE_EXISTS | SQL_ESCAPE_COLUMN | SQL_COMPARE_BLOB.

Definition db_get_sqlite_sql (frag : sql_fragment) : option cstr :=
  match frag with
  | SQL_ENCODE_ESCAPE | SQL_TO_CHAR | SQL_STRCASE | SQL_PARTIAL => Some (lit "%s")
  | SQL_TO_DATE => Some (lit "DATE(%s)")
  | SQL_TO_DATETIME => Some (lit "DATETIME(%s)")
  | SQL_TO_UNIXEPOCH => Some (lit "STRFTIME('%%s',%s)")
  | SQL_CURRENT_TIMESTAMP => Some (lit "STRFTIME('%%Y-%%m-%%d %%H:%%M:%%S','now','localtime')")
  | SQL_EXPIRE => Some (lit "DATETIME('now','-%d DAYS')")
  | SQL_WITHIN => Some (lit "DATETIME('now','-%d SECONDS')")
  | SQL_BINARY => Some []
  | SQL_SENSITIVE_LIKE | SQL_INSENSITIVE_LIKE => Some (lit "LIKE")
  | SQL_IGNORE => Some (lit "OR IGNORE")
  | SQL_RETURNING => None
  | SQL_TABLE_EXISTS => Some (lit "SELECT 1=1 FROM %s%s LIMIT 1 OFFSET 0")
  | SQL_ESCAPE_COLUMN => Some []
  | SQL_COMPARE_BLOB => Some (lit "%s=?")
  end.

Definition db_get_mysql_sql (frag : sql_fragment) : option cstr :=
  match frag with
  | SQL_TO_CHAR => Some (lit "DATE_FORMAT(%s, GET_FORMAT(DATETIME,'ISO'))")
  | SQL_TO_DATE => Some (lit "DATE(%s)")
  | SQL_TO_DATETIME => Some (lit "TIMESTAMP(%s)")
  | SQL_TO_UNIXEPOCH => Some (lit "UNIX_TIMESTAMP(%s)")
  | SQL_CURRENT_TIMESTAMP => Some (lit "NOW()")
  | SQL_EXPIRE => Some (lit "NOW() - INTERVAL %d DAY")
  | SQL_WITHIN => Some (lit "NOW() - INTERVAL %d SECOND")
  | SQL_BINARY => Some (lit "BINARY")
  | SQL_SENSITIVE_LIKE => Some (lit "LIKE BINARY")
  | SQL_INSENSITIVE_LIKE => Some (lit "LIKE")
  | SQL_IGNORE => Some (lit "IGNORE")
  | SQL_STRCASE | SQL_ENCODE_ESCAPE | SQL_PARTIAL => Some (lit "%s")
  | SQL_RETURNING => None
  | SQL_TABLE_EXISTS => Some (lit "SELECT 1=1 FROM %s%s LIMIT 1 OFFSET 0")
  | SQL_ESCAPE_COLUMN => Some (lit "`")
  | SQL_COMPARE_BLOB => Some (lit "%s=?")
  end.

Definition db_get_pgsql_sql (frag : sql_fragment) : option cstr :=
  match frag with
  | SQL_TO_CHAR => Some (lit "TO_CHAR(%s, 'YYYY-MM-DD HH24:MI:SS' )")
  | SQL_TO_DATE => Some (lit "TO_DATE(%s::text,'YYYY-MM-DD')")
  | SQL_TO_DATETIME => Some (lit "TO_TIMESTAMP(%s::text, 'YYYY-MM-DD HH24:MI:SS')")
  | SQL_TO_UNIXEPOCH => Some (lit "ROUND(DATE_PART('epoch',%s))")
  | SQL_CURRENT_TIMESTAMP => Some (lit "NOW()")
  | SQL_EXPIRE => Some (lit "NOW() - INTERVAL '%d DAY'")
  | SQL_WITHIN => Some (lit "NOW() - INTERVAL '%d SECOND'")
  | SQL_IGNORE | SQL_BINARY => Some []
  | SQL_SENSITIVE_LIKE => Some (lit "LIKE")
  | SQL_INSENSITIVE_LIKE => Some (lit "ILIKE")
  | SQL_ENCODE_ESCAPE => Some (lit "ENCODE(%s::bytea,'escape')")
  | SQL_STRCASE => Some (lit "LOWER(%s)")
  | SQL_PARTIAL => Some (lit "SUBSTRING(%s,0,255)")
  | SQL_RETURNING => Some (lit "RETURNING %s")
  | SQL_TABLE_EXISTS => Some (lit "SELECT 1=1 FROM %s%s LIMIT 1 OFFSET 0")
  | SQL_ESCAPE_COLUMN => Some [DQUOTE]
  | SQL_COMPARE_BLOB => Some (lit "%s=?")
  end.

Definition db_get_oracle_sql (frag : sql_fragment) : option cstr :=
  match frag with
  | SQL_TO_CHAR => Some (lit "TO_CHAR(%s, 'YYYY-MM-DD HH24:MI:SS')")
  | SQL_TO_DATE => Some (lit "TRUNC(TO_TIMESTAMP(%s))")
  | SQL_TO_DATETIME => Some (lit "TO_TIMESTAMP(%s, 'YYYY-MM-DD HH24:MI:SS')")
  | SQL_TO_UNIXEPOCH => Some (lit "DBMAIL_UTILS.UNIX_TIMESTAMP(%s)")
  | SQL_CURRENT_TIMESTAMP => Some (lit "SYSTIMESTAMP")
  | SQL_EXPIRE => Some (lit "SYSTIMESTAMP - NUMTODSINTERVAL(%d,'day')")
  | SQL_WITHIN => Some (lit "SYSTIMESTAMP - NUMTODSINTERVAL(%d,'second')")
  | SQL_BINARY => Some []
  | SQL_SENSITIVE_LIKE | SQL_INSENSITIVE_LIKE => Some (lit "LIKE")
  | SQL_IGNORE => Some []
  | SQL_STRCASE | SQL_ENCODE_ESCAPE | SQL_PARTIAL => Some (lit "%s")
  | SQL_RETURNING => None
  | SQL_TABLE_EXISTS => Some (lit "SELECT TABLE_NAME FROM USER_TABLES WHERE TABLE_NAME='%s%s'")
  | SQL_ESCAPE_COLUMN => Some [DQUOTE]
  | SQL_COMPARE_BLOB => Some (lit "DBMS_LOB.COMPARE(%s,?) = 0")
  end.

(** How the data base is reached: db_params. *)
Class SqlConf := {
  db_params_driver : db_driver;
  DBPFX : cstr;
}.

Section sql.
Context `{SqlConf}.

Definition db_get_sql (frag : sql_fragment) : option cstr :=
  match db_params_driver with
  | DM_DRIVER_SQLITE => db_get_sqlite_sql frag
  | DM_DRIVER_MYSQL => db_get_mysql_sql frag
  | DM_DRIVER_POSTGRESQL => db_get_pgsql_sql frag
  | DM_DRIVER_ORACLE => db_get_oracle_sql frag
  end.

(** A fragment with its arguments printed. *)
Definition sql_printf (frag : sql_fragment) (args : list farg) : cstr :=
  default [] (f ← db_get_sql frag; cformat f args).

Definition db_returning (s : cstr) : cstr := sql_printf SQL_RETURNING [FS s].

Definition TO_DATE (column : cstr) : cstr := sql_printf SQL_TO_DATE [FS column].
(** The number of seconds is a 64-bit integer that is printed with %d. *)
Definition WITHIN (seconds : Z) : cstr := sql_printf SQL_WITHIN [FD (to_int32 seconds)].

(** The formats have the directives their users print: no fragment of a search is lost. *)
Lemma to_date_printf column : exists pre post, TO_DATE column = pre ++ column ++ post.
Proof.
  unfold TO_DATE, sql_printf, db_get_sql. destruct db_params_driver; cbn -[app].
  1,2: exists (lit "DATE("), (lit ")"). 3: exists (lit "TO_DATE("), (lit "::text,'YYYY-MM-DD')").
  4: exists (lit "TRUNC(TO_TIMESTAMP("), (lit "))"). all: by cbn.
Qed.
Lemma within_printf seconds : exists pre post, WITHIN seconds = pre ++ sdec_of (to_int32 seconds) ++ post.
Proof.
  unfold WITHIN, sql_printf, db_get_sql. destruct db_params_driver; cbn -[app sdec_of to_int32].
  1: exists (lit "DATETIME('now','-"), (lit " SECONDS')"). 2: exists (lit "NOW() - INTERVAL "), (lit " SECOND").
  3: exists (lit "NOW() - INTERVAL '"), (lit " SECOND'"). 4: exists (lit "SYSTIMESTAMP - NUMTODSINTERVAL("), (lit ",'second')").
  all: by cbn -[sdec_of to_int32].
Qed.
End sql.
