(* ===== verification/SqlState.v ===== *)
(** * Statements on the tables of the data base

    A state of tables of any type, with a script that says which of the next statements throw,
    and an error monad of statements over it: TRY and CATCH, and transactions that are rolled
    back. [DB] is the monad of the functions around them. [respects] and [stays] are what stays
    of the tables, whatever throws; [sound], [runs] and the lemmas on calm data bases are about
    statements that do not throw. *)
From S2P Require Import Prelude.

Record sqldb (T : Type) := mksdb {
  tables : T;
  sql : list bool;        (** whether the next statements throw *)
}.
Arguments mksdb {T} _ _.
Arguments tables {T} _.
Arguments sql {T} _.
#[export] Instance sqldb_settable T : Settable (sqldb T) := fun r => mksdb (tables r) (sql r).

Definition SQL (T A : Type) : Type := sqldb T -> sqldb T * option A.
#[export] Instance SQL_ret {T} : MRet (SQL T) := fun A x d => (d, Some x).
#[export] Instance SQL_bind {T} : MBind (SQL T) := fun A B k m d =>
  match m d with (d, Some x) => k x d | (d, None) => (d, None) end.

Section statements.
Context {T : Type}.

(** A statement: it throws and changes nothing, or it has its effect; it can also break a
    constraint of the tables, and then throws as well. *)
Definition exec_checked {A} (f : T -> option (T * A)) : SQL T A := fun d =>
  let d' := d <| sql ::= tail |> in
  if default false (head (sql d)) then (d', None)
  else match f (tables d) with Some (t, x) => (d' <| tables := t |>, Some x) | None => (d', None) end.
Definition exec {A} (f : T -> T * A) : SQL T A := exec_checked (fun t => Some (f t)).
(** BEGIN, COMMIT or ROLLBACK as a statement that may throw. *)
Definition mark : SQL T unit := exec (fun t => (t, tt)).

(** TRY and CATCH: what was done stays; [r] is the result behind an exception. *)
Definition try_catch {A} (m : SQL T A) (r : A) (d : sqldb T) : sqldb T * A :=
  match m d with (d, Some x) => (d, x) | (d, None) => (d, r) end.
(** BEGIN, the statements and COMMIT, with ROLLBACK behind an exception. *)
Definition transaction {A} (m : SQL T A) (r : A) (d : sqldb T) : sqldb T * A :=
  match (mark;; x ← m; mark;; mret x) d with
  | (d', Some x) => (d', x)
  | (d', None) => (d' <| tables := tables d |>, r)
  end.

(** A transaction whose result is kept in a variable: it is still there when COMMIT throws. *)
Definition commit_late {A} (m : SQL T A) (r : A) (d : sqldb T) : sqldb T * A :=
  match (mark;; m) d with
  | (d1, None) => (d1 <| tables := tables d |>, r)
  | (d1, Some x) =>
      match mark d1 with
      | (d2, Some _) => (d2, x)
      | (d2, None) => (d2 <| tables := tables d |>, x)
      end
  end.

(** ** What stays, whatever throws *)
Section respects.
Context (R : relation T) `{!PreOrder R}.

Definition respects {A} (m : SQL T A) : Prop := forall d, R (tables d) (tables (m d).1).
Definition respects_fun {A} (f : sqldb T -> sqldb T * A) : Prop := forall d, R (tables d) (tables (f d).1).
Lemma respects_ret {A} (x : A) : respects (mret x).
Proof. intros d. reflexivity. Qed.
Lemma respects_checked {A} (f : T -> option (T * A)) :
  (forall t t' x, f t = Some (t', x) -> R t t') -> respects (exec_checked f).
Proof.
  intros Hf d. unfold exec_checked. destruct (default false (head (sql d))); [reflexivity|].
  destruct (f (tables d)) as [[t x]|] eqn:E; [by apply (Hf _ _ _ E)|reflexivity].
Qed.
Lemma respects_exec {A} (f : T -> T * A) : (forall t, R t (f t).1) -> respects (exec f).
Proof. intros Hf. apply respects_checked. intros t t' x E. injection E as E. specialize (Hf t). by rewrite E in Hf. Qed.
Lemma respects_mark : respects mark.
Proof. apply respects_exec. intros t. reflexivity. Qed.
Lemma respects_bind {A B} (m : SQL T A) (k : A -> SQL T B) : respects m -> (forall x, respects (k x)) -> respects (m ≫= k).
Proof.
  intros Hm Hk d. unfold mbind, SQL_bind. specialize (Hm d). destruct (m d) as [d1 [x|]]; [|done].
  etransitivity; [apply Hm|apply Hk].
Qed.
Lemma respects_transaction {A} (m : SQL T A) r : respects m -> respects_fun (transaction m r).
Proof.
  intros Hm d. unfold transaction. set (b := mark;; _).
  assert (respects b) as Hb
    by (apply respects_bind; [apply respects_mark|intros _; apply respects_bind; [done|intros x]];
        apply respects_bind; [apply respects_mark|intros _; apply respects_ret]).
  specialize (Hb d). destruct (b d) as [d' [x|]]; [done|reflexivity].
Qed.
Lemma respects_try {A} (m : SQL T A) r : respects m -> respects_fun (try_catch m r).
Proof. intros Hm d. unfold try_catch. specialize (Hm d). by destruct (m d) as [d' [x|]]. Qed.
Lemma respects_commit_late {A} (m : SQL T A) r : respects m -> respects_fun (commit_late m r).
Proof.
  intros Hm d. unfold commit_late. set (b := mark;; m).
  assert (respects b) as Hb by (apply respects_bind; [apply respects_mark|done]). specialize (Hb d).
  destruct (b d) as [d1 [x|]]; [|reflexivity]. pose proof (respects_mark d1) as Hc.
  destruct (mark d1) as [d2 [[]|]]; [|reflexivity]. by etransitivity.
Qed.
End respects.

(** ** Statements that do not throw *)

(** They do what they do on a data base where nothing throws. *)
Definition sound {A} (m : SQL T A) : Prop := forall d d' x,
  m d = (d', Some x) -> m (mksdb (tables d) []) = (mksdb (tables d') [], Some x).
Lemma sound_ret {A} (x : A) : sound (mret x).
Proof. intros d d' y [= <- <-]. by destruct d. Qed.
Lemma sound_exec {A} (f : T -> T * A) : sound (exec f).
Proof.
  intros d d' x. unfold exec, exec_checked. destruct (default false (head (sql d))); [done|].
  simpl. destruct (f (tables d)). by intros [= <- <-].
Qed.
Lemma sound_bind {A B} (m : SQL T A) (k : A -> SQL T B) : sound m -> (forall x, sound (k x)) -> sound (m ≫= k).
Proof.
  intros Hm Hk d d' y. unfold mbind, SQL_bind. destruct (m d) as [d1 [x|]] eqn:E; [|done].
  rewrite (Hm _ _ _ E). apply Hk.
Qed.
(** A transaction happens as a whole, with nothing that throws, or not at all. *)
Lemma transaction_atomic {A} (m : SQL T A) r d : sound m ->
  (tables (transaction m r d).1 = tables d /\ (transaction m r d).2 = r) \/
  transaction m r (mksdb (tables d) []) = (mksdb (tables (transaction m r d).1) [], (transaction m r d).2).
Proof.
  intros S. unfold transaction. set (b := mark;; _).
  assert (sound b) as Sb by (unfold b, mark; auto using sound_bind, sound_exec, sound_ret). destruct (b d) as [d' [x|]] eqn:E.
  - right. by rewrite (Sb _ _ _ E).
  - by left.
Qed.
Lemma statement_atomic {A B : Type} (f : T -> T * A) (k : A -> B) (r : B) d :
  let g := try_catch (x ← exec f; mret (k x) : SQL T B) r in
  (tables (g d).1 = tables d /\ (g d).2 = r) \/ g (mksdb (tables d) []) = (mksdb (tables (g d).1) [], (g d).2).
Proof.
  unfold try_catch, mbind, SQL_bind, exec, exec_checked. destruct (default false (head (sql d))); [by left|].
  right. simpl. by destruct (f (tables d)).
Qed.

(** On a calm data base nothing throws. *)
Lemma checked_calm {A} (f : T -> option (T * A)) t t' x :
  f t = Some (t', x) -> exec_checked f (mksdb t []) = (mksdb t' [], Some x).
Proof. unfold exec_checked. simpl. by intros ->. Qed.
Lemma exec_calm {A} (f : T -> T * A) t : exec f (mksdb t []) = (mksdb (f t).1 [], Some (f t).2).
Proof. apply checked_calm. by destruct (f t). Qed.
Lemma bind_calm {A B} (m : SQL T A) (k : A -> SQL T B) t t' x :
  m (mksdb t []) = (mksdb t' [], Some x) -> (m ≫= k) (mksdb t []) = k x (mksdb t' []).
Proof. unfold mbind, SQL_bind. by intros ->. Qed.
Lemma transaction_calm {A} (m : SQL T A) f t t' x :
  m (mksdb t []) = (mksdb t' [], Some x) -> transaction m f (mksdb t []) = (mksdb t' [], x).
Proof.
  intros E. unfold transaction. rewrite (bind_calm _ _ t t tt) by done. by rewrite (bind_calm _ _ _ _ _ E).
Qed.
Lemma commit_late_calm {A} (m : SQL T A) f t t' x :
  m (mksdb t []) = (mksdb t' [], Some x) -> commit_late m f (mksdb t []) = (mksdb t' [], x).
Proof. intros E. unfold commit_late. rewrite (bind_calm _ _ t t tt) by done. by rewrite E. Qed.
Lemma try_calm {A} (m : SQL T A) f t t' x :
  m (mksdb t []) = (mksdb t' [], Some x) -> try_catch m f (mksdb t []) = (mksdb t' [], x).
Proof. unfold try_catch. by intros ->. Qed.
End statements.

(** ** Functions that run statements

    A function of the source that talks to the data base catches what its statements throw. It
    returns, or its behaviour is undefined: a NULL pointer is followed, memory is used that was
    given back, the process is ended. *)
Inductive outcome (A : Type) := Returns (x : A) | Undefined.
Arguments Returns {A} _.
Arguments Undefined {A}.
Definition DB (T A : Type) : Type := sqldb T -> sqldb T * outcome A.
#[export] Instance DB_ret {T} : MRet (DB T) := fun A x d => (d, Returns x).
#[export] Instance DB_bind {T} : MBind (DB T) := fun A B k m d =>
  match m d with (d, Returns x) => k x d | (d, Undefined) => (d, Undefined) end.

Section functions.
Context {T : Type}.

(** A function that does not follow what it should not. *)
Definition total {A} (f : sqldb T -> sqldb T * A) : DB T A := fun d => let '(d, x) := f d in (d, Returns x).
Definition undefined {A} : DB T A := fun d => (d, Undefined).
(** TRY and CATCH around the statements [m]; a transaction with its result or [r]. *)
Definition attempt {A} (m : SQL T A) (r : A) : DB T A := total (try_catch m r).
Definition atomically {A} (m : SQL T A) (r : A) : DB T A := total (transaction m r).
(** A transaction that assigns a variable, initially [r]; and whether it was committed. *)
Definition committed {A} (m : SQL T A) (r : A) : DB T (bool * A) := fun d =>
  match (mark;; m) d with
  | (d1, None) => (d1 <| tables := tables d |>, Returns (false, r))
  | (d1, Some x) =>
      match mark d1 with
      | (d2, Some _) => (d2, Returns (true, x))
      | (d2, None) => (d2 <| tables := tables d |>, Returns (false, x))
      end
  end.
(** A value of the tables, or [r]. *)
Definition select {A} (f : T -> A) (r : A) : DB T A := attempt (exec (fun t => (t, f t))) r.
(** [db_update]: a statement in a transaction of its own. *)
Definition db_update (f : T -> option T) : DB T bool :=
  atomically (exec_checked (fun t => t' ← f t; Some (t', true))) false.
(** A function on a part of the tables. *)
Definition zoom {U A} (get : T -> U) (set : U -> T -> T) (f : sqldb U -> sqldb U * A) : DB T A := fun d =>
  let '(d', x) := f (mksdb (get (tables d)) (sql d)) in (mksdb (set (tables d') (tables d)) (sql d'), Returns x).

(** *** What stays, whatever throws *)
Section stays.
Context (R : relation T) `{!PreOrder R}.
Definition stays {A} (f : DB T A) : Prop := forall d, R (tables d) (tables (f d).1).
Lemma stays_ret {A} (x : A) : stays (mret x).
Proof. intros d. reflexivity. Qed.
Lemma stays_undefined {A} : stays (@undefined A).
Proof. intros d. reflexivity. Qed.
Lemma stays_bind {A B} (m : DB T A) (k : A -> DB T B) : stays m -> (forall x, stays (k x)) -> stays (m ≫= k).
Proof.
  intros Hm Hk d. unfold mbind, DB_bind. specialize (Hm d). destruct (m d) as [d1 [x|]]; [|done].
  etransitivity; [apply Hm|apply Hk].
Qed.
Lemma stays_total {A} (f : sqldb T -> sqldb T * A) : respects_fun R f -> stays (total f).
Proof. intros Hf d. specialize (Hf d). unfold total. by destruct (f d). Qed.
Lemma stays_attempt {A} (m : SQL T A) r : respects R m -> stays (attempt m r).
Proof. intros Hm. by apply stays_total, respects_try. Qed.
Lemma stays_atomically {A} (m : SQL T A) r : respects R m -> stays (atomically m r).
Proof. intros Hm. by apply stays_total, (respects_transaction R). Qed.
Lemma stays_select {A} (f : T -> A) r : stays (select f r).
Proof. apply stays_attempt, (respects_exec R). reflexivity. Qed.
Lemma stays_update (f : T -> option T) : (forall t t', f t = Some t' -> R t t') -> stays (db_update f).
Proof.
  intros Hf. apply stays_atomically, (respects_checked R). intros t t' x E.
  destruct (f t) as [t1|] eqn:Et; [|done]. injection E as <- <-. by apply Hf.
Qed.
Lemma stays_committed {A} (m : SQL T A) r : respects R m -> stays (committed m r).
Proof.
  intros Hm d. pose proof (respects_commit_late R m r Hm d) as H. unfold committed. unfold commit_late in H.
  destruct ((mark;; m) d) as [d1 [x|]]; [|done]. by destruct (mark d1) as [d2 [[]|]].
Qed.
Lemma stays_if {A} (b : bool) (f g : DB T A) : stays f -> stays g -> stays (if b then f else g).
Proof. by destruct b. Qed.
End stays.

(** *** When nothing throws *)
Definition runs {A} (f : DB T A) (t t' : T) (x : A) : Prop := f (mksdb t []) = (mksdb t' [], Returns x).
Lemma runs_ret {A} (x : A) t : runs (mret x) t t x.
Proof. done. Qed.
Lemma runs_bind {A B} (m : DB T A) (k : A -> DB T B) t t1 t2 x y : runs m t t1 x -> runs (k x) t1 t2 y -> runs (m ≫= k) t t2 y.
Proof. unfold runs, mbind, DB_bind. by intros ->. Qed.
Lemma runs_attempt {A} (m : SQL T A) r t t' x : m (mksdb t []) = (mksdb t' [], Some x) -> runs (attempt m r) t t' x.
Proof. intros E. unfold runs, attempt, total. by rewrite (try_calm _ _ _ _ _ E). Qed.
Lemma runs_atomically {A} (m : SQL T A) r t t' x : m (mksdb t []) = (mksdb t' [], Some x) -> runs (atomically m r) t t' x.
Proof. intros E. unfold runs, atomically, total. by rewrite (transaction_calm _ _ _ _ _ E). Qed.
Lemma runs_committed {A} (m : SQL T A) r t t' x : m (mksdb t []) = (mksdb t' [], Some x) -> runs (committed m r) t t' (true, x).
Proof. intros E. unfold runs, committed. rewrite (bind_calm _ _ t t tt) by done. by rewrite E. Qed.
Lemma runs_select {A} (f : T -> A) r t : runs (select f r) t t (f t).
Proof. by apply runs_attempt, exec_calm. Qed.
Lemma runs_update (f : T -> option T) t :
  runs (db_update f) t (default t (f t)) (bool_decide (is_Some (f t))).
Proof.
  unfold runs, db_update, atomically, total. destruct (f t) as [t'|] eqn:E; simpl.
  - erewrite transaction_calm; [done|]. apply checked_calm. by rewrite E.
  - unfold transaction, mbind, SQL_bind, mark, exec, exec_checked. simpl. by rewrite E.
Qed.
Lemma runs_fun {A} (f : DB T A) t t1 t2 x y : runs f t t1 x -> runs f t t2 y -> t1 = t2 /\ x = y.
Proof. unfold runs. intros -> E. by injection E as -> ->. Qed.

(** *** Weakest preconditions, when nothing throws *)
Definition swp {A} (m : SQL T A) (t : T) (Q : T -> A -> Prop) : Prop :=
  exists t' x, m (mksdb t []) = (mksdb t' [], Some x) /\ Q t' x.
Definition wp {A} (f : DB T A) (t : T) (Q : T -> A -> Prop) : Prop := exists t' x, runs f t t' x /\ Q t' x.
Lemma swp_ret {A} (x : A) t (Q : T -> A -> Prop) : Q t x -> swp (mret x) t Q.
Proof. intros HQ. by exists t, x. Qed.
Lemma swp_exec {A} (f : T -> T * A) t (Q : T -> A -> Prop) : Q (f t).1 (f t).2 -> swp (exec f) t Q.
Proof. intros HQ. eexists _, _. split; [apply exec_calm|done]. Qed.
Lemma swp_checked {A} (f : T -> option (T * A)) t t' x (Q : T -> A -> Prop) : f t = Some (t', x) -> Q t' x -> swp (exec_checked f) t Q.
Proof. intros E HQ. eexists _, _. split; [by apply checked_calm|done]. Qed.
Lemma swp_bind {A B} (m : SQL T A) (k : A -> SQL T B) t (Q : T -> B -> Prop) :
  swp m t (fun t' x => swp (k x) t' Q) -> swp (m ≫= k) t Q.
Proof. intros (t1 & x & E & HQ). unfold swp. by rewrite (bind_calm _ _ _ _ _ E). Qed.
Lemma wp_ret {A} (x : A) t (Q : T -> A -> Prop) : Q t x -> wp (mret x) t Q.
Proof. intros HQ. by exists t, x. Qed.
Lemma wp_bind {A B} (m : DB T A) (k : A -> DB T B) t (Q : T -> B -> Prop) :
  wp m t (fun t' x => wp (k x) t' Q) -> wp (m ≫= k) t Q.
Proof. intros (t1 & x & E & t2 & y & E2 & HQ). exists t2, y. split; [by eapply runs_bind|done]. Qed.
Lemma wp_select {A} (f : T -> A) r t (Q : T -> A -> Prop) : Q t (f t) -> wp (select f r) t Q.
Proof. intros HQ. eexists _, _. split; [apply runs_select|done]. Qed.
Lemma wp_update (f : T -> option T) t t' (Q : T -> bool -> Prop) : f t = Some t' -> Q t' true -> wp (db_update f) t Q.
Proof. intros E HQ. eexists _, _. split; [apply runs_update|]. by rewrite E. Qed.
Lemma wp_attempt {A} (m : SQL T A) r t (Q : T -> A -> Prop) : swp m t Q -> wp (attempt m r) t Q.
Proof. intros (t' & x & E & HQ). exists t', x. split; [by apply runs_attempt|done]. Qed.
Lemma wp_atomically {A} (m : SQL T A) r t (Q : T -> A -> Prop) : swp m t Q -> wp (atomically m r) t Q.
Proof. intros (t' & x & E & HQ). exists t', x. split; [by apply runs_atomically|done]. Qed.
Lemma wp_committed {A} (m : SQL T A) r t (Q : T -> bool * A -> Prop) : swp m t (fun t' x => Q t' (true, x)) -> wp (committed m r) t Q.
Proof. intros (t' & x & E & HQ). eexists _, _. split; [by eapply runs_committed|done]. Qed.
(** A statement that breaks a constraint throws, whatever else. *)
Lemma wp_committed_broken {A} (f : T -> option (T * A)) r t (Q : T -> bool * A -> Prop) :
  f t = None -> Q t (false, r) -> wp (committed (exec_checked f) r) t Q.
Proof.
  intros E HQ. eexists t, _. split; [|exact HQ]. unfold runs, committed, mbind, SQL_bind, mark, exec, exec_checked. simpl. by rewrite E.
Qed.
Lemma wp_attempt_broken {A} (f : T -> option (T * A)) r t (Q : T -> A -> Prop) : f t = None -> Q t r -> wp (attempt (exec_checked f) r) t Q.
Proof. intros E HQ. exists t, r. split; [|done]. unfold runs, attempt, total, try_catch, exec_checked. simpl. by rewrite E. Qed.
Lemma wp_mono {A} (f : DB T A) t (Q Q' : T -> A -> Prop) : wp f t Q -> (forall t' x, Q t' x -> Q' t' x) -> wp f t Q'.
Proof. intros (t' & x & E & HQ) HI. exists t', x. eauto. Qed.
Lemma swp_mono {A} (m : SQL T A) t (Q Q' : T -> A -> Prop) : swp m t Q -> (forall t' x, Q t' x -> Q' t' x) -> swp m t Q'.
Proof. intros (t' & x & E & HQ) HI. exists t', x. eauto. Qed.
Lemma wp_run {A} (f : DB T A) t t' x (Q : T -> A -> Prop) : wp f t Q -> runs f t t' x -> Q t' x.
Proof. intros (t1 & y & E & HQ) E'. by destruct (runs_fun _ _ _ _ _ _ E E') as [<- <-]. Qed.
Lemma wp_conj {A} (f : DB T A) t (Q Q' : T -> A -> Prop) : wp f t Q -> wp f t Q' -> wp f t (fun t' x => Q t' x /\ Q' t' x).
Proof. intros (t' & x & E & HQ) HQ'. exists t', x. split; [done|]. split; [done|]. by apply (wp_run f t t' x). Qed.
End functions.

Create HintDb sql.
#[export] Hint Resolve sound_ret sound_exec sound_bind respects_ret respects_mark respects_bind respects_transaction respects_commit_late respects_try : sql.
Ltac calm := repeat (erewrite bind_calm by apply exec_calm); cbn [fst snd].
#[export] Hint Resolve stays_ret stays_undefined stays_bind stays_attempt stays_atomically stays_select stays_committed stays_if : sql.
(** One statement or function after the other. *)
Ltac wp_step := lazymatch goal with
  | |- wp (mret _) _ _ => apply wp_ret
  | |- wp (_ ≫= _) _ _ => apply wp_bind
  | |- wp (select _ _) _ _ => apply wp_select
  | |- wp (attempt _ _) _ _ => apply wp_attempt
  | |- wp (atomically _ _) _ _ => apply wp_atomically
  | |- wp (committed _ _) _ _ => apply wp_committed
  | |- wp (db_update _) _ _ => eapply wp_update; [reflexivity|]
  | |- swp (mret _) _ _ => apply swp_ret
  | |- swp (_ ≫= _) _ _ => apply swp_bind
  | |- swp (exec _) _ _ => apply swp_exec
  end; cbn beta.
