(* ===== verification/GListUtil.v ===== *)
(** * dm_list.c: helper functions on GLists

    Joining and slicing lists of strings and numbers for SQL statements, removal of adjacent
    duplicates, and the merge of flag and keyword lists. A GList is the list of its data. *)
From S2P Require Import Prelude CLib GLib.

Inductive flag_action := IMAPFA_NONE | IMAPFA_REPLACE | IMAPFA_ADD | IMAPFA_REMOVE.

(** The loop of [g_list_join] behind the first element. *)
Definition g_list_join (sep : cstr) (l : list cstr) : cstr :=
  match l with [] => [] | x :: l => foldl (fun s y => s ++ sep ++ y) x l end.
Definition g_list_join_u64 (sep : cstr) (l : list Z) : cstr :=
  match l with [] => [] | x :: l => foldl (fun s y => s ++ sep ++ dec_of y) (dec_of x) l end.

Definition g_list_append_printf (l : list cstr) (text : cstr) : list cstr := l ++ [text].

(** The slices: the inner loop takes up to [limit - 1] further elements. *)
Fixpoint slice_more (i : nat) (slice : cstr) (l : list cstr) : cstr * list cstr :=
  match i, l with
  | S i', y :: l' => slice_more i' (slice ++ ","%char :: y) l'
  | _, _ => (slice, l)
  end.
Fixpoint slices_loop (fuel : nat) (l : list cstr) (limit : nat) (new : list cstr) : list cstr :=
  match fuel, l with
  | S fuel', x :: l =>
      let '(slice, l) := slice_more (limit - 1) x l in
      slices_loop fuel' l limit (g_list_append_printf new slice)
  | _, _ => new
  end.
Definition g_list_slices (l : list cstr) (limit : nat) : list cstr := slices_loop (length l) l limit [].
Definition g_list_slices_u64 (l : list Z) (limit : nat) : list cstr := slices_loop (length l) (dec_of <$> l) limit [].

(** [g_list_dedup]: an element that equals the last one that was kept is taken out; [None] is
    an element without data. *)
Section dedup.
Context {A : Type} (cmp : A -> A -> bool).
Fixpoint dedup_loop (lastdata : option A) (l : list (option A)) : list (option A) :=
  match l with
  | [] => []
  | x :: l =>
      match lastdata, x with
      | Some y, Some z => if cmp y z then dedup_loop lastdata l else x :: dedup_loop x l
      | _, _ => x :: dedup_loop x l
      end
  end.
Definition g_list_dedup (l : list (option A)) : list (option A) := dedup_loop None l.

(** [g_list_merge a b condition func]; [eqb] is what [func] compares as equal. *)
Definition find_custom (l : list A) (t : A) : option nat := fst <$> list_find (fun x => cmp x t = true) l.
Definition g_list_merge (a b : list A) (condition : flag_action) : list A :=
  match condition with
  | IMAPFA_ADD => foldl (fun a t => match find_custom a t with None => a ++ [t] | Some _ => a end) a b
  | IMAPFA_REMOVE => foldl (fun a t => match find_custom a t with Some i => delete i a | None => a end) a b
  | IMAPFA_REPLACE => b
  | IMAPFA_NONE => a
  end.
End dedup.

(** ** Slices *)
Lemma slice_more_spec i slice l :
  slice_more i slice l = (slice ++ concat ((cons ","%char) <$> take i l), drop i l).
Proof.
  revert slice l. induction i as [|i IH]; intros slice [|y l]; simpl; rewrite ?app_nil_r; try done.
  rewrite IH. by rewrite <- app_assoc.
Qed.

Lemma g_list_join_concat sep l :
  g_list_join sep l = match l with [] => [] | x :: l => x ++ concat ((app sep) <$> l) end.
Proof.
  destruct l as [|x l]; [done|]. simpl. revert x. induction l as [|y l IH]; intros x; simpl; [by rewrite app_nil_r|].
  by rewrite IH, <- !app_assoc.
Qed.

(** The groups of a list: [limit] elements each, the last one with what is left. *)
Fixpoint groups {A} (fuel : nat) (l : list A) (limit : nat) : list (list A) :=
  match fuel, l with
  | S fuel', _ :: _ => take (S (limit - 1)) l :: groups fuel' (drop (S (limit - 1)) l) limit
  | _, _ => []
  end.

Lemma slices_loop_groups fuel l limit new :
  slices_loop fuel l limit new = new ++ (g_list_join [","%char] <$> groups fuel l limit).
Proof.
  revert l new. induction fuel as [|fuel IH]; intros l new; simpl; [by rewrite app_nil_r|].
  destruct l as [|x l]; simpl; [by rewrite app_nil_r|]. rewrite slice_more_spec, IH. unfold g_list_append_printf.
  rewrite <- app_assoc. do 2 f_equal. rewrite <- g_list_join_concat with (sep := [","%char]) (l := x :: take (limit - 1) l) at 1.
  done.
Qed.

Lemma groups_spec {A} fuel (l : list A) limit :
  (length l <= fuel)%nat -> (1 <= limit)%nat ->
  concat (groups fuel l limit) = l /\ Forall (fun g => (1 <= length g <= limit)%nat) (groups fuel l limit).
Proof.
  revert l. induction fuel as [|fuel IH]; intros l Hf Hl; [by destruct l; [|simpl in Hf; lia]|].
  destruct l as [|x l]; [done|]. cbn [groups concat]. destruct (IH (drop (S (limit - 1)) (x :: l))) as [E F].
  { rewrite length_drop. simpl in *. lia. }
  { done. }
  rewrite E, take_drop. split; [done|]. constructor; [|done]. rewrite length_take. simpl. lia.
Qed.

(** The slices of a list of numbers are a partition of it: each number is in exactly one
    slice, in its place, and every slice joins at least one and at most [limit] numbers. *)
Theorem g_list_slices_partition l limit :
  (1 <= limit)%nat ->
  exists gs, concat gs = l /\ Forall (fun g => (1 <= length g <= limit)%nat) gs /\
    g_list_slices_u64 l limit = g_list_join_u64 [","%char] <$> gs.
Proof.
  intros Hl. exists (groups (length l) l limit). destruct (groups_spec (length l) l limit) as [E F]; [done..|].
  split; [exact E|]. split; [exact F|]. unfold g_list_slices_u64. rewrite slices_loop_groups. cbn [app].
  generalize (length l) as fuel. clear E F. intros fuel. revert l. induction fuel as [|fuel IH]; intros [|x l]; try done.
  cbn [groups fmap list_fmap]. f_equal.
  - cbn [take]. rewrite <- fmap_take. unfold g_list_join, g_list_join_u64. generalize (dec_of x) as s.
    induction (take (limit - 1) l) as [|y k IHk]; intros s; [done|]. cbn [fmap list_fmap foldl]. apply IHk.
  - cbn [drop]. rewrite <- fmap_drop. apply IH.
Qed.

Lemma g_list_slices_partition_witness :
  g_list_slices_u64 [1; 22; 3; 4; 5] 2 = lit <$> ["1,22"; "3,4"; "5"]%string /\
  exists gs, concat gs = [1; 22; 3; 4; 5] /\ Forall (fun g => (1 <= length g <= 2)%nat) gs.
Proof.
  destruct (g_list_slices_partition [1; 22; 3; 4; 5] 2) as (gs & E & F & _); [lia|].
  split; [vm_compute; reflexivity|]. exists gs. by split.
Defined.

(** ** Duplicates and merges *)
Section lists.
Context {A : Type} `{EqDecision A}.
Implicit Types (a b l : list A).
Definition eqb (x y : A) : bool := bool_decide (x = y).

Lemma find_custom_elem l t : is_Some (find_custom eqb l t) <-> t ∈ l.
Proof.
  unfold find_custom, eqb. rewrite fmap_is_Some. split.
  - intros [[i x] E]. apply list_find_Some in E as (E & Ex & _). apply bool_decide_eq_true in Ex. subst.
    by eapply list_elem_of_lookup_2.
  - intros Hin. destruct (list_find _ l) as [p|] eqn:E; [by eexists|]. exfalso.
    apply list_find_None in E. rewrite Forall_forall in E. by apply (E t Hin), bool_decide_eq_true.
Qed.

Lemma find_custom_Some l t i : find_custom eqb l t = Some i -> exists l1 l2, l = l1 ++ t :: l2 /\ delete i l = l1 ++ l2 /\ t ∉ l1.
Proof.
  unfold find_custom, eqb. intros E. apply fmap_Some in E as ([j x] & E & ->).
  apply list_find_Some in E as (E & Ex & Hn). apply bool_decide_eq_true in Ex. subst. simpl.
  exists (take j l), (drop (S j) l). split; [by rewrite take_drop_middle|]. split; [apply delete_take_drop|].
  intros Hin. apply list_elem_of_lookup in Hin as [k Hk]. apply lookup_take_Some in Hk as [Hk Hlt].
  apply (Hn k t Hk) in Hlt. by apply Hlt, bool_decide_eq_true.
Qed.

Definition add_one a t := match find_custom eqb a t with None => a ++ [t] | Some _ => a end.
Definition remove_one a t := match find_custom eqb a t with Some i => delete i a | None => a end.

Lemma add_one_spec a t : NoDup a -> NoDup (add_one a t) /\ forall x, x ∈ add_one a t <-> x ∈ a \/ x = t.
Proof.
  intros Hn. unfold add_one. destruct (find_custom eqb a t) as [i|] eqn:E.
  - split; [done|]. intros x. assert (t ∈ a) by (apply find_custom_elem; by eexists). naive_solver.
  - assert (t ∉ a) as Ht by (rewrite <- find_custom_elem, E; by intros []). split.
    + apply NoDup_app. split; [done|]. split; [|apply NoDup_singleton].
      intros x Hx ->%list_elem_of_singleton. done.
    + intros x. by rewrite elem_of_app, list_elem_of_singleton.
Qed.

Lemma remove_one_spec a t : NoDup a -> NoDup (remove_one a t) /\ forall x, x ∈ remove_one a t <-> x ∈ a /\ x <> t.
Proof.
  intros Hn. unfold remove_one. destruct (find_custom eqb a t) as [i|] eqn:E.
  - apply find_custom_Some in E as (l1 & l2 & -> & -> & H1). apply NoDup_app in Hn as (N1 & N2 & N3).
    apply NoDup_cons in N3 as [N3 N4]. split.
    + apply NoDup_app. split; [done|]. split; [|done]. intros x Hx Hx2. apply (N2 x Hx). by right.
    + intros x. rewrite !elem_of_app, elem_of_cons. split; [|naive_solver].
      intros [Hx|Hx]; (split; [tauto|]); intros ->; [by apply H1|by apply N3].
  - assert (t ∉ a) as Ht by (rewrite <- find_custom_elem, E; by intros []). split; [done|].
    intros x. split; [|tauto]. intros Hx. split; [done|]. by intros ->.
Qed.

(** What a merge does to the set of the elements. *)
Definition merged (condition : flag_action) (x : A) a b : Prop :=
  match condition with
  | IMAPFA_NONE => x ∈ a
  | IMAPFA_REPLACE => x ∈ b
  | IMAPFA_ADD => x ∈ a \/ x ∈ b
  | IMAPFA_REMOVE => x ∈ a /\ x ∉ b
  end.

(** The merge of flag or keyword lists: adding is the union, removing the difference and
    replacing the second list, and no duplicates arise. *)
Theorem g_list_merge_sets a b condition :
  NoDup a -> NoDup b ->
  NoDup (g_list_merge eqb a b condition) /\
  forall x, x ∈ g_list_merge eqb a b condition <-> merged condition x a b.
Proof.
  intros Ha Hb. destruct condition; cbn [g_list_merge merged]; [done|done| |].
  - fold add_one. clear Hb. revert a Ha. induction b as [|t b IH]; intros a Ha; cbn [foldl].
    { split; [done|]. intros x. rewrite elem_of_nil. tauto. }
    destruct (add_one_spec a t Ha) as [N E]. destruct (IH _ N) as [N' E']. split; [done|].
    intros x. rewrite E', E, elem_of_cons. tauto.
  - fold remove_one. clear Hb. revert a Ha. induction b as [|t b IH]; intros a Ha; cbn [foldl].
    { split; [done|]. intros x. rewrite elem_of_nil. tauto. }
    destruct (remove_one_spec a t Ha) as [N E]. destruct (IH _ N) as [N' E']. split; [done|].
    intros x. rewrite E', E, elem_of_cons. tauto.
Qed.

(** Adjacent duplicates are gone and no element is lost. *)
Lemma dedup_loop_spec (last : option A) l :
  exists k, dedup_loop eqb last (Some <$> l) = Some <$> k /\
    (forall x, x ∈ k -> x ∈ l) /\ (forall x, x ∈ l -> x ∈ k \/ last = Some x) /\
    (forall i x y, (match last with Some z => z :: k | None => k end) !! i = Some x ->
       (match last with Some z => z :: k | None => k end) !! S i = Some y -> x <> y).
Proof.
  revert last. induction l as [|x l IH]; intros last; cbn [fmap list_fmap dedup_loop].
  { exists []. split; [done|]. split; [done|]. split; [by intros x ?%elem_of_nil|]. by destruct last, i. }
  assert (exists k, Some x :: dedup_loop eqb (Some x) (Some <$> l) = Some <$> x :: k /\
    (forall y, y ∈ x :: k -> y ∈ x :: l) /\ (forall y, y ∈ x :: l -> y ∈ x :: k) /\
    (forall i y z, (x :: k) !! i = Some y -> (x :: k) !! S i = Some z -> y <> z)) as (k & Ek & K1 & K2 & K3).
  { destruct (IH (Some x)) as (k & -> & I1 & I2 & I3). exists k. split; [done|]. split; [set_solver|]. split; [|done].
    intros y [->|Hy]%elem_of_cons; [left|]. destruct (I2 y Hy) as [?|[= ->]]; [by right|left]. }
  destruct last as [y|].
  2:{ exists (x :: k). split; [exact Ek|]. split; [exact K1|]. split; [|exact K3]. intros z Hz. left. by apply K2. }
  unfold eqb at 1. case_bool_decide as E.
  - subst y. destruct (IH (Some x)) as (k' & Ek' & I1 & I2 & I3). exists k'. split; [exact Ek'|].
    split; [set_solver|]. split; [|done]. intros z [->|Hz]%elem_of_cons; [by right|by apply I2].
  - exists (x :: k). split; [exact Ek|]. split; [exact K1|]. split; [intros z Hz; left; by apply K2|].
    intros [|i] u v Hu Hv; simpl in Hu, Hv; [by simplify_eq|]. by apply (K3 i).
Qed.
End lists.

Lemma g_list_merge_sets_witness :
  g_list_merge eqb [1; 2; 3] [3; 4] IMAPFA_ADD = [1; 2; 3; 4] /\
  (forall x, x ∈ g_list_merge eqb [1; 2; 3] [3; 4] IMAPFA_REMOVE <-> x ∈ [1; 2; 3] /\ x ∉ [3; 4]).
Proof.
  split; [vm_compute; reflexivity|].
  apply (g_list_merge_sets [1; 2; 3] [3; 4] IMAPFA_REMOVE); apply (bool_decide_eq_true_1 _); vm_compute; reflexivity.
Defined.
