(* ===== verification/MailboxState.v ===== *)
(** * dm_mailboxstate.c: the state of a selected mailbox

    The messages of a mailbox by UID ([msginfo]), the two trees that translate between UIDs
    and message sequence numbers ([ids], [msn]), the queue of recent messages, and the
    translation of an IMAP message set into a set of messages.

    What is read from the database (the sequence, the permission, the owner, the access
    control rows) are the operations of the class [MailboxDB]. *)
From S2P Require Import Prelude CLib GLib Tree GListUtil ClientSession.

(** ** Numbers in message sets *)

(** [dm_strtoull nptr &endptr 10]: the value, 0 for what is negative or out of range. *)
Definition dm_strtoull (s : cstr) : Z * cstr :=
  let '(neg, m) := scan_int s in
  let v := if neg then - m else m in
  (if (v <? 0) || (2 ^ 63 - 1 <? v) then 0 else v, scan_end s).

(** ** The state *)
Definition IMAP_FLAG_SEEN : nat := 0.
Definition IMAP_FLAG_ANSWERED : nat := 1.
Definition IMAP_FLAG_DELETED : nat := 2.
Definition IMAP_FLAG_FLAGGED : nat := 3.
Definition IMAP_FLAG_DRAFT : nat := 4.
Definition IMAP_FLAG_RECENT : nat := 5.
Definition IMAP_NFLAGS : nat := 6.
Definition IMAPPERM_READ : Z := 1.
Definition IMAPPERM_READWRITE : Z := 2.
Definition imap_flag_desc_escaped : list cstr :=
  lit <$> ["\Seen"; "\Answered"; "\Deleted"; "\Flagged"; "\Draft"; "\Recent"]%string.

Record MessageInfo := mkinfo {
  uid : Z;
  mi_msn : Z;
  status : Z;
  flags : list Z;
  mi_keywords : list cstr;
  mi_seq : Z;                 (** the modification sequence *)
  mi_rfcsize : Z;
  mi_phys : Z;                (** phys_id *)
  mi_internaldate : cstr;
  mi_expunge : Z;             (** how often it was found deleted *)
  mi_expunged : Z;            (** 1: the client knows that it is gone *)
}.
#[export] Instance MessageInfo_settable : Settable MessageInfo :=
  fun r => mkinfo (uid r) (mi_msn r) (status r) (flags r) (mi_keywords r) (mi_seq r) (mi_rfcsize r) (mi_phys r) (mi_internaldate r)
    (mi_expunge r) (mi_expunged r).
Definition flag (m : MessageInfo) (i : nat) : Z := default 0 (flags m !! i).

(** What the database answers; [None] is a failed query or a missing row. *)
Class MailboxDB := {
  db_mailbox_seq : Z -> option Z;
  db_mailbox_permission : Z -> option Z;
  db_get_mailbox_owner : Z -> Z * Z;                      (** result and owner *)
  db_acl_any : Z -> Z -> option bool;                     (** user, mailbox: is there a row *)
  db_acl_flag : Z -> Z -> cstr -> option bool;            (** is there a row with this right *)
}.

Section state.
Context `{GTreeOps} `{MailboxDB} `{GLibStr}.

Record MailboxState_T := mkstate {
  mb_id : Z;
  owner_id : Z;
  permission : Z;
  exists_ : Z;
  recent : Z;
  unseen : Z;
  uidnext : Z;
  seq : Z;
  keywords : list cstr;
  msginfo : gtree MessageInfo;
  ids : gtree Z;
  msn : gtree Z;
  recent_queue : gtree Z;
  mb_name : cstr;
  no_select : bool;
  no_inferiors : bool;
  no_children : bool;
  state_seq : Z;                  (** the sequence when it was loaded *)
  differential_iterations : Z;
}.
#[export] Instance MailboxState_settable : Settable MailboxState_T := fun r =>
  mkstate (mb_id r) (owner_id r) (permission r) (exists_ r) (recent r) (unseen r) (uidnext r) (seq r)
    (keywords r) (msginfo r) (ids r) (msn r) (recent_queue r) (mb_name r) (no_select r) (no_inferiors r)
    (no_children r) (state_seq r) (differential_iterations r).

Definition MailboxState_uid_msn_new (M : MailboxState_T) : MailboxState_T :=
  M <| msn := g_tree_new |> <| ids := g_tree_new |>.

(** The loop of [MailboxState_remap] over the UIDs; [rows] is the next sequence number. Every
    UID of the list is a key of [msginfo]. *)
Fixpoint remap_loop (uids : list Z) (rows : Z) (M : MailboxState_T) : MailboxState_T :=
  match uids with
  | [] => M
  | u :: uids =>
      match g_tree_lookup (msginfo M) u with
      | Some info =>
          if status info <? MESSAGE_STATUS_DELETE then
            remap_loop uids (rows + 1)
              (M <| msginfo ::= fun t => g_tree_insert t u (info <| mi_msn := rows |>) |>
                 <| ids ::= fun t => g_tree_insert t u rows |>
                 <| msn ::= fun t => g_tree_insert t rows u |>)
          else remap_loop uids rows M
      | None => remap_loop uids rows M
      end
  end.
Definition MailboxState_remap (M : MailboxState_T) : MailboxState_T :=
  let M := MailboxState_uid_msn_new M in
  remap_loop (g_tree_keys (msginfo M)) 1 M.

Definition MailboxState_setMsginfo (M : MailboxState_T) (t : gtree MessageInfo) : MailboxState_T :=
  MailboxState_remap (M <| msginfo := t |>).

Definition MailboxState_getPermission (M : MailboxState_T) : MailboxState_T * Z :=
  let M := if (permission M =? 0) && negb (mb_id M =? 0) then
             match db_mailbox_permission (mb_id M) with Some p => M <| permission := p |> | None => M end
           else M in
  (M, permission M).

Definition MailboxState_getSeq (M : MailboxState_T) : MailboxState_T * Z :=
  let M := if seq M =? 0 then match db_mailbox_seq (mb_id M) with Some s => M <| seq := s |> | None => M end
           else M in
  (M, seq M).
Definition MailboxState_resetSeq (M : MailboxState_T) : MailboxState_T := M <| seq := 0 |>.
Definition MailboxState_resyncSeq (M : MailboxState_T) : MailboxState_T * Z :=
  MailboxState_getSeq (M <| seq := 0 |>).

Definition MailboxState_setPermission (M : MailboxState_T) (p : Z) : MailboxState_T := M <| permission := p |>.
Definition MailboxState_setExists (M : MailboxState_T) (n : Z) : MailboxState_T := M <| exists_ := n |>.
Definition MailboxState_setId (M : MailboxState_T) (id : Z) : MailboxState_T := M <| mb_id := id |>.
Definition MailboxState_setName (M : MailboxState_T) (name : cstr) : MailboxState_T := M <| mb_name := name |>.
Definition MailboxState_setNoSelect (M : MailboxState_T) (b : bool) : MailboxState_T := M <| no_select := b |>.
Definition MailboxState_setNoChildren (M : MailboxState_T) (b : bool) : MailboxState_T := M <| no_children := b |>.

(** ** Recent messages *)
Definition MailboxState_build_recent (M : MailboxState_T) : MailboxState_T :=
  let '(M, p) := MailboxState_getPermission M in
  if p =? IMAPPERM_READWRITE then
    M <| recent_queue := foldl (fun q '(u, info) => if flag info IMAP_FLAG_RECENT =? 0 then q else g_tree_insert q u u)
                           (recent_queue M) (g_tree_traverse (msginfo M)) |>
  else M.

Definition clear_recent_flag (info : MessageInfo) : MessageInfo :=
  info <| flags ::= <[IMAP_FLAG_RECENT := 0]> |>.
Definition MailboxState_clear_recent (M : MailboxState_T) : MailboxState_T :=
  let '(M, p) := MailboxState_getPermission M in
  if p =? IMAPPERM_READWRITE then
    foldl (fun M '(u, info) =>
             M <| msginfo ::= fun t => g_tree_insert t u (clear_recent_flag info) |>
               <| recent_queue ::= fun q => g_tree_remove q u |>)
      M (g_tree_traverse (msginfo M))
  else M.

(** [MailboxState_flush_recent]: the new state, and the UIDs and the sequence of the UPDATE
    that clears the flag in the database, if there is one. *)
Definition MailboxState_flush_recent (M : MailboxState_T) : MailboxState_T * option (list Z * Z) :=
  let '(M, p) := MailboxState_getPermission M in
  if negb (p =? IMAPPERM_READWRITE) then (M, None)
  else if bool_decide (g_tree_nnodes (recent_queue M) = 0%nat) then (M, None)
  else
    let uids := g_tree_keys (recent_queue M) in
    let '(M, s) := MailboxState_getSeq M in
    (M <| recent_queue := g_tree_new |>, Some (uids, wrap64 (s + 1))).

Definition MailboxState_merge_recent (M N : MailboxState_T) : MailboxState_T :=
  let q := (g_tree_merge (recent_queue M) (recent_queue N) IST_SUBSEARCH_OR).1 in
  M <| recent_queue := q |> <| recent := Z.of_nat (g_tree_nnodes q) |>.

Definition MailboxState_hasKeyword (M : MailboxState_T) (kw : cstr) : bool := bool_decide (kw ∈ keywords M).
Definition MailboxState_addKeyword (M : MailboxState_T) (kw : cstr) : MailboxState_T :=
  M <| keywords ::= fun l => l ++ [kw] |>.

(** The flags of a message as IMAP shows them: those that are set, then \Recent for a message
    of the queue, then the keywords the mailbox knows. *)
Definition MailboxState_message_flags (M : MailboxState_T) (info : MessageInfo) : list cstr :=
  omap (fun j => if flag info j =? 0 then None else imap_flag_desc_escaped !! j) (List.seq 0 IMAP_NFLAGS) ++
  (if (flag info IMAP_FLAG_RECENT =? 0) && bool_decide (is_Some (g_tree_lookup (recent_queue M) (uid info)))
   then [lit "\Recent"] else []) ++
  filter (fun kw => MailboxState_hasKeyword M kw = true) (mi_keywords info).

Definition MailboxState_flags (M : MailboxState_T) : cstr :=
  g_strchomp (lit "\Seen \Answered \Deleted \Flagged \Draft" ++
              match keywords M with [] => [] | kws => SP :: g_list_join [SP] kws end).

(** ** Messages come and go *)
Definition MailboxState_addMsginfo (M : MailboxState_T) (u : Z) (info : MessageInfo) : MailboxState_T :=
  let M := M <| msginfo ::= fun t => g_tree_insert t u info |> in
  let M := if flag info IMAP_FLAG_RECENT =? 1
           then M <| seq ::= fun s => wrap64 (s - 1) |> <| recent ::= fun n => wrap32 (n + 1) |> else M in
  MailboxState_remap (MailboxState_build_recent M).

Definition MailboxState_removeUid (M : MailboxState_T) (u : Z) : MailboxState_T * Z :=
  match g_tree_lookup (msginfo M) u with
  | None => (M, 1)
  | Some info =>
      let M := M <| msginfo ::= fun t => g_tree_insert t u (info <| status := MESSAGE_STATUS_DELETE |>) |>
                 <| exists_ ::= fun n => wrap32 (n - 1) |> in
      (MailboxState_remap M, 0)
  end.

Definition MailboxState_getExists (M : MailboxState_T) : MailboxState_T * Z :=
  let real := Z.of_nat (g_tree_nnodes (ids M)) in
  let M := if to_int32 (exists_ M) <? real then M <| exists_ := real |> else M in
  (M, exists_ M).

(** A row of the messages table, as [db_getmailbox_count] sums it up. *)
Record countrow := mkcount { c_idnr : Z; c_seen : bool; c_recent : bool; c_status : Z }.
Definition count_where (p : countrow -> bool) (rows : list countrow) : Z :=
  Z.of_nat (length (filter (fun r => c_status r < MESSAGE_STATUS_DELETE /\ p r = true) rows)).
Definition db_getmailbox_count (M : MailboxState_T) (rows : list countrow) : MailboxState_T :=
  if mb_id M =? 0 then M
  else
    let n := count_where (fun r => negb (c_seen r)) rows in
    let e := count_where c_seen rows in
    let M := M <| exists_ := wrap32 (n + e) |> <| unseen := n |> <| recent := count_where c_recent rows |> in
    if exists_ M =? 0 then M <| uidnext := 1 |>
    else M <| uidnext := foldr Z.max 0 (c_idnr <$> rows) + 1 |>.

(** ** Permissions *)
Definition MailboxState_hasPermission (M : MailboxState_T) (userid : Z) (right_flag : cstr) : MailboxState_T * Z :=
  let id := mb_id M in
  let '(M, known) :=
    if owner_id M =? 0 then let '(r, o) := db_get_mailbox_owner id in (M <| owner_id := o |>, r) else (M, 1) in
  if known <=? 0 then (M, known)
  else if (owner_id M =? userid) && negb (default false (db_acl_any userid id)) then (M, 1)
  else match db_acl_flag userid id right_flag with
       | None => (M, -1)
       | Some granted => (M, if granted then 1 else 0)
       end.

(** ** Message sets *)

(** The walk of [find_range] with [filter_range]: keys below [min] are skipped, the walk ends
    at the first key above [max]. *)
Fixpoint filter_range (items : list (Z * Z)) (min max : Z) (by_uid : bool) (a : gtree Z) : gtree Z :=
  match items with
  | [] => a
  | (k, v) :: items =>
      if k <? min then filter_range items min max by_uid a
      else if max <? k then a
      else filter_range items min max by_uid (if by_uid then g_tree_insert a k v else g_tree_insert a v k)
  end.
Definition find_range (c : gtree Z) (l r : Z) (a : gtree Z) (by_uid : bool) : gtree Z :=
  filter_range (g_tree_traverse c) l r by_uid a.

Definition OUTLOOK_STAR : Z := 4294967295.
Definition STAR : ascii := "*"%char.
Definition COLON : ascii := ":"%char.
Definition starts (c : ascii) (s : cstr) : bool := bool_decide (head s = Some c).

(** A part of a set in an empty mailbox: whether it is a range at all. *)
Definition empty_part_ok (s : cstr) : bool :=
  starts STAR s ||
  (let '(l, rest) := dm_strtoull s in
   negb (l =? 0) &&
   match rest with
   | [] => true
   | c :: t => bool_decide (c = COLON) && (starts STAR t || negb ((dm_strtoull t).1 =? 0))
   end).

(** The first bound of a part, and the text behind it. *)
Definition first_bound (s : cstr) (by_uid : bool) (lo hi : Z) : option (Z * cstr) :=
  if starts STAR s then Some (hi, if bool_decide (1 < length s)%nat then tail s else s)
  else
    let '(l, rest) := dm_strtoull s in
    if l =? 0 then None
    else
      let l := if l =? OUTLOOK_STAR then hi else l in
      Some (if by_uid then l else Z.max l lo, rest).

(** The bounds of a part of a set: [None] is an error; a bound of 0 ends the set. *)
Definition part_bounds (s : cstr) (by_uid : bool) (lo hi : Z) : option (Z * Z) :=
  '(l, rest) ← first_bound s by_uid lo hi;
  if starts COLON rest then
    let rest := if bool_decide (1 < length rest)%nat then tail rest else rest in
    if starts STAR rest then Some (l, hi)
    else
      let r := (dm_strtoull rest).1 in
      if r =? 0 then None else Some (l, if r =? OUTLOOK_STAR then hi else r)
  else Some (l, l).

Fixpoint set_loop (sets : list cstr) (inset : gtree Z) (by_uid : bool) (lo hi next : Z) (a b : gtree Z)
    : option (gtree Z) :=
  match sets with
  | [] | [] :: _ => Some b
  | s :: sets =>
      if bool_decide (g_tree_nnodes inset = 0%nat) then
        if empty_part_ok s then set_loop sets inset by_uid lo hi next a (g_tree_insert b 1 next) else None
      else
        '(l, r) ← part_bounds s by_uid lo hi;
        if (l =? 0) || (r =? 0) then Some b
        else
          let a := find_range inset (Z.min l r) (Z.max l r) a by_uid in
          let '(b, a) := g_tree_merge b a IST_SUBSEARCH_OR in
          set_loop sets inset by_uid lo hi next a b
  end.

(** [MailboxState_get_set]: the messages of a set, as a tree from UIDs to sequence numbers. *)
Definition MailboxState_get_set (M : MailboxState_T) (set : cstr) (by_uid : bool) : MailboxState_T * option (gtree Z) :=
  let inset := if by_uid then ids M else msn M in
  let '(M, lo, hi) :=
    if by_uid then
      (M, default 0 (head (g_tree_keys inset)), default 0 (last (g_tree_keys inset)))
    else let '(M, e) := MailboxState_getExists M in (M, 1, e) in
  (M, set_loop (g_strsplit set ","%char) inset by_uid lo hi (uidnext M) g_tree_new g_tree_new).
End state.
