(* ===== verification/MailboxStateFacts.v ===== *)
(** * Properties of the mailbox state

    Sequence numbers after a remap and after an expunge, and the meaning of message sets. *)
From S2P Require Import Prelude CLib GLib Tree GListUtil ClientSession MailboxState.

Section facts.
Context `{GTreeLaws} `{MailboxDB} `{GLibStrLaws}.
Implicit Types M : MailboxState_T.

(** ** Sequence numbers *)
Definition alive_at (t : gtree MessageInfo) (u : Z) : bool :=
  match g_tree_lookup t u with Some info => status info <? MESSAGE_STATUS_DELETE | None => false end.
(** The UIDs of the messages that are not deleted, in ascending order. *)
Definition alive_among (t : gtree MessageInfo) (us : list Z) : list Z := filter (fun u => alive_at t u = true) us.
Definition alive_uids M : list Z := alive_among (msginfo M) (g_tree_keys (msginfo M)).

Lemma alive_among_cons t u us :
  alive_among t (u :: us) = if alive_at t u then u :: alive_among t us else alive_among t us.
Proof. unfold alive_among. rewrite filter_cons. by destruct (alive_at t u). Qed.

Lemma alive_among_iff t t' us : (forall u, alive_at t u = alive_at t' u) -> alive_among t us = alive_among t' us.
Proof. intros He. unfold alive_among. apply list_filter_iff. intros u. by rewrite He. Qed.

(** The trees number the UIDs of [us] with consecutive numbers from [n] on. *)
Definition numbers (n : Z) (us : list Z) (to_msn to_uid : gtree Z) : Prop :=
  (forall u m, g_tree_lookup to_msn u = Some m <-> exists i, us !! i = Some u /\ m = n + Z.of_nat i) /\
  (forall m u, g_tree_lookup to_uid m = Some u <-> exists i, us !! i = Some u /\ m = n + Z.of_nat i).

(** What a remap does to the record of a message. *)
Definition renumbered (us : list Z) (n : Z) (u : Z) (info info' : MessageInfo) : Prop :=
  (u ∉ us -> info' = info) /\
  (forall i, us !! i = Some u -> info' = info <| mi_msn := n + Z.of_nat i |>).

Lemma remap_loop_spec us n M done :
  NoDup us -> numbers 1 done (ids M) (msn M) -> n = 1 + Z.of_nat (length done) ->
  (forall u, u ∈ us -> u ∉ done) ->
  let M' := remap_loop us n M in
  numbers 1 (done ++ alive_among (msginfo M) us) (ids M') (msn M') /\
  (forall u, alive_at (msginfo M') u = alive_at (msginfo M) u).
Proof.
  revert n M done. induction us as [|u us IH]; intros n M done Hnd Hnum Hn Hdis; cbn [remap_loop].
  { unfold alive_among. rewrite filter_nil, app_nil_r. done. }
  apply NoDup_cons in Hnd as [Hu Hnd]. rewrite alive_among_cons.
  assert (forall v, v ∈ us -> v ∉ done) as Hdis' by (intros v Hv; apply Hdis; by right).
  unfold alive_at at 1. destruct (g_tree_lookup (msginfo M) u) as [info|] eqn:Ei; [|by apply IH].
  destruct (status info <? MESSAGE_STATUS_DELETE) eqn:Es; [|by apply IH].
  set (M1 := M <| msginfo ::= _ |> <| ids ::= _ |> <| msn ::= _ |>).
  assert (u ∉ done) as Hud by (apply Hdis; left).
  assert (forall v, alive_at (msginfo M1) v = alive_at (msginfo M) v) as Ha.
  { intros v. unfold alive_at. subst M1. simpl. rewrite g_tree_lookup_insert_case. case_decide; [|done]. subst. by rewrite Ei. }
  destruct (IH (n + 1) M1 (done ++ [u])) as [J1 J2]; [done| | | |].
  - subst M1. destruct Hnum as [N1 N2]. split; simpl; intros x y; rewrite g_tree_lookup_insert_case.
    + case_decide as Hx.
      * subst x. split.
        -- intros [= <-]. exists (length done). rewrite list_lookup_middle by done. split; [done|lia].
        -- intros (i & Hi & ->). apply lookup_snoc_Some in Hi as [[_ Hi]|[-> _]].
           ++ by apply list_elem_of_lookup_2 in Hi.
           ++ f_equal. lia.
      * rewrite N1. split; intros (i & Hi & ->); exists i; (split; [|done]).
        -- by apply lookup_app_l_Some.
        -- apply lookup_snoc_Some in Hi as [[_ Hi]|[_ ?]]; done.
    + case_decide as Hx.
      * subst x. split.
        -- intros [= <-]. exists (length done). rewrite list_lookup_middle by done. split; [done|lia].
        -- intros (i & Hi & E). apply lookup_snoc_Some in Hi as [[Hi _]|[_ <-]]; [lia|done].
      * rewrite N2. split; intros (i & Hi & ->); exists i; (split; [|done]).
        -- by apply lookup_app_l_Some.
        -- apply lookup_snoc_Some in Hi as [[_ Hi]|[-> _]]; [done|lia].
  - rewrite length_app. simpl. lia.
  - intros v Hv. rewrite elem_of_app, list_elem_of_singleton. intros [?| ->]; [by eapply Hdis'|done].
  - rewrite (alive_among_iff (msginfo M1) (msginfo M)) in J1 by done. rewrite <- app_assoc in J1.
    split; [exact J1|]. intros v. by rewrite J2, Ha.
Qed.

(** The state is consistent: sequence numbers 1, 2, ... for the messages that are not deleted,
    in the order of their UIDs. *)
Definition consistent M : Prop := numbers 1 (alive_uids M) (ids M) (msn M).

(** Only the sequence numbers of the records change. *)
Lemma remap_loop_msginfo us n M u :
  g_tree_lookup (msginfo (remap_loop us n M)) u = g_tree_lookup (msginfo M) u \/
  exists info m, g_tree_lookup (msginfo M) u = Some info /\
    g_tree_lookup (msginfo (remap_loop us n M)) u = Some (info <| mi_msn := m |>).
Proof.
  revert n M. induction us as [|v us IH]; intros n M; cbn [remap_loop]; [by left|].
  destruct (g_tree_lookup (msginfo M) v) as [info|] eqn:Ev; [|apply IH].
  destruct (status info <? MESSAGE_STATUS_DELETE); [|apply IH].
  destruct (IH (n + 1) (M <| msginfo ::= fun t => g_tree_insert t v (info <| mi_msn := n |>) |>
                          <| ids ::= fun t => g_tree_insert t v n |> <| msn ::= fun t => g_tree_insert t n v |>))
    as [E|(info' & m & E1 & E2)]; simpl in *.
  - rewrite E, g_tree_lookup_insert_case. case_decide; [subst; right; eauto|by left].
  - rewrite g_tree_lookup_insert_case in E1. case_decide; [|by right; eauto].
    subst. simplify_eq. right. exists info, m. split; [done|]. by rewrite E2.
Qed.

Lemma remap_keys M u : is_Some (g_tree_lookup (msginfo (MailboxState_remap M)) u) <-> is_Some (g_tree_lookup (msginfo M) u).
Proof.
  unfold MailboxState_remap.
  destruct (remap_loop_msginfo (g_tree_keys (msginfo (MailboxState_uid_msn_new M))) 1 (MailboxState_uid_msn_new M) u)
    as [->|(info & m & Ei & ->)]; [done|]. simpl in Ei. rewrite Ei. split; by eexists.
Qed.

(** Two sorted lists with the same elements are equal. *)
Lemma alive_uids_sorted M : StronglySorted Z.lt (alive_uids M).
Proof. apply sorted_filter, g_tree_traverse_sorted. Qed.

Lemma alive_uids_elem M u : u ∈ alive_uids M <-> alive_at (msginfo M) u = true.
Proof.
  unfold alive_uids, alive_among. rewrite list_elem_of_filter, g_tree_keys_elem. split; [tauto|].
  intros Ha. split; [done|]. unfold alive_at in Ha. destruct (g_tree_lookup (msginfo M) u); [by eexists|done].
Qed.

Lemma alive_uids_ext M M' : (forall u, alive_at (msginfo M) u = alive_at (msginfo M') u) -> alive_uids M = alive_uids M'.
Proof.
  intros He. apply sorted_unique; [apply alive_uids_sorted..|]. intros u. by rewrite !alive_uids_elem, He.
Qed.

Lemma remap_consistent M :
  consistent (MailboxState_remap M) /\ alive_uids (MailboxState_remap M) = alive_uids M.
Proof.
  unfold MailboxState_remap. set (M0 := MailboxState_uid_msn_new M).
  destruct (remap_loop_spec (g_tree_keys (msginfo M0)) 1 M0 []) as [N A].
  - apply g_tree_nodup.
  - split; intros x y; simpl; rewrite g_tree_lookup_new; (split; [done|]); by intros (i & [=] & _).
  - done.
  - intros u _. apply not_elem_of_nil.
  - simpl app in N. pose proof (alive_uids_ext _ _ A) as E. change (alive_uids M0) with (alive_uids M) in E.
    split; [|exact E]. unfold consistent. rewrite E. exact N.
Qed.

(** C18. After a remap the messages that are not deleted, and only they, have the sequence
    numbers 1, 2, ... in ascending order of their UIDs, the two trees are inverse to each
    other, and of the message records nothing but the sequence numbers has changed. *)
Theorem MailboxState_remap_numbers M :
  let M' := MailboxState_remap M in
  let us := alive_uids M in
  StronglySorted Z.lt us /\ (forall u, u ∈ us <-> alive_at (msginfo M) u = true) /\
  (forall u n, g_tree_lookup (ids M') u = Some n <-> exists i, us !! i = Some u /\ n = 1 + Z.of_nat i) /\
  (forall n u, g_tree_lookup (msn M') n = Some u <-> g_tree_lookup (ids M') u = Some n) /\
  (forall u, (fun info => info <| mi_msn := 0 |>) <$> g_tree_lookup (msginfo M') u =
             (fun info => info <| mi_msn := 0 |>) <$> g_tree_lookup (msginfo M) u).
Proof.
  intros M' us. destruct (remap_consistent M) as [[N1 N2] E]. fold M' in N1, N2, E. rewrite E in N1, N2.
  split; [apply alive_uids_sorted|]. split; [apply alive_uids_elem|]. split; [exact N1|].
  split; [intros n u; by rewrite N2, N1|]. intros u. subst M'. unfold MailboxState_remap.
  destruct (remap_loop_msginfo (g_tree_keys (msginfo (MailboxState_uid_msn_new M))) 1 (MailboxState_uid_msn_new M) u)
    as [->|(info & m & Ei & ->)]; [done|]. simpl in Ei. by rewrite Ei.
Qed.

(** The position of the other elements when one element is taken out. *)
Lemma lookup_filter_ne (l : list Z) n x i y :
  NoDup l -> l !! n = Some x ->
  filter (fun z => z <> x) l !! i = Some y <-> l !! (if decide (i < n)%nat then i else S i) = Some y.
Proof.
  intros Hnd Hn. apply list_elem_of_split_length in Hn as (l1 & l2 & -> & ->).
  apply NoDup_app in Hnd as (_ & Hx & Hnd). apply NoDup_cons in Hnd as [Hx2 _].
  assert (forall k : list Z, x ∉ k -> filter (fun z => z <> x) k = k) as Hid.
  { intros k Hk. apply filter_all. intros z Hz ->. done. }
  rewrite filter_app, filter_cons, decide_False by (intros X; by apply X).
  rewrite (Hid l1) by (intros Hin; apply (Hx x Hin); left). rewrite (Hid l2 Hx2). case_decide.
  - by rewrite !lookup_app_l by lia.
  - rewrite lookup_app_r by lia. rewrite lookup_app_r by lia.
    replace (S i - length l1)%nat with (S (i - length l1)) by lia. done.
Qed.

Lemma remap_loop_exists us n M : exists_ (remap_loop us n M) = exists_ M.
Proof.
  revert n M. induction us as [|v us IH]; intros n M; cbn [remap_loop]; [done|].
  destruct (g_tree_lookup (msginfo M) v); [|apply IH]. case_match; [|apply IH]. by rewrite IH.
Qed.

(** An expunge: the message loses its sequence number, every later message moves down by
    one, the earlier ones keep theirs, and the state stays consistent. *)
Theorem MailboxState_removeUid_renumbers M u n :
  consistent M -> g_tree_lookup (ids M) u = Some n ->
  let '(M', r) := MailboxState_removeUid M u in
  r = 0 /\ consistent M' /\ exists_ M' = wrap32 (exists_ M - 1) /\
  g_tree_lookup (ids M') u = None /\
  (forall v, v <> u -> g_tree_lookup (ids M') v =
     (fun m => if n <? m then m - 1 else m) <$> g_tree_lookup (ids M) v).
Proof.
  intros [N1 N2] Hu. apply N1 in Hu as Hi. destruct Hi as (i & Hi & ->).
  assert (alive_at (msginfo M) u = true) as Ha by (apply alive_uids_elem; by eapply list_elem_of_lookup_2).
  unfold alive_at in Ha. unfold MailboxState_removeUid.
  destruct (g_tree_lookup (msginfo M) u) as [info|] eqn:Eu; [|done].
  set (M1 := M <| msginfo ::= _ |> <| exists_ ::= _ |>).
  destruct (remap_consistent M1) as [C E]. pose proof (proj1 C) as C1. rewrite E in C1.
  assert (alive_uids M1 = filter (fun z => z <> u) (alive_uids M)) as E1.
  { apply sorted_unique; [apply alive_uids_sorted|apply sorted_filter, alive_uids_sorted|].
    intros v. rewrite alive_uids_elem, list_elem_of_filter, alive_uids_elem. unfold alive_at at 1. subst M1. simpl.
    rewrite g_tree_lookup_insert_case. destruct (decide (u = v)) as [<-|Hne]; [simpl; split; [done|by intros []]|].
    fold (alive_at (msginfo M) v). split; [by split|by intros []]. }
  assert (NoDup (alive_uids M)) as Hnd by (apply NoDup_filter, g_tree_nodup).
  rewrite E1 in C1. split; [done|]. split; [exact C|]. split.
  { unfold MailboxState_remap. by rewrite remap_loop_exists. }
  split.
  - destruct (g_tree_lookup (ids (MailboxState_remap M1)) u) as [m|] eqn:Em; [|done]. exfalso.
    apply C1 in Em as (j & Hj & _). apply list_elem_of_lookup_2, list_elem_of_filter in Hj as [[] _]. done.
  - intros v Hv. apply option_eq. intros m. rewrite C1.
    setoid_rewrite (lookup_filter_ne (alive_uids M) i u _ v Hnd Hi).
    rewrite fmap_Some. setoid_rewrite N1. split.
    + intros (j & Hj & ->). case_decide as Hc.
      * exists (1 + Z.of_nat j). split; [by eauto|]. rewrite (proj2 (Z.ltb_ge _ _)); lia.
      * exists (1 + Z.of_nat (S j)). split; [by eauto|]. rewrite (proj2 (Z.ltb_lt _ _)); lia.
    + intros (k & (j & Hj & ->) & ->).
      assert (j <> i) as Hne by (intros ->; congruence). destruct (decide (j < i)%nat) as [Hlt|Hge].
      * exists j. rewrite decide_True by done. split; [done|]. rewrite (proj2 (Z.ltb_ge _ _)); lia.
      * exists (pred j). rewrite decide_False by lia. replace (S (pred j)) with j by lia.
        split; [done|]. rewrite (proj2 (Z.ltb_lt _ _)); lia.
Qed.

(** ** Message sets *)

(** The grammar of RFC 3501: numbers and stars, alone or as the bounds of a range. *)
Inductive bound := BNum (n : Z) | BStar.
Definition set_part : Type := bound * option bound.
Definition print_bound (b : bound) : cstr := match b with BNum n => dec_of n | BStar => [STAR] end.
Definition print_part (p : set_part) : cstr :=
  print_bound p.1 ++ match p.2 with Some b => COLON :: print_bound b | None => [] end.
Definition print_set (ps : list set_part) : cstr := g_list_join [","%char] (print_part <$> ps).
Definition bound_ok (b : bound) : Prop := match b with BNum n => 1 <= n < 2 ^ 63 | BStar => True end.
Definition part_ok (p : set_part) : Prop := bound_ok p.1 /\ match p.2 with Some b => bound_ok b | None => True end.

(** The meaning of a part; [hi] is the value of the star. *)
Definition bound_value (hi : Z) (b : bound) : Z :=
  match b with BNum n => if n =? OUTLOOK_STAR then hi else n | BStar => hi end.
Definition in_part (hi k : Z) (p : set_part) : bool :=
  let l := bound_value hi p.1 in
  let r := bound_value hi (default p.1 p.2) in
  (Z.min l r <=? k) && (k <=? Z.max l r).
Definition covered (hi k : Z) (ps : list set_part) : bool := existsb (in_part hi k) ps.

Lemma digits_val_stop ds acc rest :
  Forall (fun x => isdigit x = true) ds -> (forall c, head rest = Some c -> isdigit c = false) ->
  digits_val acc (ds ++ rest) = digits_val acc ds.
Proof.
  intros Hd Hr. revert acc. induction Hd as [|x ds Hx _ IH]; intros acc; simpl.
  - destruct rest as [|c rest]; [done|]. simpl. by rewrite (Hr c eq_refl).
  - by rewrite Hx.
Qed.

Lemma drop_digits ds rest :
  Forall (fun x => isdigit x = true) ds -> (forall c, head rest = Some c -> isdigit c = false) ->
  drop_lead isdigit (ds ++ rest) = rest.
Proof.
  intros Hd Hr. induction Hd as [|x ds Hx _ IH]; simpl; [by apply drop_lead_id|]. by rewrite Hx.
Qed.

(** A printed number reads back, and the scan ends behind it. *)
Lemma dm_strtoull_dec n rest :
  1 <= n < 2 ^ 63 -> (forall c, head rest = Some c -> isdigit c = false) ->
  dm_strtoull (dec_of n ++ rest) = (n, rest).
Proof.
  intros Hn Hr. destruct (dec_of_digits n ltac:(lia)) as (Hd & V & Hne).
  unfold dm_strtoull, scan_int, scan_end. destruct (dec_of n) as [|x ds] eqn:E; [done|].
  pose proof Hd as Hd'. apply Forall_cons in Hd as [Hx _]. cbn [app drop_lead].
  rewrite (isdigit_not_space _ Hx). destruct (isdigit_not_sign _ Hx) as [H1' H2'].
  rewrite (bool_decide_eq_false_2 _ H1'), (bool_decide_eq_false_2 _ H2'). cbn [orb]. rewrite Hx.
  pose proof (digits_val_stop (x :: ds) 0 rest Hd' Hr) as X. cbn [app] in X. rewrite X, V.
  pose proof (drop_digits (x :: ds) rest Hd' Hr) as Y. cbn [app] in Y. rewrite Y.
  rewrite (proj2 (Z.ltb_ge n 0)), (proj2 (Z.ltb_ge (2 ^ 63 - 1) n)) by lia. done.
Qed.

Lemma print_bound_head b : bound_ok b -> exists c s, print_bound b = c :: s /\ c <> COLON /\
  (c = STAR <-> b = BStar).
Proof.
  destruct b as [n|]; simpl; intros Hn; [|by exists STAR, []].
  destruct (dec_of_digits n ltac:(lia)) as (Hd & _ & Hne). destruct (dec_of n) as [|x s]; [done|].
  apply Forall_cons in Hd as [Hx _]. exists x, s. split; [done|]. split; [by intros ->|]. split; [by intros ->|done].
Qed.

Lemma part_bounds_print p by_uid lo hi :
  part_ok p -> 1 <= hi -> (by_uid = true \/ lo = 1) ->
  part_bounds (print_part p) by_uid lo hi =
    Some (bound_value hi p.1, bound_value hi (default p.1 p.2)).
Proof.
  intros [Hl Hr] Hhi Hlo. destruct p as [l r]. cbn [fst snd] in *. unfold part_bounds, print_part. cbn [fst snd].
  set (rest := match r with Some b => COLON :: print_bound b | None => [] end).
  assert (forall c, head rest = Some c -> isdigit c = false) as Hd by (destruct r; [by intros c [= <-]|done]).
  destruct (print_bound_head l Hl) as (c & s & Es & Hc & Hstar).
  assert (exists rest', first_bound (print_bound l ++ rest) by_uid lo hi = Some (bound_value hi l, rest') /\
    (rest' = rest \/ (r = None /\ starts COLON rest' = false))) as (rest' & -> & Hrest).
  { destruct l as [n|]; cbn [print_bound bound_value bound_ok] in *.
    - unfold first_bound. rewrite Es. unfold starts at 1. cbn [app head]. rewrite bool_decide_eq_false_2 by (intros [= ->]; discriminate (proj1 Hstar eq_refl)).
      change (c :: s ++ rest) with ((c :: s) ++ rest). rewrite <- Es, (dm_strtoull_dec n rest Hl Hd).
      rewrite (proj2 (Z.eqb_neq n 0)) by lia. exists rest. split; [|by left]. do 2 f_equal.
      destruct by_uid; [done|]. destruct Hlo as [?| ->]; [done|]. destruct (n =? OUTLOOK_STAR); lia.
    - unfold first_bound. cbn [app]. change (starts STAR (STAR :: rest)) with true. cbv iota. destruct r as [b|].
      + exists rest. split; [|by left]. subst rest. cbn [length tail]. by rewrite bool_decide_eq_true_2 by lia.
      + exists [STAR]. split; [done|]. by right. }
  cbn [mbind option_bind]. destruct r as [b|].
  2:{ destruct Hrest as [->|[_ ->]]; done. }
  destruct Hrest as [->|[? _]]; [|done]. subst rest. change (starts COLON (COLON :: print_bound b)) with true. cbv iota.
  cbn [length tail default]. destruct (print_bound_head b Hr) as (c' & s' & Es' & _ & Hstar').
  rewrite bool_decide_eq_true_2 by (rewrite Es'; simpl; lia).
  destruct b as [n|]; [|done]. unfold starts. rewrite Es'. cbn [head].
  rewrite bool_decide_eq_false_2 by (intros [= ->]; discriminate (proj1 Hstar' eq_refl)).
  rewrite <- Es'. cbn [print_bound bound_value bound_ok] in *. pose proof (dm_strtoull_dec n [] Hr) as X. rewrite app_nil_r in X.
  rewrite X by done. cbn [fst]. by rewrite (proj2 (Z.eqb_neq n 0)) by lia.
Qed.

(** The entry (UID, sequence number) of an element of the walk. *)
Definition entry (by_uid : bool) (kv : Z * Z) : Z * Z := if by_uid then kv else (kv.2, kv.1).

(** The walk over a range enters the elements in the range and no others. *)
Lemma filter_range_lookup items mn mx by_uid a u :
  StronglySorted Z.lt items.*1 ->
  (exists kv, kv ∈ items /\ mn <= kv.1 <= mx /\ (entry by_uid kv).1 = u /\
     g_tree_lookup (filter_range items mn mx by_uid a) u = Some (entry by_uid kv).2) \/
  ((forall kv, kv ∈ items -> mn <= kv.1 <= mx -> (entry by_uid kv).1 <> u) /\
   g_tree_lookup (filter_range items mn mx by_uid a) u = g_tree_lookup a u).
Proof.
  intros Hs. revert a. induction items as [|[k v] items IH]; intros a; cbn [filter_range].
  { right. split; [|done]. by intros kv ?%elem_of_nil. }
  rewrite fmap_cons in Hs. apply StronglySorted_inv in Hs as [Hs Hf]. specialize (IH Hs).
  destruct (k <? mn) eqn:E1; [|destruct (mx <? k) eqn:E2]; to_prop.
  - destruct (IH a) as [(kv & X1 & X2)|[X1 X2]].
    + left. exists kv. split; [by right|done].
    + right. split; [|done]. intros kv Hin Hr. apply elem_of_cons in Hin as [->|Hin]; [simpl in Hr; lia|by apply X1].
  - right. split; [|done]. intros kv Hin Hr. apply elem_of_cons in Hin as [->|Hin]; [simpl in Hr; lia|].
    exfalso. rewrite Forall_fmap, Forall_forall in Hf. specialize (Hf _ Hin). simpl in Hf. lia.
  - set (a' := if by_uid then _ else _).
    assert (g_tree_lookup a' u = if decide ((entry by_uid (k, v)).1 = u) then Some (entry by_uid (k, v)).2
                                 else g_tree_lookup a u) as Ea.
    { subst a'. destruct by_uid; apply g_tree_lookup_insert_case. }
    destruct (IH a') as [(kv & X1 & X2)|[X1 X2]].
    + left. exists kv. split; [by right|done].
    + rewrite Ea in X2. case_decide as Eu.
      * left. exists (k, v). split; [left|]. split; [simpl; lia|done].
      * right. split; [|done]. intros kv Hin Hr. apply elem_of_cons in Hin as [->|Hin]; [done|by apply X1].
Qed.

(** The two trees of a consistent state are inverse to each other. *)
Definition inverse M : Prop :=
  forall u m, g_tree_lookup (ids M) u = Some m <-> g_tree_lookup (msn M) m = Some u.
Lemma consistent_inverse M : consistent M -> inverse M.
Proof. intros [N1 N2] u m. by rewrite N1, N2. Qed.

Definition inset M (by_uid : bool) : gtree Z := if by_uid then ids M else msn M.
Definition key_of (by_uid : bool) (u m : Z) : Z := if by_uid then u else m.

Lemma inset_elem M by_uid kv : inverse M -> kv ∈ g_tree_traverse (inset M by_uid) <->
  g_tree_lookup (ids M) (entry by_uid kv).1 = Some (entry by_uid kv).2.
Proof.
  intros Hi. destruct kv as [k v]. rewrite g_tree_traverse_elem. unfold inset, entry. destruct by_uid; simpl; [done|].
  symmetry. apply Hi.
Qed.

(** A range of a consistent state, entered into a tree. *)
Lemma find_range_lookup M by_uid mn mx a u :
  inverse M ->
  g_tree_lookup (find_range (inset M by_uid) mn mx a by_uid) u =
    match g_tree_lookup (ids M) u with
    | Some m => if (mn <=? key_of by_uid u m) && (key_of by_uid u m <=? mx) then Some m else g_tree_lookup a u
    | None => g_tree_lookup a u
    end.
Proof.
  intros Hi. unfold find_range.
  destruct (filter_range_lookup (g_tree_traverse (inset M by_uid)) mn mx by_uid a u (g_tree_traverse_sorted _))
    as [(kv & Hin & Hr & Hu & ->)|[Hn ->]].
  - apply (inset_elem M by_uid kv Hi) in Hin. rewrite Hu in Hin. rewrite Hin.
    assert (key_of by_uid u (entry by_uid kv).2 = kv.1) as -> by (destruct by_uid; done).
    by rewrite (proj2 (Z.leb_le mn kv.1)), (proj2 (Z.leb_le kv.1 mx)) by lia.
  - destruct (g_tree_lookup (ids M) u) as [m|] eqn:E; [|done].
    destruct ((mn <=? _) && _) eqn:Er; [|done]. to_prop. exfalso.
    apply (Hn (if by_uid then (u, m) else (m, u))).
    + apply (inset_elem M by_uid _ Hi). by destruct by_uid.
    + destruct by_uid; simpl in *; lia.
    + by destruct by_uid.
Qed.

Lemma move_keys_sub (ab : gtree Z * gtree Z) ks j v :
  g_tree_lookup (foldl move_key ab ks).2 j = Some v -> g_tree_lookup ab.2 j = Some v.
Proof.
  revert ab. induction ks as [|k ks IH]; intros ab; cbn [foldl]; [done|]. intros E. apply IH in E.
  destruct (decide (k = j)) as [->|Hne]; [|by rewrite (proj2 (move_key_ne ab k j Hne)) in E].
  destruct ab as [a b]. simpl in *. destruct (g_tree_lookup b j) eqn:Eb; simpl in E; [|congruence].
  by rewrite g_tree_lookup_remove in E.
Qed.

(** What a set of parts selects. *)
Definition selected M (by_uid : bool) (hi : Z) (ps : list set_part) (u : Z) : option Z :=
  m ← g_tree_lookup (ids M) u; if covered hi (key_of by_uid u m) ps then Some m else None.

Lemma print_part_cons p : part_ok p -> exists c s, print_part p = c :: s.
Proof.
  intros [Hl _]. destruct (print_bound_head p.1 Hl) as (c & s & E & _). unfold print_part. rewrite E.
  by eexists _, _.
Qed.

Lemma set_loop_selected M by_uid lo hi next ps qs a b :
  inverse M -> g_tree_nnodes (inset M by_uid) <> 0%nat -> 1 <= hi -> (by_uid = true \/ lo = 1) ->
  Forall part_ok ps ->
  (forall u, g_tree_lookup b u = selected M by_uid hi qs u) ->
  (forall u m, g_tree_lookup a u = Some m -> g_tree_lookup b u = Some m) ->
  exists t, set_loop (print_part <$> ps) (inset M by_uid) by_uid lo hi next a b = Some t /\
    forall u, g_tree_lookup t u = selected M by_uid hi (qs ++ ps) u.
Proof.
  intros Hi Hn Hhi Hlo Hps. revert qs a b. induction Hps as [|p ps Hp Hps IH]; intros qs a b Hb Ha.
  { exists b. by rewrite app_nil_r. }
  rewrite fmap_cons. destruct (print_part_cons p Hp) as (c & s & Ep). cbn [set_loop]. rewrite Ep. rewrite <- Ep.
  rewrite bool_decide_eq_false_2 by done. rewrite (part_bounds_print p by_uid lo hi Hp Hhi Hlo). cbn [mbind option_bind].
  set (l := bound_value hi p.1). set (r := bound_value hi (default p.1 p.2)).
  assert (l <> 0 /\ r <> 0) as [Hl Hr].
  { destruct p as [pl pr], Hp as [Ol Or]. subst l r. cbn [fst snd] in *. split.
    - destruct pl as [n|]; simpl in *; [destruct (_ =? _)|]; lia.
    - destruct pr as [[n|]|]; simpl in *; try (destruct (_ =? _); lia); try lia.
      destruct pl as [n|]; simpl in *; [destruct (_ =? _)|]; lia. }
  rewrite (proj2 (Z.eqb_neq l 0) Hl), (proj2 (Z.eqb_neq r 0) Hr). cbn [orb].
  set (a1 := find_range (inset M by_uid) (Z.min l r) (Z.max l r) a by_uid).
  pose proof (fun u => g_tree_merge_lookup b a1 IST_SUBSEARCH_OR u) as Hm.
  assert (forall u m, g_tree_lookup (g_tree_merge b a1 IST_SUBSEARCH_OR).2 u = Some m -> g_tree_lookup a1 u = Some m) as Hsub.
  { intros u m. cbn [g_tree_merge]. case_bool_decide; [apply move_keys_sub|done]. }
  destruct (g_tree_merge b a1 IST_SUBSEARCH_OR) as [b2 a2]. cbn [fst snd] in *.
  assert (forall u, g_tree_lookup b2 u = selected M by_uid hi (qs ++ [p]) u) as Hb2.
  { intros u. rewrite Hm, Hb. subst a1. rewrite (find_range_lookup M by_uid _ _ a u Hi). unfold selected, covered.
    destruct (g_tree_lookup (ids M) u) as [m|] eqn:Eu; simpl.
    - rewrite existsb_app. simpl. rewrite orb_false_r.
      change (in_part hi (key_of by_uid u m) p) with
        ((Z.min l r <=? key_of by_uid u m) && (key_of by_uid u m <=? Z.max l r)).
      destruct (existsb _ qs) eqn:Eq; simpl; [done|]. destruct (_ && _) eqn:Er; [done|].
      destruct (g_tree_lookup a u) as [x|] eqn:Ea; [|done]. apply Ha in Ea. rewrite Hb in Ea. unfold selected, covered in Ea.
      rewrite Eu in Ea. simpl in Ea. by rewrite Eq in Ea.
    - destruct (g_tree_lookup a u) as [x|] eqn:Ea; [|done]. apply Ha in Ea. rewrite Hb in Ea. unfold selected in Ea.
      by rewrite Eu in Ea. }
  destruct (IH (qs ++ [p]) a2 b2 Hb2) as (t & Et & Ht).
  - intros u m E2. apply Hsub in E2. rewrite Hm. rewrite E2. destruct (g_tree_lookup b u) as [x|] eqn:Eb; [|done].
    simpl. rewrite Hb in Eb. subst a1. rewrite (find_range_lookup M by_uid _ _ a u Hi) in E2. unfold selected in Eb.
    destruct (g_tree_lookup (ids M) u) as [y|] eqn:Eu; [|done]. simpl in Eb. destruct (covered _ _ _); [|done].
    simplify_eq. destruct (_ && _); [done|]. apply Ha in E2. rewrite Hb in E2. unfold selected in E2. rewrite Eu in E2.
    simpl in E2. destruct (covered _ _ _); [done|done].
  - exists t. split; [exact Et|]. intros u. by rewrite Ht, <- app_assoc.
Qed.

(** The parts come back from the printed set. *)
Lemma g_strsplit_join (l : list cstr) (c : ascii) :
  l <> [] -> Forall (fun s => s <> [] /\ c ∉ s) l -> g_strsplit (g_list_join [c] l) c = l.
Proof.
  intros Hne Hl. rewrite g_list_join_concat. destruct Hl as [|x l [Hx Hc] Hl]; [done|]. clear Hne. revert x Hx Hc.
  induction Hl as [|y l [Hy Hcy] Hl IH]; intros x Hx Hc; simpl.
  - rewrite app_nil_r. by apply g_strsplit_none.
  - rewrite g_strsplit_cons; [|done|by destruct y]. f_equal. by apply IH.
Qed.

Lemma print_part_comma p : part_ok p -> ","%char ∉ print_part p.
Proof.
  assert (forall b, bound_ok b -> ","%char ∉ print_bound b) as Hb.
  { intros [n|] Hn; simpl in *; [|by intros [?|?%elem_of_nil]%elem_of_cons].
    destruct (dec_of_digits n ltac:(lia)) as (Hd & _ & _). rewrite Forall_forall in Hd. by intros Hin%Hd. }
  intros [Hl Hr]. unfold print_part. rewrite elem_of_app. intros [Hin|Hin]; [by apply Hb in Hin|].
  destruct (p.2) as [b|]; [|by apply elem_of_nil in Hin].
  apply elem_of_cons in Hin as [?|Hin]; [done|by apply Hb in Hin].
Qed.

(** The value of the star. *)
Definition star_value M (by_uid : bool) : Z :=
  if by_uid then default 0 (last (g_tree_keys (ids M))) else (MailboxState_getExists M).2.

Lemma star_positive M by_uid :
  g_tree_nnodes (ids M) <> 0%nat -> (forall u m, g_tree_lookup (ids M) u = Some m -> 0 < u) ->
  0 <= exists_ M < 2 ^ 31 -> 1 <= star_value M by_uid.
Proof.
  intros Hn Hpos He. unfold star_value. destruct by_uid.
  - unfold g_tree_nnodes in Hn. destruct (last (g_tree_keys (ids M))) as [u|] eqn:El.
    + assert (u ∈ g_tree_keys (ids M)) as Hin by (by apply last_Some_elem_of).
      apply g_tree_keys_elem in Hin as [m Hm]. apply Hpos in Hm. simpl. lia.
    + apply last_None in El. unfold g_tree_keys in El. apply (f_equal length) in El. rewrite length_fmap in El. done.
  - unfold MailboxState_getExists. rewrite to_int32_id by lia.
    destruct (_ <? _) eqn:E; simpl; to_prop; lia.
Qed.

Lemma inset_nodes M by_uid : inverse M -> g_tree_nnodes (ids M) <> 0%nat -> g_tree_nnodes (inset M by_uid) <> 0%nat.
Proof.
  intros Hi Hn. destruct by_uid; [done|]. simpl. rewrite g_tree_empty. intros He. apply Hn, g_tree_empty.
  intros u. destruct (g_tree_lookup (ids M) u) as [m|] eqn:E; [|done]. apply Hi in E. by rewrite He in E.
Qed.

Lemma getExists_trees M : ids (MailboxState_getExists M).1 = ids M /\ msn (MailboxState_getExists M).1 = msn M.
Proof. unfold MailboxState_getExists. by destruct (_ <? _). Qed.


End facts.

(** ** An example mailbox *)
#[local] Instance example_mailbox_db : MailboxDB := {|
  db_mailbox_seq _ := Some 5;
  db_mailbox_permission _ := Some IMAPPERM_READWRITE;
  db_get_mailbox_owner _ := (1, 7);
  db_acl_any _ _ := Some false;
  db_acl_flag _ _ _ := Some false;
|}.
Definition example_info (u st : Z) : MessageInfo := mkinfo u 0 st [0; 0; 0; 0; 0; 0] [] 0 11 (100 + u) (lit "2024-05-01 10:20:30") 0 0.
Definition example_state : MailboxState_T :=
  MailboxState_remap
    (mkstate 3 7 2 3 0 0 30 5 [] (list_to_map [(4, example_info 4 0); (9, example_info 9 2); (12, example_info 12 1); (20, example_info 20 0)] : gmap Z MessageInfo)
       ∅ ∅ ∅ [] false false true 0 0).

Lemma example_state_consistent : consistent example_state.
Proof. apply remap_consistent. Qed.

Lemma MailboxState_remap_numbers_witness :
  g_tree_lookup (ids example_state) 12 = Some 2 /\ g_tree_lookup (msn example_state) 3 = Some 20.
Proof.
  pose proof (MailboxState_remap_numbers
    (mkstate 3 7 2 3 0 0 30 5 [] (list_to_map [(4, example_info 4 0); (9, example_info 9 2); (12, example_info 12 1); (20, example_info 20 0)] : gmap Z MessageInfo)
       ∅ ∅ ∅ [] false false true 0 0)) as (_ & _ & T & I & _).
  split; [|apply I]; apply T; [exists 1%nat|exists 2%nat]; (split; [vm_compute; reflexivity|reflexivity]).
Defined.

Lemma MailboxState_removeUid_renumbers_witness :
  g_tree_lookup (ids (MailboxState_removeUid example_state 12).1) 20 = Some 2.
Proof.
  pose proof (MailboxState_removeUid_renumbers example_state 12 2 example_state_consistent
    ltac:(vm_compute; reflexivity)) as T.
  destruct (MailboxState_removeUid example_state 12) as [M' r]. destruct T as (_ & _ & _ & _ & T). cbn [fst].
  rewrite (T 20) by done. vm_compute. reflexivity.
Defined.


(** In an empty mailbox every set selects a message that is not there. *)
Definition empty_state : MailboxState_T :=
  MailboxState_remap (mkstate 3 7 2 0 0 0 30 5 [] ∅ ∅ ∅ ∅ [] false false true 0 0).
Lemma empty_mailbox_selects_one :
  g_tree_nnodes (ids empty_state) = 0%nat /\
  (fun t => g_tree_lookup t 1) <$> (MailboxState_get_set empty_state (lit "1:*") true).2 = Some (Some 30).
Proof. split; vm_compute; reflexivity. Qed.

(** A failed query on the access control table gives the owner every right, whatever the
    table says. *)
Lemma MailboxState_hasPermission_owner_failure (M : MailboxState_T) user right_flag :
  owner_id M = user -> user <> 0 -> db_acl_any user (mb_id M) = None ->
  (MailboxState_hasPermission M user right_flag).2 = 1.
Proof.
  intros <- Hu Hr. unfold MailboxState_hasPermission. rewrite (proj2 (Z.eqb_neq _ _) Hu). cbn [Z.leb Z.compare].
  by rewrite Z.eqb_refl, Hr.
Qed.

(** The next UID does not survive the deletion of every message: it falls back to 1 although
    the rows of the deleted messages are still there. *)
Lemma db_getmailbox_count_forgets_uidnext (M : MailboxState_T) u :
  mb_id M <> 0 ->
  uidnext (db_getmailbox_count M [mkcount u true false MESSAGE_STATUS_DELETE]) = 1.
Proof. intros Hm. unfold db_getmailbox_count. by rewrite (proj2 (Z.eqb_neq _ _) Hm). Qed.
