(* ===== verification/SearchKeys.v ===== *)
(** * dm_mailbox.c: the keys of a search

    SEARCH, SORT and THREAD turn their arguments into a tree of search keys
    ([dbmail_mailbox_build_imap_search]). The tree belongs to the mailbox: each command adds to
    it, at the node [self->search] points to. As every node is added as the last child, that
    node is always reached from the root through last children only; the tree is kept as the
    path to it, from the innermost node outwards, with the children each node has so far. *)
From S2P Require Import Prelude CLib GLib Tree MailboxState MiscText MiscDate Iconv SqlFragment.

Definition MAX_SEARCH_LEN : nat := 2048.
Definition MIME_FIELD_MAX : nat := 128.
Definition DEF_FRAGSIZE : nat := 256.
Definition BUFSIZE : nat := 255.

Inductive search_order := SEARCH_UNORDERED | SEARCH_SORTED | SEARCH_THREAD_ORDEREDSUBJECT | SEARCH_THREAD_REFERENCES.

Inductive search_type :=
  | IST_NONE            (** zeroed memory *)
  | IST_SET | IST_UIDSET | IST_FLAG | IST_KEYWORD | IST_UNKEYWORD | IST_SORT | IST_HDR
  | IST_HDRDATE_BEFORE | IST_HDRDATE_ON | IST_HDRDATE_SINCE | IST_IDATE | IST_DATA_BODY | IST_DATA_TEXT
  | IST_SIZE_LARGER | IST_SIZE_SMALLER
  | IST_SUB (condition : merge_condition).
#[export] Instance merge_condition_eq_dec : EqDecision merge_condition.
Proof. solve_decision. Defined.
#[export] Instance search_type_eq_dec : EqDecision search_type.
Proof. solve_decision. Defined.

(** A pointer to an argument: when the arguments are freed, it is not cleared. *)
Inductive argptr := NoArg | ArgText (t : cstr) | FreedArg.
Definition free_arg (a : argptr) : argptr := match a with NoArg => NoArg | _ => FreedArg end.

Section keys.
Context `{GTreeOps}.

Record search_key := mkkey {
  sk_type : search_type;
  sk_size : Z;
  table : cstr;
  sk_order : cstr;
  sk_search : cstr;
  hdrfld : cstr;
  sk_found : option (gtree Z);
  searched : bool;
  merged : bool;
}.
#[export] Instance search_key_settable : Settable search_key := fun r =>
  mkkey (sk_type r) (sk_size r) (table r) (sk_order r) (sk_search r) (hdrfld r) (sk_found r) (searched r) (merged r).
Definition key_zero : search_key := mkkey IST_NONE 0 [] [] [] [] None false false.

Inductive gnode := GNode (key : search_key) (children : list gnode).
Definition gkey (n : gnode) : search_key := let 'GNode k _ := n in k.
Definition gchildren (n : gnode) : list gnode := let 'GNode _ cs := n in cs.

(** ** The tree of a mailbox *)
Abbreviation cursor := (list (search_key * list gnode)).

Definition add_child (n : gnode) (c : cursor) : cursor :=
  match c with [] => [] | (k, cs) :: c => (k, cs ++ [n]) :: c end.
Definition append_search (value : search_key) (descend : bool) (c : cursor) : cursor :=
  match c with
  | [] => [(value, [])]
  | _ => if descend then (value, []) :: c else add_child (GNode value []) c
  end.
Definition pop_search (c : cursor) : cursor :=
  match c with
  | (k, cs) :: above => match above with [] => c | _ => add_child (GNode k cs) above end
  | [] => []
  end.
(** [g_node_get_root] *)
Fixpoint close_up (n : gnode) (c : cursor) : gnode :=
  match c with [] => n | (k, cs) :: c => close_up (GNode k (cs ++ [n])) c end.
Definition g_node_get_root (c : cursor) : option gnode :=
  match c with [] => None | (k, cs) :: c => Some (close_up (GNode k cs) c) end.
(** The path to the node at a depth, through last children. *)
Fixpoint open_at (depth : nat) (n : gnode) (above : cursor) : cursor :=
  let 'GNode k cs := n in
  match depth, last cs with
  | S depth, Some m => open_at depth m ((k, take (pred (length cs)) cs) :: above)
  | _, _ => (k, cs) :: above
  end.

(** What a mailbox keeps of its searches. *)
Record search_state := mksearch {
  ss_search : cursor;
  ss_charset : argptr;
  ss_found : option (gtree Z);
  ss_sorted : list Z;
}.
#[export] Instance search_state_settable : Settable search_state := fun r =>
  mksearch (ss_search r) (ss_charset r) (ss_found r) (ss_sorted r).
Definition search_new : search_state := mksearch [] NoArg None [].
End keys.
Abbreviation cursor := (list (search_key * list gnode)).

(** ** The monad of the parser

    An operation returns, or follows a NULL pointer or a pointer to freed memory; [NoFuel] is a
    recursion that is cut off. *)
Inductive pout (A : Type) := Done (x : A) | Undef | NoFuel.
Arguments Done {A} x.
Arguments Undef {A}.
Arguments NoFuel {A}.
#[export] Instance pout_ret : MRet pout := fun A x => Done x.
#[export] Instance pout_bind : MBind pout := fun A B k m => match m with Done x => k x | Undef => Undef | NoFuel => NoFuel end.
#[export] Instance pout_map : FMap pout := fun A B f m => match m with Done x => Done (f x) | Undef => Undef | NoFuel => NoFuel end.

Section parser.
Context `{GTreeOps} `{IconvLib} `{SqlConf}.

Record qstate := mkq {
  q_search : cursor;
  q_idx : nat;
  q_charset : argptr;
  q_modseq : Z;
  q_condstore : bool;
}.
#[export] Instance qstate_settable : Settable qstate := fun r =>
  mkq (q_search r) (q_idx r) (q_charset r) (q_modseq r) (q_condstore r).

Definition QM (A : Type) : Type := qstate -> pout (A * qstate).
#[export] Instance QM_ret : MRet QM := fun A x q => Done (x, q).
#[export] Instance QM_bind : MBind QM := fun A B k m q => '(x, q) ← m q; k x q.
Definition q_get : QM qstate := fun q => Done (q, q).
Definition q_upd (f : qstate -> qstate) : QM unit := fun q => Done (tt, f q).
Definition q_undef {A} : QM A := fun _ => Undef.
Definition q_nofuel {A} : QM A := fun _ => NoFuel.
Definition step_idx (n : nat) : QM unit := q_upd (fun q => q <| q_idx ::= Nat.add n |>).
Definition append_key (value : search_key) (descend : bool) : QM unit :=
  q_upd (fun q => q <| q_search ::= append_search value descend |>).
Definition pop_key : QM unit := q_upd (fun q => q <| q_search ::= pop_search |>).

(** ** The keywords *)
Fixpoint keyword_lookup {A} (l : list (string * A)) (key : cstr) : option A :=
  match l with [] => None | (k, x) :: l => if strcaseeq key (lit k) then Some x else keyword_lookup l key end.

Definition flag_keys : list (string * cstr) :=
  [("answered", lit "answered_flag=1"); ("deleted", lit "deleted_flag=1"); ("flagged", lit "flagged_flag=1");
   ("recent", lit "recent_flag=1"); ("seen", lit "seen_flag=1"); ("draft", lit "draft_flag=1");
   ("new", lit "(seen_flag=0 AND recent_flag=1)"); ("old", lit "recent_flag=0");
   ("unanswered", lit "answered_flag=0"); ("undeleted", lit "deleted_flag=0"); ("unflagged", lit "flagged_flag=0");
   ("unseen", lit "seen_flag=0"); ("undraft", lit "draft_flag=0")]%string.
Definition not_flag_keys : list (string * cstr) :=
  [("answered", lit "answered_flag=0"); ("deleted", lit "deleted_flag=0"); ("flagged", lit "flagged_flag=0");
   ("recent", lit "recent_flag=0"); ("seen", lit "seen_flag=0"); ("draft", lit "draft_flag=0");
   ("new", lit "(seen_flag=1 AND recent_flag=0)"); ("old", lit "recent_flag=1")]%string.
(** The keys with one text argument: their type and header field. *)
Definition text_keys : list (string * (search_type * cstr)) :=
  [("keyword", (IST_KEYWORD, [])); ("unkeyword", (IST_UNKEYWORD, []));
   ("bcc", (IST_HDR, lit "bcc")); ("cc", (IST_HDR, lit "cc")); ("from", (IST_HDR, lit "from")); ("to", (IST_HDR, lit "to"));
   ("subject", (IST_HDR, lit "subject"));
   ("sentbefore", (IST_HDRDATE_BEFORE, lit "datefield")); ("senton", (IST_HDRDATE_ON, lit "datefield"));
   ("sentsince", (IST_HDRDATE_SINCE, lit "datefield"));
   ("body", (IST_DATA_BODY, [])); ("text", (IST_DATA_TEXT, []))]%string.

Inductive key_kind :=
  | KAll | KUid | KFlag (cond : cstr) | KText (type : search_type) (field : cstr) | KHeader
  | KDate (cond : cstr -> cstr)          (** the condition for a date of SQL *)
  | KWithin (op : string) | KModseq | KSize (type : search_type)
  | KNot | KOr | KOpen | KClose | KSet | KCharset | KUnknown.

Definition internal_date : cstr := lit "p.internal_date".
Definition quoted (s : cstr) : cstr := lit "'" ++ s ++ lit "'".
Definition compare_date (op : string) (date : cstr) : cstr :=
  take (MAX_SEARCH_LEN - 2) (internal_date ++ lit op ++ quoted date).
Definition on_date (date : cstr) : cstr :=
  take (MAX_SEARCH_LEN - 2) (take (MIME_FIELD_MAX - 2) (TO_DATE internal_date) ++ lit " = " ++ quoted date).
Definition within_cond (op : string) (seconds : Z) : cstr :=
  take (MAX_SEARCH_LEN - 2) (internal_date ++ lit op ++ take (DEF_FRAGSIZE - 2) (WITHIN seconds)).

Definition other_keys : list (string * key_kind) :=
  [("header", KHeader); ("before", KDate (compare_date " < ")); ("on", KDate on_date);
   ("since", KDate (compare_date " > ")); ("older", KWithin " < "); ("younger", KWithin " > ");
   ("modseq", KModseq); ("larger", KSize IST_SIZE_LARGER); ("smaller", KSize IST_SIZE_SMALLER);
   ("not", KNot); ("or", KOr); ("(", KOpen); (")", KClose)]%string.

(** The tests of the chain of conditions. *)
Definition key_kind_of (key : cstr) : key_kind :=
  if strcaseeq key (lit "all") then KAll
  else if strcaseeq key (lit "uid") then KUid
  else match keyword_lookup flag_keys key with
  | Some cond => KFlag cond
  | None =>
    match keyword_lookup text_keys key with
    | Some (t, field) => KText t field
    | None =>
      match keyword_lookup other_keys key with
      | Some k => k
      | None => if check_msg_set key then KSet else if strcaseeq key (lit "charset") then KCharset else KUnknown
      end
    end
  end.

Definition search_text (s : cstr) : cstr := take (MAX_SEARCH_LEN - 1) s.
Definition typed_key (t : search_type) (text : cstr) : search_key := key_zero <| sk_type := t |> <| sk_search := search_text text |>.

(** [dm_strtoull] leaves [errno] set. *)
Definition strtoull_errno (s : cstr) : bool :=
  let '(neg, m) := scan_int s in
  let v := if neg then - m else m in
  (v <? 0) || (2 ^ 63 - 1 <? v).

(** ** The arguments *)
Section args.
Variable search_keys : list cstr.

Definition key_at (i : nat) : option cstr := search_keys !! i.
(** [p_string_str(search_keys[i])], which follows the pointer. *)
Definition need (i : nat) : QM cstr := match key_at i with Some k => mret k | None => q_undef end.

(** The charset, where it is looked at. *)
Definition charset_for (text : cstr) : QM (option cstr) :=
  q ← q_get;
  match q_charset q with
  | NoArg => mret None
  | ArgText t => mret (Some t)
  | FreedArg => if str_to_db_needs_charset text then q_undef else mret None
  end.

(** ** Sorting *)
Definition _append_join (join tbl : cstr) : cstr :=
  let tmp := take (BUFSIZE - 1) (lit "LEFT JOIN " ++ DBPFX ++ tbl ++ lit " ON m.physmessage_id=" ++ DBPFX ++ tbl ++ lit ".physmessage_id ") in
  take (MAX_SEARCH_LEN - 1) (join ++ tmp).
Definition _append_sort (ord field : cstr) (rev : bool) : cstr :=
  let tmp := take (BUFSIZE - 1) (field ++ (if rev then lit " DESC" else []) ++ lit ",") in
  take (MAX_SEARCH_LEN - 1) (ord ++ tmp).

(** The keys of SORT: the table that is joined, and the field. *)
Definition sort_keys : list (string * (option cstr * cstr)) :=
  [("arrival", (None, lit "internal_date")); ("size", (None, lit "messagesize"));
   ("from", (Some (lit "fromfield"), lit "fromfield")); ("subject", (Some (lit "subjectfield"), lit "sortfield"));
   ("cc", (Some (lit "ccfield"), lit "ccfield")); ("to", (Some (lit "tofield"), lit "tofield"));
   ("date", (Some (lit "datefield"), lit "sortfield"))]%string.
Definition charsets : list (string * unit) := [("utf-8", tt); ("us-ascii", tt); ("iso-8859-1", tt)]%string.
Definition is_charset (key : cstr) : bool := bool_decide (is_Some (keyword_lookup charsets key)).

(** One argument; the key it leaves, and the result. *)
Definition _handle_sort_args (value : search_key) : QM (search_key * Z) :=
  q ← q_get;
  match key_at (q_idx q) with
  | None => mret (value <| sk_type := IST_SORT |>, -1)
  | Some key =>
    let value := value <| sk_type := IST_SORT |> in
    let rev := strcaseeq key (lit "reverse") in
    key ← (if rev then step_idx 1;; need (S (q_idx q)) else mret key);
    match keyword_lookup sort_keys key with
    | Some (join, field) =>
        step_idx 1;;
        mret (value <| table ::= fun t => match join with Some j => _append_join t j | None => t end |>
                    <| sk_order ::= fun o => _append_sort o field rev |>, 0)
    | None =>
        if strcaseeq key (lit "(") || strcaseeq key (lit ")") then step_idx 1;; mret (value, 0)
        else if is_charset key then step_idx 1;; append_key value false;; mret (value, 1)
        else mret (value, -1)
    end
  end.
Fixpoint sort_loop (fuel : nat) (value : search_key) : QM Z :=
  match fuel with
  | 0%nat => q_nofuel
  | S fuel =>
      r ← _handle_sort_args value;
      q ← q_get;
      if (r.2 =? 0) && bool_decide (is_Some (key_at (q_idx q))) then sort_loop fuel r.1 else mret r.2
  end.

(** ** Searching *)
Definition set_search (value : search_key) : QM search_key :=
  step_idx 1;;
  q ← q_get;
  text ← need (q_idx q);
  charset ← charset_for text;
  step_idx 1;;
  mret (match dbmail_iconv_str_to_db (Some text) charset with
        | Some p => value <| sk_search := search_text p |>
        | None => value
        end).

(** The number behind MODSEQ, which may stand behind the name and type of an entry: how many
    arguments were looked at, and the number. *)
Definition modseq_value (idx : nat) : QM (nat * option Z) :=
  let number (t : cstr) := if bool_decide (scan_end t = t) then None else Some (dm_strtoull t).1 in
  t0 ← need idx;
  match number t0 with
  | Some z => mret (0%nat, Some z)
  | None =>
      _ ← need (S idx);
      t2 ← need (S (S idx));
      match number t2 with Some z => mret (2%nat, Some z) | None => mret (3%nat, None) end
  end.

(** A key that is complete is appended as a leaf, if it has a type. *)
Definition add_leaf (value : search_key) : QM Z :=
  (if bool_decide (sk_type value = IST_NONE) then mret tt else append_key value false);; mret 0.

(** The keys that read no other key; [None] are the others. *)
Definition handle_leaf (key : cstr) (idx : nat) (next : option cstr) : option (QM Z) :=
  match key_kind_of key with
  | KAll => Some (step_idx 1;; add_leaf (typed_key IST_UIDSET (lit "1:*")))
  | KUid => Some (
      match next with
      | Some set => if check_msg_set set then step_idx 2;; add_leaf (typed_key IST_UIDSET set) else mret (-1)
      | None => mret (-1)
      end)
  | KFlag cond => Some (step_idx 1;; add_leaf (typed_key IST_FLAG cond))
  | KText t field => Some (
      match next with
      | Some _ => v ← set_search (key_zero <| sk_type := t |> <| hdrfld := take (MIME_FIELD_MAX - 1) field |>); add_leaf v
      | None => mret (-1)
      end)
  | KHeader => Some (
      match next, key_at (idx + 2) with
      | Some hdr, Some text =>
          step_idx 3;;
          add_leaf ((typed_key IST_HDR text) <| hdrfld := take (MIME_FIELD_MAX - 1) (tolower <$> hdr) |>)
      | _, _ => mret (-1)
      end)
  | KDate cond => Some (
      match next with
      | Some date =>
          if check_date date then step_idx 2;; add_leaf (key_zero <| sk_type := IST_IDATE |> <| sk_search := cond (default [] (date_imap2sql date)) |>)
          else mret (-1)
      | None => mret (-1)
      end)
  | KWithin op => Some (
      match next with
      | Some t =>
          if strtoull_errno t then mret (-1)
          else step_idx 2;; add_leaf (key_zero <| sk_type := IST_IDATE |> <| sk_search := within_cond op (dm_strtoull t).1 |>)
      | None => mret (-1)
      end)
  | KModseq => Some (
      match next with
      | Some _ =>
          r ← modseq_value (idx + 1);
          step_idx (r.1 + 2);;
          match r.2 with
          | Some z => q_upd (fun q => q <| q_modseq := z |> <| q_condstore := true |>);; mret 0
          | None => mret (-1)
          end
      | None => mret (-1)
      end)
  | KSize t => Some (
      match next with
      | Some n => step_idx 2;; add_leaf (key_zero <| sk_type := t |> <| sk_size := strtoull n |>)
      | None => mret (-1)
      end)
  | KClose => Some (step_idx 1;; mret 1)
  | KSet => Some (step_idx 1;; add_leaf (typed_key IST_SET key))
  | KCharset => Some (
      match next with
      | Some t => step_idx 2;; q_upd (fun q => q <| q_charset := ArgText t |>);; mret 0
      | None => q_undef
      end)
  | KUnknown => Some (mret (-1))
  | KNot | KOr | KOpen => None
  end.

(** The set in front of a list of keys, or all messages. *)
Definition default_set : QM unit :=
  q ← q_get;
  match key_at (q_idx q) with
  | Some key =>
      if check_msg_set key then step_idx 1;; append_key (typed_key IST_SET key) false
      else append_key (typed_key IST_SET (lit "1:*")) false
  | None => q_undef
  end.

Definition sub_key (condition : merge_condition) : search_key := key_zero <| sk_type := IST_SUB condition |>.

(** The charset behind the algorithm of THREAD. *)
Definition thread_charset : QM bool :=
  step_idx 1;;
  q ← q_get;
  key ← need (q_idx q);
  if is_charset key then step_idx 1;; mret true else mret false.

(** The functions call each other. A result below 0 is an error, 1 is the end of a group. *)
Fixpoint _handle_search_args (fuel : nat) : QM Z :=
  match fuel with
  | 0%nat => q_nofuel
  | S fuel =>
    q ← q_get;
    let idx := q_idx q in
    match key_at idx with
    | None => mret 1
    | Some key =>
      match handle_leaf key idx (key_at (S idx)) with
      | Some m => m
      | None =>
        match key_kind_of key with
        | KNot =>
            match key_at (S idx) with
            | None => mret (-1)
            | Some nextkey =>
              match keyword_lookup not_flag_keys nextkey with
              | Some cond => step_idx 2;; add_leaf (typed_key IST_FLAG cond)
              | None =>
                step_idx 1;;
                append_key (sub_key IST_SUBSEARCH_NOT) true;;
                result ← _handle_search_args fuel;
                if result <? 0 then mret result else pop_key;; mret 0
              end
            end
        | KOr =>
            step_idx 1;;
            append_key (sub_key IST_SUBSEARCH_OR) true;;
            result ← _handle_search_args fuel;
            if result <? 0 then mret result
            else
              result ← _handle_search_args fuel;
              if result <? 0 then mret result else pop_key;; mret 0
        | _ =>
            step_idx 1;;
            append_key (sub_key IST_SUBSEARCH_AND) true;;
            build_while fuel;;
            pop_key;; mret 0
        end
      end
    end
  end
(** [while (dbmail_mailbox_build_imap_search(...) == 0);] *)
with build_while (fuel : nat) : QM unit :=
  match fuel with
  | 0%nat => q_nofuel
  | S fuel => result ← build_group fuel; if result =? 0 then build_while fuel else mret tt
  end
(** [dbmail_mailbox_build_imap_search] without an order. *)
with build_group (fuel : nat) : QM Z :=
  match fuel with
  | 0%nat => q_nofuel
  | S fuel =>
    q ← q_get;
    match key_at (q_idx q) with
    | None => mret 1
    | Some _ => default_set;; search_while fuel
    end
  end
(** [while (search_keys[*idx] && (result = _handle_search_args(...)) == 0);] *)
with search_while (fuel : nat) : QM Z :=
  match fuel with
  | 0%nat => q_nofuel
  | S fuel =>
    q ← q_get;
    match key_at (q_idx q) with
    | None => mret 0
    | Some _ => result ← _handle_search_args fuel; if result =? 0 then search_while fuel else mret result
    end
  end.

Definition parse_fuel : nat := 4 * length search_keys + 4.

(** The search behind the arguments of an order, whose result stays when nothing follows. *)
Definition search_behind (result : Z) : QM Z :=
  q ← q_get;
  match key_at (q_idx q) with None => mret result | Some _ => search_while parse_fuel end.
Definition dbmail_mailbox_build_imap_search (order : search_order) : QM Z :=
  q ← q_get;
  match key_at (q_idx q) with
  | None => mret 1
  | Some _ =>
    default_set;;
    match order with
    | SEARCH_SORTED => result ← sort_loop (S (length search_keys)) key_zero; search_behind result
    | SEARCH_THREAD_ORDEREDSUBJECT | SEARCH_THREAD_REFERENCES =>
        ok ← thread_charset;
        if ok : bool then search_behind 0 else mret (-1)
    | SEARCH_UNORDERED => search_behind 0
    end
  end.
End args.
End parser.
