(* ===== verification/SearchRun.v ===== *)
(** * dm_mailbox.c: running a search

    The message sets of a mailbox, the SQL statements of the search keys and the searches in
    the state of the mailbox, the three walks over the tree of search keys, the sort, and the
    texts of the results. The rows of the statements are answers of the class
    [SearchAnswers]. *)
From S2P Require Import Prelude CLib GLib Tree GListUtil MailboxState MiscText MiscDate Iconv SqlFragment SearchKeys.

(** ** Statements *)

(** The prepared statements of [mailbox_search] with their parameters. *)
Inductive search_stmt :=
  | SHdrDate (field : cstr) (op : string) (date : cstr)
  | SHdr (name : cstr) (pattern : cstr)
  | SText (pattern : cstr)
  | SBody (pattern : cstr)
  | SKeyword (keyword : cstr)
  | SIDate (cond : cstr)
  | SSize (op : string) (size : Z)
  | SOther (cond : cstr).

Section text.
Context `{SqlConf}.

Definition fragment (f : sql_fragment) : cstr := default [] (db_get_sql f).

(** The text that is prepared; [inset] restricts the messages. *)
Definition stmt_text (s : search_stmt) (inset : cstr) : cstr :=
  let headers := lit "SELECT message_idnr FROM " ++ DBPFX ++ lit "messages m LEFT JOIN " ++ DBPFX ++
    lit "header h USING (physmessage_id) LEFT JOIN " ++ DBPFX ++ lit "headername n ON h.headername_id = n.id LEFT JOIN " ++
    DBPFX ++ lit "headervalue v ON h.headervalue_id = v.id WHERE " in
  match s with
  | SHdrDate field op date =>
      headers ++ lit "m.mailbox_idnr=? AND m.status < ? " ++ inset ++ lit " AND n.headername = 'date' AND " ++
      field ++ SP :: lit op ++ SP :: date ++ lit " ORDER BY message_idnr"
  | SHdr name _ =>
      headers ++ lit "mailbox_idnr=? AND status < ? " ++ inset ++ lit " AND n.headername = '" ++ name ++
      lit "' AND v.headervalue " ++ fragment SQL_INSENSITIVE_LIKE ++ lit " ? ORDER BY message_idnr"
  | SText _ =>
      lit "SELECT DISTINCT m.message_idnr FROM " ++ DBPFX ++ lit "mimeparts k LEFT JOIN " ++ DBPFX ++
      lit "partlists l ON k.id=l.part_id LEFT JOIN " ++ DBPFX ++ lit "physmessage p ON l.physmessage_id=p.id LEFT JOIN " ++
      DBPFX ++ lit "header h ON h.physmessage_id=p.id LEFT JOIN " ++ DBPFX ++
      lit "headervalue v ON h.headervalue_id=v.id LEFT JOIN " ++ DBPFX ++
      lit "messages m ON m.physmessage_id=p.id WHERE m.mailbox_idnr = ? AND m.status < ? " ++ inset ++
      lit " AND (v.headervalue " ++ fragment SQL_INSENSITIVE_LIKE ++ lit " ? OR k.data " ++ fragment SQL_SENSITIVE_LIKE ++
      lit " ?) ORDER BY m.message_idnr"
  | SBody _ =>
      lit "SELECT DISTINCT m.message_idnr FROM " ++ DBPFX ++ lit "mimeparts p LEFT JOIN " ++ DBPFX ++
      lit "partlists l ON p.id=l.part_id LEFT JOIN " ++ DBPFX ++ lit "physmessage s ON l.physmessage_id=s.id LEFT JOIN " ++
      DBPFX ++ lit "messages m ON m.physmessage_id=s.id LEFT JOIN " ++ DBPFX ++
      lit "mailboxes b ON m.mailbox_idnr = b.mailbox_idnr WHERE b.mailbox_idnr=? AND m.status < ? " ++ inset ++
      lit " AND (l.part_key > 1 OR l.is_header=0) AND " ++ sql_printf SQL_ENCODE_ESCAPE [FS (lit "p.data")] ++ SP ::
      fragment SQL_SENSITIVE_LIKE ++ lit " ? ORDER BY m.message_idnr"
  | SKeyword _ =>
      lit "SELECT m.message_idnr FROM " ++ DBPFX ++ lit "messages m JOIN " ++ DBPFX ++
      lit "keywords k ON m.message_idnr=k.message_idnr WHERE mailbox_idnr=? AND status < ? " ++ inset ++
      lit " AND k.keyword = ? ORDER BY message_idnr"
  | SIDate cond =>
      lit "SELECT message_idnr FROM " ++ DBPFX ++ lit "messages m LEFT JOIN " ++ DBPFX ++
      lit "physmessage p ON m.physmessage_id=p.id WHERE mailbox_idnr = ? AND status < ? " ++ inset ++
      lit " AND " ++ cond ++ lit " ORDER BY message_idnr"
  | SSize op _ =>
      lit "SELECT m.message_idnr FROM " ++ DBPFX ++ lit "messages m LEFT JOIN " ++ DBPFX ++
      lit "physmessage p ON m.physmessage_id = p.id WHERE m.mailbox_idnr = ? AND m.status < ? " ++ inset ++
      lit " AND p.rfcsize " ++ lit op ++ lit " ? ORDER BY message_idnr"
  | SOther cond =>
      lit "SELECT message_idnr FROM " ++ DBPFX ++ lit "messages WHERE mailbox_idnr = ? AND status < ? AND " ++
      cond ++ lit " ORDER BY message_idnr"
  end.
Definition inset_text (ids : option (list Z)) : cstr :=
  match ids with Some l => lit "AND m.message_idnr IN (" ++ g_list_join_u64 (lit ",") l ++ lit ")" | None => [] end.
End text.

(** What the data base answers: rows, and whether they came without an exception. *)
Class SearchAnswers := {
  search_rows : Z -> search_stmt -> option (list Z) -> list Z * bool;     (** mailbox, statement, inset *)
  sort_rows : Z -> cstr -> cstr -> list Z * bool;                         (** mailbox, joins, order *)
  subject_roots : Z -> list (Z * cstr) * bool;
  subject_rows : Z -> list (Z * cstr) * bool;
}.
Class SearchConf := { mailbox_search_strategy : Z }.

(** ** Text *)
Definition p_ltrim (s seps : cstr) : cstr := drop_lead (in_set seps) s.
Definition p_rtrim (s seps : cstr) : cstr := drop_trail (in_set seps) s.
Definition p_trim (s seps : cstr) : cstr := p_ltrim (p_rtrim s seps) seps.

Fixpoint strcmp (a b : cstr) : comparison :=
  match a, b with
  | [], [] => Eq
  | [], _ => Lt
  | _, [] => Gt
  | x :: a, y :: b => match code x ?= code y with Eq => strcmp a b | c => c end
  end.

(** [snprintf(partial, DEF_FRAGSIZE - 1, "%%%s%%", s)] *)
Definition like_pattern (s : cstr) : cstr := take (DEF_FRAGSIZE - 2) ("%"%char :: s ++ ["%"%char]).

(** ** Trees *)
Section sets.
Context `{GTreeOps} `{GLibStr}.

Definition checkset (s : cstr) : bool := forallb (in_set (lit "0123456789:,*")) s.

(** The messages that were changed behind the sequence of the mailbox; the walk ends at a
    message that is not known. *)
Fixpoint modseq_removed (info : gtree MessageInfo) (modseq : Z) (keys : list Z) : list Z :=
  match keys with
  | [] => []
  | k :: keys =>
      match g_tree_lookup info k with
      | None => []
      | Some i => (if mi_seq i <=? modseq then [k] else []) ++ modseq_removed info modseq keys
      end
  end.
Definition find_modseq (modseq : Z) (M : MailboxState_T) (t : gtree Z) : gtree Z :=
  if modseq =? 0 then t
  else foldl g_tree_remove t (modseq_removed (msginfo M) modseq (g_tree_keys t)).

(** [dbmail_mailbox_get_set] for a mailbox with a state. *)
Definition mailbox_set (modseq : Z) (M : MailboxState_T) (set : cstr) (by_uid : bool) : MailboxState_T * option (gtree Z) :=
  if negb by_uid && bool_decide (g_tree_nnodes (ids M) = 0%nat) then (M, None)
  else if negb (checkset set) then (M, None)
  else let '(M, t) := MailboxState_get_set M set by_uid in (M, find_modseq modseq M <$> t).

(** [_found_tree_copy] for every pair; nothing is copied out of or into a NULL tree. *)
Definition copy_pairs (l : list (Z * Z)) (t : gtree Z) : gtree Z := foldl (fun t '(k, v) => g_tree_insert t k v) t l.
Definition found_tree_copy (from to : option (gtree Z)) : option (gtree Z) :=
  match from, to with Some f, Some t => Some (copy_pairs (g_tree_traverse f) t) | _, _ => to end.
(** [g_tree_merge] does nothing with a NULL tree. *)
Definition merge_trees (a b : option (gtree Z)) (c : merge_condition) : option (gtree Z) :=
  match a, b with Some a, Some b => Some (g_tree_merge a b c).1 | _, _ => a end.
End sets.

Section run.
Context `{GTreeOps} `{GLibStr} `{SqlConf} `{SearchAnswers} `{SearchConf}.

(** ** The messages as text *)

(** The UIDs or the sequence numbers of the messages that were found. *)
Definition shown_ids (by_uid : bool) (found : gtree Z) : list Z := if by_uid then g_tree_keys found else g_tree_values found.

(** The information of a message that is shown; a message that is not there is a NULL that is
    followed. *)
Definition shown_info (M : MailboxState_T) (by_uid : bool) (key : Z) : pout MessageInfo :=
  match (id ← (if by_uid then Some key else g_tree_lookup (msn M) key); g_tree_lookup (msginfo M) id) with
  | Some i => Done i
  | None => Undef
  end.
Fixpoint max_seq (M : MailboxState_T) (by_uid : bool) (maxseq : Z) (l : list Z) : pout Z :=
  match l with
  | [] => Done maxseq
  | k :: l => i ← shown_info M by_uid k; max_seq M by_uid (Z.max maxseq (mi_seq i)) l
  end.
Definition shown_seq (modseq : Z) (M : MailboxState_T) (by_uid : bool) (l : list Z) : pout Z :=
  if modseq =? 0 then Done 0 else max_seq M by_uid 0 l.

Definition nothing_found (found : option (gtree Z)) : bool :=
  match found with Some t => bool_decide (g_tree_nnodes t = 0%nat) | None => true end.

Definition dbmail_mailbox_imap_modseq_as_string (modseq : Z) (M : MailboxState_T) (by_uid : bool) (found : option (gtree Z)) : pout (option cstr) :=
  match found with
  | Some t =>
      if nothing_found found then Done None
      else
        maxseq ← shown_seq modseq M by_uid (shown_ids by_uid t);
        Done (Some (g_strchomp (if modseq =? 0 then [] else lit " (MODSEQ " ++ dec_of maxseq ++ lit ")")))
  | None => Done None
  end.
Definition dbmail_mailbox_ids_as_string (modseq : Z) (M : MailboxState_T) (by_uid : bool) (found : option (gtree Z)) (sep : cstr) : pout (option cstr) :=
  match found with
  | Some t =>
      if nothing_found found then Done None
      else
        let l := shown_ids by_uid t in
        _ ← shown_seq modseq M by_uid l;
        Done (Some (g_strchomp (g_list_join_u64 sep l)))
  | None => Done None
  end.
Definition dbmail_mailbox_sorted_as_string (by_uid : bool) (sorted : list Z) (found : option (gtree Z)) : option cstr :=
  match sorted with
  | [] => None
  | _ =>
      Some (g_strchomp (concat ((fun u => match (t ← found; g_tree_lookup t u) with
                                         | Some n => dec_of (if by_uid then u else n) ++ [SP]
                                         | None => []
                                         end) <$> sorted)))
  end.

(** ** One key *)

(** The condition on the date of a key, in the 30 bytes of [cond]. *)
Definition COND_SIZE : nat := 30.
Definition behind (c : ascii) (s : cstr) : option cstr := (fun i => drop (S i) s) <$> str_index s c.
Definition date_test (search : cstr) (t : option (comparison * cstr)) (oc : ascii * comparison) : pout (option (comparison * cstr)) :=
  match behind oc.1 search with
  | Some text => if bool_decide (COND_SIZE <= length text)%nat then Undef else Done (Some (oc.2, text))
  | None => Done t
  end.
Definition date_cond (search : cstr) : pout (option (comparison * cstr)) :=
  if bool_decide (strstr search internal_date = None) then Done None
  else
    t ← date_test search None (">"%char, Gt);
    t ← date_test search t ("="%char, Eq);
    t ← date_test search t ("<"%char, Lt);
    Done (match t with Some (c, text) => Some (c, p_trim text (lit " '><=")) | None => None end).

Definition flag_is (i : nat) (v : Z) (info : MessageInfo) : bool := flag info i =? v.
Definition state_tests : list (string * (MessageInfo -> bool)) :=
  [("answered_flag=1", flag_is IMAP_FLAG_ANSWERED 1); ("deleted_flag=1", flag_is IMAP_FLAG_DELETED 1);
   ("flagged_flag=1", flag_is IMAP_FLAG_FLAGGED 1); ("recent_flag=1", flag_is IMAP_FLAG_RECENT 1);
   ("seen_flag=1", flag_is IMAP_FLAG_SEEN 1); ("draft_flag=1", flag_is IMAP_FLAG_DRAFT 1);
   ("(seen_flag=0 AND recent_flag=1)", fun i => flag_is IMAP_FLAG_SEEN 0 i && flag_is IMAP_FLAG_RECENT 1 i);
   ("recent_flag=0", flag_is IMAP_FLAG_RECENT 0); ("answered_flag=0", flag_is IMAP_FLAG_ANSWERED 0);
   ("deleted_flag=0", flag_is IMAP_FLAG_DELETED 0); ("flagged_flag=0", flag_is IMAP_FLAG_FLAGGED 0);
   ("seen_flag=0", flag_is IMAP_FLAG_SEEN 0); ("draft_flag=0", flag_is IMAP_FLAG_DRAFT 0)]%string.
Fixpoint state_test (l : list (string * (MessageInfo -> bool))) (search : cstr) : option (MessageInfo -> bool) :=
  match l with [] => None | (s, f) :: l => if streq search (lit s) then Some f else state_test l search end.

(** How the state of the mailbox decides a key, if it does. *)
Definition key_test (s : search_key) : pout (option (MessageInfo -> bool)) :=
  d ← date_cond (sk_search s);
  Done (match sk_type s with
        | IST_SIZE_LARGER => Some (fun i => sk_size s <? mi_rfcsize i)
        | IST_SIZE_SMALLER => Some (fun i => mi_rfcsize i <? sk_size s)
        | _ =>
            match d with
            | Some (c, date) => Some (fun i => bool_decide (strcmp (mi_internaldate i) date = c))
            | None => state_test state_tests (sk_search s)
            end
        end).
(** The messages of the state that pass a test. *)
Fixpoint search_state_loop (M : MailboxState_T) (test : MessageInfo -> bool) (uids : list Z) (found : gtree Z) : pout (gtree Z) :=
  match uids with
  | [] => Done found
  | u :: uids =>
      match g_tree_lookup (msginfo M) u with
      | None => Undef
      | Some info => search_state_loop M test uids (if test info then g_tree_insert found u u else found)
      end
  end.

(** The statement of a key, and whether the messages found so far restrict it. *)
Definition date_op (t : search_type) : string :=
  match t with IST_HDRDATE_SINCE => ">=" | IST_HDRDATE_BEFORE => "<" | _ => "=" end%string.
Definition header_date (s : search_key) : search_stmt :=
  let date := default [] (date_imap2sql (sk_search s)) in
  let qs := take (DEF_FRAGSIZE - 2) (quoted date) in
  SHdrDate (take (DEF_FRAGSIZE - 2) (TO_DATE (hdrfld s))) (date_op (sk_type s)) (take (DEF_FRAGSIZE - 2) (TO_DATE qs)).
Definition key_stmt (s : search_key) : option (search_stmt * bool) :=
  match sk_type s with
  | IST_HDRDATE_ON | IST_HDRDATE_SINCE | IST_HDRDATE_BEFORE => Some (header_date s, true)
  | IST_HDR => Some (SHdr (hdrfld s) (like_pattern (sk_search s)), true)
  | IST_DATA_TEXT => Some (SText (like_pattern (sk_search s)), true)
  | IST_DATA_BODY => Some (SBody (like_pattern (sk_search s)), true)
  | IST_KEYWORD | IST_UNKEYWORD => Some (SKeyword (sk_search s), true)
  | t =>
      if mailbox_search_strategy =? 1 then
        Some (match t with
              | IST_IDATE => (SIDate (sk_search s), true)
              | IST_SIZE_LARGER => (SSize ">" (sk_size s), true)
              | IST_SIZE_SMALLER => (SSize "<" (sk_size s), true)
              | _ => (SOther (sk_search s), false)
              end)
      else if mailbox_search_strategy =? 2 then Some (SOther (sk_search s), false)
      else None
  end.
(** The keys that are always searched by a statement of their own. *)
Definition sql_only (t : search_type) : bool :=
  bool_decide (t ∈ [IST_HDRDATE_ON; IST_HDRDATE_SINCE; IST_HDRDATE_BEFORE; IST_HDR; IST_DATA_TEXT; IST_DATA_BODY;
                    IST_KEYWORD; IST_UNKEYWORD]).

(** The rows that are messages of the state. *)
Definition add_row (M : MailboxState_T) (found : gtree Z) (u : Z) : gtree Z :=
  match g_tree_lookup (ids M) u with Some n => g_tree_insert found u n | None => found end.
Definition row_tree (M : MailboxState_T) (rows : list Z) : gtree Z := foldl (add_row M) g_tree_new rows.
(** The messages that are not among those found. *)
Definition invert_tree (M : MailboxState_T) (found : gtree Z) : gtree Z :=
  foldl (fun t '(k, v) => if bool_decide (is_Some (g_tree_lookup found k)) then t else g_tree_insert t k v)
    g_tree_new (g_tree_traverse (ids M)).

(** The messages found so far, when there are at most 200. *)
Definition inset_of (modseq : Z) (M : MailboxState_T) (found : gtree Z) : pout (option (list Z)) :=
  if bool_decide (g_tree_nnodes found <= 200)%nat then
    if nothing_found (Some found) then Done None
    else _ ← shown_seq modseq M true (g_tree_keys found); Done (Some (g_tree_keys found))
  else Done None.

Definition run_stmt (id : Z) (M : MailboxState_T) (s : search_key) (inset : option (list Z)) : gtree Z :=
  match key_stmt s with
  | None => g_tree_new
  | Some (stmt, restricted) =>
      let '(rows, ok) := search_rows id stmt (if restricted then inset else None) in
      let t := row_tree M rows in
      if ok && bool_decide (sk_type s = IST_UNKEYWORD) then invert_tree M t else t
  end.

Definition mailbox_search (id modseq : Z) (M : MailboxState_T) (found : gtree Z) (s : search_key) : pout (gtree Z) :=
  inset ← inset_of modseq M found;
  if negb (sql_only (sk_type s)) && (mailbox_search_strategy =? 2) then
    test ← key_test s;
    match test with
    | Some f => search_state_loop M f (g_tree_keys (ids M)) g_tree_new
    | None => Done (run_stmt id M s inset)
    end
  else Done (run_stmt id M s inset).
End run.

(** ** Walks over the tree

    A function on nodes changes the keys it visits and a state; the nodes stay where they
    are. *)
Section walk.
Context `{GTreeOps} {S : Type}.

(** [g_node_children_foreach]: what the function answers is not looked at. *)
Fixpoint children_foreach (f : gnode -> S -> pout (gnode * S)) (l : list gnode) (s : S) : pout (list gnode * S) :=
  match l with
  | [] => Done ([], s)
  | n :: l => r ← f n s; rest ← children_foreach f l r.2; Done (r.1 :: rest.1, rest.2)
  end.
(** Until one answers TRUE. *)
Fixpoint until_stop (f : gnode -> S -> pout (gnode * bool * S)) (l : list gnode) (s : S) : pout (list gnode * bool * S) :=
  match l with
  | [] => Done ([], false, s)
  | n :: l =>
      r ← f n s;
      let '(n, stop, s) := r in
      if stop : bool then Done (n :: l, true, s)
      else rest ← until_stop f l s; let '(l, stop, s) := rest in Done (n :: l, stop, s)
  end.
Fixpoint height (n : gnode) : nat := let 'GNode _ cs := n in Datatypes.S (foldr Nat.max 0%nat (height <$> cs)).
(** [g_node_traverse] in pre-order: a visit may change the keys below the node. *)
Fixpoint pre_order (visit : gnode -> S -> pout (gnode * bool * S)) (h : nat) (n : gnode) (s : S) : pout (gnode * bool * S) :=
  match h with
  | 0%nat => NoFuel
  | Datatypes.S h =>
      r ← visit n s;
      let '(GNode k cs, stop, s) := r in
      if stop : bool then Done (GNode k cs, true, s)
      else rest ← until_stop (pre_order visit h) cs s; let '(cs, stop, s) := rest in Done (GNode k cs, stop, s)
  end.
Definition traverse (visit : gnode -> S -> pout (gnode * bool * S)) (n : gnode) (s : S) : pout (gnode * S) :=
  r ← pre_order visit (height n) n s; Done (r.1.1, r.2).
(** In level order to a depth of two: the key of the root, then those of its children. *)
Fixpoint visit_keys (visit : search_key -> S -> search_key * bool * S) (l : list gnode) (s : S) : list gnode * S :=
  match l with
  | [] => ([], s)
  | GNode c ds :: l =>
      let '(c, stop, s) := visit c s in
      if stop : bool then (GNode c ds :: l, s) else let '(l, s) := visit_keys visit l s in (GNode c ds :: l, s)
  end.
Definition traverse_top (visit : search_key -> S -> search_key * bool * S) (n : gnode) (s : S) : gnode * S :=
  let 'GNode k cs := n in
  let '(k, stop, s) := visit k s in
  if stop : bool then (GNode k cs, s) else let '(cs, s) := visit_keys visit cs s in (GNode k cs, s).
End walk.

Section search.
Context `{GTreeOps} `{GLibStr} `{SqlConf} `{SearchAnswers} `{SearchConf}.
Variables id modseq : Z.

(** The set of a key; [None] is no key of a set. *)
Definition set_of_key (M : MailboxState_T) (k : search_key) : option (MailboxState_T * option (gtree Z)) :=
  match sk_type k with
  | IST_SET => Some (mailbox_set modseq M (sk_search k) false)
  | IST_UIDSET => Some (mailbox_set modseq M (sk_search k) true)
  | _ => None
  end.

(** The sets of the upper two levels narrow the messages at once. *)
Definition _prescan_search (k : search_key) (s : MailboxState_T * gtree Z) : search_key * bool * (MailboxState_T * gtree Z) :=
  if searched k then (k, false, s)
  else
    match set_of_key s.1 k with
    | None => (k, false, s)
    | Some (M, None) => (k <| sk_found := None |>, true, (M, s.2))
    | Some (M, Some t) =>
        (k <| searched := true |> <| merged := true |> <| sk_found := None |>, false, (M, (g_tree_merge s.2 t IST_SUBSEARCH_AND).1))
    end.

(** The other keys are searched one by one; a group searches its own keys first. *)
Fixpoint _do_search (found : gtree Z) (n : gnode) (M : MailboxState_T) : pout (gnode * bool * MailboxState_T) :=
  let 'GNode k cs := n in
  if searched k then Done (n, false, M)
  else
    match sk_type k with
    | IST_SORT => Done (n, false, M)
    | IST_NONE => Done (n, true, M)
    | IST_SET | IST_UIDSET =>
        match set_of_key M k with
        | Some (M, Some t) => Done (GNode (k <| sk_found := Some t |> <| searched := true |>) cs, false, M)
        | Some (M, None) => Done (GNode (k <| sk_found := None |>) cs, true, M)
        | None => Done (n, true, M)
        end
    | IST_SUB _ =>
        r ← children_foreach (fun n M => r ← _do_search found n M; Done (r.1.1, r.2)) cs M;
        Done (GNode (k <| sk_found := Some g_tree_new |> <| searched := true |>) r.1, false, r.2)
    | _ =>
        t ← mailbox_search id modseq M found k;
        Done (GNode (k <| sk_found := Some t |> <| searched := true |>) cs, false, M)
    end.

(** What a key has found goes into the result, and is freed. *)
Definition merged_key (k : search_key) : search_key := k <| merged := true |> <| sk_found := None |>.
(** An operand of OR whose keys are merged, with what it has found. *)
Definition found_of (n : gnode) : option (gtree Z) := sk_found (gkey n).

Fixpoint _merge_search (n : gnode) (found : option (gtree Z)) : pout (gnode * option (gtree Z)) :=
  let 'GNode k cs := n in
  match sk_type k with
  | IST_SORT => Done (n, found)
  | t =>
    if merged k then Done (n, found)
    else
      match t with
      | IST_SUB IST_SUBSEARCH_AND =>
          r ← children_foreach _merge_search cs found;
          Done (GNode k r.1, r.2)
      | IST_SUB IST_SUBSEARCH_NOT =>
          r ← children_foreach _merge_search cs (found_tree_copy found (sk_found k));
          Done (GNode (merged_key k) r.1, merge_trees found r.2 IST_SUBSEARCH_NOT)
      | IST_SUB IST_SUBSEARCH_OR =>
          match cs with
          | GNode a xs :: GNode b ys :: rest =>
              x ← (if bool_decide (sk_type a = IST_SUB IST_SUBSEARCH_AND)
                   then children_foreach _merge_search xs (found_tree_copy found (sk_found a)) else Done (xs, sk_found a));
              y ← (if bool_decide (sk_type b = IST_SUB IST_SUBSEARCH_AND)
                   then children_foreach _merge_search ys (found_tree_copy found (sk_found b)) else Done (ys, sk_found b));
              let both := merge_trees (sk_found k) (merge_trees x.2 y.2 IST_SUBSEARCH_OR) IST_SUBSEARCH_OR in
              Done (GNode (merged_key k) (GNode (merged_key a) x.1 :: GNode (merged_key b) y.1 :: rest),
                    merge_trees found both IST_SUBSEARCH_AND)
          | _ => Undef
          end
      | _ => Done (GNode (merged_key k) cs, merge_trees found (sk_found k) IST_SUBSEARCH_AND)
      end
  end.

Definition merge_visit (n : gnode) (found : option (gtree Z)) : pout (gnode * bool * option (gtree Z)) :=
  r ← _merge_search n found; Done (r.1, false, r.2).

Definition dbmail_mailbox_search (M : MailboxState_T) (ss : search_state) : pout (MailboxState_T * search_state) :=
  match g_node_get_root (ss_search ss) with
  | None => Done (M, ss)
  | Some root =>
      let found := copy_pairs (g_tree_traverse (ids M)) g_tree_new in
      let '(root, (M, found)) := traverse_top _prescan_search root (M, found) in
      r ← traverse (_do_search found) root M;
      let '(root, M) := r in
      r ← traverse merge_visit root (Some found);
      Done (M, ss <| ss_search := open_at (pred (length (ss_search ss))) r.1 [] |> <| ss_found := r.2 |>)
  end.

(** ** Sorting *)

(** The rows that were found, each once; an exception ends the walk with the list reversed. *)
Definition sort_row (found : option (gtree Z)) (l : list Z) (tid : Z) : list Z :=
  if bool_decide (is_Some (t ← found; g_tree_lookup t tid)) && negb (bool_decide (tid ∈ l)) then tid :: l else l.
Definition _do_sort (found : option (gtree Z)) (n : gnode) (sorted : list Z) : pout (gnode * bool * list Z) :=
  let 'GNode k cs := n in
  if negb (bool_decide (sk_type k = IST_SORT)) || searched k then Done (n, false, sorted)
  else
    let '(rows, ok) := sort_rows id (table k) (sk_order k) in
    let l := foldl (sort_row found) [] rows in
    if ok : bool then Done (GNode (k <| searched := true |>) cs, false, reverse l) else Done (n, true, l).
Definition dbmail_mailbox_sort (ss : search_state) : pout search_state :=
  match g_node_get_root (ss_search ss) with
  | None => Done ss
  | Some root =>
      r ← traverse (_do_sort (ss_found ss)) root (ss_sorted ss);
      Done (ss <| ss_search := open_at (pred (length (ss_search ss))) r.1 [] |> <| ss_sorted := r.2 |>)
  end.

(** ** Threads by subject *)

(** A tree with the subjects in the order of [strcmp]. *)
Fixpoint subject_insert (subj : cstr) (v : list Z) (t : list (cstr * list Z)) : list (cstr * list Z) :=
  match t with
  | [] => [(subj, v)]
  | (s, w) :: t =>
      match strcmp subj s with
      | Lt => (subj, v) :: (s, w) :: t
      | Eq => (s, v) :: t
      | Gt => (s, w) :: subject_insert subj v t
      end
  end.
Fixpoint subject_lookup (subj : cstr) (t : list (cstr * list Z)) : option (list Z) :=
  match t with
  | [] => None
  | (s, w) :: t => match strcmp subj s with Lt => None | Eq => Some w | Gt => subject_lookup subj t end
  end.
Definition root_row (found : gtree Z) (t : list (cstr * list Z)) (row : Z * cstr) : list (cstr * list Z) :=
  if bool_decide (is_Some (g_tree_lookup found row.1)) then subject_insert row.2 [] t else t.
Definition thread_row (by_uid : bool) (found : gtree Z) (t : list (cstr * list Z)) (row : Z * cstr) : list (cstr * list Z) :=
  match g_tree_lookup found row.1 with
  | Some msn => subject_insert row.2 (default [] (subject_lookup row.2 t) ++ [if by_uid then row.1 else msn]) t
  | None => t
  end.
Definition _tree_foreach (sublist : list Z) : cstr :=
  let t := concat ((fun id => lit "(" ++ dec_of id ++ lit ")") <$> sublist) in
  if bool_decide (1 < length sublist)%nat then lit "(" ++ t ++ lit ")" else t.
(** No rows or an exception: no text. *)
Definition dbmail_mailbox_orderedsubject (by_uid : bool) (found : gtree Z) : option cstr :=
  let '(roots, ok) := subject_roots id in
  if negb ok || bool_decide (roots = []) then None
  else
    let '(rows, ok) := subject_rows id in
    if negb ok || bool_decide (rows = []) then None
    else
      let t := foldl (root_row found) [] roots in
      let t := foldl (thread_row by_uid found) t rows in
      Some (concat ((fun st => _tree_foreach st.2) <$> t)).
End search.
