(* ===== verification/SearchParse.v ===== *)
(** * The arguments of a search are read as they are meant

    The parser of search keys always comes to an end with the fuel it is given, more fuel
    changes nothing, and the printed form of a query is read as the tree of the query. *)
From S2P Require Import Prelude CLib GLib Tree MailboxState MiscText MiscDate Iconv SqlFragment SearchKeys.

Section facts.
Context `{GTreeOps} `{IconvLib} `{SqlConf}.
Variable keys : list cstr.
Implicit Types (st : qstate) (c : cursor).

(** ** Running the monad *)
Lemma q_bind_done {A B} (m : QM A) (k : A -> QM B) st x st' : m st = Done (x, st') -> (x ← m; k x) st = k x st'.
Proof. unfold mbind, QM_bind. by intros ->. Qed.
Lemma need_some i k st : key_at keys i = Some k -> need keys i st = Done (k, st).
Proof. unfold need. by intros ->. Qed.

(** Whatever a computation does, it does not go back among the arguments; [P] holds of what it
    returns. *)
Definition ends {A} (st : qstate) (P : A -> qstate -> Prop) (r : pout (A * qstate)) : Prop :=
  match r with Done (x, st') => (q_idx st <= q_idx st')%nat /\ P x st' | Undef => True | NoFuel => False end.
Definition ok_ends {A} (m : QM A) (P : qstate -> A -> qstate -> Prop) : Prop := forall st, ends st (P st) (m st).

Lemma ends_bind {A B} (m : QM A) (k : A -> QM B) st P Q :
  ends st P (m st) ->
  (forall x st', (q_idx st <= q_idx st')%nat -> P x st' -> ends st' Q (k x st')) ->
  ends st Q ((x ← m; k x) st).
Proof.
  unfold ends. destruct (m st) as [[x st']| |] eqn:E; [|unfold mbind, QM_bind; by rewrite E|done].
  intros [Hle HP] Hk. rewrite (q_bind_done _ _ _ _ _ E). specialize (Hk x st' Hle HP).
  destruct (k x st') as [[y st'']| |]; [|done..]. destruct Hk. split; [lia|done].
Qed.
Lemma ends_impl {A} st (P Q : A -> qstate -> Prop) r : ends st P r -> (forall x st', P x st' -> Q x st') -> ends st Q r.
Proof. unfold ends. destruct r as [[x st']| |]; naive_solver. Qed.
Lemma ends_ret {A} (x : A) st (P : A -> qstate -> Prop) : P x st -> ends st P ((mret x : QM A) st).
Proof. cbn. split; [lia|done]. Qed.
Lemma ends_upd f st (P : unit -> qstate -> Prop) : (q_idx st <= q_idx (f st))%nat -> P tt (f st) -> ends st P (q_upd f st).
Proof. by split. Qed.
Lemma ends_step n st (P : unit -> qstate -> Prop) : P tt (st <| q_idx ::= Nat.add n |>) -> ends st P (step_idx n st).
Proof. intros HP. apply ends_upd; [cbn; lia|done]. Qed.
Lemma ends_append v d st (P : unit -> qstate -> Prop) :
  P tt (st <| q_search ::= append_search v d |>) -> ends st P (append_key v d st).
Proof. by apply ends_upd. Qed.
Lemma ends_pop st (P : unit -> qstate -> Prop) : P tt (st <| q_search ::= pop_search |>) -> ends st P (pop_key st).
Proof. by apply ends_upd. Qed.
Lemma ends_get st (P : qstate -> qstate -> Prop) : P st st -> ends st P (q_get st).
Proof. cbn. split; [lia|done]. Qed.
Lemma ends_need i st (P : cstr -> qstate -> Prop) : (forall k, P k st) -> ends st P (need keys i st).
Proof. intros HP. unfold need. destruct (key_at keys i); [by apply ends_ret|done]. Qed.
Lemma ends_undef {A} st (P : A -> qstate -> Prop) : ends st P (q_undef st).
Proof. done. Qed.

(** A leaf that is read takes at least one argument. *)
Definition advances (st : qstate) (r : Z) (st' : qstate) : Prop := r = 0 -> (q_idx st < q_idx st')%nat.

Lemma ends_add_leaf v st st0 : (q_idx st0 < q_idx st)%nat -> ends st (advances st0) (add_leaf v st).
Proof.
  intros Hlt. unfold add_leaf. eapply (ends_bind _ _ _ (fun _ st' => q_idx st' = q_idx st)).
  - destruct (bool_decide _); [by apply ends_ret|by apply ends_append].
  - intros [] st' _ E. apply ends_ret. unfold advances. lia.
Qed.
Lemma ends_charset text st (P : option cstr -> qstate -> Prop) : (forall x, P x st) -> ends st P (charset_for text st).
Proof.
  intros HP. unfold charset_for. eapply ends_bind; [by apply ends_get with (P := fun q st' => q = st /\ st' = st)|].
  intros q st' _ [-> ->]. destruct (q_charset st); [by apply ends_ret..|]. destruct (str_to_db_needs_charset text); [done|by apply ends_ret].
Qed.
Lemma ends_set_search v st : ends st (fun _ st' => q_idx st' = S (S (q_idx st))) (set_search keys v st).
Proof.
  unfold set_search. eapply ends_bind; [by apply ends_step with (P := fun _ st' => st' = st <| q_idx ::= Nat.add 1 |>)|].
  intros [] st1 _ ->. eapply ends_bind; [by apply ends_get with (P := fun q st' => st' = st <| q_idx ::= Nat.add 1 |>)|].
  intros q st2 _ ->. eapply ends_bind; [by apply ends_need with (P := fun k st' => st' = st <| q_idx ::= Nat.add 1 |>)|].
  intros t st3 _ ->. eapply ends_bind; [by apply ends_charset with (P := fun k st' => st' = st <| q_idx ::= Nat.add 1 |>)|].
  intros cs st4 _ ->. eapply ends_bind; [by apply ends_step with (P := fun _ st' => q_idx st' = S (S (q_idx st)))|].
  intros [] st5 _ E. by apply ends_ret.
Qed.
Lemma ends_modseq i st : ends st (fun _ st' => st' = st) (modseq_value keys i st).
Proof.
  unfold modseq_value. eapply ends_bind; [by apply ends_need with (P := fun k st' => st' = st)|]. intros t st1 _ ->.
  cbv zeta. destruct (if bool_decide _ then _ else _); [by apply ends_ret|].
  eapply ends_bind; [by apply ends_need with (P := fun k st' => st' = st)|]. intros t1 st1 _ ->.
  eapply ends_bind; [by apply ends_need with (P := fun k st' => st' = st)|]. intros t2 st1 _ ->.
  destruct (if bool_decide _ then _ else _); by apply ends_ret.
Qed.

Lemma ends_step_leaf n v st : (0 < n)%nat -> ends st (advances st) ((step_idx n;; add_leaf v) st).
Proof.
  intros Hn. eapply ends_bind; [by apply ends_step with (P := fun _ st' => st' = st <| q_idx ::= Nat.add n |>)|].
  intros [] st' _ ->. apply ends_add_leaf. cbn. lia.
Qed.
Lemma ends_step_ret n r st : (0 < n)%nat -> ends st (advances st) ((step_idx n;; mret r) st).
Proof.
  intros Hn. eapply ends_bind; [by apply ends_step with (P := fun _ st' => st' = st <| q_idx ::= Nat.add n |>)|].
  intros [] st' _ ->. apply ends_ret. unfold advances. cbn. lia.
Qed.
Lemma ends_error st r : r <> 0 -> ends st (advances st) ((mret r : QM Z) st).
Proof. intros Hr. apply ends_ret. by intros ->. Qed.

Lemma handle_leaf_ends key next m st : handle_leaf keys key (q_idx st) next = Some m -> ends st (advances st) (m st).
Proof.
  unfold handle_leaf. intros E. destruct (key_kind_of key); try done; apply (inj Some) in E as <-.
  - apply ends_step_leaf; lia.
  - destruct next; [|by apply ends_error]. case_match; [apply ends_step_leaf; lia|by apply ends_error].
  - apply ends_step_leaf; lia.
  - destruct next; [|by apply ends_error]. eapply ends_bind; [apply ends_set_search|]. intros v st' _ E.
    apply ends_add_leaf. cbv beta in E. lia.
  - destruct next; [|by apply ends_error]. case_match; [apply ends_step_leaf; lia|by apply ends_error].
  - destruct next; [|by apply ends_error]. case_match; [apply ends_step_leaf; lia|by apply ends_error].
  - destruct next; [|by apply ends_error]. case_match; [by apply ends_error|apply ends_step_leaf; lia].
  - destruct next; [|by apply ends_error]. eapply ends_bind; [apply ends_modseq|]. intros [n z] st' _ ->. cbn [fst snd].
    eapply ends_bind; [by apply ends_step with (P := fun _ st' => (q_idx st < q_idx st')%nat); cbn; lia|].
    intros [] st' _ Hlt. destruct z; [|by apply ends_ret; unfold advances; lia].
    eapply ends_bind; [apply ends_upd with (P := fun _ st' => (q_idx st < q_idx st')%nat); done|].
    intros [] st'' _ Hlt'. by apply ends_ret; intros _.
  - destruct next; [|by apply ends_error]. apply ends_step_leaf; lia.
  - apply ends_step_ret; lia.
  - apply ends_step_leaf; lia.
  - destruct next; [|done]. eapply ends_bind; [by apply ends_step with (P := fun _ st' => (q_idx st < q_idx st')%nat); cbn; lia|].
    intros [] st' _ Hlt. eapply ends_bind; [apply ends_upd with (P := fun _ st' => (q_idx st < q_idx st')%nat); done|].
    intros [] st'' _ Hlt'. by apply ends_ret; intros _.
  - by apply ends_error.
Qed.

(** ** The fuel is enough *)
Definition rem st : nat := length keys - q_idx st.

Lemma key_at_some i k : key_at keys i = Some k -> (i < length keys)%nat.
Proof. apply lookup_lt_Some. Qed.

Lemma ends_default_set st : ends st (fun _ _ => True) (default_set keys st).
Proof.
  unfold default_set. eapply ends_bind; [by apply ends_get with (P := fun q st' => q = st')|]. intros q st' _ ->.
  destruct (key_at keys (q_idx st')); [|done]. destruct (check_msg_set _); [|by apply ends_append].
  eapply ends_bind; [by apply ends_step with (P := fun _ _ => True)|]. intros [] st'' _ _. by apply ends_append.
Qed.

(** A sub-key is one argument further. *)
Lemma ends_below {A} v (k : unit -> QM A) st P :
  (forall st', (q_idx st < q_idx st')%nat -> ends st' P (k tt st')) ->
  ends st P ((step_idx 1;; append_key v true;; k tt) st).
Proof.
  intros Hk. eapply ends_bind; [by apply ends_step with (P := fun _ st' => (q_idx st < q_idx st')%nat); cbn; lia|].
  intros [] st1 _ L1. eapply ends_bind; [apply ends_append with (P := fun _ st' => (q_idx st < q_idx st')%nat); exact L1|].
  intros [] st2 _ L2. by apply Hk.
Qed.
Lemma ends_pop_ret st st0 : (q_idx st0 < q_idx st)%nat -> ends st (advances st0) ((pop_key;; mret 0) st).
Proof.
  intros Hlt. eapply ends_bind; [apply ends_pop with (P := fun _ st' => (q_idx st0 < q_idx st')%nat); exact Hlt|].
  intros [] st' _ E. apply ends_ret. by intros _.
Qed.
(** The result of a sub-key: an error is passed on. *)
Lemma ends_result (m : QM Z) (k : QM Z) st st0 (P : Z -> qstate -> Prop) :
  ends st P (m st) ->
  (q_idx st0 < q_idx st)%nat ->
  (forall st', (q_idx st <= q_idx st')%nat -> ends st' (advances st0) (k st')) ->
  ends st (advances st0) ((result ← m; if result <? 0 then mret result else k) st).
Proof.
  intros Hm Hlt Hk. eapply ends_bind; [exact Hm|]. intros r st' Hle _. destruct (r <? 0) eqn:E.
  - apply ends_ret. unfold advances. lia.
  - by apply Hk.
Qed.

Lemma parser_ends n : forall st,
  ((4 * rem st + 1 <= n)%nat -> ends st (advances st) (_handle_search_args keys n st)) /\
  ((4 * rem st + 4 <= n)%nat -> ends st (fun _ _ => True) (build_while keys n st)) /\
  ((4 * rem st + 3 <= n)%nat -> ends st (fun r st' => r = 0 -> (0 < rem st)%nat /\ key_at keys (q_idx st') = None) (build_group keys n st)) /\
  ((4 * rem st + 2 <= n)%nat -> ends st (fun r st' => r = 0 -> key_at keys (q_idx st') = None) (search_while keys n st)).
Proof.
  induction n as [|n IH]; intros st; [split_and!; lia|].
  split_and!; intros Hn; cbn [_handle_search_args build_while build_group search_while].
  - eapply ends_bind; [by apply ends_get with (P := fun q st' => q = st /\ st' = st)|]. intros q st' _ [-> ->].
    cbv zeta. destruct (key_at keys (q_idx st)) as [key|] eqn:Ek; [|by apply ends_error].
    apply key_at_some in Ek.
    assert (forall st', (q_idx st < q_idx st')%nat -> (4 * rem st' + 4 <= n)%nat) as Hrem by (intros; unfold rem in *; lia).
    destruct (handle_leaf keys key (q_idx st) _) as [m|] eqn:El; [by eapply handle_leaf_ends|].
    destruct (key_kind_of key).
    all: try (eapply ends_bind; [apply ends_step with (P := fun _ st' => (q_idx st < q_idx st')%nat); cbn; lia|];
      intros [] st1 _ L1; eapply ends_bind; [apply ends_append with (P := fun _ st' => (q_idx st < q_idx st')%nat); exact L1|];
      intros [] st2 _ L2; eapply ends_bind; [apply IH; auto|]; intros [] st3 L3 _; apply ends_pop_ret; lia).
    + destruct (key_at keys (S (q_idx st))) as [nextkey|]; [|by apply ends_error].
      destruct (keyword_lookup not_flag_keys nextkey); [apply ends_step_leaf; lia|].
      apply (ends_below _ (fun _ => _)). intros st2 L2. eapply ends_result; [apply IH; specialize (Hrem st2 L2); lia|done|].
      intros st3 L3. apply ends_pop_ret. lia.
    + apply (ends_below _ (fun _ => _)). intros st2 L2. eapply ends_result; [apply IH; specialize (Hrem st2 L2); lia|done|].
      intros st3 L3. assert (q_idx st < q_idx st3)%nat as L3' by lia.
      eapply ends_result; [apply IH; specialize (Hrem st3 L3'); lia|done|]. intros st4 L4. apply ends_pop_ret. lia.
  - eapply ends_bind; [apply IH; lia|]. intros r st' Hle Hr. destruct (r =? 0) eqn:E; [|by apply ends_ret].
    apply Z.eqb_eq in E as ->. destruct (Hr eq_refl) as [Hpos Hnone]. apply lookup_ge_None in Hnone. apply IH. unfold rem in *. lia.
  - eapply ends_bind; [by apply ends_get with (P := fun q st' => q = st /\ st' = st)|]. intros q st' _ [-> ->].
    destruct (key_at keys (q_idx st)) as [key|] eqn:Ek; [|by apply ends_ret].
    apply key_at_some in Ek. eapply ends_bind; [apply ends_default_set|]. intros [] st1 L1 _.
    eapply ends_impl; [apply IH; unfold rem in *; lia|]. intros r st2 E Hr. split; [unfold rem; lia|auto].
  - eapply ends_bind; [by apply ends_get with (P := fun q st' => q = st /\ st' = st)|]. intros q st' _ [-> ->].
    destruct (key_at keys (q_idx st)) as [key|] eqn:Ek; [|by apply ends_ret].
    apply key_at_some in Ek. eapply ends_bind; [apply IH; lia|]. intros r st1 L1 Hr.
    destruct (r =? 0) eqn:E; [|apply ends_ret; lia]. apply Z.eqb_eq in E as ->. specialize (Hr eq_refl).
    apply IH. unfold rem in *. lia.
Qed.

(** ** More fuel changes nothing *)
Definition refines {A} (r r' : pout A) : Prop := r = NoFuel \/ r' = r.
Definition refines_m {A} (m m' : QM A) : Prop := forall st, refines (m st) (m' st).
Lemma refines_refl {A} (m : QM A) : refines_m m m.
Proof. intros st. by right. Qed.
Lemma refines_bind {A B} (m m' : QM A) (k k' : A -> QM B) :
  refines_m m m' -> (forall x, refines_m (k x) (k' x)) -> refines_m (x ← m; k x) (x ← m'; k' x).
Proof.
  intros Hm Hk st. unfold mbind, QM_bind. destruct (Hm st) as [->| ->]; [by left|].
  destruct (m st) as [[x st']| |]; [apply Hk|by right..].
Qed.
Lemma refines_if {A} (b : bool) (m m' k k' : QM A) : refines_m m m' -> refines_m k k' -> refines_m (if b then m else k) (if b then m' else k').
Proof. by destruct b. Qed.

Lemma fuel_more n : forall m, (n <= m)%nat ->
  refines_m (_handle_search_args keys n) (_handle_search_args keys m) /\
  refines_m (build_while keys n) (build_while keys m) /\
  refines_m (build_group keys n) (build_group keys m) /\
  refines_m (search_while keys n) (search_while keys m).
Proof.
  induction n as [|n IH]; intros m Hm; [by split_and!; left|]. destruct m as [|m]; [lia|].
  destruct (IH m ltac:(lia)) as (Rh & Rw & Rb & Rs).
  split_and!; cbn [_handle_search_args build_while build_group search_while].
  - apply refines_bind; [apply refines_refl|]. intros q. cbv zeta.
    destruct (key_at keys (q_idx q)) as [key|]; [|apply refines_refl].
    destruct (handle_leaf keys key (q_idx q) _); [apply refines_refl|].
    destruct (key_kind_of key).
    all: try (repeat (apply refines_bind; [by first [apply refines_refl|exact Rw]|intros ?]); apply refines_refl).
    + destruct (key_at keys (S (q_idx q))); [|apply refines_refl].
      destruct (keyword_lookup not_flag_keys _); [apply refines_refl|].
      repeat (apply refines_bind; [by first [apply refines_refl|exact Rh]|intros ?]). apply refines_if; apply refines_refl.
    + repeat (apply refines_bind; [by first [apply refines_refl|exact Rh]|intros ?]). apply refines_if; [apply refines_refl|].
      apply refines_bind; [exact Rh|intros ?; apply refines_refl].
  - apply refines_bind; [exact Rb|]. intros r. apply refines_if; [exact Rw|apply refines_refl].
  - apply refines_bind; [apply refines_refl|]. intros q. destruct (key_at keys (q_idx q)); [|apply refines_refl].
    apply refines_bind; [apply refines_refl|]. intros _. exact Rs.
  - apply refines_bind; [apply refines_refl|]. intros q. destruct (key_at keys (q_idx q)); [|apply refines_refl].
    apply refines_bind; [exact Rh|]. intros r. apply refines_if; [exact Rs|apply refines_refl].
Qed.

(** What some fuel computes is what [parse_fuel] computes. *)
Lemma search_while_fuel n st r : search_while keys n st = Done r -> search_while keys (parse_fuel keys) st = Done r.
Proof.
  intros E. destruct (fuel_more n (n `max` parse_fuel keys) ltac:(lia)) as (_ & _ & _ & [E1|E1]%(fun f => f st)); [congruence|].
  destruct (fuel_more (parse_fuel keys) (n `max` parse_fuel keys) ltac:(lia)) as (_ & _ & _ & [E2|E2]%(fun f => f st)); [|congruence].
  destruct (parser_ends (parse_fuel keys) st) as (_ & _ & _ & Hs). exfalso.
  assert (4 * rem st + 2 <= parse_fuel keys)%nat as Hf by (unfold rem, parse_fuel; lia). specialize (Hs Hf). by rewrite E2 in Hs.
Qed.

Lemma handle_sort_ends v st : ends st (fun r st' => advances st r.2 st') (_handle_sort_args keys v st).
Proof.
  unfold _handle_sort_args. eapply ends_bind; [by apply ends_get with (P := fun q st' => q = st /\ st' = st)|]. intros q st' _ [-> ->].
  destruct (key_at keys (q_idx st)) as [key|]; [|by apply ends_ret]. cbv zeta.
  eapply (ends_bind _ _ _ (fun _ _ => True)).
  { destruct (strcaseeq key _); [|by apply ends_ret]. eapply ends_bind; [by apply ends_step with (P := fun _ _ => True)|].
    intros [] st1 _ _. by apply ends_need. }
  intros key' st1 Hle _.
  destruct (keyword_lookup sort_keys key') as [[join field]|].
  { eapply ends_bind; [by apply ends_step with (P := fun _ st' => (q_idx st < q_idx st')%nat); cbn; lia|]. intros [] st2 _ Hlt.
    apply ends_ret. by intros _. }
  destruct (_ || _).
  { eapply ends_bind; [by apply ends_step with (P := fun _ st' => (q_idx st < q_idx st')%nat); cbn; lia|]. intros [] st2 _ Hlt.
    apply ends_ret. by intros _. }
  destruct (is_charset key'); [|by apply ends_ret].
  eapply ends_bind; [by apply ends_step with (P := fun _ _ => True)|]. intros [] st2 _ _.
  eapply ends_bind; [by apply ends_append with (P := fun _ _ => True)|]. intros [] st3 _ _. by apply ends_ret.
Qed.
Lemma sort_loop_ends n v st : (rem st < n)%nat -> ends st (fun _ _ => True) (sort_loop keys n v st).
Proof.
  revert v st. induction n as [|n IH]; intros v st Hn; [lia|]. cbn [sort_loop].
  eapply ends_bind; [apply handle_sort_ends|]. intros r st1 Hle Hr.
  eapply ends_bind; [by apply ends_get with (P := fun q st' => q = st1 /\ st' = st1)|]. intros q st' _ [-> ->].
  destruct (_ && _) eqn:E; [|by apply ends_ret]. apply andb_true_iff in E as [Ez Es].
  apply Z.eqb_eq in Ez. apply bool_decide_eq_true in Es as [k Hk]. apply key_at_some in Hk. specialize (Hr Ez).
  apply IH. unfold rem in *. lia.
Qed.
Lemma search_behind_ends r st : ends st (fun _ _ => True) (search_behind keys r st).
Proof.
  unfold search_behind. eapply ends_bind; [by apply ends_get with (P := fun q st' => q = st /\ st' = st)|]. intros q st' _ [-> ->].
  destruct (key_at keys (q_idx st)); [|by apply ends_ret]. eapply ends_impl; [apply parser_ends; unfold rem, parse_fuel; lia|done].
Qed.

(** The parser of SEARCH, SORT and THREAD ends for all arguments. *)
Lemma build_imap_search_ends order st : ends st (fun _ _ => True) (dbmail_mailbox_build_imap_search keys order st).
Proof.
  unfold dbmail_mailbox_build_imap_search.
  eapply ends_bind; [by apply ends_get with (P := fun q st' => q = st /\ st' = st)|]. intros q st' _ [-> ->].
  destruct (key_at keys (q_idx st)); [|by apply ends_ret].
  eapply ends_bind; [apply ends_default_set|]. intros [] st1 _ _.
  assert (ends st1 (fun _ _ => True) (((ok ← thread_charset keys; if ok : bool then search_behind keys 0 else mret (-1)) : QM Z) st1)) as Ht.
  { eapply (ends_bind _ _ _ (fun _ _ => True)).
    - unfold thread_charset. eapply ends_bind; [by apply ends_step with (P := fun _ _ => True)|]. intros [] st2 _ _.
      eapply ends_bind; [by apply ends_get with (P := fun _ _ => True)|]. intros q st3 _ _.
      eapply ends_bind; [by apply ends_need with (P := fun _ _ => True)|]. intros k st4 _ _.
      destruct (is_charset k); [|by apply ends_ret]. eapply ends_bind; [by apply ends_step with (P := fun _ _ => True)|].
      intros [] st5 _ _. by apply ends_ret.
    - intros [] st2 _ _; [apply search_behind_ends|by apply ends_ret]. }
  destruct order; try exact Ht; [apply search_behind_ends|].
  eapply ends_bind; [apply sort_loop_ends; unfold rem; lia|]. intros r st2 _ _. apply search_behind_ends.
Qed.
End facts.

(** ** Queries

    A query as a client means it. The tokens of a key are those of one search key, which is read
    as the given record. *)
Section queries.
Context `{GTreeOps} `{IconvLib} `{SqlConf}.

Inductive query :=
  | QKey (tokens : list cstr) (value : search_key)
  | QNot (q : query)
  | QOr (a b : query)
  | QGroup (set : option cstr) (l : list query).

Fixpoint tokens_of (q : query) : list cstr :=
  match q with
  | QKey tokens _ => tokens
  | QNot q => lit "NOT" :: tokens_of q
  | QOr a b => lit "OR" :: tokens_of a ++ tokens_of b
  | QGroup set l => lit "(" :: from_option (fun s => [s]) [] set ++ concat (tokens_of <$> l) ++ [lit ")"]
  end.

Definition set_key (set : option cstr) : search_key := typed_key IST_SET (default (lit "1:*") set).
Definition leaf (v : search_key) : gnode := GNode v [].
Fixpoint tree_of (q : query) : gnode :=
  match q with
  | QKey _ v => leaf v
  | QNot q => GNode (sub_key IST_SUBSEARCH_NOT) [tree_of q]
  | QOr a b => GNode (sub_key IST_SUBSEARCH_OR) [tree_of a; tree_of b]
  | QGroup set l => GNode (sub_key IST_SUBSEARCH_AND) (leaf (set_key set) :: (tree_of <$> l))
  end.

(** The keys of IMAP with their arguments. *)
Definition text_leaf (t : search_type) (field text : cstr) : search_key :=
  let v := key_zero <| sk_type := t |> <| hdrfld := take (MIME_FIELD_MAX - 1) field |> in
  match dbmail_iconv_str_to_db (Some text) None with Some p => v <| sk_search := search_text p |> | None => v end.
Inductive key_reads : list cstr -> search_key -> Prop :=
  | reads_all k : key_kind_of k = KAll -> key_reads [k] (typed_key IST_UIDSET (lit "1:*"))
  | reads_uid k set : key_kind_of k = KUid -> check_msg_set set = true -> key_reads [k; set] (typed_key IST_UIDSET set)
  | reads_set k : key_kind_of k = KSet -> key_reads [k] (typed_key IST_SET k)
  | reads_flag k cond : key_kind_of k = KFlag cond -> key_reads [k] (typed_key IST_FLAG cond)
  | reads_not_flag k n cond : key_kind_of k = KNot -> keyword_lookup not_flag_keys n = Some cond ->
      key_reads [k; n] (typed_key IST_FLAG cond)
  | reads_text k t field text : key_kind_of k = KText t field -> t <> IST_NONE -> str_to_db_needs_charset text = false ->
      key_reads [k; text] (text_leaf t field text)
  | reads_header k hdr text : key_kind_of k = KHeader ->
      key_reads [k; hdr; text] ((typed_key IST_HDR text) <| hdrfld := take (MIME_FIELD_MAX - 1) (tolower <$> hdr) |>)
  | reads_date k date cond : key_kind_of k = KDate cond -> check_date date = true ->
      key_reads [k; date] (key_zero <| sk_type := IST_IDATE |> <| sk_search := cond (default [] (date_imap2sql date)) |>)
  | reads_within k op t : key_kind_of k = KWithin op -> strtoull_errno t = false ->
      key_reads [k; t] (key_zero <| sk_type := IST_IDATE |> <| sk_search := within_cond op (dm_strtoull t).1 |>)
  | reads_size k t n : key_kind_of k = KSize t -> t <> IST_NONE ->
      key_reads [k; n] (key_zero <| sk_type := t |> <| sk_size := strtoull n |>).

(** What can be printed: NOT in front of a key that has no negation of its own, and a set in
    front of a group only as the set of the group. *)
Definition first_token (q : query) : cstr := default [] (head (tokens_of q)).
Fixpoint printable (q : query) : Prop :=
  match q with
  | QKey tokens v => key_reads tokens v
  | QNot q => keyword_lookup not_flag_keys (first_token q) = None /\ printable q
  | QOr a b => printable a /\ printable b
  | QGroup set l =>
      match set with
      | Some s => check_msg_set s = true
      | None => match l with q :: _ => check_msg_set (first_token q) = false | [] => True end
      end /\ foldr (fun q P => printable q /\ P) True l
  end.

Lemma query_ind' (P : query -> Prop) :
  (forall tokens v, P (QKey tokens v)) -> (forall q, P q -> P (QNot q)) ->
  (forall a b, P a -> P b -> P (QOr a b)) -> (forall set l, Forall P l -> P (QGroup set l)) -> forall q, P q.
Proof.
  intros Hk Hn Ho Hg. fix IH 1. intros [tokens v|q|a b|set l]; [apply Hk|apply Hn, IH|apply Ho; apply IH|].
  apply Hg. induction l; constructor; [apply IH|done].
Qed.
Lemma printable_forall l : foldr (fun q P => printable q /\ P) True l <-> Forall printable l.
Proof. induction l as [|q l IH]; simpl; [by split|]. by rewrite Forall_cons, IH. Qed.

Lemma key_reads_nonempty tokens v : key_reads tokens v -> tokens <> [].
Proof. by destruct 1. Qed.
Lemma tokens_nonempty q : printable q -> tokens_of q <> [].
Proof. destruct q; simpl; [apply key_reads_nonempty|done..]. Qed.
Lemma first_token_eq q : printable q -> head (tokens_of q) = Some (first_token q).
Proof. intros Hq%tokens_nonempty. unfold first_token. by destruct (tokens_of q). Qed.

(** ** Reading the printed query *)
Section reading.
Variable keys : list cstr.

(** The arguments from the index on begin with some tokens. *)
Definition next_are (st : qstate) (l : list cstr) : Prop := exists post, drop (q_idx st) keys = l ++ post.
(** The state after the tokens of some nodes were read. *)
Definition read_on (n : nat) (l : list gnode) (st : qstate) : qstate :=
  st <| q_idx ::= Nat.add n |> <| q_search ::= fun c => match c with [] => [] | (k, cs) :: c => (k, cs ++ l) :: c end |>.

Lemma next_at st l i k : next_are st l -> l !! i = Some k -> key_at keys (q_idx st + i) = Some k.
Proof.
  intros [post E] Hi. unfold key_at. rewrite <- (lookup_drop keys), E. by apply lookup_app_l_Some.
Qed.
Lemma next_at0 st k l : next_are st (k :: l) -> key_at keys (q_idx st) = Some k.
Proof. intros Hn. rewrite <- (Nat.add_0_r (q_idx st)). by eapply next_at. Qed.
Lemma next_at1 st k k1 l : next_are st (k :: k1 :: l) -> key_at keys (S (q_idx st)) = Some k1.
Proof. intros Hn. replace (S (q_idx st)) with (q_idx st + 1)%nat by lia. by eapply next_at. Qed.
Lemma next_at2 st k k1 k2 l : next_are st (k :: k1 :: k2 :: l) -> key_at keys (q_idx st + 2) = Some k2.
Proof. intros Hn. by eapply next_at. Qed.
Lemma next_app st a b : next_are st (a ++ b) -> next_are st a.
Proof. intros [post E]. exists (b ++ post). by rewrite E, <- app_assoc. Qed.
Lemma next_drop st st' a b : next_are st (a ++ b) -> q_idx st' = (length a + q_idx st)%nat -> next_are st' b.
Proof.
  intros [post E] Ei. exists post. rewrite Ei, Nat.add_comm, <- drop_drop, E, <- app_assoc. apply drop_app_length.
Qed.

Lemma read_on_leaf v k cs c st n : q_search st = (k, cs) :: c -> sk_type v <> IST_NONE ->
  (step_idx n;; add_leaf v) st = Done (0, read_on n [leaf v] st).
Proof.
  intros Ec Hv. unfold add_leaf. rewrite bool_decide_eq_false_2 by done.
  destruct st as [c0 i ch m co]. cbn in Ec. subst c0. by unfold read_on.
Qed.

Lemma text_leaf_read v text st k cs c t0 :
  q_search st = (k, cs) :: c -> next_are st [t0; text] -> str_to_db_needs_charset text = false -> sk_type v <> IST_NONE ->
  (v ← set_search keys v; add_leaf v) st =
    Done (0, read_on 2 [leaf (match dbmail_iconv_str_to_db (Some text) None with Some p => v <| sk_search := search_text p |> | None => v end)] st).
Proof.
  intros Ec Hn Hcs Hv. unfold set_search.
  assert (key_at keys (q_idx (st <| q_idx ::= Nat.add 1 |>)) = Some text) as Ek by (cbn; by eapply next_at1).
  assert (exists cs', charset_for text (st <| q_idx ::= Nat.add 1 |>) = Done (cs', st <| q_idx ::= Nat.add 1 |>)) as [cs' Ecs].
  { unfold charset_for. destruct st as [c0 i [|t|] m co]; cbn; eauto. rewrite Hcs. eauto. }
  destruct (str_to_db_total text None) as [p Ep]. pose proof (str_to_db_charset text cs' None Hcs) as Eq.
  unfold mbind at 1, QM_bind at 1.
  assert ((step_idx 1;; q ← q_get; text ← need keys (q_idx q); charset ← charset_for text; step_idx 1;;
    mret match dbmail_iconv_str_to_db (Some text) charset with Some p => v <| sk_search := search_text p |> | None => v end) st
    = Done (v <| sk_search := search_text p |>, st <| q_idx ::= Nat.add 2 |>)) as ->.
  { rewrite (q_bind_done _ _ st tt (st <| q_idx ::= Nat.add 1 |>)) by done.
    rewrite (q_bind_done _ _ _ (st <| q_idx ::= Nat.add 1 |>) (st <| q_idx ::= Nat.add 1 |>)) by done.
    rewrite (q_bind_done _ _ _ _ _ (need_some keys _ _ _ Ek)), (q_bind_done _ _ _ _ _ Ecs), Eq, Ep. by destruct st. }
  cbn [mbind pout_bind]. rewrite Ep. unfold add_leaf. cbn [sk_type]. rewrite bool_decide_eq_false_2 by done.
  destruct st as [c0 i ch m co]. cbn in Ec. subst c0. by unfold read_on.
Qed.

Lemma key_read tokens v st k cs c :
  key_reads tokens v -> q_search st = (k, cs) :: c -> next_are st tokens ->
  _handle_search_args keys 1 st = Done (0, read_on (length tokens) [leaf v] st).
Proof.
  intros Hr Ec Hn. cbn [_handle_search_args]. rewrite (q_bind_done _ _ st st st) by done. cbv zeta.
  destruct Hr; rewrite (next_at0 _ _ _ Hn); unfold handle_leaf.
  all: try match goal with E : key_kind_of _ = _ |- _ => rewrite E end.
  all: try rewrite (next_at1 _ _ _ _ Hn); try rewrite (next_at2 _ _ _ _ _ Hn).
  all: try match goal with E : check_msg_set _ = true |- _ => rewrite E end.
  all: try match goal with E : check_date _ = true |- _ => rewrite E end.
  all: try match goal with E : strtoull_errno _ = false |- _ => rewrite E end.
  all: try match goal with E : keyword_lookup _ _ = Some _ |- _ => rewrite E end.
  all: try (apply (read_on_leaf _ k cs c); [done|by cbn]).
  eapply text_leaf_read; eauto.
Qed.

Lemma read_on_eq n l c i ch m co : read_on n l (mkq c i ch m co) =
  mkq (match c with [] => [] | (k, cs) :: c => (k, cs ++ l) :: c end) (n + i) ch m co.
Proof. done. Qed.
Lemma read_on_app n m l l' st : read_on m l' (read_on n l st) = read_on (n + m) (l ++ l') st.
Proof.
  destruct st as [[|[k cs] c] i ch mo co]; rewrite !read_on_eq; f_equal; try lia. by rewrite app_assoc.
Qed.
Lemma read_on_idx n l st : q_idx (read_on n l st) = (n + q_idx st)%nat.
Proof. done. Qed.
Lemma read_on_cursor n l st k cs c : q_search st = (k, cs) :: c -> q_search (read_on n l st) = (k, cs ++ l) :: c.
Proof. destruct st. cbn. by intros ->. Qed.

(** The state below a sub-key, and the way back. *)
Definition below (v : search_key) (st : qstate) : qstate :=
  st <| q_idx ::= Nat.add 1 |> <| q_search ::= append_search v true |>.
Lemma below_cursor v st k cs c : q_search st = (k, cs) :: c -> q_search (below v st) = (v, []) :: (k, cs) :: c.
Proof. destruct st. cbn. by intros ->. Qed.
Lemma below_eq {A} v (m : QM A) st : (step_idx 1;; append_key v true;; m) st = m (below v st).
Proof. done. Qed.
Lemma pop_read v n l st k cs c : q_search st = (k, cs) :: c ->
  (pop_key;; mret 0) (read_on n l (below v st)) = Done (0, read_on (S n) [GNode v l] st).
Proof.
  intros Ec. destruct st as [c0 i ch m co]. cbn in Ec. subst c0. 
  change (below v (mkq ((k, cs) :: c) i ch m co)) with (mkq ((v, []) :: (k, cs) :: c) (1 + i) ch m co). rewrite !read_on_eq.
  replace (S n + i)%nat with (n + (1 + i))%nat by lia. done.
Qed.
Lemma result_read (m k : QM Z) st st' : m st = Done (0, st') -> (result ← m; if result <? 0 then mret result else k) st = k st'.
Proof. intros E. by rewrite (q_bind_done _ _ _ _ _ E). Qed.

(** A query is read with enough fuel. *)
Definition readable (q : query) : Prop :=
  exists n, forall st k cs c, q_search st = (k, cs) :: c -> next_are st (tokens_of q) ->
    _handle_search_args keys n st = Done (0, read_on (length (tokens_of q)) [tree_of q] st).

Lemma handle_more n m st r : (n <= m)%nat -> _handle_search_args keys n st = Done r -> _handle_search_args keys m st = Done r.
Proof. intros Hm E. destruct (fuel_more keys n m Hm) as [R _]. destruct (R st) as [E'|E']; congruence. Qed.
Lemma search_more n m st r : (n <= m)%nat -> search_while keys n st = Done r -> search_while keys m st = Done r.
Proof. intros Hm E. destruct (fuel_more keys n m Hm) as (_ & _ & _ & R). destruct (R st) as [E'|E']; congruence. Qed.

(** The loop over the keys of a list, up to what stands behind it. *)
Lemma list_read l : Forall printable l -> Forall readable l -> exists n, forall m st k cs c rest r,
  q_search st = (k, cs) :: c -> next_are st (concat (tokens_of <$> l) ++ rest) ->
  search_while keys m (read_on (length (concat (tokens_of <$> l))) (tree_of <$> l) st) = Done r ->
  search_while keys (n + m) st = Done r.
Proof.
  induction l as [|q l IH]; intros Hp Hr.
  { exists 0%nat. intros m st k cs c rest r Ec Hn. destruct st as [c0 i ch mo co]. cbn in Ec. subst c0.
    rewrite read_on_eq, app_nil_r. done. }
  apply Forall_cons in Hp as [Hq Hp]. apply Forall_cons in Hr as [[n Hh] Hr]. destruct (IH Hp Hr) as [n' Hl].
  exists (S (n + n')). intros m st k cs c rest r Ec Hn Em. cbn [fmap list_fmap concat] in *. rewrite <- app_assoc in Hn.
  assert (exists t, head (tokens_of q) = Some t) as [t Ht] by (eexists; by apply first_token_eq).
  assert (key_at keys (q_idx st) = Some t) as Ek.
  { rewrite <- (Nat.add_0_r (q_idx st)). apply (next_at _ (tokens_of q)); [by eapply next_app|]. by rewrite <- head_lookup. }
  cbn [plus search_while]. rewrite (q_bind_done _ _ st st st) by done. rewrite Ek.
  rewrite (q_bind_done _ _ st 0 (read_on (length (tokens_of q)) [tree_of q] st)).
  2:{ apply (handle_more n); [lia|]. eapply Hh; [done|]. by eapply next_app. }
  change (0 =? 0) with true. cbv iota. replace (n + n' + m)%nat with (n' + (n + m))%nat by lia.
  eapply Hl; [by apply read_on_cursor| |].
  - eapply next_drop; [exact Hn|done].
  - rewrite read_on_app. apply (search_more m); [lia|]. rewrite <- length_app. exact Em.
Qed.

Lemma close_read st k cs c : q_search st = (k, cs) :: c -> next_are st [lit ")"] ->
  search_while keys 2 st = Done (1, read_on 1 [] st).
Proof.
  intros Ec Hn. cbn [search_while _handle_search_args]. rewrite (q_bind_done _ _ st st st) by done.
  rewrite (next_at0 _ _ _ Hn). rewrite (q_bind_done _ _ st 1 (read_on 1 [] st)); [done|].
  rewrite (q_bind_done _ _ st st st) by done. cbv zeta. rewrite (next_at0 _ _ _ Hn).
  destruct st as [c0 i ch m co]. cbn in Ec. subst c0. unfold handle_leaf. rewrite read_on_eq, app_nil_r. done.
Qed.

(** The set of a group is the one given or all messages. *)
Lemma default_set_read set rest st k cs c :
  q_search st = (k, cs) :: c -> next_are st (from_option (fun s => [s]) [] set ++ rest) ->
  match set with Some s => check_msg_set s = true | None => from_option (fun t => check_msg_set t = false) False (head rest) end ->
  default_set keys st = Done (tt, read_on (length (from_option (fun s => [s]) [] set)) [leaf (set_key set)] st).
Proof.
  intros Ec Hn Hs. unfold default_set. rewrite (q_bind_done _ _ st st st) by done.
  destruct set as [s|]; cbn [from_option app head] in *.
  - rewrite (next_at0 _ _ _ Hn), Hs. destruct st. cbn in Ec. by subst.
  - destruct rest as [|t rest]; [done|]. cbn in Hs. rewrite (next_at0 _ _ _ Hn), Hs. destruct st. cbn in Ec. by subst.
Qed.

Lemma group_head set l : printable (QGroup set l) ->
  match set with
  | Some s => check_msg_set s = true
  | None => from_option (fun t => check_msg_set t = false) False (head (concat (tokens_of <$> l) ++ [lit ")"]))
  end.
Proof.
  cbn [printable]. intros [Hs Hl]. destruct set as [s|]; [done|]. destruct l as [|q l]; [done|].
  cbn in Hl. destruct Hl as [Hq%first_token_eq _]. cbn. destruct (tokens_of q) as [|t ts] eqn:E; [done|]. cbn in *.
  apply (inj Some) in Hq as ->. exact Hs.
Qed.

Lemma not_leaf key i next : key_kind_of key ∈ [KNot; KOr; KOpen] -> handle_leaf keys key i next = None.
Proof. unfold handle_leaf. intros E. repeat (apply elem_of_cons in E as [->|E]; [done|]). by apply elem_of_nil in E. Qed.

Lemma query_read q : printable q -> readable q.
Proof.
  induction q as [tokens v|q IH|a b IHa IHb|set l IH] using query_ind'; intros Hp.
  - exists 1%nat. intros st k cs c Ec Hn. by eapply key_read.
  - destruct Hp as [Hf Hp]. destruct (IH Hp) as [n Hh]. exists (S n). intros st k cs c Ec Hn. cbn [tokens_of] in *.
    assert (key_at keys (S (q_idx st)) = Some (first_token q)) as Ek.
    { pose proof (first_token_eq q Hp) as Et. destruct (tokens_of q) as [|t ts] eqn:E; [done|]. cbn in Et.
      apply (inj Some) in Et as ->. by eapply next_at1. }
    cbn [_handle_search_args]. rewrite (q_bind_done _ _ st st st) by done. cbv zeta. rewrite (next_at0 _ _ _ Hn).
    change (key_kind_of (lit "NOT")) with KNot. rewrite (not_leaf (lit "NOT")) by (change (key_kind_of (lit "NOT")) with KNot; set_solver). cbv iota. rewrite Ek, Hf.
    rewrite below_eq.
    erewrite result_read; [|eapply Hh; [by apply below_cursor|]; apply (next_drop st _ [lit "NOT"]); [exact Hn|done]].
    by eapply pop_read.
  - destruct Hp as [Ha Hb]. destruct (IHa Ha) as [n1 G1], (IHb Hb) as [n2 G2]. exists (S (n1 + n2)).
    intros st k cs c Ec Hn. cbn [tokens_of] in *.
    cbn [_handle_search_args]. rewrite (q_bind_done _ _ st st st) by done. cbv zeta. rewrite (next_at0 _ _ _ Hn).
    change (key_kind_of (lit "OR")) with KOr. rewrite (not_leaf (lit "OR")) by (change (key_kind_of (lit "OR")) with KOr; set_solver). cbv iota. rewrite below_eq.
    assert (next_are (below (sub_key IST_SUBSEARCH_OR) st) (tokens_of a ++ tokens_of b)) as Hn'
      by (apply (next_drop st _ [lit "OR"]); [exact Hn|done]).
    erewrite result_read.
    2:{ apply (handle_more n1); [lia|]. eapply G1; [by apply below_cursor|]. by eapply next_app. }
    erewrite result_read.
    2:{ apply (handle_more n2); [lia|]. eapply G2; [by apply read_on_cursor, below_cursor|].
        eapply next_drop; [exact Hn'|done]. }
    rewrite read_on_app. cbn [length]. rewrite length_app. by eapply pop_read.
  - pose proof (group_head _ _ Hp) as Hset. cbn [printable] in Hp. destruct Hp as [_ Hl]. apply printable_forall in Hl.
    assert (Forall readable l) as Hr by (rewrite Forall_forall in *; intros q Hq; auto).
    destruct (list_read l Hl Hr) as [n Hls]. exists (S (S (S (n + 2)))). intros st k cs c Ec Hn. cbn [tokens_of] in *.
    set (ts := concat (tokens_of <$> l)) in *. set (pre := from_option (fun s : cstr => [s]) [] set) in *.
    cbn [_handle_search_args build_while build_group]. rewrite (q_bind_done _ _ st st st) by done. cbv zeta. rewrite (next_at0 _ _ _ Hn).
    change (key_kind_of (lit "(")) with KOpen. rewrite (not_leaf (lit "(")) by (change (key_kind_of (lit "(")) with KOpen; set_solver). cbv iota. rewrite below_eq.
    set (st1 := below _ st). assert (q_search st1 = (sub_key IST_SUBSEARCH_AND, []) :: (k, cs) :: c) as Ec1 by by apply below_cursor.
    assert (next_are st1 (pre ++ ts ++ [lit ")"])) as Hn1 by (apply (next_drop st _ [lit "("]); [exact Hn|done]).
    set (st2 := read_on (length pre) [leaf (set_key set)] st1).
    assert (default_set keys st1 = Done (tt, st2)) as Ed by (eapply default_set_read; [done|exact Hn1|exact Hset]).
    assert (next_are st2 (ts ++ [lit ")"])) as Hn2 by (eapply next_drop; [exact Hn1|done]).
    assert (q_search st2 = (sub_key IST_SUBSEARCH_AND, [leaf (set_key set)]) :: (k, cs) :: c) as Ec2
      by exact (read_on_cursor _ _ _ _ [] _ Ec1).
    set (st3 := read_on (length ts) (tree_of <$> l) st2).
    assert (search_while keys (n + 2) st2 = Done (1, read_on 1 [] st3)) as Es.
    { eapply Hls; [exact Ec2|exact Hn2|]. eapply close_read; [by apply read_on_cursor|]. eapply next_drop; [exact Hn2|done]. }
    assert (exists t, key_at keys (q_idx st1) = Some t) as [t Et].
    { destruct (pre ++ ts ++ [lit ")"]) as [|t r] eqn:E; [by destruct pre, ts|]. exists t. by eapply next_at0. }
    assert ((build_group keys (S (n + 2))) st1 = Done (1, read_on 1 [] st3)) as Eb.
    { cbn [build_group]. rewrite (q_bind_done _ _ st1 st1 st1) by done. rewrite Et, (q_bind_done _ _ _ _ _ Ed). exact Es. }
    rewrite (q_bind_done _ _ st1 tt (read_on 1 [] st3)).
    2:{ change (build_while keys (S (S (n + 2))) st1 = Done (tt, read_on 1 [] st3)). cbn [build_while].
        by rewrite (q_bind_done _ _ _ _ _ Eb). }
    unfold st3, st2. rewrite !read_on_app, app_nil_r. unfold st1. erewrite pop_read by exact Ec.
    do 3 f_equal. cbn [length]. rewrite !length_app. cbn. lia.
Qed.
End reading.

(** ** A whole command *)

(** The arguments of SEARCH: a set of messages in front, and queries that all have to hold. *)
Definition search_tokens (set : option cstr) (l : list query) : list cstr :=
  from_option (fun s => [s]) [] set ++ concat (tokens_of <$> l).
Definition search_added (set : option cstr) (l : list query) (c : cursor) : cursor :=
  match c with
  | [] => [(set_key set, tree_of <$> l)]
  | (k, cs) :: c => (k, cs ++ leaf (set_key set) :: (tree_of <$> l)) :: c
  end.

Lemma top_head set l : printable (QGroup set l) -> search_tokens set l <> [] ->
  match set with
  | Some s => check_msg_set s = true
  | None => from_option (fun t => check_msg_set t = false) False (head (concat (tokens_of <$> l)))
  end.
Proof.
  intros Hp Hne. pose proof (group_head _ _ Hp) as Hh. destruct set as [s|]; [done|]. unfold search_tokens in Hne. cbn in Hne.
  by destruct (concat (tokens_of <$> l)).
Qed.

Lemma read_added n p set l st :
  read_on n (tree_of <$> l) (st <| q_idx ::= Nat.add p |> <| q_search ::= append_search (set_key set) false |>) =
  mkq (search_added set l (q_search st)) (n + (p + q_idx st)) (q_charset st) (q_modseq st) (q_condstore st).
Proof.
  destruct st as [[|[k cs] c] i ch m co]; [done|].
  change (mkq ((k, (cs ++ [leaf (set_key set)]) ++ (tree_of <$> l)) :: c) (n + (p + i)) ch m co = mkq ((k, cs ++ leaf (set_key set) :: (tree_of <$> l)) :: c) (n + (p + i)) ch m co).
  by rewrite <- app_assoc.
Qed.

Lemma search_read set l st : printable (QGroup set l) -> search_tokens set l <> [] -> q_idx st = 0%nat ->
  dbmail_mailbox_build_imap_search (search_tokens set l) SEARCH_UNORDERED st =
    Done (0, st <| q_idx := length (search_tokens set l) |> <| q_search ::= search_added set l |>).
Proof.
  intros Hp Hne Hi. pose proof (top_head _ _ Hp Hne) as Hh. set (keys := search_tokens set l) in *.
  set (pre := from_option (fun s : cstr => [s]) [] set) in *.
  assert (next_are keys st keys) as Hn by (exists []; by rewrite Hi, app_nil_r, drop_0).
  unfold dbmail_mailbox_build_imap_search. rewrite (q_bind_done _ _ st st st) by done.
  assert (exists t, key_at keys (q_idx st) = Some t) as [t Et].
  { destruct keys as [|t ts] eqn:E; [done|]. exists t. by rewrite Hi. }
  rewrite Et.
  set (st1 := st <| q_idx ::= Nat.add (length pre) |> <| q_search ::= append_search (set_key set) false |>).
  assert (default_set keys st = Done (tt, st1)) as Ed.
  { unfold default_set. rewrite (q_bind_done _ _ st st st) by done. rewrite Et. subst keys pre st1. unfold search_tokens in *.
    destruct set as [s|]; cbn in *.
    - rewrite Hi in Et. cbn in Et. apply (inj Some) in Et as <-. rewrite Hh. done.
    - rewrite Hi in Et. destruct (concat (tokens_of <$> l)); [done|]. cbn in Et, Hh. apply (inj Some) in Et as <-. rewrite Hh. by destruct st. }
  rewrite (q_bind_done _ _ _ _ _ Ed).
  assert (exists k cs c, q_search st1 = (k, cs) :: c) as (k & cs & c & Ec).
  { unfold st1. destruct st as [[|[k cs] c] i ch m co]; cbn; eauto. }
  assert (next_are keys st1 (concat (tokens_of <$> l))) as Hn1 by (eapply (next_drop keys st st1 pre); [exact Hn|done]).
  destruct Hp as [_ Hl]. apply printable_forall in Hl.
  destruct (list_read keys l Hl) as [n Hls].
  { rewrite Forall_forall in *. intros q Hq. apply query_read. auto. }
  set (st2 := read_on (length (concat (tokens_of <$> l))) (tree_of <$> l) st1) in *.
  assert (q_idx st2 = length keys) as Ei.
  { unfold st2. rewrite read_on_idx. unfold st1, keys, search_tokens. cbn. rewrite Hi, length_app. fold pre. lia. }
  assert (key_at keys (q_idx st2) = None) as En by (unfold key_at; rewrite Ei; by apply lookup_ge_None).
  assert (search_while keys (n + 1) st1 = Done (0, st2)) as Es.
  { eapply Hls; [exact Ec|rewrite app_nil_r; exact Hn1|]. cbn [search_while]. rewrite (q_bind_done _ _ st2 st2 st2) by done.
    by rewrite En. }
  assert (search_behind keys 0 st1 = Done (0, st2)) as ->.
  { unfold search_behind. rewrite (q_bind_done _ _ st1 st1 st1) by done.
    destruct (key_at keys (q_idx st1)) eqn:Ek; [by eapply search_while_fuel|].
    replace (n + 1)%nat with (S n) in Es by lia. cbn [search_while] in Es.
    rewrite (q_bind_done _ _ st1 st1 st1) in Es by done. by rewrite Ek in Es. }
  do 2 f_equal. unfold st2, st1 in *. rewrite read_added in Ei |- *. cbn [q_idx] in Ei. rewrite Ei. by destruct st.
Qed.
End queries.
