(* ===== verification/SearchFacts.v ===== *)
(** * A search finds what the query means

    The three walks over the tree of search keys, on the tree of a query, narrow the messages of
    the mailbox to those that satisfy the query; the tree is left in a state in which later
    searches of the same mailbox pass over it. *)
From S2P Require Import Prelude CLib GLib Tree GListUtil MailboxState MiscText MiscDate Iconv SqlFragment SearchKeys SearchRun SearchParse.

(** What the data base answers as documented: no exceptions, and the list of messages in the
    statement restricts the rows. *)
Class SearchLaws `{SearchAnswers} := {
  search_rows_ok id s l : (search_rows id s l).2 = true;
  search_rows_inset id s l u : u ∈ (search_rows id s (Some l)).1 <-> u ∈ (search_rows id s None).1 /\ u ∈ l;
}.

(** ** Walks that find nothing to do *)
Section walks.
Context `{GTreeOps}.

Lemma gnode_ind' (P : gnode -> Prop) : (forall k cs, Forall P cs -> P (GNode k cs)) -> forall n, P n.
Proof. intros Hn. fix IH 1. intros [k cs]. apply Hn. induction cs; constructor; [apply IH|done]. Qed.

Inductive node_all (P : search_key -> Prop) : gnode -> Prop :=
  | node_all_intro k cs : P k -> Forall (node_all P) cs -> node_all P (GNode k cs).

Lemma height_child k cs n : n ∈ cs -> (height n < height (GNode k cs))%nat.
Proof.
  cbn [height]. induction 1 as [n cs|n m cs _ IH]; cbn [fmap list_fmap foldr] in *; lia.
Qed.

Lemma until_stop_id {S} (f : gnode -> S -> pout (gnode * bool * S)) l s :
  Forall (fun n => f n s = Done (n, false, s)) l -> until_stop f l s = Done (l, false, s).
Proof. induction 1 as [|n l En _ IH]; [done|]. cbn [until_stop]. rewrite En. cbn. by rewrite IH. Qed.
Lemma until_stop_app {S} (f : gnode -> S -> pout (gnode * bool * S)) a a' b s s' :
  until_stop f a s = Done (a', false, s') ->
  until_stop f (a ++ b) s = ('(b, stop, s) ← until_stop f b s'; Done (a' ++ b, stop, s)).
Proof.
  revert a' s. induction a as [|n a IH]; intros a' s; cbn [until_stop app].
  - intros E. injection E as <- <-. destruct (until_stop f b s) as [[[b' st] s'']| |]; done.
  - destruct (f n s) as [[[n' stop] s1]| |]; [|done..]. cbn. destruct stop; [done|].
    destruct (until_stop f a s1) as [[[a1 st] s2]| |] eqn:E; [|done..]. cbn. intros E1. injection E1 as <- -> ->.
    rewrite (IH _ _ E). destruct (until_stop f b s') as [[[b' st] s'']| |]; done.
Qed.

Lemma pre_order_id {S} (visit : gnode -> S -> pout (gnode * bool * S)) P s :
  (forall n, node_all P n -> visit n s = Done (n, false, s)) ->
  forall n h, node_all P n -> (height n <= h)%nat -> pre_order visit h n s = Done (n, false, s).
Proof.
  intros Hv. induction n as [k cs IH] using gnode_ind'. intros [|h] Hn Hh; [simpl in Hh; lia|].
  cbn [pre_order]. rewrite (Hv _ Hn). cbn. inversion_clear Hn as [? ? _ Hcs].
  rewrite until_stop_id; [done|]. rewrite Forall_forall in *. intros n Hn. apply IH; auto.
  pose proof (height_child k cs n Hn). lia.
Qed.
(** A visit that changes a node to one on which there is nothing more to do. *)
Lemma pre_order_once {S} (visit : gnode -> S -> pout (gnode * bool * S)) P n n' s s' h :
  visit n s = Done (n', false, s') -> height n' = height n -> (height n <= h)%nat -> node_all P n' ->
  (forall n, node_all P n -> visit n s' = Done (n, false, s')) ->
  pre_order visit h n s = Done (n', false, s').
Proof.
  intros E Eh Hh Hn Hid. destruct h as [|h]; [destruct n; simpl in Hh; lia|]. cbn [pre_order]. rewrite E. cbn.
  destruct n' as [k cs]. inversion_clear Hn as [? ? _ Hcs].
  rewrite until_stop_id; [done|]. rewrite Forall_forall in *. intros m Hm. eapply pre_order_id; [exact Hid|auto|].
  pose proof (height_child k cs m Hm). lia.
Qed.

Lemma children_foreach_map {A S} (f : gnode -> S -> pout (gnode * S)) (g g' : A -> gnode) l s :
  Forall (fun x => f (g x) s = Done (g' x, s)) l -> children_foreach f (g <$> l) s = Done (g' <$> l, s).
Proof. induction 1 as [|x l E _ IH]; [done|]. cbn [fmap list_fmap children_foreach]. rewrite E. cbn. by rewrite IH. Qed.
Lemma children_foreach_id {S} (f : gnode -> S -> pout (gnode * S)) l s :
  Forall (fun n => f n s = Done (n, s)) l -> children_foreach f l s = Done (l, s).
Proof. intros E. pose proof (children_foreach_map f id id l s E) as X. by rewrite list_fmap_id in X. Qed.
End walks.

(** ** Keys *)
Section facts.
Context `{GTreeLaws} `{GLibStr} `{SqlConf} `{SearchAnswers} `{SearchConf} `{!SearchLaws}.
Variables id modseq : Z.
Variable M : MailboxState_T.
(** The number of messages is known, and the information on every message. *)
Hypothesis exists_known : (MailboxState_getExists M).1 = M.
Hypothesis infos_known : forall u, is_Some (g_tree_lookup (ids M) u) -> is_Some (g_tree_lookup (msginfo M) u).
Implicit Types (f g t : gtree Z) (k v : search_key) (q : query).

Lemma mailbox_set_state s by_uid : (mailbox_set modseq M s by_uid).1 = M.
Proof.
  unfold mailbox_set, MailboxState_get_set. destruct (_ && _); [done|]. destruct (negb _); [done|].
  destruct by_uid; [done|]. pose proof exists_known as X. destruct (MailboxState_getExists M) as [M' e]. exact X.
Qed.
Lemma set_of_key_state k M' (t : option (gtree Z)) : set_of_key modseq M k = Some (M', t) -> M' = M.
Proof.
  unfold set_of_key. intros E. destruct (sk_type k); try done; apply (inj Some) in E; apply (f_equal fst) in E;
    rewrite mailbox_set_state in E; by symmetry.
Qed.

(** What is found for a key, with the messages found before. *)
Definition key_tree f k : pout (gtree Z) :=
  match set_of_key modseq M k with
  | Some (_, Some t) => Done t
  | Some (_, None) => Undef
  | None => mailbox_search id modseq M f k
  end.
(** A message satisfies a key if the search for the key alone finds it. *)
Definition key_sat k (u : Z) : bool :=
  match key_tree g_tree_new k with Done t => bool_decide (is_Some (g_tree_lookup t u)) | _ => false end.
Definition is_leaf_type (t : search_type) : bool := match t with IST_NONE | IST_SORT | IST_SUB _ => false | _ => true end.
(** The key stands for a search, which is possible. *)
Definition searchable_key k : Prop :=
  is_leaf_type (sk_type k) = true /\ searched k = false /\ merged k = false /\ exists t, key_tree g_tree_new k = Done t.

Definition within f g : Prop := forall u, is_Some (g_tree_lookup f u) -> is_Some (g_tree_lookup g u).
(** [t] decides [P] for the messages of [f]. *)
Definition decides f (P : Z -> bool) t : Prop :=
  forall u, is_Some (g_tree_lookup f u) -> (is_Some (g_tree_lookup t u) <-> P u = true).
(** What is left of [f] are the messages with [P]. *)
Definition narrowed f (P : Z -> bool) (f' : gtree Z) : Prop :=
  forall u, g_tree_lookup f' u = if P u then g_tree_lookup f u else None.

Lemma lookup_new u : g_tree_lookup (g_tree_new : gtree Z) u = None.
Proof. apply g_tree_lookup_new. Qed.
Lemma inset_new : inset_of modseq M g_tree_new = Done None.
Proof.
  unfold inset_of, nothing_found. assert (g_tree_nnodes (g_tree_new : gtree Z) = 0%nat) as -> by (apply g_tree_empty; apply g_tree_lookup_new).
  done.
Qed.
Lemma max_seq_known l z : (forall u, u ∈ l -> is_Some (g_tree_lookup (msginfo M) u)) -> exists m, max_seq M true z l = Done m.
Proof.
  revert z. induction l as [|u l IH]; intros z Hl; cbn [max_seq]; [by eexists|].
  destruct (Hl u ltac:(left)) as [i Ei]. unfold shown_info. cbn. rewrite Ei. cbn. apply IH. intros v Hv. apply Hl. by right.
Qed.
Lemma inset_known f : within f (ids M) -> exists l, inset_of modseq M f = Done l /\
  forall l', l = Some l' -> forall u, is_Some (g_tree_lookup f u) -> u ∈ l'.
Proof.
  intros Hf. unfold inset_of. case_bool_decide; [|by eexists]. destruct (nothing_found (Some f)); [by eexists|].
  unfold shown_seq. assert (exists z, (if modseq =? 0 then Done 0 else max_seq M true 0 (g_tree_keys f)) = Done z) as [z ->].
  { destruct (modseq =? 0); [by eexists|]. apply max_seq_known. intros u Hu%g_tree_keys_elem. auto. }
  cbn. eexists. split; [done|]. intros l' E u Hu. apply (inj Some) in E as <-. by apply g_tree_keys_elem.
Qed.

Lemma row_tree_lookup rows u : is_Some (g_tree_lookup (row_tree M rows) u) <-> u ∈ rows /\ is_Some (g_tree_lookup (ids M) u).
Proof.
  unfold row_tree. assert (forall t, is_Some (g_tree_lookup (foldl (add_row M) t rows) u) <->
    is_Some (g_tree_lookup t u) \/ (u ∈ rows /\ is_Some (g_tree_lookup (ids M) u))) as Hx.
  { induction rows as [|r rows IH]; intros t; cbn [foldl]; [set_solver|]. rewrite IH. unfold add_row.
    destruct (g_tree_lookup (ids M) r) as [n|] eqn:Er.
    - rewrite g_tree_lookup_insert_case. case_decide as Eu; [subst r; rewrite Er; set_solver|set_solver].
    - split; [set_solver|]. intros [?|[[->|?]%elem_of_cons Hu]]; [by left| |by right]. rewrite Er in Hu. by destruct Hu. }
  rewrite Hx, lookup_new. split; [intros [[? ?]|]; done|by right].
Qed.
Lemma copy_lookup (P : Z -> bool) l t u :
  NoDup l.*1 -> g_tree_lookup (foldl (fun t '(k, v) => if P k then t else g_tree_insert t k v) t l) u =
    match list_find (fun kv => kv.1 = u) l with Some (_, (_, v)) => if P u then g_tree_lookup t u else Some v | None => g_tree_lookup t u end.
Proof.
  revert t. induction l as [|[k v] l IH]; intros t Hn; [done|]. cbn [fmap list_fmap fst] in Hn. apply NoDup_cons in Hn as [Hk Hn].
  cbn [foldl list_find]. rewrite IH by done. case_decide as E; cbn [fst] in E.
  - subst k. assert (list_find (fun kv : Z * Z => kv.1 = u) l = None) as ->.
    { apply list_find_None, Forall_forall. intros [a b] Hin <-. apply Hk. by apply (list_elem_of_fmap_2 fst) in Hin. }
    destruct (P u); [done|apply g_tree_lookup_insert].
  - destruct (list_find (fun kv : Z * Z => kv.1 = u) l) as [[i [a b]]|]; cbn [fmap option_fmap option_map prod_map]; cbn;
      (destruct (P k); [done|by rewrite g_tree_lookup_insert_ne]).
Qed.
Lemma traverse_find t u : match list_find (fun kv => kv.1 = u) (g_tree_traverse t) with Some (_, (_, v)) => Some v | None => None end = g_tree_lookup t u.
Proof.
  destruct (list_find _ _) as [[i [k v]]|] eqn:E.
  - apply list_find_Some in E as (Ei & <- & _). symmetry. apply g_tree_traverse_elem. by apply list_elem_of_lookup_2 in Ei.
  - destruct (g_tree_lookup t u) as [v|] eqn:Eu; [|done]. apply g_tree_traverse_elem in Eu. apply list_find_None in E.
    rewrite Forall_forall in E. by specialize (E _ Eu).
Qed.
Lemma copy_pairs_lookup f u : g_tree_lookup (copy_pairs (g_tree_traverse f) g_tree_new) u = g_tree_lookup f u.
Proof.
  unfold copy_pairs. pose proof (copy_lookup (fun _ => false) (g_tree_traverse f) g_tree_new u (g_tree_nodup f)) as E.
  cbn in E. rewrite E, <- (traverse_find f u). destruct (list_find _ _) as [[i [a b]]|]; [done|apply lookup_new].
Qed.
Lemma invert_lookup f u : is_Some (g_tree_lookup (invert_tree M f) u) <-> is_Some (g_tree_lookup (ids M) u) /\ ~ is_Some (g_tree_lookup f u).
Proof.
  unfold invert_tree. rewrite (copy_lookup (fun j => bool_decide (is_Some (g_tree_lookup f j)))) by apply g_tree_nodup.
  rewrite <- (traverse_find (ids M) u). destruct (list_find _ _) as [[i [a b]]|]; rewrite lookup_new.
  - case_bool_decide; split; [intros [? ?]; done|tauto|intros _; split; [by eexists|done]|by eexists].
  - split; [intros [? ?]; done|intros [[? ?] _]; done].
Qed.

(** The restriction to the messages found before does not change what is found among them. *)
Lemma run_stmt_inset k inset f : (forall l, inset = Some l -> forall u, is_Some (g_tree_lookup f u) -> u ∈ l) -> within f (ids M) ->
  forall u, is_Some (g_tree_lookup f u) ->
    (is_Some (g_tree_lookup (run_stmt id M k inset) u) <-> is_Some (g_tree_lookup (run_stmt id M k None) u)).
Proof.
  intros Hi Hf u Hu. unfold run_stmt. destruct (key_stmt k) as [[stmt restricted]|]; [|done].
  destruct inset as [l|]; [|by destruct restricted]. destruct restricted; [|done].
  pose proof (search_rows_ok id stmt (Some l)) as O1. pose proof (search_rows_ok id stmt None) as O2.
  pose proof (search_rows_inset id stmt l u) as R. specialize (Hi l eq_refl u Hu).
  destruct (search_rows id stmt (Some l)) as [r1 o1], (search_rows id stmt None) as [r2 o2]. cbn in *. subst.
  case_bool_decide; cbn; rewrite ?invert_lookup, !row_tree_lookup; tauto.
Qed.

Lemma key_tree_decides k f : searchable_key k -> within f (ids M) -> exists t, key_tree f k = Done t /\ decides f (key_sat k) t.
Proof.
  intros (_ & _ & _ & t0 & E0) Hf. unfold decides, key_sat. rewrite E0. unfold key_tree in *.
  destruct (set_of_key modseq M k) as [[M' [t|]]|] eqn:Es; [|done|].
  { injection E0 as ->. exists t0. split; [done|]. intros u Hu. by rewrite bool_decide_eq_true. }
  unfold mailbox_search in *. rewrite inset_new in E0. cbn in E0. destruct (inset_known f Hf) as (l & -> & Hl). cbn.
  destruct (_ && _).
  - destruct (key_test k) as [[g|]| |]; cbn in *; [|injection E0 as <-|done..].
    + exists t0. split; [done|]. intros u Hu. by rewrite bool_decide_eq_true.
    + eexists. split; [done|]. intros u Hu. rewrite bool_decide_eq_true. by apply run_stmt_inset with f.
  - injection E0 as <-. eexists. split; [done|]. intros u Hu. rewrite bool_decide_eq_true. by apply run_stmt_inset with f.
Qed.

(** ** Queries *)
Fixpoint sat q (u : Z) : bool :=
  match q with
  | QKey _ v => key_sat v u
  | QNot q => negb (sat q u)
  | QOr a b => sat a u || sat b u
  | QGroup set l => key_sat (set_key set) u && forallb (fun q => sat q u) l
  end.

(** The operands of OR are single keys or groups; every key can be searched. *)
Definition operand q : bool := match q with QKey _ _ | QGroup _ _ => true | _ => false end.
Fixpoint searchable q : Prop :=
  match q with
  | QKey _ v => searchable_key v
  | QNot q => searchable q
  | QOr a b => operand a = true /\ operand b = true /\ searchable a /\ searchable b
  | QGroup set l => searchable_key (set_key set) /\ foldr (fun q P => searchable q /\ P) True l
  end.
Lemma searchable_forall l : foldr (fun q P => searchable q /\ P) True l <-> Forall searchable l.
Proof. induction l as [|q l IH]; simpl; [by split|]. by rewrite Forall_cons, IH. Qed.

(** The tree after the second walk: every key has found its messages. *)
Definition found_tree f k : gtree Z := match key_tree f k with Done t => t | _ => g_tree_new end.
Definition prime_leaf f v : gnode := leaf (v <| sk_found := Some (found_tree f v) |> <| searched := true |>).
Definition prime_sub (c : merge_condition) : search_key := (sub_key c) <| sk_found := Some g_tree_new |> <| searched := true |>.
Fixpoint prime f q : gnode :=
  match q with
  | QKey _ v => prime_leaf f v
  | QNot q => GNode (prime_sub IST_SUBSEARCH_NOT) [prime f q]
  | QOr a b => GNode (prime_sub IST_SUBSEARCH_OR) [prime f a; prime f b]
  | QGroup set l => GNode (prime_sub IST_SUBSEARCH_AND) (prime_leaf f (set_key set) :: (prime f <$> l))
  end.

(** The tree after the third walk; [m] says that the node is the operand of an OR. *)
Definition done_leaf v : gnode := leaf (merged_key (v <| searched := true |>)).
Fixpoint done_tree (m : bool) q : gnode :=
  match q with
  | QKey _ v => done_leaf v
  | QNot q => GNode (merged_key (prime_sub IST_SUBSEARCH_NOT)) [done_tree false q]
  | QOr a b => GNode (merged_key (prime_sub IST_SUBSEARCH_OR)) [done_tree true a; done_tree true b]
  | QGroup set l =>
      GNode (if m then merged_key (prime_sub IST_SUBSEARCH_AND) else prime_sub IST_SUBSEARCH_AND)
        (done_leaf (set_key set) :: (done_tree false <$> l))
  end.

(** Keys that the second and the third walk pass over. *)
Definition found_already k : Prop := sk_type k = IST_SORT \/ searched k = true.
Definition at_rest k : Prop := sk_type k = IST_SORT \/ (searched k = true /\ (merged k = true \/ sk_type k = IST_SUB IST_SUBSEARCH_AND)).

Lemma node_all_impl (P Q : search_key -> Prop) n : (forall k, P k -> Q k) -> node_all P n -> node_all Q n.
Proof.
  intros Himp. induction n as [k cs IH] using gnode_ind'. intros Hn. inversion_clear Hn as [? ? Hk Hcs].
  constructor; [auto|]. rewrite Forall_forall in *. auto.
Qed.
Lemma at_rest_found k : at_rest k -> found_already k.
Proof. intros [E|[E _]]; [by left|by right]. Qed.

Lemma do_search_again f n : node_all found_already n -> _do_search id modseq f n M = Done (n, false, M).
Proof. intros Hn. inversion_clear Hn as [k cs [E|E] _]; cbn [_do_search]; rewrite E; [by destruct (searched k)|done]. Qed.
Lemma merge_again n : forall (f : option (gtree Z)), node_all at_rest n -> _merge_search n f = Done (n, f).
Proof.
  induction n as [k cs IH] using gnode_ind'. intros f Hn. inversion_clear Hn as [? ? Hk Hcs]. cbn [_merge_search].
  destruct Hk as [E|[_ [E|E]]].
  - by rewrite E.
  - rewrite E. by destruct (sk_type k).
  - rewrite E. destruct (merged k); [done|]. rewrite children_foreach_id; [done|].
    rewrite Forall_forall in *. intros n Hn. auto.
Qed.

Lemma prime_found f q : node_all found_already (prime f q).
Proof.
  induction q as [tokens v|q IH|a b IHa IHb|set l IH] using query_ind'; cbn [prime]; constructor; try (by right); try (by repeat constructor).
  constructor; [constructor; [by right|constructor]|]. rewrite Forall_fmap. exact IH.
Qed.
Lemma done_rest m q : node_all at_rest (done_tree m q).
Proof.
  revert m. induction q as [tokens v|q IH|a b IHa IHb|set l IH] using query_ind'; intros m; cbn [done_tree].
  - constructor; [|constructor]. right. split; [done|by left].
  - constructor; [right; split; [done|by left]|]. by repeat constructor.
  - constructor; [right; split; [done|by left]|]. by repeat constructor.
  - constructor; [destruct m; right; (split; [done|]); [by left|by right]|].
    constructor; [constructor; [right; split; [done|by left]|constructor]|]. rewrite Forall_fmap.
    rewrite Forall_forall in *. intros q Hq. by apply IH.
Qed.

Lemma height_map {A} (g g' : A -> gnode) l : Forall (fun x => height (g x) = height (g' x)) l -> height <$> (g <$> l) = height <$> (g' <$> l).
Proof. induction 1; cbn; congruence. Qed.
Lemma height_prime f q : height (prime f q) = height (tree_of q).
Proof.
  induction q as [tokens v|q IH|a b IHa IHb|set l IH] using query_ind'; cbn [prime tree_of height fmap list_fmap foldr]; rewrite ?IH, ?IHa, ?IHb; try done.
  by rewrite (height_map (prime f) tree_of l IH).
Qed.
Lemma height_done m q : height (done_tree m q) = height (tree_of q).
Proof.
  revert m. induction q as [tokens v|q IH|a b IHa IHb|set l IH] using query_ind'; intros m; cbn [done_tree tree_of height fmap list_fmap foldr]; rewrite ?IH, ?IHa, ?IHb; try done.
  rewrite (height_map (done_tree false) tree_of l); [done|]. rewrite Forall_forall in *. auto.
Qed.

(** ** The second walk *)
Lemma do_search_leaf f v : searchable_key v -> within f (ids M) -> _do_search id modseq f (leaf v) M = Done (prime_leaf f v, false, M).
Proof.
  intros Hv Hf. destruct (key_tree_decides v f Hv Hf) as (t & Et & _). unfold prime_leaf, found_tree. rewrite Et.
  destruct Hv as (Hl & Hs & _). unfold leaf. cbn [_do_search]. rewrite Hs. unfold key_tree in Et.
  destruct (set_of_key modseq M v) as [[M' [t'|]]|] eqn:Es; [|done|].
  - pose proof (set_of_key_state _ _ _ Es) as ->. injection Et as ->. unfold set_of_key in Es. by destruct (sk_type v).
  - rewrite Et. unfold set_of_key in Es. by destruct (sk_type v).
Qed.
Lemma do_search_sub f c cs : _do_search id modseq f (GNode (sub_key c) cs) M =
  (r ← children_foreach (fun n M => r ← _do_search id modseq f n M; Done (r.1.1, r.2)) cs M; Done (GNode (prime_sub c) r.1, false, r.2)).
Proof. done. Qed.
Lemma do_search_query f q : searchable q -> within f (ids M) -> _do_search id modseq f (tree_of q) M = Done (prime f q, false, M).
Proof.
  intros Hq Hf. induction q as [tokens v|q IH|a b IHa IHb|set l IH] using query_ind'; cbn [tree_of prime].
  - by apply do_search_leaf.
  - rewrite do_search_sub. cbn [children_foreach]. by rewrite (IH Hq).
  - destruct Hq as (_ & _ & Ha & Hb). rewrite do_search_sub. cbn [children_foreach]. rewrite (IHa Ha). cbn [mbind pout_bind fst snd].
    by rewrite (IHb Hb).
  - destruct Hq as [Hk Hl]. apply searchable_forall in Hl. rewrite do_search_sub. cbn [children_foreach].
    rewrite do_search_leaf by done. cbn [mbind pout_bind fst snd].
    rewrite (children_foreach_map _ tree_of (prime f)); [done|].
    rewrite Forall_forall in *. intros q Hq. by rewrite IH by auto.
Qed.

(** ** The third walk *)
Lemma narrowed_within f P f' : narrowed f P f' -> within f' f.
Proof. intros Hn u. rewrite Hn. destruct (P u); [done|]. by intros [? ?]. Qed.
Lemma within_trans f g t : within f g -> within g t -> within f t.
Proof. unfold within. auto. Qed.
Lemma narrowed_comp f P f' Q f'' : narrowed f P f' -> narrowed f' Q f'' -> narrowed f (fun u => P u && Q u) f''.
Proof. intros N1 N2 u. rewrite N2, N1. by destruct (P u), (Q u). Qed.
Lemma narrowed_ext f P Q f' : (forall u, P u = Q u) -> narrowed f P f' -> narrowed f Q f'.
Proof. intros E Hn u. by rewrite Hn, E. Qed.
Lemma narrowed_decides f P f' : narrowed f P f' -> decides f P f'.
Proof. intros Hn u [v Hv]. rewrite Hn, Hv. by destruct (P u). Qed.

Lemma merge_and f t P : decides f P t -> narrowed f P (g_tree_merge f t IST_SUBSEARCH_AND).1.
Proof.
  intros Hd u. rewrite g_tree_merge_lookup. specialize (Hd u). destruct (g_tree_lookup f u) as [v|] eqn:E; [|by destruct (P u)].
  specialize (Hd ltac:(by eexists)). destruct (g_tree_lookup t u); cbn.
  - destruct Hd as [Hd _]. by rewrite Hd.
  - destruct Hd as [_ Hd]. destruct (P u); [|done]. by destruct (Hd eq_refl).
Qed.
Lemma merge_not f t P : narrowed f P t -> narrowed f (fun u => negb (P u)) (g_tree_merge f t IST_SUBSEARCH_NOT).1.
Proof.
  intros Hd u. rewrite g_tree_merge_lookup, Hd. by destruct (P u), (g_tree_lookup f u).
Qed.
Lemma merge_or f t1 t2 P Q : decides f P t1 -> decides f Q t2 -> decides f (fun u => P u || Q u) (g_tree_merge t1 t2 IST_SUBSEARCH_OR).1.
Proof.
  intros D1 D2 u Hu. rewrite g_tree_merge_lookup, orb_true_iff, <- (D1 u Hu), <- (D2 u Hu).
  destruct (g_tree_lookup t1 u), (g_tree_lookup t2 u); cbn; split; try tauto; try (intros; by eexists); try (by left; eexists); by right; eexists.
Qed.
Lemma merge_new f t P : decides f P t -> decides f P (g_tree_merge g_tree_new t IST_SUBSEARCH_OR).1.
Proof. intros Hd u Hu. rewrite g_tree_merge_lookup, lookup_new. cbn. by apply Hd. Qed.
Lemma copy_narrowed f P t : narrowed (copy_pairs (g_tree_traverse f) g_tree_new) P t -> narrowed f P t.
Proof. intros Hn u. by rewrite Hn, copy_pairs_lookup. Qed.
Lemma copy_within f : within (copy_pairs (g_tree_traverse f) g_tree_new) f.
Proof. intros u. by rewrite copy_pairs_lookup. Qed.

Lemma found_tree_decides F f v : searchable_key v -> within F (ids M) -> within f F -> decides f (key_sat v) (found_tree F v).
Proof.
  intros Hv HF Hf u Hu. unfold found_tree. destruct (key_tree_decides v F Hv HF) as (t & -> & Hd). apply Hd. auto.
Qed.

(** A walk over nodes narrows what was found by all of them. *)
Lemma merge_children {A} (g g' : A -> gnode) (P : A -> Z -> bool) F l :
  Forall (fun x => forall f, within f F -> exists f', _merge_search (g x) (Some f) = Done (g' x, Some f') /\ narrowed f (P x) f') l ->
  forall f, within f F -> exists f', children_foreach _merge_search (g <$> l) (Some f) = Done (g' <$> l, Some f') /\
    narrowed f (fun u => forallb (fun x => P x u) l) f'.
Proof.
  induction 1 as [|x l Hx _ IH]; intros f Hf; [by exists f|]. rewrite !fmap_cons. cbn [children_foreach forallb].
  destruct (Hx f Hf) as (f1 & -> & N1). cbn [mbind pout_bind fst snd].
  destruct (IH f1) as (f2 & E2 & N2); [by eapply within_trans; [eapply narrowed_within|]|].
  rewrite E2. exists f2. split; [done|]. by eapply narrowed_comp.
Qed.

Section third.
Variable F : gtree Z.
Hypothesis F_within : within F (ids M).

Definition merges q : Prop := forall f, within f F ->
  exists f', _merge_search (prime F q) (Some f) = Done (done_tree false q, Some f') /\ narrowed f (sat q) f'.

Lemma merge_leaf v f : searchable_key v -> within f F ->
  exists f', _merge_search (prime_leaf F v) (Some f) = Done (done_leaf v, Some f') /\ narrowed f (key_sat v) f'.
Proof.
  intros Hv Hf. eexists. split; [|by apply merge_and, found_tree_decides].
  destruct Hv as (Hl & _ & Hm & _). unfold prime_leaf, leaf. cbn [_merge_search].
  change (sk_type (v <| sk_found := Some (found_tree F v) |> <| searched := true |>)) with (sk_type v).
  change (merged (v <| sk_found := Some (found_tree F v) |> <| searched := true |>)) with (merged v). rewrite Hm.
  by destruct (sk_type v).
Qed.
Lemma merge_group set l f : searchable_key (set_key set) -> Forall merges l -> within f F ->
  exists f', children_foreach _merge_search (prime_leaf F (set_key set) :: (prime F <$> l)) (Some f) =
      Done (done_leaf (set_key set) :: (done_tree false <$> l), Some f') /\ narrowed f (sat (QGroup set l)) f'.
Proof.
  intros Hk Hl Hf. cbn [children_foreach]. destruct (merge_leaf _ f Hk Hf) as (f1 & -> & N1). cbn [mbind pout_bind fst snd].
  destruct (merge_children (prime F) (done_tree false) sat F l Hl f1) as (f2 & -> & N2);
    [by eapply within_trans; [eapply narrowed_within|]|].
  cbn. exists f2. split; [done|]. by eapply narrowed_comp.
Qed.

(** What the operand of an OR finds. *)
Definition operand_found (n : gnode) (f : option (gtree Z)) : pout (list gnode * option (gtree Z)) :=
  let 'GNode a xs := n in
  if bool_decide (sk_type a = IST_SUB IST_SUBSEARCH_AND) then children_foreach _merge_search xs (found_tree_copy f (sk_found a))
  else Done (xs, sk_found a).
Lemma merge_or_eq a b (f : option (gtree Z)) : _merge_search (GNode (prime_sub IST_SUBSEARCH_OR) [a; b]) f =
  (x ← operand_found a f; y ← operand_found b f;
   Done (GNode (merged_key (prime_sub IST_SUBSEARCH_OR)) [GNode (merged_key (gkey a)) x.1; GNode (merged_key (gkey b)) y.1],
         merge_trees f (merge_trees (Some g_tree_new) (merge_trees x.2 y.2 IST_SUBSEARCH_OR) IST_SUBSEARCH_OR) IST_SUBSEARCH_AND)).
Proof. by destruct a, b. Qed.
Lemma operand_merges q f : operand q = true -> searchable q -> merges q -> within f F ->
  match q with QGroup _ l => Forall merges l | _ => True end ->
  exists cs t, operand_found (prime F q) (Some f) = Done (cs, Some t) /\
    GNode (merged_key (gkey (prime F q))) cs = done_tree true q /\ decides f (sat q) t.
Proof.
  intros Ho Hq Hm Hf Hl. destruct q as [tokens v|q|a b|set l]; try done.
  - exists [], (found_tree F v). split_and!; [|done|by apply found_tree_decides].
    destruct Hq as (Ht & _). cbn [prime prime_leaf leaf operand_found]. 
    change (sk_type (v <| sk_found := Some (found_tree F v) |> <| searched := true |>)) with (sk_type v).
    case_bool_decide as E; [by rewrite E in Ht|done].
  - destruct Hq as [Hk _]. 
    destruct (merge_group set l (copy_pairs (g_tree_traverse f) g_tree_new) Hk Hl) as (f' & E & N);
      [by eapply within_trans; [apply copy_within|]|].
    exists (done_leaf (set_key set) :: (done_tree false <$> l)), f'. split_and!; [|done|by apply narrowed_decides, copy_narrowed].
    cbn [prime operand_found]. rewrite bool_decide_eq_true_2 by done. exact E.
Qed.

Lemma merge_query q : searchable q -> merges q /\ match q with QGroup _ l => Forall merges l | _ => True end.
Proof.
  induction q as [tokens v|q IH|a b IHa IHb|set l IH] using query_ind'; intros Hq;
    (split; [intros f Hf; cbn [prime done_tree sat]|try done]).
  - by apply merge_leaf.
  - destruct (proj1 (IH Hq) (copy_pairs (g_tree_traverse f) g_tree_new)) as (f' & E & N);
      [by eapply within_trans; [apply copy_within|]|]. apply copy_narrowed in N.
    exists (g_tree_merge f f' IST_SUBSEARCH_NOT).1. split; [|by apply merge_not].
    change (_merge_search (GNode (prime_sub IST_SUBSEARCH_NOT) [prime F q]) (Some f)) with
      (r ← children_foreach _merge_search [prime F q] (Some (copy_pairs (g_tree_traverse f) g_tree_new));
       Done (GNode (merged_key (prime_sub IST_SUBSEARCH_NOT)) r.1, merge_trees (Some f) r.2 IST_SUBSEARCH_NOT)).
    cbn [children_foreach]. by rewrite E.
  - destruct Hq as (Oa & Ob & Ha & Hb).
    destruct (operand_merges a f Oa Ha (proj1 (IHa Ha)) Hf (proj2 (IHa Ha))) as (xs & ta & Ea & Da & Na).
    destruct (operand_merges b f Ob Hb (proj1 (IHb Hb)) Hf (proj2 (IHb Hb))) as (ys & tb & Eb & Db & Nb).
    eexists. split; [rewrite merge_or_eq, Ea; cbn [mbind pout_bind]; rewrite Eb; cbn [mbind pout_bind fst snd]; by rewrite Da, Db|].
    by apply merge_and, merge_new, merge_or.
  - destruct Hq as [Hk Hl]. apply searchable_forall in Hl.
    destruct (merge_group set l f Hk) as (f' & E & N); [|done|].
    + rewrite Forall_forall in *. intros q Hq. by apply IH; auto.
    + exists f'. split; [|exact N].
      change (_merge_search (GNode (prime_sub IST_SUBSEARCH_AND) (prime_leaf F (set_key set) :: (prime F <$> l))) (Some f)) with
        (r ← children_foreach _merge_search (prime_leaf F (set_key set) :: (prime F <$> l)) (Some f); Done (GNode (prime_sub IST_SUBSEARCH_AND) r.1, r.2)).
      by rewrite E.
  - destruct Hq as [_ Hl]. apply searchable_forall in Hl. rewrite Forall_forall in *. intros q Hq. by apply IH; auto.
Qed.
End third.

(** ** The keys at the top *)
Definition is_set_key v : bool := match sk_type v with IST_SET | IST_UIDSET => true | _ => false end.
Definition is_set q : bool := match q with QKey _ v => is_set_key v | _ => false end.
(** A set at the top is used by the first walk. *)
Definition used_key v : search_key := v <| searched := true |> <| merged := true |> <| sk_found := None |>.
Definition top1 q : gnode := match q with QKey _ v => leaf (if is_set_key v then used_key v else v) | _ => tree_of q end.
Definition top2 f q : gnode := if is_set q then top1 q else prime f q.
Definition top3 q : gnode := if is_set q then top1 q else done_tree false q.

Lemma set_key_found v : is_set_key v = true -> searchable_key v ->
  exists t, set_of_key modseq M v = Some (M, Some t) /\ forall f, decides f (key_sat v) t.
Proof.
  intros Hv (_ & _ & _ & t & E). unfold key_sat. rewrite E. unfold key_tree in E.
  destruct (set_of_key modseq M v) as [[M' [t'|]]|] eqn:Es; [|done|].
  - rewrite (set_of_key_state _ _ _ Es). injection E as ->. exists t. split; [done|]. intros f u _. by rewrite bool_decide_eq_true.
  - unfold set_of_key in Es. unfold is_set_key in Hv. by destruct (sk_type v).
Qed.
Lemma no_set_key v : is_set_key v = false -> set_of_key modseq M v = None.
Proof. unfold is_set_key, set_of_key. by destruct (sk_type v). Qed.

Lemma prescan_set v f : is_set_key v = true -> searchable_key v ->
  exists f', _prescan_search modseq v (M, f) = (used_key v, false, (M, f')) /\ narrowed f (key_sat v) f'.
Proof.
  intros Hs Hv. destruct (set_key_found v Hs Hv) as (t & Et & Hd). destruct Hv as (_ & Hn & _).
  unfold _prescan_search. rewrite Hn. cbn [fst snd]. rewrite Et. eexists. split; [done|]. by apply merge_and.
Qed.
Lemma prescan_other k f : is_set_key k = false -> _prescan_search modseq k (M, f) = (k, false, (M, f)).
Proof. intros Hk. unfold _prescan_search. destruct (searched k); [done|]. cbn [fst]. by rewrite no_set_key. Qed.
Lemma prescan_rest k f : at_rest k -> _prescan_search modseq k (M, f) = (k, false, (M, f)).
Proof.
  intros [E|[E _]]; [apply prescan_other; unfold is_set_key; by rewrite E|]. unfold _prescan_search. by rewrite E.
Qed.

Definition set_sat q (u : Z) : bool := negb (is_set q) || sat q u.
Lemma visit_rest l qs f : Forall (node_all at_rest) l ->
  visit_keys (_prescan_search modseq) (l ++ qs) (M, f) =
    (l ++ (visit_keys (_prescan_search modseq) qs (M, f)).1, (visit_keys (_prescan_search modseq) qs (M, f)).2).
Proof.
  induction 1 as [|n l Hn _ IH]; [cbn [app]; by destruct (visit_keys _ qs _)|]. inversion_clear Hn as [k cs Hk _].
  cbn [app visit_keys]. rewrite prescan_rest by done. rewrite IH. by destruct (visit_keys _ qs _).
Qed.
Lemma visit_queries l : Forall searchable l -> forall f,
  exists f', visit_keys (_prescan_search modseq) (tree_of <$> l) (M, f) = (top1 <$> l, (M, f')) /\
    narrowed f (fun u => forallb (fun q => set_sat q u) l) f'.
Proof.
  induction 1 as [|q l Hq _ IH]; intros f; [by exists f|]. rewrite !fmap_cons. cbn [forallb].
  destruct (is_set q) eqn:Es.
  - destruct q as [tokens v| | |]; try done. cbn [tree_of leaf visit_keys top1]. cbn in Es.
    destruct (prescan_set v f Es Hq) as (f1 & -> & N1). destruct (IH f1) as (f2 & -> & N2). exists f2. rewrite Es.
    split; [done|]. eapply narrowed_ext; [|by eapply narrowed_comp]. intros u. unfold set_sat. cbn. by rewrite Es.
  - assert (exists k cs, tree_of q = GNode k cs /\ top1 q = GNode k cs /\ is_set_key k = false) as (k & cs & -> & -> & Hk).
    { destruct q as [tokens v| | |]; cbn in *; eauto 6. rewrite Es. eauto. }
    cbn [visit_keys]. rewrite prescan_other by done. destruct (IH f) as (f2 & -> & N2). exists f2. split; [done|].
    eapply narrowed_ext; [|exact N2]. intros u. unfold set_sat at 2. by rewrite Es.
Qed.

Lemma top_rest q : is_set q = true -> node_all at_rest (top1 q).
Proof.
  destruct q as [tokens v| | |]; try done. cbn. intros ->. constructor; [|constructor]. right. split; [done|by left].
Qed.
Lemma top_tree q : is_set q = false -> top1 q = tree_of q.
Proof. destruct q as [tokens v| | |]; try done. cbn. by intros ->. Qed.
Lemma height_top1 q : height (top1 q) = height (tree_of q).
Proof. by destruct q. Qed.

(** The old keys, which are at rest, and the queries after the three walks. *)
Section walks.
Variables (h : nat) (old : list gnode) (l : list query).
Hypothesis old_rest : Forall (node_all at_rest) old.
Hypothesis l_searchable : Forall searchable l.
Hypothesis high : Forall (fun n => (height n <= h)%nat) (old ++ (tree_of <$> l)).

Lemma old_high n : n ∈ old -> (height n <= h)%nat.
Proof. intros Hn. rewrite Forall_forall in high. apply high, elem_of_app. by left. Qed.
Lemma new_high q : q ∈ l -> (height (tree_of q) <= h)%nat.
Proof. intros Hq. rewrite Forall_forall in high. apply high, elem_of_app. right. by apply list_elem_of_fmap_2. Qed.

Lemma search_walk f : within f (ids M) ->
  until_stop (pre_order (_do_search id modseq f) h) (old ++ (top1 <$> l)) M = Done (old ++ (top2 f <$> l), false, M).
Proof.
  intros Hf. rewrite (until_stop_app _ _ old _ _ M).
  2:{ apply until_stop_id, Forall_forall. intros n Hn. apply pre_order_id with (P := found_already); [apply do_search_again| |by apply old_high].
      rewrite Forall_forall in old_rest. eapply node_all_impl; [apply at_rest_found|auto]. }
  assert (until_stop (pre_order (_do_search id modseq f) h) (top1 <$> l) M = Done (top2 f <$> l, false, M)) as ->; [|done].
  pose proof new_high as Hh. clear high. induction l_searchable as [|q l' Hq Hl' IH]; [done|]. rewrite !fmap_cons. cbn [until_stop].
  rewrite (pre_order_once _ found_already _ (top2 f q) M M).
  - cbn [mbind pout_bind]. rewrite IH; [done|exact Hl'|]. intros q' Hq'. apply Hh. by right.
  - unfold top2. destruct (is_set q) eqn:Es; [apply do_search_again; eapply node_all_impl; [apply at_rest_found|by apply top_rest]|].
    rewrite top_tree by done. by apply do_search_query.
  - unfold top2. destruct (is_set q) eqn:Es; [done|]. by rewrite height_prime, height_top1.
  - rewrite height_top1. apply Hh. by left.
  - unfold top2. destruct (is_set q) eqn:Es; [eapply node_all_impl; [apply at_rest_found|by apply top_rest]|apply prime_found].
  - apply do_search_again.
Qed.

Lemma merge_visit_again n (f : option (gtree Z)) : node_all at_rest n -> merge_visit n f = Done (n, false, f).
Proof. intros Hn. unfold merge_visit. by rewrite merge_again. Qed.
Lemma merge_walk F f : within F (ids M) -> within f F ->
  exists f', until_stop (pre_order merge_visit h) (old ++ (top2 F <$> l)) (Some f) = Done (old ++ (top3 <$> l), false, Some f') /\
    narrowed f (fun u => forallb (fun q => is_set q || sat q u) l) f'.
Proof.
  intros HF Hf. rewrite (until_stop_app _ _ old _ _ (Some f)).
  2:{ apply until_stop_id, Forall_forall. intros n Hn. apply pre_order_id with (P := at_rest); [intros; by apply merge_visit_again| |by apply old_high].
      rewrite Forall_forall in old_rest. auto. }
  assert (exists f', until_stop (pre_order merge_visit h) (top2 F <$> l) (Some f) = Done (top3 <$> l, false, Some f') /\
    narrowed f (fun u => forallb (fun q => is_set q || sat q u) l) f') as (f' & -> & N); [|by exists f'].
  pose proof new_high as Hh. clear high. revert f Hf. induction l_searchable as [|q l' Hq Hl' IH]; intros f Hf; [by exists f|].
  rewrite !fmap_cons. cbn [until_stop forallb].
  assert (exists f1, merge_visit (top2 F q) (Some f) = Done (top3 q, false, Some f1) /\ narrowed f (fun u => is_set q || sat q u) f1) as (f1 & E1 & N1).
  { unfold top2, top3. destruct (is_set q) eqn:Es.
    - exists f. split; [by apply merge_visit_again, top_rest|]. by intros u.
    - destruct (merge_query F HF q Hq) as [Hm _]. destruct (Hm f Hf) as (f1 & E & N1). exists f1. split; [|exact N1].
      unfold merge_visit. by rewrite E. }
  rewrite (pre_order_once _ at_rest _ (top3 q) (Some f) (Some f1)).
  - cbn [mbind pout_bind]. destruct (IH Hl' (fun q' Hq' => Hh q' ltac:(by right)) f1) as (f2 & -> & N2).
    + by eapply within_trans; [eapply narrowed_within|].
    + exists f2. split; [done|]. by eapply narrowed_comp.
  - exact E1.
  - unfold top2, top3. destruct (is_set q); [done|]. by rewrite height_prime, height_done.
  - unfold top2. destruct (is_set q); rewrite ?height_top1, ?height_prime; apply Hh; by left.
  - unfold top3. destruct (is_set q) eqn:Es; [by apply top_rest|apply done_rest].
  - intros n Hn. by apply merge_visit_again.
Qed.
End walks.

(** ** The whole search *)

(** The tree between two commands: the cursor is at the root, and nothing is left to do. *)
Definition settled (c : cursor) : Prop :=
  c = [] \/ exists k cs, c = [(k, cs)] /\ searched k = true /\ merged k = true /\ Forall (node_all at_rest) cs.

Lemma height_root k cs : height (GNode k cs) = S (foldr Nat.max 0%nat (height <$> cs)).
Proof. done. Qed.
Lemma heights_below cs : Forall (fun n => (height n <= foldr Nat.max 0%nat (height <$> cs))%nat) cs.
Proof. apply Forall_forall. intros n Hn. pose proof (height_child key_zero cs n Hn) as Hlt. rewrite height_root in Hlt. lia. Qed.
Lemma heights_same old l (g : query -> gnode) : (forall q, height (g q) = height (tree_of q)) ->
  height <$> (old ++ (g <$> l)) = height <$> (old ++ (tree_of <$> l)).
Proof. intros Hg. rewrite !fmap_app. f_equal. apply height_map, Forall_forall. auto. Qed.
Lemma height_top2 f q : height (top2 f q) = height (tree_of q).
Proof. unfold top2. destruct (is_set q); [apply height_top1|apply height_prime]. Qed.

Lemma traverse_eq {S} (visit : gnode -> S -> pout (gnode * bool * S)) k cs s cs' s' :
  visit (GNode k cs) s = Done (GNode k cs, false, s) ->
  until_stop (pre_order visit (foldr Nat.max 0%nat (height <$> cs))) cs s = Done (cs', false, s') ->
  traverse visit (GNode k cs) s = Done (GNode k cs', s').
Proof. intros Ev El. unfold traverse. rewrite height_root. cbn [pre_order]. rewrite Ev. cbn [mbind pout_bind]. by rewrite El. Qed.

Lemma search_walks k k' old l f0 (ss : search_state) :
  ss_search ss = [(k, old ++ (tree_of <$> l))] ->
  _prescan_search modseq k (M, copy_pairs (g_tree_traverse (ids M)) g_tree_new) = (k', false, (M, f0)) -> within f0 (ids M) ->
  searched k' = true -> merged k' = true -> Forall (node_all at_rest) old -> Forall searchable l ->
  exists ss' f, dbmail_mailbox_search id modseq M ss = Done (M, ss') /\ ss_found ss' = Some f /\
    narrowed f0 (fun u => forallb (fun q => sat q u) l) f /\ settled (ss_search ss').
Proof.
  intros Ess Ek Hf0 Hs Hm Hold Hl. unfold dbmail_mailbox_search. rewrite Ess. cbn [g_node_get_root close_up].
  unfold traverse_top. rewrite Ek, visit_rest by done.
  destruct (visit_queries l Hl f0) as (f1 & -> & N1). cbn [fst snd].
  assert (within f1 (ids M)) as Hf1 by (eapply within_trans; [by eapply narrowed_within|done]).
  assert (forall g : query -> gnode, (forall q, height (g q) = height (tree_of q)) ->
    Forall (fun n => (height n <= foldr Nat.max 0%nat (height <$> (old ++ (g <$> l))))%nat) (old ++ (tree_of <$> l))) as Hh.
  { intros g Hg. rewrite (heights_same _ _ g Hg). apply heights_below. }
  cbv beta match. rewrite (traverse_eq _ _ _ _ (old ++ (top2 f1 <$> l)) M).
  2:{ cbn [_do_search]. by rewrite Hs. }
  2:{ rewrite search_walk; [done|done..|by apply Hh, height_top1|done]. }
  cbn [mbind pout_bind fst snd].
  destruct (merge_walk (foldr Nat.max 0%nat (height <$> (old ++ (top2 f1 <$> l)))) old l Hold Hl (Hh _ (height_top2 f1)) f1 f1 Hf1) as (f2 & E2 & N2);
    [by intros u|].
  rewrite (traverse_eq merge_visit k' (old ++ (top2 f1 <$> l)) (Some f1) (old ++ (top3 <$> l)) (Some f2));
    [|unfold merge_visit; cbn [_merge_search]; rewrite Hm; by destruct (sk_type k')|exact E2].
  cbn [mbind pout_bind fst snd]. eexists _, f2. split_and!; [done|done| |].
  - eapply narrowed_ext; [|by eapply narrowed_comp]. intros u. cbv beta. clear. induction l as [|q l IH]; [done|]. cbn [forallb].
    rewrite <- IH. unfold set_sat. destruct (is_set q), (sat q u); cbn; try done; by rewrite ?andb_false_r.
  - right. exists k', (old ++ (top3 <$> l)). split_and!; [done..|]. apply Forall_app. split; [done|].
    apply Forall_fmap, Forall_forall. intros q Hq. cbn. unfold top3. destruct (is_set q) eqn:Es; [by apply top_rest|apply done_rest].
Qed.

Lemma search_narrows set l (ss : search_state) : settled (ss_search ss) -> searchable (QGroup set l) ->
  exists ss' f, dbmail_mailbox_search id modseq M (ss <| ss_search ::= search_added set l |>) = Done (M, ss') /\
    ss_found ss' = Some f /\ narrowed (ids M) (sat (QGroup set l)) f /\ settled (ss_search ss').
Proof.
  intros Hss [Hk Hl]. apply searchable_forall in Hl. destruct Hss as [E|(k & cs & E & Hs & Hm & Hcs)].
  - destruct (prescan_set (set_key set) (copy_pairs (g_tree_traverse (ids M)) g_tree_new) eq_refl Hk) as (f0 & E0 & N0).
    apply copy_narrowed in N0.
    edestruct (search_walks (set_key set) (used_key (set_key set)) [] l f0) as (ss' & f & E1 & Ef & N & Hr);
      [ |exact E0|by eapply narrowed_within|done|done|constructor|done|].
    2:{ exists ss', f. split_and!; [exact E1|done| |done]. eapply narrowed_ext; [|by eapply narrowed_comp]. done. }
    destruct ss as [c ch f so]. cbn in E. by subst c.
  - edestruct (search_walks k k cs (QKey [] (set_key set) :: l) (copy_pairs (g_tree_traverse (ids M)) g_tree_new)) as (ss' & f & E1 & Ef & N & Hr);
      [ |by apply prescan_rest; right; split; [|left]|apply copy_within|done|done|done|by constructor|].
    2:{ exists ss', f. split_and!; [exact E1|done| |done]. apply copy_narrowed in N. exact N. }
    destruct ss as [c ch f so]. cbn in E. by subst c.
Qed.
End facts.
