(* ===== verification/SearchEnds.v ===== *)
(** * Every search comes to an end

    The parser of the arguments and the walks over the tree of search keys end for all inputs:
    the fuel of the definitions never runs out. *)
From S2P Require Import Prelude CLib GLib Tree GListUtil MailboxState MiscText MiscDate Iconv SqlFragment SearchKeys SearchRun SearchParse SearchFacts.

(** A computation with fuel to spare, and what it returns. *)
Definition fueled {A} (P : A -> Prop) (r : pout A) : Prop := match r with Done x => P x | Undef => True | NoFuel => False end.
Lemma fueled_bind {A B} (m : pout A) (k : A -> pout B) P Q : fueled P m -> (forall x, P x -> fueled Q (k x)) -> fueled Q (x ← m; k x).
Proof. destruct m; [|done..]. cbn. auto. Qed.
Lemma fueled_impl {A} (m : pout A) P Q : fueled P m -> (forall x, P x -> Q x) -> fueled Q m.
Proof. destruct m; [|done..]. cbn. auto. Qed.

Section walks.
Context `{GTreeOps}.

Definition heights (l : list gnode) : list nat := height <$> l.

Lemma children_fueled {S} (f : gnode -> S -> pout (gnode * S)) l : forall s,
  Forall (fun n => forall s, fueled (fun r => height r.1 = height n) (f n s)) l ->
  fueled (fun r => heights r.1 = heights l) (children_foreach f l s).
Proof.
  induction l as [|n l IH]; intros s Hl; [done|]. apply Forall_cons in Hl as [Hn Hl]. cbn [children_foreach].
  eapply fueled_bind; [apply Hn|]. intros [n' s1] E. cbn [fst snd] in *. eapply fueled_bind; [by apply IH|].
  intros [l' s2] E'. cbn [fst] in E'. change (height n' :: heights l' = height n :: heights l). congruence.
Qed.
Lemma until_fueled {S} (f : gnode -> S -> pout (gnode * bool * S)) l : forall s,
  Forall (fun n => forall s, fueled (fun r => height r.1.1 = height n) (f n s)) l ->
  fueled (fun r => heights r.1.1 = heights l) (until_stop f l s).
Proof.
  induction l as [|n l IH]; intros s Hl; [done|]. apply Forall_cons in Hl as [Hn Hl]. cbn [until_stop].
  eapply fueled_bind; [apply Hn|]. intros [[n' stop] s1] E. cbn [fst snd] in *. destruct stop.
  { change (height n' :: heights l = height n :: heights l). congruence. }
  eapply fueled_bind; [by apply IH|]. intros [[l' stop] s2] E'. cbn [fst] in E'.
  change (height n' :: heights l' = height n :: heights l). congruence.
Qed.
Lemma height_heights k cs k' cs' : heights cs = heights cs' -> height (GNode k cs) = height (GNode k' cs').
Proof. unfold heights. intros E. rewrite !height_root. by rewrite E. Qed.
Lemma in_heights cs cs' n : heights cs = heights cs' -> n ∈ cs -> (height n <= foldr Nat.max 0%nat (heights cs'))%nat.
Proof.
  intros <- Hn. pose proof (heights_below cs) as Hb. rewrite Forall_forall in Hb. by apply Hb.
Qed.

(** A visit keeps the height of the node: the walk needs no more fuel than the height. *)
Definition keeps_height {S} (visit : gnode -> S -> pout (gnode * bool * S)) : Prop :=
  forall n s, fueled (fun r => height r.1.1 = height n) (visit n s).
Lemma pre_order_fueled {S} (visit : gnode -> S -> pout (gnode * bool * S)) : keeps_height visit ->
  forall h n s, (height n <= h)%nat -> fueled (fun r => height r.1.1 = height n) (pre_order visit h n s).
Proof.
  intros Hv. induction h as [|h IH]; intros n s Hh; [destruct n; simpl in Hh; lia|]. cbn [pre_order].
  eapply fueled_bind; [apply Hv|]. intros [[[k cs] stop] s1] E. cbn [fst] in E. destruct stop; [exact E|].
  eapply fueled_bind.
  - apply until_fueled, Forall_forall. intros m Hm s2. apply IH. pose proof (height_child k cs m Hm). lia.
  - intros [[cs' stop] s2] E'. cbn [fst] in E'. change (height (GNode k cs') = height n). rewrite <- E. by apply height_heights.
Qed.
Lemma traverse_fueled {S} (visit : gnode -> S -> pout (gnode * bool * S)) n s :
  keeps_height visit -> fueled (fun _ => True) (traverse visit n s).
Proof. intros Hv. unfold traverse. eapply fueled_bind; [by apply pre_order_fueled|done]. Qed.
End walks.

Section search.
Context `{GTreeOps} `{GLibStr} `{SqlConf} `{SearchAnswers} `{SearchConf}.
Variables id modseq : Z.

Lemma max_seq_fueled M by_uid l : forall z, fueled (fun _ => True) (max_seq M by_uid z l).
Proof.
  induction l as [|k l IH]; intros z; [done|]. cbn [max_seq]. eapply (fueled_bind _ _ (fun _ => True)); [|intros; apply IH].
  unfold shown_info. by destruct (_ ≫= _).
Qed.
Lemma shown_seq_fueled M by_uid l : fueled (fun _ => True) (shown_seq modseq M by_uid l).
Proof. unfold shown_seq. destruct (modseq =? 0); [done|apply max_seq_fueled]. Qed.
Lemma key_test_fueled k : fueled (fun _ => True) (key_test k).
Proof.
  unfold key_test. eapply (fueled_bind _ _ (fun _ => True)); [|done]. unfold date_cond. destruct (bool_decide _); [done|].
  assert (forall t oc, fueled (fun _ => True) (date_test (sk_search k) t oc)) as Hd
    by (intros t oc; unfold date_test; destruct (behind _ _); [by case_bool_decide|done]).
  repeat (eapply fueled_bind; [apply Hd|intros ? _]). done.
Qed.
Lemma state_loop_fueled M f l : forall t, fueled (fun _ => True) (search_state_loop M f l t).
Proof. induction l as [|u l IH]; intros t; [done|]. cbn [search_state_loop]. destruct (g_tree_lookup _ u); [apply IH|done]. Qed.
Lemma mailbox_search_fueled M f k : fueled (fun _ => True) (mailbox_search id modseq M f k).
Proof.
  unfold mailbox_search. eapply (fueled_bind _ _ (fun _ => True)).
  - unfold inset_of. destruct (bool_decide _); [|done]. destruct (nothing_found _); [done|].
    eapply fueled_bind; [apply shown_seq_fueled|done].
  - intros inset _. destruct (_ && _); [|done]. eapply fueled_bind; [apply key_test_fueled|]. intros [g|] _; [apply state_loop_fueled|done].
Qed.

Lemma do_search_height f n : forall M, fueled (fun r => height r.1.1 = height n) (_do_search id modseq f n M).
Proof.
  induction n as [k cs IH] using gnode_ind'. intros M. cbn [_do_search]. destruct (searched k); [done|].
  destruct (sk_type k); try done.
  all: try (destruct (set_of_key modseq M k) as [[M' [t|]]|]; done).
  all: try (eapply fueled_bind; [apply mailbox_search_fueled|done]).
  eapply fueled_bind.
  - apply children_fueled. eapply Forall_impl; [exact IH|]. intros n Hn M'. cbn beta. eapply fueled_bind; [apply Hn|]. by intros [[n' s] M''] E.
  - intros [cs' M'] E. exact (height_heights k cs' k cs E).
Qed.
Definition merge_fueled (n : gnode) : Prop := forall f, fueled (fun r => height r.1 = height n) (_merge_search n f).
Lemma merge_height n : merge_fueled n /\ Forall merge_fueled (gchildren n).
Proof.
  induction n as [k cs IH] using gnode_ind'. assert (Forall merge_fueled cs) as IH1 by (eapply Forall_impl; [exact IH|by intros ? [? _]]).
  split; [|exact IH1]. intros f. cbn [_merge_search].
  assert (forall f, fueled (fun r => heights r.1 = heights cs) (children_foreach _merge_search cs f)) as Hc by (intros; by apply children_fueled).
  destruct (sk_type k); try done; (destruct (merged k); [done|]); try done.
  destruct condition; try (eapply fueled_bind; [apply Hc|]; intros [cs' f'] E; exact (height_heights k cs' k cs E)).
  destruct cs as [|[a xs] [|[b ys] rest]]; try done. clear Hc IH1.
  apply Forall_cons in IH as [[_ IHa] IH]. apply Forall_cons in IH as [[_ IHb] _]. cbn [gchildren] in IHa, IHb.
  assert (forall (c : search_key) (zs : list gnode) g, Forall merge_fueled zs -> fueled (fun r => heights r.1 = heights zs)
    (if bool_decide (sk_type c = IST_SUB IST_SUBSEARCH_AND) then children_foreach _merge_search zs g else Done (zs, sk_found c))) as Hz
    by (intros c zs g Hzs; destruct (bool_decide _); [by apply children_fueled|done]).
  eapply fueled_bind; [by apply Hz|]. intros [xs' fa] Ea. eapply fueled_bind; [by apply Hz|]. intros [ys' fb] Eb. cbn [fst] in *.
  apply (height_heights k _ k). change (height (GNode (merged_key a) xs') :: height (GNode (merged_key b) ys') :: heights rest =
    height (GNode a xs) :: height (GNode b ys) :: heights rest).
  f_equal; [|f_equal]; by apply height_heights.
Qed.

(** The search and the sort of a mailbox end for every tree. *)
Lemma search_fueled M ss : fueled (fun _ => True) (dbmail_mailbox_search id modseq M ss).
Proof.
  unfold dbmail_mailbox_search. destruct (g_node_get_root _) as [root|]; [|done]. destruct (traverse_top _ _ _) as [root1 [M1 f1]].
  eapply fueled_bind; [apply traverse_fueled; intros n s; apply do_search_height|]. intros [root2 M2] _.
  eapply fueled_bind; [apply traverse_fueled|done]. intros n s. unfold merge_visit.
  eapply fueled_bind; [apply merge_height|]. by intros [n' f'] E.
Qed.
Lemma sort_fueled ss : fueled (fun _ => True) (dbmail_mailbox_sort id ss).
Proof.
  unfold dbmail_mailbox_sort. destruct (g_node_get_root _) as [root|]; [|done].
  eapply fueled_bind; [apply traverse_fueled|done]. intros [k cs] s. unfold _do_sort. destruct (_ || _); [done|].
  destruct (sort_rows _ _ _) as [rows ok]. by destruct ok.
Qed.
End search.

(** C27. The parser of SEARCH, SORT and THREAD, the search and the sort end for all arguments, trees
    and answers: no result is the lack of fuel. *)
Theorem search_terminates `{GTreeOps} `{GLibStr} `{IconvLib} `{SqlConf} `{SearchAnswers} `{SearchConf} keys order q id modseq M ss :
  dbmail_mailbox_build_imap_search keys order q <> NoFuel /\ dbmail_mailbox_search id modseq M ss <> NoFuel /\
  dbmail_mailbox_sort id ss <> NoFuel.
Proof.
  pose proof (build_imap_search_ends keys order q) as E1. pose proof (search_fueled id modseq M ss) as E2. pose proof (sort_fueled id ss) as E3.
  split_and!; intros E; [by rewrite E in E1|by rewrite E in E2|by rewrite E in E3].
Qed.
