(* ===== verification/Acl.v ===== *)
(** * dm_acl.c: access control lists

    A row of the [acl] table is the set of its columns that are 1. Every SQL statement takes
    one answer of the script [sql] ([true]: it is executed, [false]: it raises an exception),
    so that each failure of the database is a behaviour of the model; an empty script is a
    database that works. *)
From S2P Require Import Prelude CLib GLib Tree MailboxState MiscText.

(** ** The rights *)
Definition NR_ACL_FLAGS : nat := 13.
Inductive ACLRight :=
  | ACL_RIGHT_LOOKUP | ACL_RIGHT_READ | ACL_RIGHT_SEEN | ACL_RIGHT_WRITE | ACL_RIGHT_INSERT
  | ACL_RIGHT_POST | ACL_RIGHT_CREATE | ACL_RIGHT_DELETE | ACL_RIGHT_DELETED
  | ACL_RIGHT_EXPUNGE | ACL_RIGHT_ADMINISTER | ACL_RIGHT_NONE.
#[export] Instance ACLRight_eq_dec : EqDecision ACLRight.
Proof. solve_decision. Defined.

(** The rights in the order of the enumeration, [ACL_RIGHT_NONE] left out. *)
Definition all_rights : list ACLRight :=
  [ACL_RIGHT_LOOKUP; ACL_RIGHT_READ; ACL_RIGHT_SEEN; ACL_RIGHT_WRITE; ACL_RIGHT_INSERT;
   ACL_RIGHT_POST; ACL_RIGHT_CREATE; ACL_RIGHT_DELETE; ACL_RIGHT_DELETED; ACL_RIGHT_EXPUNGE;
   ACL_RIGHT_ADMINISTER].
Definition right_index (r : ACLRight) : nat :=
  match r with
  | ACL_RIGHT_LOOKUP => 0 | ACL_RIGHT_READ => 1 | ACL_RIGHT_SEEN => 2 | ACL_RIGHT_WRITE => 3
  | ACL_RIGHT_INSERT => 4 | ACL_RIGHT_POST => 5 | ACL_RIGHT_CREATE => 6 | ACL_RIGHT_DELETE => 7
  | ACL_RIGHT_DELETED => 8 | ACL_RIGHT_EXPUNGE => 9 | ACL_RIGHT_ADMINISTER => 10 | ACL_RIGHT_NONE => 11
  end.
Definition acl_right_strings : list cstr :=
  lit <$> ["lookup_flag"; "read_flag"; "seen_flag"; "write_flag"; "insert_flag"; "post_flag";
           "create_flag"; "delete_flag"; "deleted_flag"; "expunge_flag"; "administer_flag";
           "create_flag"; "delete_flag"]%string.
Definition acl_right_chars : cstr := lit "lrswipkxteacd".
(** [acl_right_strings[right]] and [acl_right_chars[right]] *)
Definition right_string (r : ACLRight) : cstr := default [] (acl_right_strings !! right_index r).
Definition right_char (r : ACLRight) : ascii := char_at acl_right_chars (right_index r).

Definition acl_get_right_from_char (right_char : ascii) : ACLRight :=
  match right_char with
  | "l"%char => ACL_RIGHT_LOOKUP
  | "r"%char => ACL_RIGHT_READ
  | "s"%char => ACL_RIGHT_SEEN
  | "w"%char => ACL_RIGHT_WRITE
  | "i"%char => ACL_RIGHT_INSERT
  | "p"%char => ACL_RIGHT_POST
  | "k"%char => ACL_RIGHT_CREATE
  | "x"%char => ACL_RIGHT_DELETE
  | "t"%char => ACL_RIGHT_DELETED
  | "e"%char => ACL_RIGHT_EXPUNGE
  | "a"%char => ACL_RIGHT_ADMINISTER
  | _ => ACL_RIGHT_NONE
  end.

(** ** The tables *)
Record acldb := mkacldb {
  acl : gmap (Z * Z) (gset cstr);   (** user and mailbox to the rights of the row *)
  owners : gmap Z Z;                (** mailbox to owner *)
  sql : list bool;
}.
#[export] Instance acldb_settable : Settable acldb := fun r => mkacldb (acl r) (owners r) (sql r).

Definition sql_next (w : acldb) : acldb * bool :=
  match sql w with [] => (w, true) | ok :: script => (w <| sql := script |>, ok) end.
Definition db_result (ok : bool) (r : Z) : Z := if ok then r else -1.

Definition db_acl_has_acl (w : acldb) (userid mboxid : Z) : acldb * Z :=
  let '(w, ok) := sql_next w in
  (w, db_result ok (if bool_decide (is_Some (acl w !! (userid, mboxid))) then 1 else 0)).
(** [db_update] answers 1 for a statement that is executed and 0 for one that fails; a row
    with the key of another row cannot be inserted. *)
Definition db_acl_create_acl (w : acldb) (userid mboxid : Z) : acldb * Z :=
  let '(w, ok) := sql_next w in
  if ok && bool_decide (acl w !! (userid, mboxid) = None)
  then (w <| acl ::= <[(userid, mboxid) := ∅]> |>, 1) else (w, 0).
Definition db_acl_update (w : acldb) (userid mboxid : Z) (right_flag : cstr) (set : bool) : acldb * Z :=
  let '(w, ok) := sql_next w in
  if ok then (w <| acl ::= alter (fun row => if set then {[right_flag]} ∪ row else row ∖ {[right_flag]}) (userid, mboxid) |>, 1)
  else (w, 0).
Definition db_acl_delete_acl (w : acldb) (userid mboxid : Z) : acldb * Z :=
  let '(w, ok) := sql_next w in
  if ok then (w <| acl ::= delete (userid, mboxid) |>, 1) else (w, 0).
Definition db_user_is_mailbox_owner (w : acldb) (userid mboxid : Z) : acldb * Z :=
  let '(w, ok) := sql_next w in
  (w, db_result ok (if bool_decide (owners w !! mboxid = Some userid) then 1 else 0)).
(** The result and the owner, which is 0 when there is none. *)
Definition db_get_mailbox_owner (w : acldb) (mboxid : Z) : acldb * (Z * Z) :=
  let '(w, ok) := sql_next w in
  let o := if ok then default 0 (owners w !! mboxid) else 0 in
  (w, (db_result ok (if o =? 0 then 0 else 1), o)).

Definition db_acl_set_right (w : acldb) (userid mboxid : Z) (right_flag : cstr) (set : bool) : acldb * Z :=
  let '(w, r) := db_user_is_mailbox_owner w userid mboxid in
  if r <? 0 then (w, -1)
  else if r =? 1 then (w, 0)
  else
    let '(w, r) := db_acl_has_acl w userid mboxid in
    if r <? 0 then (w, -1)
    else
      let '(w, created) := if r =? 0 then db_acl_create_acl w userid mboxid else (w, 1) in
      if created =? -1 then (w, -1)
      else db_acl_update w userid mboxid right_flag set.

(** ** Changing rights *)
Definition acl_set_one_right (w : acldb) (userid mboxid : Z) (r : ACLRight) (set : bool) : acldb * Z :=
  db_acl_set_right w userid mboxid (right_string r) set.

(** The rights a character stands for: the old [c] and [d] are expanded. *)
Definition change_of_char (c : ascii) : list ACLRight :=
  if bool_decide (c = "c"%char) then [acl_get_right_from_char "k"]
  else if bool_decide (c = "d"%char)
       then [acl_get_right_from_char "x"; acl_get_right_from_char "t"; acl_get_right_from_char "e"]
  else [acl_get_right_from_char c].
(** A loop that ends with -1 at the first step that fails. *)
Fixpoint while_ok {X} (step : acldb -> X -> acldb * Z) (w : acldb) (xs : list X) : acldb * Z :=
  match xs with
  | [] => (w, 1)
  | x :: xs => let '(w, res) := step w x in if res <? 0 then (w, -1) else while_ok step w xs
  end.
Definition set_each (w : acldb) (userid mboxid : Z) (rs : list ACLRight) (set : bool) : acldb * Z :=
  while_ok (fun w r => acl_set_one_right w userid mboxid r set) w rs.
Definition change_loop (w : acldb) (userid mboxid : Z) (chars : cstr) (set : bool) : acldb * Z :=
  while_ok (fun w c => set_each w userid mboxid (change_of_char c) set) w chars.
Definition acl_change_rights (w : acldb) (userid mboxid : Z) (rightsstring : cstr) (set : bool) : acldb * Z :=
  change_loop w userid mboxid (tail rightsstring) set.

(** The string the replacement looks the characters up in. *)
Definition replace_chars (rights : cstr) : cstr :=
  let s := take 256 rights in
  let s := if bool_decide ("c"%char ∈ s) then s ++ lit "k" else s in
  if bool_decide ("d"%char ∈ s) then s ++ lit "xte" else s.
Definition replace_loop (w : acldb) (userid mboxid : Z) (rs : list ACLRight) (s : cstr) : acldb * Z :=
  while_ok (fun w r => db_acl_set_right w userid mboxid (right_string r) (bool_decide (right_char r ∈ s))) w rs.
Definition acl_replace_rights (w : acldb) (userid mboxid : Z) (rights : cstr) : acldb * Z :=
  replace_loop w userid mboxid all_rights (replace_chars rights).

Definition acl_set_rights (w : acldb) (userid mboxid : Z) (rightsstring : cstr) : acldb * Z :=
  if bool_decide (head rightsstring = Some "-"%char) then acl_change_rights w userid mboxid rightsstring false
  else if bool_decide (head rightsstring = Some "+"%char) then acl_change_rights w userid mboxid rightsstring true
  else acl_replace_rights w userid mboxid rightsstring.

(** ** Checking a right *)

(** The user data base: names to ids and back. *)
Class AuthNames := {
  auth_user_exists : cstr -> option Z;
  auth_get_userid : Z -> option cstr;
}.
Definition DBMAIL_ACL_ANYONE_USER : cstr := lit "anyone".

Section reading.
Context `{GTreeOps} `{MailboxDB} `{GLibStr} `{AuthNames}.

Definition needs_write (r : ACLRight) : bool :=
  match r with ACL_RIGHT_LOOKUP | ACL_RIGHT_READ | ACL_RIGHT_NONE => false | _ => true end.
Definition acl_has_right (M : MailboxState_T) (userid : Z) (r : ACLRight) : MailboxState_T * Z :=
  let '(M, allowed) :=
    if needs_write r then let '(M, p) := MailboxState_getPermission M in (M, p =? IMAPPERM_READWRITE)
    else (M, true) in
  if negb allowed then (M, 0)
  else
    let right_flag := right_string r in
    let '(M, test) := MailboxState_hasPermission M userid right_flag in
    if negb (test =? 0) then (M, 1)
    else match auth_user_exists DBMAIL_ACL_ANYONE_USER with
         | Some anyone_userid => MailboxState_hasPermission M anyone_userid right_flag
         | None => (M, 0)
         end.

(** ** Showing rights *)

(** The flags of a row in the order of the rights, [struct ACLMap]. *)
Definition ACLMap : Type := ACLRight -> bool.
Definition map_of_row (row : gset cstr) : ACLMap := fun r => bool_decide (right_string r ∈ row).
(** The [SELECT] of [MailboxState_getAcl] for one user. *)
Definition select_row (w : acldb) (userid mboxid : Z) : acldb * option (option (gset cstr)) :=
  let '(w, ok) := sql_next w in (w, if ok then Some (acl w !! (userid, mboxid)) else None).
Definition MailboxState_getAcl (w : acldb) (mboxid userid : Z) (map : ACLMap) : acldb * Z * ACLMap :=
  if mboxid =? 0 then (w, 1, map)
  else
    match auth_user_exists DBMAIL_ACL_ANYONE_USER with
    | None => (w, -1, map)
    | Some anyone =>
        let '(w, row) := select_row w userid mboxid in
        match row with
        | None => (w, -1, map)
        | Some (Some row) => (w, 0, map_of_row row)
        | Some None =>
            let '(w, row) := select_row w anyone mboxid in
            match row with
            | None => (w, -1, map)
            | Some (Some row) => (w, 0, map_of_row row)
            | Some None => (w, 0, map)
            end
        end
    end.

(** [g_strlcat] into a buffer of [size] bytes. *)
Definition g_strlcat (dest src : cstr) (size : nat) : cstr := take (pred size) (dest ++ src).
Definition cat_if (b : bool) (c : ascii) (s : cstr) : cstr :=
  if b then g_strlcat s [c] (NR_ACL_FLAGS + 1) else s.
Definition rights_of_map (map : ACLMap) : cstr :=
  let s := foldl (fun s r => cat_if (map r) (right_char r) s) [] all_rights in
  let s := cat_if (map ACL_RIGHT_CREATE) "c" s in
  cat_if (map ACL_RIGHT_DELETE || map ACL_RIGHT_DELETED || map ACL_RIGHT_EXPUNGE) "d" s.

(** The result and the rights string; [None]: the mailbox state cannot be loaded and
    [MailboxState_new] returns memory it has given back. *)
Definition acl_get_rightsstring (w : acldb) (userid mboxid : Z) : acldb * option (Z * cstr) :=
  let '(w, (r, owner_idnr)) := db_get_mailbox_owner w mboxid in
  if r <=? 0 then (w, Some (r, []))
  else if owner_idnr =? userid then (w, Some (1, g_strlcat [] acl_right_chars (NR_ACL_FLAGS + 1)))
  else
    let '(w, loaded) := sql_next w in
    if negb loaded then (w, None)
    else
      let '(w, r, map) := MailboxState_getAcl w mboxid userid (fun _ => false) in
      if r =? -1 then (w, Some (r, [])) else (w, Some (1, rights_of_map map)).

Definition acl_get_rightsstring_identifier (w : acldb) (identifier : cstr) (mboxid : Z) : acldb * option (Z * cstr) :=
  match auth_user_exists identifier with
  | None => (w, Some (-1, []))
  | Some userid => acl_get_rightsstring w userid mboxid
  end.

(** [None] is undefined behaviour, [Some None] the NULL that stands for an error. *)
Definition acl_myrights (w : acldb) (userid mboxid : Z) : acldb * option (option cstr) :=
  let '(w, res) := acl_get_rightsstring w userid mboxid in
  (w, (fun '(r, s) => if r <? 0 then None else Some s) <$> res).

Definition acl_listrights (w : acldb) (userid mboxid : Z) : acldb * option cstr :=
  let '(w, r) := db_user_is_mailbox_owner w userid mboxid in
  (w, if r <? 0 then None
      else if r =? 0 then Some (DQUOTE :: DQUOTE :: lit " l r s w i p k x t e a c d")
      else Some acl_right_chars).

(** The user names of the rows of a mailbox. *)
Definition db_acl_get_identifier (w : acldb) (mboxid : Z) : acldb * option (list cstr) :=
  let '(w, ok) := sql_next w in
  (w, if ok then
        Some (foldl (fun l '((u, m), _) => if m =? mboxid then
                 match auth_get_userid u with Some name => name :: l | None => l end else l)
               [] (map_to_list (acl w)))
      else None).

(** The block the string is built in is large enough for the quoted names and all rights;
    [snprintf] cuts what would not fit. *)
Definition acl_string_size (identifiers : list cstr) : nat :=
  sum_list_with (fun i => length (dbmail_imap_astring_as_string i) + NR_ACL_FLAGS + 2)%nat identifiers.
Definition snprintf_at (acl_string : cstr) (size : nat) (text : cstr) : cstr :=
  acl_string ++ take (pred (size - length acl_string)) text.
Fixpoint acl_loop (w : acldb) (mboxid : Z) (identifiers : list cstr) (size : nat) (acl_string : cstr) : acldb * option (option cstr) :=
  match identifiers with
  | [] => (w, Some (Some acl_string))
  | i :: identifiers =>
      let '(w, res) := acl_get_rightsstring_identifier w i mboxid in
      match res with
      | None => (w, None)
      | Some (r, s) =>
          if r <? 0 then (w, Some None)
          else
            acl_loop w mboxid identifiers size
              (if bool_decide (0 < length s)%nat
               then snprintf_at acl_string size (dbmail_imap_astring_as_string i ++ [SP] ++ s ++ [SP])
               else acl_string)
      end
  end.
Definition acl_get_acl (w : acldb) (mboxid : Z) : acldb * option (option cstr) :=
  let '(w, identifiers) := db_acl_get_identifier w mboxid in
  match identifiers with
  | None => (w, Some None)
  | Some identifiers =>
      let '(w, (r, userid)) := db_get_mailbox_owner w mboxid in
      if r <? 0 then (w, Some None)
      else
        match auth_get_userid userid with
        | None => (w, Some None)
        | Some username =>
            let identifiers := identifiers ++ [username] in
            let '(w, res) := acl_loop w mboxid identifiers (acl_string_size identifiers) [] in
            (w, option_map (option_map g_strstrip) res)
        end
  end.
End reading.

(** The answers of a database with these tables, when no statement fails. *)
Definition acl_mailboxdb (w : acldb) (seqs perms : Z -> option Z) : MailboxDB := {|
  db_mailbox_seq := seqs;
  db_mailbox_permission := perms;
  MailboxState.db_get_mailbox_owner m :=
    let o := default 0 (owners w !! m) in ((if o =? 0 then 0 else 1), o);
  db_acl_any u m := Some (bool_decide (is_Some (acl w !! (u, m))));
  db_acl_flag u m f := Some (match acl w !! (u, m) with Some row => bool_decide (f ∈ row) | None => false end);
|}.
