(* ===== verification/AclFacts.v ===== *)
(** * Properties of dm_acl.c

    What SETACL leaves in the table, what a failing database can do, the round trip between
    the rights string and the table, and who is allowed what. *)
From S2P Require Import Prelude CLib GLib Tree MailboxState MiscText Acl.

(** The row of a user for a mailbox, empty if there is none. *)
Definition row_of (w : acldb) (u m : Z) : gset cstr := default ∅ (acl w !! (u, m)).
Definition has (w : acldb) (u m : Z) (r : ACLRight) : Prop := right_string r ∈ row_of w u m.

(** The rights a character names in a rights string: its own right, or the rights that the
    characters of RFC 2086 stand for. *)
Definition denoted (c : ascii) : list ACLRight :=
  if bool_decide (c = "c"%char) then [ACL_RIGHT_CREATE]
  else if bool_decide (c = "d"%char) then [ACL_RIGHT_DELETE; ACL_RIGHT_DELETED; ACL_RIGHT_EXPUNGE]
  else filter (fun r => right_char r = c) all_rights.
Definition named (s : cstr) (r : ACLRight) : Prop := exists c, c ∈ s /\ r ∈ denoted c.

(** ** One right *)
Definition set_flag (f : cstr) (set : bool) (row : gset cstr) : gset cstr :=
  if set then {[f]} ∪ row else row ∖ {[f]}.
Definition with_row (w : acldb) (u m : Z) (row : gset cstr) : acldb :=
  mkacldb (<[(u, m) := row]> (acl w)) (owners w) (sql w).

Lemma row_of_with_row w u m row : row_of (with_row w u m row) u m = row.
Proof. unfold row_of, with_row. simpl. by rewrite lookup_insert_eq. Qed.

Lemma with_row_twice w u m a b : with_row (with_row w u m a) u m b = with_row w u m b.
Proof. unfold with_row. simpl. f_equal. apply insert_insert_eq. Qed.

Section working.
Variables (u m : Z).
Implicit Types w : acldb.
Definition works w : Prop := sql w = [] /\ owners w !! m <> Some u.

Lemma works_with_row w row : works w -> works (with_row w u m row).
Proof. by intros [??]. Qed.

Lemma set_right_works w f set :
  works w -> db_acl_set_right w u m f set = (with_row w u m (set_flag f set (row_of w u m)), 1).
Proof.
  intros [Hs Ho]. destruct w as [t o s]. simpl in *. subst s.
  unfold db_acl_set_right, db_user_is_mailbox_owner, db_acl_has_acl, db_acl_create_acl, db_acl_update, sql_next, row_of, with_row.
  simpl. rewrite (bool_decide_false _ Ho). simpl. destruct (t !! (u, m)) as [row|] eqn:E; simpl.
  - f_equal. unfold set_field, settable; simpl. f_equal. apply map_eq. intros k.
    destruct (decide (k = (u, m))) as [->|].
    + by rewrite lookup_alter_eq, lookup_insert_eq, E.
    + by rewrite lookup_alter_ne, lookup_insert_ne by done.
  - f_equal. unfold set_field, settable; simpl. f_equal. apply map_eq. intros k.
    destruct (decide (k = (u, m))) as [->|].
    + by rewrite lookup_alter_eq, !lookup_insert_eq.
    + by rewrite lookup_alter_ne, !lookup_insert_ne by done.
Qed.

(** [w'] is [w] with another row of the user, which is now [row]. *)
Definition moved w (row : gset cstr) w' : Prop :=
  sql w' = [] /\ owners w' = owners w /\ (forall k, k <> (u, m) -> acl w' !! k = acl w !! k) /\ row_of w' u m = row.

Lemma moved_refl w : works w -> moved w (row_of w u m) w.
Proof. by intros [??]. Qed.

Lemma moved_trans w a w1 b w2 : moved w a w1 -> moved w1 b w2 -> moved w b w2.
Proof.
  intros (_ & O1 & K1 & _) (S2 & O2 & K2 & R2). split; [done|]. split; [congruence|]. split; [|done].
  intros k Hk. by rewrite K2, K1.
Qed.

Lemma moved_works w a w' : works w -> moved w a w' -> works w'.
Proof. intros [_ Ho] (S' & O' & _). split; [done|]. by rewrite O'. Qed.

Lemma moved_set w f set : works w -> moved w (set_flag f set (row_of w u m)) (with_row w u m (set_flag f set (row_of w u m))).
Proof.
  intros [Hs Ho]. split; [done|]. split; [done|]. split; [|apply row_of_with_row].
  intros k Hk. simpl. by rewrite lookup_insert_ne.
Qed.

Lemma while_ok_works {X} (step : acldb -> X -> acldb * Z) (g : gset cstr -> X -> gset cstr) xs w :
  (forall w x, works w -> exists w', step w x = (w', 1) /\ moved w (g (row_of w u m) x) w') ->
  works w -> exists w', while_ok step w xs = (w', 1) /\ moved w (foldl g (row_of w u m) xs) w'.
Proof.
  intros Hstep. revert w. induction xs as [|x xs IH]; intros w Hw; simpl; [eauto using moved_refl|].
  destruct (Hstep w x Hw) as (w1 & -> & Hm). simpl.
  destruct (IH w1 (moved_works _ _ _ Hw Hm)) as (w' & -> & Hm'). exists w'. split; [done|].
  destruct (Hm) as (_ & _ & _ & R1). rewrite R1 in Hm'. by eapply moved_trans.
Qed.

Definition apply_rights (set : bool) (row : gset cstr) (rs : list ACLRight) : gset cstr :=
  foldl (fun row r => set_flag (right_string r) set row) row rs.

Lemma set_each_works rs w set :
  works w -> exists w', set_each w u m rs set = (w', 1) /\ moved w (apply_rights set (row_of w u m) rs) w'.
Proof.
  apply (while_ok_works _ (fun row r => set_flag (right_string r) set row)).
  intros w0 x Hw. unfold acl_set_one_right. rewrite set_right_works by done. eauto using moved_set.
Qed.

Lemma change_loop_works cs w set :
  works w -> exists w', change_loop w u m cs set = (w', 1) /\
    moved w (apply_rights set (row_of w u m) (cs ≫= change_of_char)) w'.
Proof.
  intros Hw. destruct (while_ok_works (fun w c => set_each w u m (change_of_char c) set)
    (fun row c => apply_rights set row (change_of_char c)) cs w) as (w' & E & Hm); [intros; by apply set_each_works|done|].
  exists w'. split; [exact E|]. assert (forall row, foldl (fun row c => apply_rights set row (change_of_char c)) row cs =
    apply_rights set row (cs ≫= change_of_char)) as <-; [|done].
  clear. induction cs as [|c cs IH]; intros row; simpl; [done|]. rewrite IH. unfold apply_rights. by rewrite foldl_app.
Qed.

Lemma replace_loop_works rs w s :
  works w -> exists w', replace_loop w u m rs s = (w', 1) /\
    moved w (foldl (fun row r => set_flag (right_string r) (bool_decide (right_char r ∈ s)) row) (row_of w u m) rs) w'.
Proof.
  apply (while_ok_works _ (fun row r => set_flag (right_string r) (bool_decide (right_char r ∈ s)) row)).
  intros w0 x Hw. rewrite set_right_works by done. eauto using moved_set.
Qed.
End working.

(** ** The row that results *)
Lemma right_string_inj r r' : r ∈ all_rights -> r' ∈ all_rights -> right_string r = right_string r' -> r = r'.
Proof.
  assert (Forall (fun r => Forall (fun r' => right_string r = right_string r' -> r = r') all_rights) all_rights) as F.
  { repeat constructor; vm_compute; intros; congruence. }
  rewrite Forall_forall in F. intros Hr Hr'. specialize (F r Hr). rewrite Forall_forall in F. by apply F.
Qed.

Lemma apply_rights_elem set rs row r :
  r ∈ all_rights -> Forall (fun r => r ∈ all_rights) rs ->
  right_string r ∈ apply_rights set row rs <->
    if set then right_string r ∈ row \/ r ∈ rs else right_string r ∈ row /\ r ∉ rs.
Proof.
  intros Hr Hrs. revert row. induction Hrs as [|x rs Hx Hrs IH]; intros row; simpl.
  { destruct set; rewrite elem_of_nil; tauto. }
  rewrite IH. unfold set_flag. assert (right_string r = right_string x <-> r = x) as E.
  { split; [by apply right_string_inj|by intros ->]. }
  destruct set; rewrite elem_of_cons, ?elem_of_union, ?elem_of_difference, ?elem_of_singleton, E; tauto.
Qed.

Lemma replace_elem rs (p : ACLRight -> Prop) `{!forall r, Decision (p r)} row r :
  r ∈ all_rights -> Forall (fun r => r ∈ all_rights) rs ->
  right_string r ∈ foldl (fun row r => set_flag (right_string r) (bool_decide (p r)) row) row rs <->
    (r ∈ rs /\ p r) \/ (r ∉ rs /\ right_string r ∈ row).
Proof.
  intros Hr Hrs. revert row. induction Hrs as [|x rs Hx Hrs IH]; intros row; simpl.
  { rewrite elem_of_nil. tauto. }
  rewrite IH, elem_of_cons. unfold set_flag. assert (right_string r = right_string x <-> r = x) as E.
  { split; [by apply right_string_inj|by intros ->]. }
  case_bool_decide as Hp; rewrite ?elem_of_union, ?elem_of_difference, ?elem_of_singleton, E;
    (destruct (decide (r = x)) as [->|Hn]; [destruct (decide (x ∈ rs))|]); tauto.
Qed.

Lemma all_rights_ne r : r ∈ all_rights <-> r <> ACL_RIGHT_NONE.
Proof.
  unfold all_rights. rewrite !elem_of_cons, elem_of_nil. destruct r; split; intros E; try done; intuition discriminate.
Qed.

Lemma change_of_char_denoted c : denoted c <> [] -> change_of_char c = denoted c.
Proof. destruct c as [[] [] [] [] [] [] [] []]; vm_compute; done. Qed.

Lemma denoted_rights c : Forall (fun r => r ∈ all_rights) (denoted c).
Proof.
  unfold denoted. do 2 (case_bool_decide; [repeat constructor|]).
  apply Forall_forall. intros r Hr. by apply list_elem_of_filter in Hr as [_ ?].
Qed.

Lemma changes_denoted cs :
  Forall (fun c => denoted c <> []) cs ->
  Forall (fun r => r ∈ all_rights) (cs ≫= change_of_char) /\ forall r, r ∈ cs ≫= change_of_char <-> named cs r.
Proof.
  intros F. split.
  - induction F as [|c cs Hc F IH]; simpl; [constructor|]. rewrite change_of_char_denoted by done.
    apply Forall_app. split; [apply denoted_rights|done].
  - intros r. rewrite Forall_forall in F. rewrite list_elem_of_bind. unfold named. split.
    + intros (c & Hr & Hc). exists c. rewrite <- change_of_char_denoted; auto.
    + intros (c & Hc & Hr). exists c. rewrite change_of_char_denoted; auto.
Qed.

(** The character of a right or one of the old characters that stand for it. *)
Lemma replace_chars_named s r :
  (length s <= 256)%nat -> r ∈ all_rights -> right_char r ∈ replace_chars s <-> named s r.
Proof.
  intros Hl Hr. unfold replace_chars. rewrite take_ge by done.
  assert (forall c, "c"%char <> c -> c ∈ (if bool_decide ("c"%char ∈ s) then s ++ lit "k" else s) <->
    c ∈ s \/ (c = "k"%char /\ "c"%char ∈ s)) as Ek.
  { intros c Hc. case_bool_decide; rewrite ?elem_of_app; [|tauto]. change (lit "k") with ["k"%char].
    rewrite elem_of_cons, elem_of_nil. tauto. }
  set (s1 := if bool_decide ("c"%char ∈ s) then _ else _) in *.
  assert (forall c, "c"%char <> c -> "d"%char <> c -> c ∈ (if bool_decide ("d"%char ∈ s1) then s1 ++ lit "xte" else s1) <->
    c ∈ s \/ (c = "k"%char /\ "c"%char ∈ s) \/ (c ∈ lit "xte" /\ "d"%char ∈ s)) as Ex.
  { intros c Hc Hd. assert ("d"%char ∈ s1 <-> "d"%char ∈ s) as E by (rewrite Ek by done; split; [intros [?|[? _]]; done|auto]).
    case_bool_decide as B; rewrite ?elem_of_app, Ek by done; rewrite E in B; tauto. }
  assert ("c"%char <> right_char r /\ "d"%char <> right_char r) as [Hc Hd].
  { apply all_rights_ne in Hr. destruct r; by vm_compute. }
  rewrite Ex by done. unfold named. split.
  - intros [H|[[E H]|[E H]]].
    + exists (right_char r). split; [done|]. unfold denoted. rewrite !bool_decide_false by done.
      by apply list_elem_of_filter.
    + exists "c"%char. split; [done|]. destruct r; vm_compute in E; try done. left.
    + exists "d"%char. split; [done|].
      apply (bool_decide_eq_true_2 _) in E. apply (bool_decide_eq_true_1 (r ∈ denoted "d")).
      destruct r; vm_compute in E |- *; done.
  - intros (c & Hin & H). unfold denoted in H. case_bool_decide as B1.
    { subst c. right. left. split; [|done]. apply list_elem_of_singleton in H as ->. done. }
    case_bool_decide as B2.
    { subst c. right. right. split; [|done]. apply (bool_decide_eq_true_2 _) in H.
      apply (bool_decide_eq_true_1 (right_char r ∈ lit "xte")). destruct r; vm_compute in H |- *; done. }
    apply list_elem_of_filter in H as [<- _]. by left.
Qed.

(** What a rights string means for a right: added, taken away or set. *)
Definition set_meaning (s : cstr) (r : ACLRight) (before : Prop) : Prop :=
  match s with
  | c :: cs => if bool_decide (c = "-"%char) then before /\ ~ named cs r
               else if bool_decide (c = "+"%char) then before \/ named cs r
               else named s r
  | [] => False
  end.
Definition signed (s : cstr) : bool := bool_decide (head s = Some "-"%char) || bool_decide (head s = Some "+"%char).
Definition acl_string_ok (s : cstr) : Prop :=
  if signed s then Forall (fun c => denoted c <> []) (tail s) else (length s <= 256)%nat.

(** SETACL for a user who is not the owner, on a database that works: the rights named by
    the string are added to the row, taken from it, or become the row, and no other row
    changes. *)
Lemma acl_set_rights_row w u m s :
  works u m w -> acl_string_ok s ->
  exists w', acl_set_rights w u m s = (w', 1) /\ sql w' = [] /\ owners w' = owners w /\
    (forall k, k <> (u, m) -> acl w' !! k = acl w !! k) /\
    forall r, r ∈ all_rights -> has w' u m r <-> set_meaning s r (has w u m r).
Proof.
  intros Hw Hs. unfold acl_set_rights, acl_change_rights, acl_replace_rights, acl_string_ok, signed, has in *.
  destruct s as [|c cs].
  - cbn [head]. rewrite !bool_decide_false by done.
    destruct (replace_loop_works u m all_rights w (replace_chars []) Hw) as (w' & -> & S' & O' & K' & R').
    exists w'. do 4 (split; [done|]). intros r Hr. rewrite R', replace_elem by (try done; by apply Forall_forall).
    rewrite replace_chars_named by (simpl; try done; lia). simpl. unfold named. split; [|done].
    intros [[_ (c & Hc & _)]|[? _]]; [by apply elem_of_nil in Hc|done].
  - cbn [head tail] in *. simpl in Hs. assert (forall x, bool_decide (Some c = Some x) = bool_decide (c = x)) as B.
    { intros x. apply bool_decide_ext. split; [by intros [=]|by intros ->]. }
    rewrite !B in *. unfold set_meaning. case_bool_decide as B1; [|case_bool_decide as B2]; simpl in Hs.
    + destruct (changes_denoted cs Hs) as [F D].
      destruct (change_loop_works u m cs w false Hw) as (w' & -> & S' & O' & K' & R').
      exists w'. do 4 (split; [done|]). intros r Hr. by rewrite R', apply_rights_elem, D by done.
    + destruct (changes_denoted cs Hs) as [F D].
      destruct (change_loop_works u m cs w true Hw) as (w' & -> & S' & O' & K' & R').
      exists w'. do 4 (split; [done|]). intros r Hr. by rewrite R', apply_rights_elem, D by done.
    + destruct (replace_loop_works u m all_rights w (replace_chars (c :: cs)) Hw) as (w' & -> & S' & O' & K' & R').
      exists w'. do 4 (split; [done|]). intros r Hr. rewrite R', replace_elem by (try done; by apply Forall_forall).
      rewrite replace_chars_named by done. tauto.
Qed.

(** C36. SETACL on a database that works, for a string of at most 256 letters or for a signed
    string whose letters are all known ([acl_string_ok]; an unknown one behind a sign stands for
    the right to create, see [unknown_right_creates]), gives a user who is not the owner exactly the rights that the string means: [+] adds, [-] takes
    away, anything else replaces, with the rights [c] and [d] of RFC 2086 expanded. No other row
    and no owner changes. *)
Theorem acl_set_rights_spec w u m s r :
  sql w = [] -> owners w !! m <> Some u -> acl_string_ok s -> r ∈ all_rights ->
  let '(w', res) := acl_set_rights w u m s in
  res = 1 /\ (has w' u m r <-> set_meaning s r (has w u m r)) /\
  (forall k, k <> (u, m) -> acl w' !! k = acl w !! k) /\ owners w' = owners w.
Proof.
  intros Hq Ho Hs Hr. destruct (acl_set_rights_row w u m s (conj Hq Ho) Hs) as (w' & -> & _ & O & K & R).
  split; [done|]. split; [by apply R|]. by split.
Qed.

(** ** When the database fails *)
Section failing.
Variables (u m : Z).

(** [w'] comes from [w] by statements that only write the flags [fs] of the user's row, and
    nothing at all if the user owns the mailbox. *)
Definition confined (fs : list cstr) (w w' : acldb) : Prop :=
  owners w' = owners w /\ (forall k, k <> (u, m) -> acl w' !! k = acl w !! k) /\
  (owners w !! m = Some u -> acl w' = acl w) /\
  (forall f, f ∉ fs -> f ∈ row_of w' u m <-> f ∈ row_of w u m) /\
  exists pre, sql w = pre ++ sql w'.

Lemma confined_refl fs w : confined fs w w.
Proof. repeat split; try done. by exists []. Qed.

Lemma confined_trans fs w1 w2 w3 : confined fs w1 w2 -> confined fs w2 w3 -> confined fs w1 w3.
Proof.
  intros (O1 & K1 & A1 & F1 & pre1 & S1) (O2 & K2 & A2 & F2 & pre2 & S2).
  split; [congruence|]. split; [intros k Hk; by rewrite K2, K1|].
  split; [intros Ho; rewrite A2, A1; [done..|congruence]|]. split; [intros f Hf; by rewrite F2, F1|].
  exists (pre1 ++ pre2). by rewrite <- app_assoc, <- S2.
Qed.

Lemma confined_mono fs gs w w' : fs ⊆ gs -> confined fs w w' -> confined gs w w'.
Proof. intros Hs (O & K & A & F & S). do 3 (split; [done|]). split; [|done]. intros f Hf. apply F. auto. Qed.

Lemma confined_failed fs w w' : confined fs w w' -> false ∈ sql w' -> false ∈ sql w.
Proof. intros (_ & _ & _ & _ & pre & ->) Hf. apply elem_of_app. by right. Qed.

Lemma sql_next_confined w : confined [] w (sql_next w).1 /\ ((sql_next w).2 = false -> false ∈ sql w).
Proof.
  unfold sql_next. destruct (sql w) as [|ok script] eqn:E; simpl; [split; [apply confined_refl|done]|].
  split; [|intros ->; left]. repeat split; try done. exists [ok]. by rewrite E.
Qed.

Lemma sql_next_tables w w' ok : sql_next w = (w', ok) -> acl w' = acl w /\ owners w' = owners w.
Proof. unfold sql_next. destruct (sql w); intros [= <- _]; by destruct w. Qed.

(** Writing the user's row is confined to a flag if the user is not the owner. *)
Lemma confined_write fs w row :
  owners w !! m <> Some u -> (forall g, g ∉ fs -> g ∈ row <-> g ∈ row_of w u m) ->
  confined fs w (with_row w u m row).
Proof.
  intros Ho Hr. split; [done|]. split; [intros k Hk; simpl; by rewrite lookup_insert_ne|]. split; [done|].
  split; [|by exists []]. intros g Hg. rewrite row_of_with_row. by apply Hr.
Qed.

Lemma create_confined w :
  owners w !! m <> Some u ->
  let '(w', r) := db_acl_create_acl w u m in confined [] w w' /\ (r = 0 \/ r = 1).
Proof.
  intros Ho. unfold db_acl_create_acl. destruct (sql_next_confined w) as [C _].
  destruct (sql_next w) as [w1 ok] eqn:E. apply sql_next_tables in E as [T O]. simpl in C.
  destruct (ok && _)%bool eqn:B; [|by auto]. split; [|auto]. to_prop. eapply confined_trans; [exact C|].
  apply (confined_write [] w1 ∅); [by rewrite O|]. intros g _. unfold row_of. match goal with B : acl w1 !! _ = None |- _ => by rewrite B end.
Qed.

Lemma update_confined w f set :
  owners w !! m <> Some u ->
  let '(w', r) := db_acl_update w u m f set in confined [f] w w' /\ (r = 0 \/ r = 1).
Proof.
  intros Ho. unfold db_acl_update. destruct (sql_next_confined w) as [C _].
  destruct (sql_next w) as [w1 ok] eqn:E. apply sql_next_tables in E as [T O]. simpl in C.
  apply (confined_mono _ [f]) in C; [|set_solver].
  destruct ok; [|by auto]. split; [|auto]. eapply confined_trans; [exact C|].
  destruct (acl w1 !! (u, m)) as [row|] eqn:Er.
  - match goal with |- confined _ _ ?w' => assert (w' = with_row w1 u m (set_flag f set row)) as -> end.
    { unfold with_row, set_field, settable, set_flag; simpl. f_equal. apply map_eq. intros k.
      destruct (decide (k = (u, m))) as [->|]; [by rewrite lookup_alter_eq, lookup_insert_eq, Er|].
      by rewrite lookup_alter_ne, lookup_insert_ne by done. }
    apply confined_write; [by rewrite O|]. intros g Hg. unfold row_of, set_flag. rewrite Er. simpl.
    apply not_elem_of_cons in Hg as [Hg _]. destruct set; set_solver.
  - match goal with |- confined _ _ ?w' => assert (w' = w1) as ->; [|apply confined_refl] end.
    unfold set_field, settable; simpl. destruct w1 as [t o q]. f_equal. apply map_eq. intros k. simpl in *.
    destruct (decide (k = (u, m))) as [->|]; [by rewrite lookup_alter_eq, Er|by rewrite lookup_alter_ne].
Qed.

Lemma set_right_confined w f set :
  let '(w', r) := db_acl_set_right w u m f set in
  confined [f] w w' /\ (r = -1 \/ r = 0 \/ r = 1) /\ (r = -1 -> false ∈ sql w).
Proof.
  assert (forall a b, confined [] a b -> confined [f] a b) as up by (intros a b; apply confined_mono; set_solver).
  unfold db_acl_set_right, db_user_is_mailbox_owner. destruct (sql_next_confined w) as [C1 F1].
  destruct (sql_next w) as [w1 ok1] eqn:E1. simpl in C1, F1. apply sql_next_tables in E1 as [T1 O1].
  destruct ok1; simpl; [|split; [by apply up|]; split; [auto|by auto]].
  case_bool_decide as Ho; simpl; [split; [by apply up|]; split; [auto|done]|].
  unfold db_acl_has_acl. destruct (sql_next_confined w1) as [C2 F2].
  destruct (sql_next w1) as [w2 ok2] eqn:E2. simpl in C2, F2. apply sql_next_tables in E2 as [T2 O2].
  pose proof (confined_trans _ _ _ _ C1 C2) as C12.
  destruct ok2; simpl; [|split; [by apply up|]; split; [auto|]; intros _; apply (confined_failed [] w w1); auto].
  rewrite <- O2 in Ho. set (known := bool_decide _).
  assert (exists w3 c, (if (if known then 1 else 0) =? 0 then db_acl_create_acl w2 u m else (w2, 1)) = (w3, c) /\
    confined [] w2 w3 /\ (c = 0 \/ c = 1)) as (w3 & c & -> & C3 & Hc).
  { destruct known; simpl; [exists w2, 1; split; [done|]; split; [apply confined_refl|auto]|].
    pose proof (create_confined w2 Ho) as Hcr. destruct (db_acl_create_acl w2 u m) as [w3 c]. eauto. }
  replace (_ <? 0) with false by by destruct known.
  replace (c =? -1) with false by (destruct Hc; by subst c).
  pose proof (update_confined w3 f set) as Hu. destruct (db_acl_update w3 u m f set) as [w4 r].
  destruct Hu as [C4 Hr]; [destruct C3 as (O3 & _); by rewrite O3|].
  split; [eapply confined_trans; [|exact C4]; apply up; by eapply confined_trans|]. split; [tauto|lia].
Qed.

(** A step that is confined to [fs x] and fails only on a failed statement. *)
Definition confined_step {X} (step : acldb -> X -> acldb * Z) (fs : X -> list cstr) : Prop :=
  forall w x, let '(w', r) := step w x in
    confined (fs x) w w' /\ (r = -1 \/ r = 0 \/ r = 1) /\ (r = -1 -> false ∈ sql w).

Lemma while_ok_confined {X} (step : acldb -> X -> acldb * Z) fs xs w :
  confined_step step fs ->
  let '(w', r) := while_ok step w xs in
  confined (xs ≫= fs) w w' /\ (r = -1 \/ r = 1) /\ (r = -1 -> false ∈ sql w).
Proof.
  intros Hs. revert w. induction xs as [|x xs IH]; intros w; simpl; [split; [apply confined_refl|]; split; [auto|done]|].
  specialize (Hs w x). destruct (step w x) as [w1 r1]. destruct Hs as (C & R & F).
  destruct (r1 <? 0) eqn:B.
  - split; [eapply confined_mono; [|exact C]; set_solver|]. split; [auto|]. intros _. apply F. bool_lia.
  - specialize (IH w1). destruct (while_ok step w1 xs) as [w2 r2]. destruct IH as (C2 & R2 & F2).
    split; [eapply confined_trans; (eapply confined_mono; [|eassumption]); set_solver|]. split; [done|].
    intros E. eapply confined_failed; eauto.
Qed.

Lemma set_each_confined set : confined_step (fun w rs => set_each w u m rs set) (fun rs => rs ≫= fun r => [right_string r]).
Proof.
  intros w rs. pose proof (while_ok_confined (fun w r => acl_set_one_right w u m r set) (fun r => [right_string r]) rs w) as H.
  unfold set_each. destruct (while_ok _ w rs) as [w' r].
  destruct H as (C & R & F); [|by split; [|split; [tauto|]]].
  intros w0 x. apply set_right_confined.
Qed.

Lemma acl_set_rights_confined w s :
  let '(w', r) := acl_set_rights w u m s in
  confined (if signed s then tail s ≫= fun c => change_of_char c ≫= fun r => [right_string r]
            else all_rights ≫= fun r => [right_string r]) w w' /\
  (r = -1 \/ r = 1) /\ (r = -1 -> false ∈ sql w).
Proof.
  unfold acl_set_rights, signed, acl_change_rights, change_loop, acl_replace_rights, replace_loop.
  case_bool_decide as B1; [|case_bool_decide as B2]; cbn [orb].
  1-2: apply (while_ok_confined _ (fun c => change_of_char c ≫= fun r => [right_string r]));
    intros w0 c; apply (set_each_confined _ w0 (change_of_char c)).
  apply (while_ok_confined _ (fun r => [right_string r])). intros w0 r. apply set_right_confined.
Qed.
End failing.

(** Whatever statements fail, SETACL answers 1 or -1, and -1 only after a failure; only
    the row of the user can change, not at all if the user owns the mailbox; and when rights
    are added or taken away, the rights that the string does not name stay as they were. *)
Theorem acl_set_rights_frame w u m s :
  let '(w', res) := acl_set_rights w u m s in
  (res = -1 \/ res = 1) /\ (res = -1 -> false ∈ sql w) /\ owners w' = owners w /\
  (forall k, k <> (u, m) -> acl w' !! k = acl w !! k) /\
  (owners w !! m = Some u -> acl w' = acl w) /\
  (signed s = true -> Forall (fun c => denoted c <> []) (tail s) ->
   forall r, r ∈ all_rights -> ~ named (tail s) r -> has w' u m r <-> has w u m r).
Proof.
  pose proof (acl_set_rights_confined u m w s) as H. destruct (acl_set_rights w u m s) as [w' res].
  destruct H as ((O & K & A & F & _) & R & E). do 5 (split; [done|]). intros Hs Hv r Hr Hn.
  rewrite Hs in F. apply F. intros Hin. apply list_elem_of_bind in Hin as (c & Hin & Hc).
  apply list_elem_of_bind in Hin as (r' & Hin & Hr').
  destruct (changes_denoted _ Hv) as [Hall D]. rewrite Forall_forall in Hall.
  assert (r' ∈ tail s ≫= change_of_char) as Hr'' by (apply list_elem_of_bind; eauto).
  apply list_elem_of_singleton, right_string_inj in Hin as ->; [|done|by apply Hall]. by apply Hn, D.
Qed.

(** A failed UPDATE is reported as success: [db_update] answers 0, not a negative number. *)
Lemma acl_set_rights_hides_failure u m w :
  owners w !! m <> Some u -> acl w !! (u, m) = Some ∅ -> sql w = [true; true; false] ->
  exists w', acl_set_rights w u m (lit "+l") = (w', 1) /\ acl w' = acl w.
Proof.
  intros Ho Ha Hs. destruct w as [t o q]. simpl in *. subst q. eexists. split.
  - unfold acl_set_rights, acl_change_rights, change_loop, set_each, acl_set_one_right, db_acl_set_right,
      db_user_is_mailbox_owner, db_acl_has_acl, db_acl_update, sql_next.
    simpl. rewrite (bool_decide_false _ Ho). simpl. rewrite Ha. simpl. reflexivity.
  - done.
Qed.

(** A character that is no right is taken for the right to create. *)
Lemma unknown_right_creates : right_string (acl_get_right_from_char "z") = right_string ACL_RIGHT_CREATE.
Proof. reflexivity. Qed.

(** ** Showing rights and setting them again *)
Section showing.
Context `{AuthNames}.

(** The rights GETACL and MYRIGHTS show for a user who is not the owner: those of his row,
    or of the row of the user [anyone] if he has none. *)
Definition shown (w : acldb) (u m : Z) (r : ACLRight) : Prop :=
  match acl w !! (u, m) with
  | Some row => right_string r ∈ row
  | None => match auth_user_exists DBMAIL_ACL_ANYONE_USER with
            | Some anyone => right_string r ∈ row_of w anyone m
            | None => False
            end
  end.

Lemma cat_if_fits b c s : (length s < NR_ACL_FLAGS)%nat -> cat_if b c s = s ++ (if b then [c] else []).
Proof.
  intros Hl. unfold cat_if, g_strlcat, NR_ACL_FLAGS in *. destruct b; [|by rewrite app_nil_r].
  apply take_ge. rewrite length_app. simpl. lia.
Qed.

Lemma cat_rights (map : ACLMap) rs s :
  (length s + length rs <= NR_ACL_FLAGS)%nat ->
  foldl (fun s r => cat_if (map r) (right_char r) s) s rs =
    s ++ (rs ≫= fun r => if map r then [right_char r] else []).
Proof.
  revert s. induction rs as [|r rs IH]; intros s Hl; simpl in *; [by rewrite app_nil_r|].
  rewrite cat_if_fits by lia. rewrite IH, <- app_assoc; [done|].
  rewrite length_app. destruct (map r); simpl; lia.
Qed.

Lemma chars_length (map : ACLMap) rs :
  (length (rs ≫= fun r => if map r then [right_char r] else []) <= length rs)%nat.
Proof. induction rs as [|r rs IH]; [done|]. rewrite bind_cons, length_app. destruct (map r); cbn [length]; lia. Qed.

(** The buffer of 14 bytes holds every rights string. *)
Lemma rights_of_map_eq (map : ACLMap) :
  rights_of_map map =
    (all_rights ≫= fun r => if map r then [right_char r] else []) ++
    (if map ACL_RIGHT_CREATE then ["c"%char] else []) ++
    (if map ACL_RIGHT_DELETE || map ACL_RIGHT_DELETED || map ACL_RIGHT_EXPUNGE then ["d"%char] else []).
Proof.
  unfold rights_of_map. rewrite cat_rights by (vm_compute; lia). cbn [app].
  pose proof (chars_length map all_rights) as Hl. change (length all_rights) with 11%nat in Hl.
  set (s := all_rights ≫= _) in *.
  rewrite (cat_if_fits (map ACL_RIGHT_CREATE)) by (unfold NR_ACL_FLAGS; lia).
  rewrite cat_if_fits, <- app_assoc; [done|].
  rewrite length_app. unfold NR_ACL_FLAGS. destruct (map ACL_RIGHT_CREATE); simpl; lia.
Qed.

Lemma rights_of_map_length (map : ACLMap) : (length (rights_of_map map) <= NR_ACL_FLAGS)%nat.
Proof.
  rewrite rights_of_map_eq, !length_app. pose proof (chars_length map all_rights) as Hl.
  change (length all_rights) with 11%nat in Hl. unfold NR_ACL_FLAGS.
  destruct (map ACL_RIGHT_CREATE), (map ACL_RIGHT_DELETE || _ || _)%bool; cbn [length]; lia.
Qed.

Lemma rights_of_map_chars (map : ACLMap) c : c ∈ rights_of_map map -> c ∈ acl_right_chars.
Proof.
  rewrite rights_of_map_eq, !elem_of_app. intros [Hc|[Hc|Hc]].
  - apply list_elem_of_bind in Hc as (r & Hc & Hr). destruct (map r); [|by apply elem_of_nil in Hc].
    apply list_elem_of_singleton in Hc as ->. apply all_rights_ne in Hr.
    apply (bool_decide_eq_true_1 (right_char r ∈ acl_right_chars)). destruct r; vm_compute; done.
  - destruct (map _); [|by apply elem_of_nil in Hc]. apply list_elem_of_singleton in Hc as ->.
    apply (bool_decide_eq_true_1 ("c"%char ∈ acl_right_chars)). by vm_compute.
  - destruct (_ || _)%bool; [|by apply elem_of_nil in Hc]. apply list_elem_of_singleton in Hc as ->.
    apply (bool_decide_eq_true_1 ("d"%char ∈ acl_right_chars)). by vm_compute.
Qed.

(** What the virtual right [d] of RFC 2086 adds: each of the three rights it stands for brings
    the other two. *)
Definition deletion : list ACLRight := [ACL_RIGHT_DELETE; ACL_RIGHT_DELETED; ACL_RIGHT_EXPUNGE].
Definition closed (P : ACLRight -> Prop) (r : ACLRight) : Prop :=
  P r \/ (r ∈ deletion /\ exists r', r' ∈ deletion /\ P r').

(** The string names the rights of the map and what the virtual rights stand for. *)
Lemma rights_of_map_named (map : ACLMap) r :
  r ∈ all_rights -> named (rights_of_map map) r <-> closed (fun r => map r = true) r.
Proof.
  intros Hr. unfold named, closed. rewrite rights_of_map_eq. split.
  - intros (c & Hc & Hd). rewrite !elem_of_app in Hc. destruct Hc as [Hc|[Hc|Hc]].
    + apply list_elem_of_bind in Hc as (r' & Hc & Hr'). destruct (map r') eqn:E; [|by apply elem_of_nil in Hc].
      apply list_elem_of_singleton in Hc as ->.
      assert (r = r') as ->; [|by left].
      clear -Hr' Hd. apply all_rights_ne in Hr'. apply (bool_decide_eq_true_2 _) in Hd.
      destruct r', r; vm_compute in Hd; done.
    + destruct (map ACL_RIGHT_CREATE) eqn:E; [|by apply elem_of_nil in Hc].
      apply list_elem_of_singleton in Hc as ->. apply list_elem_of_singleton in Hd as ->. by left.
    + destruct (_ || _)%bool eqn:E; [|by apply elem_of_nil in Hc].
      apply list_elem_of_singleton in Hc as ->. right. split; [done|].
      apply orb_true_iff in E as [E|E]; [apply orb_true_iff in E as [E|E]|]; eexists; (split; [|exact E]); unfold deletion; set_solver.
  - intros [E|(Hdel & r' & Hr' & E)].
    + exists (right_char r). split.
      * apply elem_of_app. left. apply list_elem_of_bind. exists r. rewrite E. split; [left|done].
      * apply all_rights_ne in Hr. apply (bool_decide_eq_true_1 (r ∈ denoted (right_char r))). destruct r; vm_compute; done.
    + exists "d"%char. split; [|done]. rewrite !elem_of_app. right. right.
      assert (map ACL_RIGHT_DELETE || map ACL_RIGHT_DELETED || map ACL_RIGHT_EXPUNGE = true) as ->; [|left].
      unfold deletion in Hr'. rewrite !elem_of_cons, elem_of_nil in Hr'. destruct Hr' as [->|[->|[->|[]]]]; rewrite E; by rewrite ?orb_true_r.
Qed.

(** The rights string of a user, which fits the buffer of 14 bytes, can be set again: a
    second user who is given that string has the rights the string was made from, completed
    by what the virtual right [d] stands for. *)
Theorem acl_rights_roundtrip w u v m o anyone r :
  sql w = [] -> m <> 0 -> owners w !! m = Some o -> o <> 0 -> u <> o -> v <> o ->
  auth_user_exists DBMAIL_ACL_ANYONE_USER = Some anyone -> r ∈ all_rights ->
  exists s, acl_myrights w u m = (w, Some (Some s)) /\ (length s <= NR_ACL_FLAGS)%nat /\
    let '(w', res) := acl_set_rights w v m s in
    res = 1 /\ (has w' v m r <-> closed (shown w u m) r).
Proof.
  intros Hs Hm Ho Hz Hu Hv Ha Hr.
  set (map := map_of_row (match acl w !! (u, m) with Some row => row | None => row_of w anyone m end)).
  assert (exists mp, (forall r, mp r = map r) /\ acl_myrights w u m = (w, Some (Some (rights_of_map mp)))) as (mp & Emp & E).
  { assert (forall s, (w <| sql := s |>) <| sql := sql w |> = w) as _ by (by destruct w).
    unfold acl_myrights, acl_get_rightsstring, db_get_mailbox_owner, MailboxState_getAcl, select_row, sql_next.
    rewrite Hs, Ho. simpl. rewrite (proj2 (Z.eqb_neq o 0) Hz). simpl. rewrite (proj2 (Z.eqb_neq o u)) by done.
    rewrite Hs. simpl. rewrite (proj2 (Z.eqb_neq m 0) Hm), Ha, Hs. simpl. unfold map.
    destruct (acl w !! (u, m)) as [row|] eqn:Eu; simpl; [by eexists|]. rewrite Hs. unfold row_of.
    destruct (acl w !! (anyone, m)) as [row|]; simpl; [by eexists|]. eexists. split; [|reflexivity]. done. }
  exists (rights_of_map mp). split; [exact E|]. split; [apply rights_of_map_length|].
  set (s := rights_of_map mp).
  assert (signed s = false) as Hsg.
  { unfold signed. apply orb_false_iff. rewrite !bool_decide_eq_false.
    assert (forall c, head s = Some c -> c ∈ acl_right_chars) as Hc.
    { intros c Hc. apply (rights_of_map_chars mp). fold s. destruct s; [done|]. injection Hc as ->. left. }
    split; intros X; apply Hc in X; apply (bool_decide_eq_true_2 _) in X; by vm_compute in X. }
  destruct (acl_set_rights_row w v m s) as (w' & -> & _ & _ & _ & R).
  { split; [done|]. rewrite Ho. congruence. }
  { unfold acl_string_ok. rewrite Hsg. pose proof (rights_of_map_length mp). unfold NR_ACL_FLAGS in *. fold s in H0. lia. }
  split; [done|]. rewrite R by done. transitivity (named s r).
  { unfold set_meaning. destruct s as [|c cs]; [unfold named; split; [done|intros (c & Hc & _); by apply elem_of_nil in Hc]|].
    unfold signed in Hsg. simpl in Hsg. apply orb_false_iff in Hsg as [B1 B2]. rewrite bool_decide_eq_false in B1, B2.
    rewrite !bool_decide_false by congruence. done. }
  unfold s. rewrite rights_of_map_named by done.
  assert (forall r, mp r = true <-> shown w u m r) as D.
  { intros x. rewrite Emp. unfold map, map_of_row, shown. rewrite bool_decide_eq_true, Ha. by destruct (acl w !! (u, m)). }
  unfold closed. rewrite D. split; (intros [?|(? & x & ? & ?)]; [by left|right]); (split; [done|]); exists x; split; try done; by apply D.
Qed.
End showing.

(** ** Who is allowed what *)
Section allowed.
Context `{GTreeOps} `{AuthNames}.
Variables (w : acldb) (seqs perms : Z -> option Z).
#[local] Instance tables : MailboxDB := acl_mailboxdb w seqs perms.

(** The owner has every right unless there is a row for him; anyone else has what his row
    says. *)
Definition row_allows (o m x : Z) (r : ACLRight) : Prop :=
  (x = o /\ acl w !! (x, m) = None) \/ has w x m r.

Lemma hasPermission_tables (M : MailboxState_T) x r :
  owner_id M <> 0 -> 
  exists b, MailboxState_hasPermission M x (right_string r) = (M, b) /\ (b = 0 \/ b = 1) /\
    (b = 1 <-> row_allows (owner_id M) (mb_id M) x r).
Proof.
  intros Ho. unfold MailboxState_hasPermission, row_allows, has, row_of. rewrite (proj2 (Z.eqb_neq _ _) Ho). simpl.
  destruct (acl w !! (x, mb_id M)) as [row|]; simpl.
  - rewrite andb_false_r. case_bool_decide as B; eexists; (split; [reflexivity|]); (split; [auto|]);
      split; intros E; try done; auto. destruct E as [[_ E]|E]; done.
  - destruct (owner_id M =? x) eqn:E; simpl; eexists; (split; [reflexivity|]); (split; [auto|]); to_prop.
    + split; auto.
    + split; [done|]. intros [[E' _]|E']; [congruence|]. by apply elem_of_empty in E'.
Qed.

(** C38. On a database that works, in a mailbox whose owner and access mode are known, a right is
    granted exactly when the mailbox is open for writing, if the right is one to change it, and the
    user is the owner without a row or has the right by his own row or by the row of [anyone]. (A
    query that fails grants the right, see [acl_has_right_failure].) *)
Theorem acl_has_right_spec (M : MailboxState_T) u r :
  r ∈ all_rights -> owner_id M <> 0 -> permission M <> 0 ->
  exists b, acl_has_right M u r = (M, b) /\ (b = 0 \/ b = 1) /\
    (b = 1 <-> (r <> ACL_RIGHT_LOOKUP -> r <> ACL_RIGHT_READ -> permission M = IMAPPERM_READWRITE) /\
       (row_allows (owner_id M) (mb_id M) u r \/
        exists anyone, auth_user_exists DBMAIL_ACL_ANYONE_USER = Some anyone /\
          row_allows (owner_id M) (mb_id M) anyone r)).
Proof.
  intros Hr Ho Hp. unfold acl_has_right, MailboxState_getPermission. rewrite (proj2 (Z.eqb_neq _ _) Hp). cbn [andb].
  destruct (hasPermission_tables M u r Ho) as (b & Eb & Hb & Rb).
  assert ((if needs_write r then (M, permission M =? IMAPPERM_READWRITE) else (M, true)) =
          (M, negb (needs_write r) || (permission M =? IMAPPERM_READWRITE))) as E by by destruct (needs_write r).
  destruct (negb (needs_write r) || (permission M =? IMAPPERM_READWRITE)) eqn:W.
  - assert (r <> ACL_RIGHT_LOOKUP -> r <> ACL_RIGHT_READ -> permission M = IMAPPERM_READWRITE) as Hw.
    { intros N1 N2. apply all_rights_ne in Hr. assert (needs_write r = true) as N by by destruct r.
      rewrite N in W. simpl in W. bool_lia. }
    rewrite E. simpl. rewrite Eb. destruct Hb as [->| ->]; simpl.
    + assert (~ row_allows (owner_id M) (mb_id M) u r) as Nr by (intros X; apply Rb in X; done).
      destruct (auth_user_exists DBMAIL_ACL_ANYONE_USER) as [a|].
      * destruct (hasPermission_tables M a r Ho) as (c & Ec & Hc & Rc). rewrite Ec. exists c.
        do 2 (split; [done|]). rewrite Rc. split; [|intros [_ [?|(x & [= <-] & ?)]]; done]. eauto.
      * exists 0. split; [done|]. split; [auto|]. split; [done|]. by intros [_ [?|(x & ? & _)]].
    + exists 1. split; [done|]. split; [auto|]. split; [|done]. intros _. split; [done|]. left. by apply Rb.
  - rewrite E. simpl. exists 0. split; [done|]. split; [auto|]. split; [done|]. intros [Hw _]. exfalso.
    apply orb_false_iff in W as [N W]. apply negb_false_iff in N. apply Z.eqb_neq in W. by destruct r; auto.
Qed.
End allowed.

(** A failed query is taken for the right itself: the answer -1 counts as true. *)
Lemma acl_has_right_failure `{GTreeOps} `{MailboxDB} `{AuthNames} (M : MailboxState_T) u r :
  needs_write r = false -> owner_id M <> 0 -> owner_id M <> u ->
  db_acl_flag u (mb_id M) (right_string r) = None -> (acl_has_right M u r).2 = 1.
Proof.
  intros Hn Ho Hu Hf. unfold acl_has_right, MailboxState_hasPermission. rewrite Hn. simpl.
  rewrite (proj2 (Z.eqb_neq _ _) Ho). simpl. rewrite (proj2 (Z.eqb_neq _ _) Hu), Hf. done.
Qed.

(** ** An example *)
#[local] Instance example_names : AuthNames := {|
  auth_user_exists name := if bool_decide (name = DBMAIL_ACL_ANYONE_USER) then Some 99 else None;
  auth_get_userid _ := None;
|}.
Definition example_acl : acldb :=
  mkacldb {[ (7, 4) := {[right_string ACL_RIGHT_READ; right_string ACL_RIGHT_DELETE]} ]} {[ 4 := 1 ]} [].

Lemma acl_set_rights_spec_witness :
  let '(w', res) := acl_set_rights example_acl 7 4 (lit "+ls") in
  res = 1 /\ (has w' 7 4 ACL_RIGHT_SEEN <-> (has example_acl 7 4 ACL_RIGHT_SEEN \/ named (lit "ls") ACL_RIGHT_SEEN)).
Proof.
  pose proof (acl_set_rights_spec example_acl 7 4 (lit "+ls") ACL_RIGHT_SEEN) as T.
  destruct (acl_set_rights example_acl 7 4 (lit "+ls")) as [w' res].
  destruct T as (E & R & _); [done|by vm_compute|repeat constructor; by vm_compute|by apply all_rights_ne|].
  split; [exact E|exact R].
Defined.

Lemma acl_rights_roundtrip_witness :
  exists s, acl_myrights example_acl 7 4 = (example_acl, Some (Some s)) /\ has (acl_set_rights example_acl 8 4 s).1 8 4 ACL_RIGHT_EXPUNGE.
Proof.
  destruct (acl_rights_roundtrip example_acl 7 8 4 1 99 ACL_RIGHT_EXPUNGE) as (s & E & _ & T);
    [done|done|by vm_compute|done|done|done|by vm_compute|by apply all_rights_ne|].
  exists s. split; [exact E|]. destruct (acl_set_rights example_acl 8 4 s) as [w' res]. apply T.
  right. split; [by apply (bool_decide_eq_true_1 (ACL_RIGHT_EXPUNGE ∈ deletion))|].
  exists ACL_RIGHT_DELETE. split; [left|].
  apply (bool_decide_eq_true_1 (right_string ACL_RIGHT_DELETE ∈ row_of example_acl 7 4)). by vm_compute.
Defined.

Lemma acl_has_right_spec_witness :
  let M := mkstate (H := gmap_tree) 4 1 IMAPPERM_READWRITE 0 0 0 1 1 [] ∅ ∅ ∅ ∅ [] false false true 0 0 in
  (acl_has_right (H0 := acl_mailboxdb example_acl (fun _ => None) (fun _ => None)) M 7 ACL_RIGHT_READ).2 = 1.
Proof.
  intros M. destruct (acl_has_right_spec example_acl (fun _ => None) (fun _ => None) M 7 ACL_RIGHT_READ) as (b & E & _ & R);
    [by apply all_rights_ne|done|done|]. unfold tables in E. rewrite E. apply R. split; [done|]. left. right.
  apply (bool_decide_eq_true_1 (right_string ACL_RIGHT_READ ∈ row_of example_acl 7 4)). by vm_compute.
Defined.
