(* ===== verification/Cidr.v ===== *)
(** * dm_cidr.c and the user map: socket filters

    Filters such as [inet:10.0.0.0/8:143] ([cidr_new], [cidr_match]), the score of a socket
    against a filter (dm_misc.c), and [db_usermap_resolve], which maps a login to a user id
    depending on the socket the client came in on. Addresses are the 32-bit words that
    [inet_aton] stores; shifts by counts that C does not define are [None]. *)
From S2P Require Import Prelude CLib GLib ClientBase MiscText.

(** The functions of the system: an address from its text, and file name patterns. *)
Class SocketLib := {
  inet_aton : cstr -> option Z;
  fnmatch : cstr -> cstr -> bool;    (** the pattern matches the text *)
}.

Record Cidr_T := mkcidr { sin_addr : Z; sin_port : Z; mask : Z }.

Definition to_int16 (z : Z) : Z := let w := z mod 2 ^ 16 in if 2 ^ 15 <=? w then w - 2 ^ 16 else w.
Definition atoi (s : cstr) : Z := to_int32 (strtoll s).

(** What stands behind the first colon, empty if there is none. *)
Definition behind_colon (s : cstr) : cstr :=
  match split_at s ":"%char with Some (_, t) => t | None => [] end.
(** The text up to a separator ([addr[i] = '\0']). *)
Definition chop (s : cstr) (c : ascii) : cstr :=
  match split_at s c with Some (t, _) => t | None => s end.

Section cidr.
Context `{SocketLib}.

Definition cidr_new (str : cstr) : option Cidr_T :=
  let addr := behind_colon str in
  let port := behind_colon addr in
  let addr := chop addr ":"%char in
  let '(m, addr) :=
    match split_at addr "/"%char with
    | Some (a, (_ :: _) as t) => (to_int16 (atoi t), a)
    | _ => (32, addr)
    end in
  sin ← inet_aton addr;
  Some (mkcidr sin (strtoll port mod 2 ^ 16) (if sin =? 0 then 0 else m)).

Definition all_ones : Z := 2 ^ 32 - 1.
(** [~((unsigned long)s_addr >> (32-mask))] for the word of 255.255.255.255 *)
Definition host_mask (m : Z) : option Z :=
  if m =? 0 then Some all_ones
  else if (0 <=? 32 - m) && (32 - m <? 64)
       then Some (Z.lnot (Z.shiftr all_ones (32 - m)) mod 2 ^ 32) else None.

Definition cidr_match (base test : Cidr_T) : option Z :=
  bm ← host_mask (mask base);
  tm ← host_mask (mask test);
  let base_addr := Z.lor (sin_addr base) bm in
  let test_addr := Z.lor (sin_addr test) tm in
  let match_addr := Z.land base_addr test_addr in
  if (0 <? sin_port test) && negb (sin_port base =? sin_port test) then Some 0
  else
    let result := if test_addr =? match_addr then (if mask base =? 0 then 32 else mask base) else 0 in
    Some (if (mask base =? 0) || (mask test =? 0) then 32 else result).

Definition is_prefix (p s : cstr) : bool := bool_decide (strstr s p = Some O).

(** [dm_sock_score]: [None] where a NULL pattern would be matched. *)
Definition dm_sock_score (base test : cstr) : option Z :=
  if is_prefix (lit "unix:") base then
    b ← strstr base (lit ":");
    t ← strstr test (lit ":");
    Some (if fnmatch (drop b base) (drop t test) then 1 else 0)
  else if negb (is_prefix (lit "inet:") base) then Some 0
  else
    match test with
    | [] => Some 32
    | _ => match cidr_new base, cidr_new test with
           | Some b, Some t => cidr_match b t
           | _, _ => Some 0
           end
    end.
Definition socket_match (base test : cstr) : option bool := (fun r => negb (r =? 0)) <$> dm_sock_score base test.

Definition is_nil {A} (l : list A) : bool := match l with [] => true | _ => false end.
Definition dm_sock_compare (clientsock sock_allow sock_deny : cstr) : option bool :=
  if is_nil sock_allow && is_nil sock_deny then Some true
  else
    denied ← (if is_nil sock_deny then Some false else socket_match sock_deny clientsock);
    if (denied : bool) then Some false
    else if is_nil sock_allow then Some true else socket_match sock_allow clientsock.

(** [dm_valid_format]: 0 for a text with a single percent sign, in front of an s. *)
Definition dm_valid_format (str : cstr) : Z :=
  match str_index str "%", str_rindex str "%" with
  | Some l, Some r =>
      if negb (l =? r)%nat then DM_EGENERAL
      else if negb (bool_decide (char_at str (l + 1) = "s"%char)) then DM_EGENERAL else DM_SUCCESS
  | _, _ => DM_EGENERAL
  end.

(** ** The user map *)
Definition DM_SOCKADDR_LEN : nat := 108.
Definition DM_USERNAME_LEN : nat := 255.
Record maprow := mkrow { login : cstr; sock_allow : cstr; sock_deny : cstr; userid : cstr }.

(** The client's socket; a session on the standard input ([tx] is 0) has none. *)
Definition client_socket (tx : Z) (dst_ip dst_port : cstr) : cstr :=
  if tx =? 0 then []
  else take (DM_SOCKADDR_LEN - 2) (lit "inet:" ++ dst_ip ++ lit ":" ++ dst_port).

(** The loop over the rows; [best] is the best row with its score. A row that denies the
    socket ends the loop with [inl tt]. *)
Fixpoint best_row (clientsock : cstr) (rows : list maprow) (best : option maprow * Z) : option (unit + option maprow * Z) :=
  match rows with
  | [] => Some (inr best)
  | r :: rows =>
      ok ← dm_sock_compare clientsock [] (sock_deny r);
      if negb (ok : bool) then Some (inl tt)
      else
        score ← dm_sock_score clientsock (sock_allow r);
        best_row clientsock rows (if best.2 <? score then (Some r, score) else best)
  end.

(** [db_usermap_resolve]: the rows are those of the login or of ANY, in the order of the
    query; when the query fails there are none. The result and the real user name. *)
Definition db_usermap_resolve (clientsock : cstr) (rows : list maprow) (username real_username : cstr) : option (Z * cstr) :=
  res ← best_row clientsock rows (None, -1);
  match res with
  | inl _ => Some (DM_EGENERAL, real_username)
  | inr (best, bestscore) =>
      if is_nil rows then Some (DM_SUCCESS, real_username)
      else if bestscore <=? 0 then Some (DM_EGENERAL, real_username)
      else
        b ← best;
        if strneq (login b) (lit "ANY") 3 then
          if dm_valid_format (userid b) =? 0 then
            name ← cformat (userid b) [FS username];
            Some (DM_SUCCESS, take (DM_USERNAME_LEN - 2) name)
          else Some (DM_EQUERY, real_username)
        else Some (DM_SUCCESS, take (DM_USERNAME_LEN - 1) (userid b))
  end.
End cidr.

(** ** Matching *)
Lemma host_mask_spec m :
  0 <= m <= 32 -> exists h, host_mask m = Some h /\ 0 <= h < 2 ^ 32 /\
    forall i, 0 <= i < 32 -> Z.testbit h i = if m =? 0 then true else m <=? i.
Proof.
  intros Hm. unfold host_mask. destruct (m =? 0) eqn:E.
  - exists all_ones. split; [done|]. unfold all_ones. split; [lia|]. intros i Hi.
    change (2 ^ 32 - 1) with (Z.pred (2 ^ 32)). rewrite <- Z.ones_equiv. apply Z.ones_spec_low. lia.
  - to_prop. replace (0 <=? 32 - m) with true by (symmetry; apply Z.leb_le; lia).
    replace (32 - m <? 64) with true by (symmetry; apply Z.ltb_lt; lia). simpl.
    eexists. split; [reflexivity|]. split; [apply Z.mod_pos_bound; lia|]. intros i Hi.
    rewrite Z.mod_pow2_bits_low, Z.lnot_spec, Z.shiftr_spec by lia.
    unfold all_ones. change (2 ^ 32 - 1) with (Z.pred (2 ^ 32)). rewrite <- Z.ones_equiv.
    destruct (m <=? i) eqn:Ei; to_prop.
    + rewrite Z.ones_spec_high by lia. done.
    + rewrite Z.ones_spec_low by lia. done.
Qed.

Lemma land_absorb_iff a b : 0 <= a < 2 ^ 32 -> 0 <= b < 2 ^ 32 ->
  a = Z.land b a <-> forall i, 0 <= i < 32 -> Z.testbit a i = true -> Z.testbit b i = true.
Proof.
  intros Ha Hb. split.
  - intros E i _ Hi. rewrite E, Z.land_spec in Hi. by apply andb_true_iff in Hi as [? _].
  - intros E. apply Z.bits_inj'. intros i Hi. rewrite Z.land_spec.
    destruct (decide (i < 32)).
    + destruct (Z.testbit a i) eqn:Ea; [|by rewrite andb_false_r]. by rewrite (E i) by (try done; lia).
    + assert (forall z, 0 <= z < 2 ^ 32 -> Z.testbit z i = false) as Hh.
      { intros z Hz. destruct (decide (z = 0)) as [->|]; [apply Z.bits_0|].
        apply Z.bits_above_log2; [lia|]. apply Z.lt_le_trans with 32; [|lia]. apply Z.log2_lt_pow2; lia. }
      rewrite !Hh by done. done.
Qed.

Lemma lor_range a b : 0 <= a < 2 ^ 32 -> 0 <= b < 2 ^ 32 -> 0 <= Z.lor a b < 2 ^ 32.
Proof.
  intros Ha Hb. split; [by apply Z.lor_nonneg; lia|].
  destruct (decide (Z.lor a b = 0)) as [->|]; [lia|].
  assert (0 < Z.lor a b) by (assert (0 <= Z.lor a b) by (by apply Z.lor_nonneg; lia); lia).
  apply Z.log2_lt_pow2; [done|]. rewrite Z.log2_lor by lia.
  assert (forall z, 0 <= z < 2 ^ 32 -> Z.log2 z < 32) as Hl.
  { intros z Hz. destruct (decide (z = 0)) as [->|]; [done|]. apply Z.log2_lt_pow2; lia. }
  apply Z.max_lub_lt; by apply Hl.
Qed.

(** The bits of the first address that the comparison demands of the second one. *)
Definition covers (base test : Cidr_T) : Prop :=
  forall i, 0 <= i < 32 -> i < mask base ->
    (mask test <= i \/ Z.testbit (sin_addr test) i = true) -> Z.testbit (sin_addr base) i = true.
Definition cidr_wf (c : Cidr_T) : Prop := 0 <= sin_addr c < 2 ^ 32 /\ 0 <= mask c <= 32.
Definition ports_ok (base test : Cidr_T) : Prop := 0 < sin_port test -> sin_port base = sin_port test.

(** [cidr_match] in full, for masks from 0 to 32: no match for another port; a match for
    a mask of 0; otherwise the mask of the first filter exactly if each of its low bits is
    set where the second address has the bit set or its mask does not reach. *)
Theorem cidr_match_spec base test :
  cidr_wf base -> cidr_wf test ->
  exists r, cidr_match base test = Some r /\
    (r <> 0 <-> ports_ok base test /\ (mask base = 0 \/ mask test = 0 \/ covers base test)) /\
    (r <> 0 -> r = if (mask base =? 0) || (mask test =? 0) then 32 else mask base).
Proof.
  intros [Hb Hbm] [Ht Htm]. destruct (host_mask_spec _ Hbm) as (bm & Eb & Rb & Bb).
  destruct (host_mask_spec _ Htm) as (tm & Et & Rt & Bt). unfold cidr_match, ports_ok.
  rewrite Eb, Et. cbn [mbind option_bind].
  destruct ((0 <? sin_port test) && negb (sin_port base =? sin_port test)) eqn:P.
  { exists 0. split; [done|]. split; [|done]. split; [done|]. intros [Hp _]. exfalso. to_prop. auto. }
  assert (0 < sin_port test -> sin_port base = sin_port test) as Hp.
  { intros X. apply andb_false_iff in P as [P|P]; [bool_lia|]. to_prop. done. }
  destruct ((mask base =? 0) || (mask test =? 0)) eqn:Z0.
  { exists 32. split; [done|]. split; [|done]. split; [|done]. intros _. split; [done|].
    apply orb_true_iff in Z0 as [Z0|Z0]; to_prop; auto. }
  apply orb_false_iff in Z0 as [Zb Zt]. rewrite Zb in *. rewrite Zt in Bt.
  assert (Z.lor (sin_addr test) tm = Z.land (Z.lor (sin_addr base) bm) (Z.lor (sin_addr test) tm) <-> covers base test) as C.
  { rewrite land_absorb_iff by (by apply lor_range). unfold covers.
    assert (forall i, 0 <= i < 32 -> (Z.testbit (Z.lor (sin_addr test) tm) i = true -> Z.testbit (Z.lor (sin_addr base) bm) i = true) <->
      (i < mask base -> mask test <= i \/ Z.testbit (sin_addr test) i = true -> Z.testbit (sin_addr base) i = true)) as B.
    { intros i Hi. rewrite !Z.lor_spec, !orb_true_iff, Bb, Bt, !Z.leb_le by done.
      destruct (Z.testbit (sin_addr base) i), (Z.testbit (sin_addr test) i);
        intuition (try discriminate; try lia). }
    split; intros X i Hi; apply B; auto; by apply X. }
  to_prop. case_match eqn:Em.
  - apply Z.eqb_eq, C in Em. exists (mask base). split; [done|]. split; [|done]. split; [auto|]. intros _. lia.
  - apply Z.eqb_neq in Em. exists 0. split; [done|]. split; [|done]. split; [done|].
    intros [_ [?|[?|?]]]; [done|done|]. exfalso. by apply Em, C.
Qed.

(** The comparison is not one of networks: a filter for a single host also matches the hosts
    whose bits are among its own. *)
Lemma cidr_match_superset :
  cidr_match (mkcidr 50331658 0 32) (mkcidr 16777226 0 32) = Some 32.   (* 10.0.0.3, 10.0.0.1 *)
Proof. reflexivity. Qed.

(** A filter of the user map, which is compared in the other order, matches a client only if
    all bits of the client that its mask leaves free are set. *)
Lemma cidr_match_client client filter r :
  cidr_wf client -> cidr_wf filter -> mask client = 32 -> mask filter <> 0 ->
  cidr_match client filter = Some r -> r <> 0 ->
  forall i, mask filter <= i < 32 -> Z.testbit (sin_addr client) i = true.
Proof.
  intros Hc Hf Hm Hz E Hr i Hi. destruct (cidr_match_spec client filter Hc Hf) as (r' & E' & C & _).
  rewrite E in E'. injection E' as <-. apply C in Hr as [_ [?|[?|Hr]]]; [lia|done|].
  destruct Hf as [_ ?]. apply Hr; [lia|lia|]. left. lia.
Qed.

(** ** The user map *)
Section usermap.
Context `{SocketLib}.

Definition denies (clientsock : cstr) (r : maprow) : bool := bool_decide (dm_sock_compare clientsock [] (sock_deny r) = Some false).
Definition score_of (clientsock : cstr) (r : maprow) : Z := default 0 (dm_sock_score clientsock (sock_allow r)).
(** No filter of the row leaves the behaviour that C defines. *)
Definition row_defined (clientsock : cstr) (r : maprow) : Prop :=
  is_Some (dm_sock_compare clientsock [] (sock_deny r)) /\ is_Some (dm_sock_score clientsock (sock_allow r)).

(** The best of some rows: the first one with the highest score. *)
Definition best_of (clientsock : cstr) (rows : list maprow) (r : maprow) : Prop :=
  exists pre post, rows = pre ++ r :: post /\
    Forall (fun x => score_of clientsock x < score_of clientsock r) pre /\
    Forall (fun x => score_of clientsock x <= score_of clientsock r) post.

Lemma best_row_spec clientsock rows best :
  Forall (row_defined clientsock) rows ->
  (Exists (fun r => denies clientsock r = true) rows -> exists x, best_row clientsock rows best = Some (inl x)) /\
  (Forall (fun r => denies clientsock r = false) rows ->
   best_row clientsock rows best = Some (inr best) /\ Forall (fun x => score_of clientsock x <= best.2) rows \/
   exists r, best_row clientsock rows best = Some (inr (Some r, score_of clientsock r)) /\
     best.2 < score_of clientsock r /\ best_of clientsock rows r).
Proof.
  intros F. revert best. induction F as [|r rows [[ok Hok] [sc Hsc]] F IH]; intros best; simpl.
  { split; [intros E; by inversion E|]. by left. }
  assert (denies clientsock r = negb ok) as D.
  { unfold denies. rewrite Hok. destruct ok; [by rewrite bool_decide_false|by rewrite bool_decide_true]. }
  assert (score_of clientsock r = sc) as S by (unfold score_of; by rewrite Hsc).
  rewrite Hok. simpl. destruct ok; simpl.
  - rewrite Hsc. simpl. destruct (IH (if best.2 <? sc then (Some r, sc) else best)) as [I1 I2]. split.
    + intros E. apply Exists_cons in E as [E|E]; [by rewrite D in E|auto].
    + intros E. apply Forall_cons in E as [_ E].
      destruct (I2 E) as [[-> B]|(r' & -> & B & pre & post & -> & P1 & P2)].
      * destruct (best.2 <? sc) eqn:Eb; to_prop; simpl in B.
        -- right. exists r. rewrite S. split; [done|]. split; [done|]. exists [], rows. split; [done|].
           split; [constructor|]. by rewrite S.
        -- left. split; [done|]. constructor; [lia|done].
      * right. exists r'. split; [done|]. destruct (best.2 <? sc) eqn:Eb; to_prop; simpl in B.
        -- split; [lia|]. exists (r :: pre), post. split; [done|]. split; [|done]. constructor; [lia|done].
        -- split; [lia|]. exists (r :: pre), post. split; [done|]. split; [|done]. constructor; [lia|done].
  - split; [eauto|]. intros E. apply Forall_cons in E as [E _]. by rewrite D in E.
Qed.

Lemma dm_valid_format_spec f u :
  dm_valid_format f = 0 -> exists a b, f = a ++ lit "%s" ++ b /\ cformat f [FS u] = Some (a ++ u ++ b).
Proof.
  unfold dm_valid_format. destruct (str_index f "%") as [i|] eqn:Ei; [|done].
  destruct (str_rindex f "%") as [j|] eqn:Ej; [|done].
  destruct (negb (i =? j)%nat) eqn:Eij; [done|]. case_bool_decide as Es; [|done]. intros _.
  apply negb_false_iff, Nat.eqb_eq in Eij as <-.
  apply str_index_Some in Ei as (Hi & Hb). apply str_rindex_Some in Ej as (_ & Ha).
  exists (take i f), (drop (i + 2) f).
  assert (f !! (i + 1)%nat = Some "s"%char) as Hs.
  { by apply char_at_lookup. }
  assert (f = take i f ++ lit "%s" ++ drop (i + 2) f) as E.
  { rewrite <- (take_drop i f) at 1. f_equal. rewrite (drop_S _ _ _ Hi). simpl. f_equal.
    replace (S i) with (i + 1)%nat by lia. rewrite (drop_S _ _ _ Hs). f_equal. f_equal. lia. }
  split; [exact E|]. assert (forall r, cformat (lit "%s" ++ r) [FS u] = app u <$> cformat r []) as P by reflexivity.
  rewrite E at 1. rewrite cformat_lit, P by done. rewrite cformat_plain; [done|].
  replace (i + 2)%nat with (S i + 1)%nat by lia. rewrite <- drop_drop.
  intros X. apply Ha. by eapply elem_of_drop_weaken.
Qed.

(** The resolution of a login by the user map: without rows the name stays as it is; a
    row that denies the client's socket refuses the login whatever the other rows say;
    otherwise the first row with the highest score decides, a score of 0 refuses, and the
    real name is the row's user id, with the login put in place of [%s] in a row for ANY. *)
Theorem db_usermap_resolve_spec clientsock rows username real :
  Forall (row_defined clientsock) rows ->
  (rows = [] -> db_usermap_resolve clientsock rows username real = Some (DM_SUCCESS, real)) /\
  (Exists (fun r => denies clientsock r = true) rows ->
   db_usermap_resolve clientsock rows username real = Some (DM_EGENERAL, real)) /\
  (rows <> [] -> Forall (fun r => denies clientsock r = false) rows ->
   (Forall (fun r => score_of clientsock r <= 0) rows /\
    db_usermap_resolve clientsock rows username real = Some (DM_EGENERAL, real)) \/
   exists r, best_of clientsock rows r /\ 0 < score_of clientsock r /\
     db_usermap_resolve clientsock rows username real =
       Some (if strneq (login r) (lit "ANY") 3 then
               if dm_valid_format (userid r) =? 0
               then (DM_SUCCESS, take (DM_USERNAME_LEN - 2) (default [] (cformat (userid r) [FS username])))
               else (DM_EQUERY, real)
             else (DM_SUCCESS, take (DM_USERNAME_LEN - 1) (userid r)))).
Proof.
  intros F. unfold db_usermap_resolve. destruct (best_row_spec clientsock rows (None, -1) F) as [B1 B2].
  split; [intros ->; done|]. split; [intros E; by destruct (B1 E) as [x ->]|]. intros Hne E.
  assert (is_nil rows = false) as -> by by destruct rows.
  assert (forall r pre post, rows = pre ++ r :: post -> Forall (fun x => score_of clientsock x < score_of clientsock r) pre ->
    Forall (fun x => score_of clientsock x <= score_of clientsock r) post -> score_of clientsock r <= 0 ->
    Forall (fun r => score_of clientsock r <= 0) rows) as Hall.
  { intros r pre post -> P1 P2 Hr. apply Forall_app. split; [|constructor; [lia|]];
      (eapply Forall_impl; [eassumption|]); simpl; intros; lia. }
  destruct (B2 E) as [[-> B]|(r & -> & B & Hr)]; cbn [mbind option_bind].
  - left. split; [|done]. eapply Forall_impl; [exact B|]. simpl. intros; lia.
  - destruct (score_of clientsock r <=? 0) eqn:S; to_prop.
    + left. split; [|done]. destruct Hr as (pre & post & Er & P1 & P2). by eapply Hall.
    + right. exists r. split; [done|]. split; [done|]. destruct (strneq _ _ _); [|done].
      destruct (dm_valid_format (userid r) =? 0) eqn:V; [|done]. to_prop.
      destruct (dm_valid_format_spec _ username V) as (a & b & _ & Ef). by rewrite Ef.
Qed.

(** A failed query leaves no rows, and the login goes through as if there were no map. *)
Lemma usermap_failure_allows clientsock username real :
  db_usermap_resolve clientsock [] username real = Some (DM_SUCCESS, real).
Proof. done. Qed.
End usermap.

(** A filter without a port that is to deny clients never does: the port of the client, which
    is always given, is demanded of the filter. *)
Lemma cidr_match_deny_port base client :
  cidr_wf base -> cidr_wf client -> sin_port base = 0 -> 0 < sin_port client -> cidr_match base client = Some 0.
Proof.
  intros Hb Hc Hp Hq. destruct (cidr_match_spec base client Hb Hc) as (r & E & C & _).
  destruct (decide (r = 0)) as [->|Hr]; [done|]. apply C in Hr as [Hr _]. unfold ports_ok in Hr. lia.
Qed.

(** ** An example *)
#[local] Instance example_sockets : SocketLib := {|
  inet_aton s := if streq s (lit "10.0.0.1") then Some 16777226
                 else if streq s (lit "10.0.0.3") then Some 50331658
                 else if streq s (lit "0.0.0.0") then Some 0 else None;
  fnmatch p s := streq p s;
|}.
Definition example_rows : list maprow :=
  [mkrow (lit "ANY") (lit "inet:0.0.0.0/0:") (lit "inet:10.0.0.3/32:143") (lit "%s@example.org");
   mkrow (lit "joe") (lit "inet:10.0.0.1/32:143") [] (lit "joe")].

Lemma cidr_match_spec_witness :
  exists r, cidr_match (mkcidr 16777226 143 8) (mkcidr 16777226 0 32) = Some r /\ r <> 0.
Proof.
  destruct (cidr_match_spec (mkcidr 16777226 143 8) (mkcidr 16777226 0 32)) as (r & E & C & _); [by split..|].
  exists r. split; [exact E|]. apply C. split; [done|]. right. right. by intros i Hi _ [?|?]; [simpl in *; lia|].
Defined.

(** The row for everyone denies 10.0.0.3, but its filter also matches 10.0.0.1, whose bits
    are among those of 10.0.0.3. *)
Lemma db_usermap_resolve_spec_witness :
  db_usermap_resolve (client_socket 1 (lit "10.0.0.1") (lit "143")) example_rows (lit "joe") [] = Some (DM_EGENERAL, []).
Proof.
  assert (Forall (row_defined (client_socket 1 (lit "10.0.0.1") (lit "143"))) example_rows) as F.
  { repeat constructor; vm_compute; eauto. }
  destruct (db_usermap_resolve_spec _ example_rows (lit "joe") [] F) as (_ & D & _).
  apply D. apply Exists_cons_hd. by vm_compute.
Defined.

(** The fifth row of doc/README.usermap, which is to deny any kind of access, denies nothing. *)
Lemma readme_deny_all_allows :
  dm_sock_compare (client_socket 1 (lit "10.0.0.1") (lit "143")) [] (lit "inet:0.0.0.0:0") = Some true.
Proof. reflexivity. Qed.

(** Every filter that matches a client has the same score, so that the best match is the
    first one: a general row hides the special rows behind it. *)
Lemma cidr_match_no_preference client filter r :
  cidr_wf client -> cidr_wf filter -> mask client = 32 -> cidr_match client filter = Some r -> r = 0 \/ r = 32.
Proof.
  intros Hc Hf Hm E. destruct (cidr_match_spec client filter Hc Hf) as (r' & E' & _ & V).
  rewrite E in E'. injection E' as <-. destruct (decide (r = 0)) as [|Hr]; [by left|]. right.
  rewrite V by done. rewrite Hm. destruct (mask filter =? 0); reflexivity.
Qed.
