(* ===== verification/Capa.v ===== *)
(** * dm_capa.c: the capability list of an IMAP session

    Two lists of texts: [max_set], what the configuration allows, and [current_set], what is
    announced now. [broken] is set where the code would follow a NULL pointer or fail an
    assertion: an empty list is a node without data, and removing the last capability leaves
    no list. *)
From S2P Require Import Prelude CLib GLib ListT ClientBase.

Definition MAX_CAPASIZE : nat := 1024.
Definition IMAP_CAPABILITY_STRING : cstr :=
  lit "IMAP4rev1 AUTH=LOGIN AUTH=PLAIN AUTH=CRAM-MD5 ACL RIGHTS=texk NAMESPACE CHILDREN SORT QUOTA THREAD=ORDEREDSUBJECT UNSELECT IDLE STARTTLS ID UIDPLUS WITHIN LOGINDISABLED CONDSTORE LITERAL+ ENABLE QRESYNC".

Record Capa_T := mkcapa {
  capabilities : cstr;
  max_set : plist cstr;
  current_set : plist cstr;
  dirty : bool;
  broken : bool;
}.
#[export] Instance Capa_settable : Settable Capa_T := fun r =>
  mkcapa (capabilities r) (max_set r) (current_set r) (dirty r) (broken r).

(** The index of the first item with the text, compared without case; [None] for a node
    without data. *)
Fixpoint search_items (l : list (option cstr)) (c : cstr) : option (option nat) :=
  match l with
  | [] => Some None
  | None :: _ => None
  | Some s :: l => if strcaseeq s c then Some (Some O)
                   else option_map (option_map S) (search_items l c)
  end.
Definition capa_search (set : plist cstr) (c : cstr) : option (option nat) :=
  search_items (items (p_list_first set)) c.

(** The texts separated by blanks, cut to the buffer. *)
Fixpoint join_items (l : list (option cstr)) : option cstr :=
  match l with
  | [] => Some []
  | None :: _ => None
  | [Some s] => Some s
  | Some s :: l => t ← join_items l; Some (s ++ SP :: t)
  end.
Definition capa_update (A : Capa_T) : Capa_T :=
  if negb (dirty A) then A
  else match join_items (items (p_list_first (current_set A))) with
       | Some t => A <| capabilities := take (MAX_CAPASIZE - 1) t |> <| dirty := false |>
       | None => A <| broken := true |>
       end.

(** [Capa_new]; [val] is the configuration value [capability]. *)
Definition Capa_new `{GLibStr} (val : cstr) : Capa_T :=
  let maxcapa := take (MAX_CAPASIZE - 1) (match val with [] => IMAP_CAPABILITY_STRING | _ => val end) in
  let set := foldl (fun L s => p_list_append L (Some s)) p_list_new (g_strsplit maxcapa SP) in
  mkcapa [] set set true false.

Definition Capa_as_string (A : Capa_T) : Capa_T * cstr := let A := capa_update A in (A, capabilities A).
Definition Capa_match (A : Capa_T) (c : cstr) : bool :=
  match capa_search (current_set A) c with Some (Some _) => true | _ => false end.
Definition Capa_add (A : Capa_T) (c : cstr) : Capa_T :=
  match capa_search (max_set A) c with
  | None => A <| broken := true |>
  | Some None => A
  | Some (Some i) => A <| current_set ::= fun L => p_list_append L (mjoin (items (max_set A) !! i)) |> <| dirty := true |>
  end.
Definition Capa_remove (A : Capa_T) (c : cstr) : Capa_T :=
  match capa_search (current_set A) c with
  | None => A <| broken := true |>
  | Some None => A
  | Some (Some i) =>
      match p_list_remove (current_set A) i with
      | Some L => A <| current_set := L |> <| dirty := true |>
      | None => A <| broken := true |>
      end
  end.

(** ** The abstract list *)

(** The texts of a list that is not empty. *)
Definition announced (A : Capa_T) : list cstr := omap id (items (current_set A)).
Definition capa_ok (A : Capa_T) : Prop :=
  broken A = false /\ announced A <> [] /\ items (current_set A) = Some <$> announced A /\
  exists m, items (max_set A) = Some <$> m.

(** The list without the first text that matches. *)
Fixpoint without (c : cstr) (l : list cstr) : list cstr :=
  match l with [] => [] | s :: l => if strcaseeq s c then l else s :: without c l end.
Definition offers (l : list cstr) (c : cstr) : bool := existsb (fun s => strcaseeq s c) l.

Lemma search_items_some (l : list cstr) c :
  match search_items (Some <$> l) c with
  | Some (Some i) => offers l c = true /\ delete i (Some <$> l) = Some <$> without c l /\ exists s, l !! i = Some s /\ strcaseeq s c = true
  | Some None => offers l c = false /\ without c l = l
  | None => False
  end.
Proof.
  unfold offers. induction l as [|s l IH]; [done|]. rewrite fmap_cons. cbn [search_items without existsb].
  destruct (strcaseeq s c) eqn:E; cbn [orb].
  { split; [done|]. split; [done|]. by exists s. }
  destruct (search_items (Some <$> l) c) as [[i|]|]; cbn [option_map]; [|by destruct IH as [-> ->]|done].
  destruct IH as (-> & D & s' & Hi & Es). split; [done|]. split; [|by exists s'].
  rewrite fmap_cons, <- D. done.
Qed.

Lemma omap_id_Some {A} (l : list A) : omap id (Some <$> l) = l.
Proof. induction l as [|x l IH]; [done|]. csimpl. by f_equal. Qed.

Lemma Capa_match_spec A c : capa_ok A -> Capa_match A c = offers (announced A) c.
Proof.
  intros (_ & _ & E & _). unfold Capa_match, capa_search, p_list_first. simpl. rewrite E.
  pose proof (search_items_some (announced A) c) as S. destruct (search_items _ c) as [[i|]|]; [by destruct S as [-> _]..|done].
Qed.

Lemma Capa_remove_spec A c :
  capa_ok A -> without c (announced A) <> [] ->
  capa_ok (Capa_remove A c) /\ announced (Capa_remove A c) = without c (announced A).
Proof.
  intros (B & N & E & M) Hw. unfold Capa_remove, capa_search, p_list_first. simpl. rewrite E.
  pose proof (search_items_some (announced A) c) as S. destruct (search_items _ c) as [[i|]|]; [| |done].
  - destruct S as (_ & D & _). unfold p_list_remove. rewrite E, D.
    destruct (without c (announced A)) as [|s l] eqn:W; [done|]. simpl. unfold capa_ok, announced. simpl.
    rewrite omap_id_Some. auto.
  - destruct S as [_ ->]. by split.
Qed.

(** The first text of a list that matches, as a list. *)
Definition first_match (c : cstr) (m : list cstr) : list cstr := take 1 (filter (fun s => strcaseeq s c = true) m).

Lemma search_first_match (m : list cstr) c :
  match search_items (Some <$> m) c with
  | Some (Some i) => exists s, m !! i = Some s /\ first_match c m = [s]
  | Some None => first_match c m = []
  | None => False
  end.
Proof.
  unfold first_match. induction m as [|s m IH]; [done|]. rewrite fmap_cons, filter_cons. cbn [search_items].
  destruct (strcaseeq s c) eqn:E.
  { rewrite decide_True by done. exists s. split; [done|]. simpl. by rewrite take_0. }
  rewrite decide_False by done. destruct (search_items (Some <$> m) c) as [[i|]|]; cbn [option_map]; [|done|done].
  destruct IH as (s' & Hi & Es). by exists s'.
Qed.

Definition allowed (A : Capa_T) : list cstr := omap id (items (max_set A)).

Lemma Capa_add_spec A c :
  capa_ok A -> capa_ok (Capa_add A c) /\ allowed (Capa_add A c) = allowed A /\
  announced (Capa_add A c) = announced A ++ first_match c (allowed A).
Proof.
  intros (B & N & E & m & M). unfold Capa_add, capa_search, p_list_first, allowed. simpl. rewrite M, omap_id_Some.
  pose proof (search_first_match m c) as S. destruct (search_items _ c) as [[i|]|]; [| |done].
  - destruct S as (s & Hs & ->). rewrite list_lookup_fmap, Hs. simpl.
    assert (items (p_list_append (current_set A) (Some s)) = Some <$> (announced A ++ [s])) as Ei.
    { unfold p_list_append, ISEMPTY. rewrite E. destruct (announced A) as [|s0 [|s1 l]]; [done|done|].
      csimpl. by rewrite fmap_app. }
    assert (announced (A <| current_set ::= fun L => p_list_append L (Some s) |> <| dirty := true |>) = announced A ++ [s]) as Ea.
    { unfold announced at 1. simpl. by rewrite Ei, omap_id_Some. }
    split; [|by rewrite M, omap_id_Some]. split; [done|]. rewrite Ea. split; [by destruct (announced A)|].
    split; [exact Ei|by exists m].
  - rewrite S, app_nil_r. split; [unfold capa_ok; eauto 10|]. by rewrite M, omap_id_Some.
Qed.

(** ** The announcement over the life of a session *)
Inductive capa_op := Add (c : cstr) | Remove (c : cstr) | Show.
Definition capa_step (A : Capa_T) (o : capa_op) : Capa_T :=
  match o with Add c => Capa_add A c | Remove c => Capa_remove A c | Show => (Capa_as_string A).1 end.
Definition capa_spec (m l : list cstr) (o : capa_op) : list cstr :=
  match o with Add c => l ++ first_match c m | Remove c => without c l | Show => l end.
Fixpoint never_empty (m l : list cstr) (os : list capa_op) : Prop :=
  match os with [] => True | o :: os => capa_spec m l o <> [] /\ never_empty m (capa_spec m l o) os end.

Fixpoint join (l : list cstr) : cstr :=
  match l with [] => [] | [s] => s | s :: l => s ++ SP :: join l end.

Lemma join_items_some l : join_items (Some <$> l) = Some (join l).
Proof.
  induction l as [|s l IH]; [done|]. destruct l as [|s' l]; [done|].
  rewrite !fmap_cons in *. change (join_items (Some s :: Some s' :: (Some <$> l))) with
    (t ← join_items (Some s' :: (Some <$> l)); Some (s ++ SP :: t)). by rewrite IH.
Qed.

(** The text is up to date unless it is marked dirty. *)
Definition in_step (A : Capa_T) : Prop :=
  dirty A = false -> capabilities A = take (MAX_CAPASIZE - 1) (join (announced A)).

Lemma Capa_as_string_spec A :
  capa_ok A -> in_step A ->
  capa_ok (Capa_as_string A).1 /\ in_step (Capa_as_string A).1 /\
  announced (Capa_as_string A).1 = announced A /\ allowed (Capa_as_string A).1 = allowed A /\
  (Capa_as_string A).2 = take (MAX_CAPASIZE - 1) (join (announced A)).
Proof.
  intros O I. unfold Capa_as_string, capa_update. destruct (dirty A) eqn:D; simpl; [|by rewrite I].
  destruct O as (B & N & E & M). unfold p_list_first. simpl. rewrite E, join_items_some. simpl.
  split; [by split|]. by split.
Qed.

(** Whatever capabilities are added, taken away and shown, as long as one is left: the
    list of pointers is intact, what is announced is what the same changes make of the list
    of texts, where only what the configuration allows can be added, and the text shown to
    the client is that list separated by blanks, cut to the 1023 characters that fit. *)
Theorem Capa_session_refines A os :
  capa_ok A -> in_step A -> never_empty (allowed A) (announced A) os ->
  let A' := foldl capa_step A os in
  capa_ok A' /\ announced A' = foldl (capa_spec (allowed A)) (announced A) os /\
  (Capa_as_string A').2 = take (MAX_CAPASIZE - 1) (join (announced A')) /\
  forall c, Capa_match A' c = offers (announced A') c.
Proof.
  revert A. induction os as [|o os IH]; intros A O I N; simpl.
  { split; [done|]. split; [done|]. split; [by apply Capa_as_string_spec|]. intros c. by apply Capa_match_spec. }
  destruct N as [N1 N2].
  assert (capa_ok (capa_step A o) /\ in_step (capa_step A o) /\ allowed (capa_step A o) = allowed A /\
          announced (capa_step A o) = capa_spec (allowed A) (announced A) o) as (O' & I' & Al & An).
  { destruct o as [c|c|]; simpl in *.
    - destruct (Capa_add_spec A c O) as (? & ? & E). split; [done|]. split; [|done].
      intros D. revert D E. unfold Capa_add. destruct (capa_search _ _) as [[i|]|]; simpl; [done| |]; intros D _; by apply I.
    - destruct (Capa_remove_spec A c O N1) as (? & E). split; [done|]. split; [|split; [|done]].
      + intros D. revert D. unfold Capa_remove. destruct (capa_search _ _) as [[i|]|]; simpl; [|intros D; by apply I..].
        destruct (p_list_remove _ _); simpl; [done|]. intros D. by apply I.
      + unfold Capa_remove, allowed. destruct (capa_search _ _) as [[i|]|]; [destruct (p_list_remove _ _)|..]; done.
    - destruct (Capa_as_string_spec A O I) as (? & ? & ? & ? & _). done. }
  rewrite <- An, <- Al in N2. destruct (IH _ O' I' N2) as (F1 & F2 & F3). rewrite Al, An in F2. done.
Qed.

Definition example_capa : Capa_T :=
  let set := mkplist [Some (lit "IMAP4rev1"); Some (lit "STARTTLS"); Some (lit "IDLE")] 0 in mkcapa [] set set true false.

Lemma Capa_session_refines_witness :
  (Capa_as_string (foldl capa_step example_capa [Remove (lit "starttls"); Show; Add (lit "X"); Add (lit "idle")])).2 =
    lit "IMAP4rev1 IDLE IDLE".
Proof.
  edestruct (Capa_session_refines example_capa [Remove (lit "starttls"); Show; Add (lit "X"); Add (lit "idle")])
    as (_ & E & -> & _).
  - split; [done|]. split; [done|]. split; [done|]. by eexists [_; _; _].
  - done.
  - repeat split; vm_compute; discriminate.
  - rewrite E. reflexivity.
Defined.
