(* ===== verification/Auth.v ===== *)
(** * Authentication: dm_cram.c, the password check and modules/authsql.c

    The CRAM-MD5 exchange, [db_user_validate] with every way a password can be stored,
    [auth_validate], which puts user map, user look-up and password check together, and
    [auth_check_user_ext], which expands aliases. The tables are parameters: what the queries
    answer, [None] being a failed query. Hash functions and crypt are parameters too. *)
From S2P Require Import Prelude CLib GLib ClientBase MailboxState MiscText Cidr.

Class Digests := {
  digest : cstr -> cstr -> cstr;       (** algorithm, text: the digest in hexadecimal *)
  hmac_md5 : cstr -> cstr -> cstr;     (** key, text *)
  crypt : cstr -> cstr -> option cstr; (** password, salt or hash; [None] is a NULL result *)
}.

(** ** CRAM-MD5 *)
Record Cram_T := mkcram { challenge : cstr; username : option cstr; response : cstr }.
#[export] Instance Cram_settable : Settable Cram_T := fun r => mkcram (challenge r) (username r) (response r).

Section cram.
Context `{GLibBase64} `{Digests}.

(** [dm_base64_decode]: a zero-terminated copy of the bytes, and their number. *)
Definition dm_base64_decode (s : cstr) : cstr * nat :=
  let p := g_base64_decode s in (cstring_of p, length p).

Definition Cram_decode (C : Cram_T) (resp : cstr) : Cram_T * bool :=
  let '(s, len) := dm_base64_decode resp in
  let space := stridx s SP in
  if bool_decide (space = len) then (C, false)
  else (C <| username := Some (take space s) |>
          <| response := take (len - S space) (drop (S space) s) |>, true).

(** [None]: the assertion that there is a name fails. *)
Definition Cram_getUsername (C : Cram_T) : option cstr := username C.

(** strncmp(a, b, strlen(a)) = 0 *)
Definition Cram_verify (C : Cram_T) (credentials : cstr) : bool :=
  strneq (response C) (hmac_md5 credentials (challenge C)) (length (response C)).
End cram.

(** ** Passwords *)
Definition COLUMN_WIDTH : nat := 255.
Definition PUBLIC_FOLDER_USER : cstr := lit "__public__".

Class AuthTables := {
  auth_user_exists : cstr -> option Z;              (** the id, of the name without case *)
  db_user_active : Z -> bool;
  password_row : cstr -> Z -> option (option (cstr * cstr));
                                                    (** column, user: password and its encoding *)
  db_use_usermap : bool;
  usermap_rows : cstr -> list maprow;               (** the rows for a login or for ANY *)
  user_get_deliver_to : cstr -> list cstr;          (** the targets of an alias *)
}.

Section validate.
Context `{GLibBase64} `{Digests} `{AuthTables} `{SocketLib}.

(** The comparison of a stored password with what the client sent, by the encoding; [None]
    where a NULL pointer would be followed. *)
Definition password_matches (cram : option Cram_T) (dbpass encode : cstr) (password : option cstr) : option bool :=
  if strcaseeq encode [] then
    match cram with
    | Some C => Some (Cram_verify C dbpass)
    | None => p ← password; Some (streq dbpass p)
    end
  else
    match password with
    | None => Some false
    | Some p =>
        let enc name := strcaseeq encode name in
        let hash alg n := Some (strneq (digest alg p) dbpass n) in
        if enc (lit "crypt") then h ← crypt p dbpass; Some (streq h dbpass)
        else if enc (lit "md5") then
          if negb (strneq dbpass (lit "$1$") 3) then hash (lit "md5") 32%nat
          else h ← crypt p dbpass; Some (strneq dbpass (take 34 h) 34)
        else if enc (lit "md5sum") then hash (lit "md5") 32%nat
        else if enc (lit "md5base64") then hash (lit "md5base64") 32%nat
        else if enc (lit "whirlpool") then hash (lit "whirlpool") 128%nat
        else if enc (lit "sha512") then hash (lit "sha512") 128%nat
        else if enc (lit "sha256") then hash (lit "sha256") 64%nat
        else if enc (lit "sha1") then hash (lit "sha1") 32%nat
        else if enc (lit "tiger") then hash (lit "tiger") 48%nat
        else Some false
    end.

Definition db_user_validate (cram : option Cram_T) (pwfield : cstr) (user_idnr : Z) (password : option cstr) : option Z :=
  match password_row pwfield user_idnr with
  | None => Some DM_EQUERY
  | Some None => Some 0
  | Some (Some (pw, enc)) =>
      let dbpass := take COLUMN_WIDTH pw in
      let encode := take COLUMN_WIDTH enc in
      match dbpass with
      | [] => Some 0
      | _ => ok ← password_matches cram dbpass encode password; Some (if ok : bool then 1 else 0)
      end
  end.

Definition CONSTNULL (a : option cstr) : bool := match a with None | Some [] => true | _ => false end.

(** What happens behind the password check: nothing, or the action that the security
    password triggers. *)
Record validated := mkvalid { valid : Z; user_idnr : Z; security_trigger : bool }.

(** The end of [auth_validate]: the user look-up and the password checks. *)
Definition check_account cram (real_username : cstr) password : option validated :=
  match auth_user_exists real_username with
  | None => Some (mkvalid 0 0 false)
  | Some id =>
      if negb (db_user_active id) then Some (mkvalid 0 id false)
      else
        v ← db_user_validate cram (lit "passwd") id password;
        if v =? 0 then
          v ← db_user_validate cram (lit "spasswd") id password;
          Some (mkvalid v (if v =? 0 then 0 else id) (negb (v =? 0)))
        else Some (mkvalid v id false)
  end.

Definition auth_validate (cram : option Cram_T) (clientsock : cstr) (username password : option cstr) : option validated :=
  let rejected := Some (mkvalid 0 0 false) in
  let named :=
    if CONSTNULL username || CONSTNULL password then
      match cram with
      | Some C => u ← Cram_getUsername C; Some (Some u)
      | None => Some None
      end
    else Some username in
  match named with
  | None => None
  | Some None => rejected
  | Some (Some tuser) =>
      if streq tuser PUBLIC_FOLDER_USER then rejected
      else
        let real_username := take (DM_USERNAME_LEN - 1) tuser in
        '(result, real_username) ←
          (if db_use_usermap then db_usermap_resolve clientsock (usermap_rows tuser) tuser real_username
           else Some (DM_SUCCESS, real_username));
        if result =? DM_EGENERAL then rejected
        else if result =? DM_EQUERY then Some (mkvalid DM_EQUERY 0 false)
        else check_account cram real_username password
  end.
End validate.

(** ** Aliases *)
Section aliases.
Context `{AuthTables}.

(** The result for a name that is no alias: a number is a user id, anything else a forward. *)
Definition deliver_leaf (username : cstr) (userids : list Z) (fwds : list cstr) : Z * list Z * list cstr :=
  if bool_decide (scan_end username = []) then
    let id := strtoull username in
    if db_user_active id then (1, id :: userids, fwds) else (0, userids, fwds)
  else (0, userids, username :: fwds).

(** [auth_check_user_ext]; [fuel] is 21 - [checks]. *)
Fixpoint check_user_ext (fuel : nat) (username : cstr) (top : bool) (userids : list Z) (fwds : list cstr)
    : Z * list Z * list cstr :=
  match fuel with
  | O => (0, userids, fwds)
  | S fuel =>
      match user_get_deliver_to username with
      | [] => if top then (0, userids, fwds) else deliver_leaf username userids fwds
      | d => foldl (fun '(occurences, userids, fwds) deliver_to =>
                      let '(n, userids, fwds) := check_user_ext fuel deliver_to false userids fwds in
                      (occurences + n, userids, fwds))
               (0, userids, fwds) d
      end
  end.
Definition auth_check_user_ext (username : cstr) (userids : list Z) (fwds : list cstr) : Z * list Z * list cstr :=
  check_user_ext 21 username true userids fwds.
End aliases.

(** ** Facts about passwords *)
Lemma stridx_app s c t : c ∉ s -> stridx (s ++ c :: t) c = length s.
Proof.
  induction s as [|x s IH]; intros Hc; simpl; [by rewrite bool_decide_true|].
  apply not_elem_of_cons in Hc as [H1 H2]. rewrite bool_decide_false by congruence. by rewrite IH.
Qed.

Section password_facts.
Context `{GLibBase64} `{Digests} `{AuthTables} `{SocketLib}.

Lemma strneq_prefix a b : strneq a b (length a) = true <-> a `prefix_of` b.
Proof.
  unfold strneq. rewrite bool_decide_eq_true, firstn_all. split.
  - intros ->. exists (drop (length a) b). by rewrite take_drop.
  - intros [k ->]. by rewrite take_app_length.
Qed.

(** The response to a CRAM-MD5 challenge: what the client sends is the base64 form of its
    name, a space and the keyed digest of the challenge, and then [Cram_decode] recovers the
    name and [Cram_verify] accepts it with the password that was the key; in general
    [Cram_verify] accepts every beginning of the digest. *)
Theorem Cram_exchange `{!GLibBase64Laws} C user pw :
  SP ∉ user -> NUL ∉ user -> NUL ∉ hmac_md5 pw (challenge C) ->
  exists C', Cram_decode C (g_base64_encode (user ++ SP :: hmac_md5 pw (challenge C))) = (C', true) /\
    username C' = Some user /\ challenge C' = challenge C /\ Cram_verify C' pw = true /\
    forall D key, Cram_verify D key = true <-> response D `prefix_of` hmac_md5 key (challenge D).
Proof.
  intros Hsp Hn Hd. unfold Cram_decode, dm_base64_decode. rewrite g_base64_roundtrip.
  set (h := hmac_md5 pw (challenge C)) in *.
  rewrite cstring_of_id by (rewrite not_elem_of_app, not_elem_of_cons; done).
  rewrite (stridx_app user SP h) by done. rewrite length_app. cbn [length].
  rewrite bool_decide_false by lia. eexists. split; [done|]. simpl.
  rewrite take_app_length. split; [done|]. split; [done|].
  rewrite drop_app_ge by lia. replace (S (length user) - length user)%nat with 1%nat by lia.
  simpl. rewrite drop_0, take_ge by lia. split; [|intros; apply strneq_prefix].
  unfold Cram_verify. simpl. by apply strneq_prefix.
Qed.

(** An empty response is a beginning of every digest: whoever sends a name and a space is
    let in as that user if the password is stored in the clear. *)
Lemma Cram_verify_empty C pw : response C = [] -> Cram_verify C pw = true.
Proof. intros E. apply strneq_prefix. rewrite E. apply prefix_nil. Qed.

(** A column lets the client in: it holds a password that is not empty and that matches. *)
Definition field_accepts cram field id password : Prop :=
  exists pw enc, password_row field id = Some (Some (pw, enc)) /\ pw <> [] /\
    password_matches cram (take COLUMN_WIDTH pw) (take COLUMN_WIDTH enc) password = Some true.

Lemma db_user_validate_1 cram field id password :
  db_user_validate cram field id password = Some 1 <-> field_accepts cram field id password.
Proof.
  unfold db_user_validate, field_accepts.
  destruct (password_row field id) as [[[pw enc]|]|]; [|split; [done|intros (?&?&?&_); done]..].
  split.
  - destruct pw as [|x pw]; [done|]. cbn [take COLUMN_WIDTH]. intros E. exists (x :: pw), enc.
    split; [done|]. split; [done|]. unfold COLUMN_WIDTH in *. cbn [take]. destruct (password_matches _ _ _ _) as [[]|]; done.
  - intros (pw' & enc' & [= <- <-] & Hne & E). destruct pw as [|x pw]; [done|].
    unfold COLUMN_WIDTH in *. cbn [take] in *. by rewrite E.
Qed.

(** The name under which a client logs in: the one it gave or, if that or the password is
    empty, the one of the CRAM-MD5 exchange. *)
Definition login_name (cram : option Cram_T) (user password : option cstr) : option cstr :=
  if CONSTNULL user || CONSTNULL password then C ← cram; username C else user.

(** The account that the user map assigns to a login name, if it is in use. *)
Definition account (clientsock u r : cstr) : Prop :=
  if db_use_usermap then
    exists result, db_usermap_resolve clientsock (usermap_rows u) u (take (DM_USERNAME_LEN - 1) u) = Some (result, r) /\
      result <> DM_EGENERAL /\ result <> DM_EQUERY
  else r = take (DM_USERNAME_LEN - 1) u.

Lemma check_account_1 cram r password id trigger :
  check_account cram r password = Some (mkvalid 1 id trigger) <->
  auth_user_exists r = Some id /\ db_user_active id = true /\
  (trigger = false /\ db_user_validate cram (lit "passwd") id password = Some 1 \/
   trigger = true /\ db_user_validate cram (lit "passwd") id password = Some 0 /\
     db_user_validate cram (lit "spasswd") id password = Some 1).
Proof.
  unfold check_account. destruct (auth_user_exists r) as [id'|]; [|split; [done|by intros []]].
  split.
  - destruct (db_user_active id') eqn:Ea; [|done]. cbn [negb].
    destruct (db_user_validate _ (lit "passwd") id' _) as [v|] eqn:E1; cbn [mbind option_bind]; [|intros ?; discriminate].
    destruct (v =? 0) eqn:Ev; to_prop.
    + destruct (db_user_validate _ (lit "spasswd") _ _) as [w|] eqn:E2; cbn [mbind option_bind]; [|intros ?; discriminate].
      intros [= -> <- <-]. subst v. change (1 =? 0) with false in *. cbn [negb]. split; [done|]. split; [done|]. right. done.
    + intros [= -> <- <-]. split; [done|]. split; [done|]. by left.
  - intros ([= ->] & -> & [(-> & ->)|(-> & -> & ->)]); done.
Qed.

(** C39. Who is let in: [auth_validate] answers 1 for the user [id] exactly if the login name
    is not the one of the public folders, the user map does not refuse it, the account that
    it assigns exists with that id and is active, and the client's password matches the
    password or, if that one does not match, the security password, whose action is then
    triggered. *)
Theorem auth_validate_accepts cram clientsock user password id trigger :
  auth_validate cram clientsock user password = Some (mkvalid 1 id trigger) <->
  exists u r, login_name cram user password = Some u /\ u <> PUBLIC_FOLDER_USER /\ account clientsock u r /\
    auth_user_exists r = Some id /\ db_user_active id = true /\
    (trigger = false /\ field_accepts cram (lit "passwd") id password \/
     trigger = true /\ db_user_validate cram (lit "passwd") id password = Some 0 /\
       field_accepts cram (lit "spasswd") id password).
Proof.
  unfold auth_validate, login_name, account. setoid_rewrite <- db_user_validate_1.
  set (named := if CONSTNULL user || CONSTNULL password then _ else _).
  assert (match named with Some (Some u) => Some u | _ => None end =
          (if CONSTNULL user || CONSTNULL password then C ← cram; username C else user)) as <-.
  { subst named. destruct (_ || _); [|by destruct user]. destruct cram as [C|]; [|done]. simpl. unfold Cram_getUsername. by destruct (username C). }
  destruct named as [[u|]|]; [|split; [intros ?; discriminate|intros (?&?&[=]&_)]..].
  split.
  - destruct (streq u _) eqn:Eu; [done|]. unfold streq in Eu. to_prop.
    destruct db_use_usermap.
    + destruct (db_usermap_resolve _ _ _ _) as [[result r]|] eqn:Em; cbn [mbind option_bind]; [|intros ?; discriminate].
      destruct (result =? DM_EGENERAL) eqn:E1; [done|]. destruct (result =? DM_EQUERY) eqn:E2; [done|].
      intros E. exists u, r. to_prop. split; [done|]. split; [done|]. split; [by exists result|]. by apply check_account_1.
    + cbn [mbind option_bind]. change (DM_SUCCESS =? DM_EGENERAL) with false. change (DM_SUCCESS =? DM_EQUERY) with false.
      intros E. exists u, (take (DM_USERNAME_LEN - 1) u). split; [done|]. split; [done|]. split; [done|]. by apply check_account_1.
  - intros (u' & r & [= <-] & Hu & Hm & Hc). unfold streq. rewrite bool_decide_eq_false_2 by done.
    destruct db_use_usermap.
    + destruct Hm as (result & -> & N1 & N2). cbn [mbind option_bind].
      apply Z.eqb_neq in N1 as ->. apply Z.eqb_neq in N2 as ->. by apply check_account_1.
    + subst r. cbn [mbind option_bind]. by apply check_account_1.
Qed.
End password_facts.

(** ** Facts about aliases *)
Section alias_facts.
Context `{AuthTables}.

(** [c] is reached from [a] by [k] look-ups in the table of aliases. *)
Inductive alias_path : nat -> cstr -> cstr -> Prop :=
| path_here a : alias_path 0 a a
| path_step k a b c : b ∈ user_get_deliver_to a -> alias_path k b c -> alias_path (S k) a c.

Definition leaf (c : cstr) : Prop := user_get_deliver_to c = [].
(** What a name that is no alias stands for. *)
Definition leaf_user (c : cstr) (id : Z) : Prop :=
  leaf c /\ scan_end c = [] /\ id = strtoull c /\ db_user_active id = true.
Definition leaf_forward (c f : cstr) : Prop := leaf c /\ scan_end c <> [] /\ f = c.

(** What an expansion of at most [m] further look-ups has to add. *)
Definition expands (m : nat) (a : cstr) (ids : list Z) (fs : list cstr) : Prop :=
  (forall id, id ∈ ids <-> exists k c, (k < m)%nat /\ alias_path k a c /\ leaf_user c id) /\
  (forall f, f ∈ fs <-> exists k c, (k < m)%nat /\ alias_path k a c /\ leaf_forward c f).

Lemma deliver_leaf_spec a userids fwds :
  leaf a -> exists ids fs, deliver_leaf a userids fwds = (Z.of_nat (length ids), ids ++ userids, fs ++ fwds) /\
    (forall id, id ∈ ids <-> leaf_user a id) /\ (forall f, f ∈ fs <-> leaf_forward a f).
Proof.
  intros L. unfold deliver_leaf, leaf_user, leaf_forward. case_bool_decide as Es.
  - destruct (db_user_active (strtoull a)) eqn:Ea.
    + exists [strtoull a], []. split; [done|]. split; intros x; [rewrite list_elem_of_singleton|rewrite elem_of_nil];
        naive_solver.
    + exists [], []. split; [done|]. split; intros x; rewrite elem_of_nil; naive_solver congruence.
  - exists [], [a]. split; [done|]. split; intros x; [rewrite elem_of_nil|rewrite list_elem_of_singleton]; naive_solver.
Qed.

Lemma path_leaf k a c : leaf a -> alias_path k a c -> k = 0%nat /\ c = a.
Proof. intros L P. inversion P; subst; [done|]. unfold leaf in L. by rewrite L, elem_of_nil in *. Qed.

Lemma path_alias k a c : ~ leaf a -> leaf c -> alias_path k a c ->
  exists j b, k = S j /\ b ∈ user_get_deliver_to a /\ alias_path j b c.
Proof. intros L Lc P. inversion P; subst; [done|]. eauto. Qed.

Lemma check_user_ext_S m a top u w :
  check_user_ext (S m) a top u w =
    match user_get_deliver_to a with
    | [] => if top then (0, u, w) else deliver_leaf a u w
    | d => foldl (fun '(occurences, u, w) b =>
                    let '(n, u, w) := check_user_ext m b false u w in (occurences + n, u, w)) (0, u, w) d
    end.
Proof. reflexivity. Qed.

Lemma exists_in_cons {A} (P : A -> Prop) x l : (exists b, b ∈ x :: l /\ P b) <-> (exists b, b ∈ l /\ P b) \/ P x.
Proof. setoid_rewrite elem_of_cons. naive_solver. Qed.

Lemma check_user_ext_below m a userids fwds :
  exists ids fs, check_user_ext m a false userids fwds = (Z.of_nat (length ids), ids ++ userids, fs ++ fwds) /\
    expands m a ids fs.
Proof.
  revert a userids fwds. induction m as [|m IH]; intros a userids fwds.
  { exists [], []. split; [done|]. split; intros x; rewrite elem_of_nil; split; [done|naive_solver lia|done|naive_solver lia]. }
  rewrite check_user_ext_S. destruct (user_get_deliver_to a) as [|b d] eqn:Ed.
  { destruct (deliver_leaf_spec a userids fwds Ed) as (ids & fs & -> & I & F). exists ids, fs. split; [done|].
    split; intros x; [rewrite I|rewrite F]; split.
    - intros L. exists 0%nat, a. split; [lia|]. split; [constructor|done].
    - intros (k & c & _ & P & L). by apply path_leaf in P as [_ ->].
    - intros L. exists 0%nat, a. split; [lia|]. split; [constructor|done].
    - intros (k & c & _ & P & L). by apply path_leaf in P as [_ ->]. }
  match goal with |- context [foldl ?f _ _] => set (step := f) end.
  assert (forall l o u w, exists ids fs,
    foldl step (o, u, w) l = (o + Z.of_nat (length ids), ids ++ u, fs ++ w) /\
    (forall id, id ∈ ids <-> exists b, b ∈ l /\ exists k c, (k < m)%nat /\ alias_path k b c /\ leaf_user c id) /\
    (forall f, f ∈ fs <-> exists b, b ∈ l /\ exists k c, (k < m)%nat /\ alias_path k b c /\ leaf_forward c f)) as Hl.
  { induction l as [|x l IHl]; intros o u w.
    - exists [], []. rewrite Z.add_0_r. split; [done|]. split; intros y; rewrite elem_of_nil; split; try done; by intros (z & Hz & _); apply elem_of_nil in Hz.
    - simpl. destruct (IH x u w) as (ids1 & fs1 & -> & I1 & F1).
      destruct (IHl (o + Z.of_nat (length ids1)) (ids1 ++ u) (fs1 ++ w)) as (ids2 & fs2 & -> & I2 & F2).
      exists (ids2 ++ ids1), (fs2 ++ fs1). rewrite length_app, <- !app_assoc. split; [do 2 f_equal; lia|].
      split; intros y; rewrite elem_of_app, exists_in_cons; [by rewrite I1, I2|by rewrite F1, F2]. }
  destruct (Hl (b :: d) 0 userids fwds) as (ids & fs & -> & I & F). exists ids, fs. split; [done|].
  assert (~ leaf a) as La by (unfold leaf; by rewrite Ed).
  split; intros x; [rewrite I|rewrite F]; rewrite <- Ed; (split;
    [intros (e & He & k & c & Hk & P & L); exists (S k), c; (split; [lia|]); (split; [by econstructor|done])
    |intros (k & c & Hk & P & L); destruct (path_alias k a c La ltac:(apply L) P) as (j & e & -> & He & Q);
     exists e; (split; [done|]); exists j, c; (split; [lia|done])]).
Qed.

(** C40. The expansion of an alias, which returns for every table, with loops or without: it
    adds the active users and the forwarding addresses that are reached by one to twenty
    look-ups, and nothing else, in front of those that are there, and its result is the
    number of users it added. *)
Theorem auth_check_user_ext_spec username userids fwds :
  exists ids fs, auth_check_user_ext username userids fwds = (Z.of_nat (length ids), ids ++ userids, fs ++ fwds) /\
    (forall id, id ∈ ids <-> exists k c, (1 <= k <= 20)%nat /\ alias_path k username c /\ leaf_user c id) /\
    (forall f, f ∈ fs <-> exists k c, (1 <= k <= 20)%nat /\ alias_path k username c /\ leaf_forward c f).
Proof.
  unfold auth_check_user_ext. destruct (decide (user_get_deliver_to username = [])) as [L|L].
  - exists [], []. split; [rewrite check_user_ext_S; by rewrite L|].
    split; intros x; rewrite elem_of_nil; (split; [done|]); intros (k & c & Hk & P & _);
      apply path_leaf in P as [-> _]; [lia|done|lia|done].
  - destruct (check_user_ext_below 21 username userids fwds) as (ids & fs & E & I & F).
    exists ids, fs. split; [rewrite <- E, !check_user_ext_S; by destruct (user_get_deliver_to username)|].
    split; intros x; [rewrite I|rewrite F]; (split; intros (k & c & Hk & P & Q); exists k, c; (split; [|done]); [|lia]);
      destruct (path_alias k username c L ltac:(apply Q) P) as (j & _ & -> & _); lia.
Qed.

(** An alias that only forwards yields 0, like a name that is no alias. *)
Lemma auth_check_user_ext_forward username f :
  user_get_deliver_to username = [f] -> leaf f -> scan_end f <> [] ->
  auth_check_user_ext username [] [] = (0, [], [f]).
Proof.
  intros E L N. unfold auth_check_user_ext. rewrite check_user_ext_S, E. cbn [foldl].
  rewrite check_user_ext_S, L. unfold deliver_leaf. by rewrite bool_decide_false.
Qed.
End alias_facts.

(** ** An example *)
#[local] Instance example_base64 : GLibBase64 := {| g_base64_encode s := s; g_base64_decode s := s |}.
#[local] Instance example_base64_laws : GLibBase64Laws.
Proof. by constructor. Qed.
(** A keyed digest that shows both arguments. *)
#[local] Instance example_digests : Digests := {|
  digest alg t := alg ++ t; hmac_md5 k t := "h"%char :: k ++ t; crypt p s := Some (s ++ p) |}.
#[local] Instance example_sockets : SocketLib := {| inet_aton _ := None; fnmatch p s := streq p s |}.
(** The user joe, whose password is secret, with an alias to himself, to an address and to a
    loop. *)
#[local] Instance example_tables : AuthTables := {|
  auth_user_exists u := if strcaseeq u (lit "joe") then Some 7 else None;
  db_user_active id := (id =? 7);
  password_row f id := Some (if streq f (lit "passwd") then Some (lit "secret", []) else Some ([], []));
  db_use_usermap := false;
  usermap_rows _ := [];
  user_get_deliver_to a :=
    if streq a (lit "all@x.org") then [lit "7"; lit "loop"; lit "joe@y.org"]
    else if streq a (lit "loop") then [lit "loop"; lit "all@x.org"] else [];
|}.

Lemma Cram_exchange_witness :
  exists C', Cram_decode (mkcram (lit "<1@x>") None []) (lit "joe hsecret<1@x>") = (C', true) /\
    Cram_verify C' (lit "secret") = true.
Proof.
  destruct (Cram_exchange (mkcram (lit "<1@x>") None []) (lit "joe") (lit "secret")) as (C' & E & _ & _ & V & _);
    [by apply (bool_decide_unpack _)..|].
  exists C'. split; [exact E|exact V].
Defined.

Lemma auth_validate_accepts_witness :
  field_accepts None (lit "passwd") 7 (Some (lit "secret")) /\
  auth_validate None (lit "inet") (Some (lit "Joe")) (Some (lit "wrong")) = Some (mkvalid 0 0 false).
Proof.
  split; [|vm_compute; reflexivity].
  destruct (auth_validate_accepts None (lit "inet") (Some (lit "Joe")) (Some (lit "secret")) 7 false) as [A _].
  destruct A as (u & r & _ & _ & _ & _ & _ & [(_ & V)|(D & _)]); [vm_compute; reflexivity|exact V|discriminate D].
Defined.

(** An empty response lets anyone in as joe. *)
Lemma cram_bypass :
  auth_validate (Some (Cram_decode (mkcram (lit "<1@x>") None []) (lit "joe ")).1) (lit "inet") None None =
    Some (mkvalid 1 7 false).
Proof. vm_compute. reflexivity. Qed.

Lemma auth_check_user_ext_spec_witness :
  7 ∈ (auth_check_user_ext (lit "all@x.org") [] []).1.2.
Proof.
  destruct (auth_check_user_ext_spec (lit "all@x.org") [] []) as (ids & fs & -> & I & _). simpl.
  rewrite app_nil_r. apply I. exists 1%nat, (lit "7"). split; [lia|]. split; [|by split].
  eapply path_step; [|constructor]. vm_compute. left.
Defined.
