(* ===== verification/AuthExample.v ===== *)
(** * An example of the external functions and of the user tables

    The instances at which the witnesses of the server theorems are evaluated. *)
From S2P Require Import Prelude CLib GLib ClientBase Cidr Auth.

#[export] Existing Instance plain_conf.
#[export] Instance example_base64 : GLibBase64 := {| g_base64_encode s := s; g_base64_decode s := s |}.
#[export] Instance example_base64_laws : GLibBase64Laws.
Proof. by constructor. Qed.
#[export] Instance example_digests : Digests := {|
  digest alg t := alg ++ t; hmac_md5 k t := "h"%char :: k ++ t; crypt p s := Some (s ++ p) |}.
#[export] Instance example_sockets : SocketLib := {| inet_aton _ := None; fnmatch p s := streq p s |}.
(** The user joe has the identifier 7 and the password secret. *)
#[export] Instance example_tables : AuthTables := {|
  Auth.auth_user_exists u := if strcaseeq u (lit "joe") then Some 7 else None;
  db_user_active id := (id =? 7);
  password_row f id := Some (if streq f (lit "passwd") then Some (lit "secret", []) else Some ([], []));
  db_use_usermap := false;
  usermap_rows _ := [];
  user_get_deliver_to _ := [];
|}.
