(* ===== verification/Pop3.v ===== *)
(** * pop3.c: the POP3 server

    The whole command handler [pop3] (one definition per command), the session setup from
    the message table ([db_createsession]), the write-back at the end of a session
    ([db_update_pop]) and the retrieval of messages ([db_get_message_lines]).

    The SQL statements of these functions are modelled on the tables they name: [messages]
    and [physmessage]. Whether a statement throws is decided by a script ([sql]). The
    authentication back end and the other database functions that POP3 calls are the
    operations of the class [PopEnv]. *)
From S2P Require Import Prelude CLib GLib ListT ClientBase ClientSession MiscText.

(** ** The tables *)
Record msgrow := mkrow {
  r_mailbox : Z;
  r_physmessage : Z;
  r_status : Z;
  r_unique_id : option cstr;
}.
#[export] Instance msgrow_settable : Settable msgrow :=
  fun r => mkrow (r_mailbox r) (r_physmessage r) (r_status r) (r_unique_id r).

Record DB := mkdb {
  messages : gmap Z msgrow;      (** by message_idnr *)
  physmessage : gmap Z Z;        (** id to messagesize *)
  sql : list bool;               (** whether the next statements throw *)
}.
#[export] Instance DB_settable : Settable DB := fun r => mkdb (messages r) (physmessage r) (sql r).

(** The next statement: the remaining script and whether it throws. *)
Definition sql_next (d : DB) : DB * bool :=
  match sql d with b :: bs => (d <| sql := bs |>, b) | [] => (d, false) end.

(** ORDER BY message_idnr ASC *)
Definition row_le (a b : Z * msgrow) : Prop := a.1 <= b.1.
#[export] Instance row_le_dec a b : Decision (row_le a b).
Proof. unfold row_le. apply _. Defined.
#[export] Instance row_le_trans : Transitive row_le.
Proof. intros a b c; unfold row_le; lia. Qed.
#[export] Instance row_le_total : Total row_le.
Proof. intros a b; unfold row_le; lia. Qed.

(** ** What POP3 calls *)
Class PopEnv := {
  dm_db_ping : DB -> bool;
  db_find_create_inbox : DB -> Z -> DB * Z * Z;           (** code, mailbox_idnr *)
  db_get_useridnr : DB -> Z -> Z;
  dm_quota_rebuild_user : DB -> Z -> DB * Z;
  message_crlf : DB -> Z -> option cstr;                  (** the stored message, by message_idnr *)
  auth_validate : DB -> option cstr -> option cstr -> Z * Z;  (** result, user_idnr *)
  auth_user_exists : DB -> cstr -> bool * Z;
  auth_getencryption : DB -> Z -> cstr;
  auth_md5_validate : DB -> cstr -> cstr -> option cstr -> Z;
  pop_before_smtp : bool;
  db_log_ip : DB -> DB;
}.

Record world := mkworld { session : ClientSession_T; db : DB }.
#[export] Instance world_settable : Settable world := fun r => mkworld (session r) (db r).

Definition line (s : string) : cstr := lit s ++ crlf.

Inductive Pop3Cmd :=
| POP3_QUIT | POP3_USER | POP3_PASS | POP3_STAT | POP3_LIST | POP3_RETR | POP3_DELE | POP3_NOOP
| POP3_LAST | POP3_RSET | POP3_UIDL | POP3_APOP | POP3_AUTH | POP3_TOP | POP3_CAPA | POP3_STLS
| POP3_FAIL.
#[export] Instance Pop3Cmd_eq_dec : EqDecision Pop3Cmd.
Proof. solve_decision. Defined.

Definition commands : list (cstr * Pop3Cmd) :=
  [(lit "quit", POP3_QUIT); (lit "user", POP3_USER); (lit "pass", POP3_PASS);
   (lit "stat", POP3_STAT); (lit "list", POP3_LIST); (lit "retr", POP3_RETR);
   (lit "dele", POP3_DELE); (lit "noop", POP3_NOOP); (lit "last", POP3_LAST);
   (lit "rset", POP3_RSET); (lit "uidl", POP3_UIDL); (lit "apop", POP3_APOP);
   (lit "auth", POP3_AUTH); (lit "top", POP3_TOP); (lit "capa", POP3_CAPA);
   (lit "stls", POP3_STLS)].

Definition MAX_ERRORS : Z := 3.
Definition UID_SIZE : nat := 96.

(** What printf prints for a string argument that may be NULL. *)
Definition null_string (s : option cstr) : cstr := default (lit "(null)") s.

(** ** Message text *)

(** The position behind [lines] line feeds. *)
Fixpoint skip_lines (n : nat) (raw : cstr) (pos : nat) (k lines : Z) : nat :=
  match n with
  | O => pos
  | S n' =>
      match raw !! pos with
      | Some c => if k <? lines then skip_lines n' raw (S pos) (if bool_decide (c = LF) then k + 1 else k) lines
                  else pos
      | None => pos
      end
  end.

Section pop3.
Context `{ServerConf} `{GLibStr} `{PopEnv}.

(** [db_get_message_lines message_idnr lines]; a negative [lines] asks for the whole
    message. *)
Definition db_get_message_lines (d : DB) (message_idnr lines : Z) : option cstr :=
  stream ← message_crlf d message_idnr;
  let pos := if 0 <=? lines
             then skip_lines (length stream) stream (find_end_of_header stream) 0 lines else 0%nat in
  Some (get_crlf_encoded_dots (if bool_decide (0 < pos)%nat then take pos stream else stream)).

(** ** Replies *)
Definition reply (w : world) (f : cstr) (a : list farg) : world :=
  w <| session ::= fun s => s <| ci ::= fun c => (ci_write c f a).1 |> |>.

(** [pop3_error]: the formatted text is handed to [ci_write] as a format. *)
Definition pop3_error (w : world) (f : cstr) (a : list farg) : world * Z :=
  if MAX_ERRORS <=? error_count (session w) then (reply w (line "-ERR too many errors") [], -3)
  else
    let s := default [] (cformat f a) in
    let w := reply w s [] in
    if errored (ci (session w)) then (w, -3)
    else (w <| session ::= fun s => s <| error_count ::= Z.succ |> |>, 1).

Definition send_greeting (w : world) : world :=
  if negb (dm_db_ping (db w))
  then (reply w (line "+ERR database has gone fishing") [])
         <| session ::= fun s => s <| state := CLIENTSTATE_QUIT |> |>
  else
    let stamp := FS (null_string (apop_stamp (session w))) in
    match conf_banner with
    | [] => reply w (line "+OK DBMAIL pop3 server ready to rock %s") [stamp]
    | banner => reply w (line "+OK %s %s") [FS banner; stamp]
    end.

(** ** The session *)

(** One row of the message query, as the session keeps it. *)
Definition message_of_row (n : Z) (row : Z * msgrow * Z) : message :=
  let '(id, r, size) := row in
  {| msize := size; messageid := n; realmessageid := id;
     uidl := take (UID_SIZE - 1) (default [] (r_unique_id r));
     messagestatus := r_status r; virtual_messagestatus := r_status r |}.

(** SELECT ... FROM messages msg, physmessage pm WHERE msg.mailbox_idnr = ... AND
    msg.status < 2 AND msg.physmessage_id = pm.id ORDER BY msg.message_idnr ASC *)
Definition select_pop (d : DB) (mailbox_idnr : Z) : list (Z * msgrow * Z) :=
  omap (fun '(id, r) =>
          if bool_decide (r_mailbox r = mailbox_idnr) && (r_status r <? MESSAGE_STATUS_DELETE)
          then size ← physmessage d !! r_physmessage r; Some (id, r, size) else None)
       (merge_sort row_le (map_to_list (messages d))).

Fixpoint add_rows (s : ClientSession_T) (counter : Z) (rows : list (Z * msgrow * Z)) : ClientSession_T :=
  match rows with
  | [] => s
  | row :: rows =>
      let m := message_of_row counter row in
      add_rows (s <| totalmessages ::= fun n => wrap64 (n + 1) |>
                  <| totalsize ::= fun n => wrap64 (n + msize m) |>
                  <| messagelst ::= fun L => p_list_append L (Some m) |>)
               (counter + 1) rows
  end.

Definition db_createsession (w : world) (user_idnr : Z) : world * Z :=
  let '(d, code, mailbox_idnr) := db_find_create_inbox (db w) user_idnr in
  let w := w <| db := d |> in
  if code <? 0 then (w, DM_EQUERY)
  else if mailbox_idnr <=? 0 then (w, DM_EQUERY)
  else
    let '(d, throws) := sql_next d in
    let w := w <| db := d |> in
    if throws then (w, DM_EQUERY)
    else
      let rows := select_pop d mailbox_idnr in
      let s := add_rows ((session w) <| totalmessages := 0 |> <| totalsize := 0 |>) 1 rows in
      let s := match rows with
               | [] => s
               | _ => s <| virtual_totalmessages := totalmessages s |>
                        <| virtual_totalsize := totalsize s |>
               end in
      (w <| session := s |>, DM_EGENERAL).

(** [db_update_pop]: the loop over the messages and the quota. *)
Definition update_row (d : DB) (m : message) : DB :=
  d <| messages ::= alter (fun r => if r_status r <? MESSAGE_STATUS_DELETE
                                     then r <| r_status := virtual_messagestatus m |> else r)
                          (realmessageid m) |>.

Definition update_body (wu : world * Z) (msg : option message) : (world * Z) + (world * Z) :=
  let '(w, user_idnr) := wu in
  match msg with
  | Some m =>
      if bool_decide (virtual_messagestatus m <> messagestatus m) then
        let user_idnr := if user_idnr =? 0 then db_get_useridnr (db w) (realmessageid m) else user_idnr in
        let '(d, throws) := sql_next (db w) in
        if throws then inr (w <| db := d |>, user_idnr)
        else inl (w <| db := update_row d m |>, user_idnr)
      else inl wu
  | None => inl wu
  end.

Definition messages_of (w : world) : plist message := messagelst (session w).
Definition set_messages (w : world) (L : plist message) : world :=
  w <| session ::= fun s => s <| messagelst := L |> |>.
Definition rewind (w : world) : world := set_messages w (p_list_first (messages_of w)).
Definition list_fuel (w : world) : nat := length (items (messages_of w)).

Definition db_update_pop (w : world) : world * Z :=
  let w := rewind w in
  match walk (fun wu => messages_of wu.1) (fun wu L => (set_messages wu.1 L, wu.2))
             (list_fuel w) update_body (w, 0) with
  | inr (w, _) => (w, DM_EQUERY)
  | inl (w, user_idnr) =>
      if user_idnr =? 0 then (w, DM_SUCCESS)
      else
        let '(d, r) := dm_quota_rebuild_user (db w) user_idnr in
        (w <| db := d |>, if r =? -1 then DM_EQUERY else DM_SUCCESS)
  end.

Definition pop3_close (w : world) : world :=
  let w := w <| session ::= fun s => s <| state := CLIENTSTATE_QUIT |> |> in
  let s := session w in
  if bool_decide (username s <> None) && (negb (was_apop s =? 0) || bool_decide (password s <> None)) then
    if SessionResult s =? 0 then
      let '(w, r) := db_update_pop w in
      if r =? DM_SUCCESS then reply w (line "+OK see ya later") []
      else reply w (line "-ERR some deleted messages not removed") []
    else if SessionResult s =? 1 then reply w (line "-ERR I'm leaving, you're too slow") []
    else w
  else reply w (line "+OK see ya later") [].

(** [_pop3_session_authenticated]: the parameter is an int. *)
Definition _pop3_session_authenticated (w : world) (user_idnr : Z) : world * Z :=
  let w := w <| session ::= fun s =>
             client_session_set_timeout (s <| state := CLIENTSTATE_AUTHENTICATED |>) conf_timeout |> in
  let w := if pop_before_smtp then w <| db ::= db_log_ip |> else w in
  let '(w, result) := db_createsession w (wrap64 (to_int32 user_idnr)) in
  if result =? 1 then
    (reply w (line "+OK %s has %lu messages (%lu octets)")
       [FS (null_string (username (session w))); FU (virtual_totalmessages (session w));
        FU (virtual_totalsize (session w))], result)
  else (w <| session ::= fun s => s <| SessionResult := 4 |> |>, result).

(** ** Commands

    [value] is the argument of the command, if it has one; the commands that require one are
    only reached with one ([arg] reads it). A command's result is the new world and the
    return value of [pop3]. *)
Definition arg (value : option cstr) : cstr := default [] value.
Definition wrong_mode (w : world) : world * Z := pop3_error w (line "-ERR wrong command mode") [].
Definition upd (w : world) (f : ClientSession_T -> ClientSession_T) : world := w <| session ::= f |>.

Definition pop3_quit (w : world) : world * Z :=
  let w := upd w (fun s => s <| state := CLIENTSTATE_LOGOUT |> <| SessionResult := 0 |>) in
  (pop3_close w, 0).

Definition pop3_stls (w : world) (st : Z) : world * Z :=
  if negb (st =? CLIENTSTATE_INITIAL_CONNECT) then wrong_mode w
  else if negb conf_ssl then pop3_error w (line "-ERR server error") []
  else if negb (ssl_state (ci (session w)) =? 0) then pop3_error w (line "-ERR TLS already active") []
  else
    let w := reply w (line "+OK Begin TLS now") [] in
    let '(c, r) := ci_starttls (ci (session w)) in
    (upd w (fun s => s <| ci := c |>), if r <? 0 then -1 else 1).

Definition pop3_user (w : world) (st : Z) (login_disabled : bool) (value : option cstr) : world * Z :=
  if negb (st =? CLIENTSTATE_INITIAL_CONNECT) then wrong_mode w
  else if login_disabled && (ssl_state (ci (session w)) =? 0) then pop3_error w (line "-ERR try STLS") []
  else
    let w := upd w (fun s => s <| username := Some (arg value) |>) in
    (reply w (line "+OK Password required for %s") [FS (arg value)], 1).

Definition pop3_pass (w : world) (st : Z) (login_disabled : bool) (value : option cstr) : world * Z :=
  if negb (st =? CLIENTSTATE_INITIAL_CONNECT) then wrong_mode w
  else if login_disabled && (ssl_state (ci (session w)) =? 0) then pop3_error w (line "-ERR try STLS") []
  else
    let w := upd w (fun s => s <| password := Some (arg value) |>) in
    let '(validate_result, result) := auth_validate (db w) (username (session w)) (password (session w)) in
    if validate_result =? -1 then (upd w (fun s => s <| SessionResult := 3 |>), -1)
    else if validate_result =? 0 then
      pop3_error (upd w (fun s => s <| username := None |> <| password := None |>))
        (line "-ERR username/password incorrect") []
    else _pop3_session_authenticated w result.

(** Whether the current message is the one that is asked for. *)
Definition selected (id : Z) (msg : option message) : option message :=
  m ← msg; if (messageid m =? id) && (virtual_messagestatus m <? MESSAGE_STATUS_DELETE) then Some m else None.
Definition undeleted (msg : option message) : option message :=
  m ← msg; if virtual_messagestatus m <? MESSAGE_STATUS_DELETE then Some m else None.

Definition no_such_message (w : world) (value : option cstr) : world * Z :=
  pop3_error w (line "-ERR [%s] no such message") [FS (arg value)].

(** The loops that answer for one message ([show_one]) and for all of them ([show_all]). *)
Definition show_one (w : world) (value : option cstr) (f : cstr) (a : message -> list farg) : world * Z :=
  match walk (R := Empty_set) (fun wf => messages_of wf.1) (fun wf L => (set_messages wf.1 L, wf.2)) (list_fuel w)
          (fun '(w, found) msg =>
             inl (match selected (strtoull (arg value)) msg with
                  | Some m => (reply w f (a m), true)
                  | None => (w, found)
                  end)) (w, false) with
  | inl (w, found) => if found then (w, 1) else no_such_message w value
  | inr r => match r with end
  end.
Definition show_all (w : world) (f : cstr) (a : message -> list farg) : world :=
  match walk (R := Empty_set) messages_of set_messages (list_fuel w)
          (fun w msg => inl (match undeleted msg with Some m => reply w f (a m) | None => w end)) w with
  | inl w => w
  | inr r => match r with end
  end.

Definition pop3_list (w : world) (st : Z) (value : option cstr) : world * Z :=
  if negb (st =? CLIENTSTATE_AUTHENTICATED) then wrong_mode w
  else
    let w := rewind w in
    match value with
    | Some _ => show_one w value (line "+OK %lu %lu") (fun m => [FU (messageid m); FU (msize m)])
    | None =>
        let w := reply w (line "+OK %lu messages (%lu octets)")
                   [FU (virtual_totalmessages (session w)); FU (virtual_totalsize (session w))] in
        let w := if 0 <? virtual_totalmessages (session w)
                 then show_all w (line "%lu %lu") (fun m => [FU (messageid m); FU (msize m)]) else w in
        (reply w (line ".") [], 1)
    end.

Definition pop3_stat (w : world) (st : Z) : world * Z :=
  if negb (st =? CLIENTSTATE_AUTHENTICATED) then wrong_mode w
  else (reply w (line "+OK %lu %lu")
          [FU (virtual_totalmessages (session w)); FU (virtual_totalsize (session w))], 1).

(** A walk that ends at the selected message with [f]. *)
Definition at_message (w : world) (id : Z) (f : world -> message -> world * Z) (none : world -> world * Z)
    : world * Z :=
  match walk messages_of set_messages (list_fuel w)
          (fun w msg => match selected id msg with Some m => inr (f w m) | None => inl w end) w with
  | inr r => r
  | inl w => none w
  end.
Definition update_current (w : world) (f : message -> message) : world :=
  set_messages w (p_list_update (messages_of w) f).

Definition pop3_retr (w : world) (st : Z) (value : option cstr) : world * Z :=
  if negb (st =? CLIENTSTATE_AUTHENTICATED) then wrong_mode w
  else
    at_message (rewind w) (strtoull (arg value))
      (fun w m =>
         let w := update_current w (fun m => m <| virtual_messagestatus := MESSAGE_STATUS_SEEN |>) in
         match db_get_message_lines (db w) (realmessageid m) (-2) with
         | None => (w, -1)
         | Some s => let w := reply w (line "+OK %lu octets" ++ lit "%s") [FU (strlen s); FS s] in
                     (reply w (crlf ++ line ".") [], 1)
         end)
      (fun w => no_such_message w value).

Definition pop3_dele (w : world) (st : Z) (value : option cstr) : world * Z :=
  if negb (st =? CLIENTSTATE_AUTHENTICATED) then wrong_mode w
  else
    at_message (rewind w) (strtoull (arg value))
      (fun w m =>
         let w := update_current w (fun m => m <| virtual_messagestatus := MESSAGE_STATUS_DELETE |>) in
         let w := upd w (fun s => s <| virtual_totalsize ::= fun n => wrap64 (n - msize m) |>
                                    <| virtual_totalmessages ::= fun n => wrap64 (n - 1) |>) in
         (reply w (line "+OK message %lu deleted") [FU (messageid m)], 1))
      (fun w => no_such_message w value).

Definition pop3_rset (w : world) (st : Z) : world * Z :=
  if negb (st =? CLIENTSTATE_AUTHENTICATED) then wrong_mode w
  else
    let w := rewind w in
    let w := upd w (fun s => s <| virtual_totalsize := totalsize s |>
                               <| virtual_totalmessages := totalmessages s |>) in
    match walk (R := Empty_set) messages_of set_messages (list_fuel w)
            (fun w msg => inl (match msg with
                               | Some _ => update_current w (fun m => m <| virtual_messagestatus := messagestatus m |>)
                               | None => w end)) w with
    | inl w => (reply w (line "+OK %lu messages (%lu octets)")
                  [FU (virtual_totalmessages (session w)); FU (virtual_totalsize (session w))], 1)
    | inr r => match r with end
    end.

Definition pop3_last (w : world) (st : Z) : world * Z :=
  if negb (st =? CLIENTSTATE_AUTHENTICATED) then wrong_mode w
  else
    let w := rewind w in
    match walk messages_of set_messages (list_fuel w)
            (fun w msg => match msg with
                          | Some m => if virtual_messagestatus m =? MESSAGE_STATUS_NEW
                                      then inr (reply w (line "+OK %lu") [FU (wrap64 (messageid m - 1))])
                                      else inl w
                          | None => inl w end) w with
    | inr w => (w, 1)
    | inl w => (reply w (line "+OK %lu") [FU (virtual_totalmessages (session w))], 1)
    end.

Definition pop3_noop (w : world) (st : Z) : world * Z :=
  if negb (st =? CLIENTSTATE_AUTHENTICATED) then wrong_mode w else (reply w (line "+OK") [], 1).

Definition pop3_uidl (w : world) (st : Z) (value : option cstr) : world * Z :=
  if negb (st =? CLIENTSTATE_AUTHENTICATED) then wrong_mode w
  else
    let w := rewind w in
    match value with
    | Some _ => show_one w value (line "+OK %lu %s") (fun m => [FU (messageid m); FS (uidl m)])
    | None =>
        let w := reply w (line "+OK Some very unique numbers for you") [] in
        let w := if 0 <? virtual_totalmessages (session w)
                 then show_all w (line "%lu %s") (fun m => [FU (messageid m); FS (uidl m)]) else w in
        (reply w (line ".") [], 1)
    end.

Definition pop3_apop (w : world) (st : Z) (value : option cstr) : world * Z :=
  if negb (st =? CLIENTSTATE_INITIAL_CONNECT) then wrong_mode w
  else
    match split_at (arg value) SP with
    | None => pop3_error w (line "-ERR your command does not compute") []
    | Some (user, md5) =>
        if negb (strlen md5 =? 32) then pop3_error w (line "-ERR not a valid md5 hash") []
        else
          let w := upd w (fun s => s <| username := Some user |>) in
          let '(exists_, user_idnr) := auth_user_exists (db w) user in
          if negb exists_ then (w, -1)
          else
            let enctype := auth_getencryption (db w) user_idnr in
            if negb (strcaseeq enctype []) then
              pop3_error (upd w (fun s => s <| username := None |>))
                (line "-ERR APOP command is not supported for this user") []
            else
              let result := wrap64 (auth_md5_validate (db w) user md5 (apop_stamp (session w))) in
              if result =? wrap64 (-1) then (upd w (fun s => s <| SessionResult := 3 |>), -1)
              else if result =? 0 then
                pop3_error (upd w (fun s => s <| username := None |> <| password := None |>))
                  (line "-ERR authentication attempt is invalid") []
              else _pop3_session_authenticated w result
    end.

Definition pop3_auth (w : world) (st : Z) : world * Z :=
  if negb (st =? CLIENTSTATE_INITIAL_CONNECT) then wrong_mode w
  else pop3_error w (line "-ERR no AUTH mechanisms supported") [].

Definition all_digits (s : cstr) : bool :=
  bool_decide (strspn (lit "0123456789") s = length s).

Definition pop3_top (w : world) (st : Z) (value : option cstr) : world * Z :=
  if negb (st =? CLIENTSTATE_AUTHENTICATED) then wrong_mode w
  else
    match split_at (arg value) SP with
    | None => pop3_error w (line "-ERR your command does not compute") []
    | Some (id, lines) =>
        if negb (all_digits lines) then pop3_error w (line "-ERR wrong parameter") []
        else if negb (all_digits id) then pop3_error w (line "-ERR wrong parameter") []
        else
          let top_lines := strtoull lines in
          let top_messageid := strtoull id in
          if top_messageid <? 1 then pop3_error w (line "-ERR wrong parameter") []
          else
            at_message (rewind w) top_messageid
              (fun w m =>
                 match db_get_message_lines (db w) (realmessageid m) (to_int64 top_lines) with
                 | None => (w, -1)
                 | Some s =>
                     let '(c, i) := ci_write (ci (session w)) (line "+OK %lu lines of message %lu" ++ lit "%s")
                                      [FU top_lines; FU top_messageid; FS s] in
                     let w := upd w (fun s => s <| ci := c |>) in
                     (reply w (crlf ++ line ".") [], i)
                 end)
              (fun w => pop3_error w (line "-ERR no such message") [])
    end.

Definition pop3_capa (w : world) : world * Z :=
  (reply w (line "+OK Capability list follows" ++ line "TOP" ++ line "USER" ++ line "UIDL%s" ++ line ".")
     [FS (if conf_ssl then crlf ++ lit "STLS" else [])], 1).

(** ** The handler *)
Definition lookup_command (command : cstr) : Pop3Cmd :=
  match list_find (fun e => strcaseeq command e.1 = true) commands with
  | Some (_, e) => e.2
  | None => POP3_FAIL
  end.
Definition may_lack_argument (cmd : Pop3Cmd) : bool :=
  match cmd with
  | POP3_QUIT | POP3_LIST | POP3_STAT | POP3_RSET | POP3_NOOP | POP3_LAST | POP3_UIDL | POP3_AUTH
  | POP3_CAPA | POP3_STLS => true
  | _ => false
  end.

(** The command and its argument; [None] for an empty line. *)
Definition pop3_parse (buffer : cstr) : option (cstr * option cstr) := command_words buffer.

Definition pop3_command (w : world) (cmd : Pop3Cmd) (value : option cstr) : world * Z :=
  let st := state (session w) in
  let login_disabled := (st =? CLIENTSTATE_INITIAL_CONNECT) && conf_ssl
                        && strcaseeq conf_login_disabled (lit "yes") in
  match cmd with
  | POP3_QUIT => pop3_quit w
  | POP3_STLS => pop3_stls w st
  | POP3_USER => pop3_user w st login_disabled value
  | POP3_PASS => pop3_pass w st login_disabled value
  | POP3_LIST => pop3_list w st value
  | POP3_STAT => pop3_stat w st
  | POP3_RETR => pop3_retr w st value
  | POP3_DELE => pop3_dele w st value
  | POP3_RSET => pop3_rset w st
  | POP3_LAST => pop3_last w st
  | POP3_NOOP => pop3_noop w st
  | POP3_UIDL => pop3_uidl w st value
  | POP3_APOP => pop3_apop w st value
  | POP3_AUTH => pop3_auth w st
  | POP3_TOP => pop3_top w st value
  | POP3_CAPA => pop3_capa w
  | POP3_FAIL => pop3_error w (line "-ERR command not understood") []
  end.

Definition pop3 (w : world) (buffer : cstr) : world * Z :=
  match pop3_parse buffer with
  | None => (w, 1)
  | Some (command, value) =>
      let cmd := lookup_command command in
      let w := if bool_decide (cmd = POP3_FAIL) then w else upd w (fun s => s <| was_apop := 1 |>) in
      if bool_decide (value = None) && negb (may_lack_argument cmd)
      then pop3_error w (line "-ERR your command does not compute") []
      else pop3_command w cmd value
  end.

(** ** Events *)

(** A line that fills the buffer has no terminator. *)
Definition pop3_handle_input (w : world) : world :=
  let c := ci (session w) in
  if negb (bool_decide (default [] (write_buffer c) = []))
  then upd w (fun s => s <| ci := (ci_write_msg c None).1 |>)
  else
    let '(c, buffer) := ci_readln c in
    let w := upd w (fun s => s <| ci := c |>) in
    match buffer with
    | [] => w
    | _ =>
        let w := if bool_decide (MAX_LINESIZE <= length buffer)%nat
                 then upd w (fun s => s <| ci ::= fun c => c <| fault := true |> |>) else w in
        let w := upd w (fun s => s <| ci ::= ci_cork |>) in
        let '(w, r) := pop3 w (cstring_of buffer) in
        if r <=? 0 then upd w client_session_bailout
        else upd w (fun s => s <| ci ::= ci_uncork |>)
    end.

Definition pop3_cb_write (w : world) : world :=
  let st := state (session w) in
  if (st =? CLIENTSTATE_QUIT_QUEUED) || (st =? CLIENTSTATE_QUIT) then w
  else pop3_handle_input (upd w (fun s => s <| ci ::= ci_write_cb |>)).

Definition pop3_cb_time (w : world) : world :=
  upd (reply w (line "-ERR I'm leaving, you're too slow") []) client_session_bailout.

Definition pop3_handle_connection (c : ClientBase_T) (host uid : cstr) (d : DB) : world :=
  let w := mkworld (client_session_set_timeout (client_session_new c host uid) conf_login_timeout) d in
  upd (send_greeting w) (fun s => s <| ci ::= ci_uncork |>).

End pop3.
