(* ===== verification/Pop3Facts.v ===== *)
(** * Correctness of the POP3 server

    The session against its specification (a list of messages with a mark each), the
    accounting of sizes and counts, the write-back at QUIT, authentication and the safety of
    the replies' formats. *)
From S2P Require Import Prelude CLib GLib ListT ClientBase ClientSession MiscText Pop3.

(** ** Replies leave the rest of the session alone *)
Section replies.
Context `{ServerConf} `{GLibStr} `{PopEnv}.

(** What a reply does not touch. *)
Definition same_session (s s' : ClientSession_T) : Prop :=
  state s' = state s /\ messagelst s' = messagelst s /\ totalsize s' = totalsize s /\
  virtual_totalsize s' = virtual_totalsize s /\ totalmessages s' = totalmessages s /\
  virtual_totalmessages s' = virtual_totalmessages s /\ username s' = username s /\
  password s' = password s /\ was_apop s' = was_apop s.
Definition same (w w' : world) : Prop := same_session (session w) (session w') /\ db w' = db w.

Lemma same_refl w : same w w.
Proof. done. Qed.
Lemma same_trans w1 w2 w3 : same w1 w2 -> same w2 w3 -> same w1 w3.
Proof.
  intros [(A1&A2&A3&A4&A5&A6&A7&A8&A9) A0] [(B1&B2&B3&B4&B5&B6&B7&B8&B9) B0].
  unfold same, same_session. split_and!; congruence.
Qed.
Lemma same_reply w f a : same w (reply w f a).
Proof. done. Qed.
Lemma same_pop3_error w f a : same w (pop3_error w f a).1.
Proof. unfold pop3_error. destruct (MAX_ERRORS <=? _); [done|]. by destruct (errored _). Qed.

Lemma pop3_error_result w f a :
  (pop3_error w f a).2 = 1 \/ (pop3_error w f a).2 = -3.
Proof. unfold pop3_error. destruct (MAX_ERRORS <=? _); [by right|]. destruct (errored _); auto. Qed.
End replies.
#[export] Hint Resolve same_refl same_reply same_pop3_error : dbmail.

(** ** The specification of a session *)
Definition alive (m : message) : Prop := virtual_messagestatus m < MESSAGE_STATUS_DELETE.
#[export] Instance alive_dec m : Decision (alive m).
Proof. unfold alive. apply _. Defined.

Definition mark (st : Z) (m : message) : message := m <| virtual_messagestatus := st |>.
Definition unmark (m : message) : message := m <| virtual_messagestatus := messagestatus m |>.

(** Marking the message with number [n], if it is there and alive. *)
Definition mark_nth (st : Z) (n : Z) (ms : list message) : list message :=
  (fun m => if (messageid m =? n) && bool_decide (alive m) then mark st m else m) <$> ms.

(** The effect of a command on the messages of an authenticated session. *)
Definition spec_cmd (cmd : Pop3Cmd) (value : option cstr) (ms : list message) : list message :=
  match cmd with
  | POP3_DELE => mark_nth MESSAGE_STATUS_DELETE (strtoull (arg value)) ms
  | POP3_RETR => mark_nth MESSAGE_STATUS_SEEN (strtoull (arg value)) ms
  | POP3_RSET => unmark <$> ms
  | _ => ms
  end.

Definition numbered (ms : list message) : Prop :=
  forall i m, ms !! i = Some m -> messageid m = Z.of_nat i + 1.

Definition count_octets (ms : list message) : Z := sum_list_Z (msize <$> ms).

(** The session keeps the messages [ms]: numbered from 1, the totals over all of them, the
    virtual totals over those that are not marked as deleted. *)
Record pop_inv (s : ClientSession_T) (ms : list message) : Prop := {
  pi_holds : holds (messagelst s) ms;
  pi_numbered : numbered ms;
  pi_initial : Forall (fun m => messagestatus m < MESSAGE_STATUS_DELETE) ms;
  pi_total : totalmessages s = wrap64 (Z.of_nat (length ms));
  pi_size : totalsize s = wrap64 (count_octets ms);
  pi_vtotal : virtual_totalmessages s = wrap64 (Z.of_nat (length (filter alive ms)));
  pi_vsize : virtual_totalsize s = wrap64 (count_octets (filter alive ms));
}.

Lemma pop_inv_same s s' ms : same_session s s' -> pop_inv s ms -> pop_inv s' ms.
Proof.
  intros (E1&E2&E3&E4&E5&E6&E7&E8&E9) [P1 P2 P3 P4 P5 P6 P7]. split; rewrite ?E2, ?E3, ?E4, ?E5, ?E6; done.
Qed.

Lemma pop_inv_cursor s ms i :
  (i < length (items (messagelst s)))%nat ->
  pop_inv s ms -> pop_inv (s <| messagelst := mkplist (items (messagelst s)) i |>) ms.
Proof. intros Hi [[P1 P1'] P2 P3 P4 P5 P6 P7]. by split. Qed.

(** The world with the cursor of the message list at node [i]. *)
Definition cursor (w : world) (i : nat) : world :=
  set_messages w (mkplist (items (messages_of w)) i).

Lemma cursor_same_items w i : items (messages_of (cursor w i)) = items (messages_of w).
Proof. done. Qed.

Lemma next_cursor w i L :
  p_list_next (messages_of (cursor w i)) = Some L ->
  set_messages (cursor w i) L = cursor w (S i) /\ (S i < length (items (messages_of w)))%nat.
Proof. unfold p_list_next. simpl. case_decide; [|done]. intros [= <-]. done. Qed.

Lemma selected_Some id d m :
  selected id d = Some m <-> d = Some m /\ messageid m = id /\ alive m.
Proof.
  unfold selected, alive. destruct d as [m0|]; simpl; [|naive_solver].
  destruct ((messageid m0 =? id) && _) eqn:E; to_prop; split.
  - intros [= <-]. done.
  - naive_solver.
  - done.
  - intros ([= ->] & E1 & E2). rewrite andb_false_iff in E. destruct E; bool_lia.
Qed.

Section walks.
Context `{ServerConf} `{GLibStr} `{PopEnv}.

(** The walk to a message: either it is found alive, and the walk stops at its node, or no
    message of that number is alive. *)
Lemma at_message_spec w ms id f none :
  holds (messages_of w) ms ->
  (exists i m, ms !! i = Some m /\ messageid m = id /\ alive m /\
     (i < length (items (messages_of w)))%nat /\
     at_message (rewind w) id f none = f (cursor w i) m) \/
  ((forall m, m ∈ ms -> messageid m = id -> ~ alive m) /\
   exists i, (i < length (items (messages_of w)))%nat /\
     at_message (rewind w) id f none = none (cursor w i)).
Proof.
  intros [Hi Hw]. unfold held_items in Hi. unfold at_message.
  assert (0 < length (items (messages_of w)))%nat as Hpos by (unfold plist_wf in Hw; lia).
  set (P i := forall j m, (j < i)%nat -> ms !! j = Some m -> ~ (messageid m = id /\ alive m)).
  pose proof (walk_rule messages_of set_messages
    (fun w' => exists i, w' = cursor w i /\ (i < length (items (messages_of w)))%nat /\ P i)
    (fun w' => exists i, w' = cursor w i /\ (i < length (items (messages_of w)))%nat /\
       forall m, m ∈ ms -> messageid m = id -> ~ alive m)
    (fun r => exists i m, ms !! i = Some m /\ messageid m = id /\ alive m /\
       (i < length (items (messages_of w)))%nat /\ r = f (cursor w i) m)
    (fun w msg => match selected id msg with Some m => inr (f w m) | None => inl w end)
    (list_fuel (rewind w)) (rewind w)) as W.
  lapply W; clear W; [intros W|done]. lapply W; clear W; [intros W|].
  { lapply W; clear W; [intros W|exists O; split_and!; [done..|intros j m; lia]].
    lapply W; clear W; [intros W|done]. lapply W; clear W; [intros W|simpl; unfold list_fuel; simpl; lia].
    destruct (walk _ _ _ _ _) as [w'|r]; [right|left; exact W].
    destruct W as (i & -> & Hlt & Hn). eauto. }
  intros w' (i & -> & Hlt & Hn) Hwf. destruct (selected id _) as [m|] eqn:Es.
  - apply selected_Some in Es as (Ed & E1 & E2). exists i, m. split_and!; try done.
    apply (holds_data (messages_of (cursor w i))); [by split|done].
  - split; [done|]. split; [done|].
    assert (P (S i)) as Hn'.
    { intros j m Hj Hm [E1 E2]. destruct (decide (j = i)) as [->|]; [|by apply (Hn j m); [lia|..]].
      assert (selected id (p_list_data (messages_of (cursor w i))) = Some m) as X; [|congruence].
      apply selected_Some. split_and!; try done. unfold p_list_data; simpl. rewrite Hi.
      destruct ms; [done|]. by rewrite list_lookup_fmap, Hm. }
    destruct (p_list_next _) as [L|] eqn:En.
    + apply next_cursor in En as [-> Hlt']. by exists (S i).
    + exists i. split_and!; [done..|]. intros m [j Hj]%list_elem_of_lookup Hid Hal.
      apply (Hn' j m); [|done|done]. unfold p_list_next in En. case_decide; [done|].
      apply lookup_lt_Some in Hj. simpl in *. rewrite Hi in *.
      destruct ms; [simpl in *; lia|]. rewrite length_fmap in *. lia.
Qed.

(** [w'] is [w] up to replies and the position of the cursor. *)
Definition moved (w w' : world) : Prop :=
  exists i, (i < length (items (messages_of w)))%nat /\ same (cursor w i) w'.

Lemma moved_rewind w : plist_wf (messages_of w) -> moved w (rewind w).
Proof. intros Hw. exists O. split; [unfold plist_wf in Hw; lia|done]. Qed.

Lemma moved_same w w1 w2 : moved w w1 -> same w1 w2 -> moved w w2.
Proof. intros (i & Hi & S1) S2. exists i. split; [done|]. by eapply same_trans. Qed.

Lemma moved_items w w' : moved w w' -> items (messages_of w') = items (messages_of w) /\ plist_wf (messages_of w').
Proof.
  intros (i & Hi & [(E1 & E2 & _) _]). unfold messages_of. rewrite E2. done.
Qed.

Lemma moved_next w w' L : moved w w' -> p_list_next (messages_of w') = Some L -> moved w (set_messages w' L).
Proof.
  intros (i & Hi & Sm) En. destruct (moved_items w w') as [Eit _]; [by exists i|].
  exists (S (pos (messages_of w'))). unfold p_list_next in En. case_decide as Hd; [|done].
  rewrite Eit in *. split; [done|]. injection En as <-.
  destruct Sm as [(E1&E2&E3&E4&E5&E6&E7&E8&E9) E0]. unfold same, same_session; simpl in *.
  by split_and!.
Qed.

Lemma moved_inv w w' ms : moved w w' -> pop_inv (session w) ms -> pop_inv (session w') ms.
Proof.
  intros (i & Hi & [S _]) P. eapply pop_inv_same; [exact S|]. by apply pop_inv_cursor.
Qed.

Lemma moved_state w w' : moved w w' ->
  state (session w') = state (session w) /\ db w' = db w /\ username (session w') = username (session w).
Proof. intros (i & Hi & [(E1&_&_&_&_&_&E7&_) E0]). done. Qed.

(** Loops whose body only replies. *)
Lemma walk_moved {X} (get : X -> world) (put : X -> world -> X) (body : X -> option message -> X + Empty_set) fuel w x :
  (forall x w, get (put x w) = w) ->
  (forall x d, exists x', body x d = inl x' /\ same (get x) (get x')) ->
  moved w (get x) -> (length (items (messages_of w)) <= fuel)%nat ->
  exists x', walk (fun x => messages_of (get x)) (fun x L => put x (set_messages (get x) L)) fuel body x = inl x' /\
    moved w (get x').
Proof.
  intros Hgp Hb Hm Hf.
  assert (match walk (fun x => messages_of (get x)) (fun x L => put x (set_messages (get x) L)) fuel body x
    with inl x' => moved w (get x') | inr _ => False end) as W.
  { apply (walk_rule _ _ (fun x => moved w (get x))).
    - intros y L. by rewrite Hgp.
    - intros y Hy Hwf. destruct (Hb y (p_list_data (messages_of (get y)))) as (y' & -> & Hs).
      pose proof (moved_same _ _ _ Hy Hs) as Hy'. destruct Hs as [(_ & E & _) _].
      unfold messages_of at 1 3. rewrite E. split; [done|]. split; [done|].
      destruct (p_list_next _) eqn:En; [|done]. rewrite Hgp. by apply moved_next.
    - done.
    - by apply (moved_items w).
    - destruct (moved_items _ _ Hm) as [-> _]. lia. }
  destruct (walk _ _ fuel body x) as [x'|[]]; eauto.
Qed.

Lemma show_all_moved w w0 f a : moved w0 w -> moved w0 (show_all w f a).
Proof.
  intros Hm. unfold show_all.
  destruct (walk_moved (fun w => w) (fun _ w => w)
    (fun w msg => inl (match undeleted msg with Some m => reply w f (a m) | None => w end))
    (list_fuel w) w0 w) as (w' & E & Hw'); auto.
  - intros x d. eexists; split; [done|]. by destruct (undeleted d).
  - unfold list_fuel. by destruct (moved_items _ _ Hm) as [-> _].
  - change (walk (fun x => messages_of x) (fun x L => set_messages x L)) with
      (walk (R := Empty_set) messages_of set_messages) in E. by rewrite E.
Qed.

Lemma show_one_moved w w0 value f a : moved w0 w -> moved w0 (show_one w value f a).1.
Proof.
  intros Hm. unfold show_one.
  destruct (walk_moved (X := world * bool) fst (fun x w => (w, x.2))
    (fun '(w, found) msg => inl (match selected (strtoull (arg value)) msg with
        | Some m => (reply w f (a m), true) | None => (w, found) end))
    (list_fuel w) w0 (w, false)) as ([w' found] & E & Hw'); auto.
  - intros [x b] d. eexists; split; [done|]. by destruct (selected _ d).
  - unfold list_fuel. by destruct (moved_items _ _ Hm) as [-> _].
  - rewrite E. destruct found; [done|]. eapply moved_same; [exact Hw'|]. apply same_pop3_error.
Qed.

End walks.

(** ** Accounting *)
Lemma mark_nth_alter st n ms i m :
  numbered ms -> ms !! i = Some m -> messageid m = n -> alive m ->
  mark_nth st n ms = alter (mark st) i ms.
Proof.
  intros Hn Hi Hid Ha. apply list_eq. intros j. unfold mark_nth. rewrite list_lookup_fmap.
  destruct (decide (j = i)) as [->|Hne].
  - rewrite list_lookup_alter_eq, Hi. simpl. rewrite Hid, Z.eqb_refl, bool_decide_eq_true_2 by done. done.
  - rewrite list_lookup_alter_ne by done. destruct (ms !! j) as [m'|] eqn:Hj; simpl; [|done].
    pose proof (Hn _ _ Hj). pose proof (Hn _ _ Hi).
    assert (messageid m' =? n = false) as -> by lia. done.
Qed.

Lemma mark_nth_none st n ms :
  (forall m, m ∈ ms -> messageid m = n -> ~ alive m) -> mark_nth st n ms = ms.
Proof.
  intros Hn. unfold mark_nth. rewrite <- (list_fmap_id ms) at 2. apply list_fmap_ext.
  intros i m Hm%list_elem_of_lookup_2. destruct (messageid m =? n) eqn:E; simpl; [|done].
  rewrite bool_decide_eq_false_2; [done|]. apply Hn; [done|bool_lia].
Qed.


Lemma count_octets_app l k : count_octets (l ++ k) = count_octets l + count_octets k.
Proof. unfold count_octets. by rewrite fmap_app, sum_list_Z_app. Qed.

Lemma filter_alter {A} (P : A -> Prop) `{!forall x, Decision (P x)} (f : A -> A) (l : list A) i x :
  l !! i = Some x ->
  filter P (alter f i l) = filter P (take i l) ++ (if decide (P (f x)) then [f x] else []) ++ filter P (drop (S i) l) /\
  filter P l = filter P (take i l) ++ (if decide (P x) then [x] else []) ++ filter P (drop (S i) l).
Proof.
  intros Hx. split.
  - rewrite (alter_split _ _ _ _ Hx).
    rewrite filter_app, filter_cons. by case_decide.
  - rewrite <- (take_drop_middle l i x Hx) at 1. rewrite filter_app, filter_cons. by case_decide.
Qed.

Lemma not_alive_deleted m : ~ alive (mark MESSAGE_STATUS_DELETE m).
Proof. unfold alive, mark, MESSAGE_STATUS_DELETE. simpl. lia. Qed.
Lemma alive_seen m : alive (mark MESSAGE_STATUS_SEEN m).
Proof. unfold alive, mark, MESSAGE_STATUS_SEEN, MESSAGE_STATUS_DELETE. simpl. lia. Qed.

(** A deletion takes exactly one message and its octets off the virtual totals. *)
Lemma alive_delete ms i m :
  ms !! i = Some m -> alive m ->
  let ms' := alter (mark MESSAGE_STATUS_DELETE) i ms in
  Z.of_nat (length (filter alive ms')) = Z.of_nat (length (filter alive ms)) - 1 /\
  count_octets (filter alive ms') = count_octets (filter alive ms) - msize m.
Proof.
  intros Hi Ha. cbn zeta.
  destruct (filter_alter alive (mark MESSAGE_STATUS_DELETE) ms i m Hi) as [-> ->].
  rewrite decide_False by apply not_alive_deleted. rewrite decide_True by done.
  rewrite !length_app, !count_octets_app.
  change (count_octets [m]) with (msize m + 0). change (count_octets []) with 0. simpl length. lia.
Qed.

Lemma alive_mark_seen ms i m :
  ms !! i = Some m -> alive m ->
  let ms' := alter (mark MESSAGE_STATUS_SEEN) i ms in
  length (filter alive ms') = length (filter alive ms) /\
  count_octets (filter alive ms') = count_octets (filter alive ms).
Proof.
  intros Hi Ha. cbn zeta.
  destruct (filter_alter alive (mark MESSAGE_STATUS_SEEN) ms i m Hi) as [-> ->].
  rewrite decide_True by apply alive_seen. rewrite decide_True by done.
  rewrite !length_app, !count_octets_app. done.
Qed.

Lemma unmark_alive ms :
  Forall (fun m => messagestatus m < MESSAGE_STATUS_DELETE) ms ->
  filter alive (unmark <$> ms) = unmark <$> ms.
Proof.
  induction 1 as [|m ms Hm _ IH]; [done|]. rewrite fmap_cons, filter_cons, decide_True by done.
  by rewrite IH.
Qed.

Lemma count_octets_fmap f ms : (forall m, msize (f m) = msize m) -> count_octets (f <$> ms) = count_octets ms.
Proof.
  intros Hf. unfold count_octets. rewrite <- list_fmap_compose. f_equal. apply list_fmap_ext. intros; apply Hf.
Qed.

Lemma count_octets_alter f i ms : (forall m, msize (f m) = msize m) -> count_octets (alter f i ms) = count_octets ms.
Proof.
  intros Hf. unfold count_octets. f_equal. apply list_eq. intros j. rewrite !list_lookup_fmap.
  destruct (decide (j = i)) as [->|]; [|by rewrite list_lookup_alter_ne].
  rewrite list_lookup_alter_eq. destruct (ms !! i); simpl; [by rewrite Hf|done].
Qed.

Lemma numbered_alter f i ms : (forall m, messageid (f m) = messageid m) -> numbered ms -> numbered (alter f i ms).
Proof.
  intros Hf Hn j m. destruct (decide (j = i)) as [->|].
  - rewrite list_lookup_alter_eq. destruct (ms !! i) eqn:E; simpl; [|done]. intros [= <-]. rewrite Hf. by apply Hn.
  - rewrite list_lookup_alter_ne by done. apply Hn.
Qed.

Lemma numbered_fmap f ms : (forall m, messageid (f m) = messageid m) -> numbered ms -> numbered (f <$> ms).
Proof.
  intros Hf Hn j m. rewrite list_lookup_fmap. destruct (ms !! j) eqn:E; simpl; [|done].
  intros [= <-]. rewrite Hf. by apply Hn.
Qed.

Lemma holds_update (L : plist message) ms m f :
  holds L ms -> ms !! pos L = Some m -> holds (p_list_update L f) (alter f (pos L) ms).
Proof.
  intros [E W] Hm. unfold holds, held_items in *. split.
  - simpl. rewrite E. destruct ms as [|m0 ms]; [done|].
    rewrite alter_fmap_Some.
    destruct (alter f (pos L) (m0 :: ms)) eqn:Ea; [|done].
    apply (f_equal length) in Ea. rewrite length_alter in Ea. done.
  - unfold plist_wf in *. simpl. by rewrite length_alter.
Qed.

Lemma wrap64_sub a b : wrap64 (wrap64 a - b) = wrap64 (a - b).
Proof. unfold wrap64. apply Zminus_mod_idemp_l. Qed.

Lemma initial_alter f i ms :
  (forall m, messagestatus (f m) = messagestatus m) ->
  Forall (fun m => messagestatus m < MESSAGE_STATUS_DELETE) ms ->
  Forall (fun m => messagestatus m < MESSAGE_STATUS_DELETE) (alter f i ms).
Proof. intros Hf Hms. apply Forall_alter; [done|]. intros m _. by rewrite Hf. Qed.

(** The effect of DELE and of RETR on the session. *)
Lemma pop_inv_delete s ms i m :
  pop_inv s ms -> ms !! i = Some m -> alive m ->
  pop_inv (s <| messagelst := p_list_update (mkplist (items (messagelst s)) i) (mark MESSAGE_STATUS_DELETE) |>
             <| virtual_totalsize ::= fun n => wrap64 (n - msize m) |>
             <| virtual_totalmessages ::= fun n => wrap64 (n - 1) |>)
          (alter (mark MESSAGE_STATUS_DELETE) i ms).
Proof.
  intros [P1 P2 P3 P4 P5 P6 P7] Hi Ha. destruct (alive_delete ms i m Hi Ha) as [C1 C2].
  pose proof (holds_items_length _ _ P1). pose proof (lookup_lt_Some _ _ _ Hi).
  split; simpl.
  - eapply (holds_update (mkplist (items (messagelst s)) i)); [apply holds_cursor; [done|lia]|done].
  - by apply numbered_alter.
  - by apply initial_alter.
  - by rewrite length_alter.
  - by rewrite count_octets_alter.
  - by rewrite P6, wrap64_sub, C1.
  - by rewrite P7, wrap64_sub, C2.
Qed.

Lemma pop_inv_seen s ms i m :
  pop_inv s ms -> ms !! i = Some m -> alive m ->
  pop_inv (s <| messagelst := p_list_update (mkplist (items (messagelst s)) i) (mark MESSAGE_STATUS_SEEN) |>)
          (alter (mark MESSAGE_STATUS_SEEN) i ms).
Proof.
  intros [P1 P2 P3 P4 P5 P6 P7] Hi Ha. destruct (alive_mark_seen ms i m Hi Ha) as [C1 C2].
  pose proof (holds_items_length _ _ P1). pose proof (lookup_lt_Some _ _ _ Hi).
  split; simpl.
  - eapply (holds_update (mkplist (items (messagelst s)) i)); [apply holds_cursor; [done|lia]|done].
  - by apply numbered_alter.
  - by apply initial_alter.
  - by rewrite length_alter.
  - by rewrite count_octets_alter.
  - by rewrite C1.
  - by rewrite C2.
Qed.

(** The loop of RSET restores every message. *)
Definition unmarked_upto (i : nat) (ms : list message) : list message :=
  (unmark <$> take i ms) ++ drop i ms.

Lemma unmarked_upto_step i m ms :
  ms !! i = Some m -> alter unmark i (unmarked_upto i ms) = unmarked_upto (S i) ms.
Proof.
  intros Hi. unfold unmarked_upto. pose proof (lookup_lt_Some _ _ _ Hi).
  rewrite (drop_S _ _ _ Hi), (take_S_r _ _ _ Hi), fmap_app, <- app_assoc.
  apply alter_middle. rewrite length_fmap, length_take. lia.
Qed.

Section refinement.
Context `{ServerConf} `{GLibStr} `{PopEnv}.

(** The body of the loop of RSET, at node [i] of a list that is restored up to [i]. *)
Lemma rset_step w ms i m :
  ms !! i = Some m ->
  let w' := set_messages w (mkplist (Some <$> unmarked_upto i ms) i) in
  p_list_data (messages_of w') = Some m /\
  update_current w' (fun m => m <| virtual_messagestatus := messagestatus m |>) =
    set_messages w (mkplist (Some <$> unmarked_upto (S i) ms) i).
Proof.
  intros Hm. pose proof (lookup_lt_Some _ _ _ Hm). cbn zeta. split.
  - unfold p_list_data. simpl. rewrite list_lookup_fmap. unfold unmarked_upto.
    rewrite lookup_app_r by (rewrite length_fmap, length_take; lia).
    rewrite length_fmap, length_take, lookup_drop, Nat.min_l by lia.
    replace (i + (i - i))%nat with i by lia. by rewrite Hm.
  - unfold update_current, p_list_update, set_messages; simpl.
    by rewrite <- (unmarked_upto_step i m ms Hm), <- alter_fmap_Some.
Qed.

Lemma rset_walk w ms :
  holds (messages_of w) ms ->
  exists i, (i < length (items (messages_of w)))%nat /\
  walk (R := Empty_set) messages_of set_messages (list_fuel (rewind w))
     (fun w msg => inl (match msg with
                        | Some _ => update_current w (fun m => m <| virtual_messagestatus := messagestatus m |>)
                        | None => w end)) (rewind w)
  = inl (set_messages w (mkplist (held_items (unmark <$> ms)) i)).
Proof.
  intros Hh. pose proof (holds_items_length _ _ Hh) as Hlen. destruct Hh as [Hi Hw]. unfold held_items in Hi.
  destruct ms as [|m0 ms'].
  { exists O. rewrite Hlen. split; [simpl; lia|]. unfold list_fuel, rewind, p_list_first.
    rewrite Hi. done. }
  assert (length (items (messages_of w)) = length (m0 :: ms')) as Hl by (simpl in *; lia).
  assert (held_items (unmark <$> m0 :: ms') = Some <$> (unmark <$> m0 :: ms')) as -> by done.
  assert (0 < length (m0 :: ms'))%nat as Hpos by (simpl; lia).
  revert Hi Hl Hpos. generalize (m0 :: ms') as ms. clear Hlen. intros ms Hi Hl Hpos.
  set (body := fun (w : world) (msg : option message) => _).
  assert (match walk (R := Empty_set) messages_of set_messages (list_fuel (rewind w)) body (rewind w) with
    | inl w' => exists i, (i < length ms)%nat /\
        w' = set_messages w (mkplist (Some <$> unmarked_upto (length ms) ms) i)
    | inr _ => False end) as W.
  { apply (walk_rule messages_of set_messages (fun w' => exists i, (i < length ms)%nat /\
      w' = set_messages w (mkplist (Some <$> unmarked_upto i ms) i))); [done| | | |].
    - intros w' (i & Hlt & ->) Hwf. destruct (lookup_lt_is_Some_2 ms i Hlt) as [m Hm].
      destruct (rset_step w ms i m Hm) as [Ed Eu]. subst body. cbn beta. rewrite Ed, Eu.
      assert (forall k, length (unmarked_upto k ms) = length ms) as Hu.
      { intros k. unfold unmarked_upto. rewrite length_app, length_fmap, length_take, length_drop. lia. }
      simpl. rewrite !length_fmap, !Hu. split; [done|]. split; [done|].
      unfold p_list_next. simpl. rewrite length_fmap, Hu. case_decide.
      + by exists (S i).
      + exists i. split; [done|]. replace (length ms) with (S i) by lia. done.
    - exists O. split; [lia|]. unfold rewind, p_list_first. by rewrite Hi.
    - unfold plist_wf in *. simpl. lia.
    - unfold list_fuel. simpl. lia. }
  destruct (walk _ _ _ _ _) as [w'|[]]. destruct W as (i & Hlt & ->). exists i. rewrite Hl.
  split; [done|]. unfold unmarked_upto. by rewrite firstn_all, skipn_all, app_nil_r.
Qed.


(** What a command leaves of the session, besides the messages. *)
Definition kept (w w' : world) : Prop :=
  state (session w') = state (session w) /\ db w' = db w /\ username (session w') = username (session w).

Lemma kept_same w w' : same w w' -> kept w w'.
Proof. intros [(E1&_&_&_&_&_&E7&_) E0]. done. Qed.
Lemma kept_moved w w' : moved w w' -> kept w w'.
Proof. intros M. by apply moved_state. Qed.

(** [steps w ms w' ms']: the session of [w] keeps [ms], that of [w'] keeps [ms']. *)
Definition steps (w w' : world) (ms' : list message) : Prop :=
  pop_inv (session w') ms' /\ kept w w'.

Lemma steps_same w w' ms : pop_inv (session w) ms -> same w w' -> steps w w' ms.
Proof. intros P S. split; [|by apply kept_same]. destruct S. by eapply pop_inv_same. Qed.

Lemma steps_moved w w' ms : pop_inv (session w) ms -> moved w w' -> steps w w' ms.
Proof. intros P M. split; [by eapply moved_inv|by apply kept_moved]. Qed.

Lemma steps_then w w1 w2 ms : steps w w1 ms -> same w1 w2 -> steps w w2 ms.
Proof.
  intros [P (K1 & K2 & K3)] S. destruct (steps_same w1 w2 ms P S) as [P' (J1 & J2 & J3)].
  split; [done|]. unfold kept. split_and!; congruence.
Qed.

Lemma pop3_retr_refines w value ms :
  state (session w) = CLIENTSTATE_AUTHENTICATED -> pop_inv (session w) ms ->
  steps w (pop3_retr w CLIENTSTATE_AUTHENTICATED value).1 (spec_cmd POP3_RETR value ms).
Proof.
  intros Hst P. unfold pop3_retr. rewrite Z.eqb_refl. cbn [negb]. cbv iota. unfold spec_cmd.
  match goal with |- context [at_message _ ?id ?f ?none] =>
    destruct (at_message_spec w ms id f none (pi_holds _ _ P))
    as [(i & m & Hi & Hid & Ha & Hlt & ->)|(Hn & i & Hlt & ->)] end.
  - rewrite (mark_nth_alter _ _ _ _ _ (pi_numbered _ _ P) Hi Hid Ha).
    pose proof (pop_inv_seen _ _ _ _ P Hi Ha) as P'.
    cbn zeta. destruct (db_get_message_lines _ _ _) as [s|]; cbn [fst].
    + eapply steps_then; [|apply same_reply]. eapply steps_then; [|apply same_reply]. by split.
    + by split.
  - rewrite mark_nth_none by done.
    eapply steps_then; [|apply same_pop3_error]. apply steps_moved; [done|]. by exists i.
Qed.

Lemma pop3_dele_refines w value ms :
  state (session w) = CLIENTSTATE_AUTHENTICATED -> pop_inv (session w) ms ->
  steps w (pop3_dele w CLIENTSTATE_AUTHENTICATED value).1 (spec_cmd POP3_DELE value ms).
Proof.
  intros Hst P. unfold pop3_dele. rewrite Z.eqb_refl. cbn [negb]. cbv iota. unfold spec_cmd.
  match goal with |- context [at_message _ ?id ?f ?none] =>
    destruct (at_message_spec w ms id f none (pi_holds _ _ P))
    as [(i & m & Hi & Hid & Ha & Hlt & ->)|(Hn & i & Hlt & ->)] end.
  - rewrite (mark_nth_alter _ _ _ _ _ (pi_numbered _ _ P) Hi Hid Ha).
    pose proof (pop_inv_delete _ _ _ _ P Hi Ha) as P'. cbn [fst].
    eapply steps_then; [|apply same_reply]. by split.
  - rewrite mark_nth_none by done.
    eapply steps_then; [|apply same_pop3_error]. apply steps_moved; [done|]. by exists i.
Qed.

Lemma pop_inv_rset s ms i :
  pop_inv s ms -> (i < length (items (messagelst s)))%nat ->
  pop_inv (s <| virtual_totalsize := totalsize s |> <| virtual_totalmessages := totalmessages s |>
             <| messagelst := mkplist (held_items (unmark <$> ms)) i |>) (unmark <$> ms).
Proof.
  intros [P1 P2 P3 P4 P5 P6 P7] Hi. rewrite (holds_items_length _ _ P1) in Hi.
  split; simpl; rewrite ?unmark_alive, ?length_fmap, ?count_octets_fmap by done; try done.
  - split; [done|]. unfold plist_wf. simpl. destruct ms; simpl in *; [lia|]. rewrite !length_fmap. lia.
  - by apply numbered_fmap.
  - apply Forall_fmap. eapply Forall_impl; [exact P3|]. done.
Qed.

Lemma pop3_rset_refines w ms :
  state (session w) = CLIENTSTATE_AUTHENTICATED -> pop_inv (session w) ms ->
  steps w (pop3_rset w CLIENTSTATE_AUTHENTICATED).1 (spec_cmd POP3_RSET None ms).
Proof.
  intros Hst P. unfold pop3_rset. rewrite Z.eqb_refl. cbn [negb]. cbv iota.
  set (w0 := upd w (fun s => s <| virtual_totalsize := totalsize s |>
                               <| virtual_totalmessages := totalmessages s |>)).
  destruct (rset_walk w0 ms (pi_holds _ _ P)) as (i & Hlt & E).
  change (upd (rewind w) (fun s => s <| virtual_totalsize := totalsize s |>
            <| virtual_totalmessages := totalmessages s |>)) with (rewind w0).
  rewrite E. cbn [fst]. eapply steps_then; [|apply same_reply]. split; [|done].
  by apply pop_inv_rset.
Qed.

Lemma pop3_last_refines w ms :
  state (session w) = CLIENTSTATE_AUTHENTICATED -> pop_inv (session w) ms ->
  steps w (pop3_last w CLIENTSTATE_AUTHENTICATED).1 ms.
Proof.
  intros Hst P. unfold pop3_last. rewrite Z.eqb_refl. cbn [negb]. cbv iota. destruct (pi_holds _ _ P) as [_ Hw].
  set (body := fun (w : world) (msg : option message) => _).
  assert (match walk messages_of set_messages (list_fuel (rewind w)) body (rewind w) with
          | inl w' => moved w w' | inr w' => moved w w' end) as W.
  { apply (walk_rule messages_of set_messages (moved w) (moved w) (moved w)); [done| | | |].
    - intros w' M Hwf. unfold body. destruct (p_list_data _) as [m|].
      + destruct (_ =? _); [by eapply moved_same; [|apply same_reply]|].
        split; [done|]. split; [done|]. destruct (p_list_next _) eqn:En; [by apply moved_next|done].
      + split; [done|]. split; [done|]. destruct (p_list_next _) eqn:En; [by apply moved_next|done].
    - by apply moved_rewind.
    - unfold plist_wf in *. simpl. unfold messages_of. lia.
    - unfold list_fuel. simpl. lia. }
  destruct (walk _ _ _ body _) as [w'|w']; cbn [fst].
  - eapply steps_then; [|apply same_reply]. by apply steps_moved.
  - by apply steps_moved.
Qed.

Lemma pop3_top_refines w value ms :
  state (session w) = CLIENTSTATE_AUTHENTICATED -> pop_inv (session w) ms ->
  steps w (pop3_top w CLIENTSTATE_AUTHENTICATED value).1 ms.
Proof.
  intros Hst P. unfold pop3_top. rewrite Z.eqb_refl. cbn [negb]. cbv iota.
  destruct (split_at (arg value) SP) as [[id lines]|]; [|by apply steps_same; [|apply same_pop3_error]].
  destruct (negb (all_digits lines)); [by apply steps_same; [|apply same_pop3_error]|].
  destruct (negb (all_digits id)); [by apply steps_same; [|apply same_pop3_error]|].
  destruct (_ <? 1); [by apply steps_same; [|apply same_pop3_error]|].
  match goal with |- context [at_message _ ?id ?f ?none] =>
    destruct (at_message_spec w ms id f none (pi_holds _ _ P))
      as [(i & m & Hi & Hid & Ha & Hlt & ->)|(Hn & i & Hlt & ->)] end.
  - destruct (db_get_message_lines _ _ _) as [s|].
    + destruct (ci_write _ _ _) as [c k]. cbn [fst]. eapply steps_then; [|apply same_reply].
      eapply (steps_then w (cursor w i)); [|done]. apply steps_moved; [done|]. by exists i.
    + apply steps_moved; [done|]. by exists i.
  - eapply steps_then; [|apply same_pop3_error]. apply steps_moved; [done|]. by exists i.
Qed.

Lemma pop3_listing_refines w value ms f1 a1 f2 a2 f3 a3 :
  pop_inv (session w) ms ->
  steps w (match value with
           | Some _ => show_one (rewind w) value f1 a1
           | None =>
               let w := reply (rewind w) f2 a2 in
               let w := if 0 <? virtual_totalmessages (session w) then show_all w f3 a3 else w in
               (reply w (line ".") [], 1)
           end).1 ms.
Proof.
  intros P. destruct (pi_holds _ _ P) as [_ Hw]. destruct value.
  - apply steps_moved; [done|]. apply show_one_moved. by apply moved_rewind.
  - cbn zeta. cbn [fst]. eapply steps_then; [|apply same_reply]. apply steps_moved; [done|].
    assert (moved w (reply (rewind w) f2 a2)) as M
      by (eapply moved_same; [by apply moved_rewind|apply same_reply]).
    destruct (0 <? _); [by apply show_all_moved|done].
Qed.

(** C6. Refinement of the session: whatever command an authenticated client sends, the
    session keeps implementing its specification, a numbered list of messages with marks and
    the totals over the unmarked ones; DELE, RETR and RSET change the marks as specified, all
    other commands change none; nothing is written to the database before QUIT, and the
    client stays authenticated. *)
Theorem pop3_command_refines w cmd value ms :
  state (session w) = CLIENTSTATE_AUTHENTICATED -> pop_inv (session w) ms -> cmd <> POP3_QUIT ->
  steps w (pop3_command w cmd value).1 (spec_cmd cmd value ms).
Proof.
  intros Hst P Hq. unfold pop3_command. rewrite Hst.
  destruct cmd; try done; cbn [spec_cmd].
  - (* USER *) by apply steps_same; [|apply same_pop3_error].
  - (* PASS *) by apply steps_same; [|apply same_pop3_error].
  - (* STAT *) by apply steps_same; [|apply same_reply].
  - (* LIST *) by apply pop3_listing_refines.
  - by apply pop3_retr_refines.
  - by apply pop3_dele_refines.
  - (* NOOP *) by apply steps_same; [|apply same_reply].
  - by apply pop3_last_refines.
  - by apply pop3_rset_refines.
  - (* UIDL *) by apply pop3_listing_refines.
  - (* APOP *) by apply steps_same; [|apply same_pop3_error].
  - (* AUTH *) by apply steps_same; [|apply same_pop3_error].
  - by apply pop3_top_refines.
  - (* CAPA *) by apply steps_same; [|apply same_reply].
  - (* STLS *) by apply steps_same; [|apply same_pop3_error].
  - (* unknown *) by apply steps_same; [|apply same_pop3_error].
Qed.

End refinement.

(** ** The start of a session *)
Lemma select_pop_elem d mb id r size :
  (id, r, size) ∈ select_pop d mb <->
  messages d !! id = Some r /\ r_mailbox r = mb /\ r_status r < MESSAGE_STATUS_DELETE /\
  physmessage d !! r_physmessage r = Some size.
Proof.
  unfold select_pop. rewrite list_elem_of_omap. split.
  - intros ([id' r'] & Hin & E). rewrite merge_sort_Permutation, elem_of_map_to_list in Hin.
    case_bool_decide; simpl in E; [|done]. destruct (_ <? _) eqn:Es; [|done]. to_prop.
    destruct (physmessage d !! _) eqn:Ep; simpl in E; [|done]. by simplify_eq.
  - intros (H1 & H2 & H3 & H4). exists (id, r). rewrite merge_sort_Permutation, elem_of_map_to_list.
    split; [done|]. rewrite bool_decide_eq_true_2 by done.
    rewrite (proj2 (Z.ltb_lt _ _) H3). simpl. by rewrite H4.
Qed.

Lemma omap_sublist {A B C} (f : A -> option B) (g : A -> C) (h : B -> C) (l : list A) :
  (forall a b, f a = Some b -> h b = g a) -> sublist (h <$> omap f l) (g <$> l).
Proof.
  intros Hf. induction l as [|a l IH]; [constructor|]. cbn [omap list_omap fmap list_fmap].
  destruct (f a) as [b|] eqn:E; [|by constructor]. simpl. rewrite (Hf _ _ E). by constructor.
Qed.

(** The rows come in ascending order of their ids, without repetition. *)
Lemma select_pop_sorted d mb :
  StronglySorted Z.le ((fun row => row.1.1) <$> select_pop d mb) /\
  NoDup ((fun row => row.1.1) <$> select_pop d mb).
Proof.
  set (L := merge_sort row_le (map_to_list (messages d))).
  assert (sublist ((fun row => row.1.1) <$> select_pop d mb) (fst <$> L)) as Hsub.
  { apply omap_sublist. intros [id r] [[id' r'] size]. repeat case_match; simpl; try done.
    destruct (physmessage d !! _); simpl; [|done]. by intros [= <- <- <-]. }
  assert (StronglySorted row_le L) as HS by (apply StronglySorted_merge_sort; apply _).
  split.
  - assert (StronglySorted Z.le (fst <$> L)) as HS'.
    { clear Hsub. induction HS as [|a l HS IH Ha]; simpl; constructor; [done|].
      apply Forall_fmap. eapply Forall_impl; [exact Ha|]. done. }
    clear HS. induction Hsub as [|x l1 l2 Hs IH|x l1 l2 Hs IH].
    + constructor.
    + inversion HS' as [|? ? HS1 HF]; subst. constructor; [by apply IH|].
      apply Forall_forall. intros y Hy. apply (proj1 (Forall_forall _ _) HF).
      eapply elem_of_submseteq; [exact Hy|]. by apply sublist_submseteq.
    + inversion HS'; subst. by apply IH.
  - eapply sublist_NoDup; [|exact Hsub]. subst L.
    rewrite merge_sort_Permutation. apply NoDup_fst_map_to_list.
Qed.

(** The messages a session gets from the rows. *)
Definition session_messages (rows : list (Z * msgrow * Z)) : list message :=
  imap (fun i row => message_of_row (Z.of_nat i + 1) row) rows.

Definition fresh_session (s : ClientSession_T) : Prop :=
  messagelst s = p_list_new /\ virtual_totalmessages s = 0 /\ virtual_totalsize s = 0.

Lemma add_rows_totals s n rows :
  let s' := add_rows s n rows in
  totalmessages s' = (match rows with [] => totalmessages s | _ => wrap64 (totalmessages s + Z.of_nat (length rows)) end) /\
  totalsize s' = (match rows with [] => totalsize s | _ => wrap64 (totalsize s + sum_list_Z (snd <$> rows)) end).
Proof.
  revert s n. induction rows as [|[[id r] size] rows IH]; intros s n; [done|].
  cbn [add_rows]. cbn zeta. destruct (IH (s <| totalmessages ::= fun n => wrap64 (n + 1) |>
    <| totalsize ::= fun n0 => wrap64 (n0 + msize (message_of_row n (id, r, size))) |>
    <| messagelst ::= fun L => p_list_append L (Some (message_of_row n (id, r, size))) |>) (n + 1)) as [E1 E2].
  split.
  - rewrite E1. destruct rows; simpl; [done|]. unfold wrap64. rewrite Zplus_mod_idemp_l. f_equal. lia.
  - rewrite E2. destruct rows; simpl; [by rewrite Z.add_0_r|]. unfold wrap64. rewrite Zplus_mod_idemp_l.
    f_equal. unfold sum_list_Z; simpl. lia.
Qed.

Lemma add_rows_rest s n rows :
  let s' := add_rows s n rows in
  state s' = state s /\ virtual_totalmessages s' = virtual_totalmessages s /\
  virtual_totalsize s' = virtual_totalsize s /\ ci s' = ci s /\ username s' = username s.
Proof.
  revert s n. induction rows as [|row rows IH]; intros s n; [done|]. cbn [add_rows]. cbn zeta.
  edestruct IH as (E1 & E2 & E3 & E4 & E5). split_and!; [rewrite E1|rewrite E2|rewrite E3|rewrite E4|rewrite E5]; done.
Qed.

Lemma add_rows_holds s n rows ms :
  holds (messagelst s) ms -> n = Z.of_nat (length ms) + 1 ->
  holds (messagelst (add_rows s n rows))
        (ms ++ imap (fun i row => message_of_row (Z.of_nat (length ms + i) + 1) row) rows).
Proof.
  revert s n ms. induction rows as [|row rows IH]; intros s n ms Hh Hn.
  { by rewrite app_nil_r. }
  cbn [add_rows]. cbn zeta.
  set (s1 := s <| totalmessages ::= _ |> <| totalsize ::= _ |> <| messagelst ::= _ |>).
  assert (holds (messagelst s1) (ms ++ [message_of_row n row])) as H1 by (by apply append_holds).
  specialize (IH s1 (n + 1) _ H1). rewrite length_app in IH. simpl length in IH.
  rewrite imap_cons, Nat.add_0_r. subst n. rewrite <- app_assoc in IH. simpl in IH.
  assert (Z.of_nat (length ms) + 1 + 1 = Z.of_nat (length ms + 1) + 1) as Hn' by lia.
  specialize (IH Hn').
  match goal with |- holds _ (ms ++ _ :: ?x) => match type of IH with holds _ (ms ++ _ :: ?y) =>
    replace x with y; [exact IH|] end end.
  apply imap_ext. intros i x _. simpl. f_equal. lia.
Qed.

Lemma session_messages_lookup rows i :
  session_messages rows !! i = message_of_row (Z.of_nat i + 1) <$> rows !! i.
Proof. unfold session_messages. by rewrite list_lookup_imap. Qed.

Lemma session_messages_octets rows : count_octets (session_messages rows) = sum_list_Z (snd <$> rows).
Proof.
  unfold count_octets. f_equal. apply list_eq. intros i.
  rewrite !list_lookup_fmap, session_messages_lookup. by destruct (rows !! i) as [[[id r] size]|].
Qed.

Lemma session_messages_alive rows :
  (forall row, row ∈ rows -> r_status row.1.2 < MESSAGE_STATUS_DELETE) ->
  filter alive (session_messages rows) = session_messages rows.
Proof.
  intros Hr. apply filter_all. intros m [i Hi]%list_elem_of_lookup.
  rewrite session_messages_lookup in Hi. destruct (rows !! i) as [[[id r] size]|] eqn:E; simpl in Hi; [|done].
  simplify_eq. by apply (Hr (id, r, size)), list_elem_of_lookup_2 with i.
Qed.

Section login.
Context `{ServerConf} `{GLibStr} `{PopEnv}.

Lemma select_pop_status d mb row : row ∈ select_pop d mb -> r_status row.1.2 < MESSAGE_STATUS_DELETE.
Proof. destruct row as [[id r] size]. intros (_ & _ & Hs & _)%select_pop_elem. done. Qed.

(** C16. Login: the session that is built for an authenticated user holds exactly the
    undeleted messages of the user's INBOX, in ascending order of their database ids and
    numbered from 1, marked as they are in the database, with the totals over all of them. *)
Theorem db_createsession_inv w user_idnr :
  fresh_session (session w) ->
  let '(w', r) := db_createsession w user_idnr in
  r = DM_EGENERAL ->
  let mb := (db_find_create_inbox (db w) user_idnr).2 in
  pop_inv (session w') (session_messages (select_pop (db w') mb)) /\
  (forall id row size, (id, row, size) ∈ select_pop (db w') mb <->
     messages (db w') !! id = Some row /\ r_mailbox row = mb /\
     r_status row < MESSAGE_STATUS_DELETE /\ physmessage (db w') !! r_physmessage row = Some size) /\
  StronglySorted Z.le (realmessageid <$> session_messages (select_pop (db w') mb)) /\
  NoDup (realmessageid <$> session_messages (select_pop (db w') mb)).
Proof.
  intros (F1 & F2 & F3). unfold db_createsession.
  destruct (db_find_create_inbox (db w) user_idnr) as [[d code] mb]. simpl.
  destruct (code <? 0); [done|]. destruct (mb <=? 0); [done|].
  destruct (sql_next d) as [d' throws]. destruct throws; [done|]. simpl. intros _.
  set (rows := select_pop d' mb).
  set (s0 := (session w) <| totalmessages := 0 |> <| totalsize := 0 |>).
  assert (realmessageid <$> session_messages rows = (fun row => row.1.1) <$> rows) as ->.
  { apply list_eq. intros i. rewrite !list_lookup_fmap, session_messages_lookup.
    by destruct (rows !! i) as [[[id r] size]|]. }
  split; [|split; [intros; apply select_pop_elem|apply select_pop_sorted]].
  assert (forall row, row ∈ rows -> r_status row.1.2 < MESSAGE_STATUS_DELETE) as Hst
    by (intros row; apply select_pop_status).
  destruct (add_rows_totals s0 1 rows) as [T1 T2].
  destruct (add_rows_rest s0 1 rows) as (R1 & R2 & R3 & _).
  assert (holds (messagelst s0) []) as Hempty by (unfold s0; simpl; rewrite F1; split; [done|unfold plist_wf; simpl; lia]).
  pose proof (add_rows_holds s0 1 rows [] Hempty eq_refl) as Hh. simpl in Hh.
  destruct rows as [|row rows'] eqn:Er.
  { unfold add_rows in *. split; simpl; try done. }
  rewrite <- Er in *. replace (add_rows s0 1 (row :: rows')) with (add_rows s0 1 rows) by (by rewrite Er).
  assert (totalmessages (add_rows s0 1 rows) = wrap64 (Z.of_nat (length rows)) /\
          totalsize (add_rows s0 1 rows) = wrap64 (sum_list_Z (snd <$> rows))) as [T1' T2'].
  { rewrite Er in T1, T2 |- *. done. }
  split; simpl; rewrite ?session_messages_alive, ?session_messages_octets by done; try done.
  - intros i m. rewrite session_messages_lookup. destruct (rows !! i) as [[[id r] size]|]; simpl; [|done].
    by intros [= <-].
  - apply Forall_forall. intros m [i Hi]%list_elem_of_lookup. rewrite session_messages_lookup in Hi.
    destruct (rows !! i) as [[[id r] size]|] eqn:Ei; simpl in Hi; [|done]. simplify_eq. simpl.
    by apply (Hst (id, r, size)), list_elem_of_lookup_2 with i.
  - unfold session_messages. by rewrite length_imap.
  - unfold session_messages. by rewrite length_imap.
Qed.

End login.

(** ** The end of a session *)
Definition changed (m : message) : Prop := virtual_messagestatus m <> messagestatus m.
#[export] Instance changed_dec m : Decision (changed m).
Proof. unfold changed. apply _. Defined.

(** No statement throws. *)
Definition sql_ok (d : DB) : Prop := Forall (fun b => b = false) (sql d).

Lemma sql_next_ok d : sql_ok d -> (sql_next d).2 = false /\ sql_ok (sql_next d).1 /\
  messages (sql_next d).1 = messages d /\ physmessage (sql_next d).1 = physmessage d.
Proof.
  unfold sql_ok, sql_next. destruct (sql d) as [|b bs] eqn:E; simpl; [by rewrite E|].
  intros [-> Hb]%Forall_cons. done.
Qed.

Definition commit (d : DB) (m : message) : DB :=
  if decide (changed m) then update_row (sql_next d).1 m else d.

Lemma commit_ok d m : sql_ok d -> sql_ok (commit d m).
Proof. intros Hd. unfold commit. case_decide; [|done]. by apply sql_next_ok. Qed.

Lemma commits_ok d ms : sql_ok d -> sql_ok (foldl commit d ms).
Proof. revert d. induction ms as [|m ms IH]; intros d Hd; simpl; [done|]. by apply IH, commit_ok. Qed.

(** The row of a message after the session is written back: a changed message gives its new
    status to its row, unless the row has been deleted by someone else meanwhile. *)
Definition written_back (ms : list message) (id : Z) (r : msgrow) : msgrow :=
  match list_find (fun m => realmessageid m = id /\ changed m) ms with
  | Some (_, m) => if r_status r <? MESSAGE_STATUS_DELETE
                   then r <| r_status := virtual_messagestatus m |> else r
  | None => r
  end.

Lemma commit_lookup d m id :
  sql_ok d ->
  messages (commit d m) !! id = written_back [m] id <$> messages d !! id.
Proof.
  intros Hd. destruct (sql_next_ok d Hd) as (_ & _ & Em & _). unfold commit, written_back. simpl.
  destruct (decide (changed m)) as [Hc|Hc].
  - unfold update_row. simpl. rewrite Em. destruct (decide (realmessageid m = id)) as [<-|Hne].
    + rewrite lookup_alter_eq. rewrite decide_True by done. by destruct (messages d !! _).
    + rewrite lookup_alter_ne by done. rewrite decide_False by naive_solver. by destruct (messages d !! _).
  - rewrite decide_False by naive_solver. by destruct (messages d !! _).
Qed.

Lemma written_back_cons m ms id r :
  NoDup (realmessageid <$> m :: ms) ->
  written_back ms id (written_back [m] id r) = written_back (m :: ms) id r.
Proof.
  intros [Hm Hnd]%NoDup_cons. unfold written_back. simpl.
  destruct (decide (realmessageid m = id /\ changed m)) as [[E Hc]|Hn]; [|by destruct (list_find _ ms) as [[]|]].
  destruct (list_find _ ms) as [[i m']|] eqn:El; [|done].
  apply list_find_Some in El as (Hi & [E' _] & _). exfalso. apply Hm. rewrite E, <- E'.
  apply list_elem_of_fmap. exists m'. split; [done|]. by eapply list_elem_of_lookup_2.
Qed.

Lemma commits_lookup d ms id :
  sql_ok d -> NoDup (realmessageid <$> ms) ->
  messages (foldl commit d ms) !! id = written_back ms id <$> messages d !! id.
Proof.
  revert d. induction ms as [|m ms IH]; intros d Hd Hnd; simpl.
  { destruct (messages d !! id); done. }
  rewrite IH; [|by apply commit_ok|by apply NoDup_cons in Hnd as []].
  rewrite commit_lookup by done. destruct (messages d !! id); simpl; [|done]. f_equal.
  by apply written_back_cons.
Qed.

(** What the quota recalculation may not do. *)
Class PopEnvLaws `{PopEnv} := {
  quota_keeps_messages d u : messages (dm_quota_rebuild_user d u).1 = messages d;
  inbox_keeps_messages d u : messages (db_find_create_inbox d u).1.1 = messages d;
  log_ip_keeps_messages d : messages (db_log_ip d) = messages d;
}.

Section quit.
Context `{ServerConf} `{GLibStr} `{PopEnvLaws}.

Lemma update_walk w ms :
  holds (messages_of w) ms -> sql_ok (db w) ->
  exists i u, (i < length (items (messages_of w)))%nat /\
  walk (fun wu => messages_of wu.1) (fun wu L => (set_messages wu.1 L, wu.2))
       (list_fuel (rewind w)) update_body (rewind w, 0)
  = inl ((cursor w i) <| db := foldl commit (db w) ms |>, u).
Proof.
  intros [Hi Hw] Hsql. unfold held_items in Hi. unfold plist_wf in Hw.
  assert (length (items (messages_of w)) = Nat.max 1 (length ms)) as Hlen by (by apply holds_items_length).
  assert (match walk (fun wu => messages_of wu.1) (fun wu L => (set_messages wu.1 L, wu.2))
       (list_fuel (rewind w)) update_body (rewind w, 0) with
    | inl wu => exists i, (i < length (items (messages_of w)))%nat /\
        wu.1 = (cursor w i) <| db := foldl commit (db w) ms |>
    | inr _ => False end) as W.
  { apply (walk_rule _ _ (fun wu => exists i, (i < length (items (messages_of w)))%nat /\
      wu.1 = (cursor w i) <| db := foldl commit (db w) (take i ms) |>)); [done| | | |].
    - intros [w' u] (i & Hlt & E) Hwf. simpl in E. subst w'. simpl fst.
      assert (exists u', update_body ((cursor w i) <| db := foldl commit (db w) (take i ms) |>, u)
          (p_list_data (messages_of ((cursor w i) <| db := foldl commit (db w) (take i ms) |>)))
        = inl ((cursor w i) <| db := foldl commit (db w) (take (S i) ms) |>, u')) as (u' & Eb).
      { unfold p_list_data. simpl. rewrite Hi. destruct ms as [|m0 ms'].
        - simpl in Hlen. assert (i = 0%nat) as -> by lia. simpl. by eexists.
        - rewrite list_lookup_fmap. destruct (lookup_lt_is_Some_2 (m0 :: ms') i) as [m Hm]; [simpl in *; lia|].
          rewrite Hm. rewrite (take_S_r _ _ _ Hm), foldl_app. cbn [foldl].
          set (d := foldl commit (db w) (take i (m0 :: ms'))). simpl.
          unfold commit. destruct (decide (changed m)) as [Hc|Hc].
          + rewrite bool_decide_eq_true_2 by done.
            destruct (sql_next_ok d) as (Et & _); [by apply commits_ok|].
            destruct (sql_next d) as [d' b]. simpl in Et. subst b. by eexists.
          + rewrite bool_decide_eq_false_2 by (intros X; by apply X). by eexists. }
      rewrite Eb. simpl. split; [done|]. split; [done|]. unfold p_list_next. simpl. case_decide.
      + exists (S i). done.
      + exists i. split; [done|]. simpl. f_equal. f_equal. rewrite take_ge; [done|lia].
    - exists O. split; [lia|]. by destruct w.
    - unfold plist_wf. simpl. lia.
    - unfold list_fuel. simpl. lia. }
  destruct (walk _ _ _ _ _) as [[w' u]|]; [|done]. destruct W as (i & Hlt & E). simpl in E. subst w'. eauto.
Qed.

Lemma db_update_pop_commits w ms :
  holds (messages_of w) ms -> sql_ok (db w) -> NoDup (realmessageid <$> ms) ->
  let w' := (db_update_pop w).1 in
  forall id, messages (db w') !! id = written_back ms id <$> messages (db w) !! id.
Proof.
  intros Hh Hsql Hnd. unfold db_update_pop.
  destruct (update_walk w ms Hh Hsql) as (i & u & Hlt & E). cbn zeta. rewrite E.
  destruct (u =? 0); simpl; [intros; by apply commits_lookup|].
  pose proof (quota_keeps_messages (foldl commit (db w) ms) u) as Q.
  destruct (dm_quota_rebuild_user _ u) as [d r]. simpl in *. intros. rewrite Q. by apply commits_lookup.
Qed.

(** C5. QUIT of a user that is logged in, when no UPDATE throws, writes every mark back to the
    database and nothing else: the row of a message marked by DELE gets the status deleted, the
    row of a message read by RETR the status seen, rows that are deleted already and the rows of
    all other messages stay as they are. *)
Theorem pop3_quit_commits w ms :
  pop_inv (session w) ms -> username (session w) <> None ->
  was_apop (session w) <> 0 \/ password (session w) <> None ->
  sql_ok (db w) -> NoDup (realmessageid <$> ms) ->
  let '(w', r) := pop3_quit w in
  r = 0 /\ state (session w') = CLIENTSTATE_QUIT /\
  forall id, messages (db w') !! id = written_back ms id <$> messages (db w) !! id.
Proof.
  intros P Hu Ha Hsql Hnd. unfold pop3_quit. split; [done|]. unfold pop3_close. simpl.
  rewrite bool_decide_eq_true_2 by done.
  match goal with |- context [negb (?a =? 0) || ?b] => assert (negb (a =? 0) || b = true) as -> end.
  { simpl. destruct Ha as [Ha|Ha]; [by rewrite (proj2 (Z.eqb_neq _ _) Ha)|]. rewrite (bool_decide_eq_true_2 _ Ha). apply orb_true_r. }
  simpl.
  match goal with |- context [db_update_pop ?x] =>
    pose proof (db_update_pop_commits x ms (pi_holds _ _ P) Hsql Hnd) as C;
    assert (state (session (db_update_pop x).1) = CLIENTSTATE_QUIT) as S end.
  { unfold db_update_pop.
    match goal with |- context [walk _ _ (list_fuel (rewind ?x)) _ _] =>
      destruct (update_walk x ms (pi_holds _ _ P) Hsql) as (i & u & _ & ->) end.
    destruct (u =? 0); [done|]. by destruct (dm_quota_rebuild_user _ u). }
  destruct (db_update_pop _) as [w' r]. simpl in C, S. destruct (r =? DM_SUCCESS); done.
Qed.

End quit.

(** ** Authentication *)

(** The line presents credentials that the authentication back end accepts. *)
Definition presented_credentials `{GLibStr} `{PopEnv} (w : world) (buffer : cstr) : bool :=
  match pop3_parse buffer with
  | Some (command, Some v) =>
      match lookup_command command with
      | POP3_PASS =>
          let r := (auth_validate (db w) (username (session w)) (Some v)).1 in
          negb (r =? 0) && negb (r =? -1)
      | POP3_APOP =>
          match split_at v SP with
          | Some (user, md5) =>
              let r := wrap64 (auth_md5_validate (db w) user md5 (apop_stamp (session w))) in
              (auth_user_exists (db w) user).1 && negb (r =? 0) && negb (r =? wrap64 (-1))
          | None => false
          end
      | _ => false
      end
  | _ => false
  end.

(** A session handles lines until a command ends it. *)
Fixpoint pop3_session `{ServerConf} `{GLibStr} `{PopEnv} (w : world) (lines : list cstr) : world :=
  match lines with
  | [] => w
  | l :: ls => let '(w', r) := pop3 w l in if r <=? 0 then w' else pop3_session w' ls
  end.

Section auth.
Context `{ServerConf} `{GLibStr} `{PopEnvLaws}.

(** A session that has not authenticated. *)
Definition anonymous (w w' : world) : Prop :=
  state (session w') = CLIENTSTATE_INITIAL_CONNECT /\ fresh_session (session w') /\ db w' = db w.

Lemma fresh_list s : fresh_session s -> messagelst s = p_list_new.
Proof. by intros [E _]. Qed.
Lemma anonymous_refl w :
  state (session w) = CLIENTSTATE_INITIAL_CONNECT -> fresh_session (session w) -> anonymous w w.
Proof. done. Qed.

Lemma anonymous_same w w1 w2 : anonymous w w1 -> same w1 w2 -> anonymous w w2.
Proof.
  intros (A1 & (A2 & A3 & A4) & A5) [(E1&E2&E3&E4&E5&E6&_) E0].
  unfold anonymous, fresh_session. rewrite E1, E2, E4, E6, E0. done.
Qed.

Lemma anonymous_error w w1 f a : anonymous w w1 -> anonymous w (pop3_error w1 f a).1.
Proof. intros A. eapply anonymous_same; [exact A|apply same_pop3_error]. Qed.

Lemma anonymous_reply w w1 f a : anonymous w w1 -> anonymous w (reply w1 f a).
Proof. intros A. eapply anonymous_same; [exact A|apply same_reply]. Qed.

(** QUIT without a login has nothing to write back. *)
Lemma db_update_pop_empty w :
  messagelst (session w) = p_list_new -> db_update_pop w = (rewind w, DM_SUCCESS).
Proof.
  intros Hm. unfold db_update_pop, list_fuel, rewind, messages_of. simpl. rewrite Hm. done.
Qed.

(** The outcome of a line that does not authenticate: the session stays anonymous, or it
    ends, and the data base does not change. *)
Definition quiet (w : world) (o : world * Z) : Prop :=
  anonymous w o.1 \/
  (o.2 = 0 /\ state (session o.1) = CLIENTSTATE_QUIT /\ db o.1 = db w /\ messagelst (session o.1) = p_list_new).

Lemma quiet_error w w1 f a : anonymous w w1 -> quiet w (pop3_error w1 f a).
Proof. left. by apply anonymous_error. Qed.

Lemma quiet_quit w w1 : anonymous w w1 -> quiet w (pop3_quit w1).
Proof.
  intros (St & (F1 & F2 & F3) & Em). right. split; [done|]. unfold pop3_quit, pop3_close. simpl.
  destruct (_ && _); [|split_and!; [done|exact Em|exact F1]].
  rewrite db_update_pop_empty by done. split_and!; [done|exact Em|]. unfold rewind, messages_of. simpl. by rewrite F1.
Qed.

Lemma quiet_stls w w1 : anonymous w w1 -> quiet w (pop3_stls w1 CLIENTSTATE_INITIAL_CONNECT).
Proof.
  intros A. unfold pop3_stls. rewrite Z.eqb_refl. cbn [negb]. cbv iota.
  destruct (negb conf_ssl); [by apply quiet_error|].
  destruct (ssl_state _ =? 0); cbn [negb]; [|by apply quiet_error].
  destruct (ci_starttls _) as [c r]. left. cbn [fst].
  apply (anonymous_same _ (reply w1 (line "+OK Begin TLS now") [])); [by apply anonymous_reply|done].
Qed.

Lemma quiet_user w w1 ld value : anonymous w w1 -> quiet w (pop3_user w1 CLIENTSTATE_INITIAL_CONNECT ld value).
Proof.
  intros A. unfold pop3_user. rewrite Z.eqb_refl. cbn [negb]. cbv iota.
  destruct (ld && _); [by apply quiet_error|]. left. by apply anonymous_reply.
Qed.

Lemma quiet_pass w w1 ld v :
  anonymous w w1 -> ((auth_validate (db w1) (username (session w1)) (Some v)).1 = 0 \/
                     (auth_validate (db w1) (username (session w1)) (Some v)).1 = -1) ->
  quiet w (pop3_pass w1 CLIENTSTATE_INITIAL_CONNECT ld (Some v)).
Proof.
  intros A Hv. unfold pop3_pass. rewrite Z.eqb_refl. cbn [negb]. cbv iota.
  destruct (ld && _); [by apply quiet_error|]. simpl.
  destruct (auth_validate _ _ _) as [vr res]. simpl in Hv.
  destruct Hv as [->| ->]; simpl; [by apply quiet_error|by left].
Qed.

Lemma quiet_apop w w1 v :
  anonymous w w1 ->
  (forall user md5, split_at v SP = Some (user, md5) -> (auth_user_exists (db w1) user).1 = true ->
     wrap64 (auth_md5_validate (db w1) user md5 (apop_stamp (session w1))) = 0 \/
     wrap64 (auth_md5_validate (db w1) user md5 (apop_stamp (session w1))) = wrap64 (-1)) ->
  quiet w (pop3_apop w1 CLIENTSTATE_INITIAL_CONNECT (Some v)).
Proof.
  intros A Hv. unfold pop3_apop. rewrite Z.eqb_refl. cbn [negb]. cbv iota.
  change (arg (Some v)) with v. destruct (split_at v SP) as [[user md5]|]; [|by apply quiet_error].
  destruct (strlen md5 =? 32); cbn [negb]; [|by apply quiet_error]. specialize (Hv user md5 eq_refl).
  simpl. destruct (auth_user_exists _ user) as [ex uid]. simpl in *. destruct ex; simpl; [|by left].
  destruct (strcaseeq _ []); cbn [negb]; [|by apply quiet_error]. destruct (Hv eq_refl) as [E|E]; rewrite E.
  - by apply quiet_error.
  - rewrite Z.eqb_refl. by left.
Qed.

Lemma pop3_anonymous_step w buffer :
  state (session w) = CLIENTSTATE_INITIAL_CONNECT -> fresh_session (session w) ->
  presented_credentials w buffer = false -> quiet w (pop3 w buffer).
Proof.
  intros Hst Hf Hno. unfold presented_credentials in Hno. unfold pop3. destruct (pop3_parse buffer) as [[command value]|] eqn:Ep; [|by left].
  set (w1 := if bool_decide (lookup_command command = POP3_FAIL) then w else _).
  assert (anonymous w w1) as A by (subst w1; case_bool_decide; done).
  assert (username (session w1) = username (session w) /\ db w1 = db w /\
          apop_stamp (session w1) = apop_stamp (session w)) as (U1 & D1 & S1)
    by (subst w1; case_bool_decide; done).
  destruct (bool_decide (value = None) && _) eqn:Ea; [by apply quiet_error|]. clearbody w1.
  assert (state (session w1) = CLIENTSTATE_INITIAL_CONNECT) as St by apply A.
  unfold pop3_command, pop3_stat, pop3_list, pop3_retr, pop3_dele, pop3_noop, pop3_last, pop3_rset,
    pop3_uidl, pop3_top, pop3_auth.
  destruct (lookup_command command) eqn:Ec; rewrite ?St; simpl negb; cbv iota;
    try (by apply quiet_error); try (by apply quiet_quit).
  - by apply quiet_user.
  - destruct value as [v|]; [|done]. apply quiet_pass; [done|].
    rewrite U1, D1. apply andb_false_iff in Hno as [Hno|Hno]; to_prop; auto.
  - destruct value as [v|]; [|done]. apply quiet_apop; [done|].
    rewrite S1, D1. intros user md5 Es Ex. rewrite Es, Ex in Hno. cbn [andb] in Hno.
    apply andb_false_iff in Hno as [Hno|Hno]; to_prop; auto.
  - left. by apply anonymous_reply.
  - by apply quiet_stls.
Qed.


End auth.

(** ** The formats of the replies *)
Definition sound (w : world) : Prop := sound_io (ci (session w)).

Section format.
Context `{ServerConf} `{GLibStrLaws} `{PopEnv}.

Lemma sound_reply w f a : sound w -> is_Some (cformat f a) -> sound (reply w f a).
Proof. intros Hs [t Ht]. by eapply sound_write. Qed.

Lemma sound_error w f a t :
  sound w -> cformat f a = Some t -> PERCENT ∉ t -> sound (pop3_error w f a).1.
Proof.
  intros Hs Ht Hp. unfold pop3_error. destruct (MAX_ERRORS <=? _); [by apply sound_reply|].
  rewrite Ht. simpl. assert (sound (reply w t [])) as Hr.
  { apply sound_reply; [done|]. rewrite cformat_plain by done. by eexists. }
  by destruct (errored _).
Qed.

Ltac literal := apply (bool_decide_eq_true_1 _); reflexivity.
Ltac sound_literal := eapply sound_error; [done|reflexivity|literal].

Lemma sound_no_such w value : sound w -> PERCENT ∉ arg value -> sound (no_such_message w value).1.
Proof.
  intros Hs Hv. eapply sound_error; [done|reflexivity|]. simpl.
  repeat (apply not_elem_of_cons; split; [done|]). apply not_elem_of_app. split; [done|]. literal.
Qed.

Lemma sound_wrong_mode w : sound w -> sound (wrong_mode w).1.
Proof. intros Hs. sound_literal. Qed.

Lemma sound_same w w' : ci (session w') = ci (session w) -> sound w -> sound w'.
Proof. unfold sound. by intros ->. Qed.

Lemma sound_at_message w id f none :
  sound w -> (forall w m, sound w -> sound (f w m).1) -> (forall w, sound w -> sound (none w).1) ->
  sound (at_message w id f none).1.
Proof.
  intros Hs Hf Hn. unfold at_message.
  set (body := fun (w : world) (msg : option message) => _).
  pose proof (walk_preserves messages_of set_messages sound (fun r => sound r.1) body (list_fuel w) w) as W.
  destruct (walk _ _ _ body w) as [w'|r]; [apply Hn|]; apply W; try done;
    intros w0 d Hw0; unfold body; by destruct (selected id d); [apply Hf|].
Qed.

Lemma sound_show_all w f a : sound w -> (forall m, is_Some (cformat f (a m))) -> sound (show_all w f a).
Proof.
  intros Hs Ha. unfold show_all. set (body := fun (w : world) (msg : option message) => _).
  pose proof (walk_preserves messages_of set_messages sound (fun _ => True) body (list_fuel w) w) as W.
  destruct (walk _ _ _ body w) as [w'|[]]. apply W; try done.
  intros w0 d Hw0. unfold body. destruct (undeleted d); [by apply sound_reply|done].
Qed.

Lemma sound_show_one w value f a :
  sound w -> (forall m, is_Some (cformat f (a m))) -> PERCENT ∉ arg value -> sound (show_one w value f a).1.
Proof.
  intros Hs Ha Hv. unfold show_one. set (body := fun '(w, found) msg => _).
  pose proof (walk_preserves (fun wf : world * bool => messages_of wf.1) (fun wf L => (set_messages wf.1 L, wf.2))
    (fun wf => sound wf.1) (fun _ => True) body (list_fuel w) (w, false)) as W.
  destruct (walk _ _ _ body _) as [[w' found]|[]].
  assert (sound w') as Hw'.
  { apply W; try done. intros [w0 b] d Hw0. unfold body. destruct (selected _ d); [by apply sound_reply|done]. }
  destruct found; [done|]. by apply sound_no_such.
Qed.

Lemma db_update_pop_ci w : ci (session (db_update_pop w).1) = ci (session w).
Proof.
  unfold db_update_pop.
  pose proof (walk_preserves (fun wu : world * Z => messages_of wu.1) (fun wu L => (set_messages wu.1 L, wu.2))
    (fun wu => ci (session wu.1) = ci (session w)) (fun wu => ci (session wu.1) = ci (session w))
    update_body (list_fuel (rewind w)) (rewind w, 0)) as W.
  destruct (walk _ _ _ update_body _) as [[w' u]|[w' u]]; simpl in W.
  - assert (ci (session w') = ci (session w)) as E.
    { apply W; try done. intros [w0 u0] d E0. unfold update_body. simpl in *. destruct d as [m|]; [|done].
      destruct (bool_decide _); [|done]. by destruct (sql_next (db w0)) as [? []]. }
    destruct (u =? 0); [done|]. by destruct (dm_quota_rebuild_user _ _).
  - apply W; try done. intros [w0 u0] d E0. unfold update_body. simpl in *. destruct d as [m|]; [|done].
    destruct (bool_decide _); [|done]. by destruct (sql_next (db w0)) as [? []].
Qed.

Lemma sound_close w : sound w -> sound (pop3_close w).
Proof.
  intros Hs. unfold pop3_close. simpl. destruct (_ && _); [|by apply sound_reply].
  destruct (_ =? 0).
  - match goal with |- context [db_update_pop ?x] => pose proof (db_update_pop_ci x) as E;
      destruct (db_update_pop x) as [w' r] end. simpl in E.
    destruct (r =? _); apply sound_reply; try done; by eapply sound_same.
  - destruct (_ =? 1); [by apply sound_reply|done].
Qed.

Lemma sound_authenticated w u : sound w -> sound (_pop3_session_authenticated w u).1.
Proof.
  intros Hs. unfold _pop3_session_authenticated.
  set (w1 := if pop_before_smtp then _ else _).
  assert (sound w1) as Hw1 by (subst w1; destruct pop_before_smtp; by apply sound_timeout).
  clearbody w1. unfold db_createsession.
  destruct (db_find_create_inbox _ _) as [[d code] mb].
  destruct (code <? 0); [done|]. destruct (mb <=? 0); [done|].
  destruct (sql_next _) as [d' []]; [done|]. simpl. apply sound_reply; [|by eexists].
  eapply sound_same; [|exact Hw1]. simpl.
  match goal with |- context [add_rows ?s ?n ?r] => destruct (add_rows_rest s n r) as (_ & _ & _ & E & _) end.
  destruct (select_pop d' mb); simpl in *; by rewrite ?E.
Qed.

Lemma sound_upd w f : (forall s, ci (f s) = ci s) -> sound w -> sound (upd w f).
Proof. intros Hf. apply sound_same. by simpl; rewrite Hf. Qed.

Lemma sound_user w st ld value : sound w -> sound (pop3_user w st ld value).1.
Proof.
  intros Hs. unfold pop3_user. destruct (negb _); [by apply sound_wrong_mode|].
  destruct (ld && _); [sound_literal|]. apply sound_reply; [|by eexists]. by apply sound_upd.
Qed.

Lemma sound_pass w st ld value : sound w -> sound (pop3_pass w st ld value).1.
Proof.
  intros Hs. unfold pop3_pass. destruct (negb _); [by apply sound_wrong_mode|].
  destruct (ld && _); [sound_literal|].
  assert (sound (upd w (fun s => s <| password := Some (arg value) |>))) as Hs' by (by apply sound_upd).
  destruct (auth_validate _ _ _) as [vr res].
  destruct (vr =? -1); [by apply sound_upd|].
  destruct (vr =? 0); [|by apply sound_authenticated].
  eapply sound_error; [by apply sound_upd|reflexivity|literal].
Qed.

Lemma sound_listing w f1 a1 f2 a2 f3 a3 value :
  sound w -> PERCENT ∉ arg value -> (forall m, is_Some (cformat f1 (a1 m))) ->
  (forall w, is_Some (cformat f2 (a2 w))) -> (forall m, is_Some (cformat f3 (a3 m))) ->
  sound (match value with
         | Some _ => show_one (rewind w) value f1 a1
         | None =>
             let w := reply (rewind w) f2 (a2 (rewind w)) in
             let w := if 0 <? virtual_totalmessages (session w) then show_all w f3 a3 else w in
             (reply w (line ".") [], 1)
         end).1.
Proof.
  intros Hs Hv H1' H2' H3'. destruct value; [by apply sound_show_one|]. cbn zeta. cbn [fst].
  apply sound_reply; [|by eexists]. assert (sound (reply (rewind w) f2 (a2 (rewind w)))) as Hr
    by (by apply sound_reply).
  destruct (0 <? _); [by apply sound_show_all|done].
Qed.

Lemma sound_list w st value : sound w -> PERCENT ∉ arg value -> sound (pop3_list w st value).1.
Proof.
  intros Hs Hv. unfold pop3_list. destruct (negb _); [by apply sound_wrong_mode|].
  apply (sound_listing w _ _ _ (fun w => [FU (virtual_totalmessages (session w)); FU (virtual_totalsize (session w))]));
    try done; by eexists.
Qed.

Lemma sound_uidl w st value : sound w -> PERCENT ∉ arg value -> sound (pop3_uidl w st value).1.
Proof.
  intros Hs Hv. unfold pop3_uidl. destruct (negb _); [by apply sound_wrong_mode|].
  apply (sound_listing w _ _ _ (fun w => [])); try done; by eexists.
Qed.

Lemma sound_retr w st value : sound w -> PERCENT ∉ arg value -> sound (pop3_retr w st value).1.
Proof.
  intros Hs Hv. unfold pop3_retr. destruct (negb _); [by apply sound_wrong_mode|].
  apply sound_at_message; [done| |intros; by apply sound_no_such].
  intros w' m Hs'. cbn zeta. destruct (db_get_message_lines _ _ _) as [s|]; [|done].
  cbn [fst]. apply sound_reply; [|by eexists]. apply sound_reply; [done|by eexists].
Qed.

Lemma sound_dele w st value : sound w -> PERCENT ∉ arg value -> sound (pop3_dele w st value).1.
Proof.
  intros Hs Hv. unfold pop3_dele. destruct (negb _); [by apply sound_wrong_mode|].
  apply sound_at_message; [done| |intros; by apply sound_no_such].
  intros w' m Hs'. cbn zeta. cbn [fst]. apply sound_reply; [done|by eexists].
Qed.

Lemma sound_top w st value : sound w -> sound (pop3_top w st value).1.
Proof.
  intros Hs. unfold pop3_top. destruct (negb _); [by apply sound_wrong_mode|].
  destruct (split_at (arg value) SP) as [[id lines]|]; [|sound_literal].
  destruct (negb (all_digits lines)); [sound_literal|]. destruct (negb (all_digits id)); [sound_literal|].
  destruct (_ <? 1); [sound_literal|].
  apply sound_at_message; [done| |intros; sound_literal].
  intros w' m Hs'. destruct (db_get_message_lines _ _ _) as [s|]; [|done].
  destruct (ci_write _ _ _) as [c i] eqn:E. cbn [fst]. apply sound_reply; [|by eexists].
  unfold sound. simpl. change c with ((c, i).1). rewrite <- E. by eapply sound_write.
Qed.

Lemma sound_last w st : sound w -> sound (pop3_last w st).1.
Proof.
  intros Hs. unfold pop3_last. destruct (negb _); [by apply sound_wrong_mode|].
  set (body := fun (w : world) (msg : option message) => _).
  pose proof (walk_preserves messages_of set_messages sound sound body (list_fuel (rewind w)) (rewind w)) as W.
  assert (forall w0 d, sound w0 -> match body w0 d with inl s' => sound s' | inr r => sound r end) as Hb.
  { intros w0 d Hw0. unfold body. destruct d as [m|]; [|done].
    destruct (_ =? _); [apply sound_reply; [done|by eexists]|done]. }
  destruct (walk _ _ _ body _) as [w'|w']; [apply sound_reply; [|by eexists]|]; by apply W.
Qed.

Lemma sound_rset w st : sound w -> sound (pop3_rset w st).1.
Proof.
  intros Hs. unfold pop3_rset. destruct (negb _); [by apply sound_wrong_mode|].
  set (body := fun (w : world) (msg : option message) => _).
  match goal with |- context [walk _ _ (list_fuel ?x) body ?x] =>
    pose proof (walk_preserves messages_of set_messages sound (fun _ => True) body (list_fuel x) x) as W;
    destruct (walk _ _ (list_fuel x) body x) as [w'|[]] end.
  apply sound_reply; [|by eexists]. apply W; try done. intros w0 [m|] Hw0; done.
Qed.

Lemma sound_apop w st value : sound w -> sound (pop3_apop w st value).1.
Proof.
  intros Hs. unfold pop3_apop. destruct (negb (st =? _)); [by apply sound_wrong_mode|].
  destruct (split_at (arg value) SP) as [[user md5]|]; [|sound_literal].
  destruct (negb (_ =? 32)); [sound_literal|].
  assert (sound (upd w (fun s => s <| username := Some user |>))) as Hs' by (by apply sound_upd).
  destruct (auth_user_exists _ user) as [ex uid]. destruct (negb ex); [done|].
  destruct (negb (strcaseeq _ _)); [eapply sound_error; [by apply sound_upd|reflexivity|literal]|].
  destruct (_ =? wrap64 (-1)); [by apply sound_upd|].
  destruct (_ =? 0); [|by apply sound_authenticated].
  eapply sound_error; [by apply sound_upd|reflexivity|literal].
Qed.

(** Format safety: on a server without TLS, a command line without a percent sign never
    makes the server call printf with a format that lacks an argument, whatever the
    database and the mailbox hold; the state in which this is guaranteed is kept. *)
Theorem pop3_format_safe w buffer :
  conf_ssl = false -> sound w -> PERCENT ∉ buffer -> sound (pop3 w buffer).1.
Proof.
  intros Hssl Hs Hb. unfold pop3. destruct (pop3_parse buffer) as [[command value]|] eqn:Ep; [|done].
  assert (PERCENT ∉ arg value) as Hv.
  { destruct value as [v|]; [|apply not_elem_of_nil]. intros Hx. apply Hb.
    by apply (command_words_sub buffer command v Ep). }
  set (w1 := if bool_decide (lookup_command command = POP3_FAIL) then w else _).
  assert (sound w1) as Hw1 by (subst w1; case_bool_decide; done). clearbody w1.
  destruct (bool_decide (value = None) && _); [sound_literal|].
  unfold pop3_command. generalize (state (session w1)) as st. intros st.
  generalize ((st =? CLIENTSTATE_INITIAL_CONNECT) && conf_ssl && strcaseeq conf_login_disabled (lit "yes")) as ld.
  intros ld. destruct (lookup_command command).
  - by apply sound_close.
  - by apply sound_user.
  - by apply sound_pass.
  - unfold pop3_stat. destruct (negb _); [by apply sound_wrong_mode|]. apply sound_reply; [done|by eexists].
  - by apply sound_list.
  - by apply sound_retr.
  - by apply sound_dele.
  - unfold pop3_noop. destruct (negb _); [by apply sound_wrong_mode|]. apply sound_reply; [done|by eexists].
  - by apply sound_last.
  - by apply sound_rset.
  - by apply sound_uidl.
  - by apply sound_apop.
  - unfold pop3_auth. destruct (negb _); [by apply sound_wrong_mode|]. sound_literal.
  - by apply sound_top.
  - apply sound_reply; [done|]. by destruct conf_ssl; eexists.
  - unfold pop3_stls. rewrite Hssl. destruct (negb _); [by apply sound_wrong_mode|]. sound_literal.
  - sound_literal.
Qed.

End format.

(** ** The texts of the replies *)
Section texts.
Context `{ServerConf} `{GLibStr} `{PopEnv}.

(** A connection without TLS. *)
Lemma replied_reply c0 w f a t T :
  plain_io c0 -> replied c0 (ci (session w)) T -> cformat f a = Some t ->
  replied c0 (ci (session (reply w f a))) (T ++ t).
Proof. apply replied_write. Qed.

Lemma alive_undeleted m : undeleted (Some m) = if decide (alive m) then Some m else None.
Proof. unfold undeleted, alive. simpl. destruct (_ <? _) eqn:E; to_prop; case_decide; try done; lia. Qed.

(** The listing of all messages: one line for each message that is alive, in order. *)
Lemma show_all_text w c0 T ms f a txt :
  plain_io c0 -> holds (messages_of w) ms -> pos (messages_of w) = 0%nat ->
  replied c0 (ci (session w)) T -> (forall m, cformat f (a m) = Some (txt m)) ->
  replied c0 (ci (session (show_all w f a))) (T ++ concat (txt <$> filter alive ms)).
Proof.
  intros Hp Hh Hpos HR Hf. pose proof (holds_items_length _ _ Hh) as Hlen. destruct Hh as [Hi Hw]. unfold held_items in Hi.
  unfold show_all. set (body := fun (w : world) (msg : option message) => _).
  assert (match walk (R := Empty_set) messages_of set_messages (list_fuel w) body w with
    | inl w' => replied c0 (ci (session w')) (T ++ concat (txt <$> filter alive ms))
    | inr _ => False end) as W.
  { apply (walk_rule messages_of set_messages (fun w' => exists i, (i < length (items (messages_of w)))%nat /\
      messages_of w' = mkplist (items (messages_of w)) i /\
      replied c0 (ci (session w')) (T ++ concat (txt <$> filter alive (take i ms))))); [done| | |done|].
    - intros w' (i & Hlt & Em & R) Hwf.
      assert (exists w1, body w' (p_list_data (messages_of w')) = inl w1 /\ messages_of w1 = messages_of w' /\
        replied c0 (ci (session w1)) (T ++ concat (txt <$> filter alive (take (S i) ms)))) as (w1 & -> & Em1 & R1).
      { unfold body. eexists. split; [done|]. rewrite (holds_data_eq _ ms) by (rewrite Em; by split).
        rewrite Em. cbn [pos]. destruct (ms !! i) as [m|] eqn:Hm.
        - rewrite (take_S_r _ _ _ Hm), filter_app, fmap_app, concat_app, alive_undeleted.
          rewrite filter_cons, filter_nil. case_decide; [|by rewrite app_nil_r].
          split; [done|]. rewrite app_assoc. apply replied_reply; [done|done|]. simpl. by rewrite app_nil_r.
        - apply lookup_ge_None in Hm. rewrite !take_ge in * by lia. done. }
      rewrite Em1, Em. split; [done|]. split; [done|]. unfold p_list_next. simpl. case_decide.
      + by exists (S i).
      + rewrite take_ge in R1; [done|lia].
    - exists O. split; [unfold plist_wf in Hw; lia|]. split; [|by rewrite app_nil_r].
      destruct (messages_of w). simpl in *. by subst.
    - unfold list_fuel. lia. }
  by destruct (walk _ _ _ body w) as [w'|[]].
Qed.

(** What LIST without an argument answers. *)
Definition list_head (ms : list message) : cstr :=
  lit "+OK " ++ dec_of (Z.of_nat (length (filter alive ms))) ++ lit " messages (" ++
  dec_of (count_octets (filter alive ms)) ++ line " octets)".
Definition list_line (m : message) : cstr := dec_of (messageid m) ++ lit " " ++ dec_of (msize m) ++ crlf.
Definition list_text (ms : list message) : cstr :=
  list_head ms ++ concat (list_line <$> filter alive ms) ++ line ".".

(** LIST and STAT tell the truth: the count, the octets and the lines are those of the
    messages that are not deleted, in order; the reply is queued completely unless the
    connection breaks. *)
Theorem pop3_list_stat_replies w ms :
  state (session w) = CLIENTSTATE_AUTHENTICATED -> pop_inv (session w) ms -> plain_io (ci (session w)) ->
  Z.of_nat (length ms) < 2 ^ 64 -> 0 <= count_octets (filter alive ms) < 2 ^ 64 ->
  replied (ci (session w)) (ci (session (pop3_command w POP3_LIST None).1)) (list_text ms) /\
  replied (ci (session w)) (ci (session (pop3_command w POP3_STAT None).1))
    (lit "+OK " ++ dec_of (Z.of_nat (length (filter alive ms))) ++ lit " " ++
     dec_of (count_octets (filter alive ms)) ++ crlf).
Proof.
  intros Hst P Hp Hl Ho. unfold pop3_command. rewrite Hst.
  assert (virtual_totalmessages (session w) = Z.of_nat (length (filter alive ms))) as Ev.
  { rewrite (pi_vtotal _ _ P). apply wrap64_id. pose proof (length_filter alive ms). lia. }
  assert (virtual_totalsize (session w) = count_octets (filter alive ms)) as Es
    by (rewrite (pi_vsize _ _ P); by apply wrap64_id).
  pose proof (replied_refl _ (proj1 Hp)) as R0. split.
  - unfold pop3_list. rewrite Z.eqb_refl. cbn [negb]. cbv iota.
    set (w1 := reply (rewind w) _ _).
    assert (replied (ci (session w)) (ci (session w1)) (list_head ms)) as R1.
    { rewrite <- (app_nil_l (list_head ms)). apply replied_reply; [done|done|]. simpl. by rewrite Ev, Es. }
    cbn [fst]. unfold list_text. rewrite app_assoc. apply replied_reply; [done| |done].
    assert (virtual_totalmessages (session w1) = Z.of_nat (length (filter alive ms))) as -> by done.
    destruct (0 <? _) eqn:E0; to_prop.
    + apply show_all_text; try done. destruct (pi_holds _ _ P) as [Hi Hw]. split; [done|].
      unfold plist_wf in *. simpl. unfold messages_of. lia.
    + destruct (filter alive ms); [by rewrite app_nil_r|simpl in E0; lia].
  - unfold pop3_stat. rewrite Z.eqb_refl. cbn [negb fst].
    rewrite <- (app_nil_l (lit "+OK " ++ _)). apply replied_reply; [done|done|]. simpl. by rewrite Ev, Es.
Qed.

End texts.

(** ** An example: a mailbox with two messages *)
Definition example_env : PopEnv := {|
  dm_db_ping _ := true;
  db_find_create_inbox d u := (d, 0, 10 + u);
  db_get_useridnr _ _ := 5;
  dm_quota_rebuild_user d _ := (d, 0);
  message_crlf d id := (fun _ => line "Subject: x" ++ crlf ++ line ".dot") <$> messages d !! id;
  auth_validate _ u p :=
    if bool_decide (u = Some (lit "joe")) && bool_decide (p = Some (lit "secret")) then (1, 5) else (0, 0);
  auth_user_exists _ u := (bool_decide (u = lit "joe"), 5);
  auth_getencryption _ _ := [];
  auth_md5_validate _ _ _ _ := 0;
  pop_before_smtp := false;
  db_log_ip d := d;
|}.

#[local] Existing Instance plain_conf.
#[local] Existing Instance example_env.
#[local] Instance example_env_laws : PopEnvLaws.
Proof. by split. Qed.

Definition example_db : DB :=
  {| messages := list_to_map [(7, mkrow 15 70 0 (Some (lit "u7"))); (9, mkrow 15 90 1 (Some (lit "u9")));
                              (8, mkrow 15 80 2 None); (6, mkrow 16 60 0 None)];
     physmessage := list_to_map [(70, 100); (90, 250); (80, 7); (60, 8)];
     sql := [] |}.

(** The world after the greeting; the socket takes everything. *)
Definition example_world : world :=
  pop3_handle_connection
    (client_init 16 7 0 (replicate 20 (Accept 1000)) [] []) (lit "host") (lit "id") example_db.

Definition example_run (w : world) (lines : list string) : world :=
  pop3_session w (line <$> lines).

Definition logged_in : world := example_run example_world ["USER joe"; "PASS secret"]%string.
Definition logged_in_messages : list message := session_messages (select_pop example_db 15).

Lemma logged_in_inv : pop_inv (session logged_in) logged_in_messages.
Proof.
  split; try (vm_compute; reflexivity).
  - split; [vm_compute; reflexivity|vm_compute; lia].
  - intros [|[|i]] m; vm_compute; intros E; simplify_eq; reflexivity.
  - apply (bool_decide_eq_true_1 _). vm_compute. reflexivity.
Qed.

Lemma pop3_command_refines_witness :
  steps logged_in (pop3_command logged_in POP3_DELE (Some (lit "2"))).1
    (spec_cmd POP3_DELE (Some (lit "2")) logged_in_messages) /\
  (virtual_messagestatus <$> spec_cmd POP3_DELE (Some (lit "2")) logged_in_messages) = [0; 2].
Proof.
  split; [|vm_compute; reflexivity].
  apply (pop3_command_refines logged_in POP3_DELE (Some (lit "2")) logged_in_messages).
  - vm_compute. reflexivity.
  - apply logged_in_inv.
  - discriminate.
Defined.

Definition before_login : world := example_run example_world ["USER joe"]%string.

Lemma db_createsession_inv_witness :
  fresh_session (session before_login) /\
  let '(w', r) := db_createsession before_login 5 in
  r = DM_EGENERAL /\ pop_inv (session w') (session_messages (select_pop (db w') 15)).
Proof.
  assert (fresh_session (session before_login)) as F by (vm_compute; auto).
  split; [exact F|].
  pose proof (db_createsession_inv before_login 5 F) as T.
  assert ((db_createsession before_login 5).2 = DM_EGENERAL) as E by (vm_compute; reflexivity).
  destruct (db_createsession before_login 5) as [w' r]. simpl in E.
  split; [exact E|]. exact (proj1 (T E)).
Defined.

Definition after_dele : world := example_run logged_in ["DELE 2"; "RETR 1"]%string.
Definition after_dele_messages : list message :=
  spec_cmd POP3_RETR (Some (lit "1")) (spec_cmd POP3_DELE (Some (lit "2")) logged_in_messages).

Lemma pop3_quit_commits_witness :
  let w' := (pop3_quit after_dele).1 in
  (r_status <$> messages (db w') !! 7, r_status <$> messages (db w') !! 9,
   r_status <$> messages (db w') !! 8, r_status <$> messages (db w') !! 6) =
  (Some 1, Some 2, Some 2, Some 0).
Proof.
  pose proof (pop3_quit_commits
    after_dele after_dele_messages) as T.
  destruct (pop3_quit after_dele) as [w' r].
  destruct T as (_ & _ & T).
  - split; try (vm_compute; reflexivity).
    + split; [vm_compute; reflexivity|vm_compute; lia].
    + intros [|[|i]] m; vm_compute; intros E; simplify_eq; reflexivity.
    + apply (bool_decide_eq_true_1 _). vm_compute. reflexivity.
  - vm_compute. discriminate.
  - left. vm_compute. discriminate.
  - constructor.
  - apply (bool_decide_eq_true_1 _). vm_compute. reflexivity.
  - simpl. rewrite !T. vm_compute. reflexivity.
Defined.


Lemma logged_in_plain : plain_io (ci (session logged_in)).
Proof.
  split; [|vm_compute; reflexivity]. intros _. split.
  - exists []. split; [vm_compute; reflexivity|vm_compute; lia].
  - vm_compute. discriminate.
  - vm_compute. discriminate.
Qed.

Lemma pop3_format_safe_witness :
  sound (pop3 logged_in (line "RETR 12")).1.
Proof.
  apply (pop3_format_safe logged_in (line "RETR 12")).
  - reflexivity.
  - split; [vm_compute; reflexivity|]. right. destruct logged_in_plain as [Hh Hs].
    split; [apply Hh; vm_compute; reflexivity|exact Hs].
  - apply (bool_decide_eq_true_1 _). vm_compute. reflexivity.
Defined.

Lemma pop3_list_stat_replies_witness :
  replied (ci (session logged_in))
    (ci (session (pop3_command logged_in POP3_LIST None).1))
    (list_text logged_in_messages) /\
  list_text logged_in_messages =
    line "+OK 2 messages (350 octets)" ++ line "1 100" ++ line "2 250" ++ line ".".
Proof.
  split; [|vm_compute; reflexivity].
  refine (proj1 (pop3_list_stat_replies logged_in logged_in_messages _ _ _ _ _)).
  - vm_compute. reflexivity.
  - apply logged_in_inv.
  - apply logged_in_plain.
  - vm_compute. reflexivity.
  - vm_compute. split; [discriminate|reflexivity].
Defined.

(** ** Divergences *)

(** The text of an error reply is used as a format: a percent sign in the argument of a
    command makes the server print an argument that was never passed. *)
Lemma pop3_error_reformats :
  fault (ci (session (pop3 logged_in (line "RETR %s")).1)) = true.
Proof. vm_compute. reflexivity. Qed.

(** Every recognised command sets [was_apop], so QUIT after USER takes the path that writes
    the session back, although nobody logged in. *)
Lemma quit_after_user_writes_back :
  was_apop (session before_login) = 1 /\ password (session before_login) = None /\
  state (session before_login) = CLIENTSTATE_INITIAL_CONNECT.
Proof. vm_compute. auto. Qed.

(** TOP returns the result of [ci_write]: when the socket would block, 0, which ends the
    session like QUIT; RETR of the same message returns 1. *)
Definition blocked (w : world) : world := upd w (fun s => s <| ci ::= fun c => c <| wscript := [] |> |>).
Lemma top_closes_blocked_session :
  (pop3 (blocked logged_in) (line "TOP 1 5")).2 = 0 /\
  (pop3 (blocked logged_in) (line "RETR 1")).2 = 1.
Proof. vm_compute. auto. Qed.

(** User ids are passed through an int: ids that differ by a multiple of 2^32 open the same
    mailbox. *)
Lemma session_user_truncated w u k :
  _pop3_session_authenticated w (u + k * 2 ^ 32) =
  _pop3_session_authenticated w u.
Proof.
  assert (to_int32 (u + k * 2 ^ 32) = to_int32 u) as E.
  { unfold to_int32, wrap32. rewrite Z_mod_plus_full. reflexivity. }
  unfold _pop3_session_authenticated. rewrite E. reflexivity.
Qed.
