(* ===== verification/Dsn.v ===== *)
(** * dm_dsn.c: delivery status and the resolution of recipients

    The texts of the delivery status codes, the worst status of a set of deliveries, and the
    search that turns an envelope address into local users and forwards: alias, alias with
    the mailbox part cut out, user name, user name with the mailbox part cut out, domain
    catch-all, user-part catch-all. The user database is the class [AuthDB]. *)
From S2P Require Import Prelude CLib GLib ListT ClientBase ClientSession MiscText.

(** ** Status texts *)
Definition DSN_STRINGS_CLASS : list string :=
  [""; ""; "Success"; ""; "Persistent Transient Failure"; "Permanent Failure"]%string.
Definition DSN_STRINGS_SUBJECT : list string :=
  [""; "Address Status"; "Mailbox Status"; "Mail System Status"; "Network and Routing Status";
   "Mail Delivery Protocol Status"; "Message Content or Message Media Status";
   "Security or Policy Status"]%string.
Definition DSN_STRINGS_DETAIL : list (list string) :=
  [[""];
   ["Other address status"; "Bad destination mailbox address"; "Bad destination system address";
    "Bad destination mailbox address syntax"; "Destination mailbox address ambiguous";
    "Destination mailbox address valid"; "Mailbox has moved";
    "Bad sender's mailbox address syntax"; "Bad sender's system address"];
   ["Other or undefined mailbox status"; "Mailbox disabled, not accepting messages"; "Mailbox full";
    "Message length exceeds administrative limit"; "Mailing list expansion problem"];
   ["Other or undefined mail system status"; "Mail system full";
    "System not accepting network messages"; "System not capable of selected features";
    "Message too big for system"];
   ["Other or undefined network or routing status"; "No answer from host"; "Bad connection";
    "Routing server failure"; "Unable to route"; "Network congestion"; "Routing loop detected";
    "Delivery time expired"];
   ["Other or undefined protocol status"; "Invalid command"; "Syntax error"; "Too many recipients";
    "Invalid command arguments"; "Wrong protocol version"];
   ["Other or undefined media error"; "Media not supported"; "Conversion required and prohibited";
    "Conversion required but not supported"; "Conversion with loss performed"; "Conversion failed"];
   ["Other or undefined security status"; "Delivery not authorized, message refused";
    "Mailing list expansion prohibited"; "Security conversion required but not possible";
    "Security features not supported"; "Cryptographic failure";
    "Cryptographic algorithm not supported"; "Message integrity failure"]]%string.
Definition DSN_STRINGS_DETAIL_VALID : list Z := [0; 8; 4; 4; 7; 5; 5; 7].

(** An access to one of the tables; [None] is an access outside of it. *)
Definition table {A} (t : list A) (i : Z) : option A := if i <? 0 then None else t !! Z.to_nat i.

(** [dsn_tostring]: the return value and the three texts; [None] is an access outside of the
    tables. *)
Definition dsn_tostring (d : delivery_status_t) : option (Z * string * string * string) :=
  class ← (if (dsn_class d =? 2) || (dsn_class d =? 4) || (dsn_class d =? 5)
           then Some <$> table DSN_STRINGS_CLASS (dsn_class d) else Some None);
  let in_range := (0 <=? dsn_subject d) && (dsn_subject d <=? 7) in
  subject ← (if in_range then Some <$> table DSN_STRINGS_SUBJECT (dsn_subject d) else Some None);
  detail ← (if in_range then
              valid ← table DSN_STRINGS_DETAIL_VALID (dsn_subject d);
              if (0 <=? dsn_detail d) && (dsn_detail d <=? valid) then
                row ← table DSN_STRINGS_DETAIL (dsn_subject d);
                Some <$> table row (dsn_detail d)
              else Some None
            else Some None);
  match class, subject, detail with
  | Some c, Some s, Some t => Some (0, c, s, t)
  | _, _, _ => Some (-1, "", "", "")%string
  end.

Definition set_dsn (d : Delivery_T) (class subject detail : Z) : Delivery_T :=
  d <| dsn := mkdsn class subject detail |>.

(** ** The worst status *)
Definition dsnuser_worstcase_int (ok temp fail fail_quota : bool) : Z :=
  if temp then DSN_CLASS_TEMP else if fail then DSN_CLASS_FAIL
  else if fail_quota then DSN_CLASS_QUOTA else if ok then DSN_CLASS_OK else DSN_CLASS_NONE.

(** The flags collected over the deliveries; [None] is a node without a delivery. *)
Fixpoint collect_status (l : list (option Delivery_T)) (ok temp fail fail_quota : bool)
    : option (bool * bool * bool * bool) :=
  match l with
  | [] => Some (ok, temp, fail, fail_quota)
  | None :: _ => None
  | Some d :: l =>
      let c := dsn_class (dsn d) in
      if c =? DSN_CLASS_OK then collect_status l true temp fail fail_quota
      else if c =? DSN_CLASS_TEMP then collect_status l ok true fail fail_quota
      else if (c =? DSN_CLASS_FAIL) || (c =? DSN_CLASS_QUOTA) then
        if dsn_subject (dsn d) =? 2 then collect_status l ok temp fail true
        else collect_status l ok temp true fail_quota
      else collect_status l ok temp fail fail_quota
  end.
Definition dsnuser_worstcase_list (L : plist Delivery_T) : option Z :=
  '(ok, temp, fail, fail_quota) ← collect_status (items L) false false false false;
  Some (dsnuser_worstcase_int ok temp fail fail_quota).

(** ** The user database *)
Class AuthDB := {
  (** the number of targets found, and the user and forward lists with them added *)
  auth_check_user_ext : cstr -> list Z -> list cstr -> Z * list Z * list cstr;
  auth_user_exists : cstr -> bool * Z;
  auth_check_userid : Z -> Z;
}.

Section resolve.
Context `{AuthDB}.

(** A look-up of an address in the aliases, with its effect on the delivery. *)
Definition check_ext (d : Delivery_T) (a : cstr) : Delivery_T * Z :=
  let '(n, us, fs) := auth_check_user_ext a (userids d) (forwards d) in
  (d <| userids := us |> <| forwards := fs |>, n).

Definition address_has_alias (d : Delivery_T) : Delivery_T * bool :=
  match address d with
  | None => (d, false)
  | Some a => let '(d, n) := check_ext d a in (d, 0 <? n)
  end.

(** The address without the mailbox part; the outer [None] is a write outside the copy. *)
Definition without_mailbox (a : cstr) : option (option cstr) :=
  '(_, r) ← zap_between a (- code "+"%char) (code "@"%char);
  Some (match r with Some (out, _, _) => Some out | None => None end).

Definition address_has_alias_mailbox (d : Delivery_T) : option (Delivery_T * bool) :=
  match address d with
  | None => Some (d, false)
  | Some a => r ← without_mailbox a;
              Some (match r with
                    | None => (d, false)
                    | Some new => let '(d, n) := check_ext d new in (d, 0 <? n)
                    end)
  end.

Definition add_user (d : Delivery_T) (name : cstr) : Delivery_T * bool :=
  let '(ok, uid) := auth_user_exists name in
  if ok then (d <| userids ::= cons uid |>, true) else (d, false).

Definition address_is_username_mailbox (d : Delivery_T) : option (Delivery_T * bool) :=
  match address d with
  | None => Some (d, false)
  | Some a => r ← without_mailbox a;
              Some (match r with None => (d, false) | Some new => add_user d new end)
  end.

Definition address_is_username (d : Delivery_T) : Delivery_T * bool :=
  match address d with None => (d, false) | Some a => add_user d a end.

(** The next domain the catch-all search tries: a chunk between the at-sign and a dot is
    cut off. *)
Definition next_domain (dom : cstr) : option cstr :=
  dot ← str_index dom "."%char;
  match dot with
  | O => None
  | 1%nat => dot2 ← str_index (drop 2 dom) "."%char; Some (take 1 dom ++ drop (2 + dot2) dom)
  | _ => Some (take 1 dom ++ drop dot dom)
  end.

Fixpoint catchall_loop (fuel : nat) (d : Delivery_T) (dom : cstr) : option (Delivery_T * bool) :=
  match fuel with
  | O => None
  | S fuel' =>
      let '(d, n) := check_ext d dom in
      if 0 <? n then Some (d, true)
      else match next_domain dom with
           | None => Some (d, false)
           | Some dom' => catchall_loop fuel' d dom'
           end
  end.
Definition address_is_domain_catchall (d : Delivery_T) : option (Delivery_T * bool) :=
  match address d with
  | None => Some (d, false)
  | Some a => match str_index a "@"%char with
              | None => Some (d, false)
              | Some i => let dom := drop i a in catchall_loop (S (length dom)) d dom
              end
  end.

Definition address_is_userpart_catchall (d : Delivery_T) : Delivery_T * bool :=
  match address d with
  | None => (d, false)
  | Some a => match str_index a "@"%char with
              | None => (d, false)
              | Some i => let '(d, n) := check_ext d (take (S i) a) in (d, negb (n =? 0))
              end
  end.

(** [dsnuser_resolve]: the delivery with its users, forwards and status, and the return
    value; [None] is undefined behaviour. *)
Definition dsnuser_resolve (d : Delivery_T) : option (Delivery_T * Z) :=
  let valid d := Some (set_dsn d DSN_CLASS_OK 1 5, 0) in
  if negb (d_useridnr d =? 0) then
    let r := auth_check_userid (d_useridnr d) in
    if r =? -1 then Some (set_dsn d DSN_CLASS_TEMP 1 1, 0)
    else if r =? 1 then Some (set_dsn d DSN_CLASS_FAIL 1 1, 0)
    else if r =? 0 then valid (d <| userids ::= cons (d_useridnr d) |>)
    else Some (d, 0)
  else
    a ← address d;
    match a with
    | [] => Some (d, -1)
    | _ =>
        let '(d, ok) := address_has_alias d in
        if ok : bool then valid d else
        '(d, ok) ← address_has_alias_mailbox d;
        if ok : bool then valid d else
        let '(d, ok) := address_is_username d in
        if ok : bool then valid d else
        '(d, ok) ← address_is_username_mailbox d;
        if ok : bool then valid d else
        '(d, ok) ← address_is_domain_catchall d;
        if ok : bool then valid d else
        let '(d, ok) := address_is_userpart_catchall d in
        if ok : bool then valid d else Some (set_dsn d DSN_CLASS_FAIL 1 1, 0)
    end.

(** [dsnuser_resolve_list]: it stops at the first delivery that cannot be resolved. *)
Fixpoint resolve_items (l : list (option Delivery_T)) : option (list (option Delivery_T) * Z) :=
  match l with
  | [] => Some ([], 0)
  | None :: l => Some (None :: l, -1)
  | Some d :: l =>
      '(d, r) ← dsnuser_resolve d;
      if r =? 0 then '(l, r) ← resolve_items l; Some (Some d :: l, r) else Some (Some d :: l, r)
  end.
Definition dsnuser_resolve_list (L : plist Delivery_T) : option (plist Delivery_T * Z) :=
  '(l, r) ← resolve_items (items L); Some (mkplist l (pos L), r).

End resolve.

(** ** Theorems *)

Lemma table_Some {A} (t : list A) i : is_Some (table t i) <-> 0 <= i < Z.of_nat (length t).
Proof.
  unfold table. destruct (i <? 0) eqn:E; to_prop.
  - split; [by intros []|lia].
  - rewrite lookup_lt_is_Some. lia.
Qed.

(** The tables belong together. *)
Lemma dsn_tables s :
  0 <= s <= 7 ->
  exists subj v row, table DSN_STRINGS_SUBJECT s = Some subj /\ table DSN_STRINGS_DETAIL_VALID s = Some v /\
    table DSN_STRINGS_DETAIL s = Some row /\ Z.of_nat (length row) = v + 1.
Proof.
  intros Hs. assert (s = 0 \/ s = 1 \/ s = 2 \/ s = 3 \/ s = 4 \/ s = 5 \/ s = 6 \/ s = 7) as X by lia.
  repeat destruct X as [->|X]; [..|subst s]; eexists _, _, _; split_and!; reflexivity.
Qed.

Lemma dsn_class_text c :
  exists co, (if (c =? 2) || (c =? 4) || (c =? 5) then Some <$> table DSN_STRINGS_CLASS c else Some None)
    = Some co /\ (is_Some co <-> c = 2 \/ c = 4 \/ c = 5).
Proof.
  destruct (c =? 2) eqn:E2; simpl; [to_prop; subst; eexists; split; [done|]; split; eauto|].
  destruct (c =? 4) eqn:E4; simpl; [to_prop; subst; eexists; split; [done|]; split; eauto|].
  destruct (c =? 5) eqn:E5; simpl; [to_prop; subst; eexists; split; [done|]; split; eauto|].
  to_prop. eexists; split; [done|]. split; [by intros []|lia].
Qed.

Lemma dsn_tostring_spec d :
  exists r c s t, dsn_tostring d = Some (r, c, s, t) /\
  (r = 0 <-> (dsn_class d = 2 \/ dsn_class d = 4 \/ dsn_class d = 5) /\
             exists v, table DSN_STRINGS_DETAIL_VALID (dsn_subject d) = Some v /\ 0 <= dsn_detail d <= v).
Proof.
  destruct d as [c s t]. unfold dsn_tostring. cbn [dsn_class dsn_subject dsn_detail].
  destruct (dsn_class_text c) as (co & -> & Hc). cbn [mbind option_bind].
  destruct ((0 <=? s) && (s <=? 7)) eqn:Es.
  - to_prop. destruct (dsn_tables s) as (subj & v & row & -> & Ev & -> & Hl); [lia|]. rewrite Ev. cbn.
    destruct ((0 <=? t) && (t <=? v)) eqn:Et.
    + to_prop. destruct (proj2 (table_Some row t)) as [txt ->]; [lia|]. cbn.
      destruct co as [c0|]; eexists _, _, _, _; (split; [done|]); split; try done.
      * intros _. split; [by apply Hc; eauto|]. by exists v.
      * intros [X _]. apply Hc in X as [? [=]].
    + assert (~ (0 <= t <= v)) as Hn by (intros X; apply andb_false_iff in Et as [Et|Et]; bool_lia).
      destruct co; eexists _, _, _, _; (split; [done|]); (split; [done|]);
        intros (_ & v' & [= <-] & X); lia.
  - assert (table DSN_STRINGS_DETAIL_VALID s = None) as ->.
    { destruct (table DSN_STRINGS_DETAIL_VALID s) eqn:E; [|done].
      assert (0 <= s < 8) by (by apply (proj1 (table_Some DSN_STRINGS_DETAIL_VALID s)); eexists).
      apply andb_false_iff in Es as [Es|Es]; bool_lia. }
    cbn. destruct co; eexists _, _, _, _; (split; [done|]); (split; [done|]); by intros (_ & v' & [=] & _).
Qed.

(** Every access to the text tables is inside them, for every status code, and the
    return value is 0 exactly for the codes that RFC 1893 defines. *)
Theorem dsn_tostring_total d :
  exists r c s t, dsn_tostring d = Some (r, c, s, t) /\
  (r = 0 <-> (dsn_class d = 2 \/ dsn_class d = 4 \/ dsn_class d = 5) /\
             exists v, table DSN_STRINGS_DETAIL_VALID (dsn_subject d) = Some v /\ 0 <= dsn_detail d <= v).
Proof. apply dsn_tostring_spec. Qed.

(** Each domain the search tries is shorter than the one before. *)
Lemma next_domain_shorter dom dom' : next_domain dom = Some dom' -> (length dom' < length dom)%nat.
Proof.
  unfold next_domain. destruct (str_index dom "."%char) as [dot|] eqn:E; simpl; [|done].
  apply str_index_Some in E as [E _]. apply lookup_lt_Some in E.
  destruct dot as [|[|dot]]; [done| |].
  - destruct (str_index (drop 2 dom) "."%char) as [dot2|] eqn:E2; simpl; [|done]. intros [= <-].
    apply str_index_Some in E2 as [E2 _]. apply lookup_lt_Some in E2. rewrite length_drop in E2.
    rewrite length_app, length_take, length_drop. lia.
  - intros [= <-]. rewrite length_app, length_take, length_drop. lia.
Qed.

Section resolve_facts.
Context `{AuthDB}.

(** The catch-all search ends: the fuel is more than the tries that are possible. *)
Lemma catchall_loop_total fuel d dom :
  (length dom < fuel)%nat -> exists d' ok, catchall_loop fuel d dom = Some (d', ok) /\ dsn d' = dsn d.
Proof.
  revert d dom. induction fuel as [|fuel IH]; intros d dom Hf; [lia|]. simpl.
  unfold check_ext. destruct (auth_check_user_ext dom (userids d) (forwards d)) as [[n us] fs].
  destruct (0 <? n); [by eexists _, _|].
  destruct (next_domain dom) as [dom'|] eqn:En; [|by eexists _, _].
  apply next_domain_shorter in En. destruct (IH (d <| userids := us |> <| forwards := fs |>) dom')
    as (d' & ok & -> & Hd); [lia|]. by eexists _, _.
Qed.

Lemma domain_catchall_total d :
  exists d' ok, address_is_domain_catchall d = Some (d', ok) /\ dsn d' = dsn d.
Proof.
  unfold address_is_domain_catchall. destruct (address d) as [a|]; [|by eexists _, _].
  destruct (str_index a "@"%char); [|by eexists _, _]. apply catchall_loop_total. lia.
Qed.

(** The mailbox part can be cut out of every address in which no plus sign stands behind the
    last at-sign. *)
Definition plus_before_at (a : cstr) : Prop :=
  forall i j, str_index a "+"%char = Some i -> str_rindex a "@"%char = Some j -> (i <= j)%nat.

Lemma without_mailbox_total a : plus_before_at a -> exists r, without_mailbox a = Some r.
Proof.
  intros Hp. unfold without_mailbox, zap_between.
  change (ascii_of_code (Z.abs (- code "+"%char))) with "+"%char.
  change (ascii_of_code (Z.abs (code "@"%char))) with "@"%char.
  change (- code "+"%char <? 0) with true. change (code "@"%char <? 0) with false. cbv iota.
  destruct (str_index a "+"%char) as [i|] eqn:Ei; [|by eexists].
  destruct (str_rindex a "@"%char) as [j|] eqn:Ej; [|by eexists].
  specialize (Hp i j Ei Ej). apply str_rindex_Some in Ej as [Ej _]. apply lookup_lt_Some in Ej.
  unfold DmString.poke. rewrite decide_True by (rewrite length_drop, length_app; simpl; lia). by eexists.
Qed.

Lemma check_ext_dsn d a : dsn (check_ext d a).1 = dsn d /\ address (check_ext d a).1 = address d.
Proof. unfold check_ext. by destruct (auth_check_user_ext a (userids d) (forwards d)) as [[n us] fs]. Qed.

Lemma has_alias_keeps d : address (address_has_alias d).1 = address d.
Proof.
  unfold address_has_alias. destruct (address d) as [a|] eqn:E; [|done].
  pose proof (check_ext_dsn d a) as [_ E']. destruct (check_ext d a). simpl in *. congruence.
Qed.

Lemma alias_mailbox_total d a :
  address d = Some a -> plus_before_at a ->
  exists d' ok, address_has_alias_mailbox d = Some (d', ok) /\ address d' = Some a.
Proof.
  intros Ea Hp. unfold address_has_alias_mailbox. rewrite Ea.
  destruct (without_mailbox_total a Hp) as [r ->]. simpl. destruct r as [new|]; [|by eexists _, _].
  pose proof (check_ext_dsn d new) as [_ E']. destruct (check_ext d new). simpl in *.
  eexists _, _. split; [done|]. congruence.
Qed.

Lemma add_user_keeps d n : address (add_user d n).1 = address d.
Proof. unfold add_user. by destruct (auth_user_exists n) as [[] u]. Qed.

Lemma username_mailbox_total d a :
  address d = Some a -> plus_before_at a ->
  exists d' ok, address_is_username_mailbox d = Some (d', ok) /\ address d' = Some a.
Proof.
  intros Ea Hp. unfold address_is_username_mailbox. rewrite Ea.
  destruct (without_mailbox_total a Hp) as [r ->]. simpl. destruct r as [new|]; [|by eexists _, _].
  pose proof (add_user_keeps d new) as E'. destruct (add_user d new). simpl in *.
  eexists _, _. split; [done|]. congruence.
Qed.

Lemma dsnuser_resolve_spec d a :
  d_useridnr d = 0 -> address d = Some a -> a <> [] -> plus_before_at a ->
  exists d', dsnuser_resolve d = Some (d', 0) /\
    (dsn d' = mkdsn DSN_CLASS_OK 1 5 \/ dsn d' = mkdsn DSN_CLASS_FAIL 1 1).
Proof.
  intros Hu Ha Hne Hp. unfold dsnuser_resolve. rewrite Hu, Ha. cbn [Z.eqb negb mbind option_bind].
  destruct a as [|a0 a]; [done|].
  pose proof (has_alias_keeps d) as K1. destruct (address_has_alias d) as [d1 []]; [by eauto|].
  simpl in K1. rewrite Ha in K1.
  destruct (alias_mailbox_total d1 _ K1 Hp) as (d2 & ok2 & -> & K2). cbn [mbind option_bind].
  destruct ok2; [by eauto|].
  unfold address_is_username. rewrite K2. pose proof (add_user_keeps d2 (a0 :: a)) as K3.
  destruct (add_user d2 (a0 :: a)) as [d3 []]; [by eauto|]. simpl in K3. rewrite K2 in K3.
  destruct (username_mailbox_total d3 _ K3 Hp) as (d4 & ok4 & -> & K4). cbn [mbind option_bind].
  destruct ok4; [by eauto|].
  destruct (domain_catchall_total d4) as (d5 & ok5 & -> & _). cbn [mbind option_bind].
  destruct ok5; [by eauto|].
  destruct (address_is_userpart_catchall d5) as [d6 []]; by eauto.
Qed.

(** The resolution of a recipient address terminates without undefined behaviour and
    classifies the address as valid (2.1.5) or as unknown (5.1.1), for every content of the
    user database, if no plus sign stands behind the last at-sign of the address. *)
Theorem dsnuser_resolve_total d a :
  d_useridnr d = 0 -> address d = Some a -> a <> [] -> plus_before_at a ->
  exists d', dsnuser_resolve d = Some (d', 0) /\
    (dsn d' = mkdsn DSN_CLASS_OK 1 5 \/ dsn d' = mkdsn DSN_CLASS_FAIL 1 1).
Proof. apply dsnuser_resolve_spec. Qed.

End resolve_facts.

(** A user database with one user and one domain catch-all. *)
Definition example_auth : AuthDB := {|
  auth_check_user_ext a us fs := if streq a (lit "@.org") then (1, 9 :: us, fs) else (0, us, fs);
  auth_user_exists u := (streq u (lit "john@example.org"), 7);
  auth_check_userid _ := 0;
|}.
#[local] Existing Instance example_auth.

Lemma dsnuser_resolve_total_witness :
  (exists d', dsnuser_resolve (dsnuser_init <| address := Some (lit "john+box@example.org") |>) = Some (d', 0) /\
     (dsn d' = mkdsn DSN_CLASS_OK 1 5 \/ dsn d' = mkdsn DSN_CLASS_FAIL 1 1)) /\
  userids (default dsnuser_init (fst <$> dsnuser_resolve (dsnuser_init <| address := Some (lit "john+box@example.org") |>))) = [7] /\
  userids (default dsnuser_init (fst <$> dsnuser_resolve (dsnuser_init <| address := Some (lit "x@example.org") |>))) = [9].
Proof.
  split; [|split; vm_compute; reflexivity].
  apply (dsnuser_resolve_total (dsnuser_init <| address := Some (lit "john+box@example.org") |>)
           (lit "john+box@example.org")); [reflexivity|reflexivity|discriminate|].
  intros i j Hi Hj. vm_compute in Hi, Hj. simplify_eq. lia.
Defined.

(** An address with a plus sign in its domain part makes the server write behind the end of
    its copy of the address. *)
Lemma resolve_overflow :
  dsnuser_resolve (dsnuser_init <| address := Some (lit "john@example+org") |>) = None.
Proof. vm_compute. reflexivity. Qed.

(** Without any delivery the worst case is no status, not a temporary failure. *)
Lemma worstcase_of_nothing : dsnuser_worstcase_int false false false false = DSN_CLASS_NONE.
Proof. reflexivity. Qed.
