(* ===== verification/ImapText.v ===== *)
(** * dm_misc.c: texts of the IMAP commands

    Parenthesised lists, valid mailbox names, and the patterns of LIST. *)
From S2P Require Import Prelude CLib GLib ClientBase GListUtil MiscText.

Definition AcceptedMailboxnameChars : cstr :=
  lit "abcdefghijklmnopqrstuvwxyzABCDEFGHIJKLMNOPQRSTUVWXYZ0123456789-=/ _.&,+@()[]'#".
Definition IMAP_MAX_MAILBOX_NAMELEN : nat := 255.
Definition MAILBOX_SEPARATOR : ascii := "/".

(** ** Parenthesised lists *)

(** An outer pair of parentheses around a text that is parenthesised itself. *)
Definition double_paren (t : cstr) : bool :=
  bool_decide (4 < length t)%nat && bool_decide (char_at t 0 = "("%char) && bool_decide (last t = Some ")"%char) &&
  bool_decide (char_at t 1 = "("%char) && bool_decide (char_at t (length t - 2) = ")"%char).
(** The loop compares at the length of the first pass, where the text has ended in the second,
    so that one pair is taken away at most. *)
Definition strip_parens (t : cstr) : cstr :=
  if double_paren t then drop 1 (take (length t - 1) t) else t.
Definition dbmail_imap_plist_as_string (l : list cstr) : cstr :=
  strip_parens (lit "(" ++ g_list_join [SP] l ++ lit ")").

(** ** Mailbox names *)
Fixpoint double_slash (s : cstr) : bool :=
  match s with
  | a :: (b :: _) as s' => (bool_decide (a = MAILBOX_SEPARATOR) && bool_decide (b = MAILBOX_SEPARATOR)) || double_slash s'
  | _ => false
  end.
Definition checkmailboxname (s : cstr) : bool :=
  match s with
  | [] => false
  | c :: s' =>
      if bool_decide (IMAP_MAX_MAILBOX_NAMELEN <= length s)%nat then false
      else if negb ((in_set AcceptedMailboxnameChars c || bool_decide (c = "#"%char)) && forallb (in_set AcceptedMailboxnameChars) s') then false
      else if double_slash s then false
      else negb (bool_decide (s = [MAILBOX_SEPARATOR]))
  end.

(** ** Patterns *)

(** The length of the common part of a text and a pattern in front of a separator. *)
Fixpoint common (x : ascii) (s p : cstr) : nat :=
  match s, p with
  | a :: s, b :: p => if bool_decide (a = b) && negb (bool_decide (a = x)) then S (common x s p) else O
  | _, _ => O
  end.
Definition at_sep (x : ascii) (s : cstr) : bool := bool_decide (head s = Some x).

(** The loop of [%] over the text: up to behind the next separator or the end; text that
    repeats the pattern is taken as matched on the way. *)
Fixpoint percent_loop (fuel : nat) (x : ascii) (p s : cstr) : cstr * cstr :=
  match fuel, s with
  | S fuel, _ :: s' =>
      if at_sep x s then (p, s')
      else
        let i := common x s p in
        if bool_decide (0 < i)%nat && (bool_decide (drop i p = []) || (at_sep x (drop i p) && at_sep x (drop i s)))
        then percent_loop fuel x (drop i p) (drop i s)
        else percent_loop fuel x p s'
  | _, _ => (p, s)
  end.

(** Some suffix of the text that is not empty satisfies the test. *)
Fixpoint some_suffix (f : cstr -> bool) (s : cstr) : bool :=
  match s with [] => false | _ :: s' => f s || some_suffix f s' end.

(** [listex_match p s x 0] with a separator of one character. [p8]: the character in front was
    outside of ASCII, and a wildcard stands for itself. *)
Fixpoint listex_match (fuel : nat) (x : ascii) (p8 : bool) (p s : cstr) : bool :=
  match fuel with
  | O => false
  | S fuel =>
      match p with
      | [] => bool_decide (s = [])
      | c :: p' =>
          if negb p8 && bool_decide (c = "%"%char) then
            let '(p, s) := percent_loop (length s) x p' s in
            let p := if at_sep x p then drop 1 p else p in
            match p, s with
            | [], [] => true
            | _ :: _, _ :: _ => listex_match fuel x false p s
            | _, _ => false
            end
          else if negb p8 && bool_decide (c = "*"%char) then
            match p' with [] => true | _ => some_suffix (listex_match fuel x false p') s end
          else if negb p8 && bool_decide (c = x) && at_sep x s then listex_match fuel x p8 p' (drop 1 s)
          else
            match s with
            | d :: s' => if bool_decide (c = d) then listex_match fuel x (192 <? code c) p' s' else false
            | [] => false
            end
      end
  end.
Definition list_match (pattern name : cstr) : bool :=
  listex_match (S (length pattern)) MAILBOX_SEPARATOR false pattern name.
