(* ===== verification/ImapTextFacts.v ===== *)
(** * Patterns of LIST

    [list_match] decides what the wildcards of RFC 3501 mean, for the patterns in which a
    percent sign closes a level of the hierarchy; in others it is wrong in both directions. *)
From S2P Require Import Prelude CLib GLib ClientBase GListUtil MiscText ImapText.

Abbreviation SEP := MAILBOX_SEPARATOR.
Definition STAR : ascii := "*"%char.
Definition PCT : ascii := "%"%char.

(** What a pattern means: a star stands for any text, a percent sign for one without the
    separator, and any other character for itself. *)
Inductive pattern_matches : cstr -> cstr -> Prop :=
| pm_nil : pattern_matches [] []
| pm_star t p s : pattern_matches p s -> pattern_matches (STAR :: p) (t ++ s)
| pm_pct t p s : SEP ∉ t -> pattern_matches p s -> pattern_matches (PCT :: p) (t ++ s)
| pm_char c p s : c <> STAR -> c <> PCT -> pattern_matches p s -> pattern_matches (c :: p) (c :: s).

(** The patterns for which the code is right: no wildcard behind a wildcard, a percent sign in
    front of a separator or at the end, no separator at the end, and ASCII. *)
Definition wildcard (c : ascii) : bool := bool_decide (c = STAR) || bool_decide (c = PCT).
Definition next_ok (c : ascii) (p : cstr) : bool :=
  match p with
  | [] => negb (bool_decide (c = SEP))
  | d :: _ => if bool_decide (c = STAR) then negb (wildcard d) else if bool_decide (c = PCT) then bool_decide (d = SEP) else true
  end.
Fixpoint pattern_ok (p : cstr) : bool :=
  match p with [] => true | c :: p => (code c <=? 192) && next_ok c p && pattern_ok p end.

Lemma some_suffix_spec f s : some_suffix f s = true <-> exists t u, s = t ++ u /\ u <> [] /\ f u = true.
Proof.
  induction s as [|c s IH]; simpl.
  - split; [done|]. intros ([] & [] & ? & ? & ?); done.
  - rewrite orb_true_iff, IH. split.
    + intros [E|(t & u & -> & N & E)]; [by exists [], (c :: s)|by exists (c :: t), u].
    + intros ([|d t] & u & E & N & F); [left; simpl in E; by subst|]. injection E as -> ->. right. eauto.
Qed.
(** A pattern that does not start with a wildcard matches no empty text. *)
Lemma no_empty c p : wildcard c = false -> ~ pattern_matches (c :: p) [].
Proof. unfold wildcard. intros W M. inversion M; subst; rewrite !bool_decide_eq_true_2 in W by done; by rewrite ?orb_true_r in W. Qed.

(** The loop of the percent sign when nothing of the pattern can be matched on the way. *)
Lemma percent_loop_spec p s fuel : (forall s, common SEP s p = O) -> (length s <= fuel)%nat ->
  percent_loop fuel SEP p s =
    match split_at s SEP with Some (_, s') => (p, s') | None => (p, []) end.
Proof.
  intros C. revert s. induction fuel as [|fuel IH]; intros s L.
  { destruct s; [done|simpl in L; lia]. }
  destruct s as [|c s]; [done|]. cbn [percent_loop]. unfold at_sep at 1. cbn [head]. simpl in L.
  case_bool_decide as D.
  - injection D as ->. rewrite (proj2 (split_at_spec (SEP :: s) SEP [] s)); [done|]. split; [done|apply not_elem_of_nil].
  - rewrite C. cbn [Nat.ltb]. rewrite (bool_decide_eq_false_2 (0 < 0)%nat) by lia. cbn [andb]. rewrite IH by lia.
    destruct (split_at s SEP) as [[a b]|] eqn:E.
    + apply split_at_spec in E as [-> N]. rewrite (proj2 (split_at_spec (c :: a ++ SEP :: b) SEP (c :: a) b)); [done|].
      split; [done|]. intros [E|X]%elem_of_cons; [by apply D; rewrite E|done].
    + destruct (split_at (c :: s) SEP) as [[a b]|] eqn:F; [|done]. apply split_at_spec in F as [F N].
      destruct a as [|y a]; [injection F as -> ->; done|]. injection F as -> ->.
      assert (split_at (a ++ SEP :: b) SEP = Some (a, b)) as G; [|congruence]. apply split_at_spec. split; [done|].
      by intros X; apply N; right.
Qed.
Lemma common_sep p s : common SEP s (SEP :: p) = O.
Proof.
  destruct s as [|c s]; [done|]. simpl. by destruct (bool_decide (c = SEP)).
Qed.

Lemma split_at_None s c : split_at s c = None <-> c ∉ s.
Proof. rewrite <-str_index_None. unfold split_at. destruct (str_index s c); by split. Qed.
Lemma last_suffix {A} (t u : list A) x : last (t ++ u) <> Some x -> last u <> Some x.
Proof. intros N E. apply N. by rewrite last_app, E. Qed.
Lemma last_behind {A} (c : A) s x : last (c :: s) <> Some x -> last s <> Some x.
Proof. apply (last_suffix [c]). Qed.

(** What the two wildcards and the plain characters ask of a text. *)
Lemma star_spec p s : pattern_matches (STAR :: p) s <-> exists t u, s = t ++ u /\ pattern_matches p u.
Proof. split; [intros M; inversion M; subst; [eauto|done]|intros (t & u & -> & M); by constructor]. Qed.
Lemma pct_spec p s : pattern_matches (PCT :: p) s <-> exists t u, s = t ++ u /\ SEP ∉ t /\ pattern_matches p u.
Proof. split; [intros M; inversion M; subst; [eauto|done]|intros (t & u & -> & N & M); by constructor]. Qed.
Lemma char_spec c p s : wildcard c = false ->
  pattern_matches (c :: p) s <-> exists s', s = c :: s' /\ pattern_matches p s'.
Proof.
  unfold wildcard. rewrite orb_false_iff, !bool_decide_eq_false. intros [N1 N2].
  split; [intros M; inversion M; subst; eauto; done|intros (s' & -> & M); by constructor].
Qed.
Lemma nil_spec s : pattern_matches [] s <-> s = [].
Proof. split; [by inversion 1|intros ->; constructor]. Qed.

Section Step.
Context (p : cstr) (fuel : nat).
Hypothesis IH : forall s, last s <> Some SEP -> listex_match fuel SEP false p s = true <-> pattern_matches p s.

Lemma step_star s : next_ok STAR p = true -> last s <> Some SEP ->
  listex_match (S fuel) SEP false (STAR :: p) s = true <-> pattern_matches (STAR :: p) s.
Proof.
  intros N L. rewrite star_spec. destruct p as [|d q] eqn:P.
  - cbn. split; [intros _; exists s, []; by rewrite app_nil_r, nil_spec|done].
  - change (some_suffix (listex_match fuel SEP false (d :: q)) s = true <-> (exists t u, s = t ++ u /\ pattern_matches (d :: q) u)).
    rewrite some_suffix_spec. unfold next_ok in N. rewrite bool_decide_eq_true_2 in N by done. apply negb_true_iff in N.
    split; intros (t & u & -> & X).
    + destruct X as [_ X]. apply IH in X; [eauto|by eapply last_suffix].
    + exists t, u. repeat split; [by intros ->; eapply no_empty|]. apply IH; [by eapply last_suffix|done].
Qed.

Lemma step_char c s : wildcard c = false -> (code c <=? 192) = true -> last s <> Some SEP ->
  listex_match (S fuel) SEP false (c :: p) s = true <-> pattern_matches (c :: p) s.
Proof.
  intros W C L. rewrite char_spec by done. apply orb_false_iff in W as [W1 W2]. cbn [listex_match].
  unfold STAR, PCT in *. rewrite W1, W2. cbn [negb andb].
  assert ((192 <? code c) = false) as -> by (apply Z.ltb_ge; by apply Z.leb_le in C).
  destruct s as [|d s].
  - unfold at_sep. cbn [head]. rewrite andb_false_r. split; [done|]. by intros (? & ? & _).
  - unfold at_sep. cbn [head drop]. apply last_behind in L.
    assert ((if bool_decide (c = d) then listex_match fuel SEP false p s else false) = true <->
      exists s', d :: s = c :: s' /\ pattern_matches p s') as X.
    { destruct (decide (c = d)) as [->|D].
      - rewrite bool_decide_eq_true_2, IH by done. split; [eauto|]. by intros (? & [= ->] & ?).
      - rewrite bool_decide_eq_false_2 by done. split; [done|]. by intros (? & [= -> ->] & ?). }
    destruct (decide (c = SEP)) as [->|S1]; [|by rewrite (bool_decide_eq_false_2 (c = SEP))].
    destruct (decide (d = SEP)) as [->|S2]; [by rewrite drop_0|].
    by rewrite (bool_decide_eq_false_2 (Some d = Some SEP)) by congruence.
Qed.
End Step.

Lemma step_pct_end fuel s : last s <> Some SEP ->
  listex_match (S fuel) SEP false [PCT] s = true <-> pattern_matches [PCT] s.
Proof.
  intros L. rewrite pct_spec. cbn [listex_match]. rewrite bool_decide_eq_true_2 by done. cbn [negb andb].
  rewrite percent_loop_spec by (try done; by intros []). destruct (split_at s SEP) as [[a b]|] eqn:E; cbn.
  - apply split_at_spec in E as [-> N]. destruct b as [|y b].
    { exfalso. apply L. by rewrite last_snoc. }
    split; [done|]. intros (t & u & F & T & ->%nil_spec). rewrite app_nil_r in F. exfalso. apply T. rewrite <-F. set_solver.
  - apply split_at_None in E. split; [|done]. intros _. exists s, []. by rewrite app_nil_r, nil_spec.
Qed.
Lemma step_pct_sep q fuel s : q <> [] -> last s <> Some SEP ->
  (forall s, last s <> Some SEP -> listex_match fuel SEP false q s = true <-> pattern_matches q s) ->
  listex_match (S fuel) SEP false (PCT :: SEP :: q) s = true <-> pattern_matches (PCT :: SEP :: q) s.
Proof.
  intros Q L IH. rewrite pct_spec. cbn [listex_match]. rewrite bool_decide_eq_true_2 by done. cbn [negb andb].
  rewrite percent_loop_spec by (intros; apply common_sep || done). destruct (split_at s SEP) as [[a b]|] eqn:E.
  - apply split_at_spec in E as [-> N]. unfold at_sep. cbn. rewrite drop_0.
    destruct b as [|y b]; [by rewrite last_snoc in L|]. destruct q as [|z q]; [done|].
    rewrite (bool_decide_eq_true_2 (Some SEP = Some SEP)) by done. rewrite IH by (by eapply last_behind, last_suffix).
    split.
    + intros M. exists a, (SEP :: y :: b). repeat split; [done|]. apply char_spec; eauto.
    + intros (t & u & F & T & M). apply char_spec in M as (s' & -> & M); [|done].
      assert (split_at (a ++ SEP :: y :: b) SEP = Some (t, s')) as X by (by apply split_at_spec).
      rewrite (proj2 (split_at_spec _ _ a (y :: b))) in X by done. by injection X as -> ->.
  - apply split_at_None in E. cbn. destruct q as [|z q]; [done|]. split; [done|].
    intros (t & u & -> & T & M). apply char_spec in M as (s' & -> & M); [|done]. exfalso. apply E. set_solver.
Qed.

Lemma listex_match_spec fuel p s : (length p < fuel)%nat -> pattern_ok p = true -> last s <> Some SEP ->
  listex_match fuel SEP false p s = true <-> pattern_matches p s.
Proof.
  revert p s. induction fuel as [fuel IH] using lt_wf_ind. intros p s F O L.
  destruct fuel as [|fuel]; [lia|]. destruct p as [|c p].
  { cbn. by rewrite bool_decide_eq_true, nil_spec. }
  cbn [pattern_ok] in O. rewrite !andb_true_iff in O. destruct O as [[C N] O]. cbn [length] in F.
  assert (forall s, last s <> Some SEP -> listex_match fuel SEP false p s = true <-> pattern_matches p s) as H.
  { intros. apply IH; [lia|lia|done|done]. }
  destruct (wildcard c) eqn:W; [|by apply step_char]. unfold wildcard in W.
  apply orb_true_iff in W as [W|W]; apply bool_decide_eq_true in W as ->; [by apply step_star|].
  destruct p as [|d q]; [by apply step_pct_end|]. cbn [next_ok] in N.
  rewrite (bool_decide_eq_false_2 (PCT = STAR)), (bool_decide_eq_true_2 (PCT = PCT)) in N by done.
  apply bool_decide_eq_true in N as ->.
  cbn [pattern_ok] in O. rewrite !andb_true_iff in O. destruct O as [[C' N] O]. cbn [length] in *.
  apply step_pct_sep; [by intros ->|done|].
  intros. apply IH; [lia|lia|done|done].
Qed.

(** The patterns clients use: [pattern_ok] holds for what lists a level or a whole tree. *)
Definition example_pattern : cstr := lit "INBOX/%/archive/*".

(** C37. [list_match] agrees with the meaning of the wildcards, for an ASCII pattern in which no
    wildcard follows a star, each percent sign closes a level, and which does not end in the
    separator, and for names that do not end in the separator. *)
Theorem list_match_spec (p name : cstr) :
  pattern_ok p = true -> last name <> Some MAILBOX_SEPARATOR ->
  list_match p name = true <-> pattern_matches p name.
Proof. intros O L. unfold list_match. apply listex_match_spec; [lia|done|done]. Qed.

Lemma list_match_spec_witness :
  pattern_matches example_pattern (lit "INBOX/lists/archive/2024/may") /\
  ~ pattern_matches example_pattern (lit "INBOX/lists/old/archive/2024").
Proof.
  split.
  - apply list_match_spec; [by vm_compute|by vm_compute|by vm_compute].
  - intros M. apply list_match_spec in M; [by vm_compute in M|by vm_compute|by vm_compute].
Defined.

(** Outside of these patterns the percent sign is wrong in both directions: text in front of the
    match is forgotten together with what follows it ... *)
Lemma percent_accepts_too_much :
  list_match (lit "%b") (lit "abx") = true /\ ~ pattern_matches (lit "%b") (lit "abx").
Proof.
  split; [by vm_compute|]. intros M. apply pct_spec in M as (t & u & E & _ & M).
  apply char_spec in M as (s' & -> & ->%nil_spec); [|done].
  assert (last (lit "abx") = Some "b"%char) as X by (by rewrite E, last_snoc). done.
Qed.
(** ... and a match that needs the percent sign to stop inside of a level is not found. *)
Lemma percent_accepts_too_little :
  list_match (lit "%b%") (lit "abc") = false /\ pattern_matches (lit "%b%") (lit "abc").
Proof.
  split; [by vm_compute|]. apply (pm_pct (lit "a") (lit "b%") (lit "bc")); [set_solver|].
  apply pm_char; [done|done|]. apply (pm_pct (lit "c") [] []); [set_solver|constructor].
Qed.
