(* ===== verification/Mime.v ===== *)
(** * dm_misc.c: MIME structures, envelopes and parts as IMAP shows them

    GMime parses a message into a tree of objects. The tree is data here: an object is what the
    accessors of GMime answer about it. The functions of dm_misc.c that turn the tree into the
    texts of BODYSTRUCTURE, ENVELOPE and BODY[...] are those of the source. *)
From S2P Require Import Prelude CLib GLib ClientBase GListUtil MiscText ImapText.

(** ** What GMime yields *)
Record content_type := mktype { type_name : cstr; subtype : cstr; type_params : option (list (cstr * cstr)) }.

(** What the accessors of an object answer. *)
Record mime_info := mkmime {
  ctype : option content_type;      (** g_mime_object_get_content_type *)
  headers : list (cstr * cstr);     (** g_mime_object_get_header *)
  content_id : option cstr;
  header_text : cstr;               (** g_mime_object_get_headers *)
  body_text : option cstr;          (** g_mime_object_get_body *)
  whole_text : cstr;                (** g_mime_object_to_string *)
  boundary : option cstr;           (** of a multipart: g_mime_multipart_get_boundary, *)
  prologue : option cstr;           (** g_mime_multipart_get_prologue, *)
  epilogue : option cstr;           (** g_mime_multipart_get_epilogue *)
}.
Inductive gmime :=
  | GMessage (i : mime_info) (message_id : option cstr) (part : option gmime)
  | GMessagePart (i : mime_info) (message : option gmime)
  | GMultipart (i : mime_info) (parts : list gmime)
  | GPart (i : mime_info).
Definition info (o : gmime) : mime_info :=
  match o with GMessage i _ _ | GMessagePart i _ | GMultipart i _ | GPart i => i end.

(** An address is a group with a name, or a mailbox with a name and an address. *)
Inductive address :=
  | Group (name : cstr) (members : list address)
  | Mailbox (name : option cstr) (addr : cstr).

Class GMimeLib := {
  g_mime_content_disposition_parse : cstr -> cstr * option (list (cstr * cstr));
  internet_address_list_parse : cstr -> option (list address);
}.

Definition is_type (t : content_type) (ty sub : string) : bool :=
  strcaseeq (type_name t) (lit ty) && (streq (lit sub) (lit "*") || strcaseeq (subtype t) (lit sub)).
Definition object_is (o : option gmime) (ty sub : string) : bool :=
  match o with Some o => match ctype (info o) with Some t => is_type t ty sub | None => false end | None => false end.
Definition g_mime_object_get_header (i : mime_info) (name : string) : option cstr :=
  snd <$> find (fun h => strcaseeq h.1 (lit name)) (headers i).
Definition g_mime_message_get_mime_part (o : gmime) : option gmime := match o with GMessage _ _ p => p | _ => None end.
Definition g_mime_message_part_get_message (o : gmime) : option gmime := match o with GMessagePart _ m => m | _ => None end.
Definition g_mime_multipart_get_part (o : gmime) (i : Z) : option gmime :=
  match o with
  | GMultipart _ l => if (0 <=? i) && (i <? Z.of_nat (length l)) then l !! Z.to_nat i else None
  | _ => None
  end.

(** ** Texts *)
Definition NIL : cstr := lit "NIL".
Definition dquoted (t : cstr) : cstr := DQUOTE :: t ++ [DQUOTE].

(** [g_strdelimit] with one new character, and [dm_pack_spaces]. *)
Definition g_strdelimit (set : cstr) (new : ascii) (s : cstr) : cstr := (fun c => if in_set set c then new else c) <$> s.
Fixpoint pack_char (s : cstr) (c : ascii) : cstr :=
  match s with
  | a :: s' => if bool_decide (a = c) && bool_decide (head s' = Some c) then pack_char s' c else a :: pack_char s' c
  | [] => []
  end.
Definition dm_pack_spaces (s : cstr) : cstr := pack_char (g_strdelimit [TAB] SP s) SP.

(** [dbmail_imap_plist_collapse]: the blank between two lists is left out. *)
Fixpoint dbmail_imap_plist_collapse (t : cstr) : cstr :=
  match t with
  | a :: ((b :: c :: t') as u) =>
      if bool_decide (a = ")"%char) && bool_decide (b = SP) && bool_decide (c = "("%char)
      then a :: c :: dbmail_imap_plist_collapse t'
      else a :: dbmail_imap_plist_collapse u
  | a :: u => a :: dbmail_imap_plist_collapse u
  | [] => []
  end.

(** ** Fields of a body structure *)

(** What a function appends to its list. *)
Definition params_text (l : list (cstr * cstr)) : cstr :=
  dbmail_imap_plist_as_string (flat_map (fun p => [dquoted p.1; dquoted p.2]) l).
Definition imap_append_header_as_string (i : mime_info) (header : string) : list cstr :=
  match g_mime_object_get_header i header, ctype i with
  | None, _ => [NIL]
  | Some _, None => []
  | Some _, Some t =>
      [dquoted (type_name t); dquoted (subtype t)] ++
      match type_params t with None => [] | Some [] => [NIL] | Some l => [params_text l] end
  end.
Definition imap_append_header_value (i : mime_info) (header : string) (def : cstr) : list cstr :=
  [match g_mime_object_get_header i header with Some v => dquoted v | None => def end].

Section mime.
Context `{GLibStr} `{GMimeLib}.

Definition imap_append_disposition_as_string (i : mime_info) : list cstr :=
  match g_mime_object_get_header i "Content-Disposition" with
  | None => [NIL]
  | Some h =>
      match g_mime_content_disposition_parse h with
      | (_, None) => []
      | (_, Some []) => [lit "(" ++ dquoted h ++ lit " NIL)"]
      | (d, Some l) => [lit "(" ++ dquoted d ++ SP :: params_text l ++ lit ")"]
      end
  end.

(** The size with line ends of two characters, and the lines. *)
Fixpoint part_sizes (v : cstr) (prev : ascii) (s l : Z) : Z * Z :=
  match v with
  | [] => (s, l)
  | c :: v =>
      let lf := bool_decide (c = LF) in
      part_sizes v c (if lf && negb (bool_decide (prev = CR)) then s + 1 else s) (if lf then l + 1 else l)
  end.
Definition imap_part_get_sizes (i : mime_info) : Z * Z :=
  match body_text i with None => (0, 0) | Some v => part_sizes v NUL (strlen v) 1 end.
(** A [size_t] that is printed with %d. *)
Definition dec_size (z : Z) : cstr := sdec_of (to_int32 z).

(** ** Addresses *)

(** [imap_cleanup_address]: quotes are put around encoded words. The loop looks at all but the
    last character. *)
Record cleanup_state := mkcleanup { incode : bool; inquote : bool; cprev : ascii; cout : cstr }.
Fixpoint cleanup_loop (s : cstr) (z : cleanup_state) : cleanup_state :=
  match s with
  | c :: ((next :: rest) as s') =>
      if incode z && (bool_decide (c = DQUOTE) || bool_decide (c = SP)) then cleanup_loop s' z
      else
        let inquote := if bool_decide (c = DQUOTE) then negb (inquote z) else inquote z in
        let encoded := bool_decide (c = "="%char) && bool_decide (next = "?"%char) && negb (incode z) in
        let opens := encoded && negb (bool_decide (cprev z = DQUOTE)) && negb inquote in
        let incode := incode z || encoded in
        let inquote := inquote || opens in
        let out := cout z ++ (if opens then [DQUOTE] else []) ++ [c] in
        let closes := inquote && incode && bool_decide (cprev z = "?"%char) && bool_decide (c = "="%char) &&
                      in_set [DQUOTE; SP; "<"%char] next in
        if closes then
          let quote := negb (bool_decide (next = DQUOTE)) &&
                       match rest with n2 :: _ => negb (bool_decide (n2 = "="%char)) | [] => false end in
          cleanup_loop s'
            (mkcleanup false (if quote then false else inquote) c
               (out ++ (if quote then [DQUOTE] else []) ++ (if bool_decide (next = "<"%char) then [SP] else [])))
        else cleanup_loop s' (mkcleanup incode inquote c out)
  | _ => mkcleanup (incode z) (inquote z) (cprev z) (cout z ++ s)
  end.
(** The semicolons in front of the first colon become commas. *)
Fixpoint semicolons (s : cstr) : cstr :=
  match s with
  | [] => []
  | c :: s' => if bool_decide (c = ":"%char) then s else (if bool_decide (c = ";"%char) then ","%char else c) :: semicolons s'
  end.
(** White space alone leaves no character, and the loop runs out of the text: [None]. *)
Definition imap_cleanup_address (a : cstr) : option cstr :=
  match a with
  | [] => Some []
  | _ =>
      let t := dm_pack_spaces (g_strdelimit [LF] SP a) in
      match g_strstrip t with
      | [] => None
      | (c :: _) as inptr =>
          let z := cleanup_loop inptr (mkcleanup false false c []) in
          let s := if incode z && inquote z then cout z ++ [DQUOTE] else cout z in
          let s := if bool_decide (last s = Some ";"%char) then take (length s - 1) s else s in
          Some (semicolons s)
      end
  end.

(** [dbmail_imap_append_alist_as_plist] *)
Definition address_text (name : option cstr) (addr : cstr) : cstr :=
  let mailbox := g_strstrip (g_strdelimit [DQUOTE] SP addr) in
  let parts := match mailbox with
               | [] => [NIL; NIL]
               | _ => match split_at mailbox "@"%char with
                      | Some (a, b) => [dquoted a; dquoted b]
                      | None => [dquoted mailbox; NIL]
                      end
               end in
  dbmail_imap_plist_as_string
    ([match name with Some (c :: n) => dquoted (c :: n) | _ => NIL end; NIL] ++ parts).
(** The list of a group loses its outer parentheses. *)
Definition lop_parens (s : cstr) : cstr := take (length s - 2) (drop 1 s).
Definition alist_text (p : list cstr) : cstr :=
  match p with
  | [] => NIL
  | _ => lit "(" ++ dbmail_imap_plist_collapse (dbmail_imap_plist_as_string p) ++ lit ")"
  end.
Fixpoint address_items (a : address) : list cstr :=
  match a with
  | Group name members =>
      let s := dbmail_imap_plist_as_string [alist_text (flat_map address_items members)] in
      [lit "(NIL NIL " ++ dquoted name ++ lit " NIL)"] ++
      (if streq s (lit "(NIL)") then [] else [lop_parens s]) ++ [lit "(NIL NIL NIL NIL)"]
  | Mailbox name addr => [address_text name addr]
  end.
Definition dbmail_imap_append_alist_as_plist (l : option (list address)) : cstr :=
  match l with None => NIL | Some l => alist_text (flat_map address_items l) end.

(** ** Envelopes *)
Definition envelope_address_part (i : mime_info) (header : string) : option cstr :=
  match g_mime_object_get_header i header with
  | None => Some NIL
  | Some v => t ← imap_cleanup_address v; Some (dbmail_imap_append_alist_as_plist (internet_address_list_parse t))
  end.
(** The header that stands in for another one. *)
Definition address_or_from (i : mime_info) (header : string) : option cstr :=
  match g_mime_object_get_header i header with
  | Some (_ :: _) => envelope_address_part i header
  | _ => envelope_address_part i "From"
  end.
Definition envelope_message_id (id : option cstr) : cstr :=
  match id with
  | Some t => if bool_decide (strstr t (lit "=") = None) && bool_decide (strstr t (lit "@(none)") = None)
              then dbmail_imap_astring_as_string (lit "<" ++ t ++ lit ">") else NIL
  | None => NIL
  end.
(** The outer option is undefined behaviour, the inner one the NULL of the code. *)
Definition imap_get_envelope (message : option gmime) : option (option cstr) :=
  match message with
  | Some (GMessage i id _) =>
      from ← envelope_address_part i "From";
      sender ← address_or_from i "Sender";
      reply ← address_or_from i "Reply-to";
      to ← envelope_address_part i "To";
      cc ← envelope_address_part i "Cc";
      bcc ← envelope_address_part i "Bcc";
      Some (Some (dbmail_imap_plist_as_string
        (imap_append_header_value i "Date" NIL ++ imap_append_header_value i "Subject" NIL ++
         [from; sender; reply; to; cc; bcc] ++ imap_append_header_value i "In-Reply-to" NIL ++ [envelope_message_id id])))
  | _ => Some None
  end.

(** ** Body structures *)
Definition structure_basic (i : mime_info) : list cstr :=
  imap_append_header_as_string i "Content-Type" ++
  [match content_id i with Some t => dquoted t | None => NIL end] ++
  imap_append_header_value i "Content-Description" NIL ++
  imap_append_header_value i "Content-Transfer-Encoding" (dquoted (lit "7BIT")).
Definition structure_extension (i : mime_info) : list cstr :=
  imap_append_header_as_string i "Content-MD5" ++ imap_append_disposition_as_string i ++
  imap_append_header_as_string i "Content-Language" ++ imap_append_header_as_string i "Content-Location".
Definition multipart_extension (i : mime_info) : cstr :=
  g_list_join [SP] (imap_append_header_as_string i "Content-Type" ++ imap_append_disposition_as_string i ++
    imap_append_header_value i "Content-Description" NIL ++
    imap_append_header_as_string i "Content-Language" ++ imap_append_header_as_string i "Content-Location").

Definition or_nil (t : option cstr) : cstr := default NIL t.

(** [_structure_part_text] and [_structure_part_message], behind the parts of the latter. *)
Definition text_structure (i : mime_info) (t : content_type) (ext : bool) : cstr :=
  let '(s, l) := imap_part_get_sizes i in
  dbmail_imap_plist_as_string (structure_basic i ++ [dec_size s] ++
    (if is_type t "text" "*" then [dec_size l] else []) ++ (if ext then structure_extension i else [])).
Definition message_structure (i : mime_info) (ext : bool) (env structure : option cstr) : cstr :=
  let '(s, l) := imap_part_get_sizes i in
  dbmail_imap_plist_as_string (structure_basic i ++ [dec_size s; or_nil env; or_nil structure; dec_size l] ++
    (if ext then structure_extension i else [])).
(** [imap_get_structure] around the list of its part. *)
Definition outer_structure (l : list cstr) : cstr := dbmail_imap_plist_collapse (dbmail_imap_plist_as_string l).

(** What [_structure_part_handle_part] appends for an object that is no message. *)
Fixpoint part_structure (ext : bool) (o : gmime) : option (list cstr) :=
  match ctype (info o) with
  | None => Some []
  | Some t =>
      if is_type t "multipart" "*" then
        parts ← match o with
                | GMultipart _ l =>
                    (fix children (l : list gmime) : option (list cstr) :=
                       match l with
                       | [] => Some []
                       | p :: l =>
                           a ← match p with
                               | GMessage _ _ (Some p) => part_structure ext p
                               | GMessage _ _ None => Some []
                               | _ => part_structure ext p
                               end;
                           b ← children l;
                           Some (a ++ b)
                       end) l
                | _ => Some []
                end;
        Some [dbmail_imap_plist_as_string (parts ++ if ext then [multipart_extension (info o)] else [])]
      else if is_type t "message" "*" then
        env ← imap_get_envelope (g_mime_message_part_get_message o);
        structure ← match o with
                    | GMessagePart _ (Some (GMessage _ _ (Some p))) =>
                        match ctype (info p) with
                        | None => Some None
                        | Some _ => l ← part_structure ext p; Some (Some (outer_structure l))
                        end
                    | _ => Some None
                    end;
        Some [message_structure (info o) ext env structure]
      else Some [text_structure (info o) t ext]
  end.

Definition imap_get_structure (message : option gmime) (ext : bool) : option (option cstr) :=
  match message with
  | Some (GMessage _ _ (Some p)) =>
      match ctype (info p) with
      | None => Some None
      | Some _ => l ← part_structure ext p; Some (Some (outer_structure l))
      end
  | _ => Some None
  end.
End mime.

(** ** Parts *)

(** [strtol] in base 0, for a text without white space: a leading zero means base 8. *)
Fixpoint digits_base (b acc : Z) (s : cstr) : Z :=
  match s with
  | c :: s => let d := code c - 48 in if (0 <=? d) && (d <? b) then digits_base b (b * acc + d) s else acc
  | [] => acc
  end.
Definition part_index (s : cstr) : Z :=
  wrap32 (Z.min (2 ^ 63 - 1) (if bool_decide (head s = Some "0"%char) then digits_base 8 0 s else digits_base 10 0 s)).

(** [imap_get_partspec]: [last] parts stay what they are, others are opened. *)
Fixpoint partspec_loop (specs : list cstr) (object : option gmime) : option gmime :=
  match specs with
  | [] => object
  | part :: specs =>
      let index := part_index part in
      if index =? 0 then object
      else match object with
           | None => None
           | Some o =>
               let object := match o with GMessage _ _ p => p | _ => object end in
               let object := if object_is object "multipart" "*"
                             then o ← object; g_mime_multipart_get_part o (to_int32 index - 1) else object in
               let object := if object_is object "message" "rfc822" && negb (bool_decide (specs = []))
                             then o ← object; g_mime_message_part_get_message o else object in
               partspec_loop specs object
           end
  end.
Definition imap_get_partspec `{GLibStr} (message : gmime) (partspec : cstr) : option gmime :=
  partspec_loop (match partspec with [] => [] | _ => g_strsplit partspec "."%char end) (Some message).

(** [imap_get_logical_part]: the header, the MIME header, the text, or all of an object. *)
Definition imap_get_logical_part (object : gmime) (specifier : option cstr) : cstr :=
  let rfc822 := object_is (Some object) "message" "rfc822" in
  let asks name := match specifier with Some t => strcaseeq t (lit name) | None => false end in
  let inner := bool_decide (specifier = None) || asks "HEADER"%string || asks "TEXT"%string in
  match (if inner && rfc822 then g_mime_message_part_get_message object else Some object) with
  | None => []
  | Some o =>
      if asks "HEADER"%string || asks "MIME"%string then get_crlf_encoded (header_text (info o)) ++ crlf
      else get_crlf_encoded (if rfc822 then whole_text (info o) else default [] (body_text (info o)))
  end.
