(* ===== verification/MimeFacts.v ===== *)
(** * MIME texts of IMAP: what a client reads back

    A string is read back from its quoted form or its literal; structures and envelopes are
    texts in which quotes are closed and parentheses match. *)
From S2P Require Import Prelude CLib GLib ClientBase GListUtil MiscText ImapText Mime.

(** ** Strings *)

(** How a client reads a string (RFC 3501, 9: quoted and literal). *)
Definition needs_literal (c : ascii) : bool := eight_bit c || in_set [CR; LF; DQUOTE; BACKSLASH] c.
Fixpoint read_quoted (s : cstr) : option (cstr * cstr) :=
  match s with
  | [] => None
  | c :: s => if bool_decide (c = DQUOTE) then Some ([], s)
              else if needs_literal c then None
              else '(t, rest) ← read_quoted s; Some (c :: t, rest)
  end.
Definition read_string (s : cstr) : option (cstr * cstr) :=
  match s with
  | c :: s' =>
      if bool_decide (c = DQUOTE) then read_quoted s'
      else if bool_decide (c = "{"%char) then
        let n := Z.to_nat (strtoull s') in
        t ← (let e := scan_end s' in if bool_decide (take 3 e = lit "}" ++ crlf) then Some (drop 3 e) else None);
        if bool_decide (n <= length t)%nat then Some (take n t, drop n t) else None
      else None
  | [] => None
  end.

Lemma read_quoted_spec t rest : Forall (fun c => needs_literal c = false) t -> read_quoted (t ++ DQUOTE :: rest) = Some (t, rest).
Proof.
  induction 1 as [|c t N F IH]; [done|]. cbn [app read_quoted]. rewrite bool_decide_eq_false_2 by (by intros ->).
  by rewrite N, IH.
Qed.

Lemma read_literal t rest : strlen t < 2 ^ 64 ->
  read_string (lit "{" ++ dec_of (strlen t) ++ lit "}" ++ crlf ++ t ++ rest) = Some (t, rest).
Proof.
  intros L. assert (0 <= strlen t < 2 ^ 64) as R by (unfold strlen in *; lia).
  change (lit "{" ++ dec_of (strlen t) ++ lit "}" ++ crlf ++ t ++ rest) with ("{"%char :: dec_of (strlen t) ++ "}"%char :: crlf ++ t ++ rest).
  cbn [read_string]. rewrite bool_decide_eq_false_2 by done. rewrite bool_decide_eq_true_2 by done.
  rewrite strtoull_dec_app, scan_end_dec by done. cbn [take crlf app]. rewrite bool_decide_eq_true_2 by done.
  cbn [drop mbind option_bind]. rewrite drop_0. unfold strlen. rewrite Nat2Z.id.
  rewrite bool_decide_eq_true_2 by (rewrite length_app; lia). by rewrite take_app_length, drop_app_length.
Qed.

Lemma astring_loop_spec s l prev rest :
  match astring_loop s l prev rest with
  | None => Forall (fun c => needs_literal c = false) rest
  | Some p => p = s \/ p = l
  end.
Proof.
  revert prev. induction rest as [|c rest IH]; intros prev; cbn [astring_loop]; [by constructor|].
  fold (needs_literal c). destruct (needs_literal c) eqn:N.
  - destruct prev; [destruct (_ && _)|]; auto.
  - specialize (IH (Some c)). destruct (astring_loop _ _ _ _); [done|]. by constructor.
Qed.
Lemma astring_body_spec s : astring_body s = s \/ s = DQUOTE :: astring_body s ++ [DQUOTE].
Proof.
  unfold astring_body. destruct (_ && _) eqn:E; [right|by left].
  rewrite !andb_true_iff, !bool_decide_eq_true in E. destruct E as [[E1 E2] E3].
  destruct s as [|c s]; [done|]. cbn in E1. subst c. cbn [tail length].
  destruct s as [|d s] using rev_ind.
  { cbn in E3. done. }
  clear IHs. rewrite length_app. cbn [length]. replace (S (length s + 1) - 2)%nat with (length s) by lia.
  rewrite take_app_length. replace (length (DQUOTE :: s ++ [d]) - 1)%nat with (S (length s)) in E2 by (cbn; rewrite length_app; cbn; lia).
  assert (char_at (DQUOTE :: s ++ [d]) (S (length s)) = d) as X by (unfold char_at; change ((DQUOTE :: s ++ [d]) !! S (length s)) with ((s ++ [d]) !! length s); by rewrite list_lookup_middle).
  rewrite X in E2. by subst.
Qed.

(** What the server sends for a string is read back by a client, as the string or, if the
    string is enclosed in double quotes, possibly as what they enclose. *)
Theorem astring_read (s rest : cstr) : strlen s < 2 ^ 64 ->
  exists t, read_string (dbmail_imap_astring_as_string s ++ rest) = Some (t, rest) /\
    (t = s \/ s = DQUOTE :: t ++ [DQUOTE]).
Proof.
  intros L. destruct s as [|c s']; [by exists []; auto|]. set (s := c :: s') in *.
  change (dbmail_imap_astring_as_string s) with
    (match astring_loop s (astring_body s) None (astring_body s) with
     | Some p => lit "{" ++ dec_of (strlen p) ++ lit "}" ++ crlf ++ p
     | None => DQUOTE :: astring_body s ++ [DQUOTE]
     end).
  pose proof (astring_loop_spec s (astring_body s) None (astring_body s)) as A. pose proof (astring_body_spec s) as B.
  assert (strlen (astring_body s) < 2 ^ 64) as LB.
  { destruct B as [->|E]; [done|]. unfold strlen in *. rewrite E in L. cbn [length] in L. rewrite length_app in L. lia. }
  destruct (astring_loop _ _ _ _) as [p|].
  - exists p. rewrite <-!app_assoc. split; [apply read_literal; by destruct A as [->| ->]|]. destruct A as [->| ->]; auto.
  - exists (astring_body s). cbn [app read_string]. rewrite bool_decide_eq_true_2 by done. rewrite <-app_assoc.
    cbn [app]. rewrite read_quoted_spec by done. split; [done|]. destruct B as [->|B]; auto.
Qed.
Lemma astring_read_witness : exists t,
  read_string (dbmail_imap_astring_as_string (lit "a" ++ [DQUOTE; CR]) ++ lit " NIL") = Some (t, lit " NIL") /\
  (t = lit "a" ++ [DQUOTE; CR] \/ lit "a" ++ [DQUOTE; CR] = DQUOTE :: t ++ [DQUOTE]).
Proof. apply (astring_read (lit "a" ++ [DQUOTE; CR])). reflexivity. Defined.

(** ** Quotes and parentheses *)

(** A client's scan: the depth of parentheses, and whether a quote is open. *)
Fixpoint scan (d : nat) (q : bool) (s : cstr) : option (nat * bool) :=
  match s with
  | [] => Some (d, q)
  | c :: s =>
      if bool_decide (c = BACKSLASH) then None
      else if bool_decide (c = DQUOTE) then scan d (negb q) s
      else if q then scan d q s
      else if bool_decide (c = "("%char) then scan (S d) q s
      else if bool_decide (c = ")"%char) then match d with O => None | S d => scan d q s end
      else scan d q s
  end.
(** Quotes are closed and parentheses match. *)
Definition well_formed (t : cstr) : Prop := scan 0 false t = Some (O, false).
(** A text that changes neither depth nor quote. *)
Definition neutral (t : cstr) : Prop := forall d s, scan d false (t ++ s) = scan d false s.
(** A text that can stand between quotes. *)
Definition plain (t : cstr) : Prop := Forall (fun c => c <> DQUOTE /\ c <> BACKSLASH) t.

Create HintDb mime discriminated.

Lemma neutral_well_formed t : neutral t -> well_formed t.
Proof. intros N. unfold well_formed. by rewrite <-(app_nil_r t), N. Qed.
Lemma neutral_app a b : neutral a -> neutral b -> neutral (a ++ b).
Proof. intros A B d s. by rewrite <-app_assoc, A, B. Qed.
Lemma scan_quoted d t s : plain t -> scan d true (t ++ s) = scan d true s.
Proof.
  induction 1 as [|c t [N1 N2] F IH]; [done|]. cbn [app scan]. by rewrite !bool_decide_eq_false_2 by done.
Qed.
Lemma neutral_dquoted t : plain t -> neutral (dquoted t).
Proof.
  intros P d s. unfold dquoted. cbn [app scan]. rewrite bool_decide_eq_false_2, bool_decide_eq_true_2 by done. cbn [negb].
  rewrite <-app_assoc, scan_quoted by done. cbn [app scan]. by rewrite bool_decide_eq_false_2, bool_decide_eq_true_2 by done.
Qed.
Lemma neutral_word t : Forall (fun c => in_set [DQUOTE; BACKSLASH; "("; ")"]%char c = false) t -> neutral t.
Proof.
  intros F d s. induction F as [|c t N F IH]; [done|]. cbn [app scan]. unfold in_set in N. apply bool_decide_eq_false in N.
  rewrite !bool_decide_eq_false_2 by (intros ->; apply N; set_solver). exact IH.
Qed.
Lemma neutral_paren t : neutral t -> neutral (lit "(" ++ t ++ lit ")").
Proof.
  intros N d s. change (lit "(" ++ t ++ lit ")") with ("("%char :: t ++ lit ")"). cbn [app scan].
  rewrite 2!bool_decide_eq_false_2, bool_decide_eq_true_2 by done. rewrite <-app_assoc, N. cbn.
  done.
Qed.
Lemma neutral_nil : neutral [].
Proof. done. Qed.
Lemma neutral_NIL : neutral NIL.
Proof. apply neutral_word. by repeat constructor. Qed.
Lemma neutral_SP : neutral [SP].
Proof. apply neutral_word. by repeat constructor. Qed.
Lemma digit_neutral c : isdigit c = true -> in_set [DQUOTE; BACKSLASH; "("; ")"]%char c = false.
Proof. intros D. apply bool_decide_eq_false. intros E. rewrite !elem_of_cons in E. destruct_or! E; subst; done || by apply not_elem_of_nil in E. Qed.
Lemma neutral_dec z : 0 <= z < 2 ^ 64 -> neutral (dec_of z).
Proof. intros Z. apply neutral_word. destruct (dec_of_digits z Z) as (F & _). eapply Forall_impl; [exact F|]. apply digit_neutral. Qed.
Lemma neutral_size z : neutral (dec_size z).
Proof.
  unfold dec_size, sdec_of, to_int32, wrap32. pose proof (Z.mod_pos_bound z (2 ^ 32) ltac:(lia)).
  destruct (_ <=? _) eqn:E, (_ <? 0) eqn:F; try (apply neutral_dec; lia).
Qed.
Lemma neutral_join l : Forall neutral l -> neutral (g_list_join [SP] l).
Proof.
  intros [|x l' X F]; [done|]. cbn. revert x X. induction F as [|y m Y F IH]; intros x X; [done|]. cbn [foldl].
  apply IH. change (neutral (x ++ [SP] ++ y)). auto using neutral_app, neutral_SP.
Qed.
Lemma strip_parens_cases t : strip_parens (lit "(" ++ t ++ lit ")") = t \/ strip_parens (lit "(" ++ t ++ lit ")") = lit "(" ++ t ++ lit ")".
Proof.
  unfold strip_parens. destruct (double_paren _); [left|by right].
  change (lit "(" ++ t ++ lit ")") with ("("%char :: t ++ [")"%char]). cbn [length]. rewrite length_app. cbn [length].
  replace (S (length t + 1) - 1)%nat with (S (length t)) by lia. rewrite firstn_cons, take_app_length. reflexivity.
Qed.
Lemma neutral_plist l : Forall neutral l -> neutral (dbmail_imap_plist_as_string l).
Proof.
  intros F%neutral_join. unfold dbmail_imap_plist_as_string. destruct (strip_parens_cases (g_list_join [SP] l)) as [->| ->]; [done|].
  by apply neutral_paren.
Qed.
Lemma scan_cons c u v d q : (forall d q, scan d q u = scan d q v) -> scan d q (c :: u) = scan d q (c :: v).
Proof. intros E. cbn [scan]. repeat case_match; auto. Qed.
(** The blank that is left out between two lists matters neither in nor outside of quotes. *)
Lemma scan_collapse d q t s : scan d q (dbmail_imap_plist_collapse t ++ s) = scan d q (t ++ s).
Proof.
  revert d q. induction t as [t IH] using (induction_ltof1 _ length). unfold ltof in IH. intros d q.
  destruct t as [|a t]; [done|]. destruct t as [|b [|c t]]; [done|..].
  - cbn [dbmail_imap_plist_collapse app scan]. done.
  - change (dbmail_imap_plist_collapse (a :: b :: c :: t)) with
      (if bool_decide (a = ")"%char) && bool_decide (b = SP) && bool_decide (c = "("%char)
       then a :: c :: dbmail_imap_plist_collapse t else a :: dbmail_imap_plist_collapse (b :: c :: t)).
    destruct (_ && _ && _) eqn:E.
    + rewrite !andb_true_iff, !bool_decide_eq_true in E. destruct E as [[-> ->] ->].
      cbn [app scan]. change (bool_decide (SP = BACKSLASH)) with false. change (bool_decide (SP = DQUOTE)) with false.
      destruct q; cbn; [apply IH; cbn; lia|]. destruct d; [done|]. apply IH. cbn; lia.
    + apply (scan_cons a _ ((b :: c :: t) ++ s)). intros. apply IH. cbn. lia.
Qed.
Lemma neutral_collapse t : neutral t -> neutral (dbmail_imap_plist_collapse t).
Proof. intros N d s. by rewrite scan_collapse. Qed.
#[export] Hint Resolve neutral_nil neutral_NIL neutral_SP neutral_size neutral_dquoted neutral_plist neutral_collapse neutral_paren
  neutral_app : mime.

(** ** Structures and envelopes *)

(** Induction over addresses and over objects. *)
Section induction.
Context (P : address -> Prop) (Q : gmime -> Prop).
Hypothesis P_group : forall name l, Forall P l -> P (Group name l).
Hypothesis P_mailbox : forall name addr, P (Mailbox name addr).
Fixpoint address_ind' (a : address) : P a :=
  match a with
  | Group name l => P_group name l
      ((fix all l : Forall P l := match l with [] => Forall_nil_2 _ | a :: l => Forall_cons_2 _ _ _ (address_ind' a) (all l) end) l)
  | Mailbox name addr => P_mailbox name addr
  end.
Hypothesis Q_message : forall i id p, from_option Q True p -> Q (GMessage i id p).
Hypothesis Q_message_part : forall i m, from_option Q True m -> Q (GMessagePart i m).
Hypothesis Q_multipart : forall i l, Forall Q l -> Q (GMultipart i l).
Hypothesis Q_part : forall i, Q (GPart i).
Fixpoint gmime_ind' (o : gmime) : Q o :=
  match o with
  | GMessage i id p => Q_message i id p (match p with Some p => gmime_ind' p | None => I end)
  | GMessagePart i m => Q_message_part i m (match m with Some m => gmime_ind' m | None => I end)
  | GMultipart i l => Q_multipart i l
      ((fix all l : Forall Q l := match l with [] => Forall_nil_2 _ | o :: l => Forall_cons_2 _ _ _ (gmime_ind' o) (all l) end) l)
  | GPart i => Q_part i
  end.
End induction.

Section structures.
Context `{GLibStr} `{GMimeLib}.

(** The texts of an object that are put between quotes as they are. *)
Definition quoted_headers : list string :=
  ["Date"; "Subject"; "In-Reply-to"; "Content-Description"; "Content-Transfer-Encoding"]%string.
Definition address_headers : list string := ["From"; "Sender"; "Reply-to"; "To"; "Cc"; "Bcc"]%string.
Definition plain_params (l : list (cstr * cstr)) : Prop := Forall (fun p => plain p.1 /\ plain p.2) l.
Fixpoint plain_address (a : address) : Prop :=
  match a with
  | Group name l => plain name /\ (fix all l := match l with [] => True | a :: l => plain_address a /\ all l end) l
  | Mailbox name addr => (forall n, name = Some n -> plain n) /\ BACKSLASH ∉ g_strstrip (g_strdelimit [DQUOTE] SP addr) /\
      DQUOTE ∉ g_strstrip (g_strdelimit [DQUOTE] SP addr)
  end.
Record plain_info (i : mime_info) : Prop := {
  plain_header n v : n ∈ quoted_headers -> g_mime_object_get_header i n = Some v -> plain v;
  plain_type t : ctype i = Some t -> plain (type_name t) /\ plain (subtype t) /\ from_option plain_params True (type_params t);
  plain_id t : content_id i = Some t -> plain t;
  plain_disposition h : g_mime_object_get_header i "Content-Disposition" = Some h ->
    plain h /\ plain (g_mime_content_disposition_parse h).1 /\
    from_option plain_params True (g_mime_content_disposition_parse h).2;
  plain_addresses n v t l : n ∈ address_headers -> g_mime_object_get_header i n = Some v ->
    imap_cleanup_address v = Some t -> internet_address_list_parse t = Some l -> Forall plain_address l;
}.
Definition plain_message_id (id : option cstr) : Prop := forall t, id = Some t -> Forall (fun c => needs_literal c = false) t.
Fixpoint plain_tree (o : gmime) : Prop :=
  plain_info (info o) /\
  match o with
  | GMessage _ id p => plain_message_id id /\ match p with Some p => plain_tree p | None => True end
  | GMessagePart _ m => match m with Some m => plain_tree m | None => True end
  | GMultipart _ l => (fix all l := match l with [] => True | p :: l => plain_tree p /\ all l end) l
  | GPart _ => True
  end.

Lemma plain_char c t : c <> DQUOTE -> c <> BACKSLASH -> plain t -> plain (c :: t).
Proof. by constructor. Qed.
Lemma neutral_singleton t : neutral t -> Forall neutral [t].
Proof. by repeat constructor. Qed.
Lemma neutral_params l : plain_params l -> neutral (params_text l).
Proof.
  intros F. unfold params_text. apply neutral_plist. induction F as [|p m [A B] F IH]; [constructor|].
  cbn. constructor; [auto with mime|constructor; auto with mime].
Qed.
Lemma neutral_header i n : plain_info i -> Forall neutral (imap_append_header_as_string i n).
Proof.
  intros P. unfold imap_append_header_as_string. destruct (g_mime_object_get_header i n); [|repeat constructor; auto with mime].
  destruct (ctype i) as [t|] eqn:E; [|constructor]. destruct (plain_type _ P t E) as (A & B & C).
  destruct (type_params t) as [[|p m]|]; repeat constructor; auto with mime. by apply neutral_params.
Qed.
Lemma neutral_value i n def : plain_info i -> n ∈ quoted_headers -> neutral def -> Forall neutral (imap_append_header_value i n def).
Proof.
  intros P I D. unfold imap_append_header_value. destruct (g_mime_object_get_header i n) as [v|] eqn:E; repeat constructor; [|done].
  apply neutral_dquoted. by eapply (plain_header _ P n).
Qed.
Lemma neutral_disposition i : plain_info i -> Forall neutral (imap_append_disposition_as_string i).
Proof.
  intros P. unfold imap_append_disposition_as_string. destruct (g_mime_object_get_header _ _) as [h|] eqn:E; [|repeat constructor; auto with mime].
  destruct (plain_disposition _ P h E) as (A & B & C). destruct (g_mime_content_disposition_parse h) as [d [[|p l]|]]; cbn [fst snd from_option] in *; [apply neutral_singleton..|constructor].
  - change (lit " NIL)") with (lit " NIL" ++ lit ")"). rewrite (app_assoc (dquoted h)). apply neutral_paren, neutral_app; [auto with mime|].
    apply neutral_word. by repeat constructor.
  - change (SP :: params_text (p :: l) ++ lit ")") with (([SP] ++ params_text (p :: l)) ++ lit ")").
    rewrite (app_assoc (dquoted d)). apply neutral_paren. auto using neutral_params with mime.
Qed.

(** *** Addresses *)
Lemma split_plain t c a b : plain t -> split_at t c = Some (a, b) -> plain a /\ plain b.
Proof. intros P E. apply split_at_spec in E as [-> _]. apply Forall_app in P as [A B]. by apply Forall_cons in B as [_ B]. Qed.
Lemma neutral_address_text name addr : plain_address (Mailbox name addr) -> neutral (address_text name addr).
Proof.
  intros (A & B & D). unfold address_text. set (t := g_strstrip _) in *.
  assert (plain t) as P.
  { apply Forall_forall. intros c I. split; intros ->; auto. }
  clearbody t. apply neutral_plist, Forall_app. split.
  - constructor; [|repeat constructor; auto with mime]. destruct name as [[|c n]|]; auto with mime.
  - destruct t as [|c t]; [repeat constructor; auto with mime|]. destruct (split_at (c :: t) "@"%char) as [[a b]|] eqn:E.
    + destruct (split_plain _ _ _ _ P E). repeat constructor; auto with mime.
    + repeat constructor; auto with mime.
Qed.
Lemma neutral_alist p : Forall neutral p -> neutral (alist_text p).
Proof.
  intros F. destruct p as [|x p]; [apply neutral_NIL|]. unfold alist_text. auto with mime.
Qed.
Lemma lop_paren t : lop_parens (lit "(" ++ t ++ lit ")") = t.
Proof.
  unfold lop_parens. change (lit "(" ++ t ++ lit ")") with ("("%char :: t ++ [")"%char]). cbn [length]. rewrite length_app.
  change (drop 1 ("("%char :: t ++ [")"%char])) with (t ++ [")"%char]). cbn [length].
  replace (S (length t + 1) - 2)%nat with (length t) by lia. apply take_app_length.
Qed.
(** The list of a group without its outer parentheses. *)
Lemma alist_lop x p : let t := lop_parens (dbmail_imap_plist_as_string [alist_text (x :: p)]) in
  t = dbmail_imap_plist_collapse (dbmail_imap_plist_as_string (x :: p)) \/ t = alist_text (x :: p).
Proof.
  cbv zeta. change (dbmail_imap_plist_as_string [alist_text (x :: p)]) with (strip_parens (lit "(" ++ alist_text (x :: p) ++ lit ")")).
  destruct (strip_parens_cases (alist_text (x :: p))) as [->| ->]; [left|right]; apply lop_paren.
Qed.
Lemma neutral_lop p : Forall neutral p -> neutral (lop_parens (dbmail_imap_plist_as_string [alist_text p])).
Proof.
  intros F. destruct p as [|x p]; [apply neutral_NIL|].
  destruct (alist_lop x p) as [->| ->]; [auto with mime|by apply neutral_alist].
Qed.

Lemma neutral_items a : plain_address a -> Forall neutral (address_items a).
Proof.
  induction a as [name l IH|name addr] using address_ind'; [|intros A; apply neutral_singleton, neutral_address_text, A].
  intros [N A]. cbn [address_items]. assert (Forall neutral (flat_map address_items l)) as F.
  { induction IH as [|a l IHa _ IH]; [constructor|]. destruct A as [A1 A2]. cbn. apply Forall_app. auto. }
  assert (neutral (lit "(NIL NIL " ++ dquoted name ++ lit " NIL)")) as X1.
  { replace (lit "(NIL NIL " ++ dquoted name ++ lit " NIL)")
      with (lit "(" ++ (lit "NIL NIL " ++ dquoted name ++ lit " NIL") ++ lit ")") by (rewrite <-!app_assoc; reflexivity).
    apply neutral_paren. repeat apply neutral_app; auto with mime; apply neutral_word; by repeat constructor. }
  assert (neutral (lit "(NIL NIL NIL NIL)")) as X2 by (intros d s; reflexivity).
  apply Forall_app. split; [by apply neutral_singleton|]. apply Forall_app. split; [|by apply neutral_singleton].
  destruct (streq _ _); [constructor|]. by apply neutral_singleton, neutral_lop.
Qed.
Lemma neutral_addresses l : Forall plain_address l -> neutral (dbmail_imap_append_alist_as_plist (Some l)).
Proof.
  intros F. apply neutral_alist. induction F as [|a l A F IH]; [constructor|]. cbn. apply Forall_app. split; [by apply neutral_items|done].
Qed.

(** *** Envelopes *)
Lemma neutral_address_part i n t : plain_info i -> n ∈ address_headers -> envelope_address_part i n = Some t -> neutral t.
Proof.
  intros P I E. unfold envelope_address_part in E. destruct (g_mime_object_get_header i n) as [v|] eqn:G; [|injection E as <-; auto with mime].
  destruct (imap_cleanup_address v) as [c|] eqn:C; [|done]. injection E as <-.
  destruct (internet_address_list_parse c) as [l|] eqn:L; [|apply neutral_NIL]. apply neutral_addresses. eauto using plain_addresses.
Qed.
Lemma neutral_or_from i n t : plain_info i -> n ∈ address_headers -> address_or_from i n = Some t -> neutral t.
Proof.
  intros P I E. unfold address_or_from in E.
  destruct (g_mime_object_get_header i n) as [[|c v]|]; eauto using neutral_address_part;
    (eapply neutral_address_part; [exact P| |exact E]); set_solver.
Qed.
Lemma neutral_message_id id : plain_message_id id -> neutral (envelope_message_id id).
Proof.
  intros P. unfold envelope_message_id. destruct id as [t|]; [|auto with mime]. destruct (_ && _); [|auto with mime].
  specialize (P t eq_refl). set (s := lit "<" ++ t ++ lit ">").
  assert (Forall (fun c => needs_literal c = false) s) as F.
  { subst s. repeat (apply Forall_app; split); auto; by repeat constructor. }
  assert (astring_body s = s) as B.
  { destruct (astring_body_spec s) as [X|X]; [exact X|]. exfalso. by apply (f_equal head) in X. }
  change (neutral (match astring_loop s (astring_body s) None (astring_body s) with
    | Some p => lit "{" ++ dec_of (strlen p) ++ lit "}" ++ crlf ++ p | None => dquoted (astring_body s) end)).
  rewrite B. assert (forall prev r, Forall (fun c => needs_literal c = false) r -> astring_loop s s prev r = None) as X.
  { intros prev r G. revert prev. induction G as [|c r N G IH]; intros prev; [done|]. cbn [astring_loop]. fold (needs_literal c). by rewrite N. }
  rewrite X by done. apply neutral_dquoted. eapply Forall_impl; [exact F|]. intros c N. by split; intros ->.
Qed.
Lemma neutral_envelope m t : from_option plain_tree True m -> imap_get_envelope m = Some (Some t) -> neutral t.
Proof.
  intros P E. destruct m as [[i id p| | |]|]; try done. destruct P as [P [Pid _]]. cbn [imap_get_envelope info] in *.
  apply bind_Some in E as (from & E1 & E). apply bind_Some in E as (sender & E2 & E). apply bind_Some in E as (reply & E3 & E).
  apply bind_Some in E as (to & E4 & E). apply bind_Some in E as (cc & E5 & E). apply bind_Some in E as (bcc & E6 & E).
  apply (inj Some), (inj Some) in E as <-. apply neutral_plist.
  assert (forall n, n ∈ address_headers -> forall t, envelope_address_part i n = Some t -> neutral t) as A by eauto using neutral_address_part.
  assert (forall n, n ∈ address_headers -> forall t, address_or_from i n = Some t -> neutral t) as O by eauto using neutral_or_from.
  rewrite !Forall_app. split_and!; try (apply neutral_value; [done|set_solver|auto with mime]).
  - repeat apply Forall_cons_2; [eapply (A "From"%string)|eapply (O "Sender"%string)|eapply (O "Reply-to"%string)
      |eapply (A "To"%string)|eapply (A "Cc"%string)|eapply (A "Bcc"%string)|apply Forall_nil_2]; eauto; set_solver.
  - by apply neutral_singleton, neutral_message_id.
Qed.

(** *** Structures *)
Lemma neutral_basic i : plain_info i -> Forall neutral (structure_basic i).
Proof.
  intros P. unfold structure_basic. rewrite !Forall_app. split_and!; [by apply neutral_header| | |].
  - apply neutral_singleton. destruct (content_id i) as [t|] eqn:E; [|auto with mime]. apply neutral_dquoted. by apply (plain_id _ P).
  - apply neutral_value; [done|set_solver|auto with mime].
  - apply neutral_value; [done|set_solver|]. apply neutral_dquoted. by repeat constructor.
Qed.
Lemma neutral_extension i : plain_info i -> Forall neutral (structure_extension i).
Proof. intros P. unfold structure_extension. rewrite !Forall_app. auto using neutral_header, neutral_disposition. Qed.
Lemma neutral_multipart i : plain_info i -> neutral (multipart_extension i).
Proof.
  intros P. apply neutral_join. rewrite !Forall_app. split_and!; auto using neutral_header, neutral_disposition.
  apply neutral_value; [done|set_solver|auto with mime].
Qed.
Lemma neutral_text i t ext : plain_info i -> neutral (text_structure i t ext).
Proof.
  intros P. unfold text_structure. destruct (imap_part_get_sizes i). apply neutral_plist. rewrite !Forall_app.
  split_and!; [by apply neutral_basic|by apply neutral_singleton, neutral_size| |].
  - destruct (is_type _ _ _); [apply neutral_singleton, neutral_size|constructor].
  - destruct ext; [by apply neutral_extension|constructor].
Qed.
Lemma neutral_or_nil t : from_option neutral True t -> neutral (or_nil t).
Proof. destruct t; [done|intros _; apply neutral_NIL]. Qed.
Lemma neutral_message i ext env structure : plain_info i -> from_option neutral True env -> from_option neutral True structure ->
  neutral (message_structure i ext env structure).
Proof.
  intros P E S. unfold message_structure. destruct (imap_part_get_sizes i). apply neutral_plist. rewrite !Forall_app.
  split_and!; [by apply neutral_basic| |].
  - repeat apply Forall_cons_2; auto using neutral_or_nil, neutral_size.
  - destruct ext; [by apply neutral_extension|constructor].
Qed.
Lemma neutral_outer l : Forall neutral l -> neutral (outer_structure l).
Proof. unfold outer_structure. auto with mime. Qed.
Lemma plain_tree_info o : plain_tree o -> plain_info (info o).
Proof. destruct o; by intros []. Qed.

Definition good_part (ext : bool) (o : gmime) : Prop :=
  forall l, plain_tree o -> part_structure ext o = Some l -> Forall neutral l.
(** Of an object, and of the part of a message. *)
Definition good_object (ext : bool) (o : gmime) : Prop :=
  good_part ext o /\ match o with GMessage _ _ (Some p) => good_part ext p | _ => True end.

Lemma good_multi i parts (ext : bool) : plain_info i -> Forall neutral parts ->
  Forall neutral [dbmail_imap_plist_as_string (parts ++ if ext then [multipart_extension i] else [])].
Proof.
  intros P F. apply neutral_singleton, neutral_plist, Forall_app. split; [done|].
  destruct ext; [by apply neutral_singleton, neutral_multipart|constructor].
Qed.
(** An object that is no container has the fields of its own. *)
Ltac good_leaf t E :=
  destruct (is_type t "multipart" "*");
  [apply (inj Some) in E as <-; by apply (good_multi _ [])|];
  destruct (is_type t "message" "*"); apply (inj Some) in E as <-; apply neutral_singleton;
  [by apply neutral_message|by apply neutral_text].

Lemma good_all ext o : good_object ext o.
Proof.
  induction o as [i id p IH|i m IH|i parts IH|i] using gmime_ind'; split; try exact I.
  - intros l [P _] E. cbn [part_structure info] in E. destruct (ctype i) as [t|] eqn:C; [|injection E as <-; constructor].
    good_leaf t E.
  - destruct p; [apply IH|exact I].
  - intros l [P M] E. cbn [part_structure info] in E. destruct (ctype i) as [t|] eqn:C; [|injection E as <-; constructor].
    destruct (is_type t "multipart" "*"); [apply (inj Some) in E as <-; by apply (good_multi _ [])|].
    destruct (is_type t "message" "*"); [|apply (inj Some) in E as <-; by apply neutral_singleton, neutral_text].
    apply bind_Some in E as (env & E1 & E). apply bind_Some in E as (structure & E2 & E). apply (inj Some) in E as <-.
    apply neutral_singleton, neutral_message; [done| |].
    + destruct env; [|done]. eapply neutral_envelope; [|exact E1]. by destruct m.
    + destruct structure as [s|]; [|done]. destruct m as [[? ? [p|]| | |]|]; try done. destruct M as (_ & _ & M). destruct IH as [_ IH].
      destruct (ctype (info p)); [|done]. apply bind_Some in E2 as (l & E2 & E3). apply (inj Some), (inj Some) in E3 as <-.
      apply neutral_outer. eauto.
  - intros l [P M] E. cbn [part_structure info] in E. destruct (ctype i) as [t|] eqn:C; [|injection E as <-; constructor].
    destruct (is_type t "multipart" "*").
    + apply bind_Some in E as (ps & E1 & E). apply (inj Some) in E as <-. apply good_multi; [done|].
      clear t C. revert ps M E1. induction IH as [|o l [IHo IHp] F IH]; intros ps M E1; [injection E1 as <-; constructor|].
      destruct M as [M1 M2]. apply bind_Some in E1 as (a & E1 & E). apply bind_Some in E as (b & E2 & E). apply (inj Some) in E as <-.
      apply Forall_app. split; [|by apply (IH P b)].
      destruct o as [? ? [p|]| | |]; [destruct M1 as (_ & _ & M1)|injection E1 as <-; constructor|..]; eauto.
    + destruct (is_type t "message" "*"); apply (inj Some) in E as <-; apply neutral_singleton;
        [by apply neutral_message|by apply neutral_text].
  - intros l [P _] E. cbn [part_structure info] in E. destruct (ctype i) as [t|] eqn:C; [|injection E as <-; constructor].
    good_leaf t E.
Qed.

(** C30. In the text of BODY and BODYSTRUCTURE of a message, and in that of ENVELOPE, quotes are
    closed and parentheses match, if no text that is quoted holds a quote or a backslash. *)
Theorem mime_texts_well_formed (m : gmime) (ext : bool) (t : cstr) :
  plain_tree m -> imap_get_structure (Some m) ext = Some (Some t) \/ imap_get_envelope (Some m) = Some (Some t) ->
  well_formed t.
Proof.
  intros P [E|E]; apply neutral_well_formed; [|by eapply neutral_envelope; [|exact E]].
  destruct m as [? ? [p|]| | |]; try done. cbn [imap_get_structure] in E. destruct P as (_ & _ & P).
  destruct (ctype (info p)); [|done]. apply bind_Some in E as (l & E1 & E). apply (inj Some), (inj Some) in E as <-.
  apply neutral_outer. by eapply (good_all ext p).
Qed.
End structures.

(** ** Examples *)
#[local] Existing Instance glib_model.
(** A parser of dispositions and addresses that knows the headers of the examples. *)
#[export] Instance example_mime : GMimeLib := {|
  g_mime_content_disposition_parse h := (h, Some []);
  internet_address_list_parse t := Some [Mailbox (Some (lit "Ann")) t; Group (lit "all") [Mailbox None (lit "bob@host")]];
|}.
Definition example_info (ty sub : string) (params : list (cstr * cstr)) (hs : list (string * cstr)) (body : cstr) : mime_info :=
  mkmime (Some (mktype (lit ty) (lit sub) (Some params)))
    ((lit "Content-Type", lit ty) :: ((fun h => (lit h.1, h.2)) <$> hs)) None (lit "X: 1" ++ [LF]) (Some body) [] None None None.
Definition example_text : gmime := GPart (example_info "text" "plain" [(lit "charset", lit "us-ascii")] [] (lit "one" ++ [LF] ++ lit "two")).
Definition example_inline : gmime := GPart (example_info "image" "png" [] [("Content-Disposition"%string, lit "inline")] (lit "AAAA")).
Definition example_headers (subject : cstr) : mime_info :=
  mkmime None [(lit "From", lit "ann@host"); (lit "Subject", subject)] None [] None [] None None None.
Definition example_message (subject : cstr) (part : gmime) : gmime := GMessage (example_headers subject) (Some (lit "1@host")) (Some part).
Definition example_mixed : gmime :=
  GMultipart (example_info "multipart" "mixed" [(lit "boundary", lit "b")] [] []) [example_text; example_inline].

(** A text with double quotes for its single quotes. *)
Definition with_dquotes (s : string) : cstr := (fun c => if bool_decide (c = "'"%char) then DQUOTE else c) <$> lit s.

(** The text of BODYSTRUCTURE. *)
Lemma example_structure : imap_get_structure (Some (example_message (lit "hello") example_mixed)) true = Some (Some (with_dquotes
  "(('text' 'plain' ('charset' 'us-ascii') NIL NIL '7BIT' 8 2 NIL NIL NIL NIL)('image' 'png' NIL NIL NIL '7BIT' 4 NIL ('inline' NIL) NIL NIL) 'multipart' 'mixed' ('boundary' 'b') NIL NIL NIL NIL)")).
Proof. by vm_compute. Qed.
(** BODY of the same message lacks the outer list and the subtype. *)
Lemma body_of_multipart_is_no_list : imap_get_structure (Some (example_message (lit "hello") example_mixed)) false = Some (Some (with_dquotes
  "('text' 'plain' ('charset' 'us-ascii') NIL NIL '7BIT' 8 2)('image' 'png' NIL NIL NIL '7BIT' 4)")).
Proof. by vm_compute. Qed.
(** A quote in a subject is not escaped, and the envelope is not well formed. *)
Lemma envelope_does_not_escape : exists t,
  imap_get_envelope (Some (example_message (lit "a " ++ DQUOTE :: lit "b") example_text)) = Some (Some t) /\ ~ well_formed t.
Proof. eexists. split; [by vm_compute|]. by vm_compute. Qed.
(** A header of white space only is read out of bounds. *)
Lemma cleanup_of_blank : imap_cleanup_address (lit " ") = None.
Proof. by vm_compute. Qed.
(** A part number with a leading zero is octal. *)
Lemma partspec_is_octal : part_index (lit "010") = 8.
Proof. by vm_compute. Qed.

Ltac plain_text := cbv [plain plain_params from_option type_params snd g_mime_content_disposition_parse example_mime]; first [exact I | refine (bool_decide_unpack _ _); vm_compute; exact I].
Ltac cases_of I := repeat (apply elem_of_cons in I as [-> |I]); [..|by apply not_elem_of_nil in I].
Ltac example_plain_info :=
  constructor;
  [ intros ? ? I E; cases_of I; vm_compute in E; simplify_eq; plain_text
  | intros ? E; vm_compute in E; simplify_eq; split_and!; plain_text
  | intros ? E; vm_compute in E; simplify_eq
  | intros ? E; vm_compute in E; simplify_eq; split_and!; plain_text
  | intros ? ? ? ? I E C L; cases_of I; vm_compute in E; try discriminate E; injection E as <-;
    vm_compute in C; injection C as <-; vm_compute in L; injection L as <-;
    repeat (cbn [plain_address]; first [apply Forall_nil_2 | apply Forall_cons_2 | exact I | split]);
    first [exact I | intros ? E; injection E as <-; plain_text | intros ? E; discriminate E | plain_text] ].
Lemma example_plain : plain_tree (example_message (lit "hello") example_mixed).
Proof.
  split; [example_plain_info|]. split; [intros ? [= <-]; plain_text|].
  split; [example_plain_info|]. split; [split; [example_plain_info|exact I]|]. split; [split; [example_plain_info|exact I]|exact I].
Qed.
Lemma mime_texts_well_formed_witness : exists t,
  imap_get_structure (Some (example_message (lit "hello") example_mixed)) true = Some (Some t) /\ well_formed t.
Proof.
  eexists. split; [exact example_structure|].
  apply (mime_texts_well_formed (example_message (lit "hello") example_mixed) true); [exact example_plain|left; exact example_structure].
Defined.
