(* ===== verification/MessageInit.v ===== *)
(** * dm_message.c: a message is made of a text

    [dbmail_message_init_with_string], which DATA, the delivery from standard input and the
    retrieval of a message from the data base call: the line an mbox puts in front of a message,
    the text that GMime reads, its three attempts to make an object of it, and the text in
    network form. GMime's parser and the setting [allow_invalid_messages] are parameters. *)
From S2P Require Import Prelude CLib GLib ClientBase GListUtil MiscText ImapText Mime.

Class MessageParser := {
  g_mime_parser_construct_message : cstr -> option gmime;  (** on a stream of the text *)
  g_mime_parser_construct_part : cstr -> option gmime;     (** by a parser that made no message of the text *)
  allow_invalid_messages : bool;
  behind : cstr -> cstr;            (** what memory holds behind the terminator of a string *)
}.

Inductive message_class := DBMAIL_MESSAGE | DBMAIL_MESSAGE_PART.
Record DbmailMessage := mkmsg {
  msg_class : message_class;
  msg_stream : cstr;                (** the octets of the stream that GMime reads *)
  msg_content : gmime;
  msg_date : option cstr;           (** the text that the internal date is decoded from *)
  msg_crlf : cstr;
  msg_return_path : option cstr;    (** the header Return-Path, if it was put in front of the others *)
}.
#[export] Instance DbmailMessage_settable : Settable DbmailMessage := fun r =>
  mkmsg (msg_class r) (msg_stream r) (msg_content r) (msg_date r) (msg_crlf r) (msg_return_path r).

Definition FROMLINE : nat := 80.
Definition INVALID_HEADER : cstr := lit "MIME-Version: 1.0" ++ crlf ++ lit "Content-Type: text/plain" ++ crlf ++ crlf.

Section init.
Context `{MessageParser}.

(** The end of the first line, if that looks like a line of an mbox and is short enough. *)
Definition from_line (str : cstr) : option nat :=
  let head := take FROMLINE str in
  if (strneq str (lit "From ") 5 || strneq str (lit " ") 1) && bool_decide (LF ∈ head) then Some (stridx head LF) else None.
Definition from_text (str : cstr) : option cstr := _ ← from_line str; Some (take (FROMLINE - 1) str).
(** A broken first line is skipped. *)
Definition skipped (str : cstr) : nat :=
  match from_line str with Some i => if strneq str (lit " ") 1 then S i else 0 | None => 0 end.
Definition message_text (str : cstr) : cstr := drop (skipped str) str.
(** As many octets are written as the string had before the line was skipped. *)
Definition stream_text (str : cstr) : cstr := message_text str ++ take (skipped str) (NUL :: behind str).

Definition make_message (klass : message_class) (stream : cstr) (content : gmime) (date : option cstr) : DbmailMessage :=
  mkmsg klass stream content date (get_crlf_encoded (whole_text (info content))) None.

(** [None]: there is no object, and the assertion of [dbmail_message_to_string] ends the process. *)
Definition dbmail_message_init_with_string (str : cstr) : option DbmailMessage :=
  let stream := stream_text str in
  match g_mime_parser_construct_message stream with
  | Some content => Some (make_message DBMAIL_MESSAGE stream content (from_text str))
  | None =>
      match g_mime_parser_construct_part stream with
      | Some content => Some (make_message DBMAIL_MESSAGE_PART stream content None)
      | None =>
          if allow_invalid_messages then
            let fixdata := INVALID_HEADER ++ message_text str in
            content ← g_mime_parser_construct_message fixdata;
            Some (make_message DBMAIL_MESSAGE fixdata content (from_text str))
          else None
      end
  end.
Definition dbmail_message_set_header (m : DbmailMessage) (value : option cstr) : DbmailMessage :=
  match value with Some v => m <| msg_return_path := Some v |> | None => m end.

(** GMime makes an object of every text that it is given. *)
Definition parses_all : Prop := forall text, dbmail_message_init_with_string text <> None.

(** Of a text that does not begin with a space GMime is given all octets, and no others. *)
Lemma stream_text_exact str : head str <> Some SP -> stream_text str = str.
Proof.
  intros Hs. assert (skipped str = 0%nat) as E; [|by unfold stream_text, message_text; rewrite E, app_nil_r].
  unfold skipped. destruct (from_line str); [|done]. unfold strneq. destruct str as [|c str]; [done|].
  rewrite bool_decide_eq_false_2; [done|]. intros E. simpl in E. injection E as ->. by apply Hs.
Qed.
(** Of one that does, the first line is skipped and as many octets are read behind the end. *)
Lemma space_reads_behind : stream_text (lit " From" ++ LF :: lit "text") = lit "text" ++ NUL :: take 5 (behind (lit " From" ++ LF :: lit "text")).
Proof. reflexivity. Qed.
End init.
