(* ===== verification/Lmtp.v ===== *)
(** * lmtp.c: the LMTP server

    The tokenizer, the command handler [lmtp] with one definition per command, the delivery
    loop [insert_messages] of dm_message.c that DATA hands the message to, and the event
    handlers. The message is made of the body by [MessageInit.dbmail_message_init_with_string].

    The storage layer and the delivery engine are not modelled here: what they answer to a
    call is the function [answer] of the class [LmtpEnv], which sees the call and all the
    calls before it, and the calls that were made are recorded in [calls]. A NULL pointer
    that is followed and the undefined behaviour of [dsnuser_resolve] set the [fault] flag of
    the connection. *)
From S2P Require Import Prelude CLib GLib ListT ClientBase MiscText GListUtil ImapText Mime MessageInit ClientSession Dsn.

Inductive call :=
| CStore (m : DbmailMessage)                               (** dbmail_message_store *)
| CDeliver (m : DbmailMessage) (address : option cstr) (user : Z) (mailbox : option cstr) (source : Z)
                                                           (** sort_and_deliver *)
| CAutoReply (m : DbmailMessage) (user : Z)                (** execute_auto_ran *)
| CForward (m : DbmailMessage) (to : list cstr) (from : option cstr)
                                                           (** send_forward_list *)
| CDelete (m : DbmailMessage).                             (** db_delete_message *)

Class LmtpEnv := {
  dm_db_ping : bool;
  answer : list call -> call -> Z;
  dbmail_message_get_header : DbmailMessage -> option cstr;  (** the header Return-Path *)
  conf_quota_failure : cstr;
}.

Definition LMTP_LHLO : Z := 0.
Definition LMTP_QUIT : Z := 1.
Definition LMTP_RSET : Z := 2.
Definition LMTP_DATA : Z := 3.
Definition LMTP_MAIL : Z := 4.
Definition LMTP_VRFY : Z := 5.
Definition LMTP_EXPN : Z := 6.
Definition LMTP_HELP : Z := 7.
Definition LMTP_NOOP : Z := 8.
Definition LMTP_RCPT : Z := 9.
Definition LMTP_END : Z := 10.
Definition commands : list cstr :=
  lit <$> ["LHLO"; "QUIT"; "RSET"; "DATA"; "MAIL"; "VRFY"; "EXPN"; "HELP"; "NOOP"; "RCPT"]%string.
Definition MAX_ERRORS : Z := 3.
Definition line (s : string) : cstr := lit s ++ crlf.

(** The texts of HELP: the ten command texts differ in the name of the command only. *)
Definition command_help (name : cstr) : cstr :=
  lit "214-The " ++ name ++ line " command begins a client/server" ++
  line "214-dialogue. The commands MAIL, RCPT and DATA" ++
  line "214-may only be issued after a successful LHLO." ++
  line "214 Syntax: LHLO [your hostname]".
Definition LMTP_HELP_TEXT : list cstr :=
  (command_help <$> commands) ++
  [line "214-This is DBMail-LMTP." ++ line "214-The following commands are supported:" ++
   line "214-LHLO, RSET, NOOP, QUIT, HELP." ++ line "214-VRFY, EXPN, MAIL, RCPT, DATA." ++
   line "214-For more information about a command:" ++ line "214 Use HELP <command>."].

Record lworld := mklworld { session : ClientSession_T; calls : list call }.
#[export] Instance lworld_settable : Settable lworld := fun r => mklworld (session r) (calls r).

(** The index of a command, [LMTP_END] if there is no such command. *)
Definition command_index (command : cstr) : Z :=
  match list_find (fun e => strcaseeq command e = true) commands with
  | Some (i, _) => Z.of_nat i
  | None => LMTP_END
  end.
Definition no_argument (ct : Z) : bool :=
  (ct =? LMTP_LHLO) || (ct =? LMTP_DATA) || (ct =? LMTP_RSET) || (ct =? LMTP_QUIT)
  || (ct =? LMTP_NOOP) || (ct =? LMTP_HELP).

Section lmtp.
Context `{ServerConf} `{GLibStr} `{AuthDB} `{LmtpEnv} `{MessageParser}.

Definition upd (w : lworld) (f : ClientSession_T -> ClientSession_T) : lworld := w <| session ::= f |>.
Definition reply (w : lworld) (f : cstr) (a : list farg) : lworld :=
  upd w (fun s => s <| ci ::= fun c => (ci_write c f a).1 |>).
Definition undefined (w : lworld) : lworld :=
  upd w (fun s => s <| ci ::= fun c => c <| fault := true |> |>).

(** ** Delivery: [insert_messages] *)

(** One call to the storage layer or the delivery engine. *)
Definition perform (tr : list call) (c : call) : list call * Z := (tr ++ [c], answer tr c).

(** The loop over the local users of a delivery; the flags are ok, temp, fail, fail_quota. *)
Fixpoint deliver_users (tr : list call) (m : DbmailMessage) (d : Delivery_T) (users : list Z)
    (ok temp fail fail_quota : bool) : list call * (bool * bool * bool * bool) :=
  match users with
  | [] => (tr, (ok, temp, fail, fail_quota))
  | u :: users =>
      let '(tr, r) := perform tr (CDeliver m (address d) u (mailbox d) (source d)) in
      let '(tr, _) := perform tr (CAutoReply m u) in
      if r =? DSN_CLASS_OK then deliver_users tr m d users true temp fail fail_quota
      else if r =? DSN_CLASS_FAIL then deliver_users tr m d users ok temp true fail_quota
      else if r =? DSN_CLASS_QUOTA then deliver_users tr m d users ok temp fail true
      else deliver_users tr m d users ok true fail fail_quota
  end.

Definition quota_softfail : bool := strcaseeq conf_quota_failure (lit "soft").

(** The final status of a delivery after the local deliveries. *)
Definition final_status (d : Delivery_T) (class : Z) : Delivery_T :=
  if class =? DSN_CLASS_OK then set_dsn d DSN_CLASS_OK 1 5
  else if (class =? DSN_CLASS_TEMP) && bool_decide (0 < length (forwards d))%nat
  then set_dsn d DSN_CLASS_OK 1 5
  else if (class =? DSN_CLASS_TEMP) || (class =? DSN_CLASS_FAIL) then set_dsn d DSN_CLASS_FAIL 1 1
  else if class =? DSN_CLASS_QUOTA then
    set_dsn d (if quota_softfail then DSN_CLASS_TEMP else DSN_CLASS_FAIL) 2 2
  else d.

Definition deliver_one (tr : list call) (m : DbmailMessage) (d : Delivery_T) : list call * Delivery_T :=
  let '(tr, (ok, temp, fail, fail_quota)) := deliver_users tr m d (userids d) false false false false in
  let d := final_status d (dsnuser_worstcase_int ok temp fail fail_quota) in
  if bool_decide (0 < length (forwards d))%nat then
    let '(tr, r) := perform tr (CForward m (forwards d) (dbmail_message_get_header m)) in
    (tr, if negb (r =? 0) then set_dsn d DSN_CLASS_TEMP 1 1 else d)
  else (tr, d).

(** The loop over the recipients; [None] is a node without a delivery. *)
Fixpoint deliver_all (tr : list call) (m : DbmailMessage) (l : list (option Delivery_T))
    : option (list call * list (option Delivery_T)) :=
  match l with
  | [] => Some (tr, [])
  | None :: _ => None
  | Some d :: l =>
      let '(tr, d) := deliver_one tr m d in
      '(tr, l) ← deliver_all tr m l;
      Some (tr, Some d :: l)
  end.

Definition insert_messages (tr : list call) (m : DbmailMessage) (L : plist Delivery_T)
    : option (list call * plist Delivery_T * Z) :=
  let '(tr, result) := perform tr (CStore m) in
  if result =? DM_EQUERY then Some (tr, L, result)
  else
    '(tr, l) ← deliver_all tr m (items L);
    let '(tr, _) := perform tr (CDelete m) in
    Some (tr, mkplist l (pos L), 0).

(** ** Replies and resets *)
Definition send_greeting (w : lworld) : lworld :=
  if negb dm_db_ping
  then upd (reply w (line "500 database has gone fishing BYE") []) (fun s => s <| state := CLIENTSTATE_QUIT |>)
  else match conf_banner with
       | [] => reply w (line "220 %s LMTP") [FS (hostname (session w))]
       | banner => reply w (line "220 %s %s") [FS (hostname (session w)); FS banner]
       end.

Definition lmtp_rset (w : lworld) (reset_state : bool) : lworld :=
  let st := state (session w) in
  upd w (fun s => (client_session_reset s) <| state := if reset_state then CLIENTSTATE_AUTHENTICATED else st |>).

(** [lmtp_error]: all its callers pass a constant text. *)
Definition lmtp_error (w : lworld) (text : cstr) : lworld * Z :=
  if MAX_ERRORS <=? error_count (session w)
  then (upd (reply w (line "500 Too many errors, closing connection.") []) (fun s => s <| SessionResult := 2 |>), -3)
  else
    let w := reply w (default [] (cformat text [])) [] in
    if errored (ci (session w)) then (w, -3)
    else (upd w (fun s => s <| error_count ::= Z.succ |>), -1).

(** ** The tokenizer *)
Definition lmtp_parse (buffer : cstr) : option (cstr * option cstr) := command_words buffer.

(** The start of DATA. *)
Definition data_start (w : lworld) : lworld * Z :=
  if negb (state (session w) =? CLIENTSTATE_AUTHENTICATED) then lmtp_error w (line "550 Command out of sequence")
  else match rcpt (session w) with
       | None => (undefined w, 0)
       | Some L =>
           if bool_decide (p_list_length L < 1)%nat then lmtp_error w (line "503 No valid recipients")
           else if bool_decide (p_list_length (from (session w)) < 1)%nat
           then lmtp_error w (line "554 No valid sender.")
           else (reply w (line "354 Start mail input; end with <CRLF>.<CRLF>") [], 0)
       end.

(** A line of the message. *)
Definition data_line (s : ClientSession_T) (buffer : cstr) : ClientSession_T :=
  if strneq buffer (lit "." ++ [LF]) 2 || strneq buffer (lit "." ++ crlf) 3 then s <| parser_state := true |>
  else if strneq buffer (lit ".") 1 then s <| rbuff ::= fun b => b ++ drop 1 buffer |>
  else s <| rbuff ::= fun b => b ++ buffer |>.

Definition lmtp_tokenizer (w : lworld) (buffer : cstr) : lworld * Z :=
  if command_type (session w) =? 0 then
    let w := upd w (fun s => s <| parser_state := false |>) in
    match lmtp_parse buffer with
    | None => (w, 0)
    | Some (command, value) =>
        let ct := command_index command in
        if ct =? LMTP_END then lmtp_error w (line "500 Invalid command.")
        else if bool_decide (value = None) && negb (no_argument ct)
        then lmtp_error w (line "500 This command requires an argument.")
        else
          let w := upd w (fun s => s <| command_type := ct |>) in
          let w := match value with
                   | Some v => upd w (fun s => s <| args ::= fun L => p_list_append L (Some v) |>)
                   | None => w
                   end in
          if ct =? LMTP_DATA then data_start w
          else (upd w (fun s => s <| parser_state := true |>), 1)
    end
  else if command_type (session w) =? LMTP_DATA then
    let w := upd w (fun s => data_line s buffer) in
    (w, if parser_state (session w) then 1 else 0)
  else (upd w (fun s => s <| parser_state := true |>), 1).

(** ** Commands *)

(** The argument of the command: the list of arguments is rewound. *)
Definition first_arg (w : lworld) : lworld * option cstr :=
  let w := upd w (fun s => s <| args ::= p_list_first |>) in
  (w, p_list_data (args (session w))).

Definition lmtp_quit (w : lworld) : lworld * Z :=
  (upd (reply w (line "221 %s BYE") [FS (hostname (session w))]) (fun s => s <| state := CLIENTSTATE_QUIT |>), 1).
Definition lmtp_noop (w : lworld) : lworld * Z := (reply w (line "250 OK") [], 1).
Definition lmtp_cmd_rset (w : lworld) : lworld * Z := (lmtp_rset (reply w (line "250 OK") []) true, 1).

Definition lmtp_lhlo (w : lworld) : lworld * Z :=
  let w := reply w (line "250-%s" ++ line "250-PIPELINING" ++ line "250-ENHANCEDSTATUSCODES" ++
                    line "250-8BITMIME" ++ line "250-SMTPUTF8" ++ line "250 SIZE")
             [FS (hostname (session w))] in
  (upd w (fun s => client_session_set_timeout
                     ((client_session_reset s) <| state := CLIENTSTATE_AUTHENTICATED |>) conf_timeout), 1).

Definition lmtp_help (w : lworld) : lworld * Z :=
  let '(w, arg) := first_arg w in
  let helpcmd := match arg with None => LMTP_END | Some a => command_index a end in
  let text := default [] (LMTP_HELP_TEXT !! Z.to_nat (if no_argument helpcmd then helpcmd else LMTP_END)) in
  (reply w (lit "%s") [FS text], 1).

Definition lmtp_unimplemented (w : lworld) : lworld * Z := (reply w (line "502 Command not implemented") [], 1).
Definition out_of_sequence (w : lworld) : lworld * Z := (reply w (line "550 Command out of sequence.") [], 1).

(** The text behind the first equals sign that follows the address. *)
Definition mail_body (arg : cstr) (tmppos : nat) : option cstr :=
  i ← strstr (drop tmppos arg) (lit "="); Some (drop (S i) (drop tmppos arg)).

Definition lmtp_mail (w : lworld) : lworld * Z :=
  if negb (state (session w) =? CLIENTSTATE_AUTHENTICATED) then out_of_sequence w
  else if bool_decide (0 < p_list_length (from (session w)))%nat
  then (reply w (line "500 Sender already received. Use RSET to clear.") [], 1)
  else
    let '(w, arg) := first_arg w in
    match arg with
    | None => (w, 1)
    | Some a =>
        match find_bounded a "<"%char ">"%char with
        | None => (reply w (line "500 No address found. Missing <> boundries.") [], 1)
        | Some (tmpaddr, tmppos) =>
            if match mail_body a tmppos with Some b => strcaseeq b (lit "BINARYMIME") | None => false end
            then (reply w (line "500 Please use 7BIT MIME, 8BITMIME or SMTPUTF8.") [], 1)
            else
              let w := reply w (line "250 Sender <%s> OK") [FS tmpaddr] in
              (upd w (fun s => s <| from ::= fun L => p_list_prepend L (Some tmpaddr) |>), 1)
        end
    end.

Definition null_string (s : option cstr) : cstr := default (lit "(null)") s.

Definition lmtp_rcpt (w : lworld) : lworld * Z :=
  if negb (state (session w) =? CLIENTSTATE_AUTHENTICATED) then out_of_sequence w
  else
    let '(w, arg) := first_arg w in
    match arg with
    | None => (w, 1)
    | Some a =>
        match find_bounded a "<"%char ">"%char with
        | None | Some ([], _) =>
            (reply w (line "500 No address found. Missing <> boundries or address is null.") [], 1)
        | Some (tmpaddr, _) =>
            match dsnuser_resolve (dsnuser_init <| ClientSession.address := Some tmpaddr |>) with
            | None => (undefined w, 1)
            | Some (d, r) =>
                let a := FS (null_string (address d)) in
                if negb (r =? 0) then (reply w (line "430 Temporary failure in recipient lookup") [], 1)
                else if dsn_class (dsn d) =? DSN_CLASS_OK then
                  let w := reply w (line "250 Recipient <%s> OK") [a] in
                  match rcpt (session w) with
                  | None => (undefined w, 1)
                  | Some L => (upd w (fun s => s <| rcpt := Some (p_list_append L (Some d)) |>), 1)
                  end
                else (reply w (line "550 Recipient <%s> FAIL") [a], 1)
            end
        end
    end.

(** The reply for one recipient after the delivery. *)
Definition recipient_reply (w : lworld) (dsnuser : option Delivery_T) : lworld :=
  match dsnuser with
  | None => undefined w
  | Some d =>
      match dsn_tostring (dsn d) with
      | None => undefined w
      | Some (_, class, subject, detail) =>
          let code := [FD (dsn_class (dsn d)); FD (dsn_subject (dsn d)); FD (dsn_detail (dsn d));
                       FS (null_string (address d))] in
          if dsn_class (dsn d) =? DSN_CLASS_OK then reply w (line "%d%d%d Recipient <%s> OK") code
          else reply w (line "%d%d%d Recipient <%s> %s %s %s")
                 (code ++ [FS (lit class); FS (lit subject); FS (lit detail)])
      end
  end.

Definition rcpt_list (w : lworld) : plist Delivery_T := default p_list_new (rcpt (session w)).
Definition set_rcpt (w : lworld) (L : plist Delivery_T) : lworld := upd w (fun s => s <| rcpt := Some L |>).

(** The message that is made of the text received. *)
Definition received_message (s : ClientSession_T) : option DbmailMessage :=
  m ← dbmail_message_init_with_string (rbuff s); Some (dbmail_message_set_header m (p_list_data (from s))).
Definition lmtp_data (w : lworld) : lworld * Z :=
  match received_message (session w), rcpt (session w) with
  | None, _ | _, None => (undefined w, 1)
  | Some m, Some L =>
      let w := upd w (fun s => s <| rbuff := [] |>) in
      match insert_messages (calls w) m L with
      | None => (undefined w, 1)
      | Some (tr, L, r) =>
          let w := (set_rcpt w L) <| calls := tr |> in
          if r =? -1 then (reply w (line "430 Message not received") [], 1)
          else
            let w := set_rcpt w (p_list_first L) in
            match walk (R := Empty_set) rcpt_list set_rcpt (length (items L))
                    (fun w d => inl (recipient_reply w d)) w with
            | inl w => (lmtp_rset w true, 1)
            | inr r => match r with end
            end
      end
  end.

Definition lmtp (w : lworld) : lworld * Z :=
  let ct := command_type (session w) in
  if ct =? LMTP_QUIT then lmtp_quit w
  else if ct =? LMTP_NOOP then lmtp_noop w
  else if ct =? LMTP_RSET then lmtp_cmd_rset w
  else if ct =? LMTP_LHLO then lmtp_lhlo w
  else if ct =? LMTP_HELP then lmtp_help w
  else if (ct =? LMTP_VRFY) || (ct =? LMTP_EXPN) then lmtp_unimplemented w
  else if ct =? LMTP_MAIL then lmtp_mail w
  else if ct =? LMTP_RCPT then lmtp_rcpt w
  else if ct =? LMTP_DATA then lmtp_data w
  else lmtp_error w (line "500 What are you trying to say here?").

(** ** Events *)

(** The body of the input loop for one line: the new state, and whether the session goes on. *)
Definition lmtp_line (w : lworld) (buffer : cstr) : lworld * bool :=
  let '(w, l) := lmtp_tokenizer w buffer in
  if l =? 0 then (w, true)
  else if l =? -3 then (upd w client_session_bailout, false)
  else if 0 <? l then
    let '(w, r) := lmtp (upd w (fun s => s <| ci ::= ci_cork |>)) in
    if r =? -3 then (upd w client_session_bailout, false)
    else (upd w (fun s => client_session_reset_parser (s <| ci ::= ci_uncork |>)), true)
  else (upd w client_session_reset_parser, true).

(** [lmtp_handle_input]: every turn consumes a line of the input. A line that fills the buffer
    has no terminator. *)
Fixpoint input_loop (fuel : nat) (w : lworld) : lworld :=
  match fuel with
  | O => w
  | S fuel' =>
      let '(c, buffer) := ci_readln (ci (session w)) in
      let w := upd w (fun s => s <| ci := c |>) in
      match buffer with
      | [] => w
      | _ =>
          let w := if bool_decide (MAX_LINESIZE <= length buffer)%nat then undefined w else w in
          let '(w, go) := lmtp_line w (cstring_of buffer) in
          if go : bool then input_loop fuel' w else w
      end
  end.
Definition lmtp_handle_input (w : lworld) : lworld :=
  input_loop (S (length (unread (ci (session w))))) w.

Definition lmtp_cb_write (w : lworld) : lworld :=
  let st := state (session w) in
  if (st =? CLIENTSTATE_QUIT_QUEUED) || (st =? CLIENTSTATE_QUIT) then w
  else
    let c := ci (session w) in
    if bool_decide (write_buffer_offset c < length (default [] (write_buffer c)))%nat
    then upd w (fun s => s <| ci := (ci_write_msg c None).1 |>)
    else lmtp_handle_input w.

Definition lmtp_cb_time (w : lworld) : lworld :=
  upd (reply w (line "221 Connection timeout BYE") []) client_session_bailout.

Definition lmtp_handle_connection (c : ClientBase_T) (host uid : cstr) : lworld :=
  let w := mklworld (client_session_set_timeout (client_session_new c host uid) conf_login_timeout) [] in
  upd (send_greeting w) (fun s => s <| ci ::= ci_uncork |>).

End lmtp.
