(* ===== verification/LmtpFacts.v ===== *)
(** * Properties of the LMTP server

    The session invariant and the absence of undefined behaviour for every input that fits, the
    transfer of the message text, the replies to DATA, and what a reported status says about
    the deliveries. *)
From S2P Require Import Prelude CLib GLib ListT ClientBase MiscText GListUtil ImapText Mime MessageInit ClientSession Dsn Lmtp.

Section facts.
Context `{ServerConf} `{GLibStrLaws} `{AuthDB} `{LmtpEnv} `{MessageParser}.

(** ** The session invariant *)

(** The session keeps the sender [fs] and the recipients [ds]; a recipient list exists
    once the session is authenticated, and a message is only received when there are both a
    sender and a recipient. *)
Definition txn (s : ClientSession_T) (fs : list cstr) (ds : list Delivery_T) : Prop :=
  holds (from s) fs /\
  match rcpt s with Some L => holds L ds | None => ds = [] /\ state s <> CLIENTSTATE_AUTHENTICATED end /\
  (command_type s = LMTP_DATA -> state s = CLIENTSTATE_AUTHENTICATED /\ fs <> [] /\ ds <> []).
Definition lmtp_inv (s : ClientSession_T) : Prop :=
  (exists xs, holds (args s) xs) /\ exists fs ds, txn s fs ds.

(** A command: the connection makes a step and the invariant is kept. *)
Definition keeps (w w' : lworld) : Prop :=
  io_step (ci (session w)) (ci (session w')) /\
  (lmtp_inv (session w) -> lmtp_inv (session w')).

Lemma keeps_refl w : keeps w w.
Proof. split; [apply io_refl|done]. Qed.
Lemma keeps_trans w1 w2 w3 : keeps w1 w2 -> keeps w2 w3 -> keeps w1 w3.
Proof. intros [A1 A2] [B1 B2]. split; [by eapply io_trans|auto]. Qed.
Lemma keeps_reply w f a : is_Some (cformat f a) -> keeps w (reply w f a).
Proof. intros Hf. split; [by apply io_write|done]. Qed.
Lemma lmtp_keeps_upd w f :
  (forall s, ci (f s) = ci s) -> (forall s, lmtp_inv s -> lmtp_inv (f s)) -> keeps w (upd w f).
Proof. intros Hc Hi. split; [simpl; rewrite Hc; apply io_refl|apply Hi]. Qed.
Lemma keeps_then w w1 w2 : keeps w1 w2 -> keeps w w1 -> keeps w w2.
Proof. intros A B. by eapply keeps_trans. Qed.

(** A reset leaves an empty transaction. *)
Lemma inv_reset s st : lmtp_inv ((client_session_reset s) <| state := st |>).
Proof.
  split; [exists []; apply holds_new|]. exists [], []. split_and!; try apply holds_new. by intros [=].
Qed.

Lemma inv_reset_parser s : lmtp_inv s -> lmtp_inv (client_session_reset_parser s).
Proof.
  intros [_ (fs & ds & T1 & T2 & _)]. split; [exists []; apply holds_new|].
  exists fs, ds. split; [exact T1|]. split; [exact T2|]. by intros [=].
Qed.

Lemma inv_state s st :
  st <> CLIENTSTATE_AUTHENTICATED -> command_type s <> LMTP_DATA -> lmtp_inv s ->
  lmtp_inv (s <| state := st |>).
Proof.
  intros Hst Hct [Ha (fs & ds & T1 & T2 & _)]. split; [exact Ha|]. exists fs, ds.
  split; [exact T1|]. split; [|done]. simpl. destruct (rcpt s); [done|]. by destruct T2.
Qed.

Lemma first_arg_keeps w : keeps w (first_arg w).1.
Proof.
  apply lmtp_keeps_upd; [done|]. intros s [[xs Ha] T]. split; [|exact T].
  exists xs. by apply holds_first.
Qed.

Lemma inv_from s a :
  lmtp_inv s -> lmtp_inv (s <| from ::= fun L => p_list_prepend L (Some a) |>).
Proof.
  intros [Ha (fs & ds & T1 & T2 & T3)]. split; [exact Ha|]. exists (a :: fs), ds.
  split; [by apply prepend_holds|]. split; [exact T2|]. intros Hc.
  destruct (T3 Hc) as (? & _ & ?). done.
Qed.

Lemma inv_rcpt s L d :
  rcpt s = Some L -> lmtp_inv s -> lmtp_inv (s <| rcpt := Some (p_list_append L (Some d)) |>).
Proof.
  intros E [Ha (fs & ds & T1 & T2 & T3)]. rewrite E in T2. split; [exact Ha|]. exists fs, (ds ++ [d]).
  split; [exact T1|]. split; [by apply append_holds|]. intros Hc.
  destruct (T3 Hc) as (? & ? & ?). split_and!; [done..|]. by destruct ds.
Qed.

Lemma keeps_rcpt w L d :
  rcpt (session w) = Some L -> keeps w (upd w (fun s => s <| rcpt := Some (p_list_append L (Some d)) |>)).
Proof. intros E. split; [apply io_refl|]. intros I. by apply inv_rcpt. Qed.

(** The commands whose bodies are a few replies. *)
Ltac replies := repeat first
  [ apply keeps_refl | apply keeps_reply; by eexists
  | eapply keeps_then; [apply keeps_reply; by eexists|] ].

Lemma lmtp_simple_keeps w :
  command_type (session w) <> LMTP_DATA ->
  keeps w (lmtp_quit w).1 /\ keeps w (lmtp_noop w).1 /\ keeps w (lmtp_cmd_rset w).1 /\
  keeps w (lmtp_lhlo w).1 /\ keeps w (lmtp_help w).1 /\ keeps w (lmtp_unimplemented w).1.
Proof.
  intros Hc. split_and!.
  - split; [by apply io_write; eexists|]. intros I.
    apply (inv_state (session (reply w _ _))); [done|exact Hc|exact I].
  - replies.
  - split; [by apply io_write; eexists|]. intros _. exact (inv_reset (session w) CLIENTSTATE_AUTHENTICATED).
  - split; [|intros _; exact (inv_reset (session w) CLIENTSTATE_AUTHENTICATED)].
    refine (io_trans _ _ _ (io_write _ _ _ _) (io_timeout _ _)). by eexists.
  - unfold lmtp_help. pose proof (first_arg_keeps w) as K. destruct (first_arg w) as [w1 arg].
    eapply keeps_trans; [exact K|]. replies.
  - replies.
Qed.

Lemma lmtp_mail_keeps w : keeps w (lmtp_mail w).1.
Proof.
  unfold lmtp_mail. destruct (negb _); [replies|]. destruct (bool_decide _); [replies|].
  pose proof (first_arg_keeps w) as K. destruct (first_arg w) as [w1 arg]. simpl in K.
  eapply keeps_trans; [exact K|]. destruct arg as [a|]; [|replies].
  destruct (find_bounded _ _ _) as [[t p]|]; [|replies].
  destruct (match mail_body a p with Some b => _ | None => _ end); [replies|].
  eapply keeps_then; [apply lmtp_keeps_upd; [done|intros s; apply inv_from]|replies].
Qed.

(** The recipient's address is the text between the bounds of the argument. *)
Definition rcpt_address (w : lworld) (a : cstr) : Prop :=
  exists v p, p_list_data (args (session (first_arg w).1)) = Some v /\
    find_bounded v "<"%char ">"%char = Some (a, p).

Lemma lmtp_rcpt_keeps w :
  lmtp_inv (session w) -> (forall a, rcpt_address w a -> plus_before_at a) -> keeps w (lmtp_rcpt w).1.
Proof.
  intros Hi Hp. unfold lmtp_rcpt. destruct (negb _) eqn:Est; [replies|]. to_prop.
  pose proof (first_arg_keeps w) as K.
  assert (state (session (first_arg w).1) = CLIENTSTATE_AUTHENTICATED) as Est' by exact Est.
  unfold rcpt_address in Hp. destruct (first_arg w) as [w1 arg] eqn:Ea. simpl in K, Hp, Est'.
  assert (arg = p_list_data (args (session w1))) as -> by (unfold first_arg in Ea; congruence).
  eapply keeps_trans; [exact K|]. destruct (p_list_data (args (session w1))) as [v|] eqn:Ev; [|replies].
  destruct (find_bounded v _ _) as [[[|c t] p]|] eqn:Ef; [replies| |replies].
  destruct (dsnuser_resolve_spec (dsnuser_init <| ClientSession.address := Some (c :: t) |>) (c :: t))
    as (d & -> & Hd); [done..|by eapply Hp; eauto|].
  cbn [Z.eqb negb]. cbv iota.
  destruct (dsn_class (dsn d) =? DSN_CLASS_OK); [|replies].
  destruct K as [_ K]. destruct (K Hi) as (_ & fs & ds & _ & T2 & _).
  simpl. destruct (rcpt (session w1)) as [L|] eqn:EL; [|by destruct T2].
  eapply keeps_then; [by apply keeps_rcpt|replies].
Qed.

(** ** Delivery *)

(** The deliveries to a list of recipients, one after the other. *)
Fixpoint deliver_list (tr : list call) (m : DbmailMessage) (ds : list Delivery_T)
    : list call * list Delivery_T :=
  match ds with
  | [] => (tr, [])
  | d :: ds =>
      let '(tr, d) := deliver_one tr m d in
      let '(tr, ds) := deliver_list tr m ds in
      (tr, d :: ds)
  end.

Lemma deliver_all_list tr m ds :
  deliver_all tr m (Some <$> ds) = Some (let '(tr, ds) := deliver_list tr m ds in (tr, Some <$> ds)).
Proof.
  revert tr. induction ds as [|d ds IH]; intros tr; simpl; [done|].
  destruct (deliver_one tr m d) as [tr1 d1]. rewrite IH. by destruct (deliver_list tr1 m ds).
Qed.

Lemma deliver_list_length tr m ds : length (deliver_list tr m ds).2 = length ds.
Proof.
  revert tr. induction ds as [|d ds IH]; intros tr; simpl; [done|].
  destruct (deliver_one tr m d) as [tr1 d1]. specialize (IH tr1).
  destruct (deliver_list tr1 m ds). simpl in *. by rewrite IH.
Qed.

Lemma insert_messages_list tr m L ds :
  holds L ds -> ds <> [] ->
  insert_messages tr m L =
    if answer tr (CStore m) =? DM_EQUERY then Some (tr ++ [CStore m], L, DM_EQUERY)
    else let '(tr', ds') := deliver_list (tr ++ [CStore m]) m ds in
         Some (tr' ++ [CDelete m], mkplist (Some <$> ds') (pos L), 0).
Proof.
  intros [E _] Hne. unfold insert_messages, perform. destruct (_ =? DM_EQUERY) eqn:Er.
  { to_prop. by rewrite Er. }
  assert (items L = Some <$> ds) as -> by (rewrite E; by destruct ds).
  rewrite deliver_all_list. simpl. by destruct (deliver_list _ m ds).
Qed.

(** ** The replies to DATA *)

(** The status line of a recipient. *)
Definition recipient_line (d : Delivery_T) : cstr :=
  let '(class, subject, detail) :=
    match dsn_tostring (dsn d) with Some (_, c, s, t) => (c, s, t) | None => ("", "", "")%string end in
  sdec_of (dsn_class (dsn d)) ++ sdec_of (dsn_subject (dsn d)) ++ sdec_of (dsn_detail (dsn d)) ++
  lit " Recipient <" ++ null_string (address d) ++
  (if dsn_class (dsn d) =? DSN_CLASS_OK then line "> OK"
   else lit "> " ++ lit class ++ lit " " ++ lit subject ++ lit " " ++ lit detail ++ crlf).

Lemma recipient_reply_line w d :
  exists f a, recipient_reply w (Some d) = reply w f a /\ cformat f a = Some (recipient_line d).
Proof.
  unfold recipient_reply, recipient_line.
  destruct (dsn_tostring_spec (dsn d)) as (r & c & s & t & -> & _).
  destruct (dsn_class (dsn d) =? DSN_CLASS_OK); eexists _, _; (split; [done|]); cbn -[sdec_of];
    rewrite ?app_nil_r; unfold line; rewrite <- ?app_assoc; reflexivity.
Qed.

(** From [w] to [w'] the first [n] recipients were answered; the cursor is at node [i]. *)
Definition told (w : lworld) (ds : list Delivery_T) (n i : nat) (w' : lworld) : Prop :=
  rcpt_list w' = mkplist (Some <$> ds) i /\ calls w' = calls w /\
  io_step (ci (session w)) (ci (session w')) /\
  (forall c0 T, plain_io c0 -> replied c0 (ci (session w)) T ->
     replied c0 (ci (session w')) (T ++ concat (recipient_line <$> take n ds))).

Lemma told_next w ds i d w' :
  ds !! i = Some d -> told w ds i i w' -> told w ds (S i) i (recipient_reply w' (Some d)).
Proof.
  intros Hd (E1 & E2 & E3 & E4). destruct (recipient_reply_line w' d) as (f & a & -> & Hf).
  split_and!; [done|done| |].
  - eapply io_trans; [exact E3|]. apply io_write. by eexists.
  - intros c0 T Hp R. rewrite (take_S_r _ _ _ Hd), fmap_app, concat_app. simpl.
    rewrite app_nil_r, app_assoc. apply replied_write; [done|by apply E4|done].
Qed.

(** The walk over the recipients writes their status lines, in their order. *)
Lemma recipient_walk w ds :
  ds <> [] -> rcpt (session w) = Some (mkplist (Some <$> ds) 0) ->
  exists w' i, walk (R := Empty_set) rcpt_list set_rcpt (length ds) (fun w d => inl (recipient_reply w d)) w = inl w' /\
    told w ds (length ds) i w'.
Proof.
  intros Hne Hr. assert (0 < length ds)%nat as Hpos by (destruct ds; [done|simpl; lia]).
  assert (rcpt_list w = mkplist (Some <$> ds) 0) as Hl by (unfold rcpt_list; by rewrite Hr).
  pose proof (walk_rule rcpt_list set_rcpt
    (fun w' => exists i, (i < length ds)%nat /\ told w ds i i w') (fun w' => exists i, told w ds (length ds) i w')
    (fun _ : Empty_set => False) (fun w d => inl (recipient_reply w d)) (length ds) w) as W.
  destruct (walk _ _ _ _ w) as [w'|[]]. edestruct W as [i Hi]; [..|by exists w', i].
  - done.
  - clear W. clear w'. intros w' (i & Hi & Ht) _. destruct (lookup_lt_is_Some_2 ds i Hi) as [d Hd].
    assert (p_list_data (rcpt_list w') = Some d) as ->.
    { destruct Ht as [-> _]. unfold p_list_data. simpl. by rewrite list_lookup_fmap, Hd. }
    pose proof (told_next w ds i d w' Hd Ht) as Hn. destruct Ht as [E _].
    destruct Hn as (E1 & En). rewrite E1, E. split; [done|]. split; [done|].
    unfold p_list_next. simpl. rewrite length_fmap. case_decide as Hc.
    + exists (S i). by split.
    + exists i. replace (length ds) with (S i) by lia. by split.
  - exists 0%nat. split; [done|]. split_and!; [done|done|apply io_refl|].
    intros c0 T _ R. by rewrite app_nil_r.
  - rewrite Hl. unfold plist_wf. simpl. rewrite length_fmap. lia.
  - rewrite Hl. simpl. rewrite length_fmap. lia.
Qed.

(** What DATA does when the message is complete, in terms of the recipients of the session. *)
Lemma lmtp_data_spec w fs ds m :
  txn (session w) fs ds -> ds <> [] -> received_message (session w) = Some m ->
  (answer (calls w) (CStore m) = DM_EQUERY /\ keeps w (lmtp_data w).1 /\ (lmtp_data w).2 = 1 /\
   calls (lmtp_data w).1 = calls w ++ [CStore m] /\ txn (session (lmtp_data w).1) fs ds /\
   (plain_io (ci (session w)) ->
    replied (ci (session w)) (ci (session (lmtp_data w).1)) (line "430 Message not received"))) \/
  (answer (calls w) (CStore m) <> DM_EQUERY /\ keeps w (lmtp_data w).1 /\ (lmtp_data w).2 = 1 /\
   let '(tr, ds') := deliver_list (calls w ++ [CStore m]) m ds in
   calls (lmtp_data w).1 = tr ++ [CDelete m] /\
   txn (session (lmtp_data w).1) [] [] /\ state (session (lmtp_data w).1) = CLIENTSTATE_AUTHENTICATED /\
   (plain_io (ci (session w)) ->
    replied (ci (session w)) (ci (session (lmtp_data w).1)) (concat (recipient_line <$> ds')))).
Proof.
  intros (T1 & T2 & T3) Hne Em. unfold lmtp_data. rewrite Em.
  destruct (rcpt (session w)) as [L|] eqn:EL; [|by destruct T2]. cbv zeta.
  assert (calls (upd w (fun s => s <| rbuff := [] |>)) = calls w) as -> by done.
  rewrite (insert_messages_list (calls w) m L ds T2 Hne).
  destruct (answer (calls w) (CStore m) =? DM_EQUERY) eqn:Er; to_prop; [left|right]; (split; [done|]).
  - split; [split; [apply (io_write (ci (session w))); by eexists|]|].
    { intros [Ha (fs' & ds' & I1 & I2 & I3)]. rewrite EL in I2. split; [exact Ha|]. by exists fs', ds'. }
    split; [done|]. split; [done|]. split; [by split; [|split]|]. intros Hp.
    apply (replied_write (ci (session w)) (ci (session w)) _ _ _ []); [done|apply replied_refl, Hp|reflexivity].
  - pose proof (deliver_list_length (calls w ++ [CStore m]) m ds) as Hlen.
    destruct (deliver_list (calls w ++ [CStore m]) m ds) as [tr ds']. simpl in Hlen.
    assert (ds' <> []) as Hne' by (by destruct ds, ds').
    change (0 =? -1) with false. cbv iota.
    match goal with |- context [walk _ _ _ _ ?w1] => set (w0 := w1) end.
    destruct (recipient_walk w0 ds' Hne' eq_refl) as (w' & k & Ew & E1 & E2 & E3 & E4).
    cbn [items]. rewrite length_fmap, Ew. cbn [fst snd].
    split; [split; [exact E3|intros _; exact (inv_reset (session w') CLIENTSTATE_AUTHENTICATED)]|].
    split; [done|]. split; [exact E2|].
    split; [split_and!; [apply holds_new..|by intros [=]]|]. split; [done|].
    intros Hp. rewrite (take_ge ds') in E4 by lia.
    apply (E4 (ci (session w)) []); [done|]. apply replied_refl. apply Hp.
Qed.

(** ** The tokenizer *)
Lemma keeps_error w text : "%"%char ∉ text -> keeps w (lmtp_error w text).1.
Proof.
  intros Hp. unfold lmtp_error. destruct (MAX_ERRORS <=? _).
  { eapply keeps_then; [by apply lmtp_keeps_upd|replies]. }
  rewrite cformat_plain by done. simpl.
  assert (keeps w (reply w text [])) as K.
  { apply keeps_reply. rewrite cformat_plain by done. by eexists. }
  destruct (errored _); [done|]. eapply keeps_then; [by apply lmtp_keeps_upd|done].
Qed.

Lemma lmtp_error_result w text : (lmtp_error w text).2 = -1 \/ (lmtp_error w text).2 = -3.
Proof.
  unfold lmtp_error. destruct (MAX_ERRORS <=? _); [by right|]. destruct (errored _); auto.
Qed.

(** Between two lines the parser is at rest, or a message is being received. *)
Definition ready (s : ClientSession_T) : Prop :=
  (command_type s = 0 /\ holds (args s) []) \/ command_type s = LMTP_DATA.

(** The line is not a RCPT command whose address has a plus sign behind its last at-sign. *)
Definition line_ok (buffer : cstr) : Prop :=
  forall command v a p, lmtp_parse buffer = Some (command, Some v) -> command_index command = LMTP_RCPT ->
    find_bounded v "<"%char ">"%char = Some (a, p) -> plus_before_at a.

(** What the tokenizer hands over: to the handler (1), to the next line (0), to the reset of
    the parser (-1) or to the end of the session (-3). *)
Definition handed (w : lworld) (buffer : cstr) (o : lworld * Z) : Prop :=
  io_step (ci (session w)) (ci (session o.1)) /\
  ((o.2 = 1 /\ lmtp_inv (session o.1) /\
      ((command_type (session w) = 0 -> line_ok buffer) ->
       command_type (session o.1) = LMTP_RCPT -> forall a, rcpt_address o.1 a -> plus_before_at a)) \/
   (o.2 = 0 /\ lmtp_inv (session o.1) /\ ready (session o.1)) \/
   ((o.2 = -1 \/ o.2 = -3) /\ lmtp_inv (client_session_reset_parser (session o.1)))).

Lemma handed_error w w1 buffer text :
  "%"%char ∉ text -> io_step (ci (session w)) (ci (session w1)) ->
  lmtp_inv (client_session_reset_parser (session w1)) -> handed w buffer (lmtp_error w1 text).
Proof.
  intros Hp Hio Hi. split; [eapply io_trans; [exact Hio|by apply keeps_error]|]. right. right.
  split; [apply lmtp_error_result|].
  unfold lmtp_error. destruct (MAX_ERRORS <=? _); [exact Hi|]. destruct (errored _); exact Hi.
Qed.

Lemma data_start_handed w w1 buffer :
  ci (session w1) = ci (session w) -> (exists xs, holds (args (session w1)) xs) ->
  command_type (session w1) = LMTP_DATA -> lmtp_inv (client_session_reset_parser (session w1)) ->
  handed w buffer (data_start w1).
Proof.
  intros Hci Ha Hct Hi.
  assert (io_step (ci (session w)) (ci (session w1))) as Hio by (rewrite Hci; apply io_refl).
  unfold data_start. destruct (negb _) eqn:Est; to_prop.
  { apply handed_error; [apply (bool_decide_eq_true_1 _); reflexivity|done|done]. }
  destruct Hi as (_ & fs & ds & T1 & T2 & _). simpl in T1, T2.
  destruct (rcpt (session w1)) as [L|] eqn:EL; [|by destruct T2].
  assert (lmtp_inv (client_session_reset_parser (session w1))) as Hi.
  { split; [exists []; apply holds_new|]. exists fs, ds. split; [exact T1|].
    split; [simpl; by rewrite EL|by intros [=]]. }
  case_bool_decide as Hl.
  { apply handed_error; [apply (bool_decide_eq_true_1 _); reflexivity|done|done]. }
  case_bool_decide as Hf.
  { apply handed_error; [apply (bool_decide_eq_true_1 _); reflexivity|done|done]. }
  split; [eapply io_trans; [exact Hio|apply io_write; by eexists]|]. right. left.
  split; [done|]. split; [|by right]. split; [exact Ha|]. exists fs, ds. split; [exact T1|].
  split; [simpl; by rewrite EL|]. intros _. split; [exact Est|].
  split; [apply (holds_length _ _ T1)|apply (holds_length _ _ T2)]; lia.
Qed.

Lemma data_line_handed w buffer :
  lmtp_inv (session w) -> command_type (session w) = LMTP_DATA ->
  let w' := upd w (fun s => data_line s buffer) in
  handed w buffer (w', if parser_state (session w') then 1 else 0).
Proof.
  intros Hi Hct w'. assert (ci (session w') = ci (session w) /\ lmtp_inv (session w') /\
    command_type (session w') = LMTP_DATA) as (E & I & C).
  { subst w'. simpl. unfold data_line. destruct (_ || _); [done|]. by destruct (strneq _ _ _). }
  clearbody w'. split; [simpl; rewrite E; apply io_refl|]. cbn [fst snd].
  destruct (parser_state (session w')); [left|right; left].
  - split; [done|]. split; [done|]. intros _ X. by rewrite C in X.
  - split; [done|]. split; [done|by right].
Qed.

Lemma tokenizer_handed w buffer :
  lmtp_inv (session w) -> ready (session w) -> handed w buffer (lmtp_tokenizer w buffer).
Proof.
  intros Hi Hr. unfold lmtp_tokenizer. destruct Hr as [[Hct Ha]|Hct]; rewrite Hct.
  2:{ cbn [LMTP_DATA Z.eqb Pos.eqb]. by apply data_line_handed. }
  change (0 =? 0) with true. cbv iota.
  assert (lmtp_inv (client_session_reset_parser (session w))) as Hi' by (by apply inv_reset_parser).
  destruct (lmtp_parse buffer) as [[command value]|] eqn:Ep.
  2:{ split; [apply io_refl|]. right. left. split; [done|]. split; [exact Hi|by left]. }
  destruct (_ =? LMTP_END).
  { apply handed_error; [apply (bool_decide_eq_true_1 _); reflexivity|apply io_refl|exact Hi']. }
  destruct (_ && _).
  { apply handed_error; [apply (bool_decide_eq_true_1 _); reflexivity|apply io_refl|exact Hi']. }
  cbv zeta. set (w1 := upd w (fun s => s <| parser_state := false |>)).
  set (w2 := match value with Some v => _ | None => _ end).
  assert (ci (session w2) = ci (session w)) as Hci by (by destruct value).
  assert (command_type (session w2) = command_index command) as Hc2 by (by destruct value).
  assert (holds (args (session w2)) (match value with Some v => [v] | None => [] end)) as Ha2.
  { destruct value as [v|]; [|exact Ha]. apply (append_holds _ [] v Ha). }
  assert (lmtp_inv (client_session_reset_parser (session w2))) as Hi2.
  { destruct value; exact Hi'. }
  assert (lmtp_inv (session w2) \/ command_index command = LMTP_DATA) as Hi3.
  { destruct (decide (command_index command = LMTP_DATA)) as [|Hn]; [by right|left].
    split; [by eexists|]. destruct Hi2 as (_ & fs & ds & T1 & T2 & _). exists fs, ds.
    split; [exact T1|]. split; [exact T2|]. rewrite Hc2. done. }
  clearbody w2. clear w1. destruct (_ =? LMTP_DATA) eqn:Ed; to_prop.
  { apply data_start_handed; [done|by eexists|congruence|done]. }
  destruct Hi3 as [Hi3|?]; [|done]. split; [simpl; rewrite Hci; apply io_refl|]. left.
  split; [done|]. split; [exact Hi3|]. intros Hok Hc a (v & p & Hv & Hf).
  simpl in Hc, Hv. rewrite Hc2 in Hc.
  pose proof (holds_data_eq _ _ (holds_first _ _ Ha2)) as X. rewrite Hv in X.
  destruct value as [v'|]; simpl in X; [|done]. simplify_eq. by eapply Hok; eauto.
Qed.

(** ** The handler *)

(** What holds of RCPT even where the resolution of the address is undefined. *)
Definition persists (w w' : lworld) : Prop :=
  (errored (ci (session w)) = true -> errored (ci (session w')) = true) /\
  (lmtp_inv (session w) -> lmtp_inv (session w')).
Lemma keeps_persists w w' : keeps w w' -> persists w w'.
Proof. intros [[E _] I]. done. Qed.
Lemma persists_undefined w w1 : persists w w1 -> persists w (undefined w1).
Proof. done. Qed.

Lemma lmtp_rcpt_persists w : persists w (lmtp_rcpt w).1.
Proof.
  unfold lmtp_rcpt. destruct (negb _); [apply keeps_persists; replies|].
  pose proof (keeps_persists _ _ (first_arg_keeps w)) as K. destruct (first_arg w) as [w1 arg]. simpl in K.
  assert (forall w2, keeps w1 w2 -> persists w w2) as T.
  { intros w2 [[A _] B]. destruct K as [C D]. split; auto. }
  destruct arg as [v|]; [|done].
  destruct (find_bounded v _ _) as [[[|c t] p]|]; [apply T; replies| |apply T; replies].
  destruct (dsnuser_resolve _) as [[d r]|]; [|done].
  destruct (negb _); [apply T; replies|]. destruct (_ =? _); [|apply T; replies].
  simpl. destruct (rcpt (session w1)) as [L|] eqn:EL.
  - apply T. eapply keeps_then; [by apply keeps_rcpt|replies].
  - apply persists_undefined, T. replies.
Qed.

Lemma received_some w : parses_all -> exists m, received_message (session w) = Some m.
Proof.
  intros P. unfold received_message. specialize (P (rbuff (session w))).
  destruct (dbmail_message_init_with_string _) as [m|]; [by eexists|done].
Qed.

Lemma lmtp_keeps w :
  lmtp_inv (session w) -> (command_type (session w) = LMTP_DATA -> parses_all) ->
  (command_type (session w) = LMTP_RCPT -> forall a, rcpt_address w a -> plus_before_at a) ->
  keeps w (lmtp w).1.
Proof.
  intros Hi Hpa Hok. unfold lmtp.
  destruct (decide (command_type (session w) = LMTP_DATA)) as [Hd|Hd].
  - rewrite Hd. cbn -[lmtp_data]. destruct Hi as (Ha & fs & ds & T).
    pose proof T as (_ & _ & X). destruct (X Hd) as (_ & _ & Hne).
    destruct (received_some w (Hpa Hd)) as [m Em].
    by destruct (lmtp_data_spec w fs ds m T Hne Em) as [(_ & K & _)|(_ & K & _)].
  - destruct (lmtp_simple_keeps w Hd) as (K1 & K2 & K3 & K4 & K5 & K6).
    repeat (case_match; [done|]). case_match; [by apply lmtp_mail_keeps|].
    case_match; [to_prop; by apply lmtp_rcpt_keeps; auto|].
    case_match; [to_prop; done|]. apply keeps_error. apply (bool_decide_eq_true_1 _); reflexivity.
Qed.

Lemma lmtp_data_persists w : command_type (session w) = LMTP_DATA -> lmtp_inv (session w) -> persists w (lmtp_data w).1.
Proof.
  intros Hd (Ha & fs & ds & T). pose proof T as (_ & _ & X). destruct (X Hd) as (_ & _ & Hne).
  destruct (received_message (session w)) as [m|] eqn:Em.
  - apply keeps_persists. by destruct (lmtp_data_spec w fs ds m T Hne Em) as [(_ & K & _)|(_ & K & _)].
  - unfold lmtp_data. rewrite Em. apply persists_undefined, keeps_persists, keeps_refl.
Qed.
Lemma lmtp_persists w : lmtp_inv (session w) -> persists w (lmtp w).1.
Proof.
  intros Hi. destruct (decide (command_type (session w) = LMTP_RCPT)) as [Hr|Hr].
  - unfold lmtp. rewrite Hr. apply lmtp_rcpt_persists.
  - destruct (decide (command_type (session w) = LMTP_DATA)) as [Hd|Hd].
    + unfold lmtp. rewrite Hd. cbn -[lmtp_data]. by apply lmtp_data_persists.
    + by apply keeps_persists, lmtp_keeps.
Qed.

(** ** The end of a session *)
Lemma wbuf_len_healthy c :
  healthy c -> let '(c', _) := ci_wbuf_len c in
  healthy c' /\ fault c' = fault c /\ (errored c = true -> errored c' = true).
Proof.
  intros Hh. unfold ci_wbuf_len. destruct (errored c) eqn:He; [|by destruct (write_buffer c)].
  split_and!; [|done|done]. intros X. simpl in X. unfold errored in *. simpl in X. congruence.
Qed.

Lemma bailout_flush_healthy fuel c after k :
  healthy c -> let c' := bailout_flush fuel c after k in
  fault c' = fault c /\ (errored c = true -> errored c' = true).
Proof.
  revert c after k. induction fuel as [|fuel IH]; intros c after k Hh; simpl; [done|].
  destruct (errored c) eqn:He; [by rewrite andb_false_r; simpl; rewrite ?andb_false_r|].
  destruct (_ && _); [|done].
  pose proof (wbuf_len_healthy c Hh) as W1. destruct (ci_wbuf_len c) as [c1 before].
  destruct W1 as (H1' & F1 & _).
  destruct (ci_write_cb_replied c1 H1') as (H2' & F2 & _).
  pose proof (wbuf_len_healthy _ H2') as W2. destruct (ci_wbuf_len (ci_write_cb c1)) as [c2 after'].
  destruct W2 as (H3' & F3 & _). destruct (IH c2 after' (if before =? after' then S k else 0%nat) H3') as [F4 _].
  split; [congruence|done].
Qed.

Lemma bailout_ends s :
  closed (client_session_bailout s) = true /\
  (errored (ci s) = true -> errored (ci (client_session_bailout s)) = true) /\
  (healthy (ci s) -> fault (ci (client_session_bailout s)) = fault (ci s)).
Proof.
  unfold client_session_bailout. destruct (ci_wbuf_len (ci s)) as [c after] eqn:E.
  split; [done|]. split.
  - intros He. unfold ci_wbuf_len in E. rewrite He in E. injection E as <- <-. by destruct (length _ + 102)%nat.
  - intros Hh. pose proof (wbuf_len_healthy (ci s) Hh) as W. rewrite E in W.
    destruct W as (W1 & W2 & W3). simpl.
    destruct (bailout_flush_healthy (length (wscript c) + 102) c after 0 W1) as [F1 F2]. congruence.
Qed.

(** ** Lines *)
Lemma sound_healthy c : sound_io c -> healthy c.
Proof. intros [_ [He|[W _]]] Hn; [congruence|done]. Qed.

(** After a line the session has ended or it is in a good state again; a broken connection
    stays broken; unless the address resolution was undefined ([P]), the connection is sound. *)
Definition advanced (P : Prop) (w : lworld) (o : lworld * bool) : Prop :=
  (errored (ci (session w)) = true -> errored (ci (session o.1)) = true) /\
  if o.2 then lmtp_inv (session o.1) /\ ready (session o.1) /\ (P -> io_step (ci (session w)) (ci (session o.1)))
  else closed (session o.1) = true /\ (P -> sound_io (ci (session w)) -> fault (ci (session o.1)) = false).

Lemma advanced_bailout (P : Prop) w w1 :
  (errored (ci (session w)) = true -> errored (ci (session w1)) = true) ->
  (P -> io_step (ci (session w)) (ci (session w1))) -> advanced P w (upd w1 client_session_bailout, false).
Proof.
  intros E S. destruct (bailout_ends (session w1)) as (Hc & He & Hb). split; [|split; [exact Hc|]].
  - intros X. by apply He, E.
  - intros HP Hs. destruct (S HP) as [_ S']. destruct (S' Hs) as [Hs1 _].
    simpl. rewrite (Hb (sound_healthy _ Hs1)). apply Hs1.
Qed.

Lemma rest_ready s : ready (client_session_reset_parser s).
Proof. left. split; [done|apply holds_new]. Qed.

Lemma lmtp_line_advances w buffer :
  lmtp_inv (session w) -> ready (session w) ->
  advanced (parses_all /\ (command_type (session w) = 0 -> line_ok buffer)) w (lmtp_line w buffer).
Proof.
  intros Hi Hr. unfold lmtp_line.
  pose proof (tokenizer_handed w buffer Hi Hr) as [Hio Hh].
  destruct (lmtp_tokenizer w buffer) as [w1 l]. simpl in Hio, Hh.
  destruct Hh as [(-> & Hi1 & Hr1)|[(-> & Hi1 & Hr1)|[[->| ->] Hi1]]]; cbn [Z.eqb Pos.eqb Z.ltb Z.compare].
  - set (w2 := upd w1 _).
    destruct (lmtp_persists w2 Hi1) as [K1 K2].
    assert (parses_all /\ (command_type (session w) = 0 -> line_ok buffer) ->
            io_step (ci (session w)) (ci (session (lmtp w2).1))) as Hio2.
    { intros [Pa P]. eapply io_trans; [exact Hio|]. eapply io_trans; [apply io_cork|].
      apply (lmtp_keeps w2 Hi1); [done|]. exact (Hr1 P). }
    assert (errored (ci (session w)) = true -> errored (ci (session (lmtp w2).1)) = true) as He.
    { intros X. apply K1. by apply Hio. }
    destruct (lmtp w2) as [w3 r]. simpl in *. destruct (r =? -3); [by apply advanced_bailout|].
    split; [intros X; by apply io_uncork, He|]. split_and!; [|apply rest_ready|].
    + apply inv_reset_parser. exact (K2 Hi1).
    + intros P. eapply io_trans; [by apply Hio2|apply io_uncork].
  - split; [apply Hio|]. done.
  - split; [apply Hio|]. split_and!; [exact Hi1|apply rest_ready|done].
  - apply advanced_bailout; [apply Hio|done].
Qed.

(** ** Input *)

(** [l], without its line feed, is a line of the input [s]. *)
Definition line_of (s l : list ascii) : Prop :=
  LF ∉ l /\ exists pre post, s = pre ++ l ++ LF :: post /\ (pre = [] \/ last pre = Some LF).
(** Every line of the input fits the line buffer, and no RCPT command hits the defect of the
    address resolution. *)
Definition input_ok (s : list ascii) : Prop :=
  forall l, line_of s l -> (S (length l) < MAX_LINESIZE)%nat /\ line_ok (l ++ [LF]).

Lemma input_ok_rest l s : input_ok (l ++ LF :: s) -> LF ∉ l -> input_ok s.
Proof.
  intros Hok Hl l' (Hn & pre & post & -> & Hp). apply Hok. split; [done|].
  exists (l ++ LF :: pre), post. split; [by rewrite <- !app_assoc|]. right.
  destruct Hp as [->|Hp]; [apply last_snoc|]. rewrite last_app_cons, last_cons, Hp. done.
Qed.

Lemma split_first_unique (x : ascii) a b c d : a ++ x :: b = c ++ x :: d -> x ∉ a -> x ∉ c -> a = c /\ b = d.
Proof.
  revert c. induction a as [|y a IH]; intros [|z c] E Ha Hc; simpl in *; simplify_eq; try done.
  - by destruct Hc; left.
  - by destruct Ha; left.
  - apply not_elem_of_cons in Ha as [_ Ha], Hc as [_ Hc]. destruct (IH c) as [-> ->]; done.
Qed.

(** The lines of an input that is given line by line. *)
Lemma line_of_lines ls l :
  Forall (fun l => LF ∉ l) ls -> line_of (concat ((fun l => l ++ [LF]) <$> ls)) l -> l ∈ ls.
Proof.
  induction ls as [|l0 ls IH]; intros Hf (Hl & pre & post & E & Hp); simpl in E.
  { by destruct pre, l. }
  apply Forall_cons in Hf as [H0' Hf]. rewrite <- app_assoc in E. simpl in E.
  destruct (decide (LF ∈ pre)) as [Hin|Hn].
  - apply list_elem_of_split_l in Hin as (p1 & p2 & -> & Hp1). rewrite <- app_assoc in E. simpl in E.
    apply split_first_unique in E as [-> E]; [|done..]. right. apply IH; [done|]. split; [done|].
    exists p2, post. split; [done|]. destruct p2 as [|c p2]; [by left|right].
    destruct Hp as [Hp|Hp]; [by destruct p1|]. by rewrite last_app_cons, last_cons_cons in Hp.
  - destruct Hp as [->|Hp]; [|by apply last_Some_elem_of in Hp].
    apply split_first_unique in E as [-> _]; [|done..]. by left.
Qed.

Lemma input_ok_lines ls :
  Forall (fun l => LF ∉ l /\ (Datatypes.S (length l) < MAX_LINESIZE)%nat /\ line_ok (l ++ [LF])) ls ->
  input_ok (concat ((fun l => l ++ [LF]) <$> ls)).
Proof.
  intros Hf l Hl. apply line_of_lines in Hl; [|by eapply Forall_impl; [exact Hf|intros ? [? _]]].
  rewrite Forall_forall in Hf. apply Hf in Hl. apply Hl.
Qed.

Lemma unread_input_side c c' : input_side c' = input_side c -> unread c' = unread c /\ (read_wf c -> read_wf c').
Proof. unfold input_side, unread, read_wf. intros E. simplify_eq/=. split; congruence. Qed.

Lemma ci_readln_errored c : errored c = true -> errored (ci_readln c).1 = true.
Proof.
  intros He. unfold ci_readln. case_bool_decide; (destruct (g_strstr_len _ _); [|done]);
    (case_decide; [apply errored_set_ERR|]); unfold client_rbuf_scale; by case_decide.
Qed.

Lemma readln_side c :
  read_wf c -> fault (ci_readln c).1 = fault c /\ write_buffer (ci_readln c).1 = write_buffer c /\
  write_buffer_offset (ci_readln c).1 = write_buffer_offset c /\ ssl (ci_readln c).1 = ssl c.
Proof.
  intros Hr. unfold ci_readln. rewrite bool_decide_eq_true_2 by exact Hr.
  destruct (g_strstr_len _ _); [|done]. case_decide; [done|]. unfold client_rbuf_scale. by case_decide.
Qed.

Lemma ci_readln_sound c : read_wf c -> sound_io c -> sound_io (ci_readln c).1.
Proof.
  intros Hr [Hf Hc]. destruct (readln_side c Hr) as (E1 & E2 & E3 & E4). split; [congruence|].
  destruct (errored (ci_readln c).1) eqn:He; [by left|right].
  destruct Hc as [X|[[(wb & W1 & W2) _ _] Hs]]; [apply ci_readln_errored in X; congruence|].
  split; [|congruence]. split; [|congruence..]. rewrite E2, E3. eauto.
Qed.

(** The loop after the connection broke. *)
Lemma input_loop_errored fuel w :
  lmtp_inv (session w) -> ready (session w) -> errored (ci (session w)) = true ->
  errored (ci (session (input_loop fuel w))) = true.
Proof.
  revert w. induction fuel as [|fuel IH]; intros w Hi Hr He; simpl; [done|].
  pose proof (ci_readln_errored _ He) as He1. destruct (ci_readln (ci (session w))) as [c buffer].
  simpl in He1. destruct buffer as [|b buffer]; [done|].
  set (w1 := if bool_decide _ then _ else _).
  assert (errored (ci (session w1)) = true /\ lmtp_inv (session w1) /\ ready (session w1)) as (E1 & I1 & R1).
  { subst w1. by case_bool_decide. }
  pose proof (lmtp_line_advances w1 (cstring_of (b :: buffer)) I1 R1) as [A B].
  destruct (lmtp_line w1 _) as [w2 []]; simpl in *; [|by apply A].
  apply IH; [apply B..|by apply A].
Qed.

(** Where the loop ends on a connection that is not broken. *)
Definition drained (w : lworld) : Prop :=
  fault (ci (session w)) = false /\
  (closed (session w) = true \/
   (lmtp_inv (session w) /\ ready (session w) /\ sound_io (ci (session w)) /\ read_wf (ci (session w)) /\
    LF ∉ cstring_of (unread (ci (session w))))).

Lemma input_loop_safe fuel w : parses_all ->
  lmtp_inv (session w) -> ready (session w) -> sound_io (ci (session w)) -> read_wf (ci (session w)) ->
  input_ok (unread (ci (session w))) -> (length (unread (ci (session w))) < fuel)%nat ->
  errored (ci (session (input_loop fuel w))) = true \/ drained (input_loop fuel w).
Proof.
  intros Pa. revert w. induction fuel as [|fuel IH]; intros w Hi Hr Hs Hw Hin Hf; [lia|]. simpl.
  pose proof (ci_readln_spec _ Hw) as L. pose proof (ci_readln_sound _ Hw Hs) as Hs1.
  destruct (ci_readln (ci (session w))) as [c buffer]. simpl in Hs1.
  destruct L as [Hw1 [(-> & Hu & [Hn|[He _]])|(l & -> & Hl & Hz & _ & _ & Hu)]].
  - right. split; [apply Hs1|]. right. split_and!; try done. simpl. by rewrite Hu.
  - by left.
  - destruct (Hin l) as [Hlen Hok].
    { split; [done|]. exists [], (unread c). rewrite Hu, <- app_assoc. auto. }
    assert (match l ++ [LF] with [] => False | _ => True end) as Hne by (by destruct l).
    destruct (l ++ [LF]) as [|b rest] eqn:Eb; [done|]. rewrite <- Eb in *.
    rewrite bool_decide_eq_false_2 by (rewrite length_app; simpl; lia).
    rewrite cstring_of_id by (rewrite not_elem_of_app, list_elem_of_singleton; by split).
    set (w1 := upd w _).
    pose proof (lmtp_line_advances w1 (l ++ [LF]) Hi Hr) as [A B].
    destruct (lmtp_line w1 (l ++ [LF])) as [w2 []]; cbn [fst snd] in *.
    + destruct B as (I2 & R2 & [_ S2]); [by split|]. destruct (S2 Hs1) as [Hs2 In2].
      destruct (errored (ci (session w2))) eqn:He; [left; by apply input_loop_errored|].
      destruct (unread_input_side _ _ (In2 eq_refl)) as [U2 W2].
      apply IH; [done..|by apply W2| |]; rewrite U2; simpl.
      * apply (input_ok_rest l); [|done]. rewrite Hu, <- app_assoc in Hin. exact Hin.
      * rewrite Hu, !length_app in Hf. simpl in Hf. lia.
    + destruct B as [Hc Hfault]. right. split; [by apply Hfault; [split|]|by left].
Qed.

(** A session between two events. *)
Definition lmtp_good (w : lworld) : Prop :=
  lmtp_inv (session w) /\ ready (session w) /\ sound_io (ci (session w)) /\ read_wf (ci (session w)).

Lemma lmtp_handle_connection_good c host uid :
  sound_io c -> read_wf c -> lmtp_good (lmtp_handle_connection c host uid) \/
    errored (ci (session (lmtp_handle_connection c host uid))) = true.
Proof.
  intros Hs Hw. unfold lmtp_handle_connection. set (w0 := mklworld _ []).
  assert (lmtp_inv (session w0) /\ ready (session w0)) as [I0 R0].
  { split; [|left; split; [done|apply holds_new]]. split; [exists []; apply holds_new|]. exists [], [].
    split_and!; [apply holds_new|done..]. }
  assert (keeps w0 (send_greeting w0) /\ ready (session (send_greeting w0))) as [[[E1 S1] I1] R1].
  { unfold send_greeting. destruct (negb _).
    - split; [|exact R0]. split; [apply (io_write (ci (session w0))); by eexists|].
      intros I. exact (inv_state (session w0) CLIENTSTATE_QUIT ltac:(done) ltac:(done) I).
    - destruct conf_banner; (split; [replies|exact R0]). }
  assert (sound_io (ci (session w0))) as Hs0.
  { refine (proj1 (proj2 (io_trans _ _ _ (io_cork c) (io_timeout _ _)) Hs)). }
  destruct (S1 Hs0) as [Hs1 In1]. destruct (io_uncork (ci (session (send_greeting w0)))) as [E2 S2].
  destruct (S2 Hs1) as [Hs2 In2].
  destruct (errored (ci_uncork (ci (session (send_greeting w0))))) eqn:He; [by right|left].
  split; [exact (I1 I0)|]. split; [exact R1|]. split; [exact Hs2|].
  assert (errored (ci (session (send_greeting w0))) = false) as He1.
  { destruct (errored (ci (session (send_greeting w0)))) eqn:X; [discriminate (E2 eq_refl)|done]. }
  apply (unread_input_side _ _ (In2 eq_refl)). apply (unread_input_side _ _ (In1 He1)). exact Hw.
Qed.

(** C14. On a connection without TLS, for every input whose lines fit the line buffer and none of
    which is a RCPT that the resolution of addresses is undefined for (a plus sign behind the at
    sign), and if GMime makes an object of every text, the input handler terminates with no
    complete line left, without following a NULL pointer and without undefined behaviour, and the
    session is again between two events or has ended; or the connection broke. *)
Theorem lmtp_handle_input_safe w :
  parses_all -> lmtp_good w -> input_ok (unread (ci (session w))) ->
  let w' := lmtp_handle_input w in
  errored (ci (session w')) = true \/
  (fault (ci (session w')) = false /\
   (closed (session w') = true \/ (lmtp_good w' /\ LF ∉ cstring_of (unread (ci (session w')))))).
Proof.
  intros Pa (I & R & S & W) Hin w'.
  destruct (input_loop_safe (Datatypes.S (length (unread (ci (session w))))) w Pa I R S W Hin) as [|[F [C|(A&B&C&D&E)]]];
    [lia|by left|right; split; [exact F|by left]|right].
  split; [exact F|]. by right.
Qed.

(** ** The message text *)

(** Dot-stuffing, as a client does it (RFC 2821, 4.5.2). *)
Definition stuff (l : cstr) : cstr := match l with "."%char :: _ => "."%char :: l | _ => l end.

Lemma data_line_stuff s l : data_line s (stuff l) = s <| rbuff ::= fun b => b ++ l |>.
Proof.
  unfold data_line, stuff, strneq. destruct l as [|c l]; [done|].
  destruct (decide (c = "."%char)) as [->|Hne].
  - cbn [take lit app firstn String.list_ascii_of_string]. by rewrite !bool_decide_eq_false_2 by done.
  - assert ((match c with "."%char => "."%char :: c :: l | _ => c :: l end) = c :: l) as ->.
    { destruct c as [[] [] [] [] [] [] [] []]; done. }
    rewrite !bool_decide_eq_false_2; [done|simpl; congruence..].
Qed.

(** The state in which a message is received. *)
Definition receiving (w : lworld) (text : cstr) : Prop :=
  command_type (session w) = LMTP_DATA /\ parser_state (session w) = false /\ rbuff (session w) = text.

Lemma receive_line w text l :
  receiving w text -> receiving (lmtp_line w (stuff l)).1 (text ++ l) /\
    (lmtp_line w (stuff l)).1 = w <| session ::= fun s => s <| rbuff ::= fun b => b ++ l |> |>.
Proof.
  intros (E1 & E2 & E3). unfold lmtp_line, lmtp_tokenizer. rewrite E1.
  change (LMTP_DATA =? 0) with false. change (LMTP_DATA =? LMTP_DATA) with true. cbv iota.
  assert (upd w (fun s => data_line s (stuff l)) = upd w (fun s => s <| rbuff ::= fun b => b ++ l |>)) as ->.
  { unfold upd, set_field. simpl. by rewrite data_line_stuff. }
  assert (parser_state (session (upd w (fun s => s <| rbuff ::= fun b => b ++ l |>))) = false) as -> by exact E2.
  simpl. split; [|done]. split_and!; [done|done|]. simpl. by rewrite E3.
Qed.

Lemma receive_lines w text body :
  receiving w text ->
  let w' := foldl (fun w l => (lmtp_line w l).1) w (stuff <$> body) in
  receiving w' (text ++ concat body) /\ calls w' = calls w /\ from (session w') = from (session w) /\
  rcpt (session w') = rcpt (session w) /\ ci (session w') = ci (session w) /\ state (session w') = state (session w).
Proof.
  revert w text. induction body as [|l body IH]; intros w text Hr w'.
  { subst w'. simpl. rewrite app_nil_r. done. }
  destruct (receive_line w text l Hr) as [Hr1 E]. specialize (IH _ _ Hr1).
  subst w'. rewrite fmap_cons. cbn [foldl concat]. cbv zeta in IH. rewrite <- app_assoc in IH. destruct IH as (J1 & J2 & J3 & J4 & J5 & J6).
  split; [exact J1|]. rewrite J2, J3, J4, J5, J6, E. done.
Qed.

(** An accepted DATA command. *)
Lemma data_accepted w fs ds sender buffer command value :
  command_type (session w) = 0 -> txn (session w) fs ds -> ds <> [] -> rbuff (session w) = [] ->
  state (session w) = CLIENTSTATE_AUTHENTICATED -> p_list_data (from (session w)) = Some sender ->
  lmtp_parse buffer = Some (command, value) -> command_index command = LMTP_DATA ->
  let w1 := (lmtp_line w buffer).1 in
  receiving w1 [] /\ calls w1 = calls w /\ from (session w1) = from (session w) /\ txn (session w1) fs ds.
Proof.
  intros Hct (T1 & T2 & _) Hne Hrb Hst Hfrom Hp Hci. unfold lmtp_line, lmtp_tokenizer.
  rewrite Hct, Hp, Hci. cbn [Z.eqb]. cbv iota zeta.
  change (LMTP_DATA =? LMTP_END) with false. change (negb (no_argument LMTP_DATA)) with false.
  change (LMTP_DATA =? LMTP_DATA) with true. rewrite andb_false_r. cbv iota.
  set (w2 := match value with Some v => _ | None => _ end).
  assert (state (session w2) = state (session w) /\ rcpt (session w2) = rcpt (session w) /\
    from (session w2) = from (session w) /\ calls w2 = calls w /\ command_type (session w2) = LMTP_DATA /\
    parser_state (session w2) = false /\ rbuff (session w2) = rbuff (session w)) as (A1&A2&A3&A4&A5&A6&A7)
    by (by destruct value).
  clearbody w2. unfold data_start. rewrite A1, Hst, A2. change (negb (_ =? _)) with false. cbv iota.
  destruct (rcpt (session w)) as [L|] eqn:EL; [|by destruct T2].
  assert (fs <> []) as Hf.
  { intros ->. pose proof (holds_data _ _ _ T1 Hfrom) as X. by rewrite lookup_nil in X. }
  pose proof (proj2 (holds_length _ _ T2) Hne). pose proof (proj2 (holds_length _ _ T1) Hf).
  rewrite bool_decide_eq_false_2 by lia. rewrite A3, bool_decide_eq_false_2 by lia.
  change (0 =? 0) with true. cbv iota. cbn [fst].
  split; [split_and!; [exact A5|exact A6|by simpl; rewrite A7]|].
  split; [exact A4|]. split; [exact A3|]. split; [simpl; by rewrite A3|].
  split; [simpl; by rewrite A2|]. intros _. simpl. rewrite A1. done.
Qed.

Lemma lmtp_data_result w : (lmtp_data w).2 = 1.
Proof.
  unfold lmtp_data. destruct (received_message _); [|done]. destruct (rcpt _); [|done]. destruct (insert_messages _ _ _) as [[[tr L] r]|]; [|done].
  destruct (r =? -1); [done|]. by destruct (walk _ _ _ _ _) as [w'|[]].
Qed.

(** The world in which the handler sees the complete message. *)
Definition complete (w : lworld) : lworld :=
  upd (upd w (fun s => s <| parser_state := true |>)) (fun s => s <| ci ::= ci_cork |>).
(** The state between two commands. *)
Definition rest (w : lworld) : lworld := upd w (fun s => client_session_reset_parser (s <| ci ::= ci_uncork |>)).

(** The final dot. *)
Lemma data_final w text :
  receiving w text -> lmtp_line w (lit "." ++ crlf) = (rest (lmtp_data (complete w)).1, true).
Proof.
  intros (E1 & E2 & E3). unfold lmtp_line, lmtp_tokenizer. rewrite E1.
  change (LMTP_DATA =? 0) with false. change (LMTP_DATA =? LMTP_DATA) with true. cbv iota.
  assert (upd w (fun s => data_line s (lit "." ++ crlf)) = upd w (fun s => s <| parser_state := true |>)) as -> by done.
  change (parser_state (session (upd w (fun s => s <| parser_state := true |>)))) with true. cbv iota.
  change (1 =? 0) with false. change (1 =? -3) with false. change (0 <? 1) with true. cbv iota.
  fold (complete w). assert (lmtp (complete w) = lmtp_data (complete w)) as ->.
  { unfold lmtp. assert (command_type (session (complete w)) = LMTP_DATA) as -> by exact E1. reflexivity. }
  pose proof (lmtp_data_result (complete w)) as Er. destruct (lmtp_data (complete w)) as [w' r].
  simpl in Er. by rewrite Er.
Qed.

Lemma deliver_users_calls tr m d us ok temp fail fq : exists rest, (deliver_users tr m d us ok temp fail fq).1 = tr ++ rest.
Proof.
  revert tr ok temp fail fq. induction us as [|u us IH]; intros; simpl; [exists []; by rewrite app_nil_r|].
  repeat case_match; match goal with |- context [deliver_users ?t m d us ?a ?b ?c ?e] =>
    destruct (IH t a b c e) as [r ->] end; eexists; by rewrite <- !app_assoc.
Qed.

Lemma deliver_one_calls tr m d : exists rest, (deliver_one tr m d).1 = tr ++ rest.
Proof.
  unfold deliver_one. destruct (deliver_users_calls tr m d (userids d) false false false false) as [r E].
  destruct (deliver_users _ _ _ _ _ _ _ _) as [tr1 [[[ok temp] fail] fq]]. simpl in E. subst tr1.
  case_bool_decide; simpl; eexists; by rewrite <- ?app_assoc.
Qed.

Lemma deliver_list_calls tr m ds : exists rest, (deliver_list tr m ds).1 = tr ++ rest.
Proof.
  revert tr. induction ds as [|d ds IH]; intros tr; simpl; [exists []; by rewrite app_nil_r|].
  destruct (deliver_one_calls tr m d) as [r E]. destruct (deliver_one tr m d) as [tr1 d1]. simpl in E.
  destruct (IH tr1) as [r' E']. destruct (deliver_list tr1 m ds) as [tr2 ds2]. simpl in *. subst.
  exists (r ++ r'). by rewrite app_assoc.
Qed.

(** C11. After an accepted DATA command, any body sent with dot-stuffing and the final dot: the
    message is made of exactly the body, as it was before the stuffing, by
    [dbmail_message_init_with_string], whose stream GMime reads all of it if it does not begin
    with a space; the first call is the storing of that message with the sender as Return-Path. *)
Theorem lmtp_data_text w fs ds sender body buffer command value m :
  command_type (session w) = 0 -> txn (session w) fs ds -> ds <> [] -> rbuff (session w) = [] ->
  state (session w) = CLIENTSTATE_AUTHENTICATED -> p_list_data (from (session w)) = Some sender ->
  lmtp_parse buffer = Some (command, value) -> command_index command = LMTP_DATA ->
  dbmail_message_init_with_string (concat body) = Some m ->
  let w1 := (lmtp_line w buffer).1 in
  let w2 := foldl (fun w l => (lmtp_line w l).1) w1 (stuff <$> body) in
  let w3 := (lmtp_line w2 (lit "." ++ crlf)).1 in
  (exists rest, calls w3 = calls w ++ CStore (dbmail_message_set_header m (Some sender)) :: rest) /\
  (head (concat body) <> Some SP -> is_Some (g_mime_parser_construct_message (concat body)) ->
   msg_class m = DBMAIL_MESSAGE /\ msg_stream m = concat body /\
   g_mime_parser_construct_message (concat body) = Some (msg_content m)).
Proof.
  intros Hct T Hne Hrb Hst Hfrom Hp Hci Hm w1 w2 w3.
  split; [|intros Hs [o Ho]; unfold dbmail_message_init_with_string in Hm; rewrite stream_text_exact, Ho in Hm by done; by injection Hm as <-].
  destruct (data_accepted w fs ds sender buffer command value) as (R1 & C1 & F1 & T1); [done..|].
  fold w1 in R1, C1, F1, T1. destruct (receive_lines w1 [] body R1) as (R2 & C2 & F2 & T2 & _ & S2).
  fold w2 in R2, C2, F2, T2, S2. simpl in R2.
  assert (txn (session (complete w2)) fs ds) as T'.
  { destruct T1 as (A & B & C). unfold txn. cbn. rewrite F2, T2. split; [exact A|].
    rewrite S2. split; [exact B|]. intros _. apply C. apply R1. }
  set (m' := dbmail_message_set_header m (Some sender)).
  assert (received_message (session (complete w2)) = Some m') as Em.
  { unfold received_message. cbn. destruct R2 as (_ & _ & ->). by rewrite Hm, F2, F1, Hfrom. }
  subst w3. rewrite (data_final _ _ R2). cbn [fst].
  assert (calls (complete w2) = calls w) as Ec by (simpl; congruence).
  destruct (lmtp_data_spec (complete w2) fs ds m' T' Hne Em) as [(_ & _ & _ & X & _)|(_ & _ & _ & X)]; rewrite Ec in X.
  - exists []. exact X.
  - destruct (deliver_list_calls (calls w ++ [CStore m']) m' ds) as [r E].
    destruct (deliver_list _ _ ds) as [tr ds']. destruct X as [X _]. simpl in E. subst tr.
    eexists. etransitivity; [exact X|]. by rewrite <- !app_assoc.
Qed.

(** ** The replies and the state after a message *)
Lemma replied_same c c' :
  healthy c -> errored c' = errored c -> fault c' = fault c -> write_buffer c' = write_buffer c ->
  write_buffer_offset c' = write_buffer_offset c -> wire c' = wire c -> input_side c' = input_side c ->
  tls_wbuf c' = tls_wbuf c -> tls_wbuf_n c' = tls_wbuf_n c -> replied c c' [].
Proof.
  intros Hh E F W O Wi I T1 T2. assert (pending c' = pending c) as P by (unfold pending; by rewrite W, O).
  assert (ssl c' = ssl c) as Hs by (unfold input_side in I; congruence).
  split_and!; [|done|intros He; split_and!; [congruence| |done]].
  - intros He. rewrite E in He. destruct (Hh He) as [X1 X2 X3].
    split; [rewrite W, O; exact X1|rewrite P, Hs; exact X2|rewrite P, Hs, T1, T2; exact X3].
  - unfold stream. by rewrite Wi, P, app_nil_r.
Qed.

Lemma replied_cork c : healthy c -> replied c (ci_cork c) [].
Proof. intros Hh. by apply replied_same. Qed.
Lemma replied_uncork c : healthy c -> replied c (ci_uncork c) [].
Proof.
  intros Hh. unfold ci_uncork. destruct (errored c) eqn:E; [by apply replied_refl|].
  destruct (has_flag _ _); by apply replied_same.
Qed.

(** The deliveries keep the addresses. *)
Lemma deliver_list_address tr m ds : address <$> (deliver_list tr m ds).2 = address <$> ds.
Proof.
  revert tr. induction ds as [|d ds IH]; intros tr; simpl; [done|].
  assert (address (deliver_one tr m d).2 = address d) as E.
  { unfold deliver_one. destruct (deliver_users _ _ _ _ _ _ _ _) as [tr1 [[[ok temp] fail] fq]].
    unfold final_status. case_bool_decide; simpl; repeat case_match; done. }
  destruct (deliver_one tr m d) as [tr1 d1]. specialize (IH tr1). simpl in E.
  destruct (deliver_list tr1 m ds) as [tr2 ds2]. cbn [snd] in *. by rewrite !fmap_cons, E, IH.
Qed.

(** C13. The end of a message that [dbmail_message_init_with_string] made: if the storage takes it,
    every recipient gets exactly one status line, in the order the recipients were given and for
    their addresses, the temporary message is deleted last, and the session is ready for the next
    transaction, with no sender and no recipients; if not, one failure line is sent and the
    transaction is kept. *)
Theorem lmtp_data_replies w text fs ds m :
  receiving w text -> txn (session w) fs ds -> ds <> [] -> plain_io (ci (session w)) ->
  received_message (session w) = Some m ->
  let '(w', go) := lmtp_line w (lit "." ++ crlf) in
  go = true /\ ready (session w') /\
  if answer (calls w) (CStore m) =? DM_EQUERY then
    txn (session w') fs ds /\ calls w' = calls w ++ [CStore m] /\
    replied (ci (session w)) (ci (session w')) (line "430 Message not received")
  else
    exists tr ds', deliver_list (calls w ++ [CStore m]) m ds = (tr, ds') /\
      address <$> ds' = address <$> ds /\ calls w' = tr ++ [CDelete m] /\
      txn (session w') [] [] /\ state (session w') = CLIENTSTATE_AUTHENTICATED /\
      replied (ci (session w)) (ci (session w')) (concat (recipient_line <$> ds')).
Proof.
  intros R T Hne Hp Hm. rewrite (data_final w text R). cbv zeta. split; [done|]. split; [apply rest_ready|].
  assert (txn (session (complete w)) fs ds) as T' by exact T.
  assert (received_message (session (complete w)) = Some m) as Em by exact Hm.
  assert (plain_io (ci (session (complete w)))) as Hp'.
  { destruct Hp as [Hh Hs]. split; [|exact Hs]. by destruct (replied_cork _ Hh). }
  assert (forall t w1, replied (ci (session (complete w))) (ci (session w1)) t ->
    replied (ci (session w)) (ci (session (rest w1))) t) as Tr.
  { intros t w1 Rp. rewrite <- (app_nil_r t). eapply replied_trans; [|apply replied_uncork; by destruct Rp].
    change t with ([] ++ t). eapply replied_trans; [apply replied_cork; by destruct Hp|exact Rp]. }
  destruct (lmtp_data_spec (complete w) fs ds m T' Hne Em) as [(E & _ & _ & X1 & X2 & X3)|(E & _ & _ & X)];
    change (calls (complete w)) with (calls w) in *.
  - rewrite E. change (DM_EQUERY =? DM_EQUERY) with true. cbv iota.
    destruct X2 as (A & B & C). split; [|split; [exact X1|by apply Tr, X3]].
    split; [exact A|]. split; [exact B|by intros [=]].
  - rewrite (proj2 (Z.eqb_neq _ _) E). pose proof (deliver_list_address (calls w ++ [CStore m]) m ds) as Ha.
    destruct (deliver_list _ _ ds) as [tr ds']. destruct X as (X1 & (A & B & C) & X3 & X4).
    exists tr, ds'. split; [done|]. split; [exact Ha|]. split; [exact X1|].
    split; [split; [exact A|split; [exact B|by intros [=]]]|]. split; [exact X3|]. by apply Tr, X4.
Qed.

(** ** What a status says *)

(** The calls and the answers for the local users of a delivery. *)
Definition user_calls (m : DbmailMessage) (d : Delivery_T) (u : Z) : list call :=
  [CDeliver m (address d) u (mailbox d) (source d); CAutoReply m u].
Fixpoint local_results (tr : list call) (m : DbmailMessage) (d : Delivery_T) (us : list Z) : list Z :=
  match us with
  | [] => []
  | u :: us => answer tr (CDeliver m (address d) u (mailbox d) (source d))
               :: local_results (tr ++ user_calls m d u) m d us
  end.
(** Every answer that is not OK, FAIL or QUOTA counts as a temporary failure. *)
Definition temporary (r : Z) : bool :=
  negb ((r =? DSN_CLASS_OK) || (r =? DSN_CLASS_FAIL) || (r =? DSN_CLASS_QUOTA)).
Definition isb (x : Z) (r : Z) : bool := r =? x.

Lemma deliver_users_results tr m d us ok temp fail fq :
  deliver_users tr m d us ok temp fail fq =
    let rs := local_results tr m d us in
    (tr ++ concat (user_calls m d <$> us),
     (ok || existsb (isb DSN_CLASS_OK) rs, temp || existsb temporary rs,
      fail || existsb (isb DSN_CLASS_FAIL) rs, fq || existsb (isb DSN_CLASS_QUOTA) rs)).
Proof.
  revert tr ok temp fail fq. induction us as [|u us IH]; intros; simpl.
  { by rewrite app_nil_r, !orb_false_r. }
  rewrite <- !app_assoc. cbn [app]. fold (user_calls m d u). cbv zeta in IH.
  generalize (answer tr (CDeliver m (address d) u (mailbox d) (source d))). intros r.
  rewrite !IH. rewrite <- !app_assoc. set (tr' := tr ++ user_calls m d u).
  generalize (existsb (isb DSN_CLASS_OK) (local_results tr' m d us)),
    (existsb temporary (local_results tr' m d us)), (existsb (isb DSN_CLASS_FAIL) (local_results tr' m d us)),
    (existsb (isb DSN_CLASS_QUOTA) (local_results tr' m d us)). intros b1 b2 b3 b4.
  destruct (r =? DSN_CLASS_OK) eqn:E1; [|destruct (r =? DSN_CLASS_FAIL) eqn:E2;
    [|destruct (r =? DSN_CLASS_QUOTA) eqn:E3]].
  4: unfold temporary, isb; rewrite E1, E2, E3.
  1-3: apply Z.eqb_eq in E1 || apply Z.eqb_eq in E2 || apply Z.eqb_eq in E3; subst r.
  all: destruct ok, temp, fail, fq; reflexivity.
Qed.

Lemma existsb_Exists {A} (f : A -> bool) l : existsb f l = true <-> Exists (fun x => f x = true) l.
Proof. rewrite existsb_exists, Exists_exists. setoid_rewrite <- list_elem_of_In. done. Qed.

(** The local part of the status: the class after the local deliveries is OK. *)
Definition locally_ok (d : Delivery_T) (rs : list Z) : Prop :=
  (Exists (fun r => temporary r = true) rs /\ forwards d <> []) \/
  (rs <> [] /\ Forall (fun r => r = DSN_CLASS_OK) rs) \/
  (rs = [] /\ dsn_class (dsn d) = DSN_CLASS_OK).

Lemma final_status_ok d rs :
  dsn_class (dsn (final_status d (dsnuser_worstcase_int (existsb (isb DSN_CLASS_OK) rs) (existsb temporary rs)
    (existsb (isb DSN_CLASS_FAIL) rs) (existsb (isb DSN_CLASS_QUOTA) rs)))) = DSN_CLASS_OK <-> locally_ok d rs.
Proof.
  assert (forall f r, r ∈ rs -> f r = true -> existsb f rs = true) as Hin.
  { intros f r H1' H2'. apply existsb_Exists, Exists_exists. eauto. }
  unfold locally_ok, dsnuser_worstcase_int. rewrite <- existsb_Exists.
  destruct (existsb temporary rs) eqn:Et.
  { unfold final_status. cbn [Z.eqb Pos.eqb]. change (DSN_CLASS_TEMP =? DSN_CLASS_OK) with false.
    change (DSN_CLASS_TEMP =? DSN_CLASS_TEMP) with true. cbn [andb orb]. cbv iota.
    assert (rs <> []) by (by intros ->). assert (~ Forall (fun r => r = DSN_CLASS_OK) rs) as Hn.
    { intros Hf. apply existsb_Exists, Exists_exists in Et as (r & Hr & Ht).
      rewrite Forall_forall in Hf. by rewrite (Hf r Hr) in Ht. }
    case_bool_decide as Hl; simpl; (split; [|]).
    - intros _. left. split; [done|]. by intros E; rewrite E in Hl; simpl in Hl; lia.
    - done.
    - done.
    - intros [[_ X]|[[_ X]|[X _]]]; [|done..]. by destruct (forwards d); [|simpl in Hl; lia]. }
  destruct (existsb (isb DSN_CLASS_FAIL) rs) eqn:Ef.
  { split; [done|]. intros [[X _]|[[_ X]|[-> _]]]; [done| |done].
    apply existsb_Exists, Exists_exists in Ef as (r & Hr & Ht).
    rewrite Forall_forall in X. by rewrite (X r Hr) in Ht. }
  destruct (existsb (isb DSN_CLASS_QUOTA) rs) eqn:Eq.
  { split; [unfold final_status; simpl; by destruct quota_softfail|].
    intros [[X _]|[[_ X]|[-> _]]]; [done| |done].
    apply existsb_Exists, Exists_exists in Eq as (r & Hr & Ht).
    rewrite Forall_forall in X. by rewrite (X r Hr) in Ht. }
  destruct rs as [|r rs]; [simpl; split; [auto|intros [[X _]|[[X _]|[_ X]]]; done]|].
  assert (Forall (fun r => r = DSN_CLASS_OK) (r :: rs)) as Hf.
  { apply Forall_forall. intros x Hx. destruct (decide (x = DSN_CLASS_OK)) as [|Hne]; [done|]. exfalso.
    destruct (isb DSN_CLASS_FAIL x) eqn:E1; [by rewrite (Hin _ x Hx E1) in Ef|].
    destruct (isb DSN_CLASS_QUOTA x) eqn:E2; [by rewrite (Hin _ x Hx E2) in Eq|].
    assert (temporary x = true) as E3; [|by rewrite (Hin _ x Hx E3) in Et].
    unfold temporary, isb in *. rewrite E1, E2. by rewrite (proj2 (Z.eqb_neq _ _) Hne). }
  assert (existsb (isb DSN_CLASS_OK) (r :: rs) = true) as ->.
  { apply Forall_cons in Hf as [-> _]. done. }
  split; [intros _; right; by left|done].
Qed.

(** C12. A recipient is reported as delivered (class 2) exactly if the forwards, when there are any,
    were accepted, and either there were local deliveries and all of them succeeded, or there were
    none and the address was resolved as deliverable, or one of them failed temporarily and there
    are forwards, which then cover whatever the other local deliveries answered, refusals for good
    included; and the engine is called once per local user, in order, then once for the forwards. *)
Theorem deliver_one_status tr m d :
  let rs := local_results tr m d (userids d) in
  let tr1 := tr ++ concat (user_calls m d <$> userids d) in
  let fw := CForward m (forwards d) (dbmail_message_get_header m) in
  let '(tr', d') := deliver_one tr m d in
  tr' = tr1 ++ (match forwards d with [] => [] | _ => [fw] end) /\
  (dsn_class (dsn d') = DSN_CLASS_OK <->
     (forwards d = [] \/ answer tr1 fw = 0) /\ locally_ok d rs).
Proof.
  intros rs tr1 fw. unfold deliver_one. rewrite deliver_users_results. cbv zeta. cbn [orb].
  fold rs tr1. pose proof (final_status_ok d rs) as Hs.
  set (d1 := final_status d _) in *.
  assert (forwards d1 = forwards d) as Ef by (subst d1; unfold final_status; repeat case_match; done).
  rewrite Ef. unfold perform. fold fw. destruct (forwards d) as [|f fs] eqn:E.
  - cbn [length]. rewrite bool_decide_eq_false_2 by lia. rewrite app_nil_r. split; [done|]. rewrite Hs.
    split; [auto|by intros [_ ?]].
  - rewrite bool_decide_eq_true_2 by (simpl; lia). split; [done|].
    destruct (answer tr1 fw =? 0) eqn:Ea; cbn [negb]; to_prop.
    + rewrite Hs. split; [by auto|by intros [_ ?]].
    + split; [done|]. by intros [[?|?] _].
Qed.

End facts.

(** ** Witnesses *)
#[local] Existing Instance plain_conf.
#[local] Existing Instance example_auth.
#[local] Instance example_lmtp : LmtpEnv := {|
  dm_db_ping := true;
  answer _ c := match c with CDeliver _ _ u _ _ => if u =? 9 then DSN_CLASS_OK else DSN_CLASS_FAIL | _ => 0 end;
  dbmail_message_get_header m := msg_return_path m;
  conf_quota_failure := [];
|}.

(** A parser that keeps the text as it is. *)
Definition plain_message (text : cstr) : gmime := GMessage (mkmime None [] None [] None text None None None) None None.
#[local] Instance example_parser : MessageParser := {|
  g_mime_parser_construct_message text := Some (plain_message text);
  g_mime_parser_construct_part _ := None; allow_invalid_messages := false; behind _ := [];
|}.
Lemma example_parses_all : parses_all.
Proof. by intros text. Qed.

(** A connection with the given results of its writes, and the lines that it received. *)
Definition example_lworld (ws : list wres) (input : list string) : lworld :=
  let w := lmtp_handle_connection (client_init 16 7 0 ws [] []) (lit "host") (lit "id") in
  upd w (fun s => s <| ci ::= fun c => c <| read_buffer := concat (line <$> input) |> |>).
Definition all_sent : list wres := replicate 30 (Accept 1000).
Definition dialogue : list string := ["LHLO client"; "MAIL FROM:<me@here>"; "RCPT TO:<john+box@example.org>"]%string.

Lemma dialogue_ok : input_ok (concat (line <$> dialogue)).
Proof.
  assert (concat (line <$> dialogue) =
    concat ((fun l => l ++ [LF]) <$> ((fun s => lit s ++ [CR]) <$> dialogue))) as -> by (vm_compute; reflexivity).
  apply input_ok_lines. repeat apply Forall_cons_2; [..|apply Forall_nil_2];
    (split; [apply (bool_decide_eq_true_1 _); vm_compute; reflexivity|]);
    (split; [pose proof MAX_LINESIZE_Z; cbn [length app lit String.list_ascii_of_string]; lia|]);
    intros c v a p Hp Hc Hf; vm_compute in Hp; simplify_eq; vm_compute in Hc, Hf; simplify_eq.
  intros i j Hi Hj. vm_compute in Hi, Hj. simplify_eq. lia.
Qed.

Lemma example_lworld_good : lmtp_good (example_lworld all_sent dialogue).
Proof.
  split; [|split; [|split]].
  - split; [exists []; split; vm_compute; [reflexivity|lia]|]. exists [], [].
    split; [split; vm_compute; [reflexivity|lia]|].
    split; [vm_compute; split; [reflexivity|discriminate]|intros E; vm_compute in E; discriminate E].
  - left. split; [vm_compute; reflexivity|]. split; vm_compute; [reflexivity|lia].
  - split; [vm_compute; reflexivity|]. right. split; [|vm_compute; reflexivity].
    split; [exists []; split; vm_compute; [reflexivity|lia]|intros E; vm_compute in E; discriminate E..].
  - vm_compute. lia.
Qed.

Lemma lmtp_handle_input_safe_witness :
  fault (ci (session (lmtp_handle_input (example_lworld all_sent dialogue)))) = false /\
  length (items (rcpt_list (lmtp_handle_input (example_lworld all_sent dialogue)))) = 1%nat.
Proof.
  destruct (lmtp_handle_input_safe (example_lworld all_sent dialogue)) as [E|[F _]].
  - exact example_parses_all.
  - exact example_lworld_good.
  - assert (unread (ci (session (example_lworld all_sent dialogue))) = concat (line <$> dialogue)) as ->
      by (vm_compute; reflexivity).
    exact dialogue_ok.
  - exfalso. vm_compute in E. discriminate E.
  - split; [exact F|]. vm_compute. reflexivity.
Defined.

(** The example session in front of DATA. *)
Definition addressed : lworld := lmtp_handle_input (example_lworld all_sent dialogue).
Definition body : list cstr := [lit "Subject: x" ++ crlf; crlf; lit ".dot" ++ crlf].
Definition example_delivery : Delivery_T :=
  {| d_useridnr := 0; address := Some (lit "john+box@example.org"); mailbox := None; source := BOX_NONE;
     userids := [7]; forwards := []; dsn := mkdsn DSN_CLASS_OK 1 5 |}.

Lemma addressed_txn : txn (session addressed) [lit "me@here"] [example_delivery].
Proof.
  split; [split; vm_compute; [reflexivity|lia]|]. split; [|intros E; vm_compute in E; discriminate E].
  assert (rcpt (session addressed) = Some (mkplist [Some example_delivery] 0)) as -> by (vm_compute; reflexivity).
  split; vm_compute; [reflexivity|lia].
Qed.

(** The message that is made of the body. *)
Definition body_message : DbmailMessage :=
  make_message DBMAIL_MESSAGE (concat body) (plain_message (concat body)) None.
Definition sent_message : DbmailMessage := dbmail_message_set_header body_message (Some (lit "me@here")).

Lemma lmtp_data_text_witness :
  (exists rest,
    calls (lmtp_line (foldl (fun w l => (lmtp_line w l).1) (lmtp_line addressed (line "DATA")).1 (stuff <$> body))
             (lit "." ++ crlf)).1 =
    calls addressed ++ CStore sent_message :: rest) /\ msg_stream body_message = concat body.
Proof.
  assert (dbmail_message_init_with_string (concat body) = Some body_message) as Em by (vm_compute; reflexivity).
  destruct (lmtp_data_text addressed [lit "me@here"] [example_delivery] (lit "me@here") body (line "DATA") (lit "DATA") None body_message
    ltac:(vm_compute; reflexivity) addressed_txn ltac:(discriminate) ltac:(vm_compute; reflexivity) ltac:(vm_compute; reflexivity)
    ltac:(vm_compute; reflexivity) ltac:(vm_compute; reflexivity) ltac:(reflexivity) Em) as [C T].
  split; [exact C|]. apply T; [discriminate|by eexists].
Defined.

(** The example session when the text of a message has been received. *)
Definition received : lworld :=
  foldl (fun w l => (lmtp_line w l).1) (lmtp_line addressed (line "DATA")).1 (stuff <$> body).

Lemma received_ok : receiving received (concat body) /\ txn (session received) [lit "me@here"] [example_delivery].
Proof.
  assert (command_type (session addressed) = 0) as E1 by (vm_compute; reflexivity).
  assert (rbuff (session addressed) = []) as E2 by (vm_compute; reflexivity).
  assert (state (session addressed) = CLIENTSTATE_AUTHENTICATED) as E3 by (vm_compute; reflexivity).
  assert (p_list_data (from (session addressed)) = Some (lit "me@here")) as E4 by (vm_compute; reflexivity).
  assert (lmtp_parse (line "DATA") = Some (lit "DATA", None)) as E5 by (vm_compute; reflexivity).
  destruct (data_accepted addressed [lit "me@here"] [example_delivery] (lit "me@here") (line "DATA") (lit "DATA") None
              E1 addressed_txn ltac:(discriminate) E2 E3 E4 E5 ltac:(reflexivity)) as (R & _ & _ & A & B & C).
  destruct (receive_lines _ [] body R) as (R' & _ & F & Rc & _ & St).
  split; [exact R'|]. unfold received, txn. rewrite F, Rc, St. split; [exact A|]. split; [exact B|].
  intros _. apply C. apply R.
Qed.

Lemma lmtp_data_replies_witness :
  calls (lmtp_line received (lit "." ++ crlf)).1 =
    [CStore sent_message;
     CDeliver sent_message (Some (lit "john+box@example.org")) 7 None BOX_NONE;
     CAutoReply sent_message 7;
     CDelete sent_message] /\
  replied (ci (session received)) (ci (session (lmtp_line received (lit "." ++ crlf)).1))
    (line "511 Recipient <john+box@example.org> Permanent Failure Address Status Bad destination mailbox address").
Proof.
  pose proof (lmtp_data_replies received (concat body) [lit "me@here"] [example_delivery] sent_message
    (proj1 received_ok) (proj2 received_ok) ltac:(discriminate)) as T.
  assert (plain_io (ci (session received))) as Hp.
  { split; [|vm_compute; reflexivity]. intros _. split; [|intros E; vm_compute in E; discriminate E..].
    exists []. split; vm_compute; [reflexivity|lia]. }
  specialize (T Hp ltac:(vm_compute; reflexivity)). destruct (lmtp_line received (lit "." ++ crlf)) as [w' go]. destruct T as (_ & _ & T).
  change (answer (calls received) _ =? DM_EQUERY) with false in T. cbv iota in T.
  destruct T as (tr & ds' & E & _ & Ec & _ & _ & Rp). cbn [fst].
  assert (calls received = []) as Ec0 by (vm_compute; reflexivity).
  rewrite Ec0 in E. vm_compute in E. injection E as <- <-. split; [exact Ec|exact Rp].
Defined.

(** ** Findings *)

(** With a forward that is accepted, the temporary failure of one local delivery hides that another
    one was refused for good: the recipient is reported as delivered. *)
Lemma temporary_hides_failure d : forwards d <> [] ->
  dsn_class (dsn (final_status d (dsnuser_worstcase_int false true true true))) = DSN_CLASS_OK.
Proof.
  intros Hf. unfold final_status. cbn [Z.eqb Pos.eqb]. change (dsnuser_worstcase_int false true true true) with DSN_CLASS_TEMP.
  change (DSN_CLASS_TEMP =? DSN_CLASS_OK) with false. change (DSN_CLASS_TEMP =? DSN_CLASS_TEMP) with true. cbn [andb].
  rewrite bool_decide_eq_true_2; [done|]. destruct (forwards d); [done|simpl; lia].
Qed.

(** RSET authenticates a session that never said LHLO, and so opens the way to MAIL. *)
Lemma lmtp_rset_authenticates :
  let w := lmtp_handle_input (example_lworld all_sent ["RSET"; "MAIL FROM:<me@here>"]%string) in
  state (session w) = CLIENTSTATE_AUTHENTICATED /\ items (from (session w)) = [Some (lit "me@here")].
Proof. vm_compute. done. Qed.

(** Lines behind QUIT in the same packet are still executed: RSET revives the session. *)
Lemma lmtp_quit_revived :
  state (session (lmtp_handle_input (example_lworld all_sent ["QUIT"; "RSET"]%string))) = CLIENTSTATE_AUTHENTICATED.
Proof. vm_compute. done. Qed.

(** When the connection breaks while further lines wait, the buffer is emptied but its offset
    is kept, and the next read of a line starts behind the end of the buffer. *)
Lemma lmtp_broken_write_overreads :
  fault (ci (session (lmtp_handle_input (example_lworld [Accept 100; Fail 32] ["NOOP"; "NOOP"]%string)))) = true.
Proof. vm_compute. done. Qed.
