(* ===== verification/SieveScript.v ===== *)
(** * dm_sievescript.c: the script table

    Every function of dm_sievescript.c on the table of scripts. A statement can throw; a
    transaction that throws is rolled back. The functions are sequences of statements of
    SqlState. *)
From S2P Require Import Prelude CLib GLib ClientBase SqlState.

Record srow := mksrow { script : cstr; active : Z }.
#[export] Instance srow_settable : Settable srow := fun r => mksrow (script r) (active r).
(** The table by owner and name, which are unique. *)
Definition key_countable : Countable (Z * cstr) := _.
Abbreviation stable := (@gmap (Z * cstr) _ key_countable srow).
Abbreviation SDB := (sqldb stable).
Abbreviation scripts := tables.
Abbreviation SQL := (SQL stable).

(** ** Statements *)
Definition select_row (user : Z) (name : cstr) : SQL (option srow) := exec (fun t => (t, t !! (user, name))).
Definition select_where (user : Z) (p : cstr -> srow -> bool) : SQL (list (cstr * srow)) :=
  exec (fun t => (t, omap (fun '((u, n), r) => if (u =? user) && p n r then Some (n, r) else None) (map_to_list t))).
Definition delete_row (user : Z) (name : cstr) : SQL unit := exec (fun t => (delete (user, name) t, tt)).
Definition insert_row (user : Z) (name : cstr) (r : srow) : SQL unit := exec (fun t => (<[(user, name) := r]> t, tt)).
(** UPDATE of the rows of a user. *)
Definition set_active (user : Z) (p : cstr -> bool) (a : Z) : SQL unit :=
  exec (fun t => (map_imap (fun k r => Some (if (k.1 =? user) && p k.2 then r <| active := a |> else r)) t, tt)).

(** ** The functions *)
Definition is_active (r : srow) : bool := active r =? 1.

Definition dm_sievescript_getbyname (user : Z) (name : cstr) (d : SDB) : SDB * (Z * option cstr) :=
  try_catch (r ← select_row user name; mret (0, script <$> r)) (DM_EQUERY, None) d.

Definition dm_sievescript_isactive_byname (user : Z) (name : option cstr) (d : SDB) : SDB * Z :=
  try_catch (l ← select_where user (fun n r => is_active r && match name with Some m => streq n m | None => true end);
             mret (if bool_decide (l = []) then 0 else 1)) DM_EQUERY d.
Definition dm_sievescript_isactive (user : Z) (d : SDB) : SDB * Z := dm_sievescript_isactive_byname user None d.

Definition dm_sievescript_get (user : Z) (d : SDB) : SDB * (Z * option cstr) :=
  try_catch (l ← select_where user (fun _ r => is_active r); mret (0, fst <$> head l)) (DM_EQUERY, None) d.

Definition SCRIPTNAME_SIZE : nat := 512.
(** The rows in reverse order, the names cut to their field. *)
Definition dm_sievescript_list (user : Z) (d : SDB) : SDB * (Z * list (cstr * Z)) :=
  try_catch (l ← select_where user (fun _ _ => true);
             mret (0, (fun e => (take (SCRIPTNAME_SIZE - 1) e.1, active e.2)) <$> reverse l)) (DM_EQUERY, []) d.

Definition dm_sievescript_rename (user : Z) (scriptname newname : cstr) (d : SDB) : SDB * Z :=
  transaction (
    r ← select_row user newname;
    (if r : option srow then delete_row user newname else mret tt);;
    exec (fun t => (match t !! (user, scriptname) with
                    | Some s => <[(user, newname) := s <| active := from_option active 0 r |>]> (delete (user, scriptname) t)
                    | None => t
                    end, tt));;
    mret 0) DM_EQUERY d.

(** The count is a row of its own, so that the DELETE is always executed. *)
Definition dm_sievescript_add (user : Z) (scriptname text : cstr) (d : SDB) : SDB * Z :=
  transaction (
    select_row user scriptname;;
    delete_row user scriptname;;
    insert_row user scriptname (mksrow text 1);;
    mret 0) DM_EQUERY d.

Definition dm_sievescript_deactivate (user : Z) (scriptname : cstr) (d : SDB) : SDB * bool :=
  try_catch (set_active user (streq scriptname) 0;; mret true) false d.

Definition dm_sievescript_activate (user : Z) (scriptname : cstr) (d : SDB) : SDB * bool :=
  transaction (
    set_active user (fun _ => true) 0;;
    set_active user (streq scriptname) 1;;
    mret true) false d.

Definition dm_sievescript_delete (user : Z) (scriptname : cstr) (d : SDB) : SDB * bool :=
  try_catch (delete_row user scriptname;; mret true) false d.

Definition dm_sievescript_quota_check (user scriptlen : Z) : Z := DM_SUCCESS.
