(* ===== verification/Sieve.v ===== *)
(** * sieve.c: the ManageSieve server

    The tokenizer with its literals, every command, the input loop and the callbacks. The
    scripts are the table of SieveScript; the login is [auth_validate] of Auth; the compiler
    of Sieve scripts is an operation of the class [SieveEnv]. *)
From S2P Require Import Prelude CLib GLib ListT ClientBase ClientSession MiscText Cidr Auth SqlState SieveScript.

Definition SIEVE_LOUT : Z := 0.
Definition SIEVE_STLS : Z := 1.
Definition SIEVE_CAPA : Z := 2.
Definition SIEVE_LIST : Z := 3.
Definition SIEVE_AUTH : Z := 4.
Definition SIEVE_DELS : Z := 5.
Definition SIEVE_GETS : Z := 6.
Definition SIEVE_SETS : Z := 7.
Definition SIEVE_SPAC : Z := 8.
Definition SIEVE_PUTS : Z := 9.
Definition SIEVE_END : Z := 10.
Definition commands : list cstr := lit <$>
  ["LOGOUT"; "STARTTLS"; "CAPABILITY"; "LISTSCRIPTS"; "AUTHENTICATE"; "DELETESCRIPT"; "GETSCRIPT"; "SETACTIVE";
   "HAVESPACE"; "PUTSCRIPT"]%string.
Definition MAX_FAULTY_RESPONSES : Z := 3.
Definition TEMP_SCRIPT : cstr := lit "@!temp-script!@".

(** What the server calls: the check of the connection to the data base, and the compiler,
    which yields an error text or nothing when it cannot be started. *)
Class SieveEnv := {
  dm_db_ping : SDB -> bool;
  sort_validate : SDB -> Z -> cstr -> option cstr;
  conf_banner : cstr;            (** banner *)
  conf_version : cstr;           (** DM_VERSION *)
  sieve_extensions : cstr;
}.

Record sworld := mksworld { session : ClientSession_T; sdb : SDB; sock : cstr }.
#[export] Instance sworld_settable : Settable sworld := fun w => mksworld (session w) (sdb w) (sock w).

(** A text between quotes. *)
Definition quoted (t : cstr) : cstr := DQUOTE :: t ++ [DQUOTE].
Definition NO (t : string) : cstr := lit "NO " ++ quoted (lit t) ++ crlf.
Definition OK (t : string) : cstr := lit "OK " ++ quoted (lit t) ++ crlf.

(** [base64_decodev]: the texts between the NUL bytes. *)
Definition base64_decodev `{GLibBase64} (str : cstr) : list cstr :=
  let bytes := g_base64_decode str in glib_strsplit (length bytes) bytes NUL.

Section sieve.
Context `{ServerConf} `{GLibStr} `{GLibBase64} `{Digests} `{AuthTables} `{SocketLib} `{SieveEnv}.

(** ** Replies *)
Definition upd (w : sworld) (f : ClientSession_T -> ClientSession_T) : sworld := w <| session ::= f |>.
Definition reply (w : sworld) (f : cstr) (a : list farg) : sworld :=
  upd w (fun s => s <| ci ::= fun c => (ci_write c f a).1 |>).
(** Undefined behaviour, or an assertion that fails. *)
Definition undefined (w : sworld) : sworld := upd w (fun s => s <| ci ::= fun c => c <| fault := true |> |>).

(** [sieve_error]: the formatted text is handed to [ci_write] as a format. *)
Definition sieve_error (w : sworld) (f : cstr) (a : list farg) : sworld * Z :=
  if MAX_FAULTY_RESPONSES <=? error_count (session w) then
    (upd (reply w (lit "BYE " ++ quoted (lit "Too many errors, closing connection.") ++ crlf) [])
       (fun s => s <| SessionResult := 2 |>), -3)
  else
    let w := reply w (default [] (cformat f a)) [] in
    if errored (ci (session w)) then (w, -3)
    else (upd w (fun s => s <| error_count ::= Z.succ |>), 1).

Definition send_greeting (w : sworld) : sworld :=
  if negb (dm_db_ping (sdb w))
  then upd (reply w (lit "BYE " ++ quoted (lit "database has gone fishing") ++ crlf) [])
         (fun s => s <| state := CLIENTSTATE_QUIT |>)
  else
    let name := quoted (lit "IMPLEMENTATION") ++ [SP] in
    let w := match conf_banner with
             | [] => reply w (name ++ quoted (lit "DBMail sieved %s") ++ crlf) [FS conf_version]
             | _ => reply w (name ++ quoted (lit "%s") ++ crlf) [FS conf_banner]
             end in
    let w := reply w (quoted (lit "SASL") ++ [SP] ++ quoted (lit "PLAIN") ++ crlf) [] in
    let w := reply w (quoted (lit "SIEVE") ++ [SP] ++ quoted (lit "%s") ++ crlf) [FS sieve_extensions] in
    let w := reply w (quoted (lit "STARTTLS") ++ crlf) [] in
    reply w (lit "OK" ++ crlf) [].

(** ** The tokenizer *)

(** The loop over the value: the previous character, whether a quote is open, and the text
    that is read. The result is the rest of the text, or the size of a literal. *)
Fixpoint value_loop (s : cstr) (p : ascii) (inquote : bool) (t : cstr) (args : plist cstr) : plist cstr * (cstr + Z) :=
  match s with
  | [] => (args, inl t)
  | c :: s =>
      let quote := bool_decide (c = DQUOTE) && negb (bool_decide (p = BACKSLASH)) in
      if inquote then
        if quote then value_loop s c false [] (p_list_append args (Some t))
        else value_loop s c true (t ++ [c]) args
      else if quote then value_loop s c true t args
      else if bool_decide (c = SP) && negb (bool_decide (p = BACKSLASH)) then value_loop s c false t args
      else if bool_decide (c = "{"%char) then (args, inr (strtoull s))
      else value_loop s c false (t ++ [c]) args
  end.

(** The number of a command. *)
Definition command_number (command : cstr) : Z :=
  match list_find (fun c => strcaseeq command c = true) commands with
  | Some (i, _) => Z.of_nat i
  | None => SIEVE_END
  end.

(** The walk that leaves the arguments at their last one. *)
Definition args_last (s : ClientSession_T) : ClientSession_T :=
  let s := s <| args ::= p_list_first |> in
  match walk args (fun s L => s <| args := L |>) (length (items (args s)))
          (fun s d => match d with Some _ => inl s | None => inr s end) s with
  | inl s | inr s => s
  end.

(** A part of a literal. *)
Definition literal_line (w : sworld) (buffer : cstr) : sworld * Z :=
  let n := Z.to_nat (rbuff_size (ci (session w)) `min` strlen buffer) in
  let w := upd w (fun s => s <| rbuff ::= fun b => b ++ take n buffer |>
                             <| ci ::= fun c => c <| rbuff_size ::= fun m => m - Z.of_nat n |> |>) in
  let w := if rbuff_size (ci (session w)) =? 0 then
             upd w (fun s => s <| args := p_list_append (args s) (Some (rbuff s)) |> <| rbuff := [] |> <| parser_state := true |>)
           else w in
  (w, if parser_state (session w) then 1 else 0).

(** The value of a command, and the end. *)
Definition tokenize_value (w : sworld) (value : option cstr) : sworld * Z :=
  let finish w := (upd w (fun s => args_last (s <| parser_state := true |>)), 1) in
  match value with
  | None => finish w
  | Some v =>
      let '(L, r) := value_loop v NUL false [] (args (session w)) in
      match r with
      | inr size => (upd w (fun s => s <| args := L |> <| ci ::= fun c => c <| rbuff_size := size |> |>), 0)
      | inl t => finish (upd w (fun s => s <| args := match t with [] => L | _ => p_list_append L (Some t) end |>))
      end
  end.

Definition sieve_tokenizer (w : sworld) (buffer : cstr) : sworld * Z :=
  let rest w value buffer :=
    if negb (rbuff_size (ci (session w)) =? 0) then literal_line w buffer else tokenize_value w value in
  if command_type (session w) =? 0 then
    match command_words buffer with
    | None => (w, 0)
    | Some (command, value) =>
        let n := command_number command in
        if bool_decide (value = None) && negb (n <=? SIEVE_LIST) && (n <? SIEVE_END)
        then sieve_error w (NO "This command requires an argument.") []
        else rest (upd w (fun s => s <| command_type := n |>)) value command
    end
  else rest w None buffer.

(** ** The commands *)

(** The first argument, with the arguments set to it. *)
Definition first_arg (w : sworld) : sworld * option cstr :=
  let w := upd w (fun s => s <| args ::= p_list_first |>) in (w, p_list_data (args (session w))).
Definition authenticated (w : sworld) (k : sworld * Z) : sworld * Z :=
  if state (session w) =? CLIENTSTATE_AUTHENTICATED then k else (reply w (NO "Please authenticate first.") [], 1).
(** A function of the script table. *)
Definition run_sql {A} (w : sworld) (f : SDB -> SDB * A) : sworld * A :=
  let '(d, x) := f (sdb w) in (w <| sdb := d |>, x).

Definition sieve_logout (w : sworld) : sworld * Z :=
  (upd (reply w (OK "Bye.") []) (fun s => s <| state := CLIENTSTATE_QUIT |>), 1).

Definition sieve_starttls (w : sworld) : sworld * Z :=
  if state (session w) =? CLIENTSTATE_AUTHENTICATED then (reply w (lit "Already authenticatd" ++ crlf) [], 1)
  else if negb conf_ssl then (reply w (lit "NO TLS not available" ++ crlf) [], 1)
  else if negb (ssl_state (ci (session w)) =? 0) then (reply w (lit "NO TLS already active" ++ crlf) [], 1)
  else
    let w := reply w (lit "OK Begin TLS now" ++ crlf) [] in
    let '(c, iret) := ci_starttls (ci (session w)) in
    let w := upd w (fun s => s <| ci := c |>) in
    if iret <? 0 then (w, 1)
    else (send_greeting w, if iret =? 0 then 3 else iret).

Definition sieve_capability (w : sworld) : sworld * Z := (send_greeting w, 1).

(** The login with the decoded response. *)
Definition sieve_login (w : sworld) (tmp64 : list cstr) : sworld * Z :=
  let i := length tmp64 in
  let w := if bool_decide (i < 3)%nat then (sieve_error w (NO "Too few encoded SASL arguments.") []).1 else w in
  let w := if bool_decide (i < 2)%nat then undefined w else w in
  match auth_validate None (sock w) (tmp64 !! 1%nat) (tmp64 !! 2%nat) with
  | None => (undefined w, 1)
  | Some v =>
      if valid v =? 1 then
        (upd (reply w (lit "OK" ++ crlf) []) (fun s =>
           client_session_set_timeout
             (s <| state := CLIENTSTATE_AUTHENTICATED |> <| useridnr := user_idnr v |>
                <| ClientSession.username := tmp64 !! 1%nat |> <| ClientSession.password := tmp64 !! 2%nat |>) conf_timeout), 1)
      else sieve_error w (NO "Username or password incorrect.") []
  end.
Definition sieve_authenticate (w : sworld) : sworld * Z :=
  let '(w, arg) := first_arg w in
  match arg with
  | None => (w, 1)
  | Some arg =>
      if strcaseeq arg (lit "PLAIN") then
        match p_list_next (args (session w)) with
        | None => sieve_error w (NO "Missing argument.") []
        | Some L => match p_list_data L with
                    | Some s => sieve_login w (base64_decodev s)
                    | None => (undefined w, 1)
                    end
        end
      else sieve_error w (NO "Authentication scheme not supported.") []
  end.

(** PUTSCRIPT behind its arguments: the script is stored under a temporary name, compiled, and
    renamed. *)
Definition put_script (w : sworld) (user : Z) (scriptname text : cstr) : sworld * Z :=
  if 2 ^ 32 - 1 <=? strlen text then sieve_error w (NO "Invalid script length.") []
  else if negb (dm_sievescript_quota_check user (strlen text) =? 0) then sieve_error w (NO "Script exceeds available space.") []
  else
    let remove w := (run_sql w (dm_sievescript_delete user TEMP_SCRIPT)).1 in
    let '(w, r) := run_sql w (dm_sievescript_add user TEMP_SCRIPT text) in
    if negb (r =? 0) then sieve_error (remove w) (NO "Error inserting script.") []
    else
      match sort_validate (sdb w) user TEMP_SCRIPT with
      | None => sieve_error (remove w) (NO "Error inserting script.") []
      | Some [] =>
          let '(w, r) := run_sql w (dm_sievescript_rename user TEMP_SCRIPT scriptname) in
          if negb (r =? 0) then sieve_error w (NO "Error inserting script.") []
          else (reply w (OK "Script successfully received.") [], 1)
      | Some e => sieve_error (remove w) (lit "NO " ++ quoted (lit "Script error: %s.") ++ crlf) [FS e]
      end.
Definition sieve_putscript (w : sworld) : sworld * Z :=
  authenticated w (
    let '(w, arg) := first_arg w in
    match arg with
    | None => (w, 1)
    | Some scriptname =>
        match p_list_next (args (session w)) with
        | None => (undefined w, 1)
        | Some L =>
            let w := upd w (fun s => s <| args := L |>) in
            match p_list_data L with
            | Some text => put_script w (useridnr (session w)) scriptname text
            | None => (undefined w, 1)
            end
        end
    end).

Definition sieve_setactive (w : sworld) : sworld * Z :=
  authenticated w (
    let '(w, arg) := first_arg w in
    let user := useridnr (session w) in
    match default [] arg with
    | [] =>
        let '(w, (_, name)) := run_sql w (dm_sievescript_get user) in
        match name with
        | None => (reply w (OK "No scripts are active at this time.") [], 1)
        | Some name =>
            let '(w, ok) := run_sql w (dm_sievescript_deactivate user name) in
            (reply w (if ok : bool then OK "All scripts deactivated." else NO "Error deactivating script.") [], 1)
        end
    | scriptname =>
        let '(w, ok) := run_sql w (dm_sievescript_activate user scriptname) in
        (reply w (if ok : bool then OK "Script activated." else NO "Error activating script.") [], 1)
    end).

(** GETSCRIPT and DELETESCRIPT need a name. *)
Definition with_name (w : sworld) (k : sworld -> cstr -> sworld * Z) : sworld * Z :=
  authenticated w (
    let '(w, arg) := first_arg w in
    match arg with
    | None => (w, 1)
    | Some [] => sieve_error w (NO "Script name required.") []
    | Some name => k w name
    end).
(** The length is printed with %u, that is modulo 2^32. *)
Definition sieve_getscript (w : sworld) : sworld * Z :=
  with_name w (fun w name =>
    let '(w, (_, text)) := run_sql w (dm_sievescript_getbyname (useridnr (session w)) name) in
    match text with
    | None => sieve_error w (NO "Script not found.") []
    | Some text =>
        let w := reply w (lit "{%lu}" ++ crlf) [FU (wrap32 (strlen text))] in
        let w := reply w (lit "%s" ++ crlf) [FS text] in
        (reply w (lit "OK" ++ crlf) [], 1)
    end).
Definition sieve_deletescript (w : sworld) : sworld * Z :=
  with_name w (fun w name =>
    let '(w, ok) := run_sql w (dm_sievescript_delete (useridnr (session w)) name) in
    if negb ok then sieve_error w (NO "Error deleting script.") []
    else (reply w (OK "Script deleted.") [FS name], 1)).

Definition sieve_havespace (w : sworld) : sworld * Z :=
  authenticated w (
    (reply w (if dm_sievescript_quota_check (useridnr (session w)) 12345 =? 0 then lit "OK (QUOTA)" ++ crlf
              else lit "NO (QUOTA) " ++ quoted (lit "Quota exceeded") ++ crlf) [], 1)).

Definition list_line (w : sworld) (e : cstr * Z) : sworld :=
  reply w (quoted (lit "%s") ++ lit "%s" ++ crlf) [FS e.1; FS (if e.2 =? 1 then lit " ACTIVE" else [])].
Definition sieve_listscripts (w : sworld) : sworld * Z :=
  authenticated w (
    let '(w, (r, l)) := run_sql w (dm_sievescript_list (useridnr (session w))) in
    if r <? 0 then (reply w (NO "Internal error.") [], 1)
    else match l with
         | [] => (reply w (OK "No scripts found.") [], 1)
         | _ => (reply (foldl list_line w l) (lit "OK" ++ crlf) [], 1)
         end).

Definition sieve (w : sworld) : sworld * Z :=
  let c := command_type (session w) in
  if c =? SIEVE_LOUT then sieve_logout w
  else if c =? SIEVE_STLS then sieve_starttls w
  else if c =? SIEVE_CAPA then sieve_capability w
  else if c =? SIEVE_AUTH then sieve_authenticate w
  else if c =? SIEVE_PUTS then sieve_putscript w
  else if c =? SIEVE_SETS then sieve_setactive w
  else if c =? SIEVE_GETS then sieve_getscript w
  else if c =? SIEVE_DELS then sieve_deletescript w
  else if c =? SIEVE_SPAC then sieve_havespace w
  else if c =? SIEVE_LIST then sieve_listscripts w
  else sieve_error w (NO "What are you trying to say here?") [].

(** ** Events *)

(** One line: the world, and whether the session goes on. *)
Definition sieve_line (w : sworld) (buffer : cstr) : sworld * bool :=
  let '(w, l) := sieve_tokenizer w buffer in
  if l =? 0 then (w, true)
  else if l =? -3 then (upd w client_session_bailout, false)
  else
    let '(w, r) := sieve (upd w (fun s => s <| ci ::= ci_cork |>)) in
    if r =? -3 then (upd w client_session_bailout, false)
    else (upd w (fun s => client_session_reset_parser (s <| ci ::= ci_uncork |>)), true).

(** [sieve_handle_input]: every turn consumes a line of the input. A line that fills the buffer
    has no terminator. *)
Fixpoint input_loop (fuel : nat) (w : sworld) : sworld :=
  match fuel with
  | O => w
  | S fuel =>
      let '(c, buffer) := ci_readln (ci (session w)) in
      let w := upd w (fun s => s <| ci := c |>) in
      match buffer with
      | [] => w
      | _ =>
          let w := if bool_decide (MAX_LINESIZE <= length buffer)%nat then undefined w else w in
          let '(w, go) := sieve_line w (cstring_of buffer) in
          if go : bool then input_loop fuel w else w
      end
  end.
Definition sieve_handle_input (w : sworld) : sworld :=
  input_loop (S (length (unread (ci (session w))))) w.

Definition sieve_cb_time (w : sworld) : sworld :=
  upd (reply w (lit "BYE " ++ quoted (lit "Connection timed out.") ++ crlf) []) client_session_bailout.

Definition sieve_cb_write (w : sworld) : sworld :=
  let st := state (session w) in
  if (st =? CLIENTSTATE_QUIT_QUEUED) || (st =? CLIENTSTATE_QUIT) then w
  else
    let c := ci (session w) in
    if bool_decide (write_buffer_offset c < length (default [] (write_buffer c)))%nat
    then upd w (fun s => s <| ci := (ci_write_msg c None).1 |>)
    else sieve_handle_input w.

Definition sieve_handle_connection (c : ClientBase_T) (sock host uid : cstr) (d : SDB) : sworld :=
  let s := client_session_new c host uid in
  let w := mksworld (client_session_set_timeout (s <| state := CLIENTSTATE_NON_AUTHENTICATED |>) conf_login_timeout) d sock in
  upd (send_greeting w) (fun s => s <| ci ::= ci_uncork |>).

End sieve.
