(* ===== verification/SieveFacts.v ===== *)
(** * Properties of the ManageSieve server

    Who may change scripts, what the commands do to the script table, what is left when a
    statement fails, and the transfer of a script as a literal. *)
From S2P Require Import Prelude CLib GLib ListT ClientBase ClientFrame ClientSession MiscText Cidr Auth AuthExample SqlState SieveScript Sieve.

(** ** The script table *)

#[export] Instance srow_eq_dec : EqDecision srow.
Proof. solve_decision. Defined.

(** The rows of other users are left alone. *)
Definition other_rows (user : Z) (t t' : stable) : Prop := forall k : Z * cstr, k.1 <> user -> t' !! k = t !! k.
#[export] Instance other_rows_order user : PreOrder (other_rows user).
Proof. split; [done|]. intros t1 t2 t3 H1 H2 k N. by rewrite H2, H1. Qed.
Definition spares {A} (user : Z) (m : SQL A) : Prop := respects (other_rows user) m.
Lemma spares_ret {A} (user : Z) (x : A) : spares user (mret x).
Proof. apply respects_ret; apply _. Qed.
Lemma spares_exec {A} (user : Z) (f : stable -> stable * A) :
  (forall t (k : Z * cstr), k.1 <> user -> (f t).1 !! k = t !! k) -> spares user (exec f).
Proof. intros Hf. apply respects_exec; [apply _|]. exact Hf. Qed.
Lemma spares_bind {A B} (user : Z) (m : SQL A) (k : A -> SQL B) : spares user m -> (forall x, spares user (k x)) -> spares user (m ≫= k).
Proof. apply respects_bind; apply _. Qed.
Lemma spares_select user name : spares user (select_row user name).
Proof. by apply spares_exec. Qed.
Lemma spares_where user p : spares user (select_where user p).
Proof. by apply spares_exec. Qed.
Lemma spares_delete user name : spares user (delete_row user name).
Proof. apply spares_exec. intros t [u n] N. simpl in *. by rewrite lookup_delete_ne by congruence. Qed.
Lemma spares_insert user name r : spares user (insert_row user name r).
Proof. apply spares_exec. intros t [u n] N. simpl in *. by rewrite lookup_insert_ne by congruence. Qed.
Lemma spares_set_active user p a : spares user (set_active user p a).
Proof.
  apply spares_exec. intros t [u n] N. simpl in *. rewrite map_lookup_imap. simpl.
  rewrite (proj2 (Z.eqb_neq u user) N). by destruct (t !! (u, n)).
Qed.
#[export] Hint Resolve spares_ret spares_bind spares_select spares_where spares_delete spares_insert spares_set_active : sql.

Lemma spares_transaction {A} (user : Z) (m : SQL A) t d (k : Z * cstr) :
  spares user m -> k.1 <> user -> scripts (transaction m t d).1 !! k = scripts d !! k.
Proof. intros S N. by apply (respects_transaction (other_rows user)). Qed.
Lemma spares_try {A} (user : Z) (m : SQL A) t d (k : Z * cstr) :
  spares user m -> k.1 <> user -> scripts (try_catch m t d).1 !! k = scripts d !! k.
Proof. intros S N. by apply (respects_try (other_rows user)). Qed.

(** The functions, one by one. *)
Section functions.
Context (user : Z).
Definition spares_fun {A} (f : SDB -> SDB * A) : Prop := forall d (k : Z * cstr), k.1 <> user -> scripts (f d).1 !! k = scripts d !! k.
Lemma spares_rename a b : spares_fun (dm_sievescript_rename user a b).
Proof.
  intros d k. apply spares_transaction. repeat (apply spares_bind; [|intros ?]); auto with sql.
  - case_match; auto with sql.
  - apply spares_exec. intros t [u n] N. simpl in *. destruct (t !! _); [|done]. simpl.
    by rewrite lookup_insert_ne, lookup_delete_ne by congruence.
Qed.
Lemma spares_add a b : spares_fun (dm_sievescript_add user a b).
Proof. intros d k. apply spares_transaction. auto 10 with sql. Qed.
Lemma spares_delete_fun a : spares_fun (dm_sievescript_delete user a).
Proof. intros d k. apply spares_try. auto with sql. Qed.
Lemma spares_activate a : spares_fun (dm_sievescript_activate user a).
Proof. intros d k. apply spares_transaction. auto with sql. Qed.
Lemma spares_deactivate a : spares_fun (dm_sievescript_deactivate user a).
Proof. intros d k. apply spares_try. auto with sql. Qed.
Lemma spares_get : spares_fun (dm_sievescript_get user).
Proof. intros d k. apply spares_try. auto with sql. Qed.
Lemma spares_getbyname a : spares_fun (dm_sievescript_getbyname user a).
Proof. intros d k. apply spares_try. auto with sql. Qed.
Lemma spares_list : spares_fun (dm_sievescript_list user).
Proof. intros d k. apply spares_try. auto with sql. Qed.
End functions.
#[export] Hint Resolve spares_rename spares_add spares_delete_fun spares_activate spares_deactivate spares_get spares_getbyname spares_list : sql.

(** ** The server *)
Section server.
Context `{ServerConf} `{GLibStr} `{GLibBase64} `{Digests} `{AuthTables} `{SocketLib} `{SieveEnv}.
Abbreviation st w := (ClientSession.state (session w)).
Abbreviation owner w := (useridnr (session w)).

(** A client has shown the credentials of a user. *)
Definition accepted (sock : cstr) (user : Z) : Prop :=
  exists u p v, auth_validate None sock u p = Some v /\ valid v = 1 /\ user_idnr v = user.
Definition genuine (w : sworld) : Prop := st w = CLIENTSTATE_AUTHENTICATED -> accepted (sock w) (owner w).

(** Replies and changes of the parser: no script changes, and nobody is logged in. *)
Record quiet (w w' : sworld) : Prop := {
  q_db : sdb w' = sdb w;
  q_sock : sock w' = sock w;
  q_state : st w' = CLIENTSTATE_AUTHENTICATED -> st w = CLIENTSTATE_AUTHENTICATED;
  q_owner : owner w' = owner w;
}.
#[local] Instance quiet_preorder : PreOrder quiet.
Proof. split; [by intros w|]. intros w1 w2 w3 [A1 A2 A3 A4] [B1 B2 B3 B4]. split; [congruence..| |congruence]. auto. Qed.
(** A command of a user: only rows of that user change. *)
Record serves (w w' : sworld) : Prop := {
  s_rows : forall k : Z * cstr, k.1 <> owner w -> scripts (sdb w') !! k = scripts (sdb w) !! k;
  s_sock : sock w' = sock w;
  s_state : st w' = CLIENTSTATE_AUTHENTICATED -> st w = CLIENTSTATE_AUTHENTICATED;
  s_owner : owner w' = owner w;
}.
#[local] Instance serves_preorder : PreOrder serves.
Proof.
  split; [by intros w|]. intros w1 w2 w3 [A1 A2 A3 A4] [B1 B2 B3 B4]. split; [|congruence|auto|congruence].
  intros k N. rewrite B1, A1; congruence.
Qed.
(** What every step of the server keeps. *)
Record lawful (w w' : sworld) : Prop := {
  l_sock : sock w' = sock w;
  l_genuine : genuine w -> genuine w';
  l_rows : genuine w -> forall k : Z * cstr, scripts (sdb w') !! k <> scripts (sdb w) !! k -> accepted (sock w) k.1;
}.
#[local] Instance lawful_preorder : PreOrder lawful.
Proof.
  split; [by intros w|]. intros w1 w2 w3 [A1 A2 A3] [B1 B2 B3]. split; [congruence|auto|].
  intros G k N. destruct (decide (scripts (sdb w2) !! k = scripts (sdb w1) !! k)) as [E|E]; [|by apply A3].
  rewrite <- A1. apply B3; [auto|congruence].
Qed.
Lemma serves_lawful w w' : st w = CLIENTSTATE_AUTHENTICATED -> serves w w' -> lawful w w'.
Proof.
  intros E [A1 A2 A3 A4]. split; [done| |].
  - intros G _. rewrite A2, A4. auto.
  - intros G k N. destruct (decide (k.1 = owner w)) as [->|D]; [auto|]. by destruct N; apply A1.
Qed.
Lemma quiet_serves w w' : quiet w w' -> serves w w'.
Proof. intros [A1 A2 A3 A4]. split; [|done..]. by rewrite A1. Qed.
Lemma quiet_lawful w w' : quiet w w' -> lawful w w'.
Proof.
  intros [A1 A2 A3 A4]. split; [done| |by rewrite A1]. unfold genuine. rewrite A2, A4. auto.
Qed.

Lemma quiet_upd w f :
  (forall s, (ClientSession.state (f s) = CLIENTSTATE_AUTHENTICATED -> ClientSession.state s = CLIENTSTATE_AUTHENTICATED) /\
             useridnr (f s) = useridnr s) -> quiet w (upd w f).
Proof. intros Hf. destruct (Hf (session w)) as [A B]. by split. Qed.
Lemma quiet_reply w f a : quiet w (reply w f a).
Proof. by apply quiet_upd. Qed.
Lemma sieve_quiet_error w f a : quiet w (sieve_error w f a).1.
Proof.
  unfold sieve_error. destruct (_ <=? _); [|destruct (errored _)]; simpl; try apply quiet_reply;
    (etransitivity; [apply quiet_reply|by apply quiet_upd]).
Qed.
Lemma quiet_greeting w : quiet w (send_greeting w).
Proof.
  unfold send_greeting. destruct (negb _); [etransitivity; [apply quiet_reply|by apply quiet_upd]|].
  destruct conf_banner; repeat (etransitivity; [|apply quiet_reply]); reflexivity.
Qed.
Lemma quiet_then w w1 w2 : quiet w1 w2 -> quiet w w1 -> quiet w w2.
Proof. intros A B. by etransitivity. Qed.
Lemma serves_then w w1 w2 : serves w1 w2 -> serves w w1 -> serves w w2.
Proof. intros A B. by etransitivity. Qed.
Lemma serves_sql {A} w (f : SDB -> SDB * A) : spares_fun (owner w) f -> serves w (run_sql w f).1.
Proof. intros S. unfold run_sql. specialize (S (sdb w)). by destruct (f (sdb w)). Qed.

(** Commands that do not touch the scripts. *)
Lemma quiet_literal w b : quiet w (literal_line w b).1.
Proof.
  unfold literal_line. cbn [fst]. destruct (_ =? 0); [etransitivity|]; by apply quiet_upd.
Qed.
Lemma quiet_args_last s : ClientSession.state (args_last s) = ClientSession.state s /\ useridnr (args_last s) = useridnr s.
Proof.
  unfold args_last. set (s1 := s <| args ::= _ |>).
  pose proof (walk_preserves args (fun s L => s <| args := L |>)
    (fun z => ClientSession.state z = ClientSession.state s /\ useridnr z = useridnr s)
    (fun z => ClientSession.state z = ClientSession.state s /\ useridnr z = useridnr s)
    (fun s d => match d with Some _ => inl s | None => inr s end) (length (items (args s1))) s1) as W.
  destruct (walk _ _ _ _ _); apply W; try done; intros ? [] ?; done.
Qed.
Lemma quiet_value w v : quiet w (tokenize_value w v).1.
Proof.
  assert (forall w, quiet w (upd w (fun s => args_last (s <| parser_state := true |>)))) as F.
  { intros z. apply quiet_upd. intros s. destruct (quiet_args_last (s <| parser_state := true |>)) as [-> ->]. done. }
  unfold tokenize_value. destruct v as [v|]; [|apply F].
  destruct (value_loop v NUL false [] (args (session w))) as [L [t|n]]; simpl; [|by apply quiet_upd].
  etransitivity; [|apply F]. by apply quiet_upd.
Qed.
Lemma quiet_tokenizer w b : quiet w (sieve_tokenizer w b).1.
Proof.
  unfold sieve_tokenizer. destruct (_ =? 0).
  - destruct (command_words b) as [[c v]|]; [|reflexivity]. destruct (_ && _); [apply sieve_quiet_error|].
    destruct (negb _); (etransitivity; [|first [apply quiet_literal|apply quiet_value]]); by apply quiet_upd.
  - destruct (negb _); [apply quiet_literal|apply quiet_value].
Qed.
Lemma quiet_first_arg w : quiet w (first_arg w).1.
Proof. by apply quiet_upd. Qed.
Lemma quiet_starttls w : quiet w (sieve_starttls w).1.
Proof.
  unfold sieve_starttls. repeat (destruct (_ : bool); [apply quiet_reply|]).
  destruct (ci_starttls _) as [c r]. destruct (_ <? 0); simpl; [|eapply quiet_then; [apply quiet_greeting|]];
    (eapply quiet_then; [by apply quiet_upd|apply quiet_reply]).
Qed.
Lemma lawful_login w l : lawful w (sieve_login w l).1.
Proof.
  unfold sieve_login. set (w1 := if bool_decide (length l < 3)%nat then _ else w).
  set (w2 := if bool_decide (length l < 2)%nat then _ else w1).
  assert (quiet w w2) as Q.
  { transitivity w1; [subst w1; case_bool_decide; [apply sieve_quiet_error|reflexivity]|].
    subst w2; case_bool_decide; [by apply quiet_upd|reflexivity]. }
  transitivity w2; [by apply quiet_lawful|]. clearbody w2. clear Q w1.
  destruct (auth_validate None (sock w2) (l !! 1%nat) (l !! 2%nat)) as [v|] eqn:E; [|by apply quiet_lawful, quiet_upd].
  destruct (Z.eqb_spec (valid v) 1) as [V|]; [|apply quiet_lawful, sieve_quiet_error].
  split; [done| |by intros _ k N]. intros _ _. by exists (l !! 1%nat), (l !! 2%nat), v.
Qed.
Lemma lawful_authenticate w : lawful w (sieve_authenticate w).1.
Proof.
  unfold sieve_authenticate. pose proof (quiet_lawful _ _ (quiet_first_arg w)) as Q.
  destruct (first_arg w) as [w1 [arg|]]; [|exact Q]. etransitivity; [exact Q|].
  destruct (strcaseeq _ _); [|apply quiet_lawful, sieve_quiet_error].
  destruct (p_list_next _) as [L|]; [|apply quiet_lawful, sieve_quiet_error].
  destruct (p_list_data L); [apply lawful_login|by apply quiet_lawful, quiet_upd].
Qed.

(** Commands of a user who is logged in. *)
Lemma lawful_authenticated w k : serves w k.1 -> lawful w (authenticated w k).1.
Proof.
  intros S. unfold authenticated. destruct (Z.eqb_spec (st w) CLIENTSTATE_AUTHENTICATED); [by apply serves_lawful|].
  apply quiet_lawful, quiet_reply.
Qed.
Lemma serves_reply w f a : serves w (reply w f a).
Proof. apply quiet_serves, quiet_reply. Qed.
Lemma serves_error w f a : serves w (sieve_error w f a).1.
Proof. apply quiet_serves, sieve_quiet_error. Qed.
Lemma serves_put w user n t : user = owner w -> serves w (put_script w user n t).1.
Proof.
  intros ->. unfold put_script. destruct (_ <=? _); [apply serves_error|]. destruct (negb _); [apply serves_error|].
  assert (forall v, owner v = owner w -> serves v (run_sql v (dm_sievescript_delete (owner w) TEMP_SCRIPT)).1) as D.
  { intros v E. apply serves_sql. rewrite E. auto with sql. }
  pose proof (serves_sql w (dm_sievescript_add (owner w) TEMP_SCRIPT t) ltac:(auto with sql)) as A.
  destruct (run_sql w _) as [w1 r]. simpl in A. etransitivity; [exact A|]. pose proof (s_owner _ _ A) as O.
  destruct (negb _); [eapply serves_then; [apply serves_error|auto]|].
  destruct (sort_validate _ _ _) as [[|c e]|]; [|eapply serves_then; [apply serves_error|auto]..].
  pose proof (serves_sql w1 (dm_sievescript_rename (owner w) TEMP_SCRIPT n)) as R. rewrite O in R. specialize (R ltac:(auto with sql)).
  destruct (run_sql w1 _) as [w2 r2]. simpl in R.
  destruct (negb _); (eapply serves_then; [first [apply serves_error|apply serves_reply]|exact R]).
Qed.
Lemma serves_first_arg w : serves w (first_arg w).1.
Proof. apply quiet_serves, quiet_first_arg. Qed.
Lemma lawful_putscript w : lawful w (sieve_putscript w).1.
Proof.
  unfold sieve_putscript. apply lawful_authenticated. pose proof (serves_first_arg w) as Q.
  destruct (first_arg w) as [w1 [arg|]]; [|exact Q]. etransitivity; [exact Q|].
  destruct (p_list_next _) as [L|]; [|by apply quiet_serves, quiet_upd].
  eapply serves_then; [|apply quiet_serves, (quiet_upd w1 (fun s => s <| args := L |>)); done].
  destruct (p_list_data L); [by apply serves_put|by apply quiet_serves, quiet_upd].
Qed.
Lemma lawful_setactive w : lawful w (sieve_setactive w).1.
Proof.
  unfold sieve_setactive. apply lawful_authenticated. pose proof (serves_first_arg w) as Q.
  destruct (first_arg w) as [w1 arg]. etransitivity; [exact Q|]. clear Q. destruct (default [] arg) as [|c n].
  - pose proof (serves_sql w1 (dm_sievescript_get (owner w1)) ltac:(auto with sql)) as A.
    destruct (run_sql w1 _) as [w2 [r [name|]]]; simpl in A; [|eapply serves_then; [apply serves_reply|exact A]].
    pose proof (serves_sql w2 (dm_sievescript_deactivate (owner w1) name)) as D. rewrite (s_owner _ _ A) in D.
    specialize (D ltac:(auto with sql)). destruct (run_sql w2 _) as [w3 ok]. simpl in D.
    eapply serves_then; [apply serves_reply|]. by etransitivity.
  - pose proof (serves_sql w1 (dm_sievescript_activate (owner w1) (c :: n)) ltac:(auto with sql)) as A.
    destruct (run_sql w1 _) as [w2 ok]. eapply serves_then; [apply serves_reply|exact A].
Qed.
Lemma lawful_with_name w k : (forall w n, serves w (k w n).1) -> lawful w (with_name w k).1.
Proof.
  intros K. unfold with_name. apply lawful_authenticated. pose proof (serves_first_arg w) as Q.
  destruct (first_arg w) as [w1 [[|c n]|]]; [| |exact Q].
  - eapply serves_then; [apply serves_error|exact Q].
  - eapply serves_then; [apply K|exact Q].
Qed.
Lemma lawful_getscript w : lawful w (sieve_getscript w).1.
Proof.
  apply lawful_with_name. intros v n.
  pose proof (serves_sql v (dm_sievescript_getbyname (owner v) n) ltac:(auto with sql)) as A.
  destruct (run_sql v _) as [w2 [r [t|]]]; simpl in A; [|eapply serves_then; [apply serves_error|exact A]].
  do 3 (eapply serves_then; [apply serves_reply|]). exact A.
Qed.
Lemma lawful_deletescript w : lawful w (sieve_deletescript w).1.
Proof.
  apply lawful_with_name. intros v n.
  pose proof (serves_sql v (dm_sievescript_delete (owner v) n) ltac:(auto with sql)) as A.
  destruct (run_sql v _) as [w2 ok]; simpl in A.
  destruct (negb ok); (eapply serves_then; [first [apply serves_error|apply serves_reply]|exact A]).
Qed.
Lemma lawful_listscripts w : lawful w (sieve_listscripts w).1.
Proof.
  unfold sieve_listscripts. apply lawful_authenticated.
  pose proof (serves_sql w (dm_sievescript_list (owner w)) ltac:(auto with sql)) as A.
  destruct (run_sql w _) as [w2 [r l]]; simpl in A. etransitivity; [exact A|]. clear A.
  destruct (r <? 0); [apply serves_reply|]. destruct l as [|e l]; [apply serves_reply|].
  eapply serves_then; [apply serves_reply|]. generalize (e :: l). intros l'. revert w2.
  induction l' as [|x l' IH]; intros w2; simpl; [reflexivity|]. eapply serves_then; [apply IH|apply serves_reply].
Qed.
Lemma lawful_sieve w : lawful w (sieve w).1.
Proof.
  unfold sieve. repeat (destruct (_ =? _); [try solve [apply lawful_authenticate|apply lawful_putscript|apply lawful_setactive
    |apply lawful_getscript|apply lawful_deletescript|apply lawful_listscripts|apply quiet_lawful, quiet_starttls
    |apply quiet_lawful, quiet_greeting]|]).
  - apply quiet_lawful. eapply quiet_then; [by apply quiet_upd|apply quiet_reply].
  - apply lawful_authenticated, serves_reply.
  - apply quiet_lawful, sieve_quiet_error.
Qed.

Lemma quiet_bailout w : quiet w (upd w client_session_bailout).
Proof.
  apply quiet_upd. intros s. unfold client_session_bailout. destruct (ci_wbuf_len (ci s)). split; [by intros [=]|done].
Qed.
Lemma lawful_line w b : lawful w (sieve_line w b).1.
Proof.
  unfold sieve_line. pose proof (quiet_lawful _ _ (quiet_tokenizer w b)) as T.
  destruct (sieve_tokenizer w b) as [w1 l]. simpl in T. destruct (l =? 0); [exact T|].
  destruct (l =? -3); [etransitivity; [exact T|apply quiet_lawful, quiet_bailout]|].
  etransitivity; [exact T|]. set (w2 := upd w1 _).
  assert (lawful w1 w2) as C by (by apply quiet_lawful, quiet_upd). etransitivity; [exact C|].
  pose proof (lawful_sieve w2) as S. destruct (sieve w2) as [w3 r]. simpl in S. etransitivity; [exact S|].
  destruct (r =? -3); [apply quiet_lawful, quiet_bailout|]. by apply quiet_lawful, quiet_upd.
Qed.
Lemma lawful_loop fuel w : lawful w (input_loop fuel w).
Proof.
  revert w. induction fuel as [|fuel IH]; intros w; simpl; [reflexivity|].
  destruct (ci_readln _) as [c b]. set (w1 := upd w _). assert (lawful w w1) as A by (by apply quiet_lawful, quiet_upd).
  etransitivity; [exact A|]. destruct b as [|x b]; [reflexivity|].
  set (w2 := if bool_decide _ then _ else _).
  assert (lawful w1 w2) as B by (subst w2; case_bool_decide; [by apply quiet_lawful, quiet_upd|reflexivity]).
  etransitivity; [exact B|]. pose proof (lawful_line w2 (cstring_of (x :: b))) as L. destruct (sieve_line w2 _) as [w3 [|]]; [|exact L].
  etransitivity; [exact L|apply IH].
Qed.

(** The events of a connection: the callbacks, and whatever the network does to it. *)
Inductive sieve_event :=
  | SieveInput | SieveWrite | SieveTimeout | SieveNetwork (f : ClientBase_T -> ClientBase_T).
Definition sieve_handle (w : sworld) (e : sieve_event) : sworld :=
  match e with
  | SieveInput => sieve_handle_input w
  | SieveWrite => sieve_cb_write w
  | SieveTimeout => sieve_cb_time w
  | SieveNetwork f => upd w (fun s => s <| ci ::= f |>)
  end.
Lemma lawful_handle w e : lawful w (sieve_handle w e).
Proof.
  destruct e; simpl.
  - apply lawful_loop.
  - unfold sieve_cb_write. destruct (_ || _); [reflexivity|]. case_bool_decide; [by apply quiet_lawful, quiet_upd|apply lawful_loop].
  - apply quiet_lawful. eapply quiet_then; [apply quiet_bailout|apply quiet_reply].
  - by apply quiet_lawful, quiet_upd.
Qed.
Lemma lawful_events es w : lawful w (foldl sieve_handle w es).
Proof.
  revert w. induction es as [|e es IH]; intros w; simpl; [reflexivity|]. etransitivity; [apply lawful_handle|apply IH].
Qed.
Lemma connection_quiet c sock host uid d :
  let w := sieve_handle_connection c sock host uid d in
  sdb w = d /\ Sieve.sock w = sock /\ st w <> CLIENTSTATE_AUTHENTICATED.
Proof.
  cbv zeta. unfold sieve_handle_connection. set (w0 := mksworld _ d sock).
  assert (quiet w0 (upd (send_greeting w0) (fun s => s <| ci ::= ci_uncork |>))) as Q.
  { etransitivity; [apply quiet_greeting|by apply quiet_upd]. }
  destruct Q as [-> -> Q _]. split_and!; [done|done|]. intros E. by apply Q in E.
Qed.

(** C31. Whatever a connection sends and however its events follow each other: a script of a user
    only changes when the client has shown credentials of that user which [auth_validate]
    accepts, and a session that is logged in acts for such a user. *)
Theorem sieve_scripts_protected c sock host uid d es :
  let w := foldl sieve_handle (sieve_handle_connection c sock host uid d) es in
  (forall user name, scripts (sdb w) !! (user, name) <> scripts d !! (user, name) -> accepted sock user) /\
  (st w = CLIENTSTATE_AUTHENTICATED -> accepted sock (owner w)).
Proof.
  cbv zeta. destruct (connection_quiet c sock host uid d) as (D & S & N).
  set (w0 := sieve_handle_connection c sock host uid d) in *.
  assert (genuine w0) as G by by intros ?. destruct (lawful_events es w0) as [L1 L2 L3]. rewrite S, D in *. split.
  - intros user name E. exact (L3 G (user, name) E).
  - unfold genuine in L2. rewrite L1 in L2. auto.
Qed.

(** ** The commands on the table *)

(** What the commands mean, on a table where no statement fails. *)
Definition put_spec (t : stable) (user : Z) (name text : cstr) : stable :=
  let t' := delete (user, TEMP_SCRIPT) t in
  if bool_decide (name = TEMP_SCRIPT) then t'
  else <[(user, name) := mksrow text (from_option active 0 (t !! (user, name)))]> t'.
Definition activate_spec (t : stable) (user : Z) (name : cstr) : stable :=
  map_imap (fun k r => Some (if k.1 =? user then r <| active := if streq name k.2 then 1 else 0 |> else r)) t.
(** No script of the user is active. *)
Definition deactivate_spec (t : stable) (user : Z) : stable :=
  map_imap (fun k r => Some (if (k.1 =? user) && is_active r then r <| active := 0 |> else r)) t.
Definition single_active (t : stable) (user : Z) : Prop := forall n m r s,
  t !! (user, n) = Some r -> t !! (user, m) = Some s -> active r = 1 -> active s = 1 -> n = m.

(** The effect of a command with its arguments. *)
Definition command_spec (t : stable) (user c : Z) (xs : list cstr) : stable :=
  if c =? SIEVE_PUTS then
    match xs with
    | name :: text :: _ =>
        if 2 ^ 32 - 1 <=? strlen text then t
        else match sort_validate (mksdb (<[(user, TEMP_SCRIPT) := mksrow text 1]> (delete (user, TEMP_SCRIPT) t)) []) user TEMP_SCRIPT with
             | Some [] => put_spec t user name text
             | _ => delete (user, TEMP_SCRIPT) t
             end
    | _ => t
    end
  else if c =? SIEVE_SETS then
    match default [] (head xs) with
    | [] => deactivate_spec t user
    | name => activate_spec t user name
    end
  else if c =? SIEVE_DELS then
    match default [] (head xs) with [] => t | name => delete (user, name) t end
  else t.

Lemma calm_add t user name text :
  dm_sievescript_add user name text (mksdb t []) = (mksdb (<[(user, name) := mksrow text 1]> (delete (user, name) t)) [], 0).
Proof. done. Qed.
Lemma calm_delete t user name : dm_sievescript_delete user name (mksdb t []) = (mksdb (delete (user, name) t) [], true).
Proof. done. Qed.
(** The table behind a script that was stored and renamed. *)
Lemma put_spec_renames t user name text :
  let t1 := <[(user, TEMP_SCRIPT) := mksrow text 1]> (delete (user, TEMP_SCRIPT) t) in
  let t2 := if t1 !! (user, name) then delete (user, name) t1 else t1 in
  match t2 !! (user, TEMP_SCRIPT) with
  | Some s => <[(user, name) := s <| active := from_option active 0 (t1 !! (user, name)) |>]> (delete (user, TEMP_SCRIPT) t2)
  | None => t2
  end = put_spec t user name text.
Proof.
  cbv zeta. unfold put_spec. case_bool_decide as D.
  - subst name. rewrite lookup_insert_eq, lookup_delete_eq. rewrite delete_insert_eq.
    apply map_eq. intros k. destruct (decide (k = (user, TEMP_SCRIPT))) as [->|]; by simplify_map_eq.
  - assert ((user, TEMP_SCRIPT) <> (user, name)) as D' by congruence.
    rewrite lookup_insert_ne, lookup_delete_ne by done.
    destruct (t !! (user, name)) as [r|] eqn:E; rewrite ?lookup_delete_ne, lookup_insert_eq by done;
      apply map_eq; intros k; (destruct (decide (k = (user, TEMP_SCRIPT))) as [->|]; [by simplify_map_eq|]);
      (destruct (decide (k = (user, name))) as [->|]; by simplify_map_eq).
Qed.
Lemma calm_rename t user name text :
  dm_sievescript_rename user TEMP_SCRIPT name (mksdb (<[(user, TEMP_SCRIPT) := mksrow text 1]> (delete (user, TEMP_SCRIPT) t)) []) =
  (mksdb (put_spec t user name text) [], 0).
Proof.
  rewrite <- put_spec_renames. set (t1 := <[_ := _]> _). unfold dm_sievescript_rename, select_row, delete_row. apply transaction_calm. calm.
  destruct (t1 !! (user, name)) as [r|].
  - by calm.
  - rewrite (bind_calm (mret tt) _ _ t1 tt) by done. by calm.
Qed.
Lemma lookup_set_active (t : stable) (user : Z) p a k :
  map_imap (fun (k : Z * cstr) r => Some (if (k.1 =? user) && p k.2 then r <| active := a |> else r)) t !! k =
  (fun r => if (k.1 =? user) && p k.2 then r <| active := a |> else r) <$> t !! k.
Proof. rewrite map_lookup_imap. by destruct (t !! k). Qed.
Lemma calm_activate t user name :
  dm_sievescript_activate user name (mksdb t []) = (mksdb (activate_spec t user name) [], true).
Proof.
  unfold dm_sievescript_activate, set_active. apply transaction_calm. calm.
  refine (f_equal (fun t => (mksdb t [], Some true)) _).
  apply map_eq. intros k. unfold activate_spec. rewrite (lookup_set_active _ user (streq name)), (lookup_set_active t user (fun _ => true)), map_lookup_imap.
  destruct (t !! k) as [r|]; [|done]. simpl. destruct (k.1 =? user); [|done]. simpl. by destruct (streq name k.2).
Qed.
Lemma rows_of_user (t : stable) user (p : cstr -> srow -> bool) name :
  name ∈ (fst <$> omap (fun '((u, n), r) => if (u =? user) && p n r then Some (n, r) else None) (map_to_list t)) <->
  exists r, t !! (user, name) = Some r /\ p name r = true.
Proof.
  rewrite list_elem_of_fmap. split.
  - intros ([n r] & -> & E). apply list_elem_of_omap in E as ([[u m] s] & E & F). apply elem_of_map_to_list in E.
    destruct (Z.eqb_spec u user) as [->|]; [|done]. simpl in F. destruct (p m s) eqn:P; [|done].
    injection F as -> ->. eauto.
  - intros (r & E & P). exists (name, r). split; [done|]. apply list_elem_of_omap. exists ((user, name), r).
    split; [by apply elem_of_map_to_list|]. by rewrite Z.eqb_refl, P.
Qed.
Lemma calm_get t user :
  exists name, dm_sievescript_get user (mksdb t []) = (mksdb t [], (0, name)) /\
    match name with
    | Some n => exists r, t !! (user, n) = Some r /\ is_active r = true
    | None => forall n r, t !! (user, n) = Some r -> is_active r = false
    end.
Proof.
  unfold dm_sievescript_get, select_where. eexists. split; [apply try_calm; calm; reflexivity|].
  pose proof (rows_of_user t user (fun _ r => is_active r)) as R. cbn in R.
  destruct (omap _ _) as [|[n s] l] eqn:E; simpl.
  - intros n r L. destruct (is_active r) eqn:A; [|done]. exfalso.
    assert (n ∈ (fst <$> (@nil (cstr * srow)))) as X by (apply R; eauto). by apply not_elem_of_nil in X.
  - apply R. simpl. left.
Qed.

Lemma calm_deactivate t user name :
  dm_sievescript_deactivate user name (mksdb t []) =
  (mksdb (map_imap (fun k r => Some (if (k.1 =? user) && streq name k.2 then r <| active := 0 |> else r)) t) [], true).
Proof. unfold dm_sievescript_deactivate, set_active. apply try_calm. by calm. Qed.

(** What is answered does not matter for the table. *)
Lemma run_sql_eq {A} w (f : SDB -> SDB * A) d x : f (sdb w) = (d, x) -> run_sql w f = (w <| sdb := d |>, x).
Proof. unfold run_sql. by intros ->. Qed.
Lemma error_table w f a : sdb (sieve_error w f a).1 = sdb w.
Proof. apply sieve_quiet_error. Qed.

Lemma put_script_table w t user name text :
  sdb w = mksdb t [] -> sdb (put_script w user name text).1 = mksdb (command_spec t user SIEVE_PUTS [name; text]) [].
Proof.
  intros E. unfold put_script, command_spec. cbn [Z.eqb SIEVE_PUTS Pos.eqb]. destruct (_ <=? _); [by rewrite error_table|].
  cbn [dm_sievescript_quota_check DM_SUCCESS Z.eqb negb].
  erewrite run_sql_eq by (rewrite E; apply calm_add). cbn [Z.eqb negb]. set (t1 := <[_ := _]> (delete _ t)).
  change (sdb (w <| sdb := mksdb t1 [] |>)) with (mksdb t1 []).
  assert (forall v f a, sdb v = mksdb t1 [] ->
    sdb (sieve_error (run_sql v (dm_sievescript_delete user TEMP_SCRIPT)).1 f a).1 = mksdb (delete (user, TEMP_SCRIPT) t) []) as F.
  { intros v f a Ev. rewrite error_table. erewrite run_sql_eq by (rewrite Ev; apply calm_delete). simpl. f_equal.
    unfold t1. by rewrite delete_insert_eq, delete_delete_eq. }
  destruct (sort_validate _ user TEMP_SCRIPT) as [[|c e]|]; [|by apply F..].
  erewrite run_sql_eq by apply calm_rename. done.
Qed.
Lemma first_arg_eq w xs : holds (args (session w)) xs ->
  (first_arg w).2 = head xs /\ sdb (first_arg w).1 = sdb w /\ st (first_arg w).1 = st w /\ owner (first_arg w).1 = owner w /\
  match p_list_next (args (session (first_arg w).1)) with
  | Some L => p_list_data L = xs !! 1%nat /\ xs !! 1%nat <> None
  | None => xs !! 1%nat = None
  end.
Proof.
  intros Hh. pose proof (holds_first _ _ Hh) as F. unfold first_arg. simpl. split_and!; try done.
  - rewrite (holds_data_eq _ _ F). by destruct xs.
  - unfold p_list_next. case_decide as D.
    + pose proof (holds_cursor _ _ 1 F D) as G. split; [exact (holds_data_eq _ _ G)|]. simpl in D.
      rewrite (holds_items_length _ _ Hh) in D. apply not_eq_None_Some, lookup_lt_is_Some. lia.
    + simpl in D. rewrite (holds_items_length _ _ Hh) in D. apply lookup_ge_None. lia.
Qed.

Lemma deactivate_current t user name r :
  single_active t user -> t !! (user, name) = Some r -> is_active r = true ->
  map_imap (fun k r => Some (if (k.1 =? user) && streq name k.2 then r <| active := 0 |> else r)) t = deactivate_spec t user.
Proof.
  intros U L A. apply map_eq. intros [u m]. unfold deactivate_spec. rewrite (lookup_set_active t user (streq name)), map_lookup_imap.
  destruct (t !! (u, m)) as [s|] eqn:E; [|done]. simpl. destruct (Z.eqb_spec u user) as [->|]; [|done]. simpl.
  unfold streq. case_bool_decide as D.
  - subst m. assert (s = r) as -> by congruence. by rewrite A.
  - destruct (is_active s) eqn:B; [|done]. unfold is_active in *. to_prop. destruct D. by eapply U.
Qed.
Lemma deactivate_none t user : (forall n r, t !! (user, n) = Some r -> is_active r = false) -> deactivate_spec t user = t.
Proof.
  intros N. apply map_eq. intros [u m]. unfold deactivate_spec. rewrite map_lookup_imap. destruct (t !! (u, m)) as [s|] eqn:E; [|done].
  simpl. destruct (Z.eqb_spec u user) as [->|]; [|done]. by rewrite (N _ _ E).
Qed.
Lemma table_authenticated w k : st w = CLIENTSTATE_AUTHENTICATED -> authenticated w k = k.
Proof. unfold authenticated. by intros ->. Qed.
Lemma putscript_table w t xs :
  st w = CLIENTSTATE_AUTHENTICATED -> sdb w = mksdb t [] -> holds (args (session w)) xs ->
  sdb (sieve_putscript w).1 = mksdb (command_spec t (owner w) SIEVE_PUTS xs) [].
Proof.
  intros S E Hh. unfold sieve_putscript. rewrite table_authenticated by done.
  destruct (first_arg_eq w xs Hh) as (A & D & _ & O & N). destruct (first_arg w) as [w1 arg]. cbn [fst snd] in *. subst arg.
  rewrite E in D. destruct xs as [|name xs]; simpl; [done|].
  destruct (p_list_next _) as [L|]; [|by destruct xs].
  destruct N as [-> N]. destruct xs as [|text xs]; [done|]. simpl. rewrite O.
  rewrite (put_script_table (upd w1 (fun s => s <| args := L |>)) t) by done. done.
Qed.
Lemma setactive_table w t xs :
  st w = CLIENTSTATE_AUTHENTICATED -> sdb w = mksdb t [] -> holds (args (session w)) xs -> single_active t (owner w) ->
  sdb (sieve_setactive w).1 = mksdb (command_spec t (owner w) SIEVE_SETS xs) [].
Proof.
  intros S E Hh U. unfold sieve_setactive. rewrite table_authenticated by done.
  destruct (first_arg_eq w xs Hh) as (A & D & _ & O & _). destruct (first_arg w) as [w1 arg]. cbn [fst snd] in *. subst arg.
  rewrite E in D. unfold command_spec. cbn [Z.eqb SIEVE_SETS SIEVE_PUTS Pos.eqb]. rewrite O.
  destruct (default [] (head xs)) as [|c n].
  - destruct (calm_get t (owner w)) as (name & G & F). erewrite run_sql_eq by (rewrite D; exact G). destruct name as [name|].
    + destruct F as (r & L & B). erewrite run_sql_eq by apply calm_deactivate. by rewrite (deactivate_current _ _ _ _ U L B).
    + simpl. by rewrite (deactivate_none _ _ F).
  - erewrite run_sql_eq by (rewrite D; apply calm_activate). done.
Qed.
Lemma with_name_table w t xs k n :
  st w = CLIENTSTATE_AUTHENTICATED -> sdb w = mksdb t [] -> holds (args (session w)) xs ->
  (forall v, sdb v = mksdb t [] -> owner v = owner w -> sdb (k v (default [] (head xs))).1 = mksdb n []) ->
  sdb (with_name w k).1 = mksdb (match default [] (head xs) with [] => t | _ => n end) [].
Proof.
  intros S E Hh K. unfold with_name. rewrite table_authenticated by done.
  destruct (first_arg_eq w xs Hh) as (A & D & _ & O & _). destruct (first_arg w) as [w1 arg]. cbn [fst snd] in *. subst arg.
  rewrite E in D. destruct xs as [|[|c m] xs]; simpl in *; [done|by rewrite error_table|]. by rewrite K.
Qed.
Lemma calm_getbyname t user name :
  dm_sievescript_getbyname user name (mksdb t []) = (mksdb t [], (0, script <$> t !! (user, name))).
Proof. unfold dm_sievescript_getbyname, select_row. apply try_calm. by calm. Qed.
Lemma list_lines_table w l : sdb (foldl list_line w l) = sdb w.
Proof. revert w. induction l as [|e l IH]; intros w; simpl; [done|]. by rewrite IH. Qed.
Lemma listscripts_table w t : sdb w = mksdb t [] -> sdb (sieve_listscripts w).1 = mksdb t [].
Proof.
  intros E. unfold sieve_listscripts, authenticated. destruct (_ =? _); [|done].
  assert (exists l, dm_sievescript_list (owner w) (sdb w) = (mksdb t [], (0, l))) as [l L].
  { rewrite E. eexists. unfold dm_sievescript_list, select_where. apply try_calm. calm. reflexivity. }
  rewrite (run_sql_eq _ _ _ _ L). simpl. destruct l; [done|]. simpl. by rewrite list_lines_table.
Qed.
Lemma login_table w l : sdb (sieve_login w l).1 = sdb w.
Proof.
  unfold sieve_login. set (w1 := if bool_decide (length l < 3)%nat then _ else w).
  set (w2 := if bool_decide (length l < 2)%nat then _ else w1).
  assert (sdb w2 = sdb w) as <- by (unfold w2, w1; repeat case_bool_decide; simpl; by rewrite ?error_table). clearbody w2.
  destruct (auth_validate None (sock w2) (l !! 1%nat) (l !! 2%nat)) as [v|]; [|done].
  destruct (valid v =? 1); [done|apply error_table].
Qed.
Lemma authenticate_table w : sdb (sieve_authenticate w).1 = sdb w.
Proof.
  unfold sieve_authenticate. assert (sdb (first_arg w).1 = sdb w) as Q by done.
  destruct (first_arg w) as [w1 [arg|]]; [|done]. simpl in Q. rewrite <- Q. destruct (strcaseeq _ _); [|apply error_table].
  destruct (p_list_next _) as [L|]; [|apply error_table]. destruct (p_list_data L); [apply login_table|done].
Qed.

Lemma lookup_put t user name text k :
  put_spec t user name text !! k =
    if decide (k = (user, TEMP_SCRIPT)) then None
    else if decide (k = (user, name)) then Some (mksrow text (from_option active 0 (t !! k))) else t !! k.
Proof.
  unfold put_spec. case_bool_decide as D.
  - subst. case_decide as E; [subst; by simplify_map_eq|]. by simplify_map_eq.
  - case_decide as E; [subst; rewrite lookup_insert_ne by congruence; by simplify_map_eq|].
    case_decide as F; subst; by simplify_map_eq.
Qed.
Lemma single_delete t user k : single_active t user -> single_active (delete k t) user.
Proof. intros U n m r s A B. apply lookup_delete_Some in A as [_ A]. apply lookup_delete_Some in B as [_ B]. by eapply U. Qed.
Lemma single_put t user name text : single_active t user -> single_active (put_spec t user name text) user.
Proof.
  intros U. assert (forall n r, put_spec t user name text !! (user, n) = Some r -> active r = 1 ->
    exists s, t !! (user, n) = Some s /\ active s = 1) as K.
  { intros n r. rewrite lookup_put. case_decide; [done|]. case_decide as E; [|eauto].
    intros [= <-]. destruct (t !! (user, n)) as [s|]; simpl; [eauto|done]. }
  intros n m r s A B P Q. destruct (K _ _ A P) as (r' & A' & P'). destruct (K _ _ B Q) as (s' & B' & Q').
  exact (U n m r' s' A' B' P' Q').
Qed.
Lemma single_activate t user name : single_active (activate_spec t user name) user.
Proof.
  assert (forall n r, activate_spec t user name !! (user, n) = Some r -> active r = 1 -> name = n) as K.
  { intros n r. unfold activate_spec. rewrite map_lookup_imap. destruct (t !! (user, n)); [|done]. simpl. rewrite Z.eqb_refl.
    intros [= <-]. unfold streq. by case_bool_decide. }
  intros n m r s A B P Q. rewrite <- (K _ _ A P). by apply (K _ _ B).
Qed.
Lemma single_deactivate t user : single_active (deactivate_spec t user) user.
Proof.
  intros n m r s A _ P _. exfalso. unfold deactivate_spec in A. rewrite map_lookup_imap in A.
  destruct (t !! (user, n)) as [x|]; [|done]. simpl in A. rewrite Z.eqb_refl in A. injection A as <-. simpl in P.
  destruct (is_active x) eqn:B; [done|]. unfold is_active in B. to_prop. done.
Qed.
Lemma single_command t user c xs : single_active t user -> single_active (command_spec t user c xs) user.
Proof.
  intros U. unfold command_spec. repeat case_match; auto using single_delete, single_put, single_activate, single_deactivate.
Qed.

(** C32. A command of a session that is logged in, on a script table where no statement fails and
    at most one script of the user is active, does to the table what the abstract command
    says: PUTSCRIPT stores a script that compiles and keeps the flag of the one it replaces,
    SETACTIVE makes one script the only active one or none at all, DELETESCRIPT removes one,
    and nothing else changes anything. At most one script of the user is active afterwards. *)
Theorem sieve_command_refines w t xs :
  st w = CLIENTSTATE_AUTHENTICATED -> sdb w = mksdb t [] -> holds (args (session w)) xs ->
  single_active t (owner w) ->
  sdb (sieve w).1 = mksdb (command_spec t (owner w) (command_type (session w)) xs) [] /\
  single_active (command_spec t (owner w) (command_type (session w)) xs) (owner w).
Proof.
  intros S E Hh U. split; [|by apply single_command]. unfold sieve. set (c := command_type (session w)).
  destruct (Z.eqb_spec c SIEVE_LOUT) as [->|]; [done|]. destruct (Z.eqb_spec c SIEVE_STLS) as [->|].
  { rewrite (q_db _ _ (quiet_starttls w)). exact E. }
  destruct (Z.eqb_spec c SIEVE_CAPA) as [->|]; [simpl; by rewrite (q_db _ _ (quiet_greeting w))|].
  destruct (Z.eqb_spec c SIEVE_AUTH) as [->|]; [by rewrite authenticate_table|].
  destruct (Z.eqb_spec c SIEVE_PUTS) as [->|]; [by apply putscript_table|].
  destruct (Z.eqb_spec c SIEVE_SETS) as [->|]; [by apply setactive_table|].
  destruct (Z.eqb_spec c SIEVE_GETS) as [->|].
  { unfold sieve_getscript. rewrite (with_name_table w t xs _ t); [by destruct (default [] (head xs))|done..|].
    intros v D O. rewrite (run_sql_eq _ _ _ _ (eq_trans (f_equal _ D) (calm_getbyname t _ _))).
    destruct (script <$> _); [done|by rewrite error_table]. }
  destruct (Z.eqb_spec c SIEVE_DELS) as [->|].
  { unfold sieve_deletescript.
    rewrite (with_name_table w t xs _ (delete (owner w, default [] (head xs)) t)).
    - unfold command_spec. cbn [Z.eqb SIEVE_DELS SIEVE_PUTS SIEVE_SETS Pos.eqb]. by destruct (default [] (head xs)).
    - done.
    - done.
    - done.
    - intros v D O. erewrite run_sql_eq by (rewrite D; apply calm_delete). simpl. by rewrite O. }
  destruct (Z.eqb_spec c SIEVE_SPAC) as [->|]; [unfold sieve_havespace; by rewrite table_authenticated|].
  destruct (Z.eqb_spec c SIEVE_LIST) as [->|]; [by apply listscripts_table|].
  rewrite error_table, E. unfold command_spec. by rewrite !(proj2 (Z.eqb_neq c _)) by done.
Qed.
End server.

(** ** Examples *)

(** A compiler that rejects empty scripts. *)
#[export] Instance example_sieve : SieveEnv := {|
  dm_db_ping _ := true;
  sort_validate d user name := match scripts d !! (user, name) with Some (mksrow (_ :: _) _) => Some [] | _ => Some (lit "empty") end;
  conf_banner := []; conf_version := lit "3"; sieve_extensions := lit "fileinto" |}.
(** A session of user 7, who has the active script a, with a command and its arguments. *)
Definition example_table : stable := {[ (7, lit "a") := mksrow (lit "keep;") 1 ]}.
Definition example_sieve_world (sql : list bool) (command : Z) (args : list cstr) : sworld :=
  mksworld ((client_session_new (client_init 16 7 0 (replicate 20 (Accept 400)) [] []) (lit "host") (lit "1"))
              <| ClientSession.state := CLIENTSTATE_AUTHENTICATED |> <| useridnr := 7 |> <| command_type := command |>
              <| ClientSession.args := foldl (fun L a => p_list_append L (Some a)) p_list_new args |>)
    (mksdb example_table sql) (lit "inet").

(** A new script is stored and is not active, the old one stays active. *)
Lemma sieve_command_refines_witness :
  sdb (sieve (example_sieve_world [] SIEVE_PUTS [lit "b"; lit "discard;"])).1 =
    mksdb (<[(7, lit "b") := mksrow (lit "discard;") 0]> example_table) [].
Proof.
  destruct (sieve_command_refines (example_sieve_world [] SIEVE_PUTS [lit "b"; lit "discard;"]) example_table
    [lit "b"; lit "discard;"]) as [E _].
  - reflexivity.
  - reflexivity.
  - apply (append_holds _ [lit "b"]), (append_holds _ []), holds_new.
  - unfold example_table. intros n m r s A B _ _. apply lookup_singleton_Some in A as [A _]. apply lookup_singleton_Some in B as [B _]. congruence.
  - rewrite E. vm_compute. reflexivity.
Defined.
