(* ===== verification/SieveInputFacts.v ===== *)
(** * The ManageSieve server: input and failures

    A script that a client sends as a literal arrives as it is; a command whose statements
    fail is done as a whole or not at all; and what goes wrong with missing arguments. *)
From S2P Require Import Prelude CLib GLib ListT ClientBase ClientFrame ClientSession MiscText Cidr Auth AuthExample SqlState SieveScript Sieve SieveFacts.

(** ** Lines *)
Lemma strip_crlf_line s c : last s = Some c -> is_eol c = false -> strip_crlf (s ++ crlf) = s.
Proof.
  intros L N. destruct s as [|x s] using rev_ind; [done|]. clear IHs. rewrite last_snoc in L. injection L as ->.
  unfold strip_crlf. rewrite !length_app. simpl. replace (pred (length s + 1 + 2)) with (S (S (length s))) by lia.
  cbn [strip_loop]. unfold char_at at 1. rewrite <- app_assoc. rewrite lookup_app_r by lia.
  replace (S (S (length s)) - length s)%nat with 2%nat by lia. simpl (([c] ++ crlf) !! 2%nat). simpl default. change (is_eol LF) with true.
  cbv iota. rewrite app_assoc. rewrite take_app_ge by (rewrite length_app; simpl; lia). rewrite !length_app. simpl.
  replace (S (S (length s)) - (length s + 1))%nat with 1%nat by lia. simpl take.
  unfold char_at at 1. rewrite lookup_app_r by (rewrite length_app; simpl; lia). rewrite !length_app. simpl.
  replace (S (length s) - (length s + 1))%nat with O by lia. simpl. change (is_eol CR) with true. cbv iota.
  rewrite take_app_length' by (rewrite length_app; simpl; lia). destruct (length s) as [|n] eqn:E.
  - done.
  - simpl. unfold char_at. rewrite lookup_app_r by lia. replace (S n - length s)%nat with O by lia. simpl. by rewrite N.
Qed.
(** A line of a command and its value. *)
Lemma command_words_line `{GLibStrLaws} command v h c :
  head command = Some h -> isspace h = false -> SP ∉ command -> last v = Some c -> isspace c = false ->
  command_words (command ++ SP :: v ++ crlf) = Some (command, Some v).
Proof.
  intros Hh Nh Nc Lv Nv. unfold command_words.
  assert (last (command ++ SP :: v) = Some c) as L by (rewrite last_app_cons, last_cons, Lv; done).
  assert (is_eol c = false) as Ec.
  { unfold is_eol. apply orb_false_iff. split; apply bool_decide_eq_false; intros ->; done. }
  rewrite app_comm_cons, app_assoc, (strip_crlf_line _ c L Ec).
  destruct (g_strstrip_spec (command ++ SP :: v)) as (pre & post & E & F & _ & _). apply Forall_app in F as [F1 F2].
  assert (pre = []) as ->.
  { destruct pre as [|x pre]; [done|]. apply Forall_cons in F1 as [F1 _]. apply g_isspace_isspace in F1.
    destruct command as [|y command]; [done|]. simpl in *. congruence. }
  assert (post = []) as ->.
  { destruct post as [|x post _] using rev_ind; [done|]. apply Forall_app in F2 as [_ F2]. apply Forall_cons in F2 as [F2 _].
    apply g_isspace_isspace in F2. rewrite E in L. rewrite !app_assoc, last_snoc in L. congruence. }
  simpl in E. rewrite app_nil_r in E. rewrite <- E.
  assert (split_at (command ++ SP :: v) SP = Some (command, v)) as S by by apply split_at_spec.
  destruct (command ++ SP :: v) eqn:X; [by destruct command|]. rewrite S. by destruct v.
Qed.

(** ** Literals *)
Section input.
Context `{ServerConf} `{GLibStr} `{GLibBase64} `{Digests} `{AuthTables} `{SocketLib} `{SieveEnv}.
Abbreviation st w := (ClientSession.state (session w)).
Abbreviation owner w := (useridnr (session w)).

(** Lines for the tokenizer, and its last answer. *)
Definition feed (w : sworld) (ls : list cstr) : sworld * Z := foldl (fun '(w, _) l => sieve_tokenizer w l) (w, 0) ls.
Lemma feed_app w ls l : feed w (ls ++ [l]) = sieve_tokenizer (feed w ls).1 l.
Proof. unfold feed. rewrite foldl_app. simpl. by destruct (foldl _ _ ls). Qed.

(** What a session has read of a literal. *)
Record reading (w : sworld) (c : Z) (xs : list cstr) (b : cstr) (n : Z) : Prop := {
  rd_command : command_type (session w) = c;
  rd_args : holds (args (session w)) xs;
  rd_buffer : rbuff (session w) = b;
  rd_size : rbuff_size (ci (session w)) = n;
}.
Lemma literal_tokenizer w c l : command_type (session w) = c -> c <> 0 -> rbuff_size (ci (session w)) <> 0 ->
  sieve_tokenizer w l = literal_line w l.
Proof.
  intros E N S. unfold sieve_tokenizer. rewrite (proj2 (Z.eqb_neq _ 0)) by congruence.
  by rewrite (proj2 (Z.eqb_neq _ 0) S).
Qed.
Lemma literal_more w c xs b l n :
  reading w c xs b (strlen l + n) -> c <> 0 -> 0 < n -> parser_state (session w) = false ->
  reading (sieve_tokenizer w l).1 c xs (b ++ l) n /\ (sieve_tokenizer w l).2 = 0 /\
  parser_state (session (sieve_tokenizer w l).1) = false.
Proof.
  intros [R1 R2 R3 R4] N P F. assert (0 <= strlen l) as L0 by (unfold strlen; lia).
  rewrite (literal_tokenizer w c l) by (try done; lia).
  unfold literal_line. rewrite R4. replace (Z.to_nat ((strlen l + n) `min` strlen l)) with (length l) by (unfold strlen; lia).
  rewrite firstn_all. set (w1 := upd w _).
  assert (rbuff_size (ci (session w1)) = n) as S1 by (unfold w1; simpl; rewrite R4; unfold strlen; lia).
  rewrite S1. rewrite (proj2 (Z.eqb_neq n 0)) by lia. cbn [fst snd].
  split_and!; [split; [exact R1|exact R2|unfold w1; simpl; by rewrite R3|exact S1]| |exact F].
  change (parser_state (session w1)) with (parser_state (session w)). by rewrite F.
Qed.
Lemma literal_last w c xs b l rest :
  reading w c xs b (strlen l) -> c <> 0 -> l <> [] -> 
  reading (sieve_tokenizer w (l ++ rest)).1 c (xs ++ [b ++ l]) [] 0 /\ (sieve_tokenizer w (l ++ rest)).2 = 1.
Proof.
  intros [R1 R2 R3 R4] N L. assert (0 < strlen l) as L0 by (unfold strlen; destruct l; [done|simpl; lia]).
  rewrite (literal_tokenizer w c) by (try done; lia).
  unfold literal_line. rewrite R4. replace (Z.to_nat (strlen l `min` strlen (l ++ rest))) with (length l) by (unfold strlen; rewrite length_app; lia).
  rewrite take_app_length. set (w1 := upd w _).
  assert (rbuff_size (ci (session w1)) = 0) as S1 by (unfold w1; simpl; rewrite R4; unfold strlen; lia).
  rewrite S1. cbn [Z.eqb fst snd]. split; [|done]. split; [exact R1| |done|exact S1].
  change (holds (p_list_append (args (session w)) (Some (rbuff (session w) ++ l))) (xs ++ [b ++ l])).
  rewrite R3. by apply append_holds.
Qed.
Lemma literal_received w c xs b ls l rest :
  reading w c xs b (strlen (concat ls ++ l)) -> c <> 0 -> l <> [] -> parser_state (session w) = false ->
  reading (feed w (ls ++ [l ++ rest])).1 c (xs ++ [b ++ concat ls ++ l]) [] 0 /\ (feed w (ls ++ [l ++ rest])).2 = 1.
Proof.
  rewrite feed_app. intros R N L F.
  assert (reading (feed w ls).1 c xs (b ++ concat ls) (strlen l)) as R'.
  2:{ pose proof (literal_last _ _ _ _ l rest R' N L) as A. by rewrite <- app_assoc in A. }
  assert (0 < strlen l) as L0 by (unfold strlen; destruct l; [done|simpl; lia]).
  unfold feed. generalize 0 at 1. revert w b R F. induction ls as [|x ls IH]; intros w b R F z; simpl.
  - by rewrite app_nil_r.
  - simpl in R. assert (reading w c xs b (strlen x + strlen (concat ls ++ l))) as R2.
    { destruct R as [? ? ? R4]. split; [done..|]. rewrite R4. unfold strlen. rewrite !length_app. lia. }
    destruct (literal_more w c xs b x _ R2 N) as (A & _ & B); [unfold strlen in *; rewrite length_app; lia|done|].
    destruct (sieve_tokenizer w x) as [w1 r]. simpl in A, B. rewrite app_assoc. by apply IH.
Qed.

(** A quoted argument and a literal behind it. *)
Lemma value_loop_quoted name rest p L :
  Forall (fun c => c <> DQUOTE) name -> last (p :: name) <> Some BACKSLASH ->
  forall t, value_loop (name ++ DQUOTE :: rest) p true t L = value_loop rest DQUOTE false [] (p_list_append L (Some (t ++ name))).
Proof.
  revert p. induction name as [|c name IH]; intros p F N t.
  - cbn [app value_loop]. rewrite (bool_decide_eq_true_2 (DQUOTE = DQUOTE)) by done.
    rewrite (bool_decide_eq_false_2 (p = BACKSLASH)) by (simpl in N; congruence). cbn [andb negb]. by rewrite app_nil_r.
  - apply Forall_cons in F as [Fc F]. cbn [app value_loop]. rewrite (bool_decide_eq_false_2 (c = DQUOTE)) by done. cbn [andb].
    rewrite IH; [|done|by rewrite last_cons_cons in N]. by rewrite <- app_assoc.
Qed.

(** A script that a client sends with PUTSCRIPT as a literal, behind its quoted name and in
    any division into lines, becomes the second argument, octet for octet; the line that
    completes it makes the command ready, and nothing of the literal is left. *)
Theorem sieve_putscript_received `{!GLibStrLaws} w name ls l rest :
  command_type (session w) = 0 -> rbuff (session w) = [] -> rbuff_size (ci (session w)) = 0 ->
  holds (args (session w)) [] -> parser_state (session w) = false ->
  Forall (fun c => c <> DQUOTE) name -> last name <> Some BACKSLASH -> l <> [] ->
  let script := concat ls ++ l in
  strlen script < 2 ^ 64 ->
  let first := lit "PUTSCRIPT " ++ quoted name ++ lit " {" ++ dec_of (strlen script) ++ lit "+}" ++ crlf in
  let '(w', r) := feed w (first :: ls ++ [l ++ rest]) in
  r = 1 /\ reading w' SIEVE_PUTS [name; script] [] 0.
Proof.
  intros C B S A F Q N L script Hs first.
  set (v := quoted name ++ lit " {" ++ dec_of (strlen script) ++ lit "+}").
  assert (0 < strlen script) as S0 by (unfold script, strlen; rewrite length_app; destruct l; [done|simpl; lia]).
  assert (command_words first = Some (lit "PUTSCRIPT", Some v)) as W.
  { unfold first, v. change (lit "PUTSCRIPT ") with (lit "PUTSCRIPT" ++ [SP]). rewrite <- !app_assoc. cbn [app].
    rewrite <- (command_words_line (lit "PUTSCRIPT") _ "P"%char "}"%char); [by rewrite <- !app_assoc|done|done| | |done].
    - by vm_compute; intros X; repeat (apply elem_of_cons in X as [X|X]; [done|]); apply elem_of_nil in X.
    - by rewrite !last_app. }
  assert (exists w1, sieve_tokenizer w first = (w1, 0) /\ reading w1 SIEVE_PUTS [name] [] (strlen script) /\ parser_state (session w1) = false)
    as (w1 & E & R & P).
  { unfold sieve_tokenizer. rewrite C. cbn [Z.eqb]. rewrite W.
    rewrite (bool_decide_eq_false_2 (Some v = None)) by done. cbn [andb]. set (w0 := upd w _).
    change (rbuff_size (ci (session w0))) with (rbuff_size (ci (session w))). rewrite S. cbn [Z.eqb negb].
    unfold tokenize_value, v, quoted. cbn [app value_loop]. rewrite (bool_decide_eq_true_2 (DQUOTE = DQUOTE)) by done.
    rewrite (bool_decide_eq_false_2 (NUL = BACKSLASH)) by done. cbn [andb negb].
    rewrite <- app_assoc. cbn [app].
    rewrite value_loop_quoted; [|done|]. 2:{ destruct name as [|x name]; [done|]. by rewrite last_cons_cons. }
    cbn [app value_loop lit String.list_ascii_of_string].
    rewrite (strtoull_dec_app (strlen script) "+"%char) by (try done; lia).
    eexists. split; [reflexivity|]. split; [split|]; try done.
    exact (append_holds _ _ name A). }
  unfold feed. simpl foldl. rewrite E.
  pose proof (literal_received w1 SIEVE_PUTS [name] [] ls l rest R ltac:(done) L P) as [T1 T2]. unfold feed in T1, T2.
  destruct (foldl _ (w1, 0) (ls ++ [l ++ rest])) as [w2 r]. done.
Qed.

(** ** Statements that fail *)

(** Each function either leaves the table and reports a failure, or does what it does when
    nothing fails. *)
Lemma add_atomic user name text d :
  let '(d', r) := dm_sievescript_add user name text d in
  (scripts d' = scripts d /\ r <> 0) \/ (scripts d' = <[(user, name) := mksrow text 1]> (delete (user, name) (scripts d)) /\ r = 0).
Proof.
  pose proof (transaction_atomic (select_row user name;; delete_row user name;; insert_row user name (mksrow text 1);; mret 0) DM_EQUERY d
    ltac:(unfold select_row, delete_row, insert_row; auto 10 with sql)) as T.
  pose proof (calm_add (scripts d) user name text) as C. unfold dm_sievescript_add in *. destruct (transaction _ _ d) as [d' r].
  cbn [fst snd] in T. destruct T as [[T1 ->]|T]; [by left|]. right. rewrite C in T. by injection T as -> ->.
Qed.
Lemma delete_atomic user name d :
  let '(d', r) := dm_sievescript_delete user name d in
  (scripts d' = scripts d /\ r = false) \/ (scripts d' = delete (user, name) (scripts d) /\ r = true).
Proof.
  pose proof (statement_atomic (fun t : stable => (delete (user, name) t, tt)) (fun _ => true) false d) as T.
  pose proof (calm_delete (scripts d) user name) as C. cbv zeta in T.
  unfold dm_sievescript_delete, delete_row in *. destruct (try_catch _ false d) as [d' r].
  cbn [fst snd] in T. destruct T as [[T1 ->]|T]; [by left|]. right. rewrite C in T. by injection T as -> ->.
Qed.
Lemma activate_atomic user name d :
  let '(d', r) := dm_sievescript_activate user name d in
  (scripts d' = scripts d /\ r = false) \/ (scripts d' = activate_spec (scripts d) user name /\ r = true).
Proof.
  pose proof (transaction_atomic (set_active user (fun _ => true) 0;; set_active user (streq name) 1;; mret true) false d
    ltac:(unfold set_active; auto 10 with sql)) as T.
  pose proof (calm_activate (scripts d) user name) as C. unfold dm_sievescript_activate in *. destruct (transaction _ _ d) as [d' r].
  cbn [fst snd] in T. destruct T as [[T1 ->]|T]; [by left|]. right. rewrite C in T. by injection T as -> ->.
Qed.
Lemma rename_atomic t user name text d :
  scripts d = <[(user, TEMP_SCRIPT) := mksrow text 1]> (delete (user, TEMP_SCRIPT) t) ->
  let '(d', r) := dm_sievescript_rename user TEMP_SCRIPT name d in
  (scripts d' = scripts d /\ r <> 0) \/ (scripts d' = put_spec t user name text /\ r = 0).
Proof.
  intros E. pose proof (calm_rename t user name text) as C. rewrite <- E in C. unfold dm_sievescript_rename in *.
  match type of C with transaction ?m _ _ = _ => pose proof (transaction_atomic m DM_EQUERY d) as T end.
  match type of T with ?P -> _ => assert P as S end.
  { apply sound_bind; [apply sound_exec|]. intros r. apply sound_bind; [destruct r; [apply sound_exec|apply sound_ret]|].
    intros _. apply sound_bind; [apply sound_exec|]. intros _. apply sound_ret. }
  specialize (T S). destruct (transaction _ _ d) as [d' r].
  cbn [fst snd] in T. destruct T as [[T1 ->]|T]; [by left|]. right. rewrite C in T. by injection T as -> ->.
Qed.

(** Tables that differ in the temporary script of the user at most. *)
Definition but_temp (user : Z) (t t' : stable) : Prop := forall k, k <> (user, TEMP_SCRIPT) -> t' !! k = t !! k.
Lemma but_temp_delete user t : but_temp user t (delete (user, TEMP_SCRIPT) t).
Proof. intros k N. by rewrite lookup_delete_ne by congruence. Qed.
Lemma but_temp_insert user t r : but_temp user t (<[(user, TEMP_SCRIPT) := r]> (delete (user, TEMP_SCRIPT) t)).
Proof. intros k N. by rewrite lookup_insert_ne, lookup_delete_ne by congruence. Qed.
Lemma but_temp_trans user t1 t2 t3 : but_temp user t1 t2 -> but_temp user t2 t3 -> but_temp user t1 t3.
Proof. intros A B k N. by rewrite B, A. Qed.

(** C33. PUTSCRIPT with any failures of the data base: afterwards the table is as before, apart
    from the temporary script, or it has the new script, whole, in place of the old one of
    that name, and the temporary one is gone. *)
Theorem sieve_put_atomic w user name text :
  let t := scripts (sdb w) in
  let t' := scripts (sdb (put_script w user name text).1) in
  but_temp user t t' \/ t' = put_spec t user name text.
Proof.
  cbv zeta. unfold put_script. destruct (_ <=? _); [left; by rewrite error_table|].
  cbn [dm_sievescript_quota_check DM_SUCCESS Z.eqb negb].
  assert (forall v f a, but_temp user (scripts (sdb w)) (scripts (sdb v)) ->
    but_temp user (scripts (sdb w)) (scripts (sdb (sieve_error (run_sql v (dm_sievescript_delete user TEMP_SCRIPT)).1 f a).1))) as F.
  { intros v f a B. rewrite error_table. unfold run_sql. pose proof (delete_atomic user TEMP_SCRIPT (sdb v)) as D.
    destruct (dm_sievescript_delete user TEMP_SCRIPT (sdb v)) as [d' r]. simpl. destruct D as [[-> _]|[-> _]]; [done|].
    eapply but_temp_trans; [exact B|apply but_temp_delete]. }
  pose proof (add_atomic user TEMP_SCRIPT text (sdb w)) as A.
  destruct (dm_sievescript_add user TEMP_SCRIPT text (sdb w)) as [d r] eqn:D. rewrite (run_sql_eq _ _ _ _ D).
  destruct A as [[E N]|[E ->]].
  { rewrite (proj2 (Z.eqb_neq r 0) N). cbn [negb]. left. apply F. simpl. by rewrite E. }
  cbn [Z.eqb negb]. assert (but_temp user (scripts (sdb w)) (scripts d)) as B by (rewrite E; apply but_temp_insert).
  destruct (sort_validate _ user TEMP_SCRIPT) as [[|c e]|]; [|left; by apply F..].
  pose proof (rename_atomic _ user name text d E) as R.
  destruct (dm_sievescript_rename user TEMP_SCRIPT name d) as [d' r] eqn:D2. rewrite (run_sql_eq (w <| sdb := d |>) _ _ _ D2). destruct R as [[E2 N]|[E2 ->]].
  - rewrite (proj2 (Z.eqb_neq r 0) N). cbn [negb]. left. rewrite error_table. simpl. by rewrite E2.
  - right. exact E2.
Qed.
End input.

(** ** Examples *)
Lemma sieve_putscript_received_witness :
  let '(w, r) := feed ((example_sieve_world [] 0 []))
    [lit "PUTSCRIPT " ++ quoted (lit "b") ++ lit " {12+}" ++ crlf; lit "keep;" ++ crlf; lit "stop;" ++ crlf] in
  r = 1 /\ reading w SIEVE_PUTS [lit "b"; lit "keep;" ++ crlf ++ lit "stop;"] [] 0.
Proof.
  pose proof (sieve_putscript_received (example_sieve_world [] 0 []) (lit "b") [lit "keep;" ++ crlf] (lit "stop;") crlf
    eq_refl eq_refl eq_refl holds_new eq_refl) as R.
  apply R; [by repeat constructor|done|done|vm_compute; reflexivity].
Defined.

(** A failure of the rename leaves the temporary script behind, and it is active beside the
    script that was active. *)
Lemma put_failure_leaves_active :
  let t := scripts (sdb (put_script (example_sieve_world (replicate 8 false ++ [true]) 0 []) 7 (lit "b") (lit "discard;")).1) in
  t !! (7, TEMP_SCRIPT) = Some (mksrow (lit "discard;") 1) /\ t !! (7, lit "a") = Some (mksrow (lit "keep;") 1).
Proof. vm_compute. done. Qed.
(** A script that is stored under the temporary name is lost. *)
Lemma put_temp_lost :
  scripts (sdb (put_script (example_sieve_world [] 0 []) 7 TEMP_SCRIPT (lit "discard;")).1) !! (7, TEMP_SCRIPT) = None.
Proof. vm_compute. reflexivity. Qed.
(** SETACTIVE with the name of no script makes no script active. *)
Lemma setactive_unknown_deactivates :
  scripts (sdb (sieve (example_sieve_world [] SIEVE_SETS [lit "x"])).1) !! (7, lit "a") = Some (mksrow (lit "keep;") 0).
Proof. vm_compute. reflexivity. Qed.
(** PUTSCRIPT with one argument ends the process, and a command without its argument ends the
    session. *)
Lemma putscript_asserts : fault (ci (session (sieve (example_sieve_world [] SIEVE_PUTS [lit "b"])).1)) = true.
Proof. vm_compute. reflexivity. Qed.
Lemma missing_argument_logs_out :
  ClientSession.state (session (sieve_line (example_sieve_world [] 0 []) (lit "GETSCRIPT" ++ crlf)).1) = CLIENTSTATE_QUIT.
Proof. vm_compute. reflexivity. Qed.
