(* ===== verification/MailboxName.v ===== *)
(** * Names of mailboxes: name spaces and patterns of SQL

    [mailbox_add_namespace] and [mailbox_remove_namespace] (dm_misc.c) turn a name and its owner
    into the name another user sees, and back; [mailbox_match_new] (dm_db.c) turns a name into
    patterns of LIKE that compare letters without case, but for the parts in modified BASE64. *)
From S2P Require Import Prelude CLib GLib ClientBase MiscText GListUtil ImapText Auth SqlFragment.

Definition NAMESPACE_USER : cstr := lit "#Users".
Definition NAMESPACE_PUBLIC : cstr := lit "#Public".

(** ** Name spaces *)

(** [auth_get_userid] is asked for the name of the owner when he is not the user. *)
Definition mailbox_add_namespace (auth_get_userid : Z -> option cstr) (mailbox_name : option cstr) (owner_idnr user_idnr : Z) : option cstr :=
  match mailbox_name with
  | None => None
  | Some name =>
      if user_idnr =? owner_idnr then Some name
      else
        owner ← auth_get_userid owner_idnr;
        if streq owner PUBLIC_FOLDER_USER then Some (NAMESPACE_PUBLIC ++ MAILBOX_SEPARATOR :: name)
        else Some (NAMESPACE_USER ++ MAILBOX_SEPARATOR :: owner ++ MAILBOX_SEPARATOR :: name)
  end.

(** The state machine behind [#Users]: the indexes of [user] and [mbox]. *)
Record ns_scan := mkns { ns_user : option nat; ns_mbox : option nat; ns_slash : nat; ns_end : bool }.
#[export] Instance ns_scan_settable : Settable ns_scan := fun r => mkns (ns_user r) (ns_mbox r) (ns_slash r) (ns_end r).
(** One character, at the index [temp], in front of [rest]. *)
Definition ns_step (c : ascii) (rest : cstr) (temp : nat) (s : ns_scan) : ns_scan :=
  if bool_decide (c = "/"%char) then
    match ns_user s, ns_mbox s with
    | None, _ => s <| ns_user := Some (S temp) |>
    | Some _, None =>
        let s := s <| ns_slash := 1%nat |> in
        if bool_decide (rest <> []) && negb (bool_decide (head rest = Some "/"%char)) then s <| ns_mbox := Some (S temp) |> else s
    | Some _, Some _ => s <| ns_end := true |>
    end
  else if bool_decide (c = "*"%char) || bool_decide (c = "%"%char) then s <| ns_mbox := Some temp |>
  else s.
Fixpoint ns_loop (rest : cstr) (temp : nat) (s : ns_scan) : ns_scan :=
  match rest with
  | [] => s
  | c :: rest => let s := ns_step c rest temp s in if ns_end s then s else ns_loop rest (S temp) s
  end.

(** What is left of a name: the name with the name space and the user that were removed;
    nothing; or a name whose user has a negative length: the process ends where the user is
    copied. *)
Inductive simple_name := NoName | Name (mbox : cstr) (namespace username : option cstr) | NameAborts (mbox : cstr).
(** The slashes at the end, which the function removes from its argument. *)
Fixpoint strip_slashes (s : cstr) : cstr :=
  match s with
  | [] => []
  | c :: s => match strip_slashes s with
              | [] => if bool_decide (c = "/"%char) then [] else [c]
              | s => c :: s
              end
  end.
Definition users_name (fq : cstr) : simple_name :=
  let n := length NAMESPACE_USER in
  let s := ns_loop (drop n fq) n (mkns None None 0 false) in
  match ns_mbox s with
  | None => NoName
  | Some m =>
      match ns_user s with
      | None => Name (drop m fq) (Some NAMESPACE_USER) None
      | Some u =>
          if bool_decide (u + ns_slash s = m)%nat then Name (drop m fq) (Some NAMESPACE_USER) None
          else if bool_decide (m < u + ns_slash s)%nat then NameAborts (drop m fq)
          else Name (drop m fq) (Some NAMESPACE_USER) (Some (take (m - u - ns_slash s) (drop u fq)))
      end
  end.
Definition public_name (fq : cstr) : simple_name :=
  let n := length NAMESPACE_PUBLIC in
  Name (if bool_decide (head (drop n fq) = Some "/"%char) then drop (S n) fq else drop n fq) (Some NAMESPACE_PUBLIC) (Some PUBLIC_FOLDER_USER).
Definition has_namespace (ns fq : cstr) : bool := bool_decide (length ns <= length fq)%nat && strncaseeq fq ns (length ns).
Definition mailbox_remove_namespace (name : cstr) : simple_name :=
  let fq := strip_slashes name in
  if has_namespace NAMESPACE_USER fq then users_name fq
  else if has_namespace NAMESPACE_PUBLIC fq then public_name fq
  else Name fq None None.

(** ** Patterns *)
Record mailbox_match := mkmatch { sensitive : option cstr; insensitive : cstr }.
Definition escape_underscores (s : cstr) : cstr := s ≫= fun c => if bool_decide (c = "_"%char) then [BACKSLASH; c] else [c].
(** What a pattern keeps of the parts that the other one compares. *)
Definition any_char (c : ascii) : ascii := if bool_decide (c = BACKSLASH) || bool_decide (c = "%"%char) then c else "_"%char.
(** The loop over the escaped name: [verbatim], the last character [p], and whether there was a
    part to compare with case. *)
Fixpoint match_loop (verbatim : bool) (p : ascii) (s : cstr) : cstr * cstr * bool :=
  match s with
  | [] => ([], [], false)
  | c :: s =>
      let verbatim := if bool_decide (p = "-"%char) then false else verbatim in
      let shift := bool_decide (c = "&"%char) in
      let verbatim := shift || verbatim in
      let sens := if verbatim then c else any_char c in
      let '(sensitive, insensitive, has) := match_loop verbatim sens s in
      (sens :: sensitive, (if verbatim then any_char c else c) :: insensitive, shift || has)
  end.
Definition mailbox_match_new (mailbox : cstr) : mailbox_match :=
  let '(s, i, has) := match_loop false NUL (escape_underscores mailbox) in
  mkmatch (if has then Some s else None) i.

(** LIKE: [%] stands for any text, [_] for any character; where there is an escape character,
    it takes away the meaning of the character behind it. *)
Definition same_char (nocase : bool) (a b : ascii) : bool := if nocase then bool_decide (tolower a = tolower b) else bool_decide (a = b).
Fixpoint like (nocase esc : bool) (p s : cstr) : bool :=
  match p with
  | [] => match s with [] => true | _ => false end
  | c :: p' =>
      if bool_decide (c = "%"%char) then
        (fix any (s : cstr) : bool := like nocase esc p' s || match s with [] => false | _ :: s => any s end) s
      else if bool_decide (c = "_"%char) then match s with [] => false | _ :: s => like nocase esc p' s end
      else if esc && bool_decide (c = BACKSLASH) then
        match p', s with
        | e :: p'', x :: s => same_char nocase e x && like nocase esc p'' s
        | _, _ => false
        end
      else match s with [] => false | x :: s => same_char nocase c x && like nocase esc p' s end
  end.
(** The operators of a data base. *)
Class LikeOps := { sql_like : sql_fragment -> cstr -> cstr -> bool }.
(** A data base whose LIKE knows the backslash, with a variant that compares case and one that
    does not, as MySQL and PostgreSQL. *)
Class LikeLaws `{LikeOps} := {
  like_sensitive p s : sql_like SQL_SENSITIVE_LIKE p s = like false true p s;
  like_insensitive p s : sql_like SQL_INSENSITIVE_LIKE p s = like true true p s;
}.
Definition escaping_like : LikeOps := {| sql_like f := like (match f with SQL_SENSITIVE_LIKE => false | _ => true end) true |}.
(** SQLite: no escape character unless the statement names one, and no case. *)
Definition sqlite_like : LikeOps := {| sql_like _ := like true false |}.

Section matching.
Context `{LikeOps}.
(** The condition on [name] in the statements that look for a mailbox. *)
Definition mailbox_matches (m : mailbox_match) (name : cstr) : bool :=
  match sensitive m with Some p => sql_like SQL_SENSITIVE_LIKE p name | None => true end &&
  sql_like SQL_INSENSITIVE_LIKE (insensitive m) name.
End matching.

(** ** Names that come back *)

(** The name of a user that can stand in a path. *)
Definition user_path (o : cstr) : Prop := o <> [] /\ Forall (fun c => c ∉ lit "/*%") o.
(** A mailbox name that can be created, without a slash at either end. *)
Definition mailbox_path (name : cstr) : Prop :=
  checkmailboxname name = true /\ head name <> Some "/"%char /\ last name <> Some "/"%char.

Lemma strip_slashes_id (s : cstr) : last s <> Some "/"%char -> strip_slashes s = s.
Proof.
  induction s as [|c s IH]; [done|]. intros Hl. simpl. destruct s as [|x s].
  - simpl. rewrite bool_decide_eq_false_2; [done|]. intros ->. by apply Hl.
  - rewrite IH; [done|]. by rewrite last_cons_cons in Hl.
Qed.
Lemma accepted_char (c : ascii) : in_set AcceptedMailboxnameChars c = true -> c ∉ lit "*%" /\ c <> BACKSLASH.
Proof. intros E. split; [|by intros ->]. intros [->|[->|[]%not_elem_of_nil]%elem_of_cons]%elem_of_cons; by vm_compute in E. Qed.
Lemma path_accepted (name : cstr) : checkmailboxname name = true -> name <> [] /\ Forall (fun c => c ∉ lit "*%" /\ c <> BACKSLASH) name.
Proof.
  unfold checkmailboxname. destruct name as [|c s]; [done|]. intros E. split; [done|].
  case_bool_decide; [done|]. destruct (_ && forallb _ _) eqn:E2 in E; [|done]. clear E.
  apply andb_true_iff in E2 as [Ec Es]. constructor.
  - apply orb_true_iff in Ec as [Ec| ->%bool_decide_eq_true]; [by apply accepted_char|]. split; [|done].
    by apply (bool_decide_unpack _); vm_compute.
  - apply Forall_forall. intros x Hx. apply accepted_char. rewrite forallb_forall in Es. apply Es. by apply list_elem_of_In.
Qed.
Lemma path_chars (name : cstr) : checkmailboxname name = true -> name <> [] /\ Forall (fun c => c ∉ lit "*%") name.
Proof. intros [Hn Hc]%path_accepted. split; [done|]. eapply Forall_impl; [exact Hc|]. by intros c []. Qed.

Lemma ns_loop_user (o rest : cstr) (t u : nat) : Forall (fun c => c ∉ lit "/*%") o ->
  ns_loop (o ++ rest) t (mkns (Some u) None 0 false) = ns_loop rest (t + length o) (mkns (Some u) None 0 false).
Proof.
  intros Ho. revert t. induction Ho as [|c o Hc Ho IH]; intros t; [by rewrite Nat.add_0_r|].
  simpl. unfold ns_step. rewrite !bool_decide_eq_false_2; [|by intros ->; apply Hc; vm_compute; set_solver..].
  simpl. rewrite IH. f_equal. lia.
Qed.
Lemma ns_loop_name (s : cstr) (t u m sl : nat) : Forall (fun c => c ∉ lit "*%") s ->
  exists e, ns_loop s t (mkns (Some u) (Some m) sl false) = mkns (Some u) (Some m) sl e.
Proof.
  intros Hs. revert t. induction Hs as [|c s Hc Hs IH]; intros t; [by exists false|].
  simpl. unfold ns_step. case_bool_decide; [by exists true|].
  rewrite !bool_decide_eq_false_2; [|by intros ->; apply Hc; vm_compute; set_solver..]. simpl. apply IH.
Qed.
Lemma last_of_path (a b : cstr) : b <> [] -> last b <> Some "/"%char -> last (a ++ b) <> Some "/"%char.
Proof. intros Hb. rewrite last_app. destruct (last b) eqn:E; [done|]. by apply last_None in E. Qed.
Lemma ns_loop_path (o name : cstr) : Forall (fun c => c ∉ lit "/*%") o -> Forall (fun c => c ∉ lit "*%") name ->
  name <> [] -> head name <> Some "/"%char ->
  exists e, ns_loop ("/"%char :: o ++ "/"%char :: name) 6 (mkns None None 0 false) = mkns (Some 7%nat) (Some (8 + length o)%nat) 1 e.
Proof.
  intros Ho Hn Hne Hh. change (ns_loop ("/"%char :: o ++ "/"%char :: name) 6 (mkns None None 0 false))
    with (ns_loop (o ++ "/"%char :: name) 7 (mkns (Some 7%nat) None 0 false)).
  rewrite ns_loop_user by done. cbn [ns_loop]. unfold ns_step. rewrite bool_decide_eq_true_2 by done.
  cbn [ns_user ns_mbox]. rewrite (bool_decide_eq_true_2 (name <> [])) by done. rewrite bool_decide_eq_false_2 by done.
  by apply ns_loop_name.
Qed.
Lemma has_prefix (ns s : cstr) : has_namespace ns (ns ++ s) = true.
Proof.
  unfold has_namespace, strncaseeq. rewrite take_app_length, take_ge by done.
  rewrite !bool_decide_eq_true_2; [done..|]. rewrite length_app. lia.
Qed.
Lemma users_read (o name : cstr) : user_path o -> mailbox_path name ->
  mailbox_remove_namespace (NAMESPACE_USER ++ "/"%char :: o ++ "/"%char :: name) = Name name (Some NAMESPACE_USER) (Some o).
Proof.
  intros [Ho Hoc] (Hn & Hh & Hl). apply path_chars in Hn as [Hn Hnc].
  unfold mailbox_remove_namespace. rewrite strip_slashes_id.
  2: { rewrite app_comm_cons, app_assoc, (cons_middle "/"%char), app_assoc. by apply last_of_path. }
  rewrite has_prefix. unfold users_name. rewrite drop_app_length. change (length NAMESPACE_USER) with 6%nat.
  destruct (ns_loop_path o name) as [e ->]; [done..|]. cbn [ns_mbox ns_user ns_slash].
  assert (o <> []) by done. assert (0 < length o)%nat by (destruct o; [done|simpl; lia]).
  rewrite !bool_decide_eq_false_2 by lia. f_equal.
  - change (drop (8 + length o) (NAMESPACE_USER ++ "/"%char :: o ++ "/"%char :: name)) with (drop (S (length o)) (o ++ "/"%char :: name)).
    rewrite drop_app_ge by lia. by replace (S (length o) - length o)%nat with 1%nat by lia.
  - change (drop 7 (NAMESPACE_USER ++ "/"%char :: o ++ "/"%char :: name)) with (o ++ "/"%char :: name).
    replace (8 + length o - 7 - 1)%nat with (length o) by lia. by rewrite take_app_length.
Qed.
Lemma public_read (name : cstr) : mailbox_path name ->
  mailbox_remove_namespace (NAMESPACE_PUBLIC ++ "/"%char :: name) = Name name (Some NAMESPACE_PUBLIC) (Some PUBLIC_FOLDER_USER).
Proof.
  intros (Hn & Hh & Hl). apply path_chars in Hn as [Hn Hnc]. unfold mailbox_remove_namespace. rewrite strip_slashes_id.
  2: { rewrite (cons_middle "/"%char), app_assoc. by apply last_of_path. }
  rewrite has_prefix. unfold public_name. rewrite drop_app_length. cbn [head]. rewrite bool_decide_eq_true_2 by done.
  destruct (has_namespace NAMESPACE_USER _) eqn:E; [by vm_compute in E|]. f_equal.
Qed.

(** C34. The name that a user sees of a mailbox, whoever owns it, leads back to the name of the
    mailbox and to its owner. *)
Theorem namespace_roundtrip (auth_get_userid : Z -> option cstr) (name fq : cstr) (owner user : Z) :
  mailbox_path name -> (forall o, auth_get_userid owner = Some o -> user_path o) ->
  (user = owner -> has_namespace NAMESPACE_USER name = false /\ has_namespace NAMESPACE_PUBLIC name = false) ->
  mailbox_add_namespace auth_get_userid (Some name) owner user = Some fq ->
  exists namespace, mailbox_remove_namespace fq =
    Name name namespace (if user =? owner then None else auth_get_userid owner).
Proof.
  intros Hn Ho Hown E. unfold mailbox_add_namespace in E. destruct (user =? owner) eqn:Eu.
  - injection E as <-. apply Z.eqb_eq in Eu. destruct (Hown Eu) as [Hu Hp]. destruct Hn as (_ & _ & Hl).
    exists None. unfold mailbox_remove_namespace. rewrite strip_slashes_id by done. by rewrite Hu, Hp.
  - destruct (auth_get_userid owner) as [o|]; [|done]. simpl in E. specialize (Ho o eq_refl).
    destruct (streq o PUBLIC_FOLDER_USER) eqn:Es; injection E as <-.
    + apply bool_decide_eq_true in Es as ->. eexists. by apply public_read.
    + eexists. by apply users_read.
Qed.

(** ** What the patterns match *)

(** Equal but for the case of letters outside of modified BASE64, which begins at [&] and ends
    with the next [-]. *)
Fixpoint same_name (shift : bool) (a b : cstr) : bool :=
  match a, b with
  | [], [] => true
  | x :: a, y :: b =>
      let shift := bool_decide (x = "&"%char) || shift in
      same_char (negb shift) x y && same_name (if bool_decide (x = "-"%char) then false else shift) a b
  | _, _ => false
  end.

Lemma like_lit (ci : bool) (c : ascii) (p s : cstr) : c <> "%"%char -> c <> "_"%char -> c <> BACKSLASH ->
  like ci true (c :: p) s = match s with [] => false | x :: s => same_char ci c x && like ci true p s end.
Proof. intros H1 H2 H3. simpl. by rewrite !bool_decide_eq_false_2. Qed.
Lemma like_any (ci : bool) (p s : cstr) : like ci true ("_"%char :: p) s = match s with [] => false | _ :: s => like ci true p s end.
Proof. done. Qed.
Lemma like_escaped (ci : bool) (e : ascii) (p s : cstr) :
  like ci true (BACKSLASH :: e :: p) s = match s with [] => false | x :: s => same_char ci e x && like ci true p s end.
Proof. done. Qed.
Lemma any_char_lit (c : ascii) : c <> "%"%char -> c <> BACKSLASH -> any_char c = "_"%char.
Proof. intros H1 H2. unfold any_char. by rewrite !bool_decide_eq_false_2. Qed.
Lemma same_char_weaken (a b : ascii) : same_char false a b = true -> same_char true a b = true.
Proof. intros ->%bool_decide_eq_true. by apply bool_decide_eq_true. Qed.
Lemma same_underscore (x : ascii) : same_char true "_" x = same_char false "_" x.
Proof. by destruct x as [[] [] [] [] [] [] [] []]. Qed.


(** Whether the characters behind [p] are compared with case. *)
Definition in_shift (verb : bool) (p : ascii) : bool := negb (bool_decide (p = "-"%char)) && verb.
Lemma match_loop_escaped (verb : bool) (p : ascii) (s : cstr) :
  match_loop verb p (BACKSLASH :: "_"%char :: s) =
  let '(se, i, has) := match_loop (in_shift verb p) "_" s in (BACKSLASH :: "_"%char :: se, BACKSLASH :: "_"%char :: i, has).
Proof.
  unfold in_shift. simpl. destruct (bool_decide (p = "-"%char)); simpl; [|destruct verb; simpl]; by destruct (match_loop _ _ s) as [[??]?].
Qed.
Lemma match_loop_char (verb : bool) (p c : ascii) (s : cstr) : c <> "%"%char -> c <> BACKSLASH ->
  match_loop verb p (c :: s) =
  let v := bool_decide (c = "&"%char) || in_shift verb p in
  let '(se, i, has) := match_loop v (if v then c else "_"%char) s in
  ((if v then c else "_"%char) :: se, (if v then "_"%char else c) :: i, bool_decide (c = "&"%char) || has).
Proof.
  intros H1 H2. simpl. rewrite any_char_lit by done. unfold in_shift.
  destruct (bool_decide (p = "-"%char)); by destruct verb, (bool_decide (c = "&"%char)); simpl; destruct (match_loop _ _ s) as [[??]?].
Qed.
Lemma escape_cons (c : ascii) (s : cstr) :
  escape_underscores (c :: s) = (if bool_decide (c = "_"%char) then [BACKSLASH; c] else [c]) ++ escape_underscores s.
Proof. done. Qed.

Lemma in_shift_next (v : bool) (c : ascii) : in_shift v (if v then c else "_"%char) = if bool_decide (c = "-"%char) then false else v.
Proof. unfold in_shift. destruct v; [|by rewrite andb_false_r; case_bool_decide]. by case_bool_decide. Qed.
Lemma both_match (s : cstr) : "%"%char ∉ s -> BACKSLASH ∉ s -> forall verb p t,
  let '(se, i, _) := match_loop verb p (escape_underscores s) in
  like false true se t && like true true i t = same_name (in_shift verb p) s t.
Proof.
  induction s as [|c s IH]; intros Hp Hb verb p t; [by destruct t|].
  apply not_elem_of_cons in Hp as [Hc Hp]. apply not_elem_of_cons in Hb as [Hc' Hb]. specialize (IH Hp Hb).
  rewrite escape_cons. case_bool_decide as Eu; simpl app.
  - subst c. rewrite match_loop_escaped. specialize (IH (in_shift verb p) "_"%char (tail t)).
    destruct (match_loop _ _ _) as [[se i] has]. rewrite !like_escaped. destruct t as [|x t]; [done|]. simpl in *.
    change (in_shift (in_shift verb p) "_") with (in_shift verb p) in IH. rewrite <- IH.
    change (bool_decide (tolower "_" = tolower x)) with (same_char true "_" x). change (bool_decide ("_"%char = x)) with (same_char false "_" x).
    destruct (in_shift verb p); simpl negb; rewrite !same_underscore; destruct (same_char false "_" x), (like false true se t); done.
  - rewrite match_loop_char by done. cbn zeta. set (v := _ || _).
    specialize (IH v (if v then c else "_"%char) (tail t)). rewrite in_shift_next in IH.
    destruct (match_loop v _ _) as [[se i] has]. destruct t as [|x t]; cbn [same_name tail] in *; fold v; rewrite <- ?IH; destruct v.
    all: rewrite like_any, like_lit by done. 1,2: done.
    + by rewrite andb_assoc.
    + by rewrite !andb_assoc, (andb_comm (like false true se t)).
Qed.
Lemma insensitive_match (s : cstr) : "%"%char ∉ s -> BACKSLASH ∉ s -> forall verb p t, in_shift verb p = false ->
  let '(_, i, has) := match_loop verb p (escape_underscores s) in
  has = false -> like true true i t = same_name false s t.
Proof.
  induction s as [|c s IH]; intros Hp Hb verb p t Hv; [by destruct t|].
  apply not_elem_of_cons in Hp as [Hc Hp]. apply not_elem_of_cons in Hb as [Hc' Hb]. specialize (IH Hp Hb).
  rewrite escape_cons. case_bool_decide as Eu; simpl app.
  - subst c. rewrite match_loop_escaped, Hv. specialize (IH false "_"%char (tail t) eq_refl).
    destruct (match_loop _ _ _) as [[se i] has]. intros Eh. rewrite like_escaped. destruct t as [|x t]; [done|]. simpl in *.
    by rewrite IH.
  - rewrite match_loop_char, Hv by done. cbn zeta. rewrite orb_false_r. case_bool_decide as Ea; [by destruct (match_loop _ _ _) as [[??]?]|].
    specialize (IH false "_"%char (tail t) eq_refl). destruct (match_loop _ _ _) as [[se i] has]. intros Eh.
    rewrite like_lit by done. destruct t as [|x t]; [done|]. cbn [same_name tail] in *. rewrite IH by done.
    rewrite (bool_decide_eq_false_2 (c = "&"%char)) by done. simpl. by destruct (bool_decide (c = "-"%char)).
Qed.

Lemma names_match `{LikeLaws} (mailbox name : cstr) : "%"%char ∉ mailbox -> BACKSLASH ∉ mailbox ->
  let '(se, i, has) := match_loop false NUL (escape_underscores mailbox) in
  mailbox_matches (mkmatch (if has then Some se else None) i) name = same_name false mailbox name.
Proof.
  intros Hp Hb. pose proof (both_match mailbox Hp Hb false NUL name) as E. pose proof (insensitive_match mailbox Hp Hb false NUL name eq_refl) as E'.
  destruct (match_loop _ _ _) as [[se i] has]. unfold mailbox_matches. rewrite like_insensitive. destruct has; simpl.
  - by rewrite like_sensitive.
  - by apply E'.
Qed.
(** C35. On a data base whose LIKE takes the backslash for its escape character (not SQLite), the
    patterns made of a name without percent signs and backslashes match exactly the names that are
    equal up to the case of the letters outside of modified BASE64. *)
Theorem mailbox_match_exact `{LikeLaws} (mailbox name : cstr) : "%"%char ∉ mailbox -> BACKSLASH ∉ mailbox ->
  mailbox_matches (mailbox_match_new mailbox) name = same_name false mailbox name.
Proof.
  intros Hp Hb. unfold mailbox_match_new. pose proof (names_match mailbox name Hp Hb) as E.
  by destruct (match_loop _ _ _) as [[se i] has].
Qed.

(** ** Names that are the same *)
Lemma same_name_refl (b : bool) (s : cstr) : same_name b s s = true.
Proof.
  revert b. induction s as [|c s IH]; intros b; [done|]. simpl. rewrite IH, andb_true_r.
  by destruct (negb _); apply bool_decide_eq_true.
Qed.
Lemma same_name_length (b : bool) (s t : cstr) : same_name b s t = true -> length s = length t.
Proof. revert b t. induction s as [|c s IH]; intros b [|x t] E; try done. simpl in E |- *. apply andb_true_iff in E as [_ E]. f_equal. by eapply IH. Qed.
Lemma same_name_plain (s t : cstr) : "&"%char ∉ s -> same_name false s t = strcaseeq s t.
Proof.
  revert t. induction s as [|c s IH]; intros [|x t] Hs; try done. apply not_elem_of_cons in Hs as [Hc Hs]. simpl.
  rewrite bool_decide_eq_false_2 by done. simpl. replace (if bool_decide (c = "-"%char) then false else false) with false by by case_bool_decide.
  rewrite IH by done. unfold same_char, strcaseeq. simpl. apply eq_bool_prop_intro.
  rewrite andb_True, !bool_decide_spec. unfold fmap. simpl. split; [intros [E1 E2]; f_equal; [exact E1|exact E2]|intros E; by injection E].
Qed.

(** ** Examples *)
Lemma namespace_roundtrip_witness :
  mailbox_add_namespace (fun _ => Some (lit "ann")) (Some (lit "Work/2024")) 7 8 = Some (lit "#Users/ann/Work/2024") /\
  exists ns, mailbox_remove_namespace (lit "#Users/ann/Work/2024") = Name (lit "Work/2024") ns (Some (lit "ann")).
Proof.
  split; [by vm_compute|].
  apply (namespace_roundtrip (fun _ => Some (lit "ann")) (lit "Work/2024") (lit "#Users/ann/Work/2024") 7 8);
    [by vm_compute| |done|by vm_compute].
  intros o [= <-]. split; [done|]. by apply (bool_decide_unpack _); vm_compute.
Defined.
Lemma escaping_laws : @LikeLaws escaping_like.
Proof. by split. Qed.
Lemma mailbox_match_exact_witness :
  let m := mailbox_match_new (lit "In_box/&AGb-x") in
  @mailbox_matches escaping_like m (lit "IN_BOX/&AGb-X") = true /\ @mailbox_matches escaping_like m (lit "In_box/&agb-x") = false.
Proof.
  cbn zeta. rewrite !(@mailbox_match_exact escaping_like escaping_laws); [by vm_compute|..].
  all: by apply (bool_decide_unpack _); vm_compute.
Defined.

(** The index of a wildcard replaces the one of the mailbox, and the user gets a part of it. *)
Lemma wildcard_moves_user : mailbox_remove_namespace (lit "#Users/foo/bar*") = Name (lit "*") (Some NAMESPACE_USER) (Some (lit "foo/ba")).
Proof. by vm_compute. Qed.
(** A wildcard in front of the user makes the length of the user negative. *)
Lemma wildcard_aborts : mailbox_remove_namespace (lit "#Users*/x") = NameAborts (lit "*/x").
Proof. by vm_compute. Qed.
(** The name of another user's mailbox that is entered with a double slash. *)
Lemma double_slash_user : mailbox_remove_namespace (lit "#Users/foo//bar") = Name (lit "bar") (Some NAMESPACE_USER) (Some (lit "foo/")).
Proof. by vm_compute. Qed.
(** SQLite has no escape character here: a name with an underscore is never found; and the parts
    in modified BASE64 are compared without case. *)
Lemma sqlite_underscore :
  @mailbox_matches sqlite_like (mailbox_match_new (lit "a_b")) (lit "a_b") = false /\
  @mailbox_matches sqlite_like (mailbox_match_new (lit "&AGb-")) (lit "&agb-") = true.
Proof. by vm_compute. Qed.
(** A percent sign in a name is a wildcard: the mailbox is another one. *)
Lemma percent_finds_other : @mailbox_matches escaping_like (mailbox_match_new (lit "%")) (lit "INBOX") = true.
Proof. by vm_compute. Qed.
