(* ===== verification/MessageStore.v ===== *)
(** * dm_message.c: messages in the data base

    A message is stored as the headers and bodies of its MIME parts, each of them once for all
    messages, with a list of the parts of every message; it is put together again from that
    list. The tree of MIME objects is the one of Mime; the tables are lists of rows. *)
From S2P Require Import Prelude CLib GLib ClientBase MiscText GListUtil ImapText Mime Auth SqlFragment SqlState.

(** ** Tables *)
Record blob_row := mkblob { b_id : Z; b_hash : cstr; b_data : cstr }.
Record part_row := mkpart { p_phys : Z; p_header : bool; p_key : nat; p_depth : nat; p_order : nat; p_part : Z }.
Record mime_tables := mkmt {
  mimeparts : list blob_row;
  partlists : list part_row;
  physmessage : list (Z * cstr);      (** id and internal date *)
}.
#[export] Instance mime_tables_settable : Settable mime_tables := fun r => mkmt (mimeparts r) (partlists r) (physmessage r).
Abbreviation mdb := (sqldb mime_tables).
Abbreviation SQL := (SQL mime_tables).

(** An id that is not used yet. *)
Definition fresh_id (l : list Z) : Z := 1 + foldr Z.max 0 l.

(** A row of the list of parts refers to a message and to a part, and its place is unique. *)
Definition part_allowed (t : mime_tables) (r : part_row) : bool :=
  existsb (fun p => p.1 =? p_phys r) (physmessage t) && existsb (fun b => b_id b =? p_part r) (mimeparts t) &&
  negb (existsb (fun q => (p_phys q =? p_phys r) && (p_key q =? p_key r)%nat && (p_depth q =? p_depth r)%nat && (p_order q =? p_order r)%nat)
    (partlists t)).

(** What the option [message_part_hash] asks for: to compare the data (0), the hash only (1) or
    nothing (2). *)
Inductive part_hash := HASH_AND_DATA | HASH_ONLY | NO_HASH.
#[export] Instance part_hash_eq_dec : EqDecision part_hash.
Proof. solve_decision. Defined.
Class StoreConf := {
  message_part_hash : part_hash;
  hash_algorithm : option cstr;
}.

(** The counters of a message that is stored. *)
Record DbmailMessage := mkmsg { msg_id : Z; part_key : nat; part_depth : nat; part_order : nat }.
#[export] Instance DbmailMessage_settable : Settable DbmailMessage := fun r => mkmsg (msg_id r) (part_key r) (part_depth r) (part_order r).
Abbreviation mstate := (mdb * DbmailMessage)%type.

Definition MAX_MIME_DEPTH : nat := 64.
Definition MAX_MIME_BLEN : nat := 128.
Definition DM_ORA_MAX_BYTES_LOB_CMP : nat := 4000.

Class TypeParser := { g_mime_content_type_parse : cstr -> option content_type }.

Section store.
Context `{SqlConf} `{StoreConf} `{Digests} `{GLibStr} `{TypeParser}.

(** ** Hashes *)
Definition dm_get_hash_for_string (buf : cstr) : cstr :=
  let algorithm := default (lit "sha1") hash_algorithm in
  let type := default (lit "sha1")
    (find (strcaseeq algorithm) (lit <$> ["md5"; "sha1"; "sha256"; "sha512"; "whirlpool"; "tiger"]%string)) in
  digest type buf.

(** ** Blobs *)
Definition oracle : bool := match db_params_driver with DM_DRIVER_ORACLE => true | _ => false end.
Definition same_hash (buf hash : cstr) (r : blob_row) : bool := streq (b_hash r) hash && (length (b_data r) =? length buf)%nat.
Definition same_blob (buf hash : cstr) (r : blob_row) : bool := same_hash buf hash r && streq (b_data r) buf.
Definition insert_part (buf hash : cstr) : SQL Z := exec (fun t =>
  let id := fresh_id (b_id <$> mimeparts t) in (t <| mimeparts ::= fun l => l ++ [mkblob id hash buf] |>, id)).
Definition select_part (p : blob_row -> bool) : SQL Z := exec (fun t => (t, from_option b_id 0 (find p (mimeparts t)))).

(** Oracle compares the data of rows only: the row is inserted, and taken back when there was
    one like it. An exception leaves the id of the row behind. *)
Definition blob_exists_oracle (buf hash : cstr) (d : mdb) : mdb * Z :=
  match (mark;; insert_part buf hash) d with
  | (d1, None) => (d1 <| tables := tables d |>, 0)
  | (d1, Some id) =>
      match select_part (fun r => negb (b_id r =? id) && streq (b_hash r) hash && streq (b_data r) buf) d1 with
      | (d2, None) => (d2 <| tables := tables d |>, id)
      | (d2, Some old) =>
          match mark d2 with
          | (d3, Some _) => if old =? 0 then (d3, id) else (d3 <| tables := tables d |>, old)
          | (d3, None) => (d3 <| tables := tables d |>, if old =? 0 then id else old)
          end
      end
  end.

Definition blob_exists (buf hash : cstr) (d : mdb) : mdb * Z :=
  match message_part_hash with
  | NO_HASH => (d, 0)
  | mode =>
      if oracle && bool_decide (DM_ORA_MAX_BYTES_LOB_CMP < length buf)%nat then blob_exists_oracle buf hash d
      else try_catch (select_part (match mode with HASH_AND_DATA => same_blob buf hash | _ => same_hash buf hash end)) 0 d
  end.

(** The id stays when the COMMIT fails. *)
Definition blob_insert (buf hash : cstr) : mdb -> mdb * Z := commit_late (insert_part buf hash) 0.

Definition register_blob (m : DbmailMessage) (id : Z) (is_header : bool) : mdb -> mdb * bool :=
  let r := mkpart (msg_id m) is_header (part_key m) (part_depth m) (part_order m) id in
  commit_late (exec_checked (fun t => if part_allowed t r then Some (t <| partlists ::= fun l => l ++ [r] |>, true) else None)) false.

Definition blob_store (buf : cstr) (d : mdb) : mdb * Z :=
  let hash := dm_get_hash_for_string buf in
  let '(d, id) := blob_exists buf hash d in
  if id =? 0 then blob_insert buf hash d else (d, id).

Definition store_blob (s : mstate) (buf : option cstr) (is_header : bool) : mstate * Z :=
  match buf with
  | None => (s, 0)
  | Some buf =>
      let '(d, m) := s in
      let m := if is_header then m <| part_key ::= S |> <| part_order := 0%nat |> else m in
      let '(d, id) := blob_store buf d in
      if id =? 0 then ((d, m), DM_EQUERY)
      else
        let '(d, ok) := register_blob m id is_header d in
        if ok : bool then ((d, m <| part_order ::= S |>), 0) else ((d, m), DM_EQUERY)
  end.

(** ** Storing the tree *)
Definition g_mime_object_get_body (o : gmime) : cstr :=
  let s := whole_text (info o) in
  let i := find_end_of_header s in
  if bool_decide (length s <= i)%nat then [] else drop i s.

Definition store_head (o : gmime) (s : mstate) : mstate * Z := store_blob s (Some (header_text (info o))) true.
Definition store_body (o : gmime) (s : mstate) : mstate * Z :=
  match g_mime_object_get_body o with [] => (s, 0) | text => store_blob s (Some text) false end.
(** The next step, unless there was an error. *)
Definition unless (r : mstate * Z) (k : mstate -> mstate * bool) : mstate * bool :=
  let '(s, e) := r in if e <? 0 then (s, true) else k s.
Definition head_unless (skiphead : bool) (o : gmime) (s : mstate) (k : mstate -> mstate * bool) : mstate * bool :=
  if skiphead then k s else unless (store_head o s) k.

Definition store_mime_text (o : gmime) (skiphead : bool) (s : mstate) : mstate * bool :=
  head_unless skiphead o s (fun s => unless (store_body o s) (fun s => (s, false))).

Definition get_boundary (o : gmime) : option cstr := match o with GMultipart i _ => boundary i | _ => None end.
Definition get_prologue (o : gmime) : option cstr := match o with GMultipart i _ => prologue i | _ => None end.
Definition get_epilogue (o : gmime) : option cstr := match o with GMultipart i _ => epilogue i | _ => None end.
Definition enter_boundary (o : gmime) (m : DbmailMessage) : DbmailMessage :=
  if get_boundary o then m <| part_depth ::= S |> <| part_order := 0%nat |> else m.
Definition leave_boundary (o : gmime) (m : DbmailMessage) : DbmailMessage :=
  if get_boundary o then m <| part_depth ::= pred |> <| part_order ::= S |> else m.

(** [store_mime_object] of an object that is no message, or of the part of a message [owner];
    the results of the parts of a multipart are not looked at. *)
Fixpoint store_part (owner : gmime) (o : gmime) (skiphead : bool) (s : mstate) {struct o} : mstate * bool :=
  let store_mime_object (c : gmime) (s : mstate) : mstate * bool :=
    match c with
    | GMessage _ _ p =>
        unless (store_head c s) (fun s => match p with Some p => store_part c p true s | None => (s, true) end)
    | _ => store_part c c false s
    end in
  let store_parts := fix store_parts (l : list gmime) (s : mstate) : mstate :=
    match l with [] => s | c :: l => store_parts l (store_mime_object c s).1 end in
  if object_is (Some o) "multipart" "*" then
    head_unless skiphead o s (fun s => unless (store_blob s (get_prologue o) false) (fun '(d, m) =>
      let '(d, m) := match o with GMultipart _ l => store_parts l (d, enter_boundary o m) | _ => (d, enter_boundary o m) end in
      unless (store_blob (d, leave_boundary o m) (get_epilogue o) false) (fun s => (s, false))))
  else if object_is (Some o) "message" "*" then
    head_unless skiphead o s (fun s =>
      match o with
      | GMessagePart _ (Some ((GMessage _ _ _) as c)) => store_mime_object c s
      | _ => store_mime_text o true s
      end)
  else if object_is (Some o) "text" "*" then
    match owner with
    | GMessage _ _ _ => unless (store_body owner s) (fun s => (s, false))
    | _ => store_mime_text o skiphead s
    end
  else store_mime_text o skiphead s.

Definition store_mime_object (o : gmime) (s : mstate) : mstate * bool :=
  match o with
  | GMessage _ _ p =>
      unless (store_head o s) (fun s => match p with Some p => store_part o p true s | None => (s, true) end)
  | _ => store_part o o false s
  end.
Definition dm_message_store (o : gmime) (s : mstate) : mstate * bool := store_mime_object o s.

(** ** The type and the boundary of a header *)
Fixpoint g_strcasestr (haystack needle : cstr) : option cstr :=
  match haystack with
  | [] => None
  | _ :: h => if strncaseeq haystack needle (length needle) then Some haystack else g_strcasestr h needle
  end.
(** The value of a header up to the end of a line that is not continued. *)
Fixpoint header_value (s : cstr) : cstr :=
  match s with
  | [] => []
  | c :: s => if is_eol c && negb (isspace (char_at s 0)) then [] else c :: header_value s
  end.
Definition find_type_header (s : cstr) : option cstr :=
  rest ← match g_strcasestr s (LF :: lit "Content-type: ") with
         | Some rest => Some rest
         | None => if strncaseeq s (lit "Content-type: ") 14 then Some s else None
         end;
  Some (g_strstrip (header_value (match str_index rest ":"%char with Some i => drop (S i) rest | None => [] end))).
Definition find_type (s : cstr) : option content_type := h ← find_type_header s; g_mime_content_type_parse h.
Definition g_mime_content_type_get_parameter (t : content_type) (name : string) : option cstr :=
  snd <$> find (fun p => strcaseeq p.1 (lit name)) (default [] (type_params t)).
Definition find_boundary (s : cstr) : option cstr :=
  t ← find_type s; p ← g_mime_content_type_get_parameter t "boundary"; Some (take (MAX_MIME_BLEN - 1) p).

(** ** Putting a message together *)
Record rstate := mkr {
  r_depth : nat;
  r_header : bool;            (** the last row is a header *)
  is_message : bool;
  got_boundary : bool;
  blist : gmap nat cstr;      (** the boundaries of the open multiparts; absent ones are empty *)
  r_boundary : cstr;
  r_text : cstr;
  r_rows : nat;
}.
#[export] Instance rstate_settable : Settable rstate := fun r =>
  mkr (r_depth r) (r_header r) (is_message r) (got_boundary r) (blist r) (r_boundary r) (r_text r) (r_rows r).
Definition r_start : rstate := mkr 0 true false false ∅ [] [] 0.

Definition boundary_at (n : nat) (s : rstate) : cstr := default [] (blist s !! n).
Definition dashes : cstr := lit "--".
Definition open_line (b : cstr) : cstr := dashes ++ b ++ [LF].
Definition close_line (b : cstr) : cstr := LF :: dashes ++ b ++ dashes ++ [LF].
(** The multiparts below [depth] that are closed; [None] is an access behind [blist]. *)
Fixpoint close_boundaries (depth prevdepth : nat) (s : rstate) : option rstate :=
  match prevdepth with
  | S p =>
      if bool_decide (depth <= p)%nat then
        if bool_decide (MAX_MIME_DEPTH < p)%nat then None
        else match boundary_at p s with
             | [] => Some s
             | b => close_boundaries depth p (s <| r_text ::= fun t => t ++ close_line b |> <| blist ::= delete p |>)
             end
      else Some s
  | 0%nat => Some s
  end.

(** One row of a depth. *)
Definition retrieve_row (depth : nat) (header : bool) (str : cstr) (s : rstate) : option rstate :=
  let prevdepth := r_depth s in
  let prev_header := r_header s in
  let s := s <| r_depth := depth |> in
  if bool_decide (MAX_MIME_DEPTH < depth)%nat then Some s
  else
    let s := s <| r_header := header |> in
    let prev_boundary := got_boundary s in
    let prev_is_message := is_message s in
    let s := if header then
        match find_type str with Some t => s <| is_message := is_type t "message" "rfc822" |> | None => s end
      else s in
    let s := s <| got_boundary := false |> in
    let s := if header then
        match find_boundary str with
        | Some b => s <| got_boundary := true |> <| r_boundary := b |> <| blist ::= <[depth := b]> |>
        | None => s
        end
      else s in
    s ← close_boundaries depth prevdepth s;
    let s := match depth with
      | S p => match boundary_at p s with [] => s | b => s <| r_boundary := b |> end
      | 0%nat => s
      end in
    let line :=
      if negb header then []
      else if prev_header && bool_decide (0 < depth)%nat && negb prev_is_message then open_line (r_boundary s)
      else if negb prev_header || prev_boundary then LF :: open_line (r_boundary s)
      else [] in
    Some (s <| r_text ::= fun t => t ++ line ++ str ++ (if header then [LF] else []) |> <| r_rows ::= S |>).
Fixpoint retrieve_rows (l : list (nat * bool * cstr)) (s : rstate) : option rstate :=
  match l with
  | [] => Some s
  | (depth, header, str) :: l => s ← retrieve_row depth header str s; retrieve_rows l s
  end.
Definition retrieved_text (s : rstate) : cstr :=
  r_text s ++ (if bool_decide (2 < r_rows s)%nat then match boundary_at 0 s with [] => [] | b => close_line b end else []).

(** ORDER BY part_key, part_order ASC, part_depth DESC *)
Definition row_before (a b : part_row) : Prop :=
  (p_key a < p_key b)%nat \/
  (p_key a = p_key b /\ ((p_order a < p_order b)%nat \/ (p_order a = p_order b /\ (p_depth b <= p_depth a)%nat))).
#[export] Instance row_before_dec : RelDecision row_before.
Proof. intros a b. apply _. Defined.

(** The rows of a message, with the data of the parts they refer to. *)
Definition part_data (t : mime_tables) (r : part_row) : option (nat * bool * cstr) :=
  b ← find (fun b => b_id b =? p_part r) (mimeparts t); Some (p_depth r, p_header r, b_data b).
Definition message_rows (t : mime_tables) (physid : Z) : list (nat * bool * cstr) :=
  if existsb (fun p => p.1 =? physid) (physmessage t)
  then omap (part_data t) (merge_sort row_before (filter (fun r => p_phys r = physid) (partlists t)))
  else [].

(** What is found: a text, nothing, or an access behind an array. *)
Inductive retrieved := Retrieved (text : cstr) | NotFound | Overrun.
Definition _mime_retrieve (physid : Z) (d : mdb) : mdb * retrieved :=
  try_catch (exec (fun t => (t,
    match retrieve_rows (message_rows t physid) r_start with
    | None => Overrun
    | Some s => if (r_rows s =? 0)%nat then NotFound else Retrieved (retrieved_text s)
    end))) NotFound d.
End store.
