(* ===== verification/MessageStoreFacts.v ===== *)
(** * A stored message is the message that is retrieved

    What is stored of a tree of MIME objects, the text that the tree stands for, and the
    theorem that storing the tree and retrieving it yields that text. *)
From S2P Require Import Prelude CLib GLib ClientBase MiscText GListUtil ImapText Mime MimeFacts Auth SqlFragment SqlState MessageStore.

(** ** Tables *)
Section blobs.
Context `{SqlConf} `{StoreConf} `{Digests} `{GLibStr} `{TypeParser}.

(** Ids are primary keys. *)
Record parts_wf (t : mime_tables) : Prop := {
  ids_unique : NoDup (b_id <$> mimeparts t);
  ids_positive r : r ∈ mimeparts t -> 0 < b_id r;
}.
(** Where only hashes are compared, no two of the texts have the same one. *)
Definition faithful (t : mime_tables) (L : list cstr) : Prop := message_part_hash = HASH_ONLY ->
  (forall r, r ∈ mimeparts t -> b_hash r = dm_get_hash_for_string (b_data r)) /\
  (forall a b, a ∈ (b_data <$> mimeparts t) ++ L -> b ∈ L ->
    dm_get_hash_for_string a = dm_get_hash_for_string b -> length a = length b -> a = b).
(** Parts are only added. *)
Record more_parts (L : list cstr) (t t' : mime_tables) : Prop := {
  more_same : partlists t' = partlists t /\ physmessage t' = physmessage t;
  more_rows : exists l, mimeparts t' = mimeparts t ++ l /\
    Forall (fun r => b_data r ∈ L /\ b_hash r = dm_get_hash_for_string (b_data r)) l;
}.
Definition data_of (t : mime_tables) (id : Z) : option cstr := b_data <$> find (fun b => b_id b =? id) (mimeparts t).

Lemma find_Some_app {A} (p : A -> bool) l k x : find p l = Some x -> find p (l ++ k) = Some x.
Proof. induction l as [|y l IH]; simpl; [done|]. by destruct (p y). Qed.
Lemma find_app_inv {A} (p : A -> bool) l x r : find p (l ++ [x]) = Some r -> p x = false -> find p l = Some r.
Proof. intros F Hx. induction l as [|y l IH]; simpl in *; [by rewrite Hx in F|]. by destruct (p y); [|apply IH]. Qed.
Lemma find_elem {A} (p : A -> bool) l x : find p l = Some x -> x ∈ l /\ p x = true.
Proof. intros E. apply find_some in E as [Hi Hp]. split; [by apply list_elem_of_In|done]. Qed.
Lemma find_id (l : list blob_row) r : NoDup (b_id <$> l) -> r ∈ l -> find (fun b => b_id b =? b_id r) l = Some r.
Proof.
  induction l as [|a l IH]; intros Hn Hr; [by apply elem_of_nil in Hr|]. simpl. apply NoDup_cons in Hn as [Ha Hn].
  apply elem_of_cons in Hr as [->|Hr]; [by rewrite Z.eqb_refl|].
  destruct (Z.eqb_spec (b_id a) (b_id r)) as [E|_]; [|by apply IH]. exfalso. apply Ha. rewrite E. by apply list_elem_of_fmap_2.
Qed.
Lemma fresh_bound l z : z ∈ l -> z < fresh_id l.
Proof.
  unfold fresh_id. induction l as [|x l IH]; intros Hz; [by apply elem_of_nil in Hz|]. cbn [foldr].
  apply elem_of_cons in Hz as [->|Hz]; [lia|]. specialize (IH Hz). lia.
Qed.
Lemma fresh_positive l : 0 < fresh_id l.
Proof. unfold fresh_id. induction l as [|x l IH]; cbn [foldr]; lia. Qed.

Definition with_part (t : mime_tables) (buf : cstr) : mime_tables :=
  t <| mimeparts ::= fun l => l ++ [mkblob (fresh_id (b_id <$> mimeparts t)) (dm_get_hash_for_string buf) buf] |>.
Lemma more_refl L t : more_parts L t t.
Proof. split; [done|]. exists []. by rewrite app_nil_r. Qed.
Lemma more_with L t buf : buf ∈ L -> more_parts L t (with_part t buf).
Proof. intros Hb. split; [done|]. eexists. split; [done|]. by constructor. Qed.
Lemma wf_with t buf : parts_wf t -> parts_wf (with_part t buf).
Proof.
  intros [Hn Hp]. split; cbn [with_part mimeparts]; unfold set_field; simpl.
  - rewrite fmap_app. apply NoDup_app. split; [done|]. split; [|apply NoDup_singleton].
    intros z Hz. simpl. rewrite list_elem_of_singleton. intros ->. apply fresh_bound in Hz. lia.
  - intros r Hr. apply elem_of_app in Hr as [Hr|Hr]; [by apply Hp|]. apply list_elem_of_singleton in Hr as ->. apply fresh_positive.
Qed.
Lemma data_with t buf : parts_wf t -> data_of (with_part t buf) (fresh_id (b_id <$> mimeparts t)) = Some buf.
Proof.
  intros W. unfold data_of. pose proof (ids_unique _ (wf_with t buf W)) as Hn.
  set (r := mkblob (fresh_id (b_id <$> mimeparts t)) (dm_get_hash_for_string buf) buf).
  change (fresh_id (b_id <$> mimeparts t)) with (b_id r). rewrite (find_id _ r Hn); [done|].
  cbn [with_part mimeparts]. unfold set_field. simpl. apply elem_of_app. right. by apply list_elem_of_singleton.
Qed.
Lemma more_data L t t' id x : more_parts L t t' -> data_of t id = Some x -> data_of t' id = Some x.
Proof.
  intros [_ (l & E & _)] Hd. unfold data_of in *. rewrite E. destruct (find _ (mimeparts t)) as [r|] eqn:F; [|done].
  by rewrite (find_Some_app _ _ _ _ F).
Qed.
Lemma faithful_more L t t' : faithful t L -> more_parts L t t' -> faithful t' L.
Proof.
  intros F [_ (l & E & Hl)] Hm. destruct (F Hm) as [F1 F2]. rewrite Forall_forall in Hl. split.
  - intros r Hr. rewrite E in Hr. apply elem_of_app in Hr as [Hr|Hr]; [by apply F1|by apply Hl].
  - intros a b Ha. apply F2. rewrite E, fmap_app, <- app_assoc in Ha. apply elem_of_app in Ha as [Ha|Ha]; [by apply elem_of_app; left|].
    apply elem_of_app. right. apply elem_of_app in Ha as [Ha|Ha]; [|done]. apply list_elem_of_fmap_1 in Ha as (r & -> & Hr). by apply Hl.
Qed.

(** ** Storing one text *)
Lemma insert_calm t buf : insert_part buf (dm_get_hash_for_string buf) (mksdb t []) =
  (mksdb (with_part t buf) [], Some (fresh_id (b_id <$> mimeparts t))).
Proof. unfold insert_part. by rewrite exec_calm. Qed.
Lemma found_part t p r : parts_wf t -> find p (mimeparts t) = Some r ->
  0 < b_id r /\ p r = true /\ data_of t (b_id r) = Some (b_data r).
Proof.
  intros [Hn Hp] E. apply find_elem in E as [Hr Hpr]. split_and!; [by apply Hp|done|]. unfold data_of. by rewrite (find_id _ r).
Qed.
(** What is stored of a text: an id of a row with the text. *)
Definition stores (L : list cstr) (t : mime_tables) (buf : cstr) (r : mdb * Z) : Prop :=
  exists t' id, r = (mksdb t' [], id) /\ id <> 0 /\ more_parts L t t' /\ parts_wf t' /\ data_of t' id = Some buf.
Lemma stores_new L t buf : parts_wf t -> buf ∈ L -> stores L t buf (mksdb (with_part t buf) [], fresh_id (b_id <$> mimeparts t)).
Proof.
  intros W Hb. eexists _, _. split; [done|]. split; [pose proof (fresh_positive (b_id <$> mimeparts t)); lia|].
  split_and!; [by apply more_with|by apply wf_with|by apply data_with].
Qed.
Lemma stores_old L t buf r : parts_wf t -> 0 < b_id r -> data_of t (b_id r) = Some buf -> stores L t buf (mksdb t [], b_id r).
Proof. intros W Hr Hd. exists t, (b_id r). split_and!; [done|lia|apply more_refl|done|done]. Qed.

Lemma exists_oracle_calm L t buf : parts_wf t -> buf ∈ L ->
  stores L t buf (blob_exists_oracle buf (dm_get_hash_for_string buf) (mksdb t [])).
Proof.
  intros W Hb. unfold blob_exists_oracle. rewrite (bind_calm _ _ t t tt) by done. rewrite insert_calm.
  set (id := fresh_id _). unfold select_part. rewrite exec_calm. cbn [fst snd].
  change (mimeparts (with_part t buf)) with (mimeparts t ++ [mkblob id (dm_get_hash_for_string buf) buf]).
  destruct (find _ _) as [r|] eqn:F; cbn [from_option].
  - assert (find (fun r => negb (b_id r =? id) && streq (b_hash r) (dm_get_hash_for_string buf) && streq (b_data r) buf) (mimeparts t) = Some r) as F'.
    { apply find_app_inv in F; [done|]. cbn [b_id]. by rewrite Z.eqb_refl. }
    destruct (found_part _ _ _ W F') as (Hr & Hp & Hd). rewrite (proj2 (Z.eqb_neq (b_id r) 0)) by lia.
    rewrite !andb_true_iff in Hp. destruct Hp as [_ Hp]. apply bool_decide_eq_true in Hp as Hp. rewrite Hp in Hd. by apply stores_old.
  - rewrite Z.eqb_refl. by apply stores_new.
Qed.
Lemma blob_store_calm L t buf : parts_wf t -> faithful t L -> buf ∈ L -> stores L t buf (blob_store buf (mksdb t [])).
Proof.
  intros W F Hb. unfold blob_store. set (hash := dm_get_hash_for_string buf).
  assert (forall p : blob_row -> bool, (forall r, r ∈ mimeparts t -> p r = true -> b_data r = buf) ->
    stores L t buf (let '(d, id) := try_catch (select_part p) 0 (mksdb t []) in if id =? 0 then blob_insert buf hash d else (d, id))) as Hsel.
  { intros p Hp. unfold select_part. rewrite (try_calm _ _ _ _ _ (exec_calm _ _)). cbn [fst snd].
    destruct (find p (mimeparts t)) as [r|] eqn:E; cbn [from_option].
    - destruct (found_part _ _ _ W E) as (Hr & Hpr & Hd). rewrite (proj2 (Z.eqb_neq (b_id r) 0)) by lia.
      rewrite (Hp r (proj1 (find_elem _ _ _ E)) Hpr) in Hd. by apply stores_old.
    - change (0 =? 0) with true. cbv iota. unfold blob_insert. rewrite (commit_late_calm _ _ _ _ _ (insert_calm t buf)). by apply stores_new. }
  assert (forall r, same_blob buf hash r = true -> b_data r = buf) as Hs.
  { intros r. unfold same_blob. rewrite andb_true_iff. intros [_ E]. by apply bool_decide_eq_true in E. }
  unfold blob_exists. destruct message_part_hash eqn:Em.
  - destruct (oracle && _); [|apply Hsel; auto].
    destruct (exists_oracle_calm L t buf W Hb) as (t' & id & E & Hid & Hrest). fold hash in E. rewrite E.
    rewrite (proj2 (Z.eqb_neq id 0)) by done. by exists t', id.
  - destruct (oracle && _).
    + destruct (exists_oracle_calm L t buf W Hb) as (t' & id & E & Hid & Hrest). fold hash in E. rewrite E.
      rewrite (proj2 (Z.eqb_neq id 0)) by done. by exists t', id.
    + apply Hsel. intros r Hr Hp. unfold same_hash in Hp. apply andb_true_iff in Hp as [Hh%bool_decide_eq_true Hl%Nat.eqb_eq].
      destruct (F Em) as [F1 F2]. apply F2; [apply elem_of_app; left; by apply list_elem_of_fmap_2|done|by rewrite <- F1|done].
  - change (0 =? 0) with true. cbv iota. unfold blob_insert. rewrite (commit_late_calm _ _ _ _ _ (insert_calm t buf)). by apply stores_new.
Qed.
End blobs.

(** ** What a tree stands for *)
Section text.
Context `{GLibStr} `{TypeParser}.

(** The body of a leaf; the text of a message belongs to the message. *)
Definition leaf_body (owner o : gmime) : cstr :=
  match owner with
  | GMessage _ _ _ => if object_is (Some o) "text" "*" then g_mime_object_get_body owner else g_mime_object_get_body o
  | _ => g_mime_object_get_body o
  end.
(** Whether nothing follows the header. *)
Fixpoint bare_part (owner o : gmime) : bool :=
  match o with
  | GMultipart _ _ => false
  | GMessagePart _ (Some ((GMessage _ _ (Some p)) as m)) => bare_part m p
  | _ => bool_decide (leaf_body owner o = [])
  end.
Definition bare (c : gmime) : bool :=
  match c with GMessage _ _ (Some p) => bare_part c p | _ => bare_part c c end.

(** An entity is its header, an empty line and its content. A delimiter is a line of its own:
    behind an empty line it needs no line feed in front of it. *)
Fixpoint part_text (owner o : gmime) : cstr :=
  let object_text (c : gmime) : cstr :=
    header_text (info c) ++ [LF] ++ match c with GMessage _ _ (Some p) => part_text c p | _ => part_text c c end in
  let parts_text (b : cstr) := fix parts_text (behind : bool) (l : list gmime) : cstr :=
    match l with
    | [] => []
    | c :: l => (if behind then [] else [LF]) ++ open_line b ++ object_text c ++ parts_text (bare c) l
    end in
  match o with
  | GMultipart i l =>
      let b := default [] (boundary i) in
      default [] (prologue i) ++ parts_text b (bool_decide (prologue i = None)) l ++ close_line b ++ default [] (epilogue i)
  | GMessagePart _ (Some m) => object_text m
  | _ => leaf_body owner o
  end.
Definition object_text (c : gmime) : cstr :=
  header_text (info c) ++ [LF] ++ match c with GMessage _ _ (Some p) => part_text c p | _ => part_text c c end.
Fixpoint parts_text (b : cstr) (behind : bool) (l : list gmime) : cstr :=
  match l with
  | [] => []
  | c :: l => (if behind then [] else [LF]) ++ open_line b ++ object_text c ++ parts_text b (bare c) l
  end.

(** ** What is stored of a tree *)
Definition text_blob (d : nat) (t : option cstr) : list (nat * bool * cstr) := match t with Some t => [(d, false, t)] | None => [] end.
Definition leaf_blob (d : nat) (t : cstr) : list (nat * bool * cstr) := match t with [] => [] | _ => [(d, false, t)] end.
Fixpoint part_blobs (owner o : gmime) (d : nat) : list (nat * bool * cstr) :=
  let object_blobs (c : gmime) (d : nat) :=
    (d, true, header_text (info c)) :: match c with GMessage _ _ (Some p) => part_blobs c p d | _ => part_blobs c c d end in
  let parts_blobs := fix parts_blobs (l : list gmime) (d : nat) :=
    match l with [] => [] | c :: l => object_blobs c d ++ parts_blobs l d end in
  match o with
  | GMultipart i l => text_blob d (prologue i) ++ parts_blobs l (S d) ++ text_blob d (epilogue i)
  | GMessagePart _ (Some m) => object_blobs m d
  | _ => leaf_blob d (leaf_body owner o)
  end.
Definition object_blobs (c : gmime) (d : nat) : list (nat * bool * cstr) :=
  (d, true, header_text (info c)) :: match c with GMessage _ _ (Some p) => part_blobs c p d | _ => part_blobs c c d end.
Fixpoint parts_blobs (l : list gmime) (d : nat) : list (nat * bool * cstr) :=
  match l with [] => [] | c :: l => object_blobs c d ++ parts_blobs l d end.

(** ** Trees that are put together as they were *)

(** The header says what type the object has. *)
Definition declares (h : cstr) (rfc822 : bool) : Prop := exists t, find_type h = Some t /\ is_type t "message" "rfc822" = rfc822.
(** A content under the header [h] at a depth. A multipart that is not the whole message has an
    epilogue, maybe an empty one; see [open_multipart_breaks] for what happens without it. *)
Fixpoint good_part (h : cstr) (owner o : gmime) (d : nat) : Prop :=
  let good_object (c : gmime) (d : nat) : Prop :=
    match c with GMessage i _ (Some p) => good_part (header_text i) c p d | GMessage _ _ None => False
    | _ => good_part (header_text (info c)) c c d end in
  let good_parts := fix good_parts (l : list gmime) (d : nat) : Prop :=
    match l with [] => True | c :: l => good_object c d /\ good_parts l d end in
  match o with
  | GMessage _ _ _ => False
  | GMultipart i l =>
      object_is (Some o) "multipart" "*" = true /\ (d < MAX_MIME_DEPTH)%nat /\ declares h false /\
      (exists b, b <> [] /\ boundary i = Some b /\ find_boundary h = Some b) /\
      l <> [] /\ good_parts l (S d) /\
      (epilogue i = None -> d = 0%nat /\ (1 < length (text_blob d (prologue i) ++ parts_blobs l (S d)))%nat)
  | GMessagePart _ (Some m) =>
      object_is (Some o) "multipart" "*" = false /\ object_is (Some o) "message" "*" = true /\
      declares h true /\ find_boundary h = None /\
      match m with GMessage _ _ (Some _) => good_object m d | _ => False end
  | _ =>
      object_is (Some o) "multipart" "*" = false /\ find_boundary h = None /\
      (leaf_body owner o = [] -> declares h false)
  end.
Definition good_object (c : gmime) (d : nat) : Prop :=
  match c with GMessage i _ (Some p) => good_part (header_text i) c p d | GMessage _ _ None => False
  | _ => good_part (header_text (info c)) c c d end.
Fixpoint good_parts (l : list gmime) (d : nat) : Prop :=
  match l with [] => True | c :: l => good_object c d /\ good_parts l d end.

(** The functions on lists of parts and on objects are those inside of the functions on parts. *)
Lemma part_text_multi owner i l : part_text owner (GMultipart i l) =
  default [] (prologue i) ++ parts_text (default [] (boundary i)) (bool_decide (prologue i = None)) l ++
  close_line (default [] (boundary i)) ++ default [] (epilogue i).
Proof.
  cbn [part_text]. f_equal. f_equal. generalize (bool_decide (prologue i = None)). clear. induction l as [|c l IH]; intros b; [done|].
  cbn [parts_text]. by rewrite IH.
Qed.
Lemma part_blobs_multi owner i l d : part_blobs owner (GMultipart i l) d =
  text_blob d (prologue i) ++ parts_blobs l (S d) ++ text_blob d (epilogue i).
Proof. cbn [part_blobs]. by do 2 f_equal. Qed.
Lemma good_multi_parts h owner i l d : good_part h owner (GMultipart i l) d -> good_parts l (S d).
Proof. intros (_ & _ & _ & _ & _ & G & _). exact G. Qed.
Lemma good_multi_end h owner i l d : good_part h owner (GMultipart i l) d ->
  epilogue i = None -> d = 0%nat /\ (1 < length (text_blob d (prologue i) ++ parts_blobs l (S d)))%nat.
Proof. intros (_ & _ & _ & _ & _ & _ & E). exact E. Qed.

(** ** Putting the text together *)

(** What one row of a header does: the line in front of it and the state behind it. *)
Definition header_line (d : nat) (s : rstate) : cstr :=
  let b := boundary_at (pred d) s in
  if r_header s && bool_decide (0 < d)%nat && negb (is_message s) then open_line b
  else if negb (r_header s) || got_boundary s then LF :: open_line b
  else [].
(** A header may come next: nothing is open at its depth or below. *)
Record at_header (d : nat) (s : rstate) : Prop := {
  ah_depth : (r_depth s <= d)%nat;
  ah_max : (d <= MAX_MIME_DEPTH)%nat;
  ah_top : d = 0%nat -> r_header s = true /\ got_boundary s = false;
  ah_open : (0 < d)%nat -> boundary_at (pred d) s <> [];
  ah_closed j : (d <= j)%nat -> blist s !! j = None;
}.
(** [text] was added, in rows up to the depth [d], and what was opened is closed again. *)
Record added (d : nat) (header : bool) (text : cstr) (n : nat) (s s' : rstate) : Prop := {
  ad_depth : r_depth s' = d;
  ad_header : r_header s' = header;
  ad_bare : header = true -> is_message s' = false /\ got_boundary s' = false;
  ad_blist : blist s' = blist s;
  ad_text : r_text s' = r_text s ++ text;
  ad_rows : r_rows s' = (r_rows s + n)%nat;
}.
(** Behind a header. *)
Record under (d : nat) (h : cstr) (text : cstr) (s s' : rstate) : Prop := {
  un_depth : r_depth s' = d;
  un_header : r_header s' = true;
  un_message t : find_type h = Some t -> is_message s' = is_type t "message" "rfc822";
  un_got : got_boundary s' = bool_decide (is_Some (find_boundary h));
  un_blist : blist s' = match find_boundary h with Some b => <[d := b]> (blist s) | None => blist s end;
  un_text : r_text s' = r_text s ++ text ++ h ++ [LF];
  un_rows : r_rows s' = S (r_rows s);
}.

Lemma close_none d p s : (p <= d)%nat -> close_boundaries d p s = Some s.
Proof. intros Hp. destruct p as [|p]; [done|]. cbn [close_boundaries]. by rewrite bool_decide_eq_false_2 by lia. Qed.
Lemma close_one d b s : (d <= MAX_MIME_DEPTH)%nat -> boundary_at d s = b -> b <> [] ->
  close_boundaries d (S d) s = Some (s <| r_text ::= fun t => t ++ close_line b |> <| blist ::= delete d |>).
Proof.
  intros Hd Hb Hn. cbn [close_boundaries]. rewrite bool_decide_eq_true_2 by lia. rewrite bool_decide_eq_false_2 by lia. rewrite Hb.
  destruct b as [|c b]; [done|]. by apply close_none.
Qed.
Lemma retrieve_rows_app l k s : retrieve_rows (l ++ k) s = retrieve_rows l s ≫= retrieve_rows k.
Proof.
  revert s. induction l as [|[[d h] t] l IH]; intros s; [done|]. cbn [app retrieve_rows]. destruct (retrieve_row d h t s); [apply IH|done].
Qed.

Lemma header_row d h s : at_header d s -> exists s', retrieve_row d true h s = Some s' /\ under d h (header_line d s) s s'.
Proof.
  intros [A1 A2 A3 A4 A5]. unfold retrieve_row. rewrite bool_decide_eq_false_2 by lia. cbv zeta.
  set (s1 := match find_type h with Some t => _ | None => _ end).
  set (s2 := match find_boundary h with Some b => _ | None => _ end).
  assert (r_depth s2 = d /\ r_header s2 = true /\ r_text s2 = r_text s /\ r_rows s2 = r_rows s) as (E1 & E2 & E3 & E4)
    by (unfold s2, s1; by destruct (find_type h), (find_boundary h)).
  assert (blist s2 = match find_boundary h with Some b => <[d := b]> (blist s) | None => blist s end) as E5
    by (unfold s2, s1; by destruct (find_type h), (find_boundary h)).
  assert (got_boundary s2 = bool_decide (is_Some (find_boundary h))) as E6
    by (unfold s2, s1; by destruct (find_type h), (find_boundary h)).
  assert (forall t, find_type h = Some t -> is_message s2 = is_type t "message" "rfc822") as E7
    by (intros t Ht; unfold s2, s1; rewrite Ht; by destruct (find_boundary h)).
  clearbody s2. clear s1. rewrite (close_none d (r_depth s) s2) by done. cbn [mbind option_bind].
  set (s3 := match d with 0%nat => s2 | S p => _ end).
  assert (r_depth s3 = r_depth s2 /\ r_header s3 = r_header s2 /\ r_text s3 = r_text s2 /\ r_rows s3 = r_rows s2 /\ blist s3 = blist s2 /\
    got_boundary s3 = got_boundary s2 /\ is_message s3 = is_message s2) as (F1 & F2 & F3 & F4 & F5 & F6 & F7)
    by (unfold s3; destruct d as [|p]; [done|]; by destruct (boundary_at p s2)).
  assert ((0 < d)%nat -> r_boundary s3 = boundary_at (pred d) s) as Hb.
  { intros Hd. specialize (A4 Hd). destruct d as [|p]; [lia|]. unfold s3. cbn [pred].
    assert (boundary_at p s2 = boundary_at p s) as ->
      by (unfold boundary_at; rewrite E5; destruct (find_boundary h); [by rewrite lookup_insert_ne by lia|done]).
    cbn [pred] in A4. by destruct (boundary_at p s). }
  eexists. split; [reflexivity|].
  assert ((if r_header s && bool_decide (0 < d)%nat && negb (is_message s) then open_line (r_boundary s3)
           else if negb (r_header s) || got_boundary s then LF :: open_line (r_boundary s3) else []) = header_line d s) as El.
  { unfold header_line. destruct (decide (d = 0%nat)) as [->|Hd]; [|by rewrite Hb by lia].
    destruct (A3 eq_refl) as [-> ->]. done. }
  split; try (cbn; by rewrite ?F1, ?F2, ?F4, ?F5, ?F6, ?E1, ?E2, ?E4, ?E5, ?E6).
  - intros t Ht. cbn. rewrite F7. by apply E7.
  - cbn [negb]. cbv iota. cbn. rewrite F3, E3, <- El. done.
Qed.
Lemma text_row d t s : (r_depth s <= d)%nat -> (d <= MAX_MIME_DEPTH)%nat ->
  exists s', retrieve_row d false t s = Some s' /\ added d false t 1 s s'.
Proof.
  intros H1 H2. unfold retrieve_row. rewrite bool_decide_eq_false_2 by lia. cbv zeta. rewrite close_none by done. cbn [mbind option_bind].
  set (s3 := match d with 0%nat => _ | S p => _ end). set (s2 := s <| r_depth := d |> <| r_header := false |> <| got_boundary := false |>) in s3.
  assert (r_depth s3 = r_depth s2 /\ r_header s3 = r_header s2 /\ r_text s3 = r_text s2 /\ r_rows s3 = r_rows s2 /\ blist s3 = blist s2)
    as (F1 & F2 & F3 & F4 & F5) by (unfold s3; destruct d as [|p]; [done|]; by destruct (boundary_at p s2)).
  eexists. split; [reflexivity|]. split; cbn; rewrite ?F1, ?F2, ?F3, ?F4, ?F5, ?app_nil_r; try done. cbn. lia.
Qed.
(** The text behind the parts of a multipart closes it. *)
Lemma epilogue_row d b t s : r_depth s = S d -> (d <= MAX_MIME_DEPTH)%nat -> boundary_at d s = b -> b <> [] ->
  exists s', retrieve_row d false t s = Some s' /\ r_depth s' = d /\ r_header s' = false /\ blist s' = delete d (blist s) /\
    r_text s' = r_text s ++ close_line b ++ t /\ r_rows s' = S (r_rows s).
Proof.
  intros H1 H2 H3 H4. unfold retrieve_row. rewrite bool_decide_eq_false_2 by lia. cbv zeta. rewrite H1. rewrite (close_one d b) by done.
  cbn [mbind option_bind]. set (s2 := set_field blist _ _). set (s3 := match d with 0%nat => _ | S p => _ end).
  assert (r_depth s3 = r_depth s2 /\ r_header s3 = r_header s2 /\ r_text s3 = r_text s2 /\ r_rows s3 = r_rows s2 /\ blist s3 = blist s2)
    as (F1 & F2 & F3 & F4 & F5) by (unfold s3; destruct d as [|p]; [done|]; by destruct (boundary_at p s2)).
  eexists. split; [reflexivity|]. split_and!; cbn; rewrite ?F1, ?F2, ?F3, ?F4, ?F5, ?app_nil_r; try done.
  change (r_text s2) with (r_text s ++ close_line b). by rewrite <- (app_assoc (r_text s)).
Qed.

(** Behind the header [h] of a content; [m] are the boundaries around it. *)
Record at_content (h : cstr) (d : nat) (m : gmap nat cstr) (s : rstate) : Prop := {
  ac_depth : r_depth s = d;
  ac_max : (d <= MAX_MIME_DEPTH)%nat;
  ac_header : r_header s = true;
  ac_message t : find_type h = Some t -> is_message s = is_type t "message" "rfc822";
  ac_got : got_boundary s = bool_decide (is_Some (find_boundary h));
  ac_blist : blist s = match find_boundary h with Some b => <[d := b]> m | None => m end;
  ac_open : (0 < d)%nat -> default [] (m !! pred d) <> [];
  ac_closed j : (d <= j)%nat -> m !! j = None;
  ac_rows : (0 < r_rows s)%nat;
}.
(** The text was added: everything is closed again, or the whole message is an open multipart. *)
Definition ends_closed (d : nat) (header : bool) (text : cstr) (n : nat) (m : gmap nat cstr) (s s' : rstate) : Prop :=
  r_depth s' = d /\ r_header s' = header /\ (header = true -> is_message s' = false /\ got_boundary s' = false) /\ blist s' = m /\
  r_text s' = r_text s ++ text /\ r_rows s' = (r_rows s + n)%nat.
Definition ends_open (d : nat) (text : cstr) (s s' : rstate) : Prop :=
  d = 0%nat /\ (2 < r_rows s')%nat /\ exists b, b <> [] /\ boundary_at 0 s' = b /\ r_text s' ++ close_line b = r_text s ++ text.
Definition read_to (d : nat) (header : bool) (text : cstr) (n : nat) (m : gmap nat cstr) (s s' : rstate) : Prop :=
  ends_closed d header text n m s s' \/ ends_open d text s s'.

Definition reads_part (o : gmime) : Prop := forall h owner d m s, at_content h d m s -> good_part h owner o d ->
  exists s', retrieve_rows (part_blobs owner o d) s = Some s' /\
    read_to d (bare_part owner o) (part_text owner o) (length (part_blobs owner o d)) m s s'.
Definition reads_object (c : gmime) : Prop := forall d s, at_header d s -> good_object c d ->
  exists s', retrieve_rows (object_blobs c d) s = Some s' /\
    read_to d (bare c) (header_line d s ++ object_text c) (length (object_blobs c d)) (blist s) s s'.

Lemma under_content d h l s s' : at_header d s -> under d h l s s' -> at_content h d (blist s) s'.
Proof.
  intros [A1 A2 A3 A4 A5] [U1 U2 U3 U4 U5 U6 U7]. split; try done.
  rewrite U7. lia.
Qed.
(** An object is read when what is below its header is. *)
Lemma read_below h owner o (text : cstr) d s s1 : at_header d s -> under d h text s s1 -> reads_part o -> good_part h owner o d ->
  exists s', retrieve_rows (part_blobs owner o d) s1 = Some s' /\
    read_to d (bare_part owner o) (text ++ h ++ [LF] ++ part_text owner o) (S (length (part_blobs owner o d))) (blist s) s s'.
Proof.
  intros A U R G. destruct (R h owner d (blist s) s1 (under_content _ _ _ _ _ A U) G) as (s' & E & Hr). exists s'. split; [done|].
  pose proof (un_text _ _ _ _ _ U) as Et. pose proof (un_rows _ _ _ _ _ U) as En.
  destruct Hr as [(H1 & H2 & H3 & H4 & H5 & H6)|(H1 & H2 & b & H3 & H4 & H5)]; [left|right].
  - repeat split; try done; [by apply H3..| |rewrite H6, En; lia]. by rewrite H5, Et, <- !app_assoc.
  - split_and!; [done|done|]. exists b. split_and!; [done|done|]. by rewrite H5, Et, <- !app_assoc.
Qed.
(** The content of an object. *)
Definition content (c : gmime) : gmime := match c with GMessage _ _ (Some p) => p | _ => c end.
Lemma object_blobs_content c d : object_blobs c d = (d, true, header_text (info c)) :: part_blobs c (content c) d.
Proof. by destruct c as [? ? [?|]| | |]. Qed.
Lemma object_text_content c : object_text c = header_text (info c) ++ [LF] ++ part_text c (content c).
Proof. by destruct c as [? ? [?|]| | |]. Qed.
Lemma bare_content c : bare c = bare_part c (content c).
Proof. by destruct c as [? ? [?|]| | |]. Qed.
Lemma good_content c d : good_object c d -> good_part (header_text (info c)) c (content c) d.
Proof. by destruct c as [? ? [?|]| | |]. Qed.

Lemma reads_content c : reads_part (content c) -> reads_object c.
Proof.
  intros R d s A G. destruct (header_row d (header_text (info c)) s A) as (s1 & E1 & U).
  destruct (read_below _ c (content c) _ _ _ _ A U R (good_content _ _ G)) as (s' & E2 & Hr).
  exists s'. rewrite object_blobs_content, object_text_content, bare_content. cbn [retrieve_rows]. rewrite E1. by split.
Qed.

Lemma reads_leaf owner o h d m s : at_content h d m s -> find_boundary h = None -> (leaf_body owner o = [] -> declares h false) ->
  exists s', retrieve_rows (leaf_blob d (leaf_body owner o)) s = Some s' /\
    ends_closed d (bool_decide (leaf_body owner o = [])) (leaf_body owner o) (length (leaf_blob d (leaf_body owner o))) m s s'.
Proof.
  intros [A1 A2 A3 A4 A5 A6 A7 A8 A9] Hb Hl. rewrite Hb in A5, A6.
  destruct (leaf_body owner o) as [|c t] eqn:E.
  - exists s. split; [done|]. unfold ends_closed. rewrite app_nil_r, Nat.add_0_r. split_and!; [done|done| |done..]. intros _.
    destruct (Hl eq_refl) as (t & Et & Ht). split; [by rewrite (A4 t Et)|done].
  - destruct (text_row d (c :: t) s) as (s' & E1 & [D1 D2 D3 D4 D5 D6]); [lia|done|]. exists s'. cbn [leaf_blob retrieve_rows]. rewrite E1.
    split; [done|]. unfold ends_closed. split_and!; [done|by rewrite D2|done|by rewrite D4|done|by rewrite D6].
Qed.

(** The parts of a multipart, one behind the other. *)
Lemma reads_parts l b d s : Forall reads_object l -> good_parts l (S d) -> at_header (S d) s -> boundary_at d s = b ->
  (r_header s = true -> is_message s = false) ->
  exists s', retrieve_rows (parts_blobs l (S d)) s = Some s' /\ (l <> [] -> r_depth s' = S d) /\ blist s' = blist s /\
    r_text s' = r_text s ++ parts_text b (r_header s) l /\ r_rows s' = (r_rows s + length (parts_blobs l (S d)))%nat.
Proof.
  intros F. revert s. induction F as [|c l Hc F IH]; intros s G A Hb Hm.
  { exists s. cbn [parts_blobs parts_text retrieve_rows length]. by rewrite app_nil_r, Nat.add_0_r. }
  destruct G as [G1 G2]. destruct (Hc (S d) s A G1) as (s1 & E1 & [(H1 & H2 & H3 & H4 & H5 & H6)|[? _]]); [|done].
  assert (at_header (S d) s1) as A1.
  { destruct A as [A1 A2 A3 A4 A5]. split; rewrite ?H4; [by rewrite H1|done|done| |done]. intros Hd. unfold boundary_at. rewrite H4. by apply A4. }
  assert (boundary_at d s1 = b) as Hb1 by (unfold boundary_at; by rewrite H4).
  destruct (IH s1 G2 A1 Hb1) as (s2 & E2 & K1 & K2 & K3 & K4).
  { intros Hh. rewrite H2 in Hh. by apply H3. }
  exists s2. cbn [parts_blobs]. rewrite retrieve_rows_app, E1. cbn [mbind option_bind]. split; [done|].
  split_and!; [|by rewrite K2|..].
  - intros _. destruct l as [|c' l]; [|by apply K1]. cbn [parts_blobs retrieve_rows] in E2. by injection E2 as <-.
  - rewrite K3, H5, H2. cbn [parts_text]. rewrite <- !app_assoc. f_equal. unfold header_line. cbn [pred]. rewrite Hb.
    rewrite (bool_decide_eq_true_2 (0 < S d)%nat) by lia. destruct (r_header s); [by rewrite Hm|done].
  - rewrite K4, H6, length_app. lia.
Qed.
Lemma delete_inserted (m : gmap nat cstr) d b : m !! d = None -> delete d (<[d := b]> m) = m.
Proof.
  intros Hd. apply map_eq. intros j. destruct (decide (j = d)) as [->|]; [by rewrite lookup_delete_eq|].
  by rewrite lookup_delete_ne, lookup_insert_ne by done.
Qed.

Lemma reads_multi i l : Forall reads_object l -> reads_part (GMultipart i l).
Proof.
  intros F h owner d m s A G. pose proof (good_multi_parts _ _ _ _ _ G) as Gl. pose proof (good_multi_end _ _ _ _ _ G) as Ge.
  destruct G as (_ & Hd & (t & Ht & Hm) & (b & Hb & Ei & Eh) & Hl & _). pose proof A as [A1 A2 A3 A4 A5 A6 A7 A8 A9]. rewrite Eh in A5, A6.
  rewrite part_blobs_multi, part_text_multi. rewrite Ei. cbn [default bare_part].
  (* the text in front of the parts *)
  assert (exists s1, retrieve_rows (text_blob d (prologue i)) s = Some s1 /\ r_depth s1 = d /\ r_header s1 = bool_decide (prologue i = None) /\
    (r_header s1 = true -> is_message s1 = false) /\ blist s1 = blist s /\ r_text s1 = r_text s ++ default [] (prologue i) /\
    r_rows s1 = (r_rows s + length (text_blob d (prologue i)))%nat) as (s1 & E1 & P1 & P2 & P3 & P4 & P5 & P6).
  { destruct (prologue i) as [p|]; cbn [text_blob retrieve_rows default length].
    - destruct (text_row d p s) as (s1 & E1 & [D1 D2 D3 D4 D5 D6]); [lia|done|]. exists s1. rewrite E1. split_and!; try done. by rewrite D2.
    - exists s. rewrite app_nil_r, Nat.add_0_r. split_and!; try done. intros _. by rewrite (A4 t Ht). }
  (* the parts *)
  assert (at_header (S d) s1) as AH.
  { split; [by rewrite P1; lia|done|done| |]; rewrite ?P4, ?A6.
    - intros _. unfold boundary_at. cbn [pred]. by rewrite P4, A6, lookup_insert_eq.
    - intros j Hj. rewrite lookup_insert_ne by lia. apply A8. lia. }
  assert (boundary_at d s1 = b) as Hb1 by (unfold boundary_at; by rewrite P4, A6, lookup_insert_eq).
  destruct (reads_parts l b d s1 F Gl AH Hb1 P3) as (s2 & E2 & K1 & K2 & K3 & K4). specialize (K1 Hl).
  assert (boundary_at d s2 = b) as Hb2 by (unfold boundary_at in *; by rewrite K2).
  rewrite retrieve_rows_app, E1. cbn [mbind option_bind]. rewrite retrieve_rows_app, E2. cbn [mbind option_bind].
  rewrite P2 in K3.
  destruct (epilogue i) as [e|] eqn:Ee; cbn [text_blob retrieve_rows default].
  - destruct (epilogue_row d b e s2 K1 A2 Hb2 Hb) as (s3 & E3 & L1 & L2 & L3 & L4 & L5). exists s3. rewrite E3. split; [done|]. left.
    split_and!; [done|done|done| | |].
    + rewrite L3, K2, P4, A6. by apply delete_inserted, A8.
    + by rewrite L4, K3, P5, <- !app_assoc.
    + rewrite L5, K4, P6, !length_app. simpl. lia.
  - exists s2. split; [done|]. right. destruct (Ge eq_refl) as [-> Hn]. split_and!; [done| |].
    + rewrite K4, P6. rewrite length_app in Hn. lia.
    + exists b. split_and!; [done|done|]. by rewrite K3, P5, app_nil_r, <- !app_assoc.
Qed.

Lemma reads_message_part i c : reads_object c -> reads_part (GMessagePart i (Some c)).
Proof.
  intros R h owner d m s A G. destruct G as (_ & _ & (t & Ht & Hm) & Hb & G). pose proof A as [A1 A2 A3 A4 A5 A6 A7 A8 A9].
  rewrite Hb in A5, A6. destruct c as [im id [p|]| | |]; try done.
  assert (at_header d s) as AH.
  { split; [by rewrite A1|done| |..]; rewrite ?A6; try done.
    intros Hd. unfold boundary_at. rewrite A6. by apply A7. }
  destruct (R d s AH G) as (s' & E & Hr). exists s'. split; [exact E|].
  assert (header_line d s = []) as El.
  { unfold header_line. rewrite A3, (A4 t Ht), Hm, A5. by rewrite andb_false_r. }
  rewrite El in Hr. cbn [app] in Hr. rewrite A6 in Hr. exact Hr.
Qed.

Lemma reads_all o : reads_part o /\ reads_object o.
Proof.
  induction o as [i id p IH|i c IH|i l IH|i] using gmime_ind'.
  - split; [by intros ? ? ? ? ? _ []|]. destruct p as [p|]; [by apply reads_content, IH|by intros ? ? _ []].
  - assert (reads_part (GMessagePart i c)) as R.
    { destruct c as [c|]; [by apply reads_message_part, IH|]. intros h owner d m s A (_ & Hb & Hl).
      destruct (reads_leaf _ _ _ _ _ _ A Hb Hl) as (s' & E & Hr). exists s'. split; [exact E|by left]. }
    split; [done|by apply reads_content].
  - assert (reads_part (GMultipart i l)) as R by (apply reads_multi; eapply Forall_impl; [exact IH|by intros ? []]).
    split; [done|by apply reads_content].
  - assert (reads_part (GPart i)) as R.
    { intros h owner d m s A (_ & Hb & Hl). destruct (reads_leaf _ _ _ _ _ _ A Hb Hl) as (s' & E & Hr). exists s'. split; [exact E|by left]. }
    split; [done|by apply reads_content].
Qed.

(** The rows of an object are put together to its text. *)
Lemma retrieve_object c : good_object c 0 ->
  exists s, retrieve_rows (object_blobs c 0) r_start = Some s /\ (0 < r_rows s)%nat /\ retrieved_text s = object_text c.
Proof.
  intros G. assert (at_header 0 r_start) as A by (split; try done; simpl; lia).
  destruct (proj2 (reads_all c) 0%nat r_start A G) as (s & E & Hr). exists s. split; [done|]. change (header_line 0 r_start) with (@nil ascii) in Hr.
  cbn [app] in Hr. destruct Hr as [(_ & _ & _ & H4 & H5 & H6)|(_ & H2 & b & H3 & H4 & H5)].
  - split; [rewrite H6, object_blobs_content; simpl; lia|]. unfold retrieved_text, boundary_at. rewrite H4, H5. simpl. by case_bool_decide; rewrite app_nil_r.
  - split; [lia|]. unfold retrieved_text. rewrite (bool_decide_eq_true_2 _ H2), H4. destruct b as [|x b]; [done|]. exact H5.
Qed.
End text.

(** ** Storing a tree *)
Section storing.
Context `{SqlConf} `{StoreConf} `{Digests} `{GLibStr} `{TypeParser}.
Variable T : list cstr.

Definition rows_of (t : mime_tables) (id : Z) : list part_row := filter (fun r => p_phys r = id) (partlists t).
Definition place_before (a b : part_row) : Prop :=
  (p_key a < p_key b)%nat \/ (p_key a = p_key b /\ (p_order a < p_order b)%nat).
(** The rows of the message so far are those of [L], in their places. *)
Record stored (t : mime_tables) (m : DbmailMessage) (L : list (nat * bool * cstr)) : Prop := {
  st_wf : parts_wf t;
  st_faithful : faithful t T;
  st_phys : existsb (fun p => p.1 =? msg_id m) (physmessage t) = true;
  st_data : Forall2 (fun r x => part_data t r = Some x) (rows_of t (msg_id m)) L;
  st_sorted : StronglySorted place_before (rows_of t (msg_id m));
  st_keys : Forall (fun r => (p_key r <= part_key m)%nat) (rows_of t (msg_id m));
}.
(** The next place is free for a text. *)
Definition place_free (t : mime_tables) (m : DbmailMessage) : Prop :=
  Forall (fun r => (p_key r < part_key m)%nat \/ (p_key r = part_key m /\ (p_order r < part_order m)%nat)) (rows_of t (msg_id m)).

Lemma part_data_more t t' r x : more_parts T t t' -> part_data t r = Some x -> part_data t' r = Some x.
Proof.
  intros M. unfold part_data. intros E. apply bind_Some in E as (b & Eb & E).
  destruct M as [_ (l & El & _)]. rewrite El, (find_Some_app _ _ _ _ Eb). exact E.
Qed.
Lemma part_data_place t r x l : part_data t r = Some x -> part_data (t <| partlists := l |>) r = Some x.
Proof. done. Qed.
Lemma data_part t r x : data_of t (p_part r) = Some x -> part_data t r = Some (p_depth r, p_header r, x).
Proof. unfold data_of, part_data. destruct (find _ _); simpl; [|done]. by intros [= <-]. Qed.
Lemma sorted_snoc (l : list part_row) r : StronglySorted place_before l -> Forall (fun a => place_before a r) l ->
  StronglySorted place_before (l ++ [r]).
Proof.
  induction 1 as [|a l Hl IH Ha]; intros F; [by repeat constructor|]. apply Forall_cons in F as [Fa Fl]. simpl. constructor; [by apply IH|].
  apply Forall_app. split; [done|by constructor].
Qed.

(** One text finds its place behind the others. *)
Lemma place_stored t m L d header buf id : stored t m L -> place_free t m -> part_depth m = d -> data_of t id = Some buf ->
  exists t', register_blob m id header (mksdb t []) = (mksdb t' [], true) /\
    stored t' (m <| part_order ::= S |>) (L ++ [(d, header, buf)]) /\ place_free t' (m <| part_order ::= S |>).
Proof.
  intros [W F P D So K] Fr Hd Hb. set (r := mkpart (msg_id m) header (part_key m) (part_depth m) (part_order m) id).
  set (t' := t <| partlists ::= fun l => l ++ [r] |>).
  assert (rows_of t' (msg_id m) = rows_of t (msg_id m) ++ [r]) as Er.
  { unfold rows_of. change (partlists t') with (partlists t ++ [r]). rewrite filter_app. f_equal. rewrite filter_cons, decide_True; [done|reflexivity]. }
  assert (part_allowed t r = true) as Ha.
  { unfold part_allowed. rewrite !andb_true_iff, negb_true_iff. split_and!; [exact P| |].
    - unfold data_of in Hb. destruct (find _ (mimeparts t)) as [b|] eqn:Eb; [|done]. apply find_elem in Eb as [Hi Hp].
      apply existsb_exists. exists b. split; [by apply list_elem_of_In|done].
    - apply not_true_iff_false. intros E. apply existsb_exists in E as (q & Hq & E). rewrite !andb_true_iff in E.
      destruct E as [[[E1 E2] E3] E4]. apply Z.eqb_eq in E1. apply Nat.eqb_eq in E2, E4. unfold place_free in Fr.
      rewrite Forall_forall in Fr. assert (q ∈ rows_of t (msg_id m)) as Hr.
      { apply list_elem_of_filter. split; [exact E1|by apply list_elem_of_In]. }
      specialize (Fr q Hr). unfold r in E2, E4. cbn in E2, E4. lia. }
  exists t'. split; [|split].
  - unfold register_blob. fold r. apply commit_late_calm, checked_calm. by rewrite Ha.
  - split; [by destruct W|exact F|exact P|..]; change (msg_id (m <| part_order ::= S |>)) with (msg_id m); rewrite ?Er.
    + apply Forall2_app; [exact D|]. constructor; [|constructor]. rewrite <- Hd. by apply (data_part t r).
    + apply sorted_snoc; [done|]. unfold place_free in Fr. eapply Forall_impl; [exact Fr|]. intros a Hr. exact Hr.
    + apply Forall_app. split; [exact K|]. by apply Forall_singleton.
  - unfold place_free. change (msg_id (m <| part_order ::= S |>)) with (msg_id m). rewrite Er. apply Forall_app. split.
    + eapply Forall_impl; [exact Fr|]. intros a Hr. unfold set_field; simpl in *. lia.
    + apply Forall_singleton. right. unfold set_field; simpl. lia.
Qed.

Lemma store_blob_calm t m L header buf : stored t m L -> buf ∈ T -> (header = false -> place_free t m) ->
  let m' := if header then m <| part_key ::= S |> <| part_order := 0%nat |> else m in
  exists t', store_blob (mksdb t [], m) (Some buf) header = ((mksdb t' [], m' <| part_order ::= S |>), 0) /\
    stored t' (m' <| part_order ::= S |>) (L ++ [(part_depth m, header, buf)]) /\ place_free t' (m' <| part_order ::= S |>).
Proof.
  intros St Hb Fr m'. pose proof St as [W F P D So K]. destruct (blob_store_calm T t buf W F Hb) as (t1 & id & E & Hid & M & W1 & Dt).
  assert (rows_of t1 (msg_id m) = rows_of t (msg_id m)) as Er by (unfold rows_of; destruct M as [[-> _] _]; done).
  assert (msg_id m' = msg_id m) as Em by (by unfold m'; destruct header).
  assert (stored t1 m' L) as S1.
  { split; [done|by eapply faithful_more|..]; rewrite Em, ?Er; try done.
    - destruct M as [[_ ->] _]. done.
    - eapply Forall2_impl; [exact D|]. intros r x. by apply part_data_more.
    - eapply Forall_impl; [exact K|]. intros r Hr. unfold m', set_field; destruct header; simpl in *; lia. }
  assert (place_free t1 m') as F1.
  { unfold place_free. rewrite Em, Er. unfold m'. destruct header; [|by apply Fr]. eapply Forall_impl; [exact K|]. intros r Hr. left. unfold set_field; simpl in *. lia. }
  assert (part_depth m' = part_depth m) as Ed by (by unfold m'; destruct header).
  destruct (place_stored t1 m' L (part_depth m) header buf id S1 F1 Ed Dt) as (t' & E' & S' & F'). exists t'. split; [|by split].
  unfold store_blob. fold m'. rewrite E. rewrite (proj2 (Z.eqb_neq id 0) Hid), E'. done.
Qed.

(** What a step stores. *)
Definition stores_to (r : mstate * bool) (d : nat) (id : Z) (L : list (nat * bool * cstr)) : Prop :=
  exists t m, r = ((mksdb t [], m), false) /\ stored t m L /\ place_free t m /\ part_depth m = d /\ msg_id m = id.
Lemma stores_blob t m L o k d : stored t m L -> place_free t m -> part_depth m = d -> (forall x, o = Some x -> x ∈ T) ->
  (forall t' m', stored t' m' (L ++ text_blob d o) -> place_free t' m' -> part_depth m' = d -> msg_id m' = msg_id m ->
    stores_to (k (mksdb t' [], m')) d (msg_id m) (L ++ text_blob d o)) ->
  stores_to (unless (store_blob (mksdb t [], m) o false) k) d (msg_id m) (L ++ text_blob d o).
Proof.
  intros St Fr Hd Ho Hk. destruct o as [x|].
  - destruct (store_blob_calm t m L false x St (Ho x eq_refl) (fun _ => Fr)) as (t' & E & S' & F'). rewrite E. cbn [unless].
    change (0 <? 0) with false. cbv iota. rewrite Hd in S'. by apply Hk.
  - cbn [store_blob unless]. change (0 <? 0) with false. cbv iota. apply Hk; [|done..]. cbn [text_blob]. by rewrite app_nil_r.
Qed.
Lemma stores_done t m L d : stored t m L -> place_free t m -> part_depth m = d -> stores_to ((mksdb t [], m), false) d (msg_id m) L.
Proof. intros St Fr Hd. by exists t, m. Qed.
Lemma stores_body t m L o d : stored t m L -> place_free t m -> part_depth m = d ->
  (forall x, x ∈ leaf_blob d (g_mime_object_get_body o) -> x.2 ∈ T) ->
  stores_to (unless (store_body o (mksdb t [], m)) (fun s => (s, false))) d (msg_id m) (L ++ leaf_blob d (g_mime_object_get_body o)).
Proof.
  intros St Fr Hd Hb. unfold store_body. destruct (g_mime_object_get_body o) as [|c x].
  - cbn [unless leaf_blob]. rewrite app_nil_r. by apply stores_done.
  - apply (stores_blob t m L (Some (c :: x)) (fun s => (s, false))); [done..| |].
    + intros y [= <-]. apply (Hb (d, false, c :: x)). by apply list_elem_of_singleton.
    + intros t' m' S' F' D' <-. by apply stores_done.
Qed.

(** ** The tree *)
Definition stores_part (o : gmime) : Prop := forall h owner d t m L, good_part h owner o d -> stored t m L -> place_free t m ->
  part_depth m = d -> (forall x, x ∈ part_blobs owner o d -> x.2 ∈ T) ->
  stores_to (store_part owner o true (mksdb t [], m)) d (msg_id m) (L ++ part_blobs owner o d).
Definition stores_object (c : gmime) : Prop := forall d t m L, good_object c d -> stored t m L -> part_depth m = d ->
  (forall x, x ∈ object_blobs c d -> x.2 ∈ T) ->
  stores_to (store_mime_object c (mksdb t [], m)) d (msg_id m) (L ++ object_blobs c d).

(** Skipping the header is all that [skiphead] does. *)
Lemma store_part_head o s : (forall i id p, o <> GMessage i id p) ->
  store_part o o false s = unless (store_head o s) (store_part o o true).
Proof.
  intros No. destruct o as [i id p|i c|i l|i]; [by destruct (No i id p)|..];
    cbn [store_part]; repeat match goal with |- context [if ?b then _ else _] => destruct b end; done.
Qed.
Lemma store_object_content c d s : good_object c d -> store_mime_object c s = unless (store_head c s) (store_part c (content c) true).
Proof.
  intros G. destruct c as [i id [p|]| | |]; [done|done|by apply store_part_head..].
Qed.
Lemma stores_content c : stores_part (content c) -> stores_object c.
Proof.
  intros R d t m L G St Hd Hb. rewrite (store_object_content c d) by done. rewrite object_blobs_content in Hb |- *.
  unfold store_head. destruct (store_blob_calm t m L true (header_text (info c)) St) as (t' & E & S' & F').
  { apply (Hb (d, true, header_text (info c))). left. }
  { done. }
  rewrite E. cbn [unless]. change (0 <? 0) with false. cbv iota. rewrite Hd in S'.
  set (m1 := m <| part_key ::= S |> <| part_order := 0%nat |> <| part_order ::= S |>) in *.
  change (msg_id m) with (msg_id m1).
  replace (L ++ (d, true, header_text (info c)) :: part_blobs c (content c) d)
    with ((L ++ [(d, true, header_text (info c))]) ++ part_blobs c (content c) d) by (by rewrite <- app_assoc).
  apply (R (header_text (info c))); [by apply good_content|done|done|exact Hd|]. intros x Hx. apply Hb. by right.
Qed.

Lemma not_text o : object_is (Some o) "message" "*" = true -> object_is (Some o) "text" "*" = false.
Proof.
  unfold object_is. destruct (ctype (info o)) as [t|]; [|done]. unfold is_type. rewrite !andb_true_r. unfold strcaseeq.
  rewrite bool_decide_eq_true. intros ->. by vm_compute.
Qed.
Lemma stores_leaf o h owner d t m L : (match o with GPart _ | GMessagePart _ None => True | _ => False end) ->
  good_part h owner o d -> stored t m L -> place_free t m -> part_depth m = d -> (forall x, x ∈ part_blobs owner o d -> x.2 ∈ T) ->
  stores_to (store_part owner o true (mksdb t [], m)) d (msg_id m) (L ++ part_blobs owner o d).
Proof.
  intros Ho G St Fr Hd Hb.
  assert (part_blobs owner o d = leaf_blob d (leaf_body owner o)) as Eb by (by destruct o as [|? [?|]| |]).
  assert (object_is (Some o) "multipart" "*" = false) as Em by (destruct o as [|? [?|]| |]; by try destruct G).
  rewrite Eb in *.
  assert (store_part owner o true (mksdb t [], m) =
    unless (store_body (match owner with GMessage _ _ _ => if object_is (Some o) "text" "*" then owner else o | _ => o end) (mksdb t [], m)) (fun s => (s, false))) as ->.
  { destruct o as [|i [?|]| |i]; try done; cbn [store_part]; rewrite Em;
      (destruct (object_is _ "message" "*") eqn:E1; [rewrite (not_text _ E1); by destruct owner|]);
      destruct (object_is _ "text" "*"); by destruct owner. }
  assert (leaf_body owner o = g_mime_object_get_body (match owner with GMessage _ _ _ => if object_is (Some o) "text" "*" then owner else o | _ => o end)) as El
    by (unfold leaf_body; destruct owner; try done; by destruct (object_is (Some o) "text" "*")).
  rewrite El in *. by apply stores_body.
Qed.

(** The parts of a multipart: the first row is that of a header. *)
Fixpoint store_parts (l : list gmime) (s : mstate) : mstate :=
  match l with [] => s | c :: l => store_parts l (store_mime_object c s).1 end.
Lemma stores_parts l d t m L : Forall stores_object l -> good_parts l d -> stored t m L -> part_depth m = d -> l <> [] ->
  (forall x, x ∈ parts_blobs l d -> x.2 ∈ T) ->
  exists t' m', store_parts l (mksdb t [], m) = (mksdb t' [], m') /\ stored t' m' (L ++ parts_blobs l d) /\ place_free t' m' /\
    part_depth m' = d /\ msg_id m' = msg_id m.
Proof.
  intros F. revert t m L. induction F as [|c l Hc F IH]; intros t m L G St Hd Hl Hb; [done|]. destruct G as [G1 G2].
  cbn [parts_blobs store_parts] in *.
  destruct (Hc d t m L G1 St Hd) as (t1 & m1 & E & S1 & F1 & D1 & I1); [intros x Hx; apply Hb, elem_of_app; by left|]. rewrite E. cbn [fst].
  rewrite app_assoc. destruct l as [|c' l].
  - exists t1, m1. cbn [parts_blobs store_parts]. by rewrite app_nil_r.
  - destruct (IH t1 m1 (L ++ object_blobs c d) G2 S1 D1) as (t2 & m2 & E2 & S2 & F2 & D2 & I2); [done| |].
    { intros x Hx. apply Hb, elem_of_app. by right. }
    exists t2, m2. split_and!; try done. by rewrite I2.
Qed.
Lemma store_part_multi owner i l s : object_is (Some (GMultipart i l)) "multipart" "*" = true ->
  store_part owner (GMultipart i l) true s =
  unless (store_blob s (prologue i) false) (fun '(d, m) =>
    let '(d, m) := store_parts l (d, enter_boundary (GMultipart i l) m) in
    unless (store_blob (d, leave_boundary (GMultipart i l) m) (epilogue i) false) (fun s => (s, false))).
Proof.
  intros E. cbn [store_part]. rewrite E. unfold head_unless, get_prologue, get_epilogue. f_equal.
Qed.

Lemma stores_multi i l : Forall stores_object l -> stores_part (GMultipart i l).
Proof.
  intros F h owner d t m L G St Fr Hd Hb. pose proof (good_multi_parts _ _ _ _ _ G) as Gl.
  destruct G as (Hm & _ & _ & (b & _ & Eb & _) & Hl & _). rewrite (store_part_multi owner i l _ Hm).
  rewrite part_blobs_multi in *.
  assert (forall x, prologue i = Some x -> x ∈ T) as Hp.
  { intros x E. apply (Hb (d, false, x)). rewrite E. apply elem_of_app. left. left. }
  assert (forall x, epilogue i = Some x -> x ∈ T) as He.
  { intros x E. apply (Hb (d, false, x)). rewrite E. apply elem_of_app. right. apply elem_of_app. right. left. }
  rewrite app_assoc.
  assert (forall t1 m1, stored t1 m1 (L ++ text_blob d (prologue i)) -> place_free t1 m1 -> part_depth m1 = d -> msg_id m1 = msg_id m ->
    stores_to (let '(d', m2) := store_parts l (mksdb t1 [], enter_boundary (GMultipart i l) m1) in
      unless (store_blob (d', leave_boundary (GMultipart i l) m2) (epilogue i) false) (fun s => (s, false)))
      d (msg_id m) ((L ++ text_blob d (prologue i)) ++ parts_blobs l (S d) ++ text_blob d (epilogue i))) as Hrest.
  { intros t1 m1 S1 F1 D1 I1. unfold enter_boundary, leave_boundary, get_boundary. rewrite Eb.
    set (m1' := m1 <| part_depth ::= S |> <| part_order := 0%nat |>).
    destruct (stores_parts l (S d) t1 m1' (L ++ text_blob d (prologue i)) F Gl) as (t2 & m2 & E2 & S2 & F2 & D2 & I2); [by destruct S1|..|done| |].
    - change (part_depth m1') with (S (part_depth m1)). by rewrite D1.
    - intros x Hx. apply Hb, elem_of_app. right. apply elem_of_app. by left.
    - rewrite E2. set (m2' := m2 <| part_depth ::= pred |> <| part_order ::= S |>).
      rewrite (app_assoc (L ++ text_blob d (prologue i))). replace (msg_id m) with (msg_id m2') by (change (msg_id m2') with (msg_id m2); by rewrite I2).
      apply stores_blob; [by destruct S2| | |done|].
      + unfold place_free in *. eapply Forall_impl; [exact F2|]. intros r Hr. unfold m2', set_field; simpl in *. lia.
      + change (part_depth m2') with (pred (part_depth m2)). by rewrite D2.
      + intros t3 m3 S3 F3 D3 <-. by apply stores_done. }
  destruct (prologue i) as [p|] eqn:Ep.
  - destruct (store_blob_calm t m L false p St (Hp p eq_refl) (fun _ => Fr)) as (t1 & E1 & S1 & F1). rewrite E1. cbn [unless].
    change (0 <? 0) with false. cbv iota. rewrite Hd in S1. apply Hrest; [exact S1|exact F1|exact Hd|done].
  - cbn [store_blob unless]. change (0 <? 0) with false. cbv iota. apply Hrest; [|done..].
    cbn [text_blob]. by rewrite app_nil_r.
Qed.
Lemma stores_message_part i c : stores_object c -> stores_part (GMessagePart i (Some c)).
Proof.
  intros R h owner d t m L (E1 & E2 & _ & _ & G) St _ Hd Hb. destruct c as [im id [p|]| | |]; try done.
  pose proof (R d t m L G St Hd Hb) as Hr. cbn [store_part]. rewrite E1, E2. exact Hr.
Qed.
Lemma stores_all o : stores_part o /\ stores_object o.
Proof.
  induction o as [i id p IH|i c IH|i l IH|i] using gmime_ind'.
  - split; [by intros ? ? ? ? ? ? []|]. destruct p as [p|]; [by apply stores_content, IH|by intros ? ? ? ? []].
  - assert (stores_part (GMessagePart i c)) as R.
    { destruct c as [c|]; [by apply stores_message_part, IH|]. intros h owner d t m L G. by apply (stores_leaf _ h). }
    split; [done|by apply stores_content].
  - assert (stores_part (GMultipart i l)) as R by (apply stores_multi; eapply Forall_impl; [exact IH|by intros ? []]).
    split; [done|by apply stores_content].
  - assert (stores_part (GPart i)) as R by (intros h owner d t m L G; by apply (stores_leaf _ h)).
    split; [done|by apply stores_content].
Qed.
End storing.

(** ** Storing and retrieving *)
Section roundtrip.
Context `{SqlConf} `{StoreConf} `{Digests} `{GLibStr} `{TypeParser}.

#[local] Instance row_before_total : Total row_before.
Proof. intros a b. unfold row_before. lia. Qed.
#[local] Instance row_before_trans : Transitive row_before.
Proof. intros a b c. unfold row_before. lia. Qed.
Lemma sorted_rows (l : list part_row) : StronglySorted place_before l -> merge_sort row_before l = l.
Proof.
  intros Hs. apply (StronglySorted_unique_strong row_before).
  - intros a b Ha Hb R1 R2. rewrite merge_sort_Permutation in Ha. clear -Hs Ha Hb R1 R2. revert Ha Hb.
    induction Hs as [|x l Hl IH Hx]; intros Ha Hb; [by apply elem_of_nil in Ha|]. rewrite Forall_forall in Hx.
    apply elem_of_cons in Ha as [->|Ha], Hb as [->|Hb]; [done| | |by apply IH].
    + specialize (Hx b Hb). unfold place_before, row_before in *. lia.
    + specialize (Hx a Ha). unfold place_before, row_before in *. lia.
  - apply (StronglySorted_merge_sort _).
  - induction Hs as [|x l Hl IH Hx]; constructor; [done|]. eapply Forall_impl; [exact Hx|]. unfold place_before, row_before. lia.
  - apply merge_sort_Permutation.
Qed.
Lemma omap_data t l L : Forall2 (fun r x => part_data t r = Some x) l L -> omap (part_data t) l = L.
Proof. induction 1 as [|r x l L E F IH]; [done|]. cbn [omap list_omap]. rewrite E. by rewrite IH. Qed.

(** A message that is new to the tables. *)
Record fresh_message (t : mime_tables) (m : DbmailMessage) : Prop := {
  fm_wf : parts_wf t;
  fm_phys : existsb (fun p => p.1 =? msg_id m) (physmessage t) = true;
  fm_rows : Forall (fun r => p_phys r <> msg_id m) (partlists t);
  fm_depth : part_depth m = 0%nat;
}.

Lemma stores_message c t m :
  fresh_message t m -> good_object c 0 -> faithful t (snd <$> object_blobs c 0) ->
  exists t' m', dm_message_store c (mksdb t [], m) = ((mksdb t' [], m'), false) /\ msg_id m' = msg_id m /\
    stored (snd <$> object_blobs c 0) t' m' (object_blobs c 0).
Proof.
  intros [W P R D] G F.
  assert (rows_of t (msg_id m) = []) as Er.
  { unfold rows_of. apply elem_of_nil_inv. intros r. rewrite list_elem_of_filter. intros [E Hr]. rewrite Forall_forall in R. by apply (R r). }
  assert (stored (snd <$> object_blobs c 0) t m []) as St by (split; rewrite ?Er; try done; constructor).
  destruct (proj2 (stores_all (snd <$> object_blobs c 0) c) 0%nat t m [] G St D) as (t' & m' & E & S' & _ & _ & I').
  { intros x Hx. by apply list_elem_of_fmap_2. }
  by exists t', m'.
Qed.
Lemma retrieves_message c t m : good_object c 0 -> stored (snd <$> object_blobs c 0) t m (object_blobs c 0) ->
  _mime_retrieve (msg_id m) (mksdb t []) = (mksdb t [], Retrieved (object_text c)).
Proof.
  intros G [W' F' P' D' So' K']. unfold _mime_retrieve. apply try_calm. rewrite exec_calm. cbn [fst snd].
  assert (message_rows t (msg_id m) = object_blobs c 0) as ->.
  { unfold message_rows. rewrite P'. change (filter _ (partlists t)) with (rows_of t (msg_id m)). rewrite sorted_rows by done. by apply omap_data. }
  destruct (retrieve_object c G) as (s & Es & Hn & Ht). rewrite Es. rewrite (proj2 (Nat.eqb_neq (r_rows s) 0)) by lia. by rewrite Ht.
Qed.

(** C28. A message that is stored is retrieved as the text that its tree stands for, whatever
    other messages share of its parts. *)
Theorem message_roundtrip c t m :
  fresh_message t m -> good_object c 0 -> faithful t (snd <$> object_blobs c 0) ->
  exists t' m', dm_message_store c (mksdb t [], m) = ((mksdb t' [], m'), false) /\
    _mime_retrieve (msg_id m) (mksdb t' []) = (mksdb t' [], Retrieved (object_text c)).
Proof.
  intros Fr G F. destruct (stores_message c t m Fr G F) as (t' & m' & E & I & S').
  exists t', m'. split; [exact E|]. rewrite <- I. by apply retrieves_message.
Qed.
End roundtrip.
