(* ===== verification/MessageExamples.v ===== *)
(** * Messages in the data base: examples

    A message with nested parts that comes back as it was, and the trees and failures for which
    something else comes back. *)
From S2P Require Import Prelude CLib GLib ClientBase MiscText GListUtil ImapText Mime MimeFacts Auth AuthExample SqlFragment SqlState.
From S2P Require Import MessageStore MessageStoreFacts.

#[local] Existing Instance glib_model.
#[local] Instance example_store_sql : SqlConf := {| db_params_driver := DM_DRIVER_SQLITE; DBPFX := lit "dbmail_" |}.
#[local] Instance hash_only : StoreConf := {| message_part_hash := HASH_ONLY; hash_algorithm := Some (lit "SHA256") |}.
(** A digest that shows its arguments. *)
#[local] Instance plain_digest : Digests := {| digest alg t := alg ++ t; hmac_md5 k t := k ++ t; crypt p s := None |}.
(** A parser of types like [text/plain] and [multipart/mixed; boundary=b]. *)
Definition before (c : ascii) (s : cstr) : cstr := match str_index s c with Some i => take i s | None => s end.
Definition behind (c : ascii) (s : cstr) : cstr := match str_index s c with Some i => drop (S i) s | None => [] end.
#[local] Instance example_types : TypeParser := {|
  g_mime_content_type_parse s :=
    Some (mktype (before "/" s) (before ";" (behind "/" s))
      (match behind "=" s with [] => None | b => Some [(lit "boundary", b)] end)) |}.

(** ** Trees *)
Definition blank : string := EmptyString.
Definition type_of (ty sub : string) : option content_type := Some (mktype (lit ty) (lit sub) None).
Definition head_of (t : string) : cstr := match t with EmptyString => lit "Subject: x" ++ [LF] | _ => lit "Content-Type: " ++ lit t ++ [LF] end.
Definition leaf_info (ty sub : string) (t body : string) : mime_info :=
  mkmime (type_of ty sub) [] None (head_of t) None (head_of t ++ LF :: lit body) None None None.
Definition text (body : string) : gmime := GPart (leaf_info "text" "plain" "text/plain" body).
Definition multi (b : string) (epi : option string) (l : list gmime) : gmime :=
  GMultipart (mkmime (type_of "multipart" "mixed") [] None (head_of ("multipart/mixed; boundary=" ++ b)) None []
    (Some (lit b)) None (lit <$> epi)) l.
Definition message (p : gmime) : gmime := GMessage (mkmime None [] None (header_text (info p)) None [] None None None) None (Some p).
(** A message whose header does not name a type. *)
Definition plain_message (body : string) : gmime := GMessage (leaf_info "text" "plain" blank body) None (Some (GPart (leaf_info "text" "plain" blank body))).
Definition attached (m : gmime) : gmime := GMessagePart (leaf_info "message" "rfc822" "message/rfc822" blank) (Some m).

Definition tables0 : mime_tables := mkmt [mkblob 3 (lit "sha256old") (lit "old")] [] [(7, lit "2024-05-01 00:00:00")].
Definition msg0 : DbmailMessage := mkmsg 7 0 0 0.
(** What is retrieved of a message that was stored. *)
Definition back (c : gmime) (script : list bool) : bool * retrieved :=
  let '((d, _), r) := dm_message_store c (mksdb tables0 script, msg0) in
  (r, (_mime_retrieve 7 (mksdb (tables d) [])).2).
Definition lines (l : list string) : cstr := concat ((fun s => lit s ++ [LF]) <$> l).

Definition example_tree : gmime :=
  message (multi "b1" None [text "one"; multi "b2" (Some blank) [text "two"; text "three"]; attached (plain_message "four"); text blank]).

Lemma tree_good : good_object example_tree 0.
Proof.
  repeat split; try done; try (vm_compute; lia); try (by eexists; split; [vm_compute; reflexivity|vm_compute; reflexivity]);
    try (by intros; vm_compute; eexists; split; reflexivity).
  - by exists (lit "b1").
  - by exists (lit "b2").
Qed.
Lemma tables0_fresh : fresh_message tables0 msg0.
Proof.
  split; [|done|constructor|done]. split; [by apply NoDup_singleton|]. intros r Hr. by apply list_elem_of_singleton in Hr as ->.
Qed.
Lemma tree_faithful : faithful tables0 (snd <$> object_blobs example_tree 0).
Proof.
  intros _. split; [intros r Hr; by apply list_elem_of_singleton in Hr as ->|]. intros a b _ _ E _. by apply (inj (app _)) in E.
Qed.
Lemma message_roundtrip_witness :
  exists t' m', dm_message_store example_tree (mksdb tables0 [], msg0) = ((mksdb t' [], m'), false) /\
    _mime_retrieve 7 (mksdb t' []) = (mksdb t' [], Retrieved (lines
      ["Content-Type: multipart/mixed; boundary=b1"; blank; "--b1"; "Content-Type: text/plain"; blank; "one"; "--b1";
       "Content-Type: multipart/mixed; boundary=b2"; blank; "--b2"; "Content-Type: text/plain"; blank; "two"; "--b2";
       "Content-Type: text/plain"; blank; "three"; "--b2--"; blank; "--b1"; "Content-Type: message/rfc822"; blank;
       "Subject: x"; blank; "four"; "--b1"; "Content-Type: text/plain"; blank; blank; "--b1--"]%string)).
Proof.
  destruct (message_roundtrip example_tree tables0 msg0 tables0_fresh tree_good tree_faithful) as (t' & m' & E1 & E2).
  exists t', m'. split; [exact E1|]. refine (eq_trans E2 _).
  apply (f_equal (fun t => (mksdb t' [], Retrieved t))). vm_compute. reflexivity.
Defined.

(** ** What does not come back as it was *)
Definition comes_back (c : gmime) (script : list bool) (r : bool) (l : list string) : bool :=
  match back c script with (r', Retrieved t) => Bool.eqb r r' && streq t (lines l) | _ => false end.

(** The boundary of a header replaces the one of the multipart in front of it before that is
    closed: two multiparts behind each other without an epilogue lose their structure. *)
Lemma siblings_lose_boundary :
  comes_back (message (multi "a" None [multi "b" None [text "1"]; multi "c" None [text "2"; text "3"]])) [] false
    ["Content-Type: multipart/mixed; boundary=a"; blank; "--a"; "Content-Type: multipart/mixed; boundary=b"; blank;
     "--b"; "Content-Type: text/plain"; blank; "1"; "--c--"; blank; "--a"; "Content-Type: multipart/mixed; boundary=c"; blank;
     "--a"; "Content-Type: text/plain"; blank; "2"; "--a"; "Content-Type: text/plain"; blank; "3"; "--a--"] = true.
Proof. vm_compute. reflexivity. Qed.
(** At the end of a message only the outermost multipart is closed. *)
Lemma open_multipart_breaks :
  comes_back (message (multi "a" None [multi "b" None [text "1"]])) [] false
    ["Content-Type: multipart/mixed; boundary=a"; blank; "--a"; "Content-Type: multipart/mixed; boundary=b"; blank;
     "--b"; "Content-Type: text/plain"; blank; "1"; "--a--"] = true.
Proof. vm_compute. reflexivity. Qed.
(** No delimiter stands behind an attached message that has neither a type nor a body. *)
Lemma empty_message_swallows :
  comes_back (message (multi "a" None [attached (plain_message blank); text "1"])) [] false
    ["Content-Type: multipart/mixed; boundary=a"; blank; "--a"; "Content-Type: message/rfc822"; blank; "Subject: x"; blank;
     "Content-Type: text/plain"; blank; "1"; "--a--"] = true.
Proof. vm_compute. reflexivity. Qed.
(** A multipart with one empty part is not closed. *)
Lemma single_empty_part_open :
  comes_back (message (multi "a" None [text blank])) [] false
    ["Content-Type: multipart/mixed; boundary=a"; blank; "--a"; "Content-Type: text/plain"; blank] = true.
Proof. vm_compute. reflexivity. Qed.
(** A message that is nested too deeply is accepted, and read behind the array of boundaries. *)
Fixpoint nest (n : nat) : gmime := match n with 0%nat => text "x" | S n => multi "b" None [nest n] end.
Lemma deep_message_overruns : back (message (multi "a" None [nest 65; text "1"])) [] = (false, Overrun).
Proof. vm_compute. reflexivity. Qed.
(** A part whose statements fail is left out, and the message counts as stored; when COMMIT
    fails, so does a text of any message. *)
Definition fail_at (n : nat) : list bool := repeat false n ++ [true].
Lemma failed_part_is_lost :
  comes_back (message (multi "a" None [text "1"; text "2"])) (fail_at 22) false
    ["Content-Type: multipart/mixed; boundary=a"; blank; "--a"; "Content-Type: text/plain"; blank; "1"; "--a--"] = true.
Proof. vm_compute. reflexivity. Qed.
Lemma failed_commit_is_lost : comes_back (plain_message "1") (fail_at 13) false ["Subject: x"; blank] = true.
Proof. vm_compute. reflexivity. Qed.
(** A store that failed and is tried again leaves both copies. *)
Lemma retry_doubles :
  let '(s, failed) := dm_message_store (plain_message "1") (mksdb tables0 (fail_at 12), msg0) in
  let '((d, _), again) := dm_message_store (plain_message "1") s in
  failed = true /\ again = false /\ match (_mime_retrieve 7 d).2 with
    | Retrieved t => t = lines ["Subject: x"; blank; "Subject: x"; blank] ++ lit "1" | _ => False end.
Proof. vm_compute. repeat split. Qed.

(** ** Texts with the same hash *)
Section collision.
Instance one_digest : Digests := {| digest alg t := lit "0"; hmac_md5 k t := lit "0"; crypt p s := None |}.
(** When the hash decides, a text of the same length and hash is taken for another message's. *)
Lemma collision_shows_other_text :
  let '((d, _), failed) := dm_message_store (plain_message "abc") (mksdb (mkmt [mkblob 3 (lit "0") (lit "xyz")] [] (physmessage tables0)) [], msg0) in
  failed = false /\ (_mime_retrieve 7 d).2 = Retrieved (lines ["Subject: x"; blank] ++ lit "xyz").
Proof. vm_compute. repeat split. Qed.
End collision.
