(* ===== verification/MailStore.v ===== *)
(** * dm_db.c: users, mailboxes and messages

    The tables behind the servers and the functions of dm_db.c on them: quota, finding and
    creating mailboxes, copying, moving and deleting messages. Every statement is a step of [DB];
    the check of a right is one step, in which the data base answers or does not. *)
From S2P Require Import Prelude CLib GLib Tree ClientBase ClientSession MiscText GListUtil MailboxState Acl Auth ImapText SqlFragment SqlState.
From S2P Require Import MailboxName Mime MessageStore.

(** ** Tables *)
Record user_row := mkuser { u_id : Z; u_name : cstr; curmail_size : Z; maxmail_size : Z }.
#[export] Instance user_row_settable : Settable user_row := fun r => mkuser (u_id r) (u_name r) (curmail_size r) (maxmail_size r).
Record mailbox_row := mkbox {
  x_id : Z; x_owner : Z; x_name : cstr; x_permission : Z; x_no_select : bool; x_no_inferiors : bool; x_seq : Z }.
#[export] Instance mailbox_row_settable : Settable mailbox_row := fun r =>
  mkbox (x_id r) (x_owner r) (x_name r) (x_permission r) (x_no_select r) (x_no_inferiors r) (x_seq r).
Record message_row := mkrow {
  m_id : Z; m_mailbox : Z; m_phys : Z; m_flags : list Z; m_unique : cstr; m_status : Z; m_seq : Z }.
#[export] Instance message_row_settable : Settable message_row := fun r =>
  mkrow (m_id r) (m_mailbox r) (m_phys r) (m_flags r) (m_unique r) (m_status r) (m_seq r).
Record mail_tables := mkmail {
  users : list user_row;
  mailboxes : list mailbox_row;
  messages : list message_row;
  messagesize : gmap Z Z;              (** columns of physmessage *)
  rfcsize : gmap Z Z;
  keyword_rows : list (Z * cstr);
  subscription : list (Z * Z);         (** user and mailbox *)
  rights : gmap (Z * Z) (gset cstr);   (** the acl table *)
  mime : mime_tables;
  delivery_user_idnr : option Z;       (** the static variable, once it is looked up *)
}.
#[export] Instance mail_tables_settable : Settable mail_tables := fun r =>
  mkmail (users r) (mailboxes r) (messages r) (messagesize r) (rfcsize r) (keyword_rows r) (subscription r) (rights r) (mime r) (delivery_user_idnr r).
Abbreviation mdb := (sqldb mail_tables).
Abbreviation DB := (SqlState.DB mail_tables).
Abbreviation SQL := (SqlState.SQL mail_tables).

Definition DM_OVERQUOTA : Z := -2.
Definition MESSAGE_STATUS_INSERT : Z := 5.
Definition DBMAIL_DELIVERY_USERNAME : cstr := lit "__@!internal_delivery_user!@__".
Definition DBMAIL_TEMPMBOX : cstr := lit "INBOX".
Inductive mailbox_source :=
  BOX_NONE | BOX_UNKNOWN | BOX_ADDRESSPART | BOX_BRUTEFORCE | BOX_COMMANDLINE | BOX_SORTING | BOX_DEFAULT | BOX_IMAP.
#[export] Instance mailbox_source_eq_dec : EqDecision mailbox_source.
Proof. solve_decision. Defined.

Definition user_of (t : mail_tables) (id : Z) : option user_row := find (fun u => u_id u =? id) (users t).
Definition mailbox_of (t : mail_tables) (id : Z) : option mailbox_row := find (fun x => x_id x =? id) (mailboxes t).
Definition message_of (t : mail_tables) (id : Z) : option message_row := find (fun m => m_id m =? id) (messages t).
Definition size_of (t : mail_tables) (m : message_row) : Z := default 0 (messagesize t !! m_phys m).

Class MailConf := {
  auth_requires_shadow_user : bool;
  db_user_find_create : Z -> bool;           (** whether there is a shadow account now *)
  mailbox_update_seq_strategy : Z;
  create_unique_id : Z -> cstr;
}.

Section store.
Context `{SqlConf} `{LikeOps} `{GTreeOps} `{GLibStr} `{MailConf}.

Definition get_tables {A} (f : mail_tables -> A) : DB A := fun d => (d, Returns (f (tables d))).

Definition set_tables (f : mail_tables -> mail_tables) : DB unit := fun d => (d <| tables ::= f |>, Returns tt).

(** ** Users and quota *)
Definition auth_user_exists (username : cstr) : DB (option Z) :=
  id ← select (fun t => from_option u_id 0 (find (fun u => strcaseeq (u_name u) username) (users t))) 0;
  mret (if id =? 0 then None else Some id).
Definition auth_get_userid (user : Z) : DB (option cstr) := select (fun t => u_name <$> user_of t user) None.

Definition user_idnr_is_delivery_user_idnr (user_idnr : Z) : DB Z :=
  known ← get_tables delivery_user_idnr;
  let answer (d : Z) := if d =? user_idnr then DM_EGENERAL else DM_SUCCESS in
  match known with
  | Some d => mret (answer d)
  | None =>
      id ← auth_user_exists DBMAIL_DELIVERY_USERNAME;
      match id with
      | None => mret DM_EQUERY
      | Some d => set_tables (fun t => t <| delivery_user_idnr := Some d |>);; mret (answer d)
      end
  end.
Definition not_delivery_user (user_idnr : Z) (k : DB Z) : DB Z :=
  result ← user_idnr_is_delivery_user_idnr user_idnr;
  if result =? DM_EQUERY then mret DM_EQUERY else if result =? DM_EGENERAL then mret DM_EGENERAL else k.
Definition update_users (p : user_row -> bool) (f : user_row -> user_row) (t : mail_tables) : mail_tables :=
  t <| users ::= fmap (fun u => if p u then f u else u) |>.
Definition as_int (f : DB bool) : DB Z := ok ← f; mret (if ok : bool then 1 else 0).
Definition change_curmail (user_idnr : Z) (f : Z -> Z) : DB Z :=
  as_int (db_update (fun t => Some (update_users (fun u => u_id u =? user_idnr) (fun u => u <| curmail_size ::= f |>) t))).
Definition dm_quota_user_get (user_idnr : Z) (size : Z) : DB Z := select (fun t => default size (curmail_size <$> user_of t user_idnr)) size.
Definition dm_quota_user_set (user_idnr size : Z) : DB Z := not_delivery_user user_idnr (change_curmail user_idnr (fun _ => size)).
Definition dm_quota_user_inc (user_idnr size : Z) : DB Z := not_delivery_user user_idnr (change_curmail user_idnr (fun c => c + size)).
Definition dm_quota_user_dec (user_idnr size : Z) : DB Z :=
  not_delivery_user user_idnr (change_curmail user_idnr (fun c => if size <=? c then c - size else 0)).
Definition auth_getmaxmailsize (user_idnr : Z) : DB (option Z) := select (fun t => Some (default 0 (maxmail_size <$> user_of t user_idnr))) None.
Definition over_quota (t : mail_tables) (user_idnr msg_size max : Z) : bool :=
  match user_of t user_idnr with Some u => max <? curmail_size u + msg_size | None => false end.
Definition dm_quota_user_validate (user_idnr msg_size : Z) : DB Z :=
  max ← auth_getmaxmailsize user_idnr;
  match max with
  | None => mret DM_EQUERY
  | Some max =>
      if max <=? 0 then mret 1
      else select (fun t => if over_quota t user_idnr msg_size max then 0 else 1) 1
  end.
(** The sizes of the messages in the mailboxes of a user that are not deleted. *)
Definition owned_by (t : mail_tables) (user_idnr mailbox : Z) : bool :=
  match mailbox_of t mailbox with Some x => x_owner x =? user_idnr | None => false end.
Definition counted (t : mail_tables) (p : message_row -> bool) : Z :=
  sum_list_Z (size_of t <$> filter (fun m => p m = true /\ m_status m < MESSAGE_STATUS_DELETE) (messages t)).
Definition usage (t : mail_tables) (user_idnr : Z) : Z := counted t (fun m => owned_by t user_idnr (m_mailbox m)).
Definition dm_quota_rebuild_user (user_idnr : Z) : DB Z :=
  quotum ← select (fun t => Some (usage t user_idnr)) None;
  match quotum with
  | None => mret DM_EQUERY
  | Some quotum => r ← dm_quota_user_set user_idnr quotum; mret (if r =? 0 then DM_EQUERY else DM_SUCCESS)
  end.
(** The users whose quota is wrong, and their usage. *)
Definition wrong_quota (t : mail_tables) : list (Z * Z) :=
  (fun u => (u_id u, usage t (u_id u))) <$> filter (fun u => usage t (u_id u) <> curmail_size u) (users t).
Fixpoint rebuild_users (l : list (Z * Z)) (result : Z) : DB Z :=
  match l with
  | [] => mret result
  | (id, size) :: l => r ← dm_quota_user_set id size; rebuild_users l (if r =? 0 then DM_EQUERY else result)
  end.
Definition dm_quota_rebuild : DB Z :=
  quota ← select wrong_quota [];
  match quota with
  | [] => mret DM_SUCCESS
  | _ => rebuild_users (reverse quota) (Z.of_nat (length quota))
  end.
Definition db_get_useridnr (message_idnr : Z) : DB Z :=
  select (fun t => default 0 (m ← message_of t message_idnr; x_owner <$> mailbox_of t (m_mailbox m))) 0.

(** ** Finding mailboxes *)
Definition db_findmailbox_owner (name : cstr) (owner_idnr : Z) : DB (option Z) :=
  let mailbox_like := mailbox_match_new name in
  id ← select (fun t => from_option x_id 0
        (find (fun x => (x_owner x =? owner_idnr) && mailbox_matches mailbox_like (x_name x)) (mailboxes t))) 0;
  mret (if id =? 0 then None else Some id).
(** The slashes at the end go, but for one that is the whole name; those in front are
    overwritten by what is behind them, whose end stays where it was. *)
Fixpoint leading_slashes (s : cstr) : nat :=
  match s with c :: s => if bool_decide (c = "/"%char) then S (leading_slashes s) else O | [] => O end.
Definition trim_name (fq_name : cstr) : cstr :=
  let mbox := match fq_name with [] => [] | c :: s => c :: strip_slashes s end in
  let i := leading_slashes mbox in
  drop i mbox ++ drop (length mbox - i) mbox.
(** The octet in front of an empty name is looked at. *)
Definition db_findmailbox (fq_name : cstr) (owner_idnr : Z) : DB (option Z) :=
  match fq_name with
  | [] => undefined
  | _ =>
      match mailbox_remove_namespace (trim_name fq_name) with
      | NoName => mret None
      | NameAborts _ => undefined
      | Name simple_name _ username =>
          match username with
          | None => db_findmailbox_owner simple_name owner_idnr
          | Some username =>
              user ← auth_user_exists username;
              match user with None => mret None | Some owner_idnr => db_findmailbox_owner simple_name owner_idnr end
          end
      end
  end.

Definition db_get_mailbox_owner (mboxid : Z) : DB (Z * Z) :=
  owner ← select (fun t => Some (default 0 (x_owner <$> mailbox_of t mboxid))) None;
  mret (match owner with None => (DM_EQUERY, 0) | Some o => (if o =? 0 then 0 else 1, o) end).
Definition db_user_is_mailbox_owner (userid mboxid : Z) : DB Z :=
  select (fun t => match mailbox_of t mboxid with Some x => if x_owner x =? userid then 1 else 0 | None => 0 end) DM_EQUERY.
Definition db_isselectable (mailbox_idnr : Z) : DB Z :=
  select (fun t => match mailbox_of t mailbox_idnr with Some x => if x_no_select x then 0 else 1 | None => 1 end) DM_EQUERY.
Definition db_noinferiors (mailbox_idnr : Z) : DB Z :=
  select (fun t => match mailbox_of t mailbox_idnr with Some x => if x_no_inferiors x then 1 else 0 | None => 0 end) DM_EQUERY.
(** [MailboxState_new], as far as the permission: when it cannot load the mailbox, it returns
    memory that it has given back. *)
Definition load_permission (id : Z) : DB Z :=
  if id =? 0 then mret 0
  else
    p ← atomically (exec (fun t => (t, Some (default 0 (x_permission <$> mailbox_of t id))))) None;
    match p with Some p => mret p | None => undefined end.
Definition mailbox_is_writable (mailbox_idnr : Z) : DB bool :=
  p ← load_permission mailbox_idnr; mret (p =? IMAPPERM_READWRITE).

(** ** Rights *)
Definition owner_map (t : mail_tables) : gmap Z Z := list_to_map ((fun x => (x_id x, x_owner x)) <$> mailboxes t).
Definition user_names (t : mail_tables) : AuthNames := {|
  Acl.auth_user_exists name := u_id <$> find (fun u => strcaseeq (u_name u) name) (users t);
  Acl.auth_get_userid id := u_name <$> user_of t id;
|}.
Definition mailbox_answers (t : mail_tables) : MailboxDB :=
  acl_mailboxdb (mkacldb (rights t) (owner_map t) []) (fun m => x_seq <$> mailbox_of t m) (fun m => x_permission <$> mailbox_of t m).
(** A data base that does not answer. *)
Definition no_names : AuthNames := {| Acl.auth_user_exists _ := None; Acl.auth_get_userid _ := None |}.
Definition no_answers : MailboxDB := {|
  db_mailbox_seq _ := None; db_mailbox_permission _ := None; MailboxState.db_get_mailbox_owner _ := (DM_EQUERY, 0);
  db_acl_any _ _ := None; db_acl_flag _ _ _ := None;
|}.
Definition state_of (id owner permission : Z) (name : cstr) : MailboxState_T :=
  mkstate id owner permission 0 0 0 0 0 [] g_tree_new g_tree_new g_tree_new g_tree_new name false false false 0 0.
Definition acl_has_right (M : MailboxState_T) (userid : Z) (right : ACLRight) : DB Z :=
  select (fun t => (@Acl.acl_has_right _ (mailbox_answers t) (user_names t) M userid right).2)
    (@Acl.acl_has_right _ no_answers no_names M userid right).2.
(** [acl_set_rights] on the acl table; a row needs its mailbox. *)
Definition acl_set_rights (userid mboxid : Z) (rightsstring : cstr) : DB Z := total (fun d =>
  let t := tables d in
  let '(w, r) := Acl.acl_set_rights (mkacldb (rights t) (owner_map t) (negb <$> sql d)) userid mboxid rightsstring in
  (mksdb (t <| rights := filter (fun row => is_Some (mailbox_of t row.1.2)) (Acl.acl w) |>) (negb <$> Acl.sql w), r)).

(** ** Creating mailboxes *)

(** One level of a path, as [db_imap_split_mailbox] found it. *)
Record level := mklevel { l_id : Z; l_owner : Z; l_permission : Z; l_name : cstr; l_users : bool; l_public : bool }.
#[export] Instance level_settable : Settable level := fun r =>
  mklevel (l_id r) (l_owner r) (l_permission r) (l_name r) (l_users r) (l_public r).
Definition INBOX : cstr := lit "INBOX".
(** The name so far with the next part. *)
Definition extend_name (first : bool) (cpy chunk : cstr) : cstr :=
  if first then (if strcaseeq chunk (lit "inbox") then INBOX else chunk) else cpy ++ MAILBOX_SEPARATOR :: chunk.
(** [inl]: the message of an error; [inl None] is a message that is not set. *)
Fixpoint split_loop (chunks : list cstr) (first : bool) (cpy : cstr) (owner_idnr public : Z) (is_users is_public : bool)
    (acc : list level) : DB (option cstr + list level) :=
  match chunks with
  | [] => mret (inr (reverse acc))
  | chunk :: rest =>
      match chunk, rest with
      | [], _ :: _ => mret (inl (Some (lit "Invalid mailbox name specified")))
      | [], [] => mret (inr (reverse acc))
      | _, _ =>
          let cpy := extend_name first cpy chunk in
          let add (mboxid public : Z) : DB (option cstr + list level) :=
            p ← load_permission mboxid;
            split_loop rest false cpy owner_idnr public is_users is_public
              (mklevel mboxid (if is_public then public else owner_idnr) p cpy is_users is_public :: acc) in
          if first && is_public then
            user ← auth_user_exists PUBLIC_FOLDER_USER;
            match user with
            | None => mret (inl (Some (lit "Public user required for #Public folder access.")))
            | Some public =>
                mboxid ← db_findmailbox cpy public;
                match mboxid with
                | None => mret (inl (Some (lit "Public folder not found.")))
                | Some mboxid => add mboxid public
                end
            end
          else
            mboxid ← db_findmailbox cpy owner_idnr;
            add (default 0 mboxid) public
      end
  end.
Definition is_namespace (namespace : option cstr) (name : cstr) : bool := from_option (fun n => strcaseeq n name) false namespace.
Definition db_imap_split_mailbox (mailbox : cstr) (owner_idnr : Z) : DB (option cstr + list level) :=
  match mailbox_remove_namespace mailbox with
  | NameAborts _ => undefined
  | NoName => mret (inl (Some (lit "Server ran out of memory")))
  | Name simple_name namespace username =>
      let split (owner_idnr : Z) : DB (option cstr + list level) :=
        match g_strsplit simple_name MAILBOX_SEPARATOR with
        | [] => mret (inl (Some (lit "Invalid mailbox name specified")))
        | chunks => split_loop chunks true [] owner_idnr 0 (is_namespace namespace NAMESPACE_USER) (is_namespace namespace NAMESPACE_PUBLIC) []
        end in
      match username with
      | None => split owner_idnr
      | Some username =>
          user ← auth_user_exists username;
          match user with None => mret (inl None) | Some owner_idnr => split owner_idnr end
      end
  end.

(** A user has one mailbox of a name, and there are no mailboxes without a user. *)
Definition insert_mailbox (name : cstr) (owner : Z) : SQL Z := exec_checked (fun t =>
  if existsb (fun x => (x_owner x =? owner) && streq (x_name x) name) (mailboxes t) || negb (bool_decide (is_Some (user_of t owner))) then None
  else
    let id := fresh_id (x_id <$> mailboxes t) in
    Some (t <| mailboxes ::= fun l => l ++ [mkbox id owner name IMAPPERM_READWRITE false false 1] |>, id)).
Definition db_createmailbox (name : cstr) (owner_idnr : Z) : DB (Z * Z) :=
  if auth_requires_shadow_user && negb (db_user_find_create owner_idnr) then mret (DM_EQUERY, 0)
  else
    match mailbox_remove_namespace name with
    | NoName => mret (DM_EGENERAL, 0)
    | Name simple_name _ _ | NameAborts simple_name =>
        r ← committed (insert_mailbox simple_name owner_idnr) 0;
        mret (if r.1 : bool then DM_SUCCESS else DM_EQUERY, r.2)
    end.
Definition db_subscribe (mailbox_idnr user_idnr : Z) : DB Z :=
  atomically (
    found ← exec (fun t => (t, existsb (fun s => (s.1 =? user_idnr) && (s.2 =? mailbox_idnr)) (subscription t)));
    (if found : bool then mret tt
     else exec_checked (fun t => if mailbox_of t mailbox_idnr then Some (t <| subscription ::= fun l => l ++ [(user_idnr, mailbox_idnr)] |>, tt) else None));;
    mret 1) DM_EQUERY.
Definition db_unsubscribe (mailbox_idnr user_idnr : Z) : DB Z :=
  as_int (db_update (fun t => Some (t <| subscription ::= filter (fun s => ~ (s.1 = user_idnr /\ s.2 = mailbox_idnr)) |>))).

(** The walk over the levels: the error, the mailbox created last, and the message. *)
Definition creation : Type := Z * Z * option cstr.
(** A level that does not exist. *)
Definition create_level (source : mailbox_source) (owner_idnr : Z) (M : level) (created : Z) (message : option cstr) :
    DB (Z * Z * option cstr * level) :=
  if l_users M && negb (l_owner M =? owner_idnr) then
    mret (DM_EGENERAL, created, Some (lit "Top-level mailboxes may not be created for others under #Users"), M)
  else
    r ← db_createmailbox (l_name M) (if l_public M then l_owner M else owner_idnr);
    let '(result, created) := r in
    s ← (if result =? DM_EGENERAL then mret (DM_EGENERAL, Some (lit "General error while creating"), M)
         else if result =? DM_EQUERY then mret (DM_EQUERY, Some (lit "Database error while creating"), M)
         else
           subscribed ← (if bool_decide (source = BOX_IMAP) then mret 1 else db_subscribe created owner_idnr);
           mret (if subscribed =? 0 then (DM_EGENERAL, Some (lit "General error while subscribing"), M <| l_permission := IMAPPERM_READWRITE |>)
                 else (0, message, M <| l_permission := IMAPPERM_READWRITE |>)) : DB (Z * option cstr * level));
    let '(skip, message, M) := s in
    a ← (if l_public M then
           result ← acl_set_rights owner_idnr created (lit "lrswipkxteacd");
           mret (if result =? DM_EQUERY then (DM_EQUERY, Some (lit "Database error while setting rights")) else (skip, message))
         else mret (skip, message) : DB (Z * option cstr));
    let '(skip, message) := a in
    mret (if skip =? 0 then (0, created, Some (lit "Folder created"), M <| l_id := created |>) else (skip, created, message, M)).
(** Whether mailboxes may be created below a level. *)
Definition check_level (owner_idnr : Z) (M : level) (message : option cstr) : DB (Z * option cstr) :=
  result ← db_noinferiors (l_id M);
  let s := if result =? DM_EGENERAL then (DM_EGENERAL, Some (lit "Mailbox cannot have inferior names"))
           else if result =? DM_EQUERY then (DM_EQUERY, Some (lit "Internal database error while checking inferiors"))
           else (0, message) in
  result ← acl_has_right (state_of (l_id M) (l_owner M) (l_permission M) (l_name M)) owner_idnr ACL_RIGHT_CREATE;
  mret (if result =? 0 then (DM_EGENERAL, Some (lit "Permission to create mailbox denied"))
        else if result <? 0 then (DM_EQUERY, Some (lit "Internal database error while checking ACL"))
        else s).
Fixpoint create_levels (source : mailbox_source) (owner_idnr : Z) (l : list level) (created : Z) (message : option cstr) : DB creation :=
  match l with
  | [] => mret (0, created, message)
  | M :: l =>
      r ← (if l_id M =? 0 then create_level source owner_idnr M created message else mret (0, created, message, M));
      let '(skip, created, message, M) := r in
      if negb (skip =? 0) then mret (skip, created, message)
      else
        c ← (if bool_decide (source = BOX_BRUTEFORCE) then mret (0, message) else check_level owner_idnr M message);
        let '(skip, message) := c in
        if negb (skip =? 0) then mret (skip, created, message) else create_levels source owner_idnr l created message
  end.
(** The result, the id and the message. *)
Definition db_mailbox_create_with_parents (mailbox : cstr) (source : mailbox_source) (owner_idnr : Z) : DB creation :=
  if negb (checkmailboxname mailbox) then mret (DM_EGENERAL, 0, Some (lit "New mailbox name contains invalid characters"))
  else
    found ← db_findmailbox mailbox owner_idnr;
    match found with
    | Some id => mret (DM_EGENERAL, id, Some (lit "Mailbox already exists"))
    | None =>
        levels ← db_imap_split_mailbox mailbox owner_idnr;
        match levels with
        | inl message => mret (DM_EGENERAL, 0, message)
        | inr levels => create_levels source owner_idnr levels 0 (Some (lit "Everything is peachy keen"))
        end
    end.

(** The mailbox of the name, created when the source is trusted, or else the inbox. *)
Definition trusted (source : mailbox_source) : bool :=
  match source with BOX_COMMANDLINE | BOX_BRUTEFORCE | BOX_SORTING | BOX_DEFAULT => true | _ => false end.
Definition find_or_create (name : cstr) (source : mailbox_source) (owner_idnr : Z) (other : DB (Z * Z)) : DB (Z * Z) :=
  found ← db_findmailbox name owner_idnr;
  match found with
  | Some id => mret (DM_SUCCESS, id)
  | None =>
      if trusted source then
        r ← db_mailbox_create_with_parents name source owner_idnr;
        mret (if r.1.1 =? DM_SUCCESS then (DM_SUCCESS, r.1.2) else (DM_EQUERY, 0))
      else other
  end.
Definition db_find_create_mailbox (name : cstr) (source : mailbox_source) (owner_idnr : Z) : DB (Z * Z) :=
  find_or_create name source owner_idnr (find_or_create INBOX BOX_DEFAULT owner_idnr undefined).

(** ** Messages *)
Definition mailbox_set_seq (f : Z -> Z) (mailbox : Z) (t : mail_tables) : mail_tables :=
  t <| mailboxes ::= fmap (fun x => if x_id x =? mailbox then x <| x_seq ::= f |> else x) |>.
Definition update_message (id : Z) (f : message_row -> message_row) (t : mail_tables) : mail_tables :=
  t <| messages ::= fmap (fun m => if m_id m =? id then f m else m) |>.
Definition seq_of (t : mail_tables) (mailbox : Z) : Z := default 0 (x_seq <$> mailbox_of t mailbox).
(** The sequence of a mailbox grows, and the message gets it; a transaction that throws is
    rolled back when the connection is given back. The second way executes the first statement
    twice, and has no transaction. *)
Definition db_mailbox_seq_update (mailbox_id message_id : Z) : DB Z :=
  if mailbox_update_seq_strategy =? 1 then
    r ← committed (
      exec (fun t => (mailbox_set_seq Z.succ mailbox_id t, tt));;
      seq ← exec (fun t => (t, seq_of t mailbox_id));
      (if message_id =? 0 then mret tt
       else exec (fun t => (update_message message_id (fun m => if m_seq m <? seq then m <| m_seq := seq |> else m) t, tt)));;
      mret seq) 0;
    mret r.2
  else if mailbox_update_seq_strategy =? 2 then
    attempt (
      exec (fun t => (mailbox_set_seq Z.succ mailbox_id t, tt));;
      exec (fun t => (mailbox_set_seq Z.succ mailbox_id t, tt));;
      seq ← exec (fun t => (t, seq_of t mailbox_id));
      (if message_id =? 0 then mret tt else exec (fun t => (update_message message_id (fun m => m <| m_seq := seq_of t (m_mailbox m) |>) t, tt)));;
      mret seq) 0
  else mret 0.

Definition message_get_size (message_idnr : Z) : DB Z := select (fun t => from_option (size_of t) 0 (message_of t message_idnr)) 0.
(** A message is in a mailbox and has a physical message. *)
Definition insert_message (f : Z -> message_row) : SQL Z := exec_checked (fun t =>
  let id := fresh_id (m_id <$> messages t) in
  let m := f id in
  if mailbox_of t (m_mailbox m) then
    if existsb (fun p => p.1 =? m_phys m) (physmessage (mime t)) then Some (t <| messages ::= fun l => l ++ [m] |>, id) else None
  else None).
Definition copy_keywords (from to : Z) (t : mail_tables) : option mail_tables :=
  let rows := (fun k => (to, k.2)) <$> filter (fun k => k.1 = from) (keyword_rows t) in
  match rows with
  | [] => Some t
  | _ => if message_of t to then Some (t <| keyword_rows ::= fun l => l ++ rows |>) else None
  end.
(** The id of the physical message is kept in an [int]. *)
Definition kept_phys (m : message_row) : Z := wrap64 (to_int32 (m_phys m)).
(** The row of the copy with its keywords: its id, which is [newmsg] until it is inserted. What
    the statements throw is not looked at. *)
Definition copy_row (msg_idnr mailbox_to newmsg : Z) : DB Z :=
  r ← committed (
    row ← exec (fun t => (t, message_of t msg_idnr));
    insert_message (fun id =>
      match row with
      | Some m => mkrow id mailbox_to (kept_phys m) (m_flags m) (create_unique_id msg_idnr) (m_status m) 0
      | None => mkrow id mailbox_to 0 (repeat 0 6) (create_unique_id msg_idnr) 0 0
      end)) newmsg;
  atomically (exec_checked (fun t => t' ← copy_keywords msg_idnr r.2 t; Some (t', tt))) tt;;
  db_mailbox_seq_update mailbox_to r.2;;
  mret r.2.
(** The result and the id of the copy. *)
Definition db_copymsg (msg_idnr mailbox_to user_idnr newmsg : Z) : DB (Z * Z) :=
  msgsize ← message_get_size msg_idnr;
  if msgsize =? 0 then mret (DM_EQUERY, newmsg)
  else
    valid ← dm_quota_user_validate user_idnr msgsize;
    if valid =? DM_EQUERY then mret (DM_EQUERY, newmsg)
    else if valid =? 0 then mret (DM_OVERQUOTA, newmsg)
    else
      new ← copy_row msg_idnr mailbox_to newmsg;
      inc ← dm_quota_user_inc user_idnr msgsize;
      mret (if inc =? 0 then DM_EQUERY else DM_EGENERAL, new).

Definition drop_messages (p : message_row -> bool) (t : mail_tables) : mail_tables :=
  let gone := m_id <$> filter (fun m => p m = true) (messages t) in
  t <| messages ::= filter (fun m => p m = false) |> <| keyword_rows ::= filter (fun k => k.1 ∉ gone) |>.
Definition db_set_message_status (message_idnr status : Z) : DB Z :=
  as_int (db_update (fun t => Some (update_message message_idnr (fun m => m <| m_status := status |>) t))).
Definition db_delete_message (message_idnr : Z) : DB Z :=
  as_int (db_update (fun t => Some (drop_messages (fun m => m_id m =? message_idnr) t))).
Definition db_move_message (message_id mailbox_id : Z) : DB Z :=
  as_int (db_update (fun t => if mailbox_of t mailbox_id then Some (update_message message_id (fun m => m <| m_mailbox := mailbox_id |>) t) else None)).
Definition mailbox_empty (mailbox_idnr : Z) : DB Z := as_int (db_update (fun t => Some (drop_messages (fun m => m_mailbox m =? mailbox_idnr) t))).
(** With the messages, subscriptions and rights of the mailbox. *)
Definition mailbox_delete (mailbox_idnr : Z) : DB Z := as_int (db_update (fun t =>
  Some (drop_messages (fun m => m_mailbox m =? mailbox_idnr) t <| mailboxes ::= filter (fun x => x_id x <> mailbox_idnr) |>
    <| subscription ::= filter (fun s => s.2 <> mailbox_idnr) |> <| rights ::= filter (fun r => r.1.2 <> mailbox_idnr) |>))).
(** A statement that throws counts as size 0. *)
Definition is_deleted (m : message_row) : bool := default 0 (m_flags m !! IMAP_FLAG_DELETED) =? 1.
Definition db_get_mailbox_size (mailbox_idnr : Z) (only_deleted : bool) : DB Z :=
  select (fun t => counted t (fun m => (m_mailbox m =? mailbox_idnr) && (negb only_deleted || is_deleted m))) 0.
Definition db_delete_mailbox (mailbox_idnr : Z) (only_empty update_curmail_size : bool) : DB Z :=
  owner ← db_get_mailbox_owner mailbox_idnr;
  let '(result, user_idnr) := owner in
  if result =? DM_EQUERY then mret DM_EQUERY
  else if result =? 0 then mret DM_EGENERAL
  else
    mailbox_size ← (if update_curmail_size then db_get_mailbox_size mailbox_idnr false else mret 0);
    writable ← mailbox_is_writable mailbox_idnr;
    if negb writable then mret DM_EGENERAL
    else
      done ← (if only_empty then mailbox_empty mailbox_idnr else mailbox_delete mailbox_idnr);
      if done =? 0 then mret DM_EGENERAL
      else if negb update_curmail_size then mret DM_SUCCESS
      else dec ← dm_quota_user_dec user_idnr mailbox_size; mret (if dec =? 0 then DM_EQUERY else DM_SUCCESS).
Fixpoint delete_all (only_empty : bool) (ids : list Z) : DB Z :=
  match ids with
  | [] => mret 0
  | id :: ids => r ← db_delete_mailbox id only_empty true; if r =? 0 then delete_all only_empty ids else mret (-1)
  end.
Definition db_empty_mailbox (user_idnr : Z) (only_empty : bool) : DB Z :=
  ids ← select (fun t => Some (x_id <$> filter (fun x => x_owner x = user_idnr) (mailboxes t))) None;
  match ids with None => mret DM_EQUERY | Some ids => delete_all only_empty (reverse ids) end.
Definition db_movemsg (mailbox_to mailbox_from : Z) : DB Z :=
  count ← atomically (exec_checked (fun t =>
    let n := Z.of_nat (length (filter (fun m => m_mailbox m = mailbox_from) (messages t))) in
    if (n =? 0) || bool_decide (is_Some (mailbox_of t mailbox_to)) then
      Some (t <| messages ::= fmap (fun m => if m_mailbox m =? mailbox_from then m <| m_mailbox := mailbox_to |> else m) |>, n)
    else None)) DM_EQUERY;
  if count =? DM_EQUERY then mret DM_EQUERY
  else
    (if 0 <? count then db_mailbox_seq_update mailbox_to 0;; db_mailbox_seq_update mailbox_from 0;; mret tt else mret tt);;
    mret DM_SUCCESS.

(** ** Names and lists *)
Definition fq_name (mailbox_name : option cstr) (owner_idnr user_idnr : Z) : DB (option cstr) :=
  match mailbox_name with
  | None => mret None
  | Some _ =>
      if user_idnr =? owner_idnr then mret mailbox_name
      else owner ← auth_get_userid owner_idnr; mret (mailbox_add_namespace (fun _ => owner) mailbox_name owner_idnr user_idnr)
  end.
Definition db_getmailboxname (mailbox_idnr user_idnr : Z) : DB (Z * cstr) :=
  owner ← db_get_mailbox_owner mailbox_idnr;
  let '(result, owner_idnr) := owner in
  if result <=? 0 then mret (DM_EQUERY, [])
  else
    name ← select (fun t => x_name <$> mailbox_of t mailbox_idnr) None;
    fq ← fq_name name owner_idnr user_idnr;
    mret (match fq with None => (DM_EQUERY, []) | Some fq => (DM_SUCCESS, take (IMAP_MAX_MAILBOX_NAMELEN - 1) fq) end).
Definition name_taken (t : mail_tables) (mailbox_idnr : Z) (name : cstr) : bool :=
  match mailbox_of t mailbox_idnr with
  | None => false
  | Some x => existsb (fun y => negb (x_id y =? mailbox_idnr) && (x_owner y =? x_owner x) && streq (x_name y) name) (mailboxes t)
  end.
Definition db_setmailboxname (mailbox_idnr : Z) (name : cstr) : DB Z :=
  attempt (exec_checked (fun t =>
    if name_taken t mailbox_idnr name then None
    else Some (t <| mailboxes ::= fmap (fun x => if x_id x =? mailbox_idnr then x <| x_name := name |> else x) |>, DM_SUCCESS))) DM_EQUERY.
(** When there is no such mailbox, every mailbox of the user. *)
Definition db_listmailboxchildren (mailbox_idnr user_idnr : Z) : DB (Z * list Z) :=
  name ← select (fun t => Some (x_name <$> (x ← mailbox_of t mailbox_idnr; if x_owner x =? user_idnr then Some x else None))) None;
  match name with
  | None => mret (DM_EQUERY, [])
  | Some name =>
      let mailbox_like := (fun n => mailbox_match_new (take (IMAP_MAX_MAILBOX_NAMELEN + 3) (n ++ lit "/%"))) <$> name in
      let matching x := match mailbox_like with Some m => mailbox_matches m (x_name x) | None => true end in
      select (fun t => (DM_SUCCESS, reverse (x_id <$> filter (fun x => x_owner x = user_idnr /\ matching x = true) (mailboxes t)))) (DM_EQUERY, [])
  end.

(** The condition of the statement: [AND] binds closer than [OR]. *)
Definition lookup_right (t : mail_tables) (user mailbox : Z) : bool :=
  match rights t !! (user, mailbox) with Some row => bool_decide (right_string ACL_RIGHT_LOOKUP ∈ row) | None => false end.
Definition listed (t : mail_tables) (only_subscribed : bool) (search_user_idnr user_idnr : Z) (x : mailbox_row) : bool :=
  let own := x_owner x =? search_user_idnr in
  let mine := lookup_right t user_idnr (x_id x) in
  let everyone := existsb (fun u => streq (u_name u) DBMAIL_ACL_ANYONE_USER && lookup_right t (u_id u) (x_id x)) (users t) in
  (negb only_subscribed || existsb (fun s => (s.1 =? user_idnr) && (s.2 =? x_id x)) (subscription t)) &&
  ((if search_user_idnr =? user_idnr then own || mine else own && mine) || everyone).
(** The mailboxes that have a name for the user. *)
Fixpoint named_ids (user_idnr : Z) (l : list mailbox_row) : DB (list Z) :=
  match l with
  | [] => mret []
  | x :: l =>
      name ← fq_name (Some (x_name x)) (x_owner x) user_idnr;
      ids ← named_ids user_idnr l;
      mret (if name : option cstr then x_id x :: ids else ids)
  end.
Definition has_wildcard (s : cstr) : bool := bool_decide ("%"%char ∈ s) || bool_decide ("*"%char ∈ s).
Definition mailboxes_by_regex (user_idnr : Z) (only_subscribed : bool) (pattern : cstr) : DB (Z * list Z) :=
  match mailbox_remove_namespace pattern with
  | NameAborts _ => undefined
  | NoName => mret (DM_SUCCESS, [])
  | Name spattern _ username =>
      search ← (match username with None => mret (Some user_idnr) | Some u => auth_user_exists u end : DB (option Z));
      match search with
      | None => mret (DM_SUCCESS, [])
      | Some search_user_idnr =>
          let matching x := has_wildcard spattern || mailbox_matches (mailbox_match_new spattern) (x_name x) in
          rows ← select (fun t => Some (filter (fun x => listed t only_subscribed search_user_idnr user_idnr x && matching x = true) (mailboxes t))) None;
          match rows with
          | None => mret (DM_EQUERY, [])
          | Some [] => mret (DM_SUCCESS, [])
          | Some rows => ids ← named_ids user_idnr rows; mret (DM_EGENERAL, ids)
          end
      end
  end.
Definition db_findmailbox_by_regex (owner_idnr : Z) (pattern : cstr) (only_subscribed : bool) : DB (Z * list Z) :=
  r ← mailboxes_by_regex owner_idnr only_subscribed pattern;
  mret (if r.1 <? 0 then DM_EQUERY else DM_SUCCESS, r.2).
End store.
