(* ===== verification/MailDeliver.v ===== *)
(** * dm_message.c: storing and delivering a message

    A message is stored once, in the inbox of a user of its own ([dbmail_message_store], with its
    attempts), and delivered by copying its row ([sort_and_deliver]). What is outside of the
    tables of MailStore and MessageStore (the caches of header values, filters, the engine of
    Sieve) is a class of operations on the data base. *)
From S2P Require Import Prelude CLib GLib Tree ClientBase ClientSession MiscText GListUtil MailboxState Acl Auth ImapText SqlFragment SqlState.
From S2P Require Import MailboxName Mime MessageStore MailStore.

Record mail_message := mkmail_message {
  content : gmime;
  counters : DbmailMessage;              (** [id], the physical message, and the counters *)
  msg_idnr : Z;
  stream_size : Z; crlf_size : Z;
  internal_date : cstr;
  message_id_header : option cstr;
}.
#[export] Instance mail_message_settable : Settable mail_message := fun r =>
  mkmail_message (content r) (counters r) (msg_idnr r) (stream_size r) (crlf_size r) (internal_date r) (message_id_header r).
Definition physid (self : mail_message) : Z := msg_id (counters self).

Class DeliverEnv := {
  conf_subaddress : bool; conf_sieve : bool; conf_suppress_duplicates : bool;
  dbmail_message_cache_headers : mail_message -> DB Z;
  dbmail_message_cache_envelope : mail_message -> DB unit;
  (** the number of rows with the id, in the last days *)
  db_mailbox_has_message_id : Z -> cstr -> DB Z;
  (** the mailbox of a filter of anyone or of the user that matches a header of the message *)
  matching_filter : Z -> Z -> mail_message -> DB (option cstr);
  dm_sievescript_isactive : Z -> DB bool;
  (** whether the keep was cancelled and the message rejected *)
  sort_process : Z -> mail_message -> cstr -> DB (option (bool * bool));
}.

Section deliver.
Context `{SqlConf} `{LikeOps} `{GTreeOps} `{GLibStr} `{MailConf} `{StoreConf} `{Digests} `{DeliverEnv}.

(** ** Storing *)
Definition insert_physmessage (date : cstr) : SQL Z := exec (fun t =>
  let id := fresh_id (fst <$> physmessage (mime t)) in (t <| mime ::= fun p => p <| physmessage ::= fun l => l ++ [(id, date)] |> |>, id)).
Definition roll_back (d d' : mdb) : mdb := d' <| tables := tables d |>.
(** The ids that were assigned stay when the transaction is rolled back. *)
Definition insert_rows (self : mail_message) (mailboxid : Z) (unique_id : cstr) : DB (Z * mail_message) := fun d =>
  match (mark;; insert_physmessage (internal_date self)) d with
  | (d', None) => (roll_back d d', Returns (DM_EQUERY, self))
  | (d1, Some phys) =>
      let self := self <| counters ::= fun m => m <| msg_id := phys |> |> in
      match insert_message (fun id => mkrow id mailboxid phys [0; 0; 0; 0; 0; 1] unique_id MESSAGE_STATUS_INSERT 0) d1 with
      | (d', None) => (roll_back d d', Returns (DM_EQUERY, self))
      | (d2, Some id) =>
          let self := self <| msg_idnr := id |> in
          match mark d2 with
          | (d3, Some _) => (d3, Returns (DM_SUCCESS, self))
          | (d3, None) => (roll_back d d3, Returns (DM_EQUERY, self))
          end
      end
  end.
Definition _message_insert (self : mail_message) (user_idnr : Z) (mailbox unique_id : cstr) : DB (Z * mail_message) :=
  r ← db_find_create_mailbox mailbox BOX_DEFAULT user_idnr;
  if r.1 =? -1 then mret (-1, self) else if r.2 =? 0 then mret (-1, self) else insert_rows self r.2 unique_id.
(** The size of a message is not 0 (an assertion). *)
Definition _update_message (self : mail_message) : DB Z :=
  let size := stream_size self in
  if (size =? 0) || (crlf_size self =? 0) then undefined
  else
    ok ← db_update (fun t => Some (t <| messagesize ::= <[physid self := size]> |> <| rfcsize ::= <[physid self := crlf_size self]> |>));
    if negb ok then mret DM_EQUERY
    else
      ok ← db_set_message_status (msg_idnr self) MESSAGE_STATUS_NEW;
      if ok =? 0 then mret DM_EQUERY
      else
        user ← db_get_useridnr (msg_idnr self);
        ok ← dm_quota_user_inc user size;
        mret (if ok =? 0 then DM_EQUERY else DM_SUCCESS).
Definition set_mime (p : mime_tables) (t : mail_tables) : mail_tables := t <| mime := p |>.
Definition store_parts_of (self : mail_message) : DB (bool * mail_message) :=
  r ← zoom mime set_mime (fun d => let '(d, m, failed) := MessageStore.dm_message_store (content self) (d, counters self) in (d, (m, failed)));
  mret (r.2, self <| counters := r.1 |>).

(** The steps that are left in an attempt that has come to [step], with the result so far: the
    step that the next attempt starts with, or the end. *)
Definition attempt_step (user_idnr : Z) (unique_id : cstr) (step : nat) (res : Z) (self : mail_message) :
    DB ((nat * Z * mail_message) + (Z * mail_message)) :=
  let caches (res : Z) (self : mail_message) :=
    res ← dbmail_message_cache_headers self;
    if res <? 0 then mret (inl (3%nat, res, self))
    else dbmail_message_cache_envelope self;; mret (inr (res, self)) in
  let parts (res : Z) (self : mail_message) :=
    r ← store_parts_of self;
    let '(failed, self) := r in
    if failed : bool then mret (inl (2%nat, 1, self)) else caches 0 self in
  let update (res : Z) (self : mail_message) :=
    r ← _update_message self;
    if r <? 0 then mret (inl (1%nat, 1, self)) else parts 0 self in
  match step with
  | 0%nat =>
      r ← _message_insert self user_idnr DBMAIL_TEMPMBOX unique_id;
      let '(r, self) := r in
      if r <? 0 then mret (inl (0%nat, res, self)) else update res self
  | 1%nat => update res self
  | 2%nat => parts res self
  | _ => caches res self
  end.
Fixpoint store_attempts (n : nat) (user_idnr : Z) (unique_id : cstr) (step : nat) (res : Z) (self : mail_message) : DB (Z * mail_message) :=
  match n with
  | O => mret (res, self)
  | S n =>
      r ← attempt_step user_idnr unique_id step res self;
      match r with
      | inl (step, res, self) => store_attempts n user_idnr unique_id step res self
      | inr (res, self) => mret (res, self)
      end
  end.
Definition STORE_ATTEMPTS : nat := 9.
Definition dbmail_message_store (self : mail_message) : DB (Z * mail_message) :=
  user ← auth_user_exists DBMAIL_DELIVERY_USERNAME;
  match user with
  | None => mret (DM_EQUERY, self)
  | Some user_idnr => store_attempts STORE_ATTEMPTS user_idnr (create_unique_id user_idnr) 0 0 self
  end.

(** ** Delivering *)
Definition has_right_to_post (mboxidnr useridnr : Z) : DB Z := acl_has_right (state_of mboxidnr 0 0 []) useridnr ACL_RIGHT_POST.
Definition deliver_copy (self : mail_message) (useridnr mboxidnr : Z) : DB (Z * mail_message) :=
  duplicate ← match message_id_header self with
              | Some id => if conf_suppress_duplicates then n ← db_mailbox_has_message_id mboxidnr id; mret (0 <? n) else mret false
              | None => mret false
              end;
  if duplicate : bool then mret (DSN_CLASS_OK, self)
  else
    r ← db_copymsg (msg_idnr self) mboxidnr useridnr 0;
    let '(result, new) := r in
    if result =? -2 then mret (DSN_CLASS_QUOTA, self)
    else if result =? -1 then mret (DSN_CLASS_TEMP, self)
    else mret (DSN_CLASS_OK, self <| msg_idnr := new |>).
(** [again]: the delivery to the inbox, when there is no right to post to another mailbox. *)
Definition deliver_to (self : mail_message) (useridnr : Z) (mailbox : cstr) (source : mailbox_source) (again : DB (Z * mail_message)) :
    DB (Z * mail_message) :=
  r ← db_find_create_mailbox mailbox source useridnr;
  if negb (r.1 =? 0) then mret (DSN_CLASS_FAIL, self)
  else if bool_decide (source = BOX_BRUTEFORCE) then deliver_copy self useridnr r.2
  else
    permission ← has_right_to_post r.2 useridnr;
    if permission =? -1 then mret (DSN_CLASS_TEMP, self)
    else if permission =? 0 then (if streq mailbox INBOX then mret (DSN_CLASS_FAIL, self) else again)
    else if permission =? 1 then deliver_copy self useridnr r.2
    else mret (DSN_CLASS_FAIL, self).
Definition sort_deliver_to_mailbox (self : mail_message) (useridnr : Z) (mailbox : cstr) (source : mailbox_source) : DB (Z * mail_message) :=
  deliver_to self useridnr mailbox source (deliver_to self useridnr INBOX BOX_DEFAULT undefined).

Definition get_mailbox_from_filters (self : mail_message) (useridnr : Z) : DB (option cstr) :=
  anyone ← auth_user_exists DBMAIL_ACL_ANYONE_USER;
  match anyone with
  | None => mret None
  | Some anyone => into ← matching_filter anyone useridnr self; mret (take 1023 <$> into)
  end.
Definition subaddress (destination : cstr) : option cstr :=
  match find_bounded destination "+" "@" with
  | Some ((_ :: _) as s, _) => Some s
  | _ => None
  end.
Definition sort_and_deliver (self : mail_message) (destination : cstr) (useridnr : Z) (mailbox : option cstr) (source : mailbox_source) :
    DB (Z * mail_message) :=
  if bool_decide (source = BOX_BRUTEFORCE) then
    match mailbox with None => undefined | Some mailbox => sort_deliver_to_mailbox self useridnr mailbox source end
  else
    target ← match mailbox with
             | Some mailbox => mret (mailbox, source)
             | None =>
                 into ← get_mailbox_from_filters self useridnr;
                 mret (match into with None => (INBOX, BOX_DEFAULT) | Some into => (into, source) end)
             end;
    let '(mailbox, source) :=
      match (if conf_subaddress then subaddress destination else None) with Some s => (s, BOX_ADDRESSPART) | None => target end in
    active ← (if conf_sieve then dm_sievescript_isactive useridnr else mret false);
    sorted ← (if active : bool then sort_process useridnr self mailbox else mret None);
    let '(cancelkeep, reject) := default (false, false) sorted in
    r ← (if cancelkeep : bool then mret (DSN_CLASS_OK, self) else sort_deliver_to_mailbox self useridnr mailbox source);
    mret (if reject : bool then (DSN_CLASS_FAIL, r.2) else r).

(** [db_append_msg]: a message is stored, copied to the mailbox and marked as seen. *)
Definition db_append_msg (self : mail_message) (mailbox_idnr user_idnr msg_idnr : Z) : DB (Z * Z) :=
  writable ← mailbox_is_writable mailbox_idnr;
  if negb writable then mret (DM_EQUERY, msg_idnr)
  else
    r ← dbmail_message_store self;
    let '(res, self) := r in
    if res <? 0 then mret (DM_EQUERY, msg_idnr)
    else
      c ← db_copymsg (MailDeliver.msg_idnr self) mailbox_idnr user_idnr msg_idnr;
      let '(result, new) := c in
      db_delete_message (MailDeliver.msg_idnr self);;
      if result =? -2 then mret (-2, new) else if result =? -1 then mret (-1, new)
      else ok ← db_set_message_status new MESSAGE_STATUS_SEEN; mret (if ok =? 0 then 1 else 0, new).
End deliver.
