(* ===== verification/MailStoreFacts.v ===== *)
(** * Users, mailboxes and messages: quota

    When no statement fails, the size that is kept for a user stays the size of the messages in
    the user's mailboxes; and what the functions of MailStore change at all. *)
From S2P Require Import Prelude CLib GLib Tree ClientBase ClientSession MiscText GListUtil MailboxState Acl Auth ImapText SqlFragment SqlState.
From S2P Require Import MailboxName Mime MimeFacts MessageStore MessageStoreFacts MailStore.

Section facts.
Context `{SqlConf} `{LikeOps} `{GTreeOps} `{GLibStr} `{MailConf}.

(** ** Sequences *)

(** The tables without the sequences of mailboxes and messages. *)
Definition forget_seq (t : mail_tables) : mail_tables :=
  t <| messages ::= fmap (fun m => m <| m_seq := 0 |>) |> <| mailboxes ::= fmap (fun x => x <| x_seq := 0 |>) |>.
Definition seq_only (t t' : mail_tables) : Prop := forget_seq t = forget_seq t'.
#[export] Instance seq_only_equiv : Equivalence seq_only.
Proof. split; unfold seq_only; [by intros ?|by intros ???|by intros ??? -> ]. Qed.
Lemma mailbox_seq_only f id t : seq_only t (mailbox_set_seq f id t).
Proof.
  unfold seq_only, forget_seq, mailbox_set_seq. destruct t; cbv [set_field]; simpl. f_equal.
  rewrite <- list_fmap_compose. apply list_fmap_ext. intros i x _. simpl. by destruct (_ =? _).
Qed.
Lemma message_seq_only id (f : message_row -> message_row) t :
  (forall m, (f m) <| m_seq := 0 |> = m <| m_seq := 0 |>) -> seq_only t (MailStore.update_message id f t).
Proof.
  intros Hf. unfold seq_only, forget_seq, MailStore.update_message. destruct t; cbv [set_field]; simpl. f_equal.
  rewrite <- list_fmap_compose. apply list_fmap_ext. intros i m _. simpl. destruct (_ =? _); [|done]. symmetry. apply (Hf m).
Qed.

(** [db_mailbox_seq_update] changes sequences only, whatever throws. *)
Lemma stays_seq_update mailbox id : stays seq_only (db_mailbox_seq_update mailbox id).
Proof.
  assert (forall f, SqlState.respects seq_only (exec (fun t => (mailbox_set_seq f mailbox t, tt)))) as E1
    by (intros f; apply respects_exec; [apply _|intros t; apply mailbox_seq_only]).
  assert (forall f : mail_tables -> Z, SqlState.respects seq_only (exec (fun t => (t, f t)))) as E2
    by (intros f; apply respects_exec; [apply _|intros t; reflexivity]).
  assert (forall (b : bool) (f : mail_tables -> message_row -> message_row), (forall t m, (f t m) <| m_seq := 0 |> = m <| m_seq := 0 |>) ->
    SqlState.respects seq_only (if b then mret tt else exec (fun t => (MailStore.update_message id (f t) t, tt)))) as E3.
  { intros [] f Hf; [apply respects_ret, _|]. apply respects_exec; [apply _|]. intros t. by apply message_seq_only. }
  unfold db_mailbox_seq_update. apply stays_if; [|apply stays_if; [|apply stays_ret, _]].
  - apply stays_bind; [apply _| |intros r; apply stays_ret, _]. apply stays_committed; [apply _|].
    apply respects_bind; [apply _|auto|intros _]. apply respects_bind; [apply _|auto|intros seq].
    apply respects_bind; [apply _| |intros ?; apply respects_ret, _].
    apply (E3 _ (fun t m => if m_seq m <? seq then m <| m_seq := seq |> else m)). intros t m. by destruct (_ <? _).
  - apply stays_attempt. do 3 (apply respects_bind; [apply _|auto|intros ?]).
    apply respects_bind; [apply _| |intros ?; apply respects_ret, _].
    by apply (E3 _ (fun t m => m <| m_seq := seq_of t (m_mailbox m) |>)).
Qed.
Lemma seq_update_returns mailbox id d : exists d' s, db_mailbox_seq_update mailbox id d = (d', Returns s).
Proof.
  unfold db_mailbox_seq_update. destruct (_ =? 1); [|destruct (_ =? 2)].
  - unfold mbind, DB_bind, committed. destruct ((mark;; _) d) as [d1 [x|]]; [|by eexists _, _].
    destruct (mark d1) as [d2 [[]|]]; by eexists _, _.
  - unfold attempt, total. destruct (try_catch _ _ _) as [d1 x]. by eexists _, _.
  - by eexists _, _.
Qed.

(** ** Usage *)

(** What the usage of a user depends on. *)
Definition account (t : mail_tables) : list (Z * Z * Z) * list (Z * Z) * gmap Z Z :=
  ((fun m => (m_mailbox m, m_phys m, m_status m)) <$> messages t, (fun x => (x_id x, x_owner x)) <$> mailboxes t, messagesize t).
(** What a message counts for a user. *)
Definition charge (t : mail_tables) (user : Z) (m : message_row) : Z :=
  if owned_by t user (m_mailbox m) && (m_status m <? MESSAGE_STATUS_DELETE) then size_of t m else 0.
Lemma counted_sum t p :
  counted t p = sum_list_Z ((fun m => if p m && (m_status m <? MESSAGE_STATUS_DELETE) then size_of t m else 0) <$> messages t).
Proof.
  unfold counted. induction (messages t) as [|m l IH]; [done|]. rewrite filter_cons, fmap_cons, sum_list_Z_cons, <- IH.
  case_decide as E.
  - destruct E as [-> E%Z.ltb_lt]. rewrite E. by rewrite fmap_cons, sum_list_Z_cons.
  - destruct (p m && _) eqn:Ep; [|done]. exfalso. apply andb_true_iff in Ep as [? ?%Z.ltb_lt]. by apply E.
Qed.
Lemma usage_sum t user : usage t user = sum_list_Z (charge t user <$> messages t).
Proof. apply counted_sum. Qed.
Lemma find_fmap {A B} (f : A -> B) (p : B -> bool) (l : list A) : find p (f <$> l) = f <$> find (fun x => p (f x)) l.
Proof. induction l as [|x l IH]; [done|]. simpl. by destruct (p (f x)). Qed.
Lemma find_same {A} (p q : A -> bool) (l : list A) : (forall x, p x = q x) -> find p l = find q l.
Proof. intros E. induction l as [|x l IH]; [done|]. simpl. by rewrite E, IH. Qed.
Lemma owned_account t user mailbox :
  owned_by t user mailbox = match find (fun x => x.1 =? mailbox) (account t).1.2 with Some x => x.2 =? user | None => false end.
Proof. unfold owned_by, mailbox_of, account. simpl. rewrite find_fmap. simpl. by destruct (find _ _). Qed.
Lemma usage_account t t' user : account t = account t' -> usage t user = usage t' user.
Proof.
  intros E. rewrite !usage_sum.
  assert (forall t, charge t user <$> messages t =
    (fun '(mb, ph, st) => if match find (fun x => x.1 =? mb) (account t).1.2 with Some x => x.2 =? user | None => false end &&
       (st <? MESSAGE_STATUS_DELETE) then default 0 ((account t).2 !! ph) else 0) <$> (account t).1.1) as Ec.
  { intros s. simpl. rewrite <- list_fmap_compose. apply list_fmap_ext. intros i m _. unfold charge. by rewrite owned_account. }
  by rewrite !Ec, E.
Qed.
Lemma account_forget t : account (forget_seq t) = account t.
Proof. unfold account. simpl. by rewrite <- !list_fmap_compose. Qed.
Lemma account_seq t t' : seq_only t t' -> account t = account t'.
Proof. intros E. by rewrite <- account_forget, E, account_forget. Qed.

(** ** Billing *)
Definition delivery_id (t : mail_tables) : Z := from_option u_id 0 (find (fun u => strcaseeq (u_name u) DBMAIL_DELIVERY_USERNAME) (users t)).
Record accounts_wf (t : mail_tables) : Prop := {
  aw_users : NoDup (u_id <$> users t);
  aw_delivery : delivery_id t <> 0;
  aw_known : forall d, delivery_user_idnr t = Some d -> d = delivery_id t;
}.
(** The size that is kept for every user but the delivery user is the usage. *)
Definition quota_exact (t : mail_tables) : Prop :=
  Forall (fun u => u_id u <> delivery_id t -> curmail_size u = usage t (u_id u)) (users t).
(** The size that is kept for a user changes. *)
Definition bill (user : Z) (f : Z -> Z) (t : mail_tables) : mail_tables :=
  let t' := t <| delivery_user_idnr := Some (delivery_id t) |> in
  if delivery_id t =? user then t' else update_users (fun u => u_id u =? user) (fun u => u <| curmail_size ::= f |>) t'.
Lemma wp_bill user f t (Q : mail_tables -> Z -> Prop) : accounts_wf t -> Q (bill user f t) 1 ->
  wp (not_delivery_user user (change_curmail user f)) t Q.
Proof.
  intros [_ Wd Wk] HQ. unfold not_delivery_user. apply wp_bind.
  assert (wp (user_idnr_is_delivery_user_idnr user) t (fun t' r => t' = t <| delivery_user_idnr := Some (delivery_id t) |> /\
    r = if delivery_id t =? user then DM_EGENERAL else DM_SUCCESS)) as Hd.
  { unfold user_idnr_is_delivery_user_idnr. apply wp_bind. exists t, (delivery_user_idnr t). split; [done|].
    destruct (delivery_user_idnr t) as [d|] eqn:Ed.
    - apply wp_ret. rewrite (Wk d eq_refl) in Ed |- *. split; [|done]. destruct t. simpl in *. by rewrite Ed.
    - unfold auth_user_exists. repeat wp_step. fold (delivery_id t). rewrite (proj2 (Z.eqb_neq _ _)) by done. apply wp_bind.
      eexists _, _. split; [reflexivity|]. by apply wp_ret. }
  eapply wp_mono; [exact Hd|]. intros t' r [-> ->]. unfold bill in HQ.
  destruct (delivery_id t =? user) eqn:E; [by apply wp_ret|]. change (DM_SUCCESS =? DM_EQUERY) with false. change (DM_SUCCESS =? DM_EGENERAL) with false.
  cbv iota. unfold change_curmail, as_int. by repeat wp_step.
Qed.

Lemma bill_ids user f t : u_id <$> users (bill user f t) = u_id <$> users t.
Proof.
  unfold bill. destruct (_ =? user); [done|]. simpl. rewrite <- list_fmap_compose. apply list_fmap_ext. intros i u _. simpl.
  by destruct (u_id u =? user).
Qed.
Lemma bill_delivery user f t : delivery_id (bill user f t) = delivery_id t.
Proof.
  unfold bill. destruct (_ =? user); [done|]. unfold delivery_id. simpl. rewrite find_fmap.
  rewrite (find_same _ (fun u => strcaseeq (u_name u) DBMAIL_DELIVERY_USERNAME)) by (intros u; by destruct (u_id u =? user)).
  destruct (find _ _) as [u|]; [|done]. simpl. by destruct (u_id u =? user).
Qed.
Lemma bill_account user f t : account (bill user f t) = account t.
Proof. unfold bill. by destruct (_ =? user). Qed.
Lemma bill_wf user f t : accounts_wf t -> accounts_wf (bill user f t).
Proof.
  intros [Wu Wd Wk]. split; rewrite ?bill_ids, ?bill_delivery; [done|done|]. intros d E. unfold bill in E.
  destruct (_ =? user); by injection E as <-.
Qed.
(** The books stay exact when the usage of one user and the size kept for him change alike. *)
Lemma exact_bill user f t t1 : quota_exact t -> users t1 = users t ->
  (forall v, usage t1 v = if v =? user then f (usage t user) else usage t v) -> quota_exact (bill user f t1).
Proof.
  intros X Eu Hu. unfold quota_exact. rewrite bill_delivery.
  assert (delivery_id t1 = delivery_id t) as Ed by (unfold delivery_id; by rewrite Eu). rewrite Ed.
  assert (forall v, usage (bill user f t1) v = usage t1 v) as Ha by (intros v; apply usage_account, bill_account).
  unfold quota_exact in X. rewrite Forall_forall in X. apply Forall_forall. intros u Hin Hd. rewrite Ha, Hu.
  unfold bill in Hin. rewrite Ed in Hin. destruct (delivery_id t =? user) eqn:E.
  - simpl in Hin. rewrite Eu in Hin. apply Z.eqb_eq in E. rewrite (proj2 (Z.eqb_neq (u_id u) user)) by congruence. by apply X.
  - simpl in Hin. rewrite Eu in Hin. apply list_elem_of_fmap in Hin as (v & -> & Hv).
    destruct (u_id v =? user) eqn:Ev; simpl in Hd |- *; rewrite Ev.
    + apply Z.eqb_eq in Ev. rewrite (X v Hv Hd). by rewrite Ev.
    + by apply X.
Qed.
Lemma exact_same t t1 : quota_exact t -> users t1 = users t -> account t1 = account t -> quota_exact t1.
Proof.
  intros X Eu Ea. unfold quota_exact, delivery_id in *. rewrite Eu. eapply Forall_impl; [exact X|]. simpl. intros u Hx Hd.
  rewrite (Hx Hd). symmetry. by apply usage_account.
Qed.

(** ** Copying a message *)
Lemma find_fresh {A} (f : A -> Z) (l : list A) (x : A) : f x = fresh_id (f <$> l) -> find (fun y => f y =? f x) (l ++ [x]) = Some x.
Proof.
  intros E. assert (Forall (fun y => f y <> f x) l) as Hl.
  { apply Forall_forall. intros y Hy. pose proof (fresh_bound (f <$> l) (f y) (list_elem_of_fmap_2 f l y Hy)). lia. }
  clear E. induction Hl as [|y l Hy Hl IH]; simpl; [by rewrite Z.eqb_refl|]. by rewrite (proj2 (Z.eqb_neq _ _)).
Qed.
Definition copy_of (m : message_row) (to msg new : Z) : message_row :=
  mkrow new to (kept_phys m) (m_flags m) (create_unique_id msg) (m_status m) 0.
Definition copied_keywords (t : mail_tables) (msg new : Z) : list (Z * cstr) := (fun k => (new, k.2)) <$> filter (fun k => k.1 = msg) (keyword_rows t).
Definition add_copy (t : mail_tables) (m : message_row) (to msg : Z) : mail_tables :=
  let new := fresh_id (m_id <$> messages t) in
  t <| messages ::= fun l => l ++ [copy_of m to msg new] |> <| keyword_rows ::= fun l => l ++ copied_keywords t msg new |>.
Definition has_phys (t : mail_tables) (id : Z) : bool := existsb (fun p => p.1 =? id) (physmessage (mime t)).
(** What the function does when nothing throws: it refuses what is over the quota, and copies
    anything else. *)
Definition copy_result (t : mail_tables) (m : message_row) (to msg user n : Z) (Q : mail_tables -> Z * Z -> Prop) : Prop :=
  let size := size_of t m in
  let max := default 0 (maxmail_size <$> user_of t user) in
  if (0 <? max) && over_quota t user size max then Q t (DM_OVERQUOTA, n)
  else forall t1, seq_only (add_copy t m to msg) t1 ->
    Q (bill user (fun c => c + size) t1) (DM_EGENERAL, fresh_id (m_id <$> messages t)).
Lemma users_seq t t' : seq_only t t' -> users t = users t'.
Proof. intros E. by apply (f_equal users) in E. Qed.
Lemma wf_same t t' : accounts_wf t -> users t' = users t -> delivery_user_idnr t' = delivery_user_idnr t -> accounts_wf t'.
Proof. intros [Wu Wd Wk] Eu Ed. split; unfold delivery_id in *; rewrite ?Eu, ?Ed; done. Qed.
Lemma wf_seq t t' : accounts_wf t -> seq_only t t' -> accounts_wf t'.
Proof.
  intros W E. apply (wf_same t); [done|by symmetry; apply users_seq|]. by apply (f_equal delivery_user_idnr) in E.
Qed.
Lemma wp_seq_update mailbox id t (Q : mail_tables -> Z -> Prop) : (forall t' s, seq_only t t' -> Q t' s) -> wp (db_mailbox_seq_update mailbox id) t Q.
Proof.
  intros HQ. unfold db_mailbox_seq_update.
  assert (forall f : Z -> Z, seq_only t (mailbox_set_seq f mailbox t)) as E1 by (intros f; apply mailbox_seq_only).
  destruct (_ =? 1); [|destruct (_ =? 2)]; [| |by apply wp_ret, HQ].
  - repeat wp_step. destruct (id =? 0); repeat wp_step; apply HQ; [apply E1|]. etransitivity; [apply E1|].
    apply message_seq_only. intros m. by destruct (_ <? _).
  - repeat wp_step. destruct (id =? 0); repeat wp_step; apply HQ; (etransitivity; [apply E1|]); [apply mailbox_seq_only|].
    etransitivity; [apply mailbox_seq_only|]. by apply message_seq_only.
Qed.
Lemma wp_copy_row t m to msg n (Q : mail_tables -> Z -> Prop) :
  message_of t msg = Some m -> is_Some (mailbox_of t to) -> has_phys t (kept_phys m) = true ->
  (forall t1, seq_only (add_copy t m to msg) t1 -> Q t1 (fresh_id (m_id <$> messages t))) -> wp (copy_row msg to n) t Q.
Proof.
  intros Hm [x Hx] Hp HQ. unfold copy_row. set (new := fresh_id _) in *. set (c := copy_of m to msg new).
  repeat wp_step. rewrite Hm. unfold insert_message. eapply swp_checked.
  { fold new. simpl. rewrite Hx. unfold has_phys in Hp. rewrite Hp. reflexivity. }
  fold c. repeat wp_step. set (t1 := t <| messages ::= _ |>).
  assert (copy_keywords msg new t1 = Some (add_copy t m to msg)) as Ek.
  { unfold copy_keywords, add_copy. fold new c. change (keyword_rows t1) with (keyword_rows t).
    change (_ <$> filter _ (keyword_rows t)) with (copied_keywords t msg new).
    destruct (copied_keywords t msg new) as [|k l].
    - f_equal. destruct t. unfold t1. cbv [set_field]. simpl. by rewrite app_nil_r.
    - unfold message_of. change (messages t1) with (messages t ++ [c]). change new with (m_id c) at 1. by rewrite find_fresh. }
  eapply swp_checked; [change (copy_keywords _ _ t1) with (copy_keywords msg new t1); by rewrite Ek|]. apply wp_bind, wp_seq_update. intros t2 s E. by apply wp_ret, HQ.
Qed.
Lemma wp_copymsg t m to msg user n (Q : mail_tables -> Z * Z -> Prop) :
  accounts_wf t -> message_of t msg = Some m -> is_Some (mailbox_of t to) -> has_phys t (kept_phys m) = true -> size_of t m <> 0 ->
  copy_result t m to msg user n Q -> wp (db_copymsg msg to user n) t Q.
Proof.
  intros W Hm Hx Hp Hs HQ. unfold db_copymsg, message_get_size. repeat wp_step. rewrite Hm. cbn [from_option].
  rewrite (proj2 (Z.eqb_neq _ _)) by done. apply wp_bind. unfold dm_quota_user_validate, auth_getmaxmailsize. repeat wp_step.
  unfold copy_result in HQ. set (max := default 0 _) in *.
  assert (forall t1, seq_only (add_copy t m to msg) t1 -> Q (bill user (fun c => c + size_of t m) t1) (DM_EGENERAL, fresh_id (m_id <$> messages t)) ->
    wp (inc ← dm_quota_user_inc user (size_of t m); mret (if inc =? 0 then DM_EQUERY else DM_EGENERAL, fresh_id (m_id <$> messages t))) t1 Q) as Hinc.
  { intros t1 E HQ'. apply wp_bind, wp_bill; [|by apply wp_ret]. apply (wf_seq (add_copy t m to msg)); [|done]. by apply (wf_same t). }
  rewrite Z.leb_antisym. destruct (0 <? max); simpl in HQ |- *.
  - repeat wp_step. destruct (over_quota t user (size_of t m) max); [by apply wp_ret|].
    change (1 =? DM_EQUERY) with false. change (1 =? 0) with false. cbv iota. apply wp_bind, (wp_copy_row t m); auto.
  - repeat wp_step. change (1 =? DM_EQUERY) with false. change (1 =? 0) with false. cbv iota. apply wp_bind, (wp_copy_row t m); auto.
Qed.
End facts.
