(* ===== verification/MailQuota.v ===== *)
(** * Users, mailboxes and messages: the books

    The calls that change mailboxes and messages, one after the other, keep the size that is
    stored for every user equal to the size of the user's messages and below the user's limit; a
    rebuild of the quota sets the books right, whatever they were. *)
From S2P Require Import Prelude CLib GLib Tree ClientBase ClientSession MiscText GListUtil MailboxState Acl Auth ImapText SqlFragment SqlState.
From S2P Require Import MailboxName Mime MimeFacts MessageStore MessageStoreFacts MailStore MailStoreFacts.

Section quota.
Context `{SqlConf} `{LikeOps} `{GTreeOps} `{GLibStr} `{MailConf}.

(** ** The books *)
Definition boxed (t : mail_tables) : Prop := Forall (fun m => m_mailbox m ∈ x_id <$> mailboxes t) (messages t).
Definition within_limits (t : mail_tables) : Prop :=
  Forall (fun u => u_id u <> delivery_id t -> 0 < maxmail_size u -> curmail_size u <= maxmail_size u) (users t).
Record books (t : mail_tables) : Prop := {
  books_accounts : accounts_wf t;
  books_exact : quota_exact t;
  books_limits : within_limits t;
  books_boxed : boxed t;
  books_sizes : map_Forall (fun _ s => 0 <= s) (messagesize t);
}.

Lemma boxed_account t t' : account t = account t' -> boxed t -> boxed t'.
Proof.
  assert (forall t, boxed t <-> Forall (fun k => k.1.1 ∈ fst <$> (account t).1.2) (account t).1.1) as E.
  { intros s. unfold boxed, account. simpl. rewrite Forall_fmap, <- list_fmap_compose. done. }
  rewrite !E. by intros ->.
Qed.
Lemma books_same t t' : books t -> users t' = users t -> delivery_user_idnr t' = delivery_user_idnr t -> account t' = account t -> books t'.
Proof.
  intros [Wa X L Bx Sz] Eu Ed Ea. split.
  - by apply (wf_same t).
  - by apply (exact_same t).
  - unfold within_limits, delivery_id in *. by rewrite Eu.
  - by apply (boxed_account t).
  - apply (f_equal snd) in Ea. change (messagesize t' = messagesize t) in Ea. by rewrite Ea.
Qed.
Lemma books_seq t t' : books t -> seq_only t t' -> books t'.
Proof.
  intros B E. apply (books_same t); [done|by symmetry; apply users_seq| |by symmetry; apply account_seq].
  symmetry. by apply (f_equal delivery_user_idnr) in E.
Qed.
Lemma limits_bill user f t : within_limits t ->
  (forall u, u ∈ users t -> u_id u = user -> user <> delivery_id t -> 0 < maxmail_size u -> f (curmail_size u) <= maxmail_size u) -> within_limits (bill user f t).
Proof.
  unfold within_limits. rewrite bill_delivery, !Forall_forall. intros L Hf u Hin Hd Hm. unfold bill in Hin.
  destruct (delivery_id t =? user) eqn:Ed; [by apply L|]. apply Z.eqb_neq in Ed. simpl in Hin. apply list_elem_of_fmap in Hin as (v & -> & Hv).
  destruct (u_id v =? user) eqn:E; simpl in Hd, Hm |- *; [|by apply L]. apply Z.eqb_eq in E. by apply Hf; congruence || done.
Qed.
(** The usage of one user changes by [f], and so does what is kept. *)
Lemma books_bill user f t t1 : books t -> users t1 = users t -> delivery_user_idnr t1 = delivery_user_idnr t ->
  (forall v, usage t1 v = if v =? user then f (usage t user) else usage t v) ->
  (forall u, u ∈ users t -> u_id u = user -> user <> delivery_id t -> 0 < maxmail_size u -> f (curmail_size u) <= maxmail_size u) ->
  boxed t1 -> messagesize t1 = messagesize t -> books (bill user f t1).
Proof.
  intros [Wa X L Bx Sz] Eu Ed Hu Hf Bx' Es. split.
  - by apply bill_wf, (wf_same t).
  - by apply (exact_bill user f t).
  - assert (delivery_id t1 = delivery_id t) as Ei by (unfold delivery_id; by rewrite Eu).
    apply limits_bill; rewrite ?Eu, ?Ei; [|done]. unfold within_limits in *. by rewrite Eu, Ei.
  - by apply (boxed_account t1); [rewrite bill_account|].
  - rewrite (f_equal snd (bill_account user f t1) : messagesize (bill user f t1) = messagesize t1). by rewrite Es.
Qed.
Lemma user_found t u : accounts_wf t -> u ∈ users t -> user_of t (u_id u) = Some u.
Proof.
  intros [W _ _]. unfold user_of. induction (users t) as [|v l IH]; intros Hu; [by apply elem_of_nil in Hu|].
  rewrite fmap_cons in W. apply NoDup_cons in W as [Hv W]. simpl. apply elem_of_cons in Hu as [->|Hu]; [by rewrite Z.eqb_refl|].
  rewrite (proj2 (Z.eqb_neq _ _)); [by apply IH|]. intros E. apply Hv. rewrite E. by apply list_elem_of_fmap_2.
Qed.

(** ** Sums *)
Lemma owned_same t t' user : mailboxes t' = mailboxes t -> forall mailbox, owned_by t' user mailbox = owned_by t user mailbox.
Proof. intros E mailbox. unfold owned_by, mailbox_of. by rewrite E. Qed.
Lemma charge_sizes t t' user m : mailboxes t' = mailboxes t -> messagesize t' = messagesize t -> charge t' user m = charge t user m.
Proof. intros Em Es. unfold charge, size_of. rewrite (owned_same t t') by done. by rewrite Es. Qed.
Lemma sum_split {A} (f : A -> Z) (p : A -> bool) (l : list A) :
  sum_list_Z (f <$> l) = sum_list_Z (f <$> filter (fun x => p x = true) l) + sum_list_Z (f <$> filter (fun x => p x = false) l).
Proof.
  induction l as [|x l IH]; [done|]. rewrite !filter_cons, fmap_cons, sum_list_Z_cons, IH.
  destruct (p x); repeat case_decide; try done; rewrite ?fmap_cons, ?sum_list_Z_cons; lia.
Qed.
Lemma sum_ext_in {A} (f g : A -> Z) (l : list A) : (forall x, x ∈ l -> f x = g x) -> sum_list_Z (f <$> l) = sum_list_Z (g <$> l).
Proof. intros E. f_equal. apply list_fmap_ext. intros i x Hi. apply E. by eapply list_elem_of_lookup_2. Qed.
Lemma charge_nonneg t user m : map_Forall (fun _ s => 0 <= s) (messagesize t) -> 0 <= charge t user m.
Proof.
  intros Hs. unfold charge, size_of. destruct (_ && _); [|done]. destruct (messagesize t !! m_phys m) as [s|] eqn:E; [|done]. by apply (Hs _ _ E).
Qed.
Lemma usage_app t t1 c user : mailboxes t1 = mailboxes t -> messagesize t1 = messagesize t -> messages t1 = messages t ++ [c] ->
  usage t1 user = usage t user + charge t user c.
Proof.
  intros Em Es El. rewrite !usage_sum, El, fmap_app, sum_list_Z_app. change (charge t1 user <$> [c]) with [charge t1 user c].
  rewrite sum_list_Z_cons. change (sum_list_Z []) with 0.
  rewrite (charge_sizes t t1) by done. rewrite (sum_ext_in (charge t1 user) (charge t user)); [lia|]. intros m _. by apply charge_sizes.
Qed.

(** ** The calls *)

(** A copy into a mailbox of the user who pays for it. *)
Lemma books_copy t m x to msg user n : books t -> message_of t msg = Some m -> mailbox_of t to = Some x -> x_owner x = user ->
  0 <= m_phys m < 2 ^ 31 -> has_phys t (m_phys m) = true -> m_status m < MESSAGE_STATUS_DELETE -> size_of t m <> 0 ->
  wp (db_copymsg msg to user n) t (fun t' _ => books t').
Proof.
  intros B Hm Hx Hu Hp Hh Hs Hz. pose proof B as [Wa X L Bx Sz].
  assert (kept_phys m = m_phys m) as Ek by (unfold kept_phys; rewrite to_int32_id by lia; apply wrap64_id; lia).
  apply (wp_copymsg t m); [done|done|by eexists|by rewrite Ek|done|]. unfold copy_result.
  destruct ((0 <? _) && _) eqn:Eo; [done|]. intros t1 E1. apply (books_bill _ _ t).
  - done.
  - by rewrite <- (users_seq _ _ E1).
  - by apply (f_equal delivery_user_idnr) in E1.
  - intros v. rewrite <- (usage_account _ _ v (account_seq _ _ E1)).
    rewrite (usage_app t (add_copy t m to msg) (copy_of m to msg (fresh_id (m_id <$> messages t)))) by done.
    assert (charge t v (copy_of m to msg (fresh_id (m_id <$> messages t))) = if v =? user then size_of t m else 0) as ->.
    { unfold charge, owned_by, size_of. simpl. rewrite Hx, Hu, Ek, (proj2 (Z.ltb_lt _ _)) by done. rewrite andb_true_r, Z.eqb_sym. by destruct (v =? user). }
    destruct (v =? user) eqn:Ev; [apply Z.eqb_eq in Ev as ->|]; lia.
  - intros u Hin Eu _ Hmax. subst user. rewrite <- Eu in Eo. unfold over_quota in Eo. rewrite (user_found t u) in Eo by done. simpl in Eo.
    rewrite (proj2 (Z.ltb_lt _ _)) in Eo by done. apply Z.ltb_ge in Eo. lia.
  - apply (boxed_account (add_copy t m to msg)); [by apply account_seq|]. unfold boxed in *. apply Forall_app_2; [done|].
    apply Forall_singleton. simpl. apply list_elem_of_fmap. exists x. unfold mailbox_of in Hx.
    destruct (find_some _ _ Hx) as [Hi Ei%Z.eqb_eq]. split; [done|by apply list_elem_of_In].
  - by apply (f_equal messagesize) in E1.
Qed.

(** Without the messages of a mailbox. *)
Definition in_box (id : Z) (m : message_row) : bool := m_mailbox m =? id.
Definition emptied (id : Z) (only_empty : bool) (t : mail_tables) : mail_tables :=
  let t1 := drop_messages (in_box id) t in
  if only_empty then t1
  else t1 <| mailboxes ::= filter (fun x => x_id x <> id) |> <| subscription ::= filter (fun s => s.2 <> id) |> <| rights ::= filter (fun r => r.1.2 <> id) |>.
Lemma mailbox_kept id k (l : list mailbox_row) : k <> id ->
  find (fun x => x_id x =? k) (filter (fun x => x_id x <> id) l) = find (fun x => x_id x =? k) l.
Proof.
  intros Hk. induction l as [|x l IH]; [done|]. rewrite filter_cons. case_decide as E; simpl; [by rewrite IH|].
  rewrite IH. destruct (x_id x =? k) eqn:Ex; [|done]. apply Z.eqb_eq in Ex. congruence.
Qed.
Lemma owned_emptied id b t user k : k <> id -> owned_by (emptied id b t) user k = owned_by t user k.
Proof. intros Hk. unfold owned_by, mailbox_of, emptied. destruct b; [done|]. simpl. by rewrite mailbox_kept. Qed.
Lemma size_in_box id t user : owned_by t user id = true ->
  counted t (fun m => (m_mailbox m =? id) && true) = sum_list_Z (charge t user <$> filter (fun m => in_box id m = true) (messages t)).
Proof.
  intros Ho. rewrite counted_sum. induction (messages t) as [|m l IH]; [done|]. rewrite filter_cons, fmap_cons, sum_list_Z_cons, IH.
  rewrite andb_true_r. case_decide as E; unfold in_box in E.
  - rewrite E, fmap_cons, sum_list_Z_cons. apply Z.eqb_eq in E. unfold charge at 2. by rewrite E, Ho.
  - apply not_true_is_false in E. by rewrite E.
Qed.
Lemma usage_emptied id b t user v : owned_by t user id = true ->
  usage (emptied id b t) v = if v =? user then usage t user - counted t (fun m => (m_mailbox m =? id) && true) else usage t v.
Proof.
  intros Ho. assert (usage (emptied id b t) v = sum_list_Z (charge t v <$> filter (fun m => in_box id m = false) (messages t))) as ->.
  { rewrite usage_sum. replace (messages (emptied id b t)) with (filter (fun m => in_box id m = false) (messages t)) by by destruct b.
    apply sum_ext_in. intros m [Hm _]%list_elem_of_filter. apply Z.eqb_neq in Hm. unfold charge. rewrite owned_emptied by done.
    unfold size_of. by destruct b. }
  rewrite (size_in_box id t user Ho). destruct (v =? user) eqn:E.
  - apply Z.eqb_eq in E as ->. rewrite usage_sum, (sum_split (charge t user) (in_box id) (messages t)). lia.
  - rewrite (usage_sum t v), (sum_split (charge t v) (in_box id) (messages t)). rewrite (sum_ext_in (charge t v) (fun _ => 0) (filter (fun m => in_box id m = true) _)).
    + assert (forall l : list message_row, sum_list_Z ((fun _ => 0) <$> l) = 0) as ->; [|lia].
      intros l. induction l as [|y l IH]; [done|]. by rewrite fmap_cons, sum_list_Z_cons, IH.
    + intros m [Hm%Z.eqb_eq _]%list_elem_of_filter. unfold charge. rewrite Hm. unfold owned_by in Ho |- *.
      destruct (mailbox_of t id) as [x|]; [|done]. apply Z.eqb_eq in Ho. by rewrite Ho, Z.eqb_sym, E.
Qed.
Lemma boxed_emptied id b t : boxed t -> boxed (emptied id b t).
Proof.
  unfold boxed. intros Bx. replace (messages (emptied id b t)) with (filter (fun m => in_box id m = false) (messages t)) by by destruct b.
  apply Forall_forall. intros m [Hm Hin]%list_elem_of_filter. rewrite Forall_forall in Bx. specialize (Bx m Hin).
  destruct b; [done|]. simpl. apply list_elem_of_fmap in Bx as (x & Ex & Hx). apply list_elem_of_fmap. exists x. split; [done|].
  apply list_elem_of_filter. split; [|done]. apply Z.eqb_neq in Hm. congruence.
Qed.
Lemma books_emptied id b t x : books t -> mailbox_of t id = Some x ->
  let size := counted t (fun m => (m_mailbox m =? id) && true) in
  books (bill (x_owner x) (fun c => if size <=? c then c - size else 0) (emptied id b t)).
Proof.
  intros B Hx size. pose proof B as [Wa X L Bx Sz].
  assert (owned_by t (x_owner x) id = true) as Ho by (unfold owned_by; rewrite Hx; apply Z.eqb_refl).
  assert (0 <= size <= usage t (x_owner x)) as Hsz.
  { unfold size. rewrite (size_in_box id t _ Ho), (usage_sum t), (sum_split (charge t (x_owner x)) (in_box id) (messages t)).
    assert (forall l, 0 <= sum_list_Z (charge t (x_owner x) <$> l)) as Hn; [|pose proof (Hn (filter (fun m => in_box id m = true) (messages t)));
      pose proof (Hn (filter (fun m => in_box id m = false) (messages t))); lia].
    intros l. apply sum_list_Z_nonneg, Forall_fmap, Forall_true. intros m. by apply charge_nonneg. }
  apply (books_bill _ _ t); [done|by destruct b|by destruct b| | |by apply boxed_emptied|by destruct b].
  - intros v. rewrite (usage_emptied id b t (x_owner x) v Ho). fold size. destruct (v =? x_owner x); [|done].
    by rewrite (proj2 (Z.leb_le _ _)) by lia.
  - intros u Hin Eu Hd Hmax. unfold within_limits in L. rewrite Forall_forall in L.
    assert (curmail_size u <= maxmail_size u) by (apply L; congruence || done). destruct (size <=? _); lia.
Qed.

Lemma wp_load_permission id t (Q : mail_tables -> Z -> Prop) :
  Q t (if id =? 0 then 0 else default 0 (x_permission <$> mailbox_of t id)) -> wp (load_permission id) t Q.
Proof. intros HQ. unfold load_permission. destruct (id =? 0); repeat wp_step; [exact HQ|]. cbn. by apply wp_ret. Qed.
Lemma wp_delete_mailbox id b t (Q : mail_tables -> Z -> Prop) : accounts_wf t -> (forall r, Q t r) ->
  (forall x, mailbox_of t id = Some x ->
    let size := counted t (fun m => (m_mailbox m =? id) && true) in
    Q (bill (x_owner x) (fun c => if size <=? c then c - size else 0) (emptied id b t)) DM_SUCCESS) ->
  wp (db_delete_mailbox id b true) t Q.
Proof.
  intros Wa Hr HQ. unfold db_delete_mailbox, db_get_mailbox_owner. repeat wp_step. destruct (mailbox_of t id) as [x|] eqn:Ex; simpl.
  2: { repeat wp_step. apply Hr. }
  change ((if x_owner x =? 0 then 0 else 1) =? DM_EQUERY) with ((if x_owner x =? 0 then 0 else 1) =? -1).
  destruct (x_owner x =? 0); simpl; [by repeat wp_step|]. unfold db_get_mailbox_size, mailbox_is_writable. repeat wp_step.
  apply wp_load_permission. repeat wp_step. destruct (negb _); [by repeat wp_step|]. apply wp_bind.
  assert (wp (if b then mailbox_empty id else mailbox_delete id) t (fun t' r => t' = emptied id b t /\ r = 1)) as Hd
    by (unfold mailbox_empty, mailbox_delete, as_int; destruct b; by repeat wp_step).
  eapply wp_mono; [exact Hd|]. intros t' r [-> ->]. cbn. apply wp_bind, wp_bill; [by apply (wf_same t); [|destruct b..]|].
  apply wp_ret. by apply HQ.
Qed.
Lemma books_delete id b t : books t -> wp (db_delete_mailbox id b true) t (fun t' _ => books t').
Proof. intros B. apply wp_delete_mailbox; [apply B|done|]. intros x Hx. by apply books_emptied. Qed.

(** A new mailbox is empty. *)
Lemma find_app_hit {A} (p : A -> bool) (l k : list A) : existsb p l = true -> find p (l ++ k) = find p l.
Proof. induction l as [|x l IH]; [done|]. simpl. destruct (p x); [done|]. exact IH. Qed.
Lemma books_new t x : books t -> books (t <| mailboxes ::= fun l => l ++ [x] |>).
Proof.
  intros [Wa X L Bx Sz]. set (t1 := t <| mailboxes ::= _ |>).
  assert (forall v, usage t1 v = usage t v) as Hu.
  { intros v. rewrite !usage_sum. apply sum_ext_in. intros m Hm. unfold boxed in Bx. rewrite Forall_forall in Bx. specialize (Bx m Hm).
    unfold charge. replace (owned_by t1 v (m_mailbox m)) with (owned_by t v (m_mailbox m)); [done|]. unfold owned_by, mailbox_of. simpl.
    rewrite find_app_hit; [done|]. apply existsb_exists. apply list_elem_of_fmap in Bx as (y & Ey & Hy). exists y.
    split; [by apply list_elem_of_In|]. by apply Z.eqb_eq. }
  split; [by apply (wf_same t)| |exact L| |exact Sz].
  - unfold quota_exact in *. eapply Forall_impl; [exact X|]. simpl. intros u Hx Hd. rewrite Hu. by apply Hx.
  - eapply Forall_impl; [exact Bx|]. simpl. intros m Hm. rewrite fmap_app. apply elem_of_app. by left.
Qed.
Lemma books_create name owner t : books t -> wp (db_createmailbox name owner) t (fun t' _ => books t').
Proof.
  intros B. unfold db_createmailbox. destruct (_ && _); [by apply wp_ret|].
  assert (forall n, wp (r ← committed (insert_mailbox n owner) 0; mret (if r.1 : bool then DM_SUCCESS else DM_EQUERY, r.2)) t (fun t' _ => books t')) as Hn.
  { intros n. apply wp_bind. unfold insert_mailbox. 
    destruct (existsb (fun x => (x_owner x =? owner) && streq (x_name x) n) (mailboxes t) || negb (bool_decide (is_Some (user_of t owner)))) eqn:E.
    - apply wp_committed_broken; [by rewrite E|]. by apply wp_ret.
    - apply wp_committed. eapply swp_checked; [by rewrite E|]. apply wp_ret. by apply books_new. }
  destruct (mailbox_remove_namespace name); [by apply wp_ret|apply Hn..].
Qed.
Lemma books_rename id name t : books t -> wp (db_setmailboxname id name) t (fun t' _ => books t').
Proof.
  intros B. unfold db_setmailboxname. destruct (name_taken t id name) eqn:E.
  - apply wp_attempt_broken; [by rewrite E|done].
  - apply wp_attempt. eapply swp_checked; [by rewrite E|]. apply (books_same t); [done..|]. unfold account. simpl. f_equal. f_equal.
    rewrite <- list_fmap_compose. apply list_fmap_ext. intros i x _. simpl. by destruct (x_id x =? id).
Qed.
(** All messages of a mailbox, to another one of the same user. *)
Definition moved (to from : Z) (m : message_row) : message_row := if m_mailbox m =? from then m <| m_mailbox := to |> else m.
Lemma moved_size t to from m : size_of t (moved to from m) = size_of t m.
Proof. unfold moved. by destruct (_ =? _). Qed.
Lemma books_moved t to from x y : books t -> mailbox_of t to = Some x -> mailbox_of t from = Some y -> x_owner x = x_owner y ->
  books (t <| messages ::= fmap (moved to from) |>).
Proof.
  intros [Wa X L Bx Sz] Hx Hy Ho. set (t1 := t <| messages ::= _ |>).
  assert (forall v, usage t1 v = usage t v) as Hu.
  { intros v. rewrite !usage_sum. change (messages t1) with (moved to from <$> messages t). rewrite <- list_fmap_compose. apply sum_ext_in.
    intros m _. unfold compose, charge. change (size_of t1) with (size_of t). change (owned_by t1) with (owned_by t). rewrite moved_size.
    unfold moved. destruct (m_mailbox m =? from) eqn:E; [|done]. apply Z.eqb_eq in E. unfold owned_by. simpl. by rewrite E, Hx, Hy, Ho. }
  split; [by apply (wf_same t)| |exact L| |exact Sz].
  - unfold quota_exact in *. eapply Forall_impl; [exact X|]. simpl. intros u Hx' Hd. rewrite Hu. by apply Hx'.
  - unfold boxed. apply Forall_fmap. eapply Forall_impl; [exact Bx|]. simpl. intros m Hm. unfold moved.
    destruct (_ =? from); [|done]. unfold mailbox_of in Hx. destruct (find_some _ _ Hx) as [Hi Ei%Z.eqb_eq]. simpl. rewrite <- Ei.
    by apply list_elem_of_fmap_2, list_elem_of_In.
Qed.
Lemma books_move t to from x y : books t -> mailbox_of t to = Some x -> mailbox_of t from = Some y -> x_owner x = x_owner y ->
  wp (db_movemsg to from) t (fun t' _ => books t').
Proof.
  intros B Hx Hy Ho. unfold db_movemsg.
  assert (is_Some (mailbox_of t to)) as Hi by (rewrite Hx; by eexists).
  repeat wp_step. eapply swp_checked; [by rewrite (bool_decide_eq_true_2 _ Hi), orb_true_r|].
  rewrite (proj2 (Z.eqb_neq _ DM_EQUERY)) by (change DM_EQUERY with (-1); lia). apply wp_bind.
  pose proof (books_moved t to from x y B Hx Hy Ho) as B1. destruct (0 <? _); [|by apply wp_ret, wp_ret].
  apply wp_bind, wp_seq_update. intros t2 s2 E2. apply wp_bind, wp_seq_update. intros t3 s3 E3. apply wp_ret, wp_ret.
  apply (books_seq t2); [|done]. by apply (books_seq _ _ B1).
Qed.
(** The usage of a user is looked up and stored. *)
Lemma books_rebuild_user user t : books t -> wp (dm_quota_rebuild_user user) t (fun t' _ => books t').
Proof.
  intros B. pose proof B as [Wa X L _ _]. unfold dm_quota_rebuild_user, dm_quota_user_set. repeat wp_step. apply wp_bill; [done|].
  apply wp_ret. apply (books_bill _ _ t); [done|done|done| | |by apply B|done].
  - intros v. destruct (v =? user) eqn:E; [|done]. by apply Z.eqb_eq in E as ->.
  - intros u Hin Eu Hd Hm. unfold within_limits, quota_exact in *. rewrite Forall_forall in L, X. rewrite <- Eu, <- X; [|done|congruence].
    by apply L; congruence || done.
Qed.

(** ** One call after the other *)
Inductive mail_call :=
  | CopyMessage (msg to user : Z)
  | DeleteMailbox (id : Z) (only_empty : bool)
  | CreateMailbox (name : cstr) (owner : Z)
  | RenameMailbox (id : Z) (name : cstr)
  | MoveMessages (to from : Z)
  | RebuildUser (user : Z)
  | NextSequence (mailbox message : Z).
Definition call (c : mail_call) : DB unit :=
  match c with
  | CopyMessage msg to user => db_copymsg msg to user 0;; mret tt
  | DeleteMailbox id only_empty => db_delete_mailbox id only_empty true;; mret tt
  | CreateMailbox name owner => db_createmailbox name owner;; mret tt
  | RenameMailbox id name => db_setmailboxname id name;; mret tt
  | MoveMessages to from => db_movemsg to from;; mret tt
  | RebuildUser user => dm_quota_rebuild_user user;; mret tt
  | NextSequence mailbox message => db_mailbox_seq_update mailbox message;; mret tt
  end.
(** A copy is paid for by the owner of the mailbox, and is of a message that is not deleted and
    has a physical message whose id fits an [int]; messages move within a user's mailboxes. *)
Definition permitted (t : mail_tables) (c : mail_call) : Prop :=
  match c with
  | CopyMessage msg to user => exists m x, message_of t msg = Some m /\ mailbox_of t to = Some x /\ x_owner x = user /\
      0 <= m_phys m < 2 ^ 31 /\ has_phys t (m_phys m) = true /\ m_status m < MESSAGE_STATUS_DELETE /\ size_of t m <> 0
  | MoveMessages to from => exists x y, mailbox_of t to = Some x /\ mailbox_of t from = Some y /\ x_owner x = x_owner y
  | _ => True
  end.
Inductive calls : mail_tables -> list mail_call -> mail_tables -> Prop :=
  | calls_nil t : calls t [] t
  | calls_cons t t1 t' c l : permitted t c -> runs (call c) t t1 tt -> calls t1 l t' -> calls t (c :: l) t'.
Lemma books_call t c : books t -> permitted t c -> wp (call c) t (fun t' _ => books t').
Proof.
  intros B P. assert (forall A (f : DB A), wp f t (fun t' _ => books t') -> wp (f;; mret tt) t (fun t' _ => books t')) as Hs.
  { intros A f Hf. apply wp_bind. eapply wp_mono; [exact Hf|]. intros t' r B'. by apply wp_ret. }
  destruct c; apply Hs.
  - destruct P as (m & x & Hm & Hx & Hu & Hp & Hh & Hd & Hz). by apply (books_copy t m x).
  - by apply books_delete.
  - by apply books_create.
  - by apply books_rename.
  - destruct P as (x & y & Hx & Hy & Ho). by apply (books_move t to from x y).
  - by apply books_rebuild_user.
  - apply wp_seq_update. intros t' s E. by apply (books_seq t).
Qed.

(** C8. From books that are exact - the size kept for every user is that of the messages in the
    user's mailboxes and no limit is exceeded - and as long as no statement fails, calls that are
    [permitted] keep them exact: copies that the owner of the mailbox pays for, of a message that
    is not deleted and whose physical message is there with an id that fits an int, moves within
    one owner, and every deletion, creation, renaming and rebuilding; the next permitted call
    returns. *)
Theorem quota_kept t l t' : books t -> calls t l t' ->
  quota_exact t' /\ within_limits t' /\ forall c, permitted t' c -> exists t'', runs (call c) t' t'' tt.
Proof.
  intros B C. assert (books t') as B'.
  { induction C as [|t t1 t' c l P R C IH]; [done|]. apply IH. by apply (wp_run (call c) t t1 tt (fun t' _ => books t') (books_call t c B P)). }
  split; [apply B'|]. split; [apply B'|]. intros c P. destruct (books_call t' c B' P) as (t2 & [] & R & _). by exists t2.
Qed.

(** ** Rebuilding *)
Definition but_size (u : user_row) : user_row := u <| curmail_size := 0 |>.
Lemma bill_but_size user f t : but_size <$> users (bill user f t) = but_size <$> users t.
Proof.
  unfold bill. destruct (_ =? user); [done|]. simpl. rewrite <- list_fmap_compose. apply list_fmap_ext. intros i u _. simpl. by destruct (u_id u =? user).
Qed.
Lemma bill_usage user f t v : usage (bill user f t) v = usage t v.
Proof. apply usage_account, bill_account. Qed.
Lemma wp_rebuild_users l r t (Q : mail_tables -> Z -> Prop) : accounts_wf t -> Forall (fun k => k.2 = usage t k.1) l ->
  Forall (fun u => u_id u <> delivery_id t -> curmail_size u = usage t (u_id u) \/ (u_id u, usage t (u_id u)) ∈ l) (users t) ->
  (forall t', quota_exact t' -> accounts_wf t' -> account t' = account t -> but_size <$> users t' = but_size <$> users t -> Q t' r) ->
  wp (rebuild_users l r) t Q.
Proof.
  revert t. induction l as [|[id size] l IH]; intros t Wa Hl Hu HQ; cbn [rebuild_users].
  - apply wp_ret, HQ; try done. eapply Forall_impl; [exact Hu|]. simpl. intros u Hx Hd. destruct (Hx Hd) as [E|E]; [done|by apply elem_of_nil in E].
  - apply Forall_cons in Hl as [Es Hl]. simpl in Es. subst size. apply wp_bind, wp_bill; [done|]. cbn [Z.eqb]. apply IH.
    + by apply bill_wf.
    + eapply Forall_impl; [exact Hl|]. simpl. intros k E. by rewrite bill_usage.
    + rewrite bill_delivery. rewrite Forall_forall in Hu. apply Forall_forall. intros u Hin Hd. rewrite bill_usage. unfold bill in Hin.
      destruct (delivery_id t =? id) eqn:Ed.
      * apply Z.eqb_eq in Ed. destruct (Hu u Hin Hd) as [E|E]; [by left|]. apply elem_of_cons in E as [E|E]; [|by right]. injection E as E. congruence.
      * simpl in Hin. apply list_elem_of_fmap in Hin as (v & -> & Hv). destruct (u_id v =? id) eqn:Ev; simpl in Hd |- *.
        { apply Z.eqb_eq in Ev. left. by rewrite Ev. }
        apply Z.eqb_neq in Ev. destruct (Hu v Hv Hd) as [E|E]; [by left|]. apply elem_of_cons in E as [E|E]; [|by right]. injection E as E. done.
    + intros t' X' W' Ea Eu. apply HQ; [done|done|by rewrite Ea, bill_account|by rewrite Eu, bill_but_size].
Qed.

(** C10. When no statement fails and the delivery user exists, a rebuild of the quota stores the usage
    of every user but the delivery user, whatever was stored, changes nothing else of users,
    mailboxes and messages, and answers with the number of users that were wrong. *)
Theorem quota_rebuilt t : accounts_wf t ->
  wp dm_quota_rebuild t (fun t' r => quota_exact t' /\ r = Z.of_nat (length (wrong_quota t)) /\
    account t' = account t /\ but_size <$> users t' = but_size <$> users t).
Proof.
  intros Wa. unfold dm_quota_rebuild. repeat wp_step.
  assert (Forall (fun u => curmail_size u = usage t (u_id u) \/ (u_id u, usage t (u_id u)) ∈ wrong_quota t) (users t)) as Hu.
  { apply Forall_forall. intros u Hin. destruct (decide (curmail_size u = usage t (u_id u))) as [E|E]; [by left|right].
    unfold wrong_quota. apply list_elem_of_fmap. exists u. split; [done|]. apply list_elem_of_filter. by split; [congruence|]. }
  assert (Forall (fun k => k.2 = usage t k.1) (wrong_quota t)) as Hl by (apply Forall_fmap, Forall_true; done).
  destruct (wrong_quota t) as [|k l] eqn:El.
  - apply wp_ret. split; [|done]. eapply Forall_impl; [exact Hu|]. simpl. intros u [E|E] _; [done|by apply elem_of_nil in E].
  - apply wp_rebuild_users; [done|by apply Forall_reverse| |done]. eapply Forall_impl; [exact Hu|]. simpl. intros u [E|E] _; [by left|right].
    by apply elem_of_reverse.
Qed.
End quota.
