(* ===== verification/MailDeliverFacts.v ===== *)
(** * dm_message.c: a message that is stored and delivered

    When no statement fails, a message that is stored and delivered to a mailbox has a row there
    whose text is the one that its tree of MIME objects stands for. *)
From S2P Require Import Prelude CLib GLib Tree ClientBase ClientSession MiscText GListUtil MailboxState Acl Auth ImapText SqlFragment SqlState.
From S2P Require Import MailboxName Mime MimeFacts MessageStore MessageStoreFacts MailStore MailDeliver MailStoreFacts MailQuota.

(** ** Names that stand for themselves *)
Definition plain_name (name : cstr) : Prop :=
  mailbox_path name /\ has_namespace NAMESPACE_USER name = false /\ has_namespace NAMESPACE_PUBLIC name = false.
Lemma trim_plain (name : cstr) : mailbox_path name -> trim_name name = name.
Proof.
  intros (Hn & Hh & Hl). apply path_chars in Hn as [Hne _]. destruct name as [|c s]; [done|]. unfold trim_name.
  assert (strip_slashes s = s) as ->.
  { apply strip_slashes_id. destruct s as [|x s]; [done|]. by rewrite last_cons_cons in Hl. }
  assert (leading_slashes (c :: s) = 0%nat) as -> by (simpl; rewrite bool_decide_eq_false_2; [done|by intros ->; apply Hh]).
  rewrite drop_0, Nat.sub_0_r, drop_all. by rewrite app_nil_r.
Qed.
Lemma plain_read (name : cstr) : plain_name name -> mailbox_remove_namespace name = Name name None None.
Proof. intros ((_ & _ & Hl) & Hu & Hp). unfold mailbox_remove_namespace. rewrite strip_slashes_id by done. by rewrite Hu, Hp. Qed.

Section found.
Context `{SqlConf} `{LikeOps} `{GTreeOps} `{GLibStr} `{MailConf}.
Definition box_named (t : mail_tables) (name : cstr) (owner : Z) : option mailbox_row :=
  find (fun x => (x_owner x =? owner) && mailbox_matches (mailbox_match_new name) (x_name x)) (mailboxes t).
Lemma wp_findmailbox name owner t (Q : mail_tables -> option Z -> Prop) : plain_name name ->
  Q t (let id := from_option x_id 0 (box_named t name owner) in if id =? 0 then None else Some id) -> wp (db_findmailbox name owner) t Q.
Proof.
  intros P HQ. unfold db_findmailbox. destruct name as [|c s]; [by destruct P as [[]]|]. rewrite trim_plain by apply P. rewrite plain_read by done.
  unfold db_findmailbox_owner. by repeat wp_step.
Qed.
Lemma wp_find_create name source owner t x (Q : mail_tables -> Z * Z -> Prop) : plain_name name -> box_named t name owner = Some x -> x_id x <> 0 ->
  Q t (DM_SUCCESS, x_id x) -> wp (db_find_create_mailbox name source owner) t Q.
Proof.
  intros P Hx Hi HQ. unfold db_find_create_mailbox, find_or_create. apply wp_bind, wp_findmailbox; [done|]. rewrite Hx. simpl.
  rewrite (proj2 (Z.eqb_neq _ 0)) by done. by apply wp_ret.
Qed.
Lemma named_box t name owner x : NoDup (x_id <$> mailboxes t) -> box_named t name owner = Some x ->
  x_owner x = owner /\ mailbox_of t (x_id x) = Some x.
Proof.
  intros W E. apply find_some in E as [Hi [Ho%Z.eqb_eq _]%andb_true_iff]. split; [done|]. unfold mailbox_of.
  apply list_elem_of_In in Hi. induction (mailboxes t) as [|y l IH]; [by apply elem_of_nil in Hi|].
  rewrite fmap_cons in W. apply NoDup_cons in W as [Hy W]. simpl. apply elem_of_cons in Hi as [->|Hi]; [by rewrite Z.eqb_refl|].
  rewrite (proj2 (Z.eqb_neq _ _)); [by apply IH|]. intros E. apply Hy. rewrite E. by apply list_elem_of_fmap_2.
Qed.
End found.

Class DeliverLaws `{DeliverEnv} := {
  (** The caches of header values are tables of their own. *)
  cache_headers_calm m t : exists r, 0 <= r /\ runs (dbmail_message_cache_headers m) t t r;
  cache_envelope_calm m t : runs (dbmail_message_cache_envelope m) t t tt;
}.

Section deliver.
Context `{SqlConf} `{LikeOps} `{GTreeOps} `{GLibStr} `{MailConf} `{StoreConf} `{Digests} `{TypeParser} `{DeliverLaws}.

(** ** Storing *)
Definition next_phys (t : mail_tables) : Z := fresh_id (fst <$> physmessage (mime t)).
Definition next_message (t : mail_tables) : Z := fresh_id (m_id <$> messages t).
Definition add_message (t : mail_tables) (date : cstr) (m : message_row) : mail_tables :=
  t <| mime ::= fun p => p <| physmessage ::= fun l => l ++ [(next_phys t, date)] |> |> <| messages ::= fun l => l ++ [m] |>.
Definition new_row (t : mail_tables) (mailbox : Z) (unique_id : cstr) (status : Z) : message_row :=
  mkrow (next_message t) mailbox (next_phys t) [0; 0; 0; 0; 0; 1] unique_id status 0.
Definition with_ids (t : mail_tables) (self : mail_message) : mail_message :=
  (self <| counters ::= fun m => m <| msg_id := next_phys t |> |>) <| msg_idnr := next_message t |>.
Lemma insert_rows_runs self mailbox unique_id t : is_Some (mailbox_of t mailbox) ->
  runs (insert_rows self mailbox unique_id) t (add_message t (internal_date self) (new_row t mailbox unique_id MESSAGE_STATUS_INSERT))
    (DM_SUCCESS, with_ids t self).
Proof.
  intros [x Hx]. unfold runs, insert_rows. rewrite (bind_calm _ _ t t tt) by done. unfold insert_physmessage. rewrite exec_calm. cbn [fst snd].
  unfold insert_message. erewrite checked_calm; [reflexivity|].
  cbn [m_mailbox m_phys]. change (mailbox_of _ mailbox) with (mailbox_of t mailbox). rewrite Hx. simpl.
  by rewrite existsb_app; simpl; rewrite Z.eqb_refl, orb_true_r.
Qed.

Lemma message_of_update id f t : (forall m, m_id (f m) = m_id m) -> message_of (MailStore.update_message id f t) id = f <$> message_of t id.
Proof.
  intros Hf. unfold message_of, MailStore.update_message. simpl. rewrite find_fmap.
  rewrite (find_same _ (fun m => m_id m =? id)) by (intros m; destruct (m_id m =? id) eqn:E; [by rewrite Hf|done]).
  destruct (find _ _) as [m|] eqn:E; [|done]. apply find_some in E as [_ E]. simpl. by rewrite E.
Qed.
(** A message with its size. *)
Definition sized (t : mail_tables) (phys size crlf : Z) : mail_tables :=
  t <| messagesize ::= <[phys := size]> |> <| rfcsize ::= <[phys := crlf]> |>.
Lemma wp_update_message_row self t m x (Q : mail_tables -> Z -> Prop) :
  stream_size self <> 0 -> crlf_size self <> 0 -> accounts_wf t ->
  message_of t (msg_idnr self) = Some m -> mailbox_of t (m_mailbox m) = Some x -> x_owner x = delivery_id t ->
  Q ((MailStore.update_message (msg_idnr self) (fun m => m <| m_status := MESSAGE_STATUS_NEW |>) (sized t (physid self) (stream_size self) (crlf_size self)))
       <| delivery_user_idnr := Some (delivery_id t) |>) 0 ->
  wp (_update_message self) t Q.
Proof.
  intros Hs Hc Wa Hm Hx Ho HQ. unfold _update_message. rewrite (proj2 (Z.eqb_neq _ 0)) by done. rewrite (proj2 (Z.eqb_neq (crlf_size _) 0)) by done.
  cbn [orb]. unfold db_set_message_status, as_int, db_get_useridnr. repeat (wp_step; cbn [negb Z.eqb]). set (t1 := MailStore.update_message _ _ (sized t _ _ _)) in HQ.
  lazymatch goal with |- context [message_of ?s (msg_idnr self)] => change s with t1 end.
  assert (message_of t1 (msg_idnr self) = Some (m <| m_status := MESSAGE_STATUS_NEW |>)) as Em.
  { unfold t1. rewrite message_of_update by done. by change (message_of (sized _ _ _ _)) with (message_of t); rewrite Hm. }
  rewrite Em. change (default 0 _) with (default 0 (x_owner <$> mailbox_of t (m_mailbox m))). rewrite Hx. simpl default. rewrite Ho.
  apply wp_bill; [by apply (wf_same t)|]. apply wp_ret. unfold bill. change (delivery_id t1) with (delivery_id t). rewrite Z.eqb_refl.
  exact HQ.
Qed.

(** What is needed of the tables and the message: the delivery user has an inbox, ids are unique
    and refer to rows, and the tree is one that is stored as it is. *)
Record storable (t : mail_tables) (self : mail_message) (x : mailbox_row) : Prop := {
  sb_accounts : accounts_wf t;
  sb_boxes : NoDup (x_id <$> mailboxes t);
  sb_inbox : box_named t INBOX (delivery_id t) = Some x;
  sb_inbox_id : x_id x <> 0;
  sb_parts : parts_wf (mime t);
  sb_rows : Forall (fun r => p_phys r ∈ fst <$> physmessage (mime t)) (partlists (mime t));
  sb_object : good_object (content self) 0;
  sb_faithful : faithful (mime t) (snd <$> object_blobs (content self) 0);
  sb_depth : part_depth (counters self) = 0%nat;
  sb_size : stream_size self <> 0;
  sb_crlf : crlf_size self <> 0;
  sb_phys : next_phys t < 2 ^ 31;         (** the next id fits an [int] *)
}.
Definition after_store (t : mail_tables) (self : mail_message) (x : mailbox_row) (p : mime_tables) : mail_tables :=
  t <| messages ::= fun l => l ++ [new_row t (x_id x) (create_unique_id (delivery_id t)) MESSAGE_STATUS_NEW] |>
    <| messagesize ::= <[next_phys t := stream_size self]> |> <| rfcsize ::= <[next_phys t := crlf_size self]> |>
    <| delivery_user_idnr := Some (delivery_id t) |> <| mime := p |>.
Lemma update_new (f : message_row -> message_row) (l : list message_row) (m : message_row) : m_id m = fresh_id (m_id <$> l) ->
  (fun y => if m_id y =? m_id m then f y else y) <$> (l ++ [m]) = l ++ [f m].
Proof.
  intros E. rewrite fmap_app. simpl. rewrite Z.eqb_refl. f_equal. rewrite <- (list_fmap_id l) at 2. apply list_fmap_ext. intros i y Hy.
  rewrite (proj2 (Z.eqb_neq _ _)); [done|]. pose proof (fresh_bound (m_id <$> l) (m_id y) (list_elem_of_fmap_2 _ _ _ (list_elem_of_lookup_2 _ _ _ Hy))). lia.
Qed.
Lemma inbox_plain : plain_name INBOX.
Proof. by vm_compute. Qed.
Lemma wp_insert self t x (Q : mail_tables -> Z * mail_message -> Prop) unique_id : storable t self x ->
  Q (add_message t (internal_date self) (new_row t (x_id x) unique_id MESSAGE_STATUS_INSERT)) (DM_SUCCESS, with_ids t self) ->
  wp (_message_insert self (delivery_id t) DBMAIL_TEMPMBOX unique_id) t Q.
Proof.
  intros S HQ. unfold _message_insert. apply wp_bind, (wp_find_create _ _ _ _ x); [apply inbox_plain|apply S|apply S|].
  cbn [fst snd]. change (DM_SUCCESS =? -1) with false. rewrite (proj2 (Z.eqb_neq _ 0)) by apply S. cbv iota.
  eexists _, _. split; [apply insert_rows_runs|done]. destruct (named_box t INBOX (delivery_id t) x) as [_ ->]; [apply S..|]. by eexists.
Qed.
(** The tables of parts behind the insertion. *)
Definition inserted (t : mail_tables) (self : mail_message) : mime_tables :=
  (mime t) <| physmessage ::= fun l => l ++ [(next_phys t, internal_date self)] |>.
Lemma stores_inserted self t x : storable t self x -> exists p' m',
  MessageStore.dm_message_store (content self) (mksdb (inserted t self) [], counters (with_ids t self)) = ((mksdb p' [], m'), false) /\
  msg_id m' = next_phys t /\ stored (snd <$> object_blobs (content self) 0) p' m' (object_blobs (content self) 0).
Proof.
  intros S. apply (stores_message (content self) (inserted t self) (counters (with_ids t self))); [|apply S|].
  - split; [|simpl; by rewrite existsb_app; simpl; rewrite Z.eqb_refl, orb_true_r| |apply S].
    + destruct (sb_parts _ _ _ S) as [W1 W2]. by split.
    + eapply Forall_impl; [apply (sb_rows _ _ _ S)|]. intros r Hr E. simpl in E. pose proof (fresh_bound _ _ Hr) as Hb.
      unfold next_phys in E. lia.
  - intros E. destruct (sb_faithful _ _ _ S E) as [F1 F2]. by split.
Qed.
Lemma update_inserted self t x :
  (MailStore.update_message (next_message t) (fun m => m <| m_status := MESSAGE_STATUS_NEW |>)
    (sized (add_message t (internal_date self) (new_row t (x_id x) (create_unique_id (delivery_id t)) MESSAGE_STATUS_INSERT)) (next_phys t) (stream_size self) (crlf_size self)))
    <| delivery_user_idnr := Some (delivery_id t) |> = after_store t self x (inserted t self).
Proof.
  unfold after_store, MailStore.update_message. pose proof (update_new (fun m => m <| m_status := MESSAGE_STATUS_NEW |>) (messages t)
    (new_row t (x_id x) (create_unique_id (delivery_id t)) MESSAGE_STATUS_INSERT) eq_refl) as E.
  destruct t. cbv [set_field] in *. simpl in *. by rewrite E.
Qed.
Lemma wp_store_parts self t p m (Q : mail_tables -> bool * mail_message -> Prop) :
  MessageStore.dm_message_store (content self) (mksdb (mime t) [], counters self) = ((mksdb p [], m), false) ->
  Q (t <| mime := p |>) (false, self <| counters := m |>) -> wp (store_parts_of self) t Q.
Proof.
  intros E HQ. unfold store_parts_of. apply wp_bind. exists (t <| mime := p |>), (m, false). split; [|by apply wp_ret].
  unfold runs, zoom. cbn [tables sql]. by rewrite E.
Qed.
Lemma wp_store self t x (Q : mail_tables -> Z * mail_message -> Prop) : storable t self x ->
  (forall p' m' r, 0 <= r -> msg_id m' = next_phys t -> stored (snd <$> object_blobs (content self) 0) p' m' (object_blobs (content self) 0) ->
    Q (after_store t self x p') (r, (with_ids t self) <| counters := m' |>)) ->
  wp (dbmail_message_store self) t Q.
Proof.
  intros S HQ. unfold dbmail_message_store, auth_user_exists. repeat wp_step. fold (delivery_id t).
  rewrite (proj2 (Z.eqb_neq _ 0)) by apply S. unfold STORE_ATTEMPTS. cbn [store_attempts]. apply wp_bind. cbn [attempt_step].
  apply wp_bind, (wp_insert self t x); [done|]. change (DM_SUCCESS <? 0) with false. cbv iota.
  destruct (named_box t INBOX (delivery_id t) x) as [Ho Hb]; [apply S..|].
  apply wp_bind, (wp_update_message_row _ _ (new_row t (x_id x) (create_unique_id (delivery_id t)) MESSAGE_STATUS_INSERT) x); [apply S|apply S| | |exact Hb|exact Ho|].
  - destruct (sb_accounts _ _ _ S) as [W1 W2 W3]. by split.
  - exact (find_fresh m_id (messages t) (new_row t (x_id x) (create_unique_id (delivery_id t)) MESSAGE_STATUS_INSERT) eq_refl).
  - cbv beta. lazymatch goal with |- wp _ ?s _ => replace s with (after_store t self x (inserted t self)) by (symmetry; exact (update_inserted self t x)) end.
    change (0 <? 0) with false. cbv iota. destruct (stores_inserted self t x S) as (p' & m' & E & Ei & St).
    apply wp_bind, (wp_store_parts _ _ p' m'); [exact E|]. cbv iota beta. apply wp_bind.
    set (self' := (with_ids t self) <| counters := m' |>). set (t' := (after_store t self x (inserted t self)) <| mime := p' |>).
    destruct (cache_headers_calm self' t') as (r & Hr & Rh). exists t', r. split; [exact Rh|].
    rewrite (proj2 (Z.ltb_ge r 0)) by done. apply wp_bind. exists t', tt. split; [apply cache_envelope_calm|]. apply wp_ret. cbv iota beta.
    apply wp_ret. by apply HQ.
Qed.

(** ** Delivering *)

(** The owner of a mailbox, without a row of rights, has every right in it. *)
Lemma owner_mapped t y : NoDup (x_id <$> mailboxes t) -> mailbox_of t (x_id y) = Some y -> owner_map t !! x_id y = Some (x_owner y).
Proof.
  intros W E. apply elem_of_list_to_map_1; [by rewrite <- list_fmap_compose|]. apply find_some in E as [Hi _].
  apply list_elem_of_fmap. exists y. split; [done|by apply list_elem_of_In].
Qed.
Lemma owner_has_right t y right owner perm name : NoDup (x_id <$> mailboxes t) -> mailbox_of t (x_id y) = Some y ->
  x_id y <> 0 -> x_owner y <> 0 -> rights t !! (x_owner y, x_id y) = None -> owner = 0 \/ owner = x_owner y ->
  perm = IMAPPERM_READWRITE \/ (perm = 0 /\ x_permission y = IMAPPERM_READWRITE) ->
  (@Acl.acl_has_right _ (mailbox_answers t) (user_names t) (state_of (x_id y) owner perm name) (x_owner y) right).2 = 1.
Proof.
  intros W Hy Hi Ho Hr Hown Hperm. set (DBI := mailbox_answers t). set (AN := user_names t).
  assert (forall p, (MailboxState_hasPermission (state_of (x_id y) owner p name) (x_owner y) (right_string right)).2 = 1) as Hp.
  { intros p. unfold MailboxState_hasPermission. cbn. rewrite (owner_mapped t y W Hy). cbn. destruct (owner =? 0) eqn:E; cbn.
    - rewrite (proj2 (Z.eqb_neq (x_owner y) 0) Ho). cbn. by rewrite Z.eqb_refl, Hr.
    - destruct Hown as [->| ->]; [done|]. by rewrite Z.eqb_refl, Hr. }
  assert (MailboxState_getPermission (state_of (x_id y) owner perm name) = (state_of (x_id y) owner IMAPPERM_READWRITE name, IMAPPERM_READWRITE)) as Ep.
  { unfold MailboxState_getPermission. cbn. destruct Hperm as [->|[-> Hp']]; [done|]. rewrite (proj2 (Z.eqb_neq (x_id y) 0)) by done. cbn.
    by rewrite Hy; cbn; rewrite Hp'. }
  unfold Acl.acl_has_right. rewrite Ep. change (IMAPPERM_READWRITE =? IMAPPERM_READWRITE) with true.
  destruct (needs_write right); cbn [negb]; [specialize (Hp IMAPPERM_READWRITE)|specialize (Hp perm)];
    destruct (MailboxState_hasPermission _ _ _) as [M test]; simpl in Hp; by subst test.
Qed.
(** The user's own mailbox, which can be written to. *)
Record deliverable (t : mail_tables) (self : mail_message) (user : Z) (mailbox : cstr) (y : mailbox_row) : Prop := {
  dl_name : plain_name mailbox;
  dl_box : box_named t mailbox user = Some y;
  dl_box_id : x_id y <> 0;
  dl_user : user <> 0;
  dl_rights : rights t !! (user, x_id y) = None;
  dl_writable : x_permission y = IMAPPERM_READWRITE;
  dl_new : message_id_header self = None \/ conf_suppress_duplicates = false;
}.
Lemma wp_deliver_to self t user mailbox source y again (Q : mail_tables -> Z * mail_message -> Prop) :
  NoDup (x_id <$> mailboxes t) -> deliverable t self user mailbox y -> wp (deliver_copy self user (x_id y)) t Q ->
  wp (deliver_to self user mailbox source again) t Q.
Proof.
  intros W D HQ. destruct (named_box t mailbox user y W (dl_box _ _ _ _ _ D)) as [Ho Hb]. unfold deliver_to.
  apply wp_bind, (wp_find_create _ _ _ _ y); [apply D..|]. cbn [fst snd]. change (negb (DM_SUCCESS =? 0)) with false. cbv iota.
  case_bool_decide; [exact HQ|]. unfold has_right_to_post, acl_has_right. apply wp_bind, wp_select. rewrite <- Ho.
  rewrite owner_has_right; [|done|done|apply D|rewrite Ho; apply (dl_user _ _ _ _ _ D)|rewrite Ho; apply (dl_rights _ _ _ _ _ D)|by left|].
  2: { right. split; [done|apply (dl_writable _ _ _ _ _ D)]. }
  cbn [Z.eqb]. by rewrite Ho.
Qed.
Lemma message_of_seq t t' id m : seq_only t t' -> message_of t id = Some m ->
  exists m', message_of t' id = Some m' /\ m' <| m_seq := 0 |> = m <| m_seq := 0 |>.
Proof.
  intros E Hm. assert (forall t, message_of (forget_seq t) id = (fun m => m <| m_seq := 0 |>) <$> message_of t id) as Hf.
  { intros s. unfold message_of. simpl. by rewrite find_fmap. }
  pose proof (Hf t) as E1. rewrite E, (Hf t'), Hm in E1. destruct (message_of t' id) as [m'|]; [|done]. exists m'. split; [done|]. by apply (inj Some) in E1.
Qed.
Lemma message_of_bill user f t id : message_of (bill user f t) id = message_of t id.
Proof. unfold bill. by destruct (_ =? user). Qed.
Lemma mime_bill user f t : mime (bill user f t) = mime t.
Proof. unfold bill. by destruct (_ =? user). Qed.
Lemma next_phys_pos t : 0 < next_phys t.
Proof. apply fresh_positive. Qed.

Definition too_large (t : mail_tables) (user size : Z) : bool :=
  let max := default 0 (maxmail_size <$> user_of t user) in (0 <? max) && over_quota t user size max.
(** The row of the copy that is delivered, and its text. *)
Definition arrived (t' : mail_tables) (self : mail_message) (box : Z) (msg : Z) : Prop :=
  exists row, message_of t' msg = Some row /\ m_mailbox row = box /\ m_status row = MESSAGE_STATUS_NEW /\ m_flags row = [0; 0; 0; 0; 0; 1] /\
    (_mime_retrieve (m_phys row) (mksdb (mime t') [])).2 = Retrieved (object_text (content self)).
Lemma copy_arrived t t1 row box msg m user f self : seq_only (add_copy t row box msg) t1 ->
  m_status row = MESSAGE_STATUS_NEW -> m_flags row = [0; 0; 0; 0; 0; 1] -> kept_phys row = msg_id m -> good_object (content self) 0 ->
  stored (snd <$> object_blobs (content self) 0) (mime t) m (object_blobs (content self) 0) ->
  arrived (bill user f t1) self box (fresh_id (m_id <$> messages t)).
Proof.
  intros E Hs Hf Hk G St. set (new := fresh_id _). set (c := copy_of row box msg new).
  destruct (message_of_seq _ _ new c E (find_fresh m_id (messages t) c eq_refl)) as (c' & Ec & Es). exists c'. rewrite message_of_bill, mime_bill.
  split; [done|]. split; [exact (f_equal m_mailbox Es)|]. split; [rewrite <- Hs; exact (f_equal m_status Es)|].
  split; [rewrite <- Hf; exact (f_equal m_flags Es)|]. rewrite (f_equal m_phys Es : m_phys c' = kept_phys row), Hk.
  rewrite <- (f_equal mime E : mime t = mime t1). by rewrite (retrieves_message (content self)).
Qed.
(** An id that is new behind some messages is new to those messages. *)
Lemma message_of_fresh t l : message_of t (fresh_id ((m_id <$> messages t) ++ l)) = None.
Proof.
  unfold message_of. destruct (find _ _) as [m|] eqn:E; [|done]. apply find_some in E as [Hi E]. apply Z.eqb_eq in E.
  assert (m_id m ∈ (m_id <$> messages t) ++ l) as Hb.
  { apply elem_of_app. left. apply list_elem_of_fmap_2. by apply list_elem_of_In. }
  apply fresh_bound in Hb. lia.
Qed.
Lemma wp_deliver_copy self t x y user mailbox p m (Q : mail_tables -> Z * mail_message -> Prop) : storable t self x ->
  deliverable t self user mailbox y -> msg_id m = next_phys t ->
  stored (snd <$> object_blobs (content self) 0) p m (object_blobs (content self) 0) ->
  (if too_large t user (stream_size self) then Q (after_store t self x p) (DSN_CLASS_QUOTA, (with_ids t self) <| counters := m |>)
   else forall t' msg, arrived t' self (x_id y) msg -> message_of t msg = None -> Q t' (DSN_CLASS_OK, (with_ids t self) <| counters := m |> <| msg_idnr := msg |>)) ->
  wp (deliver_copy ((with_ids t self) <| counters := m |>) user (x_id y)) (after_store t self x p) Q.
Proof.
  intros S D Ei St HQ. unfold deliver_copy. set (s' := (with_ids t self) <| counters := m |>) in *. set (t' := after_store t self x p) in *.
  apply wp_bind. exists t', false. split.
  { change (message_id_header s') with (message_id_header self). destruct (dl_new _ _ _ _ _ D) as [-> | ->]; [done|by destruct (message_id_header self)]. }
  cbv iota. set (row := new_row t (x_id x) (create_unique_id (delivery_id t)) MESSAGE_STATUS_NEW).
  destruct (named_box t mailbox user y (sb_boxes _ _ _ S) (dl_box _ _ _ _ _ D)) as [Ho Hb].
  assert (kept_phys row = next_phys t) as Ek.
  { pose proof (next_phys_pos t). pose proof (sb_phys _ _ _ S). unfold kept_phys. change (m_phys row) with (next_phys t).
    rewrite to_int32_id by lia. apply wrap64_id. lia. }
  assert (size_of t' row = stream_size self) as Es by (unfold size_of, t', after_store; simpl; by rewrite lookup_insert_eq).
  apply wp_bind, (wp_copymsg t' row).
  - destruct (sb_accounts _ _ _ S) as [W1 W2 W3]. split; [exact W1|exact W2|]. by intros d [= <-].
  - exact (find_fresh m_id (messages t) row eq_refl).
  - exists y. exact Hb.
  - rewrite Ek, <- Ei. exact (st_phys _ _ _ _ St).
  - rewrite Es. apply S.
  - unfold copy_result. rewrite Es. change ((0 <? _) && over_quota t' user _ _) with (too_large t user (stream_size self)).
    destruct (too_large _ _ _); [by apply wp_ret|]. intros t1 E1. apply wp_ret, HQ.
    + apply (copy_arrived t' t1 row (x_id y) (msg_idnr s') m user); [exact E1|done|done|by rewrite Ek, Ei|apply S|exact St].
    + change (messages t') with (messages t ++ [row]). rewrite fmap_app. apply message_of_fresh.
Qed.

(** C7. Under the conditions of [storable] and [deliverable] - a tree whose text comes back and whose
    texts do not collide, an inbox of the delivery user, ids that fit an int; a mailbox of the
    user with a plain name, open for writing and without a row of rights, and a message that is
    not suppressed as a duplicate - and when no statement fails, a message that is stored and
    delivered has a row in that mailbox that was not there, as a new and recent message, and its
    text is retrieved as the text of its tree; only a message that exceeds the user's limit is
    refused, with the status for it. *)
Theorem delivery_roundtrip t self x user mailbox source y :
  storable t self x -> deliverable t self user mailbox y ->
  wp (r ← dbmail_message_store self; sort_deliver_to_mailbox r.2 user mailbox source) t (fun t' r =>
    if too_large t user (stream_size self) then r.1 = DSN_CLASS_QUOTA
    else r.1 = DSN_CLASS_OK /\ arrived t' self (x_id y) (msg_idnr r.2) /\ message_of t (msg_idnr r.2) = None).
Proof.
  intros S D. apply wp_bind, (wp_store self t x); [done|]. intros p m r Hr Ei St. cbn [snd].
  destruct (named_box t mailbox user y (sb_boxes _ _ _ S) (dl_box _ _ _ _ _ D)) as [Ho Hb].
  apply (wp_deliver_to _ _ _ _ _ y); [apply S|by destruct D; split|]. apply (wp_deliver_copy self t x y user mailbox p m); [done..|].
  destruct (too_large _ _ _); [done|]. by intros t' msg A N.
Qed.
End deliver.
