(* ===== verification/MailCreate.v ===== *)
(** * dm_db.c: creating a mailbox with its parents

    When no statement fails, [db_mailbox_create_with_parents] creates exactly the levels of a path
    that do not exist, for the user, subscribes to them unless IMAP asked, and leaves everything
    else as it is. *)
From S2P Require Import Prelude CLib GLib Tree ClientBase ClientSession MiscText GListUtil MailboxState MailboxStateFacts Acl Auth ImapText SqlFragment SqlState.
From S2P Require Import MailboxName Mime MimeFacts MessageStore MessageStoreFacts MailStore MailDeliver MailStoreFacts MailQuota MailDeliverFacts.

Section create.
Context `{SqlConf} `{LikeLaws} `{GTreeOps} `{GLibStrLaws} `{MailConf}.

(** ** Levels *)

(** The names of the levels of a path. *)
Fixpoint prefixes (first : bool) (cpy : cstr) (l : list cstr) : list cstr :=
  match l with [] => [] | c :: l => let p := extend_name first cpy c in p :: prefixes false p l end.
Definition box_id (t : mail_tables) (name : cstr) (owner : Z) : Z := from_option x_id 0 (box_named t name owner).
Definition level_of (t : mail_tables) (owner : Z) (p : cstr) : level :=
  let id := box_id t p owner in mklevel id owner (if id =? 0 then 0 else default 0 (x_permission <$> mailbox_of t id)) p false false.

Lemma wp_find_level name owner t (Q : mail_tables -> option Z -> Prop) : plain_name name ->
  Q t (if box_id t name owner =? 0 then None else Some (box_id t name owner)) -> wp (db_findmailbox name owner) t Q.
Proof. apply wp_findmailbox. Qed.
Lemma wp_split_loop l first cpy owner public t acc (Q : mail_tables -> (option cstr + list level) -> Prop) :
  Forall (fun s => s <> []) l -> Forall plain_name (prefixes first cpy l) ->
  Q t (inr (reverse acc ++ (level_of t owner <$> prefixes first cpy l))) ->
  wp (split_loop l first cpy owner public false false acc) t Q.
Proof.
  revert first cpy public acc. induction l as [|c l IH]; intros first cpy public acc Hl Hp HQ; cbn [split_loop].
  - apply wp_ret. by rewrite app_nil_r in HQ.
  - apply Forall_cons in Hl as [Hc Hl]. cbn [prefixes] in Hp, HQ. set (p := extend_name first cpy c) in *.
    apply Forall_cons in Hp as [Hp Hps]. destruct c as [|a c]; [done|]. rewrite andb_false_r.
    apply wp_bind, wp_find_level; [done|]. apply wp_bind, wp_load_permission. apply IH; [done|done|].
    rewrite reverse_cons, <- app_assoc. cbn [app]. rewrite fmap_cons in HQ.
    replace (mklevel _ _ _ _ _ _) with (level_of t owner p); [done|]. unfold level_of.
    destruct (box_id t p owner =? 0) eqn:E; simpl; [apply Z.eqb_eq in E; by rewrite E|by rewrite E].
Qed.

(** ** What a new mailbox changes *)
Lemma plain_chars p : plain_name p -> "%"%char ∉ p /\ BACKSLASH ∉ p.
Proof.
  intros ((Hc & _) & _). apply path_accepted in Hc as [_ Hc]. rewrite Forall_forall in Hc.
  split; intros E; destruct (Hc _ E) as [E1 E2]; [|done]. by apply E1; vm_compute; set_solver.
Qed.
Lemma matches_same p name : plain_name p -> mailbox_matches (mailbox_match_new p) name = same_name false p name.
Proof.
  intros [Hp Hb]%plain_chars. unfold mailbox_match_new. pose proof (names_match p name Hp Hb) as E.
  by destruct (match_loop _ _ _) as [[se i] has].
Qed.
(** Ids are unique and positive, and what refers to a mailbox refers to one that is there. *)
Record boxes_wf (t : mail_tables) : Prop := {
  bw_ids : NoDup (x_id <$> mailboxes t);
  bw_positive : Forall (fun x => 0 < x_id x) (mailboxes t);
  bw_subscriptions : Forall (fun s => s.2 ∈ x_id <$> mailboxes t) (subscription t);
  bw_rights u m : is_Some (rights t !! (u, m)) -> m ∈ x_id <$> mailboxes t;
}.
Definition new_box (t : mail_tables) (owner : Z) (name : cstr) : mailbox_row :=
  mkbox (fresh_id (x_id <$> mailboxes t)) owner name IMAPPERM_READWRITE false false 1.
(** A new mailbox, and whether its owner subscribes to it. *)
Definition with_box (sub : bool) (owner : Z) (t : mail_tables) (name : cstr) : mail_tables :=
  let x := new_box t owner name in
  t <| mailboxes ::= fun l => l ++ [x] |> <| subscription ::= fun l => l ++ (if sub then [(owner, x_id x)] else []) |>.
Lemma new_id_fresh t owner name : x_id (new_box t owner name) ∉ x_id <$> mailboxes t.
Proof. intros E. pose proof (fresh_bound _ _ E) as Hb. simpl in Hb. lia. Qed.
Lemma with_box_wf sub owner t name : boxes_wf t -> boxes_wf (with_box sub owner t name).
Proof.
  intros [W1 W2 W3 W4]. assert (forall m, m ∈ x_id <$> mailboxes t -> m ∈ x_id <$> mailboxes (with_box sub owner t name)) as Hin
    by (intros m Hm; simpl; rewrite fmap_app; apply elem_of_app; by left). split.
  - simpl. rewrite fmap_app. apply NoDup_app. split; [done|]. split; [|apply NoDup_singleton].
    intros m Hm E%list_elem_of_singleton. subst m. by apply (new_id_fresh t owner name).
  - simpl. apply Forall_app_2; [done|]. apply Forall_singleton, fresh_positive.
  - simpl. apply Forall_app_2; [by eapply Forall_impl; [exact W3|]; simpl; intros s Hs; apply Hin|]. destruct sub; [|constructor].
    apply Forall_singleton. simpl. rewrite fmap_app. apply elem_of_app. right. by apply list_elem_of_singleton.
  - intros u m Hm. apply Hin, (W4 u m Hm).
Qed.

Lemma find_app {A} (p : A -> bool) (l k : list A) : find p (l ++ k) = match find p l with Some x => Some x | None => find p k end.
Proof. induction l as [|x l IH]; [done|]. simpl. by destruct (p x). Qed.
Lemma named_new sub owner t name p user : plain_name p ->
  box_named (with_box sub owner t name) p user =
  match box_named t p user with
  | Some x => Some x
  | None => if (owner =? user) && same_name false p name then Some (new_box t owner name) else None
  end.
Proof. intros P. unfold box_named. simpl. rewrite find_app. destruct (find _ _); [done|]. simpl. by rewrite matches_same. Qed.
Lemma box_id_none t p owner : boxes_wf t -> box_id t p owner = 0 <-> box_named t p owner = None.
Proof.
  intros [_ W _ _]. unfold box_id, box_named. destruct (find _ _) as [x|] eqn:E; simpl; [|done]. split; [|done]. intros E0.
  apply find_some in E as [Hi _]. rewrite Forall_forall in W. specialize (W x). apply list_elem_of_In in Hi. apply W in Hi. lia.
Qed.
(** A mailbox of another length is not looked for; one that was there is found again. *)
Lemma named_other sub owner t name p user : plain_name p -> length p <> length name -> box_named (with_box sub owner t name) p user = box_named t p user.
Proof.
  intros P Hl. rewrite named_new by done. destruct (box_named t p user); [done|]. destruct (same_name false p name) eqn:E; [|by rewrite andb_false_r].
  by apply same_name_length in E.
Qed.
Lemma named_self sub owner t p : plain_name p -> box_named t p owner = None -> box_named (with_box sub owner t p) p owner = Some (new_box t owner p).
Proof. intros P E. by rewrite named_new, E, Z.eqb_refl, same_name_refl. Qed.
Lemma level_other sub owner t name p : plain_name p -> length p <> length name -> level_of (with_box sub owner t name) owner p = level_of t owner p.
Proof.
  intros P Hl. unfold level_of, box_id. rewrite named_other by done. destruct (box_named t p owner) as [x|] eqn:E; [|done]. simpl.
  destruct (x_id x =? 0) eqn:Ei; [done|]. f_equal. f_equal. f_equal. unfold mailbox_of. simpl. rewrite find_app.
  destruct (find (fun x0 => x_id x0 =? x_id x) (mailboxes t)) eqn:Ef; [done|]. exfalso. apply find_some in E as [Hi _].
  by apply (find_none _ _ Ef) in Hi; rewrite Z.eqb_refl in Hi.
Qed.

(** ** One level *)

(** The user has an account, and needs no shadow account or has one. *)
Definition has_account (t : mail_tables) (owner : Z) : Prop :=
  is_Some (user_of t owner) /\ (auth_requires_shadow_user = true -> db_user_find_create owner = true).
Definition fresh_box (t : mail_tables) : Z := fresh_id (x_id <$> mailboxes t).
Lemma wp_createmailbox name owner t (Q : mail_tables -> Z * Z -> Prop) : plain_name name -> has_account t owner -> box_named t name owner = None ->
  Q (t <| mailboxes ::= fun l => l ++ [new_box t owner name] |>) (DM_SUCCESS, fresh_box t) -> wp (db_createmailbox name owner) t Q.
Proof.
  intros P [Hu Hs] Hn HQ. unfold db_createmailbox. destruct (auth_requires_shadow_user && _) eqn:E.
  { apply andb_true_iff in E as [E1 E2]. by rewrite Hs in E2. }
  rewrite plain_read by done. apply wp_bind, wp_committed. unfold insert_mailbox.
  assert (existsb (fun x => (x_owner x =? owner) && streq (x_name x) name) (mailboxes t) = false) as Ex.
  { apply not_true_is_false. intros (x & Hi & [Ho Ee%bool_decide_eq_true]%andb_true_iff)%existsb_exists.
    apply (find_none _ _ Hn) in Hi. by rewrite Ho, matches_same, Ee, same_name_refl in Hi. }
  eapply swp_checked; [by rewrite Ex, (bool_decide_eq_true_2 _ Hu)|]. by apply wp_ret.
Qed.
Lemma wp_subscribe mailbox user t (Q : mail_tables -> Z -> Prop) : is_Some (mailbox_of t mailbox) -> (user, mailbox) ∉ subscription t ->
  Q (t <| subscription ::= fun l => l ++ [(user, mailbox)] |>) 1 -> wp (db_subscribe mailbox user) t Q.
Proof.
  intros [x Hx] Hn HQ. unfold db_subscribe. repeat wp_step. cbn [fst snd].
  assert (existsb (fun s => (s.1 =? user) && (s.2 =? mailbox)) (subscription t) = false) as ->.
  { apply not_true_is_false. intros ([u m] & Hi & [E1%Z.eqb_eq E2%Z.eqb_eq]%andb_true_iff)%existsb_exists. simpl in *. subst.
    apply Hn. by apply list_elem_of_In. }
  eapply swp_checked; [by rewrite Hx|]. by apply swp_ret.
Qed.
Definition subscribes (source : mailbox_source) : bool := negb (bool_decide (source = BOX_IMAP)).
Lemma wp_create_level source owner p t created message (Q : mail_tables -> Z * Z * option cstr * level -> Prop) :
  boxes_wf t -> plain_name p -> has_account t owner -> box_named t p owner = None ->
  Q (with_box (subscribes source) owner t p)
    (0, fresh_box t, Some (lit "Folder created"), mklevel (fresh_box t) owner IMAPPERM_READWRITE p false false) ->
  wp (create_level source owner (level_of t owner p) created message) t Q.
Proof.
  intros W P Ha Hn HQ. unfold create_level, level_of, box_id. rewrite Hn. cbn [l_users l_owner l_public l_name andb].
  apply wp_bind, wp_createmailbox; [done..|]. cbn [Z.eqb]. change (DM_SUCCESS =? DM_EGENERAL) with false. change (DM_SUCCESS =? DM_EQUERY) with false.
  cbv iota beta. apply wp_bind. unfold subscribes, with_box in HQ. set (t1 := t <| mailboxes ::= _ |>). destruct (bool_decide (source = BOX_IMAP)).
  - repeat wp_step. cbn. repeat wp_step. cbn. repeat wp_step.
    replace t1 with (t1 <| subscription ::= fun l => l ++ [] |>); [exact HQ|]. destruct t. unfold t1. cbv [set_field]. simpl. by rewrite app_nil_r.
  - apply wp_bind, wp_subscribe.
    + unfold mailbox_of. simpl. change (fresh_box t) with (x_id (new_box t owner p)). rewrite find_fresh by done. by eexists.
    + intros E. destruct W as [_ _ W _]. rewrite Forall_forall in W. specialize (W _ E). by apply (new_id_fresh t owner p).
    + repeat wp_step. cbn. repeat wp_step. cbn. repeat wp_step. exact HQ.
Qed.
(** An existing level in which the user may create mailboxes. *)
Definition open_box (t : mail_tables) (owner : Z) (x : mailbox_row) : Prop :=
  x_permission x = IMAPPERM_READWRITE /\ x_no_inferiors x = false /\ rights t !! (owner, x_id x) = None.
Lemma wp_check_level owner p t x message (Q : mail_tables -> Z * option cstr -> Prop) : boxes_wf t -> owner <> 0 ->
  mailbox_of t (x_id x) = Some x -> x_owner x = owner -> open_box t owner x -> Q t (0, message) ->
  wp (check_level owner (mklevel (x_id x) owner IMAPPERM_READWRITE p false false) message) t Q.
Proof.
  intros W Ho Hx Hxo (Hp & Hi & Hr) HQ. subst owner. unfold check_level, db_noinferiors, acl_has_right. repeat wp_step.
  cbn [l_id l_owner l_permission l_name]. rewrite Hx, Hi, owner_has_right; [exact HQ|apply W|done| |done|done|by right|by left].
  destruct W as [_ W _ _]. rewrite Forall_forall in W. apply find_some in Hx as [Hin _]. apply list_elem_of_In, W in Hin. lia.
Qed.

(** ** All levels *)
Lemma filter_ext_in {A} (P Q : A -> Prop) `{forall x, Decision (P x), forall x, Decision (Q x)} (l : list A) :
  (forall x, x ∈ l -> P x <-> Q x) -> filter P l = filter Q l.
Proof.
  induction l as [|x l IH]; intros E; [done|]. rewrite !filter_cons, IH by (intros y Hy; apply E; by right).
  destruct (E x ltac:(by left)) as [E1 E2]. repeat case_decide; tauto.
Qed.
Definition missing (t : mail_tables) (owner : Z) (ps : list cstr) : list cstr := filter (fun p => box_id t p owner = 0) ps.
Definition grown (source : mailbox_source) (owner : Z) (t : mail_tables) (ps : list cstr) : mail_tables :=
  foldl (with_box (subscribes source) owner) t ps.
Definition last_box (t : mail_tables) : Z := from_option x_id 0 (last (mailboxes t)).
Definition shorter (a b : cstr) : Prop := (length a < length b)%nat.
(** What creating the levels [ps] of a path needs. *)
Record creatable (source : mailbox_source) (t : mail_tables) (owner : Z) (ps : list cstr) : Prop := {
  ct_boxes : boxes_wf t;
  ct_account : has_account t owner;
  ct_owner : owner <> 0;
  ct_plain : Forall plain_name ps;
  ct_sorted : StronglySorted shorter ps;
  ct_open : source = BOX_BRUTEFORCE \/ forall p x, p ∈ ps -> box_named t p owner = Some x -> open_box t owner x;
}.
Lemma other_names p ps q : StronglySorted shorter (p :: ps) -> q ∈ ps -> length q <> length p.
Proof. intros S Hq. apply StronglySorted_inv in S as [_ S]. rewrite Forall_forall in S. specialize (S q Hq). unfold shorter in S. lia. Qed.
Lemma creatable_new sub source t owner p ps : creatable source t owner (p :: ps) -> creatable source (with_box sub owner t p) owner ps.
Proof.
  intros [W A Ho P S O]. apply Forall_cons in P as [_ P]. split; [by apply with_box_wf|exact A|done|done|by apply StronglySorted_inv in S as [S _]|].
  destruct O as [O|O]; [by left|right]. intros q x Hq Hx. rewrite Forall_forall in P.
  rewrite named_other in Hx; [|by apply P|by apply (other_names p ps)]. by apply (O q x); [right|].
Qed.
Lemma creatable_tail source t owner p ps : creatable source t owner (p :: ps) -> creatable source t owner ps.
Proof.
  intros [W A Ho P S O]. apply Forall_cons in P as [_ P]. split; [done..|by apply StronglySorted_inv in S as [S _]|].
  destruct O as [O|O]; [by left|right]. intros q x Hq. by apply O; right.
Qed.
Lemma levels_new sub source t owner p ps : creatable source t owner (p :: ps) ->
  level_of (with_box sub owner t p) owner <$> ps = level_of t owner <$> ps /\ missing (with_box sub owner t p) owner ps = missing t owner ps.
Proof.
  intros [_ _ _ P S _]. apply Forall_cons in P as [_ P]. rewrite Forall_forall in P. split.
  - apply list_fmap_ext. intros i q Hq%list_elem_of_lookup_2. apply level_other; [by apply P|by apply (other_names p ps)].
  - apply filter_ext_in. intros q Hq. unfold box_id. rewrite named_other; [done|by apply P|by apply (other_names p ps)].
Qed.

Lemma wp_create_levels source owner ps t created message (Q : mail_tables -> creation -> Prop) : creatable source t owner ps ->
  (let t' := grown source owner t (missing t owner ps) in
   Q t' (0, match missing t owner ps with [] => created | _ => last_box t' end,
     match missing t owner ps with [] => message | _ => Some (lit "Folder created") end)) ->
  wp (create_levels source owner (level_of t owner <$> ps) created message) t Q.
Proof.
  revert t created message. induction ps as [|p ps IH]; intros t created message C HQ; [by apply wp_ret|].
  pose proof C as [W A Ho P S O]. apply Forall_cons in P as [Pp P]. rewrite fmap_cons. cbn [create_levels].
  unfold missing in HQ. rewrite filter_cons in HQ. fold (missing t owner ps) in HQ. case_decide as E.
  - assert (box_named t p owner = None) as En by by apply box_id_none.
    change (l_id (level_of t owner p)) with (box_id t p owner). rewrite E. cbn [Z.eqb].
    apply wp_bind, wp_create_level; [done..|]. cbn [negb Z.eqb]. set (t1 := with_box (subscribes source) owner t p).
    assert (wp (create_levels source owner (level_of t owner <$> ps) (fresh_box t) (Some (lit "Folder created"))) t1 Q) as Hnext.
    { destruct (levels_new (subscribes source) source t owner p ps C) as [El Em]. rewrite <- El. apply IH; [by apply creatable_new|].
      fold t1. fold t1 in Em. rewrite Em. cbn [grown foldl] in HQ. unfold grown in HQ |- *. cbn [foldl] in HQ. fold t1 in HQ.
      destruct (missing t owner ps); [|exact HQ]. unfold last_box in HQ. simpl in HQ. by rewrite last_snoc in HQ. }
    apply wp_bind. case_bool_decide as Es; [by apply wp_ret|].
    apply (wp_check_level owner p t1 (new_box t owner p)); [by apply with_box_wf|done| |done| |by cbn].
    + unfold mailbox_of. simpl. change (fresh_id _) with (x_id (new_box t owner p)). by rewrite find_fresh.
    + split; [done|]. split; [done|]. destruct (rights t !! (owner, x_id (new_box t owner p))) eqn:Er; [|exact Er]. exfalso.
      apply (new_id_fresh t owner p), (bw_rights t W owner). by rewrite Er.
  - change (l_id (level_of t owner p)) with (box_id t p owner). rewrite (proj2 (Z.eqb_neq _ 0)) by done. apply wp_bind, wp_ret. cbn [negb Z.eqb].
    apply wp_bind. case_bool_decide as Es; [by apply wp_ret, IH; [apply (creatable_tail _ _ _ p)|]|].
    destruct (box_named t p owner) as [x|] eqn:Ex; [|by unfold box_id in E; rewrite Ex in E].
    destruct (named_box t p owner x) as [Hxo Hx]; [apply W|done|]. destruct O as [O|O]; [done|].
    pose proof (O p x ltac:(by left) Ex) as Op. unfold level_of, box_id in E |- *. rewrite Ex in E |- *. cbn [from_option] in E |- *.
    rewrite (proj2 (Z.eqb_neq _ 0)) by done. rewrite Hx. cbn [fmap option_fmap option_map default from_option]. rewrite (proj1 Op).
    apply (wp_check_level owner p t x); [done..|]. cbn [negb Z.eqb]. apply IH; [by apply (creatable_tail _ _ _ p)|done].
Qed.

(** ** A path *)
Lemma prefixes_longer p l : Forall (shorter p) (prefixes false p l) /\ StronglySorted shorter (prefixes false p l).
Proof.
  revert p. induction l as [|c l IH]; intros p; [by split; constructor|]. cbn [prefixes extend_name]. destruct (IH (p ++ MAILBOX_SEPARATOR :: c)) as [IH1 IH2].
  assert (shorter p (p ++ MAILBOX_SEPARATOR :: c)) as Hs by (unfold shorter; rewrite length_app; simpl; lia).
  split; constructor; [done| |done|done]. eapply Forall_impl; [exact IH1|]. unfold shorter in *. intros q Hq. lia.
Qed.
Lemma prefixes_sorted l : StronglySorted shorter (prefixes true [] l).
Proof. destruct l as [|c l]; [constructor|]. destruct (prefixes_longer (extend_name true [] c) l). by constructor. Qed.
Lemma prefixes_last p l : last (p :: prefixes false p l) = Some (p ++ concat (cons MAILBOX_SEPARATOR <$> l)).
Proof.
  revert p. induction l as [|c l IH]; intros p; [by rewrite app_nil_r|]. cbn [prefixes extend_name]. rewrite last_cons_cons, IH.
  by rewrite fmap_cons, <- app_assoc.
Qed.

Lemma named_kept sub owner t name p user x : box_named t p user = Some x -> box_named (with_box sub owner t name) p user = Some x.
Proof. intros E. unfold box_named in *. simpl. by rewrite find_app, E. Qed.
Lemma grown_finds source owner t l p : plain_name p -> p ∈ l \/ is_Some (box_named t p owner) -> is_Some (box_named (grown source owner t l) p owner).
Proof.
  intros P. revert t. induction l as [|q l IH]; intros t [E|E]; [by apply elem_of_nil in E|done| |]; cbn [grown foldl]; apply IH.
  - apply elem_of_cons in E as [<-|E]; [right|by left]. destruct (box_named t p owner) as [x|] eqn:Ex.
    + exists x. by apply named_kept.
    + eexists. by apply named_self.
  - right. destruct E as [x Ex]. exists x. by apply named_kept.
Qed.
(** The row of a new mailbox, and the subscriptions to the new ones. *)
Definition created_row (owner : Z) (x : mailbox_row) : Prop :=
  x = mkbox (x_id x) owner (x_name x) IMAPPERM_READWRITE false false 1.
Definition subscribed_to (source : mailbox_source) (owner : Z) (new : list mailbox_row) : list (Z * Z) :=
  if bool_decide (source = BOX_IMAP) then [] else (fun x => (owner, x_id x)) <$> new.
Lemma grown_wf source owner t l : boxes_wf t -> boxes_wf (grown source owner t l).
Proof. revert t. induction l as [|p l IH]; intros t W; [done|]. by apply IH, with_box_wf. Qed.
Lemma grown_boxes source owner t l : exists new,
  grown source owner t l = t <| mailboxes ::= fun k => k ++ new |> <| subscription ::= fun k => k ++ subscribed_to source owner new |> /\
  x_name <$> new = l /\ Forall (created_row owner) new.
Proof.
  revert t. induction l as [|p l IH]; intros t.
  { exists []. split; [|by split]. destruct t. unfold subscribed_to. cbv [set_field]. simpl. rewrite app_nil_r.
    case_bool_decide; by rewrite app_nil_r. }
  cbn [grown foldl]. set (t1 := with_box (subscribes source) owner t p). fold (grown source owner t1 l).
  destruct (IH t1) as (new & E1 & E2 & E3). exists (new_box t owner p :: new).
  split; [|split; [by rewrite fmap_cons, E2|by constructor]]. rewrite E1. unfold t1, with_box, subscribes, subscribed_to.
  destruct t. cbv [set_field]. simpl. rewrite <- app_assoc. case_bool_decide; simpl; by rewrite <- ?app_assoc, ?app_nil_r.
Qed.

(** What a path needs that is created for a user: INBOX is written in capitals, every level is
    a name of its own, and the user may create mailboxes below the levels that exist. *)
Record path_ready (source : mailbox_source) (t : mail_tables) (owner : Z) (l : list cstr) : Prop := {
  pr_boxes : boxes_wf t;
  pr_account : has_account t owner;
  pr_owner : owner <> 0;
  pr_parts : Forall (fun s => s <> [] /\ MAILBOX_SEPARATOR ∉ s) l;
  pr_inbox c : head l = Some c -> strcaseeq c (lit "inbox") = true -> c = INBOX;
  pr_plain : Forall plain_name (prefixes true [] l);
  pr_open : source = BOX_BRUTEFORCE \/ forall p x, p ∈ prefixes true [] l -> box_named t p owner = Some x -> open_box t owner x;
}.
Lemma path_creatable source t owner l : path_ready source t owner l -> creatable source t owner (prefixes true [] l).
Proof. intros [W A Ho _ _ P O]. by split; try done; apply prefixes_sorted. Qed.
Lemma path_last source t owner l : path_ready source t owner l -> l <> [] -> last (prefixes true [] l) = Some (g_list_join [MAILBOX_SEPARATOR] l).
Proof.
  intros R Hl. destruct l as [|c l]; [done|]. cbn [prefixes]. rewrite g_list_join_concat.
  assert (extend_name true [] c = c) as Ec.
  { unfold extend_name. destruct (strcaseeq c (lit "inbox")) eqn:E; [|done]. symmetry. by apply (pr_inbox _ _ _ _ R c). }
  rewrite Ec, prefixes_last. done.
Qed.
Lemma wp_split source t owner l (Q : mail_tables -> (option cstr + list level) -> Prop) : path_ready source t owner l -> l <> [] ->
  plain_name (g_list_join [MAILBOX_SEPARATOR] l) -> Q t (inr (level_of t owner <$> prefixes true [] l)) ->
  wp (db_imap_split_mailbox (g_list_join [MAILBOX_SEPARATOR] l) owner) t Q.
Proof.
  intros R Hl P HQ. unfold db_imap_split_mailbox. rewrite plain_read by done. rewrite g_strsplit_join; [|done|apply R].
  destruct l as [|c l]; [done|]. apply wp_split_loop; [|apply R|done].
  eapply Forall_impl; [apply (pr_parts _ _ _ _ R)|]. by intros s [].
Qed.

(** C9. Creating a mailbox by a path of plain names, the levels above which are open to the user, is
    answered with the id of the last level and adds exactly the levels that do not exist, each as
    an empty mailbox of the user with an id of its own, and one subscription of the user for each
    of them, none if a client of IMAP asked for it; every level of the path is found then, and
    nothing else in the tables differs. No statement fails. *)
Theorem path_created source t owner l : l <> [] -> path_ready source t owner l ->
  let path := g_list_join [MAILBOX_SEPARATOR] l in
  box_named t path owner = None ->
  wp (db_mailbox_create_with_parents path source owner) t (fun t' r => exists new,
    r = (DM_SUCCESS, last_box t', Some (lit "Folder created")) /\
    t' = t <| mailboxes ::= fun k => k ++ new |> <| subscription ::= fun k => k ++ subscribed_to source owner new |> /\
    x_name <$> new = missing t owner (prefixes true [] l) /\ Forall (created_row owner) new /\
    NoDup (x_id <$> mailboxes t') /\ Forall (fun p => is_Some (box_named t' p owner)) (prefixes true [] l)).
Proof.
  intros Hl R path Hn. pose proof (path_last _ _ _ _ R Hl) as Hlast. fold path in Hlast. pose proof (pr_plain _ _ _ _ R) as P.
  assert (path ∈ prefixes true [] l) as Hp by (apply last_Some in Hlast as [k ->]; apply elem_of_app; right; by apply list_elem_of_singleton).
  rewrite Forall_forall in P. pose proof (P path Hp) as Pp. unfold db_mailbox_create_with_parents.
  rewrite (proj1 (proj1 Pp)). cbn [negb]. apply wp_bind, wp_find_level; [done|]. unfold box_id at 1. rewrite Hn. cbn [from_option Z.eqb].
  apply wp_bind, (wp_split source); [done..|]. apply (wp_create_levels source); [by apply path_creatable|]. cbv zeta.
  set (ms := missing t owner (prefixes true [] l)). assert (path ∈ ms) as Hm by (apply list_elem_of_filter; split; [by unfold box_id; rewrite Hn|done]).
  destruct (grown_boxes source owner t ms) as (new & E1 & E2 & E3). exists new.
  split; [by destruct ms; [apply elem_of_nil in Hm|]|]. split; [exact E1|]. split; [exact E2|]. split; [exact E3|].
  split; [apply grown_wf, R|]. apply Forall_forall. intros p Hin.
  apply grown_finds; [by apply P|]. destruct (box_named t p owner) as [x|] eqn:Ex; [right; by eexists|left].
  apply list_elem_of_filter. split; [by unfold box_id; rewrite Ex|done].
Qed.
End create.
