(* ===== verification/MailExamples.v ===== *)
(** * Users, mailboxes and messages: examples

    Small tables for the witnesses of MailQuota and MailDeliverFacts, and the calls after which
    something else holds. *)
From S2P Require Import Prelude CLib GLib Tree ClientBase ClientSession MiscText GListUtil MailboxState Acl Auth AuthExample ImapText SqlFragment SqlState.
From S2P Require Import MailboxName Mime MimeFacts MessageStore MessageStoreFacts MessageExamples MailStore MailDeliver MailStoreFacts MailQuota MailDeliverFacts MailCreate.

#[local] Existing Instances glib_model glib_model_laws example_store_sql hash_only plain_digest example_types escaping_like escaping_laws gmap_tree.
#[local] Instance example_mail : MailConf := {|
  auth_requires_shadow_user := false; db_user_find_create _ := true; mailbox_update_seq_strategy := 1; create_unique_id _ := lit "unique";
|}.
#[local] Instance example_deliver : DeliverEnv := {|
  conf_subaddress := false; conf_sieve := false; conf_suppress_duplicates := false;
  dbmail_message_cache_headers _ := mret 0; dbmail_message_cache_envelope _ := mret tt;
  db_mailbox_has_message_id _ _ := mret 0; matching_filter _ _ _ := mret None; dm_sievescript_isactive _ := mret false;
  sort_process _ _ _ := mret None;
|}.
#[local] Instance example_deliver_laws : DeliverLaws.
Proof. split; [intros m t; by exists 0|done]. Qed.

(** Ann and Bob with their mailboxes, and a message of 100 octets in Ann's inbox. *)
Definition box (id owner : Z) (name : string) : mailbox_row := mkbox id owner (lit name) IMAPPERM_READWRITE false false 1.
Definition example_rows : mail_tables := {|
  users := [mkuser 1 DBMAIL_DELIVERY_USERNAME 0 0; mkuser 2 (lit "ann") 100 1000; mkuser 3 (lit "bob") 0 150];
  mailboxes := [box 10 1 "INBOX"; box 20 2 "INBOX"; box 21 2 "Work"; box 30 3 "INBOX"];
  messages := [mkrow 1 20 5 [1; 0; 0; 0; 0; 0] (lit "one") MESSAGE_STATUS_SEEN 0];
  messagesize := {[5 := 100]}; rfcsize := {[5 := 104]}; keyword_rows := [(1, lit "Junk")]; subscription := []; rights := ∅;
  mime := mkmt [] [] [(5, lit "2024-05-01 00:00:00")]; delivery_user_idnr := None;
|}.
Lemma example_accounts : accounts_wf example_rows.
Proof. split; [by apply (bool_decide_unpack _); vm_compute|by vm_compute|done]. Qed.
Lemma example_books : books example_rows.
Proof.
  split; [apply example_accounts| | | |].
  - repeat constructor; by vm_compute.
  - repeat constructor; by vm_compute.
  - by apply (bool_decide_unpack _); vm_compute.
  - by apply map_Forall_singleton.
Qed.

Definition example_calls : list mail_call :=
  [CopyMessage 1 21 2; CreateMailbox (lit "Work/2024") 2; MoveMessages 31 21; DeleteMailbox 20 false].
Lemma example_run : exists t', calls example_rows example_calls t' /\ length (messages t') = 1%nat /\ curmail_size <$> users t' = [0; 100; 0].
Proof.
  eexists. split.
  - eapply calls_cons; [|vm_compute; reflexivity|eapply calls_cons; [done|vm_compute; reflexivity|eapply calls_cons; [|vm_compute; reflexivity|
      eapply calls_cons; [done|vm_compute; reflexivity|apply calls_nil]]]].
    + eexists _, _. repeat split; vm_compute; reflexivity || done.
    + eexists _, _. repeat split; vm_compute; reflexivity.
  - by vm_compute.
Qed.
Lemma quota_kept_witness : exists t', calls example_rows example_calls t' /\ quota_exact t' /\ within_limits t' /\
  forall c, permitted t' c -> exists t'', runs (call c) t' t'' tt.
Proof.
  destruct example_run as (t' & C & _). exists t'. split; [exact C|]. by apply (quota_kept example_rows example_calls t' example_books C).
Defined.
Lemma quota_rebuilt_witness : let t := example_rows <| users := [mkuser 1 DBMAIL_DELIVERY_USERNAME 0 0; mkuser 2 (lit "ann") 7 0; mkuser 3 (lit "bob") 9 0] |> in
  accounts_wf t /\ wp dm_quota_rebuild t (fun t' r => quota_exact t' /\ r = Z.of_nat (length (wrong_quota t)) /\
    account t' = account t /\ but_size <$> users t' = but_size <$> users t).
Proof.
  intros t. assert (accounts_wf t) as W by (split; [by apply (bool_decide_unpack _); vm_compute|by vm_compute|done]).
  split; [exact W|]. by apply (quota_rebuilt t).
Defined.

(** A message for Ann's other mailbox. *)
Definition example_mail_message : mail_message := mkmail_message example_tree (mkmsg 0 0 0 0) 0 200 210 (lit "2024-05-02 00:00:00") None.
Lemma example_storable : storable example_rows example_mail_message (box 10 1 "INBOX").
Proof.
  split; [apply example_accounts| |vm_compute; reflexivity|done| | |apply tree_good| |done|done|done|by vm_compute].
  - by apply (bool_decide_unpack _); vm_compute.
  - by split; [apply NoDup_nil|intros r []%not_elem_of_nil].
  - constructor.
  - intros _. split; [intros r []%not_elem_of_nil|]. intros a b _ _ E _. by apply (inj (app _)) in E.
Qed.
Lemma example_deliverable : deliverable example_rows example_mail_message 2 (lit "Work") (box 21 2 "Work").
Proof. split; [by vm_compute|by vm_compute|done|done|done|done|by left]. Qed.
Lemma delivery_roundtrip_witness :
  too_large example_rows 2 200 = false /\
  wp (r ← dbmail_message_store example_mail_message; sort_deliver_to_mailbox r.2 2 (lit "Work") BOX_SORTING) example_rows (fun t' r =>
    r.1 = DSN_CLASS_OK /\ arrived t' example_mail_message 21 (msg_idnr r.2) /\ message_of example_rows (msg_idnr r.2) = None).
Proof.
  split; [by vm_compute|].
  exact (delivery_roundtrip example_rows example_mail_message (box 10 1 "INBOX") 2 (lit "Work") BOX_SORTING (box 21 2 "Work")
    example_storable example_deliverable).
Defined.

(** ** What is not as it should be *)
Definition sizes_kept (t : mail_tables) : list Z := curmail_size <$> users t.
Definition result_of {A} (r : mdb * outcome A) : option A := match r.2 with Returns x => Some x | Undefined => None end.
Definition fail_at (n : nat) : list bool := repeat false n ++ [true].

(** An INSERT that throws is only logged: the copy is reported with an id of 0, and paid for. The
    message of a sender whose delivery this was is lost. *)
Lemma accepted_but_lost : let r := MailStore.db_copymsg 1 21 2 0 (mksdb example_rows (fail_at 5)) in
  result_of r = Some (DM_EGENERAL, 0) /\ length (messages (tables r.1)) = 1%nat /\ sizes_kept (tables r.1) = [0; 200; 0].
Proof. by vm_compute. Qed.
(** The query of the limit throws, and a message of 100 octets goes to a user with 150 who has
    another one already. *)
Lemma limit_not_checked :
  let t := example_rows <| users := [mkuser 1 DBMAIL_DELIVERY_USERNAME 0 0; mkuser 2 (lit "ann") 100 150; mkuser 3 (lit "bob") 0 150] |> in
  result_of (MailStore.db_copymsg 1 21 2 0 (mksdb t [])) = Some (DM_OVERQUOTA, 0) /\
  let r := MailStore.db_copymsg 1 21 2 0 (mksdb t (fail_at 2)) in
  result_of r = Some (DM_EGENERAL, 2) /\ sizes_kept (tables r.1) = [0; 200; 0].
Proof. by vm_compute. Qed.
(** When the delivery user cannot be looked up, the copy is not paid for, and the result is that
    of one that is: the error -1 is not 0. *)
Lemma lookup_failure_is_free : let r := MailStore.db_copymsg 1 21 2 0 (mksdb example_rows (fail_at 15)) in
  result_of r = Some (DM_EGENERAL, 2) /\ length (messages (tables r.1)) = 2%nat /\ sizes_kept (tables r.1) = [0; 100; 0].
Proof. by vm_compute. Qed.
(** When only the quota cannot be stored, the copy is there and the delivery has failed for now:
    the next attempt delivers a second copy. *)
Lemma failed_payment_doubles :
  let d := MailStore.db_copymsg 1 21 2 0 (mksdb example_rows (fail_at 17)) in
  let r := MailStore.db_copymsg 1 21 2 0 (mksdb (tables d.1) []) in
  result_of d = Some (DM_EQUERY, 2) /\ m_mailbox <$> messages (tables r.1) = [20; 21; 21].
Proof. by vm_compute. Qed.
(** A copy into a mailbox of another user is paid for by the one who copies, and counts for the
    other one. *)
Lemma copier_pays : let r := MailStore.db_copymsg 1 30 2 0 (mksdb example_rows []) in
  result_of r = Some (DM_EGENERAL, 2) /\ sizes_kept (tables r.1) = [0; 200; 0] /\ usage (tables r.1) 2 = 100 /\ usage (tables r.1) 3 = 100.
Proof. by vm_compute. Qed.
(** The copy of a message whose physical message has an id that does not fit an [int]: here
    there is another physical message with the lower bits of the id, and the copy shows that. *)
Lemma copy_of_other : kept_phys (mkrow 1 20 (2 ^ 32 + 7) [] [] 0 0) = 7.
Proof. by vm_compute. Qed.
(** Nothing can be inserted, and after nine attempts the message is reported as stored. *)
Lemma unstored_is_stored : let r := MailDeliver.dbmail_message_store example_mail_message (mksdb example_rows (false :: repeat true 400)) in
  (fst <$> result_of r) = Some 0 /\ length (messages (tables r.1)) = 1%nat.
Proof. by vm_compute. Qed.
(** The size of a mailbox that could not be read is 0: what was in it stays in the user's size. *)
Lemma deleted_size_stays : let r := db_delete_mailbox 20 false true (mksdb example_rows (fail_at 1)) in
  result_of r = Some DM_SUCCESS /\ messages (tables r.1) = [] /\ sizes_kept (tables r.1) = [0; 100; 0].
Proof. by vm_compute. Qed.
(** A subscription that fails has a result that is not 0: the mailbox is created, and the user
    does not subscribe to it. *)
Lemma failed_subscription_unnoticed : let r := db_mailbox_create_with_parents (lit "New") BOX_SORTING 2 (mksdb example_rows (fail_at 6)) in
  (fst <$> result_of r) = Some (DM_SUCCESS, 31) /\ subscription (tables r.1) = [].
Proof. by vm_compute. Qed.
(** The end of a name stays where it was when the slashes in front are removed. *)
Lemma leading_slash_repeats : trim_name (lit "/INBOX") = lit "INBOXX" /\
  result_of (db_findmailbox (lit "/INBOX") 2 (mksdb example_rows [])) = Some None.
Proof. by vm_compute. Qed.
(** The children of a mailbox that is not there are all mailboxes of the user. *)
Lemma children_of_nothing : result_of (db_listmailboxchildren 99 2 (mksdb example_rows [])) = Some (DM_SUCCESS, [21; 20]).
Proof. by vm_compute. Qed.
(** With the second strategy the sequence of a mailbox grows by two. *)
Definition second_strategy : MailConf := {|
  auth_requires_shadow_user := false; db_user_find_create _ := true; mailbox_update_seq_strategy := 2; create_unique_id _ := [];
|}.
Lemma sequence_grows_twice : result_of (@db_mailbox_seq_update second_strategy 20 0 (mksdb example_rows [])) = Some 3.
Proof. by vm_compute. Qed.

(** Ann has Work and creates what is below it. *)
Lemma example_path_ready : path_ready BOX_IMAP example_rows 2 [lit "Work"; lit "2024"; lit "May"].
Proof.
  split.
  - split; [by apply (bool_decide_unpack _); vm_compute|by repeat constructor|constructor|]. intros u m Hr. change (is_Some ((∅ : gmap (Z * Z) (gset cstr)) !! (u, m))) in Hr. rewrite lookup_empty in Hr. by destruct Hr.
  - split; [eexists; vm_compute; reflexivity|done].
  - done.
  - apply (bool_decide_unpack _). by vm_compute.
  - intros c [= <-] E. by vm_compute in E.
  - repeat constructor; by vm_compute.
  - right. intros p x Hp Hx. repeat (apply elem_of_cons in Hp as [->|Hp]; [vm_compute in Hx; try done; injection Hx as <-; by vm_compute|]). by apply elem_of_nil in Hp.
Qed.
Lemma path_created_witness :
  wp (db_mailbox_create_with_parents (lit "Work/2024/May") BOX_IMAP 2) example_rows (fun t' r => exists new,
    r = (DM_SUCCESS, last_box t', Some (lit "Folder created")) /\ t' = example_rows <| mailboxes ::= fun k => k ++ new |> /\
    x_name <$> new = [lit "Work/2024"; lit "Work/2024/May"]).
Proof.
  eapply wp_mono; [exact (path_created BOX_IMAP example_rows 2 [lit "Work"; lit "2024"; lit "May"] ltac:(done) example_path_ready ltac:(by vm_compute))|].
  intros t' r (new & E1 & E2 & E3 & _). exists new. split; [exact E1|]. rewrite E3. split; [|by vm_compute].
  rewrite E2. destruct example_rows. cbv [set_field subscribed_to]. simpl. by rewrite app_nil_r.
Defined.
