(* ===== verification/ImapSession.v ===== *)
(** * dm_imapsession.c: the IMAP session

    The session record, the world it lives in (its memory, the data base, the queue of the
    main thread and the job of the thread pool), a state monad over that world, and the
    operations every handler uses: state changes, the response buffer, prompts,
    authentication, and the hand-over of work between the main thread and the workers.

    A session has at most one job in the thread pool; a second one, a freed CRAM context that
    is used, or a NULL pointer that is followed sets the fault flag of the connection. *)
From S2P Require Import Prelude.
From S2P Require Import CLib.
From S2P Require Import GLib.
From S2P Require Import Tree.
From S2P Require Import ListT.
From S2P Require Import ClientBase.
From S2P Require Import ClientSession.
From S2P Require Import GListUtil.
From S2P Require Import MailboxState.
From S2P Require Import MiscText.
From S2P Require Import SearchKeys.
From S2P Require Import Acl.
From S2P Require Import Cidr.
From S2P Require Import Capa.
From S2P Require Import Auth.
From S2P Require Import Mime.

Definition MAX_ARGS : nat := 512.
Definition IMAP_BUF_SIZE : nat := Z.to_nat 4096.
Definition FIELD16 : nat := 16.    (** sizeof(session->tag) and sizeof(session->command) *)
Definition FALSE : Z := 0.
Definition TRUE : Z := 1.
Definition IDLE : Z := -1.         (** the command state during IDLE *)

(** ** Commands *)
Definition IMAP_COMMANDS : list cstr := lit <$>
  [""; "capability"; "noop"; "logout"; "authenticate"; "login"; "select"; "examine"; "enable"; "create";
   "delete"; "rename"; "subscribe"; "unsubscribe"; "list"; "lsub"; "status"; "append"; "check"; "close";
   "expunge"; "search"; "fetch"; "store"; "copy"; "uid"; "sort"; "getquotaroot"; "getquota"; "setacl";
   "deleteacl"; "getacl"; "listrights"; "myrights"; "namespace"; "thread"; "unselect"; "idle"; "starttls";
   "id"; "***NOMORE***"]%string.
Definition IMAP_COMM_NONE : nat := 0.
Definition IMAP_COMM_CAPABILITY : nat := 1.
Definition IMAP_COMM_NOOP : nat := 2.
Definition IMAP_COMM_LOGOUT : nat := 3.
Definition IMAP_COMM_AUTH : nat := 4.
Definition IMAP_COMM_LOGIN : nat := 5.
Definition IMAP_COMM_SELECT : nat := 6.
Definition IMAP_COMM_EXAMINE : nat := 7.
Definition IMAP_COMM_ENABLE : nat := 8.
Definition IMAP_COMM_CREATE : nat := 9.
Definition IMAP_COMM_DELETE : nat := 10.
Definition IMAP_COMM_RENAME : nat := 11.
Definition IMAP_COMM_SUBSCRIBE : nat := 12.
Definition IMAP_COMM_UNSUBSCRIBE : nat := 13.
Definition IMAP_COMM_LIST : nat := 14.
Definition IMAP_COMM_LSUB : nat := 15.
Definition IMAP_COMM_STATUS : nat := 16.
Definition IMAP_COMM_APPEND : nat := 17.
Definition IMAP_COMM_CHECK : nat := 18.
Definition IMAP_COMM_CLOSE : nat := 19.
Definition IMAP_COMM_EXPUNGE : nat := 20.
Definition IMAP_COMM_SEARCH : nat := 21.
Definition IMAP_COMM_FETCH : nat := 22.
Definition IMAP_COMM_STORE : nat := 23.
Definition IMAP_COMM_COPY : nat := 24.
Definition IMAP_COMM_UID : nat := 25.
Definition IMAP_COMM_SORT : nat := 26.
Definition IMAP_COMM_GETQUOTAROOT : nat := 27.
Definition IMAP_COMM_GETQUOTA : nat := 28.
Definition IMAP_COMM_SETACL : nat := 29.
Definition IMAP_COMM_DELETEACL : nat := 30.
Definition IMAP_COMM_GETACL : nat := 31.
Definition IMAP_COMM_LISTRIGHTS : nat := 32.
Definition IMAP_COMM_MYRIGHTS : nat := 33.
Definition IMAP_COMM_NAMESPACE : nat := 34.
Definition IMAP_COMM_THREAD : nat := 35.
Definition IMAP_COMM_UNSELECT : nat := 36.
Definition IMAP_COMM_IDLE : nat := 37.
Definition IMAP_COMM_STARTTLS : nat := 38.
Definition IMAP_COMM_ID : nat := 39.
Definition IMAP_COMM_LAST : nat := 40.

(** The jobs of the thread pool, one for each [_ic_*_enter] function. *)
Inductive job :=
  | ic_capability | ic_noop | ic_id | ic_authenticate | ic_select | ic_enable | ic_create | ic_delete
  | ic_rename | ic_subscribe | ic_list | ic_status | ic_append | ic_check | ic_close | ic_unselect
  | ic_expunge | ic_search | ic_fetch | ic_store | ic_copy | ic_getquotaroot | ic_getquota | ic_setacl
  | ic_deleteacl | ic_getacl | ic_listrights | ic_myrights | ic_namespace.
#[export] Instance job_eq_dec : EqDecision job.
Proof. solve_decision. Defined.


(** ** Configuration *)
Class ImapConf := {
  conf_cram_md5 : cstr;            (** enable_cram_md5 *)
  conf_capability : cstr;          (** capability *)
  conf_max_message_size : Z;       (** MAX_MESSAGE_SIZE as strtoul reads it, 0 if it is not set *)
  conf_idle_interval : cstr;       (** idle_interval *)
  conf_idle_timeout : cstr;        (** idle_timeout *)
  conf_authdriver : cstr;          (** db_params.authdriver *)
  conf_version : cstr;             (** DM_VERSION *)
  conf_os : cstr * cstr;           (** what uname reports: system and release *)
  conf_update_strategy : Z;        (** mailbox_update_strategy *)
  conf_before_smtp : bool;         (** imap_before_smtp *)
  conf_allow_unseen : Z;           (** command_select_allow_unseen *)
  conf_ignore_silent : Z;          (** command_store_flags_silent_ignore_silent *)
}.

(** The CRAM-MD5 context of the connection, [ci->auth]; the pointer is not cleared when the
    context is freed. *)
Inductive auth_ctx := NoAuth | Auth (C : Cram_T) | Freed.

Record qresync_args := mkqresync {
  uidvalidity : Z;
  modseq : Z;
  known_uids : argptr;
  known_seqset : argptr;
  known_uidset : argptr;
}.
#[export] Instance qresync_settable : Settable qresync_args := fun r =>
  mkqresync (uidvalidity r) (modseq r) (known_uids r) (known_seqset r) (known_uidset r).

(** A pointer to the state of a mailbox. The states belong to the cache [mbxinfo], which frees
    a state when another one takes its place: a pointer is the mailbox and the generation of
    the entry it was taken from, and is dangling when the entry is of another generation. *)
Abbreviation stateptr := (Z * nat)%type.

(** ** What FETCH asks for *)
Definition IMAP_INTERNALDATE_LEN : nat := 27.
Definition IMAP_MAX_PARTSPEC_LEN : nat := 100.
Inductive body_item := BFIT_NONE | BFIT_TEXT | BFIT_HEADER | BFIT_MIME | BFIT_HEADER_FIELDS | BFIT_HEADER_FIELDS_NOT | BFIT_ALL.
#[export] Instance body_item_eq_dec : EqDecision body_item.
Proof. solve_decision. Defined.

(** One BODY[...]; [hdrs] is [hdrplist] with [names], which are set together. *)
Record body_fetch := mkbody {
  itemtype : body_item;
  argstart : nat;
  argcnt : nat;
  octetstart : Z;
  octetcnt : Z;
  partspec : cstr;
  hdrs : option (cstr * list cstr);
  header_cache : option (gmap Z cstr);    (** the tree [headers] *)
}.
#[export] Instance body_fetch_settable : Settable body_fetch := fun r =>
  mkbody (itemtype r) (argstart r) (argcnt r) (octetstart r) (octetcnt r) (partspec r) (hdrs r) (header_cache r).
Definition body_new : body_fetch := mkbody BFIT_NONE 0 0 0 0 [] None None.

Record fetch_items := mkitems {
  noseen : bool;
  msgparse_needed : bool;
  setseen : bool;
  isfirstfetchout : bool;
  getUID : bool;
  getSize : bool;
  getFlags : bool;
  getInternalDate : bool;
  getEnvelope : bool;
  getMIME_IMB : bool;
  getMIME_IMB_noextension : bool;
  getRFC822Header : bool;
  getRFC822Text : bool;
  getRFC822Peek : bool;
  getRFC822 : bool;
  getBodyTotal : bool;
  getBodyTotalPeek : bool;
  changedsince : Z;
  vanished : bool;
  bodyfetch : option (plist body_fetch);
}.
#[export] Instance fetch_items_settable : Settable fetch_items := fun r =>
  mkitems (noseen r) (msgparse_needed r) (setseen r) (isfirstfetchout r) (getUID r) (getSize r) (getFlags r)
    (getInternalDate r) (getEnvelope r) (getMIME_IMB r) (getMIME_IMB_noextension r) (getRFC822Header r) (getRFC822Text r)
    (getRFC822Peek r) (getRFC822 r) (getBodyTotal r) (getBodyTotalPeek r) (changedsince r) (vanished r) (bodyfetch r).
Definition items_zero : fetch_items :=
  mkitems false false false false false false false false false false false false false false false false false 0 false None.

(** What FETCH keeps between messages: the items, the message that is loaded, the physical
    ids, and the range of the cached envelopes and headers. *)
Record fetch_state := mkfetch {
  fi : fetch_items;
  msg_idnr : Z;
  message : option (Z * gmime);
  physids : gmap Z Z;
  envelopes : option (gmap Z cstr);
  ceiling : Z;
  hi : Z;
  lo : Z;
}.
#[export] Instance fetch_state_settable : Settable fetch_state := fun r =>
  mkfetch (fi r) (msg_idnr r) (message r) (physids r) (envelopes r) (ceiling r) (hi r) (lo r).

Section session.
Context `{GTreeOps}.

(** The selected mailbox. *)
Record DbmailMailbox := mkmailbox {
  mbx_id : Z;
  mbx_modseq : Z;
  mbx_condstore : bool;
  mbx_qresync : bool;
  mbx_state : option stateptr;     (** mbstate *)
  mbx_search : search_state;       (** search, charset, found, sorted *)
}.
#[export] Instance DbmailMailbox_settable : Settable DbmailMailbox := fun r =>
  mkmailbox (mbx_id r) (mbx_modseq r) (mbx_condstore r) (mbx_qresync r) (mbx_state r) (mbx_search r).
(** [dbmail_mailbox_new] *)
Definition dbmail_mailbox_new (id : Z) : DbmailMailbox := mkmailbox id 0 false false None search_new.

Record ImapSession := mkimap {
  ci : ClientBase_T;
  auth : auth_ctx;
  deferred : Z;
  clientsock : cstr;
  preauth_capa : Capa_T;
  capa : Capa_T;
  tag : list ascii;
  command : list ascii;
  command_type : nat;
  command_state : Z;
  use_uid : bool;
  buff : cstr;
  parser_state : Z;
  args : list (option cstr);
  args_idx : nat;
  loop : Z;
  qresync : qresync_args;
  order : search_order;
  mailbox : option DbmailMailbox;
  userid : Z;
  mbxinfo : gmap Z (nat * MailboxState_T);
  generation : nat;
  ids : option (list Z);
  ids_list : list Z;
  new_ids : list Z;
  error_count : Z;
  state : Z;
  en_condstore : bool;
  en_qresync : bool;
  fetch : fetch_state;
}.
#[export] Instance ImapSession_settable : Settable ImapSession := fun r =>
  mkimap (ci r) (auth r) (deferred r) (clientsock r) (preauth_capa r) (capa r) (tag r) (command r)
    (command_type r) (command_state r) (use_uid r) (buff r) (parser_state r) (args r) (args_idx r) (loop r)
    (qresync r) (order r) (mailbox r) (userid r) (mbxinfo r) (generation r) (ids r) (ids_list r) (new_ids r)
    (error_count r) (state r) (en_condstore r) (en_qresync r) (fetch r).

(** The texts that start at [command] and at [tag]: sixteen characters leave no terminator, so
    that a read goes on in the next field of the structure. *)
Definition command_str (s : ImapSession) : cstr :=
  if bool_decide (length (command s) < FIELD16)%nat then command s
  else command s ++ (if bool_decide (command_type s = 0%nat) then [] else [ascii_of_code (Z.of_nat (command_type s))]).
Definition tag_str (s : ImapSession) : cstr :=
  if bool_decide (length (tag s) < FIELD16)%nat then tag s else tag s ++ command_str s.
(** [strncpy(field, text, n)] for a text of at least [n] characters. *)
Definition strncpy_field (old text : list ascii) (n : nat) : list ascii := take n text ++ drop n old.

(** ** The world of a session *)
Inductive qitem :=
  | QMessage (text : cstr)      (** dm_thread_data_sendmessage *)
  | QLeave (status : Z)         (** _ic_cb_leave behind a job *)
  | QCleanup.                   (** imap_cleanup_deferred *)
End session.

(** ** The data base as the commands use it

    Every operation yields the new data base, so that it can count, change or fail. *)
Class ImapDB `{GTreeOps} := {
  db : Type;
  dm_db_ping : db -> bool;
  mailbox_answers : db -> MailboxDB;                  (** what the state of a mailbox reads *)
  MailboxState_new : db -> Z -> option MailboxState_T;    (** [None]: loading fails *)
  auth_getencryption : db -> Z -> option cstr;
  db_log_ip : db -> db;                               (** pop-before-smtp *)
  MailboxState_update : db -> MailboxState_T -> option (MailboxState_T * MailboxState_T);
                                                      (** the old state and the new one *)
  db_mailbox_seq_update : db -> Z -> Z -> db * Z;     (** mailbox, message or 0: the new sequence *)
  db_update_recent : db -> list Z -> Z -> db;         (** clears the recent flags of some messages *)
  db_mark_deleted : db -> Z -> db * bool;             (** UPDATE messages SET status; whether it worked *)
  db_get_mailbox_size : db -> Z -> bool -> db * option Z;
  dm_quota_user_dec : db -> Z -> Z -> db * bool;
  generate_message_id : db -> db * cstr;              (** a CRAM-MD5 challenge *)
}.

Section world.
Context `{ImapDB}.

Record world := mkworld {
  session : ImapSession;
  wdb : db;
  queue : list qitem;
  pool : option job;       (** the job in the thread pool *)
  deleted : bool;          (** the session's memory is given back *)
}.
#[export] Instance world_settable : Settable world := fun w =>
  mkworld (session w) (wdb w) (queue w) (pool w) (deleted w).

(** ** The monad *)
Definition IM (A : Type) : Type := world -> world * A.
#[export] Instance IM_ret : MRet IM := fun A x w => (w, x).
#[export] Instance IM_bind : MBind IM := fun A B k m w => let '(w, x) := m w in k x w.
Definition self : IM ImapSession := fun w => (w, session w).
Definition upd (f : ImapSession -> ImapSession) : IM unit := fun w => (w <| session ::= f |>, tt).
Definition updci (f : ClientBase_T -> ClientBase_T) : IM unit := upd (fun s => s <| ci ::= f |>).
Definition undefined : IM unit := updci (fun c => c <| fault := true |>).
Definition push (q : qitem) : IM unit := fun w => (w <| queue ::= fun l => l ++ [q] |>, tt).
Definition database : IM db := fun w => (w, wdb w).
Definition run_db {A} (f : db -> db * A) : IM A := fun w => let '(d, x) := f (wdb w) in (w <| wdb := d |>, x).
Definition skip : IM unit := mret tt.
Fixpoint for_each {A} (f : A -> IM unit) (l : list A) : IM unit :=
  match l with [] => skip | x :: l => f x;; for_each f l end.
Definition when (b : bool) (m : IM unit) : IM unit := if b then m else skip.

(** ** Arguments *)

(** [self->args[i]] as a pointer. *)
Definition arg_at (s : ImapSession) (i : nat) : option cstr := mjoin (args s !! i).
(** [p_string_str(self->args[i])], which follows the pointer. *)
Definition arg_str (i : nat) : IM cstr :=
  s ← self;
  match arg_at s i with Some t => mret t | None => undefined;; mret [] end.
(** A store outside the array is undefined behaviour. *)
Definition set_arg (i : nat) (t : option cstr) : IM unit :=
  when (bool_decide (MAX_ARGS <= i)%nat) undefined;; upd (fun s => s <| args ::= <[i := t]> |>).
Definition add_arg (t : cstr) : IM unit :=
  s ← self; set_arg (args_idx s) (Some t);; upd (fun s => s <| args_idx ::= S |>).

(** The array from its start to the first NULL is cleared. *)
Fixpoint clear_args (l : list (option cstr)) : list (option cstr) :=
  match l with Some _ :: l => None :: clear_args l | _ => l end.
Definition dbmail_imap_session_args_free : IM unit :=
  upd (fun s => s <| args ::= clear_args |> <| args_idx := 0%nat |>
                  <| qresync ::= fun q => q <| known_uids ::= free_arg |> <| known_seqset ::= free_arg |>
                                            <| known_uidset ::= free_arg |> |>).

(** ** States *)
Context `{ServerConf} `{ImapConf}.

(** The result is whether nothing was changed. *)
Definition dbmail_imap_session_set_state (st : Z) : IM bool :=
  s ← self;
  if (state s =? st) || (state s =? CLIENTSTATE_QUIT_QUEUED) then mret true
  else
    when (st =? CLIENTSTATE_ERROR) (updci (fun c => c <| wev_on := false |>));;
    when ((st =? CLIENTSTATE_ERROR) || (st =? CLIENTSTATE_LOGOUT)) (updci (fun c => c <| rev_on := false |>));;
    when (st =? CLIENTSTATE_AUTHENTICATED) (updci (fun c => c <| tv_sec := Z.of_nat conf_timeout |>));;
    upd (fun s => s <| state := st |>);;
    mret false.

(** ** The response buffer *)
Definition dbmail_imap_session_buff_clear : IM unit := upd (fun s => s <| buff := [] |>).

(** The text goes to the main thread, which sends it. *)
Definition dbmail_imap_session_buff_flush : IM unit :=
  s ← self;
  if CLIENTSTATE_LOGOUT <=? state s then skip
  else if bool_decide (buff s = []) then skip
  else upd (fun s => s <| buff := [] |>);; push (QMessage (buff s)).

(** [dbmail_imap_session_buff_printf] of a text. *)
Definition buff_printf (text : cstr) : IM unit :=
  upd (fun s => s <| buff ::= fun b => b ++ text |>);;
  s ← self;
  when (bool_decide (IMAP_BUF_SIZE <= length (buff s))%nat) dbmail_imap_session_buff_flush.

(** ** Creation *)
Definition preauth_removed : list cstr := lit <$>
  ["ACL"; "RIGHTS=texk"; "NAMESPACE"; "CHILDREN"; "SORT"; "QUOTA"; "THREAD=ORDEREDSUBJECT"; "UNSELECT"; "IDLE";
   "UIDPLUS"; "WITHIN"; "CONDSTORE"; "ENABLE"; "QRESYNC"]%string.
Definition auth_capabilities : list cstr := lit <$> ["AUTH=LOGIN"; "AUTH=PLAIN"; "AUTH=CRAM-MD5"]%string.
Definition cram_enabled : bool := negb (strcaseeq conf_cram_md5 (lit "no")).
Definition is_ldap : bool := strcaseeq conf_authdriver (lit "LDAP").

Definition dbmail_imap_session_new `{GLibStr} (c : ClientBase_T) (sock : cstr) : ImapSession :=
  let login_disabled := negb (strcaseeq conf_login_disabled (lit "no")) in
  let capa := foldl Capa_remove (Capa_new conf_capability) ([lit "STARTTLS"; lit "LOGINDISABLED"] ++ auth_capabilities) in
  let pre := foldl Capa_remove (Capa_new conf_capability) preauth_removed in
  let '(pre, login_disabled) := if conf_ssl then (pre, login_disabled) else (Capa_remove pre (lit "STARTTLS"), false) in
  let pre := if negb cram_enabled || is_ldap then Capa_remove pre (lit "AUTH=CRAM-MD5") else pre in
  let pre := if login_disabled then foldl Capa_remove pre auth_capabilities else Capa_remove pre (lit "LOGINDISABLED") in
  {| ci := c; auth := NoAuth; deferred := 0; clientsock := sock; preauth_capa := pre; capa := capa; tag := [];
     command := []; command_type := IMAP_COMM_NONE; command_state := FALSE; use_uid := false; buff := [];
     parser_state := FALSE; args := replicate MAX_ARGS None; args_idx := 0%nat; loop := 0;
     qresync := mkqresync 0 0 NoArg NoArg NoArg; order := SEARCH_UNORDERED; mailbox := None; userid := 0;
     mbxinfo := ∅; generation := 0%nat; ids := None; ids_list := []; new_ids := []; error_count := 0;
     state := CLIENTSTATE_NON_AUTHENTICATED; en_condstore := false; en_qresync := false;
     fetch := mkfetch items_zero 0 None ∅ None 0 0 0 |}.

Definition capa_ensure (A : Capa_T) (c : cstr) : Capa_T := if Capa_match A c then A else Capa_add A c.
Definition dbmail_imap_session_encrypted : IM unit :=
  upd (fun s => s <| preauth_capa ::= fun A =>
    let A := Capa_remove (Capa_remove A (lit "STARTTLS")) (lit "LOGINDISABLED") in
    let A := capa_ensure (capa_ensure A (lit "AUTH=LOGIN")) (lit "AUTH=PLAIN") in
    if cram_enabled && negb is_ldap then capa_ensure A (lit "AUTH=CRAM-MD5") else A |>).

(** [g_strlcpy] into the command field. *)
Definition dbmail_imap_session_set_command (c : cstr) : IM unit :=
  upd (fun s => s <| command := take (FIELD16 - 1) c |>).

(** The text of a capability list, brought up to date. *)
Definition preauth_string : IM cstr :=
  s ← self; let '(A, t) := Capa_as_string (preauth_capa s) in upd (fun s => s <| preauth_capa := A |>);; mret t.
Definition capa_string : IM cstr :=
  s ← self; let '(A, t) := Capa_as_string (capa s) in upd (fun s => s <| capa := A |>);; mret t.

(** ** Authentication *)
Context `{GLibBase64} `{Digests} `{AuthTables} `{SocketLib}.

Definition dbmail_imap_session_prompt (prompt : cstr) : IM unit :=
  buff_printf (lit "+ " ++ g_base64_encode (prompt ++ crlf) ++ crlf);;
  dbmail_imap_session_buff_flush.

(** [Cram_getUsername(self->ci->auth)]; the assertion that there is a name ends the process. *)
Definition cram_username (a : auth_ctx) : IM (option cstr) :=
  match a with
  | Auth C => match Cram_getUsername C with Some u => mret (Some u) | None => undefined;; mret None end
  | Freed => undefined;; mret None
  | NoAuth => mret None
  end.
Definition cram_of (a : auth_ctx) : option Cram_T := match a with Auth C => Some C | _ => None end.
Definition has_auth (a : auth_ctx) : bool := match a with NoAuth => false | _ => true end.

(** The capability of CRAM-MD5 is withdrawn after a failure with a password that is stored
    encrypted. *)
Definition withdraw_cram (uid : Z) : IM unit :=
  d ← database;
  let enctype := if uid =? 0 then None else auth_getencryption d uid in
  if match enctype with Some e => negb (bool_decide (e = [])) | None => true end then
    upd (fun s => s <| preauth_capa ::= fun A => Capa_remove A (lit "AUTH=CRAM-MD5") |>);;
    t ← preauth_string;
    buff_printf (lit "* CAPABILITY " ++ t ++ crlf)
  else skip.

Definition dbmail_imap_session_handle_auth (username password : option cstr) : IM Z :=
  s ← self;
  username ← (if has_auth (auth s) then cram_username (auth s) else mret username);
  match auth_validate (cram_of (auth s)) (clientsock s) username password with
  | None => undefined;; mret (-1)
  | Some v =>
      if valid v =? -1 then
        buff_printf (lit "* BYE internal db error validating user" ++ crlf);; mret (-1)
      else if valid v =? 0 then
        when (has_auth (auth s)) (withdraw_cram (user_idnr v));;
        buff_printf (tag_str s ++ lit " NO login rejected" ++ crlf);; mret 1
      else if valid v =? 1 then
        upd (fun s => s <| userid := user_idnr v |>);;
        _ ← dbmail_imap_session_set_state CLIENTSTATE_AUTHENTICATED;
        mret 0
      else mret (-1)
  end.

(** ** The thread pool and the queue of the main thread *)

(** [g_thread_pool_push] *)
Definition pool_push (j : job) : IM unit := fun w =>
  match pool w with None => (w <| pool := Some j |>, tt) | Some _ => undefined w end.

(** [dm_thread_data_push self enter _ic_cb_leave NULL] *)
Definition dm_thread_data_push (j : job) : IM unit :=
  updci ci_cork;;
  s ← self;
  if state s =? CLIENTSTATE_QUIT_QUEUED then skip
  else
    upd (fun s => s <| command_state := FALSE |>);; pool_push j.
(** [SESSION_RETURN]: the command is done and the main thread is told. *)
Definition SESSION_RETURN (status : Z) : IM unit :=
  upd (fun s => s <| command_state := TRUE |>);; push (QLeave status).
End world.
