(* ===== verification/ImapTokenizer.v ===== *)
(** * dm_imapsession.c and imap4.c: the IMAP command tokenizer

    A command line becomes the tag, the command and an array of arguments: atoms, quoted
    strings without their quotes, parentheses and brackets as arguments of their own, and
    literals, which arrive in further reads. The same function carries the dialogues of
    AUTHENTICATE. *)
From S2P Require Import Prelude.
From S2P Require Import CLib.
From S2P Require Import GLib.
From S2P Require Import Tree.
From S2P Require Import ListT.
From S2P Require Import ClientBase.
From S2P Require Import ClientSession.
From S2P Require Import GListUtil.
From S2P Require Import MailboxState.
From S2P Require Import MiscText.
From S2P Require Import Acl.
From S2P Require Import Cidr.
From S2P Require Import Capa.
From S2P Require Import Auth.
From S2P Require Import ImapSession.

(** ** The tokens of a line *)

(** How the loop ends: at the end of the line with the parentheses that are still open
    ([true] for a round one), at an unbalanced one, or at a literal. *)
Inductive tok_end := TokEnd (open : list bool) | TokBad | TokLiteral (octets : Z) (sync : bool).

Definition is_char (c d : ascii) : bool := bool_decide (c = d).
Definition is_prev (prev : option ascii) (c : ascii) : bool := bool_decide (prev = Some c).
Definition delimiter (c : ascii) : bool := in_set (lit " []()") c.

(** The length of an atom: a quote ends it unless a backslash stands in front. *)
Fixpoint atom_len (prev : option ascii) (s : cstr) : nat :=
  match s with
  | [] => O
  | c :: s' =>
      if delimiter c then O
      else if is_char c DQUOTE && negb (is_prev prev BACKSLASH) then O
      else S (atom_len (Some c) s')
  end.

(** What follows a brace at the end of a line: the number of octets, and whether the client
    waits for an answer. *)
Definition literal_size (s : cstr) : option (Z * bool) :=
  if bool_decide (scan_end s = lit "}") then Some (strtoull s, true)
  else if bool_decide (scan_end s = lit "+}") then Some (strtoull s, false)
  else None.

(** The open parentheses behind [c]; [None] is an error in their structure. *)
Definition parenthesis (c : ascii) (open : list bool) : option (list bool) :=
  if is_char c "(" then Some (true :: open)
  else if is_char c "[" then Some (false :: open)
  else match open with
       | b :: open => if Bool.eqb b (is_char c ")") then Some open else None
       | [] => None
       end.

(** The loop over the line: [prev] is the character in front of [s], [room] the number of
    arguments that still fit, [quote] what was read of a quoted string. *)
Fixpoint tokens (fuel : nat) (prev : option ascii) (s : cstr) (room : nat) (quote : option cstr) (open : list bool)
    : list cstr * tok_end :=
  match fuel, s, room with
  | S fuel, c :: s', S room' =>
      let emit t r := (t :: r.1, r.2) in
      if is_char c DQUOTE && negb (is_prev prev BACKSLASH) then
        match quote with
        | Some q => emit q (tokens fuel (Some c) s' room' None open)
        | None => tokens fuel (Some c) s' room (Some []) open
        end
      else
        match quote with
        | Some q => tokens fuel (Some c) s' room (Some (q ++ [c])) open
        | None =>
            if in_set (lit "()[]") c then
              match parenthesis c open with
              | None => ([], TokBad)
              | Some open => emit [c] (tokens fuel (Some c) s' room' None open)
              end
            else if is_char c SP then tokens fuel (Some c) s' room None open
            else
              match (if is_char c "{" then literal_size s' else None) with
              | Some (octets, sync) => ([], TokLiteral octets sync)
              | None =>
                  let n := atom_len prev s in
                  emit (take n s) (tokens fuel (last (take n s)) (drop n s) room' None open)
              end
        end
  | _, _, _ => ([], TokEnd open)
  end.

Section tokenizer.
Context `{ImapDB} `{ServerConf} `{ImapConf} `{GLibStr} `{GLibBase64} `{Digests} `{AuthTables} `{SocketLib}.

Definition matches (t : option cstr) (name : cstr) : bool :=
  match t with Some t => strcaseeq t name | None => false end.

(** The end of the tokenizer: a command whose only argument names an authentication
    mechanism asks the client to go on; otherwise the arguments are complete. *)
Definition finalize : IM Z :=
  s ← self;
  let sasl name := Capa_match (preauth_capa s) (lit "AUTH=" ++ name) && matches (arg_at s 0) name in
  let one := (args_idx s =? 1)%nat in
  if one && sasl (lit "LOGIN") then dbmail_imap_session_prompt (lit "username");; mret 0
  else if one && sasl (lit "PLAIN") then dbmail_imap_session_prompt [];; mret 0
  else if one && sasl (lit "CRAM-MD5") then
    challenge ← run_db generate_message_id;
    upd (fun s => s <| auth := Auth (mkcram challenge None []) |>);;
    buff_printf (lit "+ " ++ g_base64_encode challenge ++ crlf);;
    dbmail_imap_session_buff_flush;;
    mret 0
  else
    set_arg (args_idx s) None;; upd (fun s => s <| args_idx := 0%nat |>);; mret 1.

(** A literal is announced at the end of a line. *)
Definition announce_literal (octets : Z) (sync : bool) : IM Z :=
  s ← self;
  (if (0 <? conf_max_message_size) && (conf_max_message_size <? octets) then
     buff_printf (tag_str s ++ lit " NO " ++ command_str s ++ lit " failed: message size too large" ++ crlf);;
     upd (fun s => s <| command_state := TRUE |>)
   else
     updci (fun c => c <| rbuff_size ::= fun n => wrap64 (n + octets) |>);;
     when sync (buff_printf (lit "+ OK" ++ crlf)));;
  dbmail_imap_session_buff_flush;;
  mret 0.

(** The loop over a line without its line ending, and the end. *)
Definition tokenize_line (s : cstr) : IM Z :=
  z ← self;
  let '(ts, e) := tokens (length s) None s (MAX_ARGS - 1 - args_idx z) None [] in
  for_each add_arg ts;;
  match e with
  | TokBad => mret (-1)
  | TokLiteral octets sync => announce_literal octets sync
  | TokEnd [] => finalize
  | TokEnd _ => mret (-1)
  end.

(** A part of a literal; it is complete when no octet is missing. *)
Definition literal_part (buffer : cstr) : IM Z :=
  s ← self;
  let max := strlen buffer in
  when (rbuff_size (ci s) <? max) undefined;;
  set_arg (args_idx s) (Some (default [] (arg_at s (args_idx s)) ++ buffer));;
  updci (fun c => c <| rbuff_size ::= fun n => n - max |>);;
  s ← self;
  when (rbuff_size (ci s) =? 0) (upd (fun s => s <| args_idx ::= S |>));;
  mret 0.

(** The parts of a PLAIN response; [None] is a read behind its end. *)
Definition sasl_plain (bytes : list ascii) : option (cstr * cstr) :=
  '(_, rest) ← split_at bytes NUL;
  '(authcid, rest) ← split_at rest NUL;
  Some (authcid, cstring_of rest).

(** The continuation of an authentication dialogue; [None]: the line is a line like others. *)
Definition sasl_line (s : cstr) : IM (option Z) :=
  z ← self;
  if negb (bool_decide (is_Some (arg_at z 0))) then mret None
  else if strcaseeq s (lit "*") then mret (Some (-1))
  else if matches (arg_at z 0) (lit "LOGIN") then
    add_arg (dm_base64_decode s).1;;
    z ← self;
    if (args_idx z =? 3)%nat then r ← finalize; mret (Some r)
    else if (args_idx z =? 2)%nat then dbmail_imap_session_prompt (lit "password");; mret (Some 0)
    else mret None
  else if matches (arg_at z 0) (lit "PLAIN") then
    match sasl_plain (g_base64_decode s) with
    | Some (authcid, pass) => add_arg authcid;; add_arg pass;; r ← finalize; mret (Some r)
    | None => undefined;; mret (Some (-1))
    end
  else if matches (arg_at z 0) (lit "CRAM-MD5") && (args_idx z =? 1)%nat then
    match auth z with
    | Auth C =>
        let '(C, ok) := Cram_decode C s in
        if ok then
          upd (fun z => z <| auth := Auth C |> <| args_idx ::= S |>);; r ← finalize; mret (Some r)
        else upd (fun z => z <| auth := Freed |>);; mret (Some (-1))
    | _ => undefined;; mret (Some (-1))
    end
  else mret None.

Definition imap4_tokenizer_main (buffer : cstr) : IM Z :=
  match buffer with
  | [] => finalize
  | _ =>
      s ← self;
      if negb (rbuff_size (ci s) =? 0) then literal_part buffer
      else
        let line := g_strchomp buffer in
        r ← sasl_line line;
        match r with Some r => mret r | None => tokenize_line line end
  end.

(** ** Tag and command *)
Definition AcceptedTagChars : cstr :=
  lit "abcdefghijklmnopqrstuvwxyzABCDEFGHIJKLMNOPQRSTUVWXYZ0123456789!@#$%^&-=_`~\|'" ++ DQUOTE :: lit " ;:,.<>/? ".
Definition checktag (s : cstr) : bool := forallb (in_set AcceptedTagChars) s.
End tokenizer.
