(* ===== verification/ImapMailbox.v ===== *)
(** * dm_imapsession.c, dm_mailbox.c: the mailboxes of a session

    The cache of mailbox states and the selected one, message sets with the filter by
    modification sequence, the unsolicited responses that tell a client what other sessions
    changed, and the expunge. *)
From S2P Require Import Prelude.
From S2P Require Import CLib.
From S2P Require Import GLib.
From S2P Require Import Tree.
From S2P Require Import ListT.
From S2P Require Import ClientBase.
From S2P Require Import ClientSession.
From S2P Require Import GListUtil.
From S2P Require Import MailboxState.
From S2P Require Import MiscText.
From S2P Require Import SearchKeys.
From S2P Require Import SearchRun.
From S2P Require Import Acl.
From S2P Require Import Cidr.
From S2P Require Import Capa.
From S2P Require Import Auth.
From S2P Require Import ImapText.
From S2P Require Import ImapSession.

Section mailbox.
Context `{ImapDB} `{GLibStr} `{ServerConf} `{ImapConf}.

(** ** Access to the states *)

(** [MailboxState_new pool 0]: nothing is loaded. *)
Definition MailboxState_zero : MailboxState_T :=
  mkstate 0 0 0 0 0 0 0 0 [] g_tree_new g_tree_new g_tree_new g_tree_new [] false false false 0 0.

(** An operation on the state that a pointer leads to. *)
Definition on_state {A} (p : stateptr) (f : MailboxDB -> MailboxState_T -> MailboxState_T * A) : IM A :=
  s ← self;
  d ← database;
  match mbxinfo s !! p.1 with
  | Some (g, M) =>
      let '(M, x) := f (mailbox_answers d) M in
      when (negb (g =? p.2)%nat) undefined;;
      upd (fun s => s <| mbxinfo ::= <[p.1 := (g, M)]> |>);; mret x
  | None => undefined;; mret (f (mailbox_answers d) MailboxState_zero).2
  end.
Definition get_state (p : stateptr) : IM MailboxState_T := on_state p (fun _ M => (M, M)).
Definition upd_state (p : stateptr) (f : MailboxDB -> MailboxState_T -> MailboxState_T) : IM unit :=
  on_state p (fun d M => (f d M, tt)).
(** A state becomes the entry of the cache for its mailbox; the one that was there is freed. *)
Definition cache_state (id : Z) (M : MailboxState_T) : IM stateptr :=
  s ← self;
  upd (fun s => s <| mbxinfo ::= <[id := (generation s, M)]> |> <| generation ::= S |>);;
  mret (id, generation s).

(** [self->mailbox->mbstate] *)
Definition mbstate : IM stateptr :=
  s ← self;
  match (m ← mailbox s; mbx_state m) with
  | Some p => mret p
  | None => undefined;; mret (0, 0%nat)
  end.
Definition upd_mailbox (f : DbmailMailbox -> DbmailMailbox) : IM unit := upd (fun s => s <| mailbox ::= fmap f |>).
Definition the_mailbox : IM DbmailMailbox :=
  s ← self;
  match mailbox s with Some m => mret m | None => undefined;; mret (dbmail_mailbox_new 0) end.

(** The sequence of a mailbox as the data base has it, read through a fresh state. *)
Definition fresh_seq (id : Z) : IM Z :=
  d ← database; mret (@MailboxState_getSeq _ (mailbox_answers d) (MailboxState_setId MailboxState_zero id)).2.

(** [MailboxState_new], which yields freed memory when loading fails. *)
Definition load_state (id : Z) : IM MailboxState_T :=
  d ← database;
  if id =? 0 then mret MailboxState_zero
  else match MailboxState_new d id with Some M => mret M | None => undefined;; mret MailboxState_zero end.

(** The state of the selected mailbox, if that is the one that is asked for. *)
Definition selected_state (s : ImapSession) (id : Z) : option stateptr :=
  p ← (m ← mailbox s; mbx_state m); if p.1 =? id then Some p else None.

Definition dbmail_imap_session_mbxinfo_lookup (id : Z) : IM stateptr :=
  s ← self;
  match selected_state s id with
  | Some p => mret p
  | None =>
      match mbxinfo s !! id with
      | None => M ← load_state id; cache_state id M
      | Some (g, _) =>
          let p := (id, g) in
          oldseq ← on_state p (fun d M => @MailboxState_getSeq _ d M);
          newseq ← fresh_seq id;
          oldexists ← on_state p (fun _ M => MailboxState_getExists M);
          if wrap32 oldseq <? wrap32 newseq then
            N ← load_state id;
            let '(N, newexists) := MailboxState_getExists N in
            cache_state id (MailboxState_setExists N (Z.max oldexists newexists))
          else mret p
      end
  end.

(** ** Message sets *)
Definition dbmail_mailbox_get_set (set : cstr) (by_uid : bool) : IM (option (gtree Z)) :=
  m ← the_mailbox;
  match mbx_state m with
  | None => mret None
  | Some p => on_state p (fun _ M => mailbox_set (mbx_modseq m) M set by_uid)
  end.

(** ** Unsolicited responses *)
Definition flags_changed (old new : cstr) : bool := negb (strcaseeq old new).

(** [notify_fetch]: the response for one message that differs between the shown state [M] and
    the new one [N]. *)
Definition fetch_items (by_uid : bool) (condstore : bool) (u : Z) (old : option MessageInfo) (new : MessageInfo)
    (oldflags newflags : cstr) : option (list cstr) :=
  let modseqchanged := match old with Some o => mi_seq o <? mi_seq new | None => true end in
  let flagschanged := flags_changed oldflags newflags in
  if modseqchanged || flagschanged then
    Some ((if by_uid then [lit "UID " ++ dec_of u] else []) ++
          (if modseqchanged && condstore then [lit "MODSEQ (" ++ dec_of (mi_seq new) ++ lit ")"] else []) ++
          (if flagschanged then [lit "FLAGS " ++ newflags] else []))
  else None.

Definition notify_fetch (N : MailboxState_T) (u : Z) : IM MailboxState_T :=
  p ← mbstate;
  M ← get_state p;
  match (if u =? 0 then None else g_tree_lookup (msginfo N) u), g_tree_lookup (MailboxState.ids M) u with
  | Some new, Some n =>
      let N := MailboxState_merge_recent N M in
      let old := g_tree_lookup (msginfo M) u in
      let oldflags := dbmail_imap_plist_as_string (match old with Some o => MailboxState_message_flags M o | None => [] end) in
      let newflags := dbmail_imap_plist_as_string (MailboxState_message_flags N new) in
      s ← self;
      m ← the_mailbox;
      match fetch_items (use_uid s) (mbx_condstore m) u old new oldflags newflags with
      | Some items => buff_printf (lit "* " ++ dec_of n ++ lit " FETCH " ++ dbmail_imap_plist_as_string items ++ crlf);; mret N
      | None => mret N
      end
  | _, _ => mret N
  end.

(** [notify_expunge]: the answer is whether a walk is to end. *)
Definition notify_expunge (u : Z) : IM bool :=
  p ← mbstate;
  M ← get_state p;
  match g_tree_lookup (MailboxState.ids M) u with
  | None => mret true
  | Some n =>
      s ← self;
      if bool_decide (command_type s ∈ [IMAP_COMM_FETCH; IMAP_COMM_STORE; IMAP_COMM_SEARCH]) then mret false
      else
        r ← on_state p (fun _ M => MailboxState_removeUid M u);
        if r =? DM_SUCCESS then buff_printf (lit "* " ++ dec_of n ++ lit " EXPUNGE" ++ crlf);; mret false
        else mret true
  end.

(** A message of the new state that is gone is marked as one that the client knows about. *)
Definition gone (N : MailboxState_T) (u : Z) : bool :=
  bool_decide (is_Some (g_tree_lookup (msginfo N) u)) && negb (bool_decide (is_Some (g_tree_lookup (MailboxState.ids N) u))).
Definition mark_expunged (N : MailboxState_T) (u : Z) : MailboxState_T :=
  match g_tree_lookup (msginfo N) u with
  | Some info => if gone N u then N <| msginfo ::= fun t => g_tree_insert t u (info <| mi_expunged := 1 |>) |> else N
  | None => N
  end.
Definition mailbox_notify_expunge (N : MailboxState_T) : IM MailboxState_T :=
  p ← mbstate;
  M ← get_state p;
  let uids := reverse (g_tree_keys (MailboxState.ids M)) in
  match uids with
  | [] => skip
  | u :: _ =>
      e ← on_state p (fun _ M => MailboxState_getExists M);
      when (match g_tree_lookup (MailboxState.ids M) u with Some n => e <? n | None => false end)
        (buff_printf (lit "* " ++ sdec_of (to_int32 e) ++ lit " EXISTS" ++ crlf))
  end;;
  for_each (fun u => if gone N u then _ ← notify_expunge u; skip else skip) uids;;
  mret (foldl mark_expunged N uids).

(** [MailboxState_flush_recent] with its effect on the data base. *)
Definition flush_recent (p : stateptr) : IM unit :=
  r ← on_state p (fun d M => @MailboxState_flush_recent _ d M);
  match r with
  | Some (uids, seq) => run_db (fun d => (db_update_recent d uids seq, tt))
  | None => skip
  end.

Fixpoint notify_fetch_all (N : MailboxState_T) (uids : list Z) : IM MailboxState_T :=
  match uids with [] => mret N | u :: uids => N ← notify_fetch N u; notify_fetch_all N uids end.
Definition mailbox_notify_fetch (N : MailboxState_T) : IM unit :=
  p ← mbstate;
  M ← get_state p;
  N ← notify_fetch_all N (g_tree_keys (MailboxState.ids M));
  p ← cache_state p.1 N;
  upd_mailbox (fun m => m <| mbx_state := Some p |>);;
  flush_recent p.

Definition flags_responses (flags : cstr) : IM unit :=
  buff_printf (lit "* FLAGS (" ++ flags ++ lit ")" ++ crlf);;
  buff_printf (lit "* OK [PERMANENTFLAGS (" ++ flags ++ lit " \*)] Flags allowed." ++ crlf).

(** The new state of the selected mailbox, if its sequence has changed. *)
Definition reload_state (p : stateptr) : IM MailboxState_T :=
  if conf_update_strategy =? 2 then
    M ← get_state p;
    d ← database;
    match MailboxState_update d M with
    | Some (M, N) => upd_state p (fun _ _ => M);; mret N
    | None => undefined;; mret MailboxState_zero
    end
  else load_state p.1.

Definition shows_always (c : nat) : bool :=
  bool_decide (c ∈ [IMAP_COMM_EXAMINE; IMAP_COMM_SELECT; IMAP_COMM_SEARCH; IMAP_COMM_SORT]).

Definition dbmail_imap_session_mailbox_status (update : bool) : IM unit :=
  s ← self;
  if negb (state s =? CLIENTSTATE_SELECTED) then skip
  else if negb update then skip
  else
    p ← mbstate;
    oldseq ← on_state p (fun d M => @MailboxState_getSeq _ d M);
    M ← get_state p;
    let oldflags := MailboxState_flags M in
    oldexists ← on_state p (fun _ M => MailboxState_getExists M);
    let olduidnext := uidnext M in
    newseq ← fresh_seq p.1;
    if wrap32 oldseq =? wrap32 newseq then skip
    else
      N ← reload_state p;
      let '(N, newexists) := MailboxState_getExists N in
      let N := MailboxState_setExists N (Z.max oldexists newexists) in
      let always := shows_always (command_type s) in
      let '(N, e) := MailboxState_getExists N in
      when (((olduidnext <? uidnext N) || always) && negb (e =? 0)) (buff_printf (lit "* " ++ dec_of e ++ lit " EXISTS" ++ crlf));;
      when (negb (recent N =? 0)) (buff_printf (lit "* " ++ dec_of (recent N) ++ lit " RECENT" ++ crlf));;
      N ← mailbox_notify_expunge N;
      when (flags_changed oldflags (MailboxState_flags N)) (flags_responses (MailboxState_flags N));;
      mailbox_notify_fetch N.

(** ** Expunge *)

(** [_do_expunge] for one message; the walk goes on whatever it answers. *)
Definition _do_expunge (u : Z) : IM unit :=
  p ← mbstate;
  M ← get_state p;
  match g_tree_lookup (msginfo M) u with
  | None => skip
  | Some info =>
      if flag info IMAP_FLAG_DELETED =? 0 then skip
      else
        ok ← run_db (fun d => db_mark_deleted d u);
        if ok : bool then _ ← notify_expunge u; skip else skip
  end.

(** The result, and the new sequence or 0. *)
Definition dbmail_imap_session_mailbox_expunge (set : option cstr) : IM (Z * Z) :=
  p ← mbstate;
  M ← get_state p;
  let before := g_tree_nnodes (MailboxState.ids M) in
  if bool_decide (before = 0%nat) then mret (DM_SUCCESS, 0)
  else
    s ← self;
    size ← run_db (fun d => db_get_mailbox_size d p.1 true);
    match size with
    | None => mret (DM_EQUERY, 0)
    | Some size =>
        uids ← match set with
               | Some set => t ← dbmail_mailbox_get_set set (use_uid s); mret (match t with Some t => g_tree_keys t | None => [] end)
               | None => mret (g_tree_keys (MailboxState.ids M))
               end;
        for_each _do_expunge (reverse uids);;
        M ← get_state p;
        if bool_decide (g_tree_nnodes (MailboxState.ids M) < before)%nat then
          seq ← run_db (fun d => db_mailbox_seq_update d p.1 0);
          ok ← run_db (fun d => dm_quota_user_dec d (userid s) size);
          mret (if ok : bool then DM_SUCCESS else DM_EQUERY, seq)
        else mret (DM_SUCCESS, 0)
    end.
End mailbox.
