(* ===== verification/ImapFetch.v ===== *)
(** * dm_imapsession.c: FETCH

    The parser of the items of FETCH, which fills [fetch_items], and the formatter, which sends
    the response for each message. The messages, their headers and their envelopes are answers
    of the data base; the MIME texts are those of Mime. *)
From S2P Require Import Prelude CLib GLib Tree ListT ClientBase ClientSession GListUtil MailboxState MiscText MiscDate Acl Cidr Capa Auth ImapText Mime ImapSession ImapMailbox.

(** What FETCH reads. [header_rows mailbox ids not names first last] are the rows of the query
    for headers in its order: the message, the name and the value as UTF-7. A query yields its
    rows and whether it came to its end. *)
Class FetchDB `{ImapDB} := {
  dbmail_message_retrieve : db -> Z -> option gmime;
  db_get_msgflag_seen : db -> Z -> Z;
  db_set_msgflag : db -> Z -> list Z -> list cstr -> flag_action -> Z -> db * Z;
  envelope_rows : db -> Z -> Z -> Z -> list (Z * cstr) * bool;
  headername_ids : db -> cstr -> list Z * bool;
  header_rows : db -> Z -> list Z -> bool -> list cstr -> Z -> Z -> list (Z * cstr * option cstr) * bool;
}.

(** [MATCH] of an argument that may be missing. *)
Definition matches_arg (t : option cstr) (name : string) : bool :=
  match t with Some t => strcaseeq t (lit name) | None => false end.

Section fetch.
Context `{ImapDB} `{!FetchDB} `{GLibStr} `{ServerConf} `{ImapConf} `{GMimeLib} `{AuthNames}.

Definition upd_fetch (f : fetch_state -> fetch_state) : IM unit := upd (fun s => s <| fetch ::= f |>).
Definition upd_items (f : ImapSession.fetch_items -> ImapSession.fetch_items) : IM unit := upd_fetch (fun s => s <| fi ::= f |>).
Definition the_items : IM ImapSession.fetch_items := s ← self; mret (fi (fetch s)).

(** ** The items *)

(** The body_fetch that [fi->bodyfetch] points to. *)
Definition the_body : IM body_fetch :=
  f ← the_items;
  match (L ← bodyfetch f; p_list_data L) with
  | Some b => mret b
  | None => undefined;; mret body_new
  end.
Definition upd_body (g : body_fetch -> body_fetch) : IM unit :=
  _ ← the_body; upd_items (fun f => f <| bodyfetch ::= fmap (fun L => p_list_update L g) |>).

(** Numbers and dots: how many characters, and whether a number is open; [None] is a dot
    without a number. *)
Fixpoint partspec_scan (t : cstr) (indigit : bool) : option (nat * bool) :=
  match t with
  | c :: t' =>
      if isdigit c then '(j, b) ← partspec_scan t' true; Some (S j, b)
      else if bool_decide (c = "."%char) then
        (if indigit then '(j, b) ← partspec_scan t' false; Some (S j, b) else None)
      else Some (O, indigit)
  | [] => Some (O, indigit)
  end.

(** The walk to the parenthesis that closes a list of header names. *)
Fixpoint find_paren (fuel : nat) : IM unit :=
  match fuel with
  | O => skip
  | S fuel =>
      s ← self;
      match arg_at s (args_idx s) with
      | None => undefined
      | Some t => if strcaseeq t (lit ")") then skip else upd (fun s => s <| args_idx ::= S |>);; find_paren fuel
      end
  end.
Definition next_arg : IM unit := upd (fun s => s <| args_idx ::= S |>).
Definition need_message : IM unit := upd_items (fun f => f <| msgparse_needed := true |>).

(** The header names of HEADER.FIELDS. *)
Definition parse_header_list : IM Z :=
  next_arg;;
  s ← self;
  token ← arg_str (args_idx s);
  _ ← arg_str (S (args_idx s));
  if negb (strcaseeq token (lit "(")) then mret (-2)
  else
    next_arg;;
    s ← self; upd_body (fun b => b <| argstart := args_idx s |>);;
    find_paren MAX_ARGS;;
    s ← self;
    _ ← arg_str (args_idx s);
    nexttoken ← arg_str (S (args_idx s));
    upd_body (fun b => b <| argcnt := (args_idx s - argstart b)%nat |>);;
    b ← the_body;
    mret (if (argcnt b =? 0)%nat || negb (strcaseeq nexttoken (lit "]")) then -2 else 0).

(** The item behind a part number: its type, and whether the message has to be parsed. *)
Definition item_of (t : cstr) : option (body_item * bool) :=
  if strcaseeq t (lit "header.fields") then Some (BFIT_HEADER_FIELDS, false)
  else if strcaseeq t (lit "header.fields.not") then Some (BFIT_HEADER_FIELDS_NOT, false)
  else if strcaseeq t (lit "text") then Some (BFIT_TEXT, true)
  else if strcaseeq t (lit "header") then Some (BFIT_HEADER, true)
  else if strcaseeq t (lit "mime") then Some (BFIT_MIME, true)
  else match t with [] => Some (BFIT_ALL, true) | _ => None end.

Definition _imap_session_fetch_parse_partspec : IM Z :=
  s ← self;
  token ← arg_str (args_idx s);
  nexttoken ← arg_str (S (args_idx s));
  match partspec_scan token false with
  | None => mret (-2)
  | Some (j, indigit) =>
      let part := drop j token in
      if bool_decide (0 < j)%nat && ((indigit && negb (bool_decide (part = []))) || bool_decide (IMAP_MAX_PARTSPEC_LEN <= j)%nat)
      then mret (-2)
      else
        when (bool_decide (0 < j)%nat) (upd_body (fun b => b <| partspec := take j token |>));;
        match item_of part with
        | None => mret (-2)
        | Some (item, parse) =>
            when parse need_message;;
            if bool_decide (item = BFIT_MIME) && bool_decide (j = 0)%nat then mret (-2)
            else
              upd_body (fun b => b <| itemtype := item |>);;
              if parse then mret (if strcaseeq nexttoken (lit "]") then 0 else -2) else parse_header_list
        end
  end.

(** The part of a token between [<] and [>]: the numbers around its only dot. *)
Definition octet_range (token : cstr) : option (Z * Z) :=
  let inner := drop 1 (take (length token - 1) token) in
  if negb (bool_decide (last token = Some ">"%char)) then None
  else
    '(a, b) ← split_at inner "."%char;
    if bool_decide (a = []) || bool_decide (b = []) || negb (forallb isdigit a) || negb (forallb isdigit b) then None
    else Some (strtoull a, wrap64 (strtoll b)).
Definition RANGESIZE : nat := 128.
Definition _imap_session_fetch_parse_octet_range : IM Z :=
  s ← self;
  match take (RANGESIZE - 1) <$> arg_at s (args_idx s) with
  | None | Some [] => mret 0
  | Some ((c :: _) as token) =>
      if bool_decide (c = "<"%char) then
        match octet_range token with
        | None => mret (-2)
        | Some (start, cnt) =>
            need_message;;
            upd_body (fun b => b <| octetstart := start |> <| octetcnt := cnt |>);;
            next_arg;; mret 0
        end
      else
        upd (fun s => s <| args_idx ::= pred |>);;
        s ← self; mret (Z.of_nat (args_idx s))
  end.

(** BODY or BODY.PEEK. *)
Definition parse_body (ispeek : bool) : IM Z :=
  upd_items (fun f => f <| bodyfetch ::= fun L => (fun L => p_list_append L (Some body_new)) <$> L |>);;
  s ← self;
  if negb (matches_arg (arg_at s (S (args_idx s))) "[") then
    if ispeek then mret (-2)
    else upd_items (fun f => f <| msgparse_needed := true |> <| getMIME_IMB_noextension := true |>);; mret 1
  else
    next_arg;; next_arg;;
    s ← self;
    if matches_arg (arg_at s (args_idx s)) "]" then
      upd_items (fun f => if ispeek then f <| msgparse_needed := true |> <| getBodyTotalPeek := true |>
                          else f <| msgparse_needed := true |> <| getBodyTotal := true |>);;
      next_arg;; _imap_session_fetch_parse_octet_range
    else
      when ispeek (upd_items (fun f => f <| noseen := true |>));;
      r ← _imap_session_fetch_parse_partspec;
      if r <? 0 then mret (-2) else next_arg;; next_arg;; _imap_session_fetch_parse_octet_range.

(** What an item without arguments of its own sets. *)
Definition simple_item (t : cstr) : option (ImapSession.fetch_items -> ImapSession.fetch_items) :=
  let parsed f := f <| msgparse_needed := true |> in
  let fast f := f <| getInternalDate := true |> <| getFlags := true |> <| getSize := true |> in
  if strcaseeq t (lit "flags") then Some (fun f => f <| getFlags := true |>)
  else if strcaseeq t (lit "internaldate") then Some (fun f => f <| getInternalDate := true |>)
  else if strcaseeq t (lit "uid") then Some (fun f => f <| getUID := true |>)
  else if strcaseeq t (lit "rfc822.size") then Some (fun f => f <| getSize := true |>)
  else if strcaseeq t (lit "fast") then Some fast
  else if strcaseeq t (lit "rfc822") then Some (fun f => parsed f <| getRFC822 := true |>)
  else if strcaseeq t (lit "rfc822.header") then Some (fun f => parsed f <| getRFC822Header := true |>)
  else if strcaseeq t (lit "rfc822.peek") then Some (fun f => parsed f <| getRFC822Peek := true |>)
  else if strcaseeq t (lit "rfc822.text") then Some (fun f => parsed f <| getRFC822Text := true |>)
  else if strcaseeq t (lit "all") then Some (fun f => fast (parsed f) <| getEnvelope := true |>)
  else if strcaseeq t (lit "full") then Some (fun f => fast (parsed f) <| getEnvelope := true |> <| getMIME_IMB_noextension := true |>)
  else if strcaseeq t (lit "bodystructure") then Some (fun f => parsed f <| getMIME_IMB := true |>)
  else if strcaseeq t (lit "envelope") then Some (fun f => f <| getEnvelope := true |>)
  else None.

(** The extensions CONDSTORE and QRESYNC; anything else is passed over. *)
Definition parse_extension (t : cstr) : IM Z :=
  s ← self;
  let condstore := Capa_match (capa s) (lit "CONDSTORE") in
  if condstore && strcaseeq t (lit "changedsince") then
    n ← arg_str (S (args_idx s));
    let '(seq, rest) := dm_strtoull n in
    if bool_decide (rest = n) then mret (-2)
    else
      upd_items (fun f => f <| changedsince := seq |>);;
      _ ← the_mailbox;
      upd_mailbox (fun m => m <| mbx_condstore := true |>);;
      next_arg;; mret 1
  else if condstore && strcaseeq t (lit "modseq") then
    _ ← the_mailbox; upd_mailbox (fun m => m <| mbx_condstore := true |>);; mret 1
  else if strcaseeq t (lit "vanished") then
    if en_qresync s && use_uid s then upd_items (fun f => f <| vanished := true |>);; mret 1 else mret (-2)
  else mret 1.

Definition dbmail_imap_session_fetch_parse_args : IM Z :=
  s ← self;
  let nexttoken := arg_at s (S (args_idx s)) in
  match arg_at s (args_idx s) with
  | None => mret (-1)
  | Some token =>
      if bool_decide (char_at token 0 = ")"%char) && bool_decide (nexttoken = None) then mret (-1)
      else if bool_decide (char_at token 0 = "("%char) then mret 1
      else match simple_item token with
           | Some f => upd_items f;; mret 1
           | None =>
               if strcaseeq token (lit "body") then parse_body false
               else if strcaseeq token (lit "body.peek") then parse_body true
               else parse_extension token
           end
  end.

(** The loop of [_ic_fetch_enter] over the items; the result is whether there was an error. *)
Fixpoint fetch_parse_loop (fuel : nat) : IM bool :=
  match fuel with
  | O => mret false
  | S fuel =>
      state ← dbmail_imap_session_fetch_parse_args;
      if state =? -2 then mret true
      else next_arg;; if 0 <? state then fetch_parse_loop fuel else mret false
  end.

(** ** The response *)
Definition SEND_SPACE : IM unit :=
  f ← the_items;
  if isfirstfetchout f then upd_items (fun f => f <| isfirstfetchout := false |>) else buff_printf [SP].

(** [send_data] in pieces that fit its buffer; nothing is sent of a stream that is too short. *)
Definition SEND_BUF_SIZE : nat := Z.to_nat 8192.
Fixpoint send_pieces (fuel : nat) (t : cstr) : IM unit :=
  match fuel, t with
  | S fuel, _ :: _ => buff_printf (take (SEND_BUF_SIZE - 1) t);; send_pieces fuel (drop (SEND_BUF_SIZE - 1) t)
  | _, _ => skip
  end.
Definition send_data (stream : cstr) (offset len : Z) : IM unit :=
  if strlen stream <? wrap64 (offset + len) then skip
  else let t := take (Z.to_nat len) (drop (Z.to_nat offset) stream) in send_pieces (length t) t.

(** The message that is loaded, by its physical id. *)
Definition loaded_message : IM gmime :=
  s ← self;
  match message (fetch s) with
  | Some (_, o) => mret o
  | None => undefined;; mret (GPart (mkmime None [] None [] None [] None None None))
  end.
Definition crlf_text (o : gmime) : cstr := get_crlf_encoded (whole_text (info o)).

(** The physical id of the message, remembered for the session. *)
Definition physid_of (p : stateptr) (u : Z) : IM Z :=
  s ← self;
  match physids (fetch s) !! u with
  | Some id => mret id
  | None =>
      M ← get_state p;
      id ← match g_tree_lookup (msginfo M) u with Some info => mret (mi_phys info) | None => undefined;; mret 0 end;
      upd_fetch (fun s => s <| physids ::= <[u := id]> |>);; mret id
  end.
Definition dbmail_imap_session_message_load : IM bool :=
  s ← self;
  p ← mbstate;
  id ← physid_of p (msg_idnr (fetch s));
  upd_fetch (fun s => s <| message ::= fun m => match m with Some (i, o) => if i =? id then Some (i, o) else None | None => None end |>);;
  s ← self;
  match message (fetch s) with
  | Some _ => mret true
  | None =>
      when (id =? 0) undefined;;
      d ← database;
      match dbmail_message_retrieve d id with
      | Some o => upd_fetch (fun s => s <| message := Some (id, o) |>);; mret true
      | None => mret false
      end
  end.

(** The last id of the batch that starts at [lo]. *)
Definition QUERY_BATCHSIZE : Z := 2000.
Definition batch_end : IM Z :=
  s ← self;
  let n := lo (fetch s) + QUERY_BATCHSIZE in
  match (if n <? Z.of_nat (length (ids_list s)) then ids_list s !! Z.to_nat n else last (ids_list s)) with
  | Some u => upd_fetch (fun s => s <| hi := u |>);; mret u
  | None => undefined;; mret 0
  end.
Definition wanted (s : ImapSession) (u : Z) : bool := bool_decide (u ∈ default [] (ids s)).

(** *** Header fields *)

(** The names of a header list: the arguments, and their text. *)
Definition header_names (b : body_fetch) : IM (cstr * list cstr) :=
  match hdrs b with
  | Some h => mret h
  | None =>
      s ← self;
      let names := default [] <$> take (argcnt b) (drop (argstart b) (args s)) in
      mret (dbmail_imap_plist_as_string names, names)
  end.
Definition send_headers (b : body_fetch) (not : bool) (u : Z) (plist : cstr) : IM unit :=
  buff_printf (lit "HEADER.FIELDS" ++ (if not then lit ".NOT" else []) ++ SP :: plist ++ lit "] ");;
  match default ∅ (header_cache b) !! u with
  | None => buff_printf (lit "{2}" ++ crlf ++ crlf)
  | Some s =>
      let tmp := get_crlf_encoded s in
      if 0 <? octetcnt b then
        let tmp := if (0 <? octetstart b) && (octetstart b <? strlen tmp) then drop (Z.to_nat (octetstart b)) tmp else tmp in
        let tmp := if octetcnt b <? strlen tmp then take (Z.to_nat (octetcnt b)) tmp else tmp in
        buff_printf (lit "<" ++ dec_of (octetstart b) ++ lit "> {" ++ dec_of (strlen tmp + 2) ++ lit "}" ++ crlf ++ tmp ++ crlf)
      else buff_printf (lit "{" ++ dec_of (strlen tmp + 2) ++ lit "}" ++ crlf ++ tmp ++ crlf)
  end.

(** A row becomes a line of the cached headers of its message. *)
Definition header_line (name value : cstr) : cstr :=
  match name with c :: n => toupper c :: n | [] => [] end ++ lit ": " ++ value ++ [LF].
Definition cache_row (s : ImapSession) (cache : gmap Z cstr) (row : Z * cstr * option cstr) : gmap Z cstr :=
  let '(u, name, value) := row in
  if wanted s u then
    match value with
    | Some v => <[u := default [] (cache !! u) ++ header_line name v]> cache
    | None => cache
    end
  else cache.
(** The ids of the header names; a query that fails is reported at the end. *)
Fixpoint names_ids (d : db) (names : list cstr) : list Z * bool :=
  match names with
  | [] => ([], true)
  | n :: names =>
      let '(l, ok) := names_ids d names in
      let '(ids, good) := headername_ids d (tolower <$> n) in (ids ++ l, good && ok)
  end.

(** The loop over the sections works on the list of body_fetches; [k] is the number of the one
    at hand. *)
Definition upd_nth (k : nat) (g : body_fetch -> body_fetch) : IM unit :=
  upd_items (fun f => f <| bodyfetch ::= fmap (fun L => mkplist (alter (fmap g) k (items L)) (pos L)) |>).
Definition nth_body (k : nat) : IM body_fetch :=
  f ← the_items;
  match (L ← bodyfetch f; mjoin (items L !! k)) with Some b => mret b | None => undefined;; mret body_new end.

Definition _fetch_headers (k : nat) (not : bool) : IM unit :=
  b ← nth_body k;
  when (bool_decide (header_cache b = None))
    (upd_nth k (fun b => b <| header_cache := Some ∅ |>);;
     upd_fetch (fun s => s <| ceiling := 0 |> <| hi := 0 |> <| lo := 0 |>));;
  h ← header_names b;
  let '(plist, names) := h in
  upd_nth k (fun b => b <| hdrs := Some h |>);;
  s ← self;
  let u := msg_idnr (fetch s) in
  if u <=? ceiling (fetch s) then b ← nth_body k; send_headers b not u plist
  else
    hi ← batch_end;
    m ← the_mailbox;
    d ← database;
    let '(ids, ok) := if not then ([], true) else names_ids d names in
    let '(rows, good) := header_rows d (mbx_id m) (0 :: ids) not names u hi in
    upd_nth k (fun b => b <| header_cache ::= fmap (fun c => foldl (cache_row s) c rows) |>);;
    if negb (ok && good) then skip
    else
      upd_fetch (fun s => s <| lo ::= fun n => n + QUERY_BATCHSIZE |> <| ceiling := hi |>);;
      b ← nth_body k; send_headers b not u plist.

(** *** Parts *)
Definition get_dumpsize (b : body_fetch) (dumpsize : Z) : Z :=
  if dumpsize <? octetstart b then 0
  else if octetcnt b <? wrap64 (octetstart b + dumpsize) then octetcnt b
  else dumpsize - octetstart b.
Definition _imap_send_part (part : option gmime) (b : body_fetch) (type : option cstr) : IM unit :=
  match part with
  | None => buff_printf (lit "] NIL")
  | Some o =>
      let str := imap_get_logical_part o type in
      match str with
      | [] => buff_printf (lit "] NIL")
      | _ =>
          if 0 <? octetcnt b then
            let cnt := get_dumpsize b (strlen str) in
            buff_printf (lit "]<" ++ dec_of (octetstart b) ++ lit "> {" ++ dec_of cnt ++ lit "}" ++ crlf);;
            buff_printf (take (Z.to_nat cnt) (drop (Z.to_nat (octetstart b `min` strlen str)) str))
          else
            buff_printf (lit "] {" ++ dec_of (strlen str) ++ lit "}" ++ crlf);;
            buff_printf str
      end
  end.

Definition _imap_show_body_section (k : nat) (b : body_fetch) : IM unit :=
  s ← self;
  f ← the_items;
  if bool_decide (itemtype b = BFIT_NONE) then skip
  else if msgparse_needed f && bool_decide (head (partspec b) = Some "0"%char) then
    buff_printf (crlf ++ tag_str s ++ lit " BAD protocol error" ++ crlf)
  else
    part ← (if msgparse_needed f then
              o ← loaded_message; mret (match partspec b with [] => Some o | t => imap_get_partspec o t end)
            else mret None);
    SEND_SPACE;;
    when (negb (noseen f)) (upd_items (fun f => f <| setseen := true |>));;
    buff_printf (lit "BODY[" ++ partspec b);;
    match itemtype b with
    | BFIT_ALL => _imap_send_part part b None
    | BFIT_TEXT => buff_printf (lit "TEXT");; _imap_send_part part b (Some (lit "TEXT"))
    | BFIT_HEADER => buff_printf (lit "HEADER");; _imap_send_part part b (Some (lit "HEADER"))
    | BFIT_MIME => buff_printf (lit "MIME");; _imap_send_part part b (Some (lit "MIME"))
    | BFIT_HEADER_FIELDS_NOT => _fetch_headers k true
    | BFIT_HEADER_FIELDS => _fetch_headers k false
    | BFIT_NONE => skip
    end.
Fixpoint show_sections (k : nat) (l : list (option body_fetch)) : IM unit :=
  match l with
  | [] => skip
  | Some b :: l => _imap_show_body_section k b;; show_sections (S k) l
  | None :: l => show_sections (S k) l
  end.
Definition _imap_show_body_sections : IM unit :=
  f ← the_items;
  match bodyfetch f with None => skip | Some L => show_sections 0 (items L) end.

(** *** Envelopes *)
Definition cache_envelope (s : ImapSession) (cache : gmap Z cstr) (row : Z * cstr) : gmap Z cstr :=
  if wanted s row.1 then <[row.1 := row.2]> cache else cache.
Definition _fetch_envelopes : IM unit :=
  s ← self;
  when (bool_decide (envelopes (fetch s) = None)) (upd_fetch (fun s => s <| envelopes := Some ∅ |> <| lo := 0 |> <| hi := 0 |>));;
  s ← self;
  let u := msg_idnr (fetch s) in
  match default ∅ (envelopes (fetch s)) !! u with
  | Some t => buff_printf (lit "ENVELOPE " ++ t)
  | None =>
      hi ← batch_end;
      m ← the_mailbox;
      d ← database;
      let '(rows, good) := envelope_rows d (mbx_id m) u hi in
      upd_fetch (fun z => z <| envelopes ::= fmap (fun c => foldl (cache_envelope s) c rows) |>);;
      if negb good then skip
      else
        upd_fetch (fun s => s <| lo ::= fun n => n + QUERY_BATCHSIZE |>);;
        s ← self; buff_printf (lit "ENVELOPE " ++ default [] (default ∅ (envelopes (fetch s)) !! u))
  end.

(** *** One message *)

(** A body structure, and whether the response goes on. *)
Definition send_structure (name : string) (ext : bool) (error : string) : IM bool :=
  SEND_SPACE;;
  o ← loaded_message;
  match imap_get_structure (Some o) ext with
  | None => undefined;; mret false
  | Some None => dbmail_imap_session_buff_clear;; buff_printf (crlf ++ lit "* BYE " ++ lit error ++ crlf);; mret false
  | Some (Some t) => buff_printf (lit name ++ SP :: t);; mret true
  end.
(** BODY[] with the octets of the BODY item that was parsed last. *)
Definition send_total (stream : cstr) : IM unit :=
  let size := strlen stream in
  SEND_SPACE;;
  b ← the_body;
  (if octetcnt b =? 0 then
     buff_printf (lit "BODY[] {" ++ dec_of size ++ lit "}" ++ crlf);; send_data stream 0 size
   else
     let start := octetstart b in
     let len := if start <=? size then (if size <? wrap64 (start + octetcnt b) then size - start else octetcnt b) else 0 in
     buff_printf (lit "BODY[]<" ++ dec_of start ++ lit "> {" ++ dec_of len ++ lit "}" ++ crlf);; send_data stream start len);;
  upd_items (fun f => if getBodyTotal f then f <| setseen := true |> else f).
Definition send_logical (name : string) (part : string) : IM unit :=
  SEND_SPACE;;
  o ← loaded_message;
  let t := imap_get_logical_part o (Some (lit part)) in
  buff_printf (lit name ++ lit " {" ++ dec_of (strlen t) ++ lit "}" ++ crlf ++ t).

(** The items of a message from the state of the mailbox. *)
Definition send_info (p : stateptr) (msginfo : MessageInfo) : IM unit :=
  f ← the_items;
  s ← self;
  m ← the_mailbox;
  when (mbx_condstore m || en_qresync s)
    (SEND_SPACE;; buff_printf (lit "MODSEQ (" ++ dec_of (if mi_seq msginfo =? 0 then 1 else mi_seq msginfo) ++ lit ")"));;
  when (getInternalDate f)
    (SEND_SPACE;; buff_printf (lit "INTERNALDATE " ++ DQUOTE :: date_sql2imap (mi_internaldate msginfo) ++ [DQUOTE]));;
  when (getSize f) (SEND_SPACE;; buff_printf (lit "RFC822.SIZE " ++ dec_of (mi_rfcsize msginfo)));;
  when (getFlags f)
    (SEND_SPACE;; M ← get_state p;
     buff_printf (lit "FLAGS " ++ dbmail_imap_plist_as_string (MailboxState_message_flags M msginfo)));;
  when (getUID f) (SEND_SPACE;; buff_printf (lit "UID " ++ dec_of (uid msginfo))).

(** The texts of the message. *)
Definition send_texts (stream : cstr) : IM unit :=
  f ← the_items;
  when (getEnvelope f) (SEND_SPACE;; _fetch_envelopes);;
  when (getRFC822 f || getRFC822Peek f)
    (SEND_SPACE;; buff_printf (lit "RFC822 {" ++ dec_of (strlen stream) ++ lit "}" ++ crlf);;
     send_data stream 0 (strlen stream);;
     when (getRFC822 f) (upd_items (fun f => f <| setseen := true |>)));;
  when (getBodyTotal f || getBodyTotalPeek f) (send_total stream);;
  when (getRFC822Header f) (send_logical "RFC822.HEADER" "HEADER");;
  when (getRFC822Text f) (send_logical "RFC822.TEXT" "TEXT";; upd_items (fun f => f <| setseen := true |>));;
  _imap_show_body_sections.

(** The flag \Seen is set; the result is whether it has to be reported, [None] an error. *)
Definition SEEN_ONLY : list Z := [1; 0; 0; 0; 0; 0].
Definition fetch_failed : IM (option bool) :=
  dbmail_imap_session_buff_clear;; buff_printf (crlf ++ lit "* BYE internal dbase error" ++ crlf);; mret None.
Definition set_seen (p : stateptr) (u : Z) : IM (option bool) :=
  f ← the_items;
  d ← database;
  if setseen f && negb (db_get_msgflag_seen d u =? 1) then
    s ← self;
    result ← on_state p (fun d M => acl_has_right (H0 := d) M (userid s) ACL_RIGHT_SEEN);
    if result =? -1 then fetch_failed
    else
      r ← (if result =? 1 then
             upd_state p (fun _ M => M <| msginfo ::= fun t =>
               match g_tree_lookup t u with Some i => g_tree_insert t u (i <| flags ::= <[IMAP_FLAG_SEEN := 1]> |>) | None => t end |>);;
             result ← run_db (fun d => db_set_msgflag d u SEEN_ONLY [] IMAPFA_ADD 0);
             if result =? -1 then fetch_failed
             else M ← get_state p; _ ← run_db (fun d => db_mailbox_seq_update d (mb_id M) u); mret (Some true)
           else mret (Some false));
      when (bool_decide (is_Some r)) (upd_items (fun f => f <| getFlags := true |>));;
      mret r
  else mret (Some false).

Definition _fetch_get_items (u : Z) : IM Z :=
  p ← mbstate;
  M ← get_state p;
  match g_tree_lookup (msginfo M) u with
  | None => mret 0
  | Some info =>
      match g_tree_lookup (MailboxState.ids M) u with
      | None => mret (-1)
      | Some msn =>
          f ← the_items;
          if negb (changedsince f =? 0) && (mi_seq info <=? changedsince f) then mret 0
          else
            upd_fetch (fun s => s <| msg_idnr := u |> <| fi ::= fun f => f <| isfirstfetchout := true |> |>);;
            loaded ← (if msgparse_needed f then dbmail_imap_session_message_load else mret true);
            if negb loaded then mret 0
            else
              stream ← (if msgparse_needed f then o ← loaded_message; mret (crlf_text o) else mret []);
              buff_printf (lit "* " ++ dec_of msn ++ lit " FETCH (");;
              send_info p info;;
              ok ← (if getMIME_IMB f then send_structure "BODYSTRUCTURE" true "error fetching body structure" else mret true);
              ok ← (if ok && getMIME_IMB_noextension f then send_structure "BODY" false "error fetching body" else mret ok);
              if negb ok then mret (-1)
              else
                send_texts stream;;
                reportflags ← set_seen p u;
                match reportflags with
                | None => mret (-1)
                | Some report =>
                    buff_printf (lit ")" ++ crlf);;
                    when report
                      (s ← self; M ← get_state p;
                       let info := default info (g_tree_lookup (msginfo M) u) in
                       buff_printf (lit "* " ++ dec_of msn ++ lit " FETCH (" ++ (if use_uid s then lit "UID " ++ dec_of u ++ [SP] else []) ++
                         lit "FLAGS " ++ dbmail_imap_plist_as_string (MailboxState_message_flags M info) ++ lit ")" ++ crlf));;
                    mret 0
                end
      end
  end.

(** [_do_fetch] for the messages of the set, up to the first error. *)
Fixpoint fetch_all (uids : list Z) : IM bool :=
  match uids with
  | [] => mret true
  | u :: uids =>
      r ← _fetch_get_items u;
      if r <? 0 then dbmail_imap_session_buff_clear;; mret false
      else dbmail_imap_session_buff_flush;; fetch_all uids
  end.
Definition dbmail_imap_session_fetch_get_items : IM Z :=
  s ← self;
  match ids s with
  | None => mret 0
  | Some l => ok ← fetch_all l; dbmail_imap_session_buff_flush;; mret (if ok : bool then 0 else -1)
  end.

(** [dbmail_imap_session_fetch_free] without [all]. *)
Definition dbmail_imap_session_fetch_free : IM unit :=
  upd (fun s => s <| ids := None |> <| ids_list := [] |> <| fetch ::= fun z => z <| envelopes := None |> <| fi := items_zero |> |>).
End fetch.
