(* ===== verification/ImapCommands.v ===== *)
(** * imapcommands.c: commands before a mailbox is selected

    The state and argument check of every command, the commands of any state, authentication,
    the selection of a mailbox with CONDSTORE and QRESYNC, the commands that create, delete,
    rename, subscribe and list mailboxes, their status, quota, access control lists and name
    spaces. An [_ic_*_enter] function is a computation of the thread pool whose result is the
    status for the main thread; the commands themselves are in [ImapDispatch]. *)
From S2P Require Import Prelude.
From S2P Require Import CLib.
From S2P Require Import GLib.
From S2P Require Import Tree.
From S2P Require Import ListT.
From S2P Require Import ClientBase.
From S2P Require Import ClientSession.
From S2P Require Import GListUtil.
From S2P Require Import MailboxState.
From S2P Require Import MiscText.
From S2P Require Import SearchKeys.
From S2P Require Import Acl.
From S2P Require Import Cidr.
From S2P Require Import Capa.
From S2P Require Import Auth.
From S2P Require Import ImapText.
From S2P Require Import ImapSession.
From S2P Require Import ImapMailbox.


(** ** The statements the commands execute

    Results are those of the C functions; an identifier that a function stores is a second
    component. *)
Class ImapStore `{ImapDB} := {
  db_findmailbox : db -> cstr -> Z -> db * (Z * Z);
  db_createmailbox : db -> cstr -> Z -> db * (Z * Z);
  db_mailbox_create_with_parents : db -> cstr -> Z -> db * (Z * cstr);
  db_listmailboxchildren : db -> Z -> Z -> db * (Z * list Z);
  db_isselectable : db -> Z -> db * Z;
  mailbox_is_writable : db -> Z -> db * bool;
  db_purge_mailbox : db -> Z -> db * bool;             (** marks the messages, sets no_select *)
  db_delete_mailbox : db -> Z -> db * Z;
  db_setmailboxname : db -> Z -> cstr -> db * Z;
  db_movemsg : db -> Z -> Z -> db * Z;
  db_subscribe : db -> Z -> Z -> db * Z;
  db_unsubscribe : db -> Z -> Z -> db * Z;
  db_findmailbox_by_regex : db -> Z -> cstr -> bool -> db * (Z * list Z);
  db_getmailboxname : db -> Z -> Z -> db * (Z * cstr);
  MailboxState_info : db -> MailboxState_T -> db * (Z * MailboxState_T);
  MailboxState_count : db -> MailboxState_T -> db * MailboxState_T;
  auth_getmaxmailsize : db -> Z -> db * (Z * Z);       (** result and size *)
  dm_quota_user_get : db -> Z -> db * (Z * Z);         (** result and usage *)
  acl_tables : db -> acldb;
  with_acl_tables : db -> acldb -> db;
}.

Section commands.
Context `{ImapDB} `{!ImapStore} `{GLibStr} `{ServerConf} `{ImapConf} `{GLibBase64} `{Digests} `{AuthTables}
  `{SocketLib} `{AuthNames}.

(** ** Checks and replies *)
Definition BAD (text : cstr) : IM unit := s ← self; buff_printf (tag_str s ++ lit " BAD " ++ text ++ crlf).
Definition NO (text : cstr) : IM unit := s ← self; buff_printf (tag_str s ++ lit " NO " ++ text ++ crlf).
Definition BYE (text : cstr) : IM unit := buff_printf (lit "* BYE " ++ text ++ crlf).

Definition state_allowed (required current : Z) : bool :=
  (required =? CLIENTSTATE_ANY) || (current =? required) ||
  ((required =? CLIENTSTATE_AUTHENTICATED) && (current =? CLIENTSTATE_SELECTED)).
(** The arguments that are left, up to the first NULL. *)
Fixpoint args_from (l : list (option cstr)) : list cstr := match l with Some t :: l => t :: args_from l | _ => [] end.
Definition args_left (s : ImapSession) : nat := length (args_from (drop (args_idx s) (args s))).

Definition check_state_and_args (minargs maxargs : nat) (required : Z) : IM bool :=
  s ← self;
  if state s =? CLIENTSTATE_ERROR then mret false
  else if negb (state_allowed required (state s)) then
    BAD (command_str s ++ lit " command received in invalid state [" ++ sdec_of (state s) ++ lit "] != [" ++
         sdec_of required ++ lit "]");; mret false
  else if bool_decide (args_left s < minargs)%nat then
    BAD (lit "missing argument" ++ (if (minargs =? 1)%nat then [] else lit "(s)") ++ lit " to " ++ command_str s);; mret false
  else if bool_decide (0 < maxargs < args_left s)%nat then
    BAD (lit "too many arguments to " ++ command_str s);; mret false
  else mret true.

(** [SESSION_OK_COMMON]; [code] is a response code with its brackets and a blank, or empty. *)
Definition SESSION_OK_COMMON (code : cstr) : IM unit :=
  s ← self;
  when (negb (state s =? CLIENTSTATE_ERROR))
    (buff_printf (tag_str s ++ lit " OK " ++ code ++ (if use_uid s then lit "UID " else []) ++ command_str s ++
                  lit " completed" ++ crlf)).
Definition SESSION_OK : IM unit := SESSION_OK_COMMON [].
Definition SESSION_OK_WITH_RESP_CODE (value : cstr) : IM unit := SESSION_OK_COMMON (lit "[" ++ value ++ lit "] ").
(** The ends of a job: the answer and the status. *)
Definition ok : IM Z := SESSION_OK;; mret 0.
Definition no (status : Z) (text : cstr) : IM Z := NO text;; mret status.
Definition bad (text : cstr) : IM Z := BAD text;; mret 1.
Definition bye (status : Z) (text : cstr) : IM Z := BYE text;; mret status.
Definition arg0 : IM cstr := s ← self; arg_str (args_idx s).
Definition arg1 : IM cstr := s ← self; arg_str (args_idx s + 1).

(** ** Any state *)
Definition _ic_capability_enter : IM Z :=
  s ← self;
  t ← (if state s =? CLIENTSTATE_NON_AUTHENTICATED then preauth_string else capa_string);
  buff_printf (lit "* " ++ command_str s ++ SP :: t ++ crlf);; ok.

Definition _ic_noop_enter : IM Z :=
  s ← self;
  when (state s =? CLIENTSTATE_SELECTED) (dbmail_imap_session_mailbox_status true);; ok.

Definition quoted (t : cstr) : cstr := DQUOTE :: t ++ [DQUOTE].
Definition _ic_id_enter : IM Z :=
  buff_printf (lit "* ID (" ++ quoted (lit "name") ++ SP :: quoted (lit "dbmail") ++ SP :: quoted (lit "version") ++
    SP :: quoted conf_version ++ SP :: quoted (lit "os") ++ SP :: quoted conf_os.1 ++ SP :: quoted (lit "os-version") ++
    SP :: quoted conf_os.2 ++ lit ")" ++ crlf);; ok.

(** ** Authentication *)
Definition _ic_authenticate_enter : IM Z :=
  s ← self;
  let '(username, password) :=
    match arg_at s (args_idx s), arg_at s (args_idx s + 1) with
    | Some u, Some p => (Some u, Some p)
    | _, _ => (None, None)
    end in
  err ← dbmail_imap_session_handle_auth username password;
  if negb (err =? 0) then mret err
  else
    (if conf_before_smtp then run_db (fun d => (db_log_ip d, tt)) else skip);;
    s ← self;
    (if negb (state s =? CLIENTSTATE_ERROR) then
       username ← (if has_auth (auth s) then cram_username (auth s) else mret username);
       t ← capa_string;
       buff_printf (tag_str s ++ lit " OK [CAPABILITY " ++ t ++ lit "] User " ++ default (lit "(null)") username ++
                    lit " authenticated" ++ crlf)
     else skip);;
    mret 0.

(** ** Selecting a mailbox *)
Definition imap_session_mailbox_close : IM unit :=
  _ ← dbmail_imap_session_set_state CLIENTSTATE_AUTHENTICATED;
  s ← self;
  match mailbox s with
  | None => skip
  | Some m =>
      match mbx_state m with Some p => upd_state p (fun d M => @MailboxState_clear_recent _ d M) | None => skip end;;
      upd (fun s => s <| mailbox := None |>);;
      when (en_qresync s && bool_decide (command_type s ∈ [IMAP_COMM_SELECT; IMAP_COMM_EXAMINE]))
        (buff_printf (lit "* OK [CLOSED]" ++ crlf))
  end.

(** [mailbox_check_acl]: 0 if the right is granted. *)
Definition acl_answer (access : Z) : IM Z :=
  if access <? 0 then bye (-1) (lit "internal database error")
  else if access =? 0 then no 1 (lit "permission denied")
  else mret 0.
Definition mailbox_check_acl (p : stateptr) (r : ACLRight) : IM Z :=
  s ← self;
  access ← on_state p (fun d M => acl_has_right (H0 := d) M (userid s) r);
  acl_answer access.

Definition is_inbox (name : cstr) : bool := strcaseeq name (lit "INBOX").

Definition imap_session_mailbox_open (name : cstr) : IM Z :=
  s ← self;
  r ← run_db (fun d => db_findmailbox d name (userid s));
  r ← (if (r.2 =? 0) && is_inbox name then run_db (fun d => db_createmailbox d (lit "INBOX") (userid s)) else mret r);
  let id := r.2 in
  if id =? 0 then no 1 (lit "specified mailbox does not exist")
  else
    upd (fun s => s <| mailbox := Some (dbmail_mailbox_new id) |>);;
    p ← dbmail_imap_session_mbxinfo_lookup id;
    upd_mailbox (fun m => m <| mbx_state := Some p |>);;
    access ← mailbox_check_acl p ACL_RIGHT_READ;
    if access =? 1 then _ ← dbmail_imap_session_set_state CLIENTSTATE_AUTHENTICATED; mret DM_EGENERAL
    else
      upd_state p (fun _ M => MailboxState_setPermission M
        (if (command_type s =? IMAP_COMM_SELECT)%nat then IMAPPERM_READWRITE else IMAPPERM_READ));;
      M ← get_state p;
      if no_select M then mret DM_EGENERAL
      else
        upd_state p (fun d M => @MailboxState_build_recent _ d M);;
        upd_mailbox (fun m => m <| mbx_condstore := en_condstore s |> <| mbx_qresync := en_qresync s |>);;
        mret 0.

(** The arguments of SELECT behind the name. *)
Definition validate_arg (a : cstr) : bool := forallb (in_set (lit "0123456789,:")) a.
(** A number, 0 or with nothing behind it. *)
Definition parse_number (a : cstr) : option Z :=
  let n := strtoull a in if negb (n =? 0) && negb (bool_decide (scan_end a = [])) then None else Some n.
(** One argument at its place: [None] is an error; the parameters so far and the depth. *)
Definition select_arg (i : nat) (a : cstr) (q : qresync_args) (paren : Z) : option (qresync_args * Z) :=
  if strcaseeq a (lit "(") then Some (q, paren + 1)
  else if strcaseeq a (lit ")") then Some (q, paren - 1)
  else match i with
       | 2%nat => if strcaseeq a (lit "qresync") then Some (q, paren) else None
       | 4%nat => n ← parse_number a; Some (q <| uidvalidity := n |>, paren)
       | 5%nat => n ← parse_number a; Some (q <| modseq := n |>, paren)
       | 6%nat => if validate_arg a then Some (q <| known_uids := ArgText a |>, paren) else None
       | 8%nat => if validate_arg a then Some (q <| known_seqset := ArgText a |>, paren) else None
       | 9%nat => if validate_arg a then Some (q <| known_uidset := ArgText a |>, paren) else None
       | _ => Some (q, paren)
       end.
Fixpoint select_args (i : nat) (l : list cstr) (q : qresync_args) (paren : Z) : option (qresync_args * Z) :=
  match l with
  | [] => Some (q, paren)
  | a :: l => '(q, paren) ← select_arg i a q paren; select_args (S i) l q paren
  end.
Definition given (a : argptr) : bool := match a with NoArg => false | _ => true end.

(** [_ic_select_parse_args]: whether there is an error. *)
Definition _ic_select_parse_args : IM bool :=
  s ← self;
  let l := args_from (args s) in
  if bool_decide (length l = 1)%nat then mret false
  else if Capa_match (capa s) (lit "CONDSTORE") &&
          bool_decide ((fun a => tolower <$> a) <$> drop 1 l = lit <$> ["("; "condstore"; ")"]%string) then
    upd (fun s => s <| en_condstore := true |>);; mret false
  else
    match select_args 1 (drop 1 l) (mkqresync 0 0 NoArg NoArg NoArg) 0 with
    | None => mret true
    | Some (q, paren) =>
        if negb (paren =? 0) then mret true
        else if given (known_seqset q) && negb (given (known_uidset q)) then mret true
        else if (uidvalidity q =? 0) || (modseq q =? 0) then mret true
        else upd (fun s => s <| qresync := q |>);; mret false
    end.

(** ** QRESYNC: what vanished *)
Record expunged_helper := mkexpunged { eh_response : cstr; eh_count : nat; eh_start : Z; eh_last : Z; eh_prev : bool }.
#[local] Instance expunged_settable : Settable expunged_helper := fun r =>
  mkexpunged (eh_response r) (eh_count r) (eh_start r) (eh_last r) (eh_prev r).

(** A message that the client's idea of the numbers contradicts ends the walk. *)
Definition known_mismatch (known : option (gtree Z * gtree Z)) (u : Z) : bool :=
  match known with
  | Some (seqset, uidset) =>
      match (n ← g_tree_lookup uidset u; g_tree_lookup seqset n) with
      | Some knownuid => negb (u =? knownuid)
      | None => true
      end
  | None => false
  end.
Definition close_range (d : expunged_helper) : cstr :=
  if eh_prev d && (eh_start d <? eh_last d) then COLON :: dec_of (eh_last d) else [].
Fixpoint _get_expunged (known : option (gtree Z * gtree Z)) (since : Z) (l : list (Z * MessageInfo)) (d : expunged_helper) : expunged_helper :=
  match l with
  | [] => d
  | (u, msg) :: l =>
      if known_mismatch known u then d
      else if (since <? mi_seq msg) && (status msg =? MESSAGE_STATUS_DELETE) then
        let d := d <| eh_count ::= S |> in
        let d := if eh_prev d then d
                 else if eh_last d =? 0 then d <| eh_start := u |> <| eh_response ::= fun t => t ++ dec_of u |>
                 else d <| eh_response ::= fun t => t ++ ","%char :: dec_of u |> in
        _get_expunged known since l (d <| eh_last := u |> <| eh_prev := true |>)
      else _get_expunged known since l (d <| eh_response ::= fun t => t ++ close_range d |> <| eh_prev := false |>)
  end.

(** A pointer to an argument that is followed. *)
Definition arg_text (a : argptr) : IM (option cstr) :=
  match a with ArgText t => mret (Some t) | NoArg => mret None | FreedArg => undefined;; mret None end.

(** The number of messages that vanished, and their UIDs. *)
Definition MailboxState_getExpunged (p : stateptr) (q : qresync_args) : IM (nat * cstr) :=
  known ← (if given (known_seqset q) && given (known_uidset q) then
             seqset ← arg_text (known_seqset q);
             uidset ← arg_text (known_uidset q);
             a ← on_state p (fun _ M => MailboxState_get_set M (default [] seqset) false);
             b ← on_state p (fun _ M => MailboxState_get_set M (default [] uidset) true);
             mret (match a, b with Some a, Some b => Some (a, b) | _, _ => None end)
           else mret None);
  M ← get_state p;
  let d := _get_expunged known (modseq q) (g_tree_traverse (msginfo M)) (mkexpunged [] 0 0 0 false) in
  mret (eh_count d, eh_response d ++ close_range d).

(** [_fetch_update]: the response for one message. *)
Definition _fetch_update (p : stateptr) (u : Z) (showmodseq showflags : bool) : IM unit :=
  s ← self;
  M ← get_state p;
  match g_tree_lookup (msginfo M) u, g_tree_lookup (MailboxState.ids M) u with
  | Some info, Some n =>
      buff_printf (lit "* " ++ dec_of n ++ lit " FETCH (");;
      when (use_uid s) (buff_printf (lit "UID " ++ dec_of (uid info)));;
      when showflags
        (when (use_uid s) (buff_printf (lit " "));;
         buff_printf (lit "FLAGS " ++ dbmail_imap_plist_as_string (MailboxState_message_flags M info)));;
      when showmodseq
        (when (use_uid s || showflags) (buff_printf (lit " "));;
         buff_printf (lit "MODSEQ (" ++ dec_of (mi_seq info) ++ lit ")"));;
      buff_printf (lit ")" ++ crlf)
  | _, _ => undefined
  end.
(** The walk over the changed messages ends at one that is not known. *)
Fixpoint fetch_updates (p : stateptr) (uids : list Z) : IM unit :=
  match uids with
  | [] => skip
  | u :: uids =>
      M ← get_state p;
      if bool_decide (is_Some (g_tree_lookup (msginfo M) u)) then _fetch_update p u true true;; fetch_updates p uids
      else skip
  end.
Definition qresync_report (p : stateptr) : IM unit :=
  s ← self;
  let q := qresync s in
  let was_uid := use_uid s in
  upd_mailbox (fun m => m <| mbx_modseq := modseq q |>);;
  upd (fun s => s <| use_uid := true |>);;
  vanished ← MailboxState_getExpunged p q;
  when (bool_decide (0 < vanished.1)%nat) (buff_printf (lit "* VANISHED (EARLIER) " ++ vanished.2 ++ crlf));;
  set ← arg_text (known_uids q);
  changed ← dbmail_mailbox_get_set (default (lit "1:*") set) true;
  fetch_updates p (match changed with Some t => g_tree_keys t | None => [] end);;
  upd (fun s => s <| use_uid := was_uid |>).

(** The sequence number of the first message that is not seen. *)
Definition first_unseen (M : MailboxState_T) : option Z :=
  '(u, _) ← head (filter (fun '(_, info) => flag info IMAP_FLAG_SEEN = 0) (g_tree_traverse (msginfo M)));
  if 0 <? u then g_tree_lookup (MailboxState.ids M) u else None.

Definition _ic_select_enter : IM Z :=
  wrong ← _ic_select_parse_args;
  if wrong : bool then bad (lit "invalid parameter")
  else
    imap_session_mailbox_close;;
    name ← arg0;
    err ← imap_session_mailbox_open name;
    if negb (err =? 0) then mret err
    else
      _ ← dbmail_imap_session_set_state CLIENTSTATE_SELECTED;
      p ← mbstate;
      s ← self;
      let select := (command_type s =? IMAP_COMM_SELECT)%nat in
      e ← on_state p (fun _ M => MailboxState_getExists M);
      buff_printf (lit "* " ++ dec_of e ++ lit " EXISTS" ++ crlf);;
      M ← get_state p;
      buff_printf (lit "* " ++ dec_of (recent M) ++ lit " RECENT" ++ crlf);;
      flags_responses (MailboxState_flags M);;
      buff_printf (lit "* OK [UIDNEXT " ++ dec_of (uidnext M) ++ lit "] Predicted next UID" ++ crlf);;
      buff_printf (lit "* OK [UIDVALIDITY " ++ dec_of (mb_id M) ++ lit "] UID value" ++ crlf);;
      (if Capa_match (capa s) (lit "CONDSTORE") then
         seq ← on_state p (fun d M => @MailboxState_getSeq _ d M);
         buff_printf (lit "* OK [HIGHESTMODSEQ " ++ dec_of seq ++ lit "] Highest" ++ crlf)
       else skip);;
      (if select && (conf_allow_unseen =? 1) && negb (e =? 0) then
         match first_unseen M with
         | Some n => buff_printf (lit "* OK [UNSEEN " ++ dec_of n ++ lit "] first unseen message" ++ crlf)
         | None => skip
         end
       else skip);;
      when select (flush_recent p);;
      s ← self;
      when (uidvalidity (qresync s) =? mb_id M) (qresync_report p);;
      m ← the_mailbox;
      s ← self;
      buff_printf (tag_str s ++ lit " OK [" ++ (if select then lit "READ-WRITE" else lit "READ-ONLY") ++ lit "] " ++
                   command_str s ++ lit " completed" ++ (if mbx_condstore m then lit ", CONDSTORE is now enabled" else []) ++ crlf);;
      mret 0.
End commands.
