(* ===== verification/ImapFolders.v ===== *)
(** * imapcommands.c: commands on mailboxes as a whole

    ENABLE, CREATE, DELETE, RENAME, SUBSCRIBE and UNSUBSCRIBE, LIST and LSUB, STATUS, the
    quota commands, the commands of the ACL extension, and NAMESPACE. *)
From S2P Require Import Prelude.
From S2P Require Import CLib.
From S2P Require Import GLib.
From S2P Require Import Tree.
From S2P Require Import ListT.
From S2P Require Import ClientBase.
From S2P Require Import ClientSession.
From S2P Require Import GListUtil.
From S2P Require Import MailboxState.
From S2P Require Import MiscText.
From S2P Require Import Acl.
From S2P Require Import Cidr.
From S2P Require Import Capa.
From S2P Require Import Auth.
From S2P Require Import ImapText.
From S2P Require Import MailboxName.
From S2P Require Import ImapSession.
From S2P Require Import ImapMailbox.
From S2P Require Import ImapCommands.

Section folders.
Context `{ImapDB} `{!ImapStore} `{GLibStr} `{ServerConf} `{ImapConf} `{GLibBase64} `{Digests} `{AuthTables}
  `{SocketLib} `{AuthNames}.

(** ** ENABLE *)
Definition enable_one (c : cstr) : IM unit :=
  s ← self;
  let cond := strcaseeq c (lit "CONDSTORE") in
  let qres := strcaseeq c (lit "QRESYNC") in
  if (cond || qres) && Capa_match (capa s) c then
    let changed := (cond && negb (en_condstore s)) || (qres && negb (en_qresync s)) in
    upd (fun s => s <| en_condstore ::= orb cond |> <| en_qresync ::= orb qres |>);;
    when changed (buff_printf (lit "* ENABLED " ++ c ++ crlf))
  else skip.
Definition _ic_enable_enter : IM Z :=
  s ← self;
  let l := args_from (drop (args_idx s) (args s)) in
  for_each enable_one l;;
  upd (fun s => s <| args_idx ::= fun i => (i + S (length l))%nat |>);;
  ok.

(** ** CREATE, DELETE, RENAME, SUBSCRIBE *)
Definition _ic_create_enter : IM Z :=
  s ← self;
  name ← arg0;
  r ← run_db (fun d => db_mailbox_create_with_parents d name (userid s));
  if 0 <? r.1 then no 0 r.2
  else if r.1 <? 0 then bye 0 (lit "internal dbase error")
  else ok.

(** A denied right takes the session back to the authenticated state. *)
Definition imap_session_mailbox_check_acl (id : Z) (r : ACLRight) : IM Z :=
  k ← dbmail_imap_session_mbxinfo_lookup id;
  result ← mailbox_check_acl k r;
  (if result =? 1 then _ ← dbmail_imap_session_set_state CLIENTSTATE_AUTHENTICATED; skip else skip);;
  mret result.

(** The selected mailbox is the one that was deleted. *)
Definition leave_if_selected (id : Z) : IM unit :=
  s ← self;
  match selected_state s id with
  | Some _ => _ ← dbmail_imap_session_set_state CLIENTSTATE_AUTHENTICATED; skip
  | None => skip
  end.

(** A mailbox with children is emptied and can no longer be selected. *)
Definition delete_with_children (id : Z) : IM Z :=
  selectable ← run_db (fun d => db_isselectable d id);
  if selectable =? 0 then no 0 (lit "mailbox is non-selectable")
  else if selectable =? DM_EQUERY then bye (-1) (lit "internal dbase error")
  else
    s ← self;
    k ← dbmail_imap_session_mbxinfo_lookup id;
    writable ← run_db (fun d => mailbox_is_writable d id);
    if negb writable then mret DM_EQUERY
    else
      size ← run_db (fun d => db_get_mailbox_size d id false);
      match size with
      | None => mret DM_EQUERY
      | Some size =>
          done ← run_db (fun d => db_purge_mailbox d id);
          if negb done then mret DM_EQUERY
          else
            upd_state k (fun _ M => MailboxState_setNoSelect M true);;
            _ ← run_db (fun d => db_mailbox_seq_update d id 0);
            quota ← run_db (fun d => dm_quota_user_dec d (userid s) size);
            if negb quota then mret DM_EQUERY
            else leave_if_selected id;; ok
      end.

Definition _ic_delete_enter : IM Z :=
  s ← self;
  name ← arg_str 0;
  if is_inbox name then no 1 (lit "cannot delete special mailbox INBOX")
  else
    r ← run_db (fun d => db_findmailbox d name (userid s));
    if r.1 =? 0 then no 1 (lit "mailbox doesn't exists")
    else
      let id := r.2 in
      result ← imap_session_mailbox_check_acl id ACL_RIGHT_DELETE;
      if negb (result =? 0) then mret result
      else
        children ← run_db (fun d => db_listmailboxchildren d id (userid s));
        if children.1 =? DM_EQUERY then bye (-1) (lit "dbase/memory error")
        else if negb (bool_decide (children.2 = [])) then delete_with_children id
        else
          failed ← run_db (fun d => db_delete_mailbox d id);
          if negb (failed =? 0) then no DM_EGENERAL (lit "DELETE failed")
          else leave_if_selected id;; ok.

Definition mailbox_rename (k : stateptr) (newname : cstr) : IM Z :=
  M ← get_state k;
  r ← run_db (fun d => db_setmailboxname d (mb_id M) newname);
  if r =? DM_EQUERY then mret DM_EQUERY
  else upd_state k (fun _ M => MailboxState_setName M newname);; mret DM_SUCCESS.

(** The children get the new name in place of the old one, whose length is [n]. *)
Fixpoint rename_children (children : list Z) (newname : cstr) (n : nat) : IM bool :=
  match children with
  | [] => mret true
  | c :: children =>
      k ← dbmail_imap_session_mbxinfo_lookup c;
      M ← get_state k;
      let real := take (IMAP_MAX_MAILBOX_NAMELEN - 1) (newname ++ drop n (mb_name M)) in
      r ← mailbox_rename k real;
      if negb (r =? DM_SUCCESS) then mret false else rename_children children newname n
  end.

(** What stands in front of the last separator. *)
Definition parent_name (name : cstr) : option cstr :=
  i ← str_rindex name MAILBOX_SEPARATOR; Some (take i (take (IMAP_MAX_MAILBOX_NAMELEN - 1) name)).
Definition invades (oldname newname : cstr) : bool :=
  let n := length oldname in
  strncaseeq oldname newname n && bool_decide (n < length newname)%nat && bool_decide (char_at newname n = MAILBOX_SEPARATOR).

Definition rename_checked (oldname newname : cstr) (id : Z) : IM Z :=
  s ← self;
  if is_inbox oldname then
    r ← run_db (fun d => db_createmailbox d newname (userid s));
    if r.1 =? -1 then bye DM_EQUERY (lit "internal dbase error")
    else
      r ← run_db (fun d => db_movemsg d r.2 id);
      if r =? -1 then bye r (lit "internal dbase error") else ok
  else
    children ← run_db (fun d => db_listmailboxchildren d id (userid s));
    if children.1 =? -1 then bye children.1 (lit "internal dbase error")
    else
      renamed ← rename_children children.2 newname (length oldname);
      if negb renamed then bye DM_EGENERAL (lit "error renaming mailbox")
      else
        k ← dbmail_imap_session_mbxinfo_lookup id;
        r ← mailbox_rename k newname;
        if negb (r =? DM_SUCCESS) then bye DM_EGENERAL (lit "error renaming mailbox") else ok.

Definition _ic_rename_enter : IM Z :=
  s ← self;
  oldname ← arg_str 0;
  newname ← arg_str 1;
  old ← run_db (fun d => db_findmailbox d oldname (userid s));
  if old.1 =? 0 then no 1 (lit "mailbox does not exist")
  else if negb (checkmailboxname newname) then no 1 (lit "new mailbox name contains invalid characters")
  else
    new ← run_db (fun d => db_findmailbox d newname (userid s));
    if negb (new.1 =? 0) then no 1 (lit "new mailbox already exists")
    else if invades oldname newname then no 1 (lit "new mailbox would invade mailbox structure")
    else
      parent ← match parent_name newname with
               | Some name => r ← run_db (fun d => db_findmailbox d name (userid s)); mret (Some r)
               | None => mret None
               end;
      if match parent with Some r => r.1 =? 0 | None => false end
      then no 1 (lit "new mailbox would invade mailbox structure")
      else
        let parentid := match parent with Some r => r.2 | None => 0 end in
        result ← imap_session_mailbox_check_acl old.2 ACL_RIGHT_DELETE;
        if negb (result =? 0) then mret result
        else
          result ← (if parentid =? 0 then mret 0 else imap_session_mailbox_check_acl parentid ACL_RIGHT_CREATE);
          if negb (result =? 0) then mret result
          else rename_checked oldname newname old.2.

Definition _ic_subscribe_enter : IM Z :=
  s ← self;
  name ← arg_str 0;
  r ← run_db (fun d => db_findmailbox d name (userid s));
  if r.1 =? 0 then
    buff_printf (tag_str s ++ lit " OK " ++ command_str s ++ lit " on mailbox that does not exist" ++ crlf);; mret 0
  else
    result ← imap_session_mailbox_check_acl r.2 ACL_RIGHT_LOOKUP;
    if negb (result =? 0) then mret 1
    else
      let f := if (command_type s =? IMAP_COMM_SUBSCRIBE)%nat then db_subscribe else db_unsubscribe in
      result ← run_db (fun d => f d r.2 (userid s));
      if result =? DM_EQUERY then bye DM_EQUERY (lit "internal dbase error") else ok.

(** ** LIST and LSUB *)

(** The line of one folder. *)
Definition _ic_list_write_out_found_folder (M : MailboxState_T) : IM unit :=
  s ← self;
  let attributes :=
    (if no_select M then [lit "\noselect"] else []) ++ (if no_inferiors M then [lit "\noinferiors"] else []) ++
    (if no_children M then [lit "\hasnochildren"] else [lit "\haschildren"]) in
  buff_printf (lit "* " ++ command_str s ++ SP :: dbmail_imap_plist_as_string attributes ++ SP :: quoted [MAILBOX_SEPARATOR] ++
               SP :: quoted (mb_name M) ++ crlf).

(** The names of the hierarchy above a mailbox, from the longest one. *)
Fixpoint join_path (l : list cstr) : cstr :=
  match l with [] => [] | [p] => p | p :: l => p ++ MAILBOX_SEPARATOR :: join_path l end.
Definition hierarchy (name : cstr) : list cstr :=
  let parts := g_strsplit name MAILBOX_SEPARATOR in
  map (fun n => join_path (take n parts)) (reverse (List.seq 2 (length parts - 1))).
(** The state to show for a mailbox, and whether it is only an element of the hierarchy. *)
Definition list_element (pattern : cstr) (M : MailboxState_T) : option (MailboxState_T * bool) :=
  if list_match pattern (mb_name M) then Some (M, false)
  else if bool_decide (last pattern = Some "%"%char) then
    name ← head (filter (fun n => list_match pattern n = true) (hierarchy (mb_name M)));
    Some (MailboxState_setNoChildren (MailboxState_setNoSelect (MailboxState_setName M name) true) false, true)
  else None.

(** [strcmp] as an order. *)
Fixpoint str_lt (a b : cstr) : bool :=
  match a, b with
  | [], _ :: _ => true
  | x :: a, y :: b => if code x <? code y then true else if code y <? code x then false else str_lt a b
  | _, [] => false
  end.
(** The folders in the order of their names; a later one replaces an earlier one. *)
Fixpoint put_folder (l : list (cstr * MailboxState_T)) (name : cstr) (M : MailboxState_T) : list (cstr * MailboxState_T) :=
  match l with
  | [] => [(name, M)]
  | (n, M') :: l' =>
      if bool_decide (n = name) then (name, M) :: l'
      else if str_lt name n then (name, M) :: l else (n, M') :: put_folder l' name M
  end.
Definition merge_folders (a b : list (cstr * MailboxState_T)) : list (cstr * MailboxState_T) :=
  foldl (fun a '(n, M) => if existsb (fun x => bool_decide (x.1 = n)) a then a else put_folder a n M) a b.

(** The loop over the mailboxes: the folders, the hierarchy, and the status of the last
    look-up of a name. *)
Fixpoint list_loop (pattern : cstr) (children : list Z) (folders hierarchy : list (cstr * MailboxState_T))
    : IM (list (cstr * MailboxState_T) * list (cstr * MailboxState_T) * Z) :=
  match children with
  | [] => mret (folders, hierarchy, 0)
  | id :: children =>
      s ← self;
      r ← run_db (fun d => db_getmailboxname d id (userid s));
      if negb (r.1 =? DM_SUCCESS) then mret (folders, hierarchy, r.1)
      else
        M ← run_db (fun d => MailboxState_info d (MailboxState_setId MailboxState_zero id));
        let M := MailboxState_setName M.2 (take (IMAP_MAX_MAILBOX_NAMELEN - 1) r.2) in
        match list_element pattern M with
        | Some (M, false) => list_loop pattern children (put_folder folders (mb_name M) M) hierarchy
        | Some (M, true) => list_loop pattern children folders (put_folder hierarchy (mb_name M) M)
        | None => list_loop pattern children folders hierarchy
        end
  end.

Definition _ic_list_enter : IM Z :=
  s ← self;
  refname ← arg_str 0;
  name ← arg_str 1;
  if bool_decide (refname = []) && bool_decide (name = []) then
    buff_printf (lit "* " ++ command_str s ++ lit " (\NoSelect) " ++ quoted (lit "/") ++ SP :: quoted [] ++ crlf);; ok
  else if negb (forallb (in_set AcceptedMailboxnameChars) refname) then bad (lit "reference name contains invalid characters")
  else
    let pattern := take 254 (refname ++ name) in
    r ← run_db (fun d => db_findmailbox_by_regex d (userid s) pattern (command_type s =? IMAP_COMM_LSUB)%nat);
    if r.1 =? -1 then bye (-1) (lit "internal dbase error")
    else if r.1 =? 1 then bad (lit "invalid pattern specified")
    else
      res ← (if r.1 =? 0 then list_loop pattern r.2 [] [] else mret ([], [], r.1));
      let '(folders, hierarchy, st) := res in
      for_each (fun x => _ic_list_write_out_found_folder x.2) (merge_folders folders hierarchy);;
      s ← self;
      when (st =? 0) (buff_printf (tag_str s ++ lit " OK " ++ command_str s ++ lit " completed" ++ crlf));;
      mret st.

(** ** STATUS *)

(** The place of the closing parenthesis behind the first two arguments, 0 if there is none;
    [None]: another one is opened. *)
Fixpoint status_end (i : nat) (l : list cstr) : option nat :=
  match l with
  | [] => Some 0%nat
  | a :: l => if bool_decide (char_at a 0 = ")"%char) then Some i
              else if bool_decide (char_at a 0 = "("%char) then None else status_end (S i) l
  end.
(** The items that are asked for: [inr] is an option that is not known. *)
Fixpoint status_items (M : MailboxState_T) (l : list cstr) (items : list cstr) : IM (list cstr + cstr) :=
  match l with
  | [] => mret (inl items)
  | a :: l =>
      d ← database;
      s ← self;
      let next t := status_items M l (items ++ [t]) in
      if strcaseeq a (lit "messages") then next (lit "MESSAGES " ++ dec_of (MailboxState_getExists M).2)
      else if strcaseeq a (lit "recent") then next (lit "RECENT " ++ dec_of (recent M))
      else if strcaseeq a (lit "unseen") then next (lit "UNSEEN " ++ dec_of (unseen M))
      else if strcaseeq a (lit "uidnext") then next (lit "UIDNEXT " ++ dec_of (uidnext M))
      else if strcaseeq a (lit "uidvalidity") then next (lit "UIDVALIDITY " ++ dec_of (mb_id M))
      else if Capa_match (capa s) (lit "CONDSTORE") && strcaseeq a (lit "highestmodseq") then
        upd (fun s => s <| en_condstore := true |>);;
        next (lit "HIGHESTMODSEQ " ++ dec_of (@MailboxState_getSeq _ (mailbox_answers d) M).2)
      else if strcaseeq a (lit ")") then mret (inl items)
      else mret (inr a)
  end.

Definition status_of (id : Z) (name : cstr) (attributes : list cstr) : IM Z :=
  r ← run_db (fun d => MailboxState_info d (MailboxState_setId MailboxState_zero id));
  if negb (r.1 =? 0) then no 1 (lit "specified mailbox does not exist")
  else
    M ← run_db (fun d => MailboxState_count d (MailboxState_setName r.2 name));
    s ← self;
    d ← database;
    let '(M, access) := acl_has_right (H0 := mailbox_answers d) M (userid s) ACL_RIGHT_READ in
    result ← acl_answer access;
    if negb (result =? 0) then mret result
    else
      items ← status_items M attributes [];
      s ← self;
      match items with
      | inr a => buff_printf (crlf ++ tag_str s ++ lit " BAD option '" ++ a ++ lit "' specified" ++ crlf);; mret 1
      | inl items =>
          buff_printf (lit "* STATUS " ++ dbmail_imap_astring_as_string name ++ SP :: dbmail_imap_plist_as_string items ++ crlf);;
          ok
      end.

Definition _ic_status_enter : IM Z :=
  s ← self;
  let l := args_from (args s) in
  name ← arg_str 0;
  open ← arg_str 1;
  if negb (bool_decide (char_at open 0 = "("%char)) then bad (lit "argument list should be parenthesed")
  else
    match status_end 2 (drop 2 l) with
    | None => bad (lit "too many parentheses specified")
    | Some endfound =>
        if (endfound =? 2)%nat then bad (lit "argument list empty")
        else if bool_decide (is_Some (arg_at s (endfound + 1))) then bad (lit "argument list too long")
        else
          r ← run_db (fun d => db_findmailbox d name (userid s));
          id ← (if negb (r.1 =? 0) then mret r.2
                else if (r.2 =? 0) && is_inbox name then
                  r ← run_db (fun d => db_createmailbox d (lit "INBOX") (userid s)); mret r.2
                else mret r.2);
          if (r.1 =? 0) && (id =? 0) then no 1 (lit "specified mailbox does not exist")
          else status_of id name (drop 2 l)
    end.

(** ** Quota *)

(** An error text, or the limit and the usage. *)
Definition quota_get_quota (quotaroot : cstr) : IM (cstr + Z * Z) :=
  s ← self;
  if negb (bool_decide (quotaroot = [])) then mret (inl (lit "unknown quota root"))
  else
    r ← run_db (fun d => auth_getmaxmailsize d (userid s));
    if r.1 =? -1 then mret (inl (lit "invalid user"))
    else
      u ← run_db (fun d => dm_quota_user_get d (userid s));
      if u.1 =? -1 then mret (inl (lit "internal error"))
      else mret (inr (r.2, u.2)).
Definition send_quota (limit usage : Z) : IM unit :=
  when (0 <? limit)
    (buff_printf (lit "* QUOTA " ++ quoted [] ++ lit " (STORAGE " ++ dec_of (usage / 1024) ++ SP :: dec_of (limit / 1024) ++
                  lit ")" ++ crlf)).
Definition _ic_getquotaroot_enter : IM Z :=
  q ← quota_get_quota [];
  match q with
  | inl error => no 1 error
  | inr (limit, usage) =>
      name ← arg0;
      buff_printf (lit "* QUOTAROOT " ++ quoted name ++ SP :: quoted [] ++ crlf);;
      send_quota limit usage;; ok
  end.
Definition _ic_getquota_enter : IM Z :=
  root ← arg0;
  q ← quota_get_quota root;
  match q with inl error => no 1 error | inr (limit, usage) => send_quota limit usage;; ok end.

(** ** Access control lists *)
Definition run_acl {A} (f : acldb -> acldb * A) : IM A :=
  run_db (fun d => let '(w, x) := f (acl_tables d) in (with_acl_tables d w, x)).
Definition internal_error : IM Z := bye (-1) (lit "internal database error").

(** The mailbox, which is 0 when it is not found, and the user, if both exist. *)
Definition imap_acl_pre_administer (name username : cstr) : IM (Z * option Z) :=
  s ← self;
  r ← run_db (fun d => db_findmailbox d name (userid s));
  mret (r.2, if r.1 =? 0 then None else auth_user_exists username).

Definition _ic_setacl_enter : IM Z :=
  s ← self;
  name ← arg0;
  user ← arg1;
  rights ← arg_str (args_idx s + 2);
  r ← imap_acl_pre_administer name user;
  match r with
  | (_, None) => no 1 (lit "SETACL failure: can't set acl")
  | (id, Some target) =>
      k ← dbmail_imap_session_mbxinfo_lookup id;
      result ← mailbox_check_acl k ACL_RIGHT_ADMINISTER;
      if negb (result =? 0) then mret result
      else
        r ← run_acl (fun w => acl_set_rights w target id rights);
        if r <? 0 then internal_error else ok
  end.

Definition _ic_deleteacl_enter : IM Z :=
  name ← arg0;
  user ← arg1;
  r ← imap_acl_pre_administer name user;
  let '(id, target) := r in
  k ← dbmail_imap_session_mbxinfo_lookup id;
  result ← mailbox_check_acl k ACL_RIGHT_ADMINISTER;
  if negb (result =? 0) then mret result
  else
    when (negb (bool_decide (is_Some target))) undefined;;
    r ← run_acl (fun w => db_acl_delete_acl w (default 0 target) id);
    if r <? 0 then internal_error else ok.

Definition _ic_getacl_enter : IM Z :=
  s ← self;
  name ← arg0;
  r ← run_db (fun d => db_findmailbox d name (userid s));
  if r.1 =? 0 then no 1 (lit "GETACL failure: can't get acl")
  else
    t ← run_acl (fun w => acl_get_acl w r.2);
    match t with
    | None => undefined;; mret (-1)
    | Some None => internal_error
    | Some (Some t) => buff_printf (lit "* ACL " ++ quoted name ++ SP :: t ++ crlf);; ok
    end.

Definition _ic_listrights_enter : IM Z :=
  s ← self;
  name ← arg0;
  user ← arg1;
  r ← imap_acl_pre_administer name user;
  match r with
  | (_, None) => buff_printf (tag_str s ++ lit ", NO LISTRIGHTS failure: can't set acl" ++ crlf);; mret 1
  | (id, Some target) =>
      k ← dbmail_imap_session_mbxinfo_lookup id;
      result ← mailbox_check_acl k ACL_RIGHT_ADMINISTER;
      if negb (result =? 0) then mret 1
      else
        t ← run_acl (fun w => acl_listrights w target id);
        match t with
        | None => internal_error
        | Some t => buff_printf (lit "* LISTRIGHTS " ++ quoted name ++ SP :: user ++ SP :: t ++ crlf);; ok
        end
  end.

Definition _ic_myrights_enter : IM Z :=
  s ← self;
  name ← arg0;
  r ← run_db (fun d => db_findmailbox d name (userid s));
  if r.1 =? 0 then no 1 (lit "MYRIGHTS failure: unknown mailbox")
  else
    t ← run_acl (fun w => acl_myrights w (userid s) r.2);
    match t with
    | None => undefined;; mret (-1)
    | Some None => internal_error
    | Some (Some t) => buff_printf (lit "* MYRIGHTS " ++ quoted name ++ SP :: t ++ crlf);; ok
    end.

Definition _ic_namespace_enter : IM Z :=
  let pair p := lit "((" ++ quoted p ++ SP :: quoted [MAILBOX_SEPARATOR] ++ lit "))" in
  buff_printf (lit "* NAMESPACE " ++ pair [] ++ SP :: pair NAMESPACE_USER ++ SP :: pair NAMESPACE_PUBLIC ++ crlf);; ok.
End folders.
