(* ===== verification/ImapMessages.v ===== *)
(** * imapcommands.c: commands on messages

    APPEND, and the commands of the selected state: CHECK, CLOSE, UNSELECT, EXPUNGE, SEARCH,
    SORT and THREAD, FETCH, STORE and COPY. The storage of messages, and the rows that searches
    read, are operations of the class [ImapSearch]. *)
From S2P Require Import Prelude.
From S2P Require Import CLib.
From S2P Require Import GLib.
From S2P Require Import Tree.
From S2P Require Import ListT.
From S2P Require Import ClientBase.
From S2P Require Import ClientSession.
From S2P Require Import GListUtil.
From S2P Require Import MailboxState.
From S2P Require Import MiscText.
From S2P Require Import Iconv.
From S2P Require Import SqlFragment.
From S2P Require Import SearchKeys.
From S2P Require Import SearchRun.
From S2P Require Import Acl.
From S2P Require Import Cidr.
From S2P Require Import Capa.
From S2P Require Import Auth.
From S2P Require Import ImapText.
From S2P Require Import ImapSession.
From S2P Require Import ImapMailbox.
From S2P Require Import ImapCommands.
From S2P Require Import ImapFolders.
From S2P Require Import Mime.
From S2P Require Import ImapFetch.

Class ImapSearch `{ImapDB} := {
  db_append_msg : db -> cstr -> Z -> Z -> option cstr -> db * (Z * Z);   (** message, mailbox, user, date *)
  db_message_set_seq : db -> Z -> Z -> db;
  db_copymsg : db -> Z -> Z -> Z -> db * (Z * Z);                         (** message, mailbox, user *)
  search_answers : db -> SearchAnswers;
  #[global] search_iconv :: IconvLib;
  #[global] search_sql :: SqlConf;
  #[global] search_conf :: SearchConf;
}.

Section messages.
Context `{ImapDB} `{!ImapStore} `{!ImapSearch} `{!FetchDB} `{GMimeLib} `{GLibStr} `{ServerConf} `{ImapConf} `{GLibBase64} `{Digests}
  `{AuthTables} `{SocketLib} `{AuthNames}.

(** ** Flags *)

(** The number of a system flag. *)
Definition flag_index (a : cstr) : option nat := fst <$> list_find (fun f => strcaseeq a f = true) imap_flag_desc_escaped.
Definition no_flags : list Z := replicate IMAP_NFLAGS 0.
(** A list of flags: the system flags, and the keywords in order. *)
Definition add_flag (fk : list Z * list cstr) (a : cstr) : list Z * list cstr :=
  match flag_index a with Some j => (<[j := 1]> fk.1, fk.2) | None => (fk.1, fk.2 ++ [a]) end.
Definition flag_set (fl : list Z) (j : nat) : bool := default 0 (fl !! j) =? 1.

(** The first right that is denied. *)
Fixpoint check_rights (p : stateptr) (l : list (bool * ACLRight)) : IM Z :=
  match l with
  | [] => mret 0
  | (needed, r) :: l =>
      if needed : bool then
        result ← mailbox_check_acl p r;
        if negb (result =? 0) then mret result else check_rights p l
      else check_rights p l
  end.
(** The rights that storing some flags needs. *)
Definition store_rights (fl : list Z) (kws : list cstr) (others : list nat) : list (bool * ACLRight) :=
  [(flag_set fl IMAP_FLAG_SEEN, ACL_RIGHT_SEEN);
   (flag_set fl IMAP_FLAG_DELETED, ACL_RIGHT_DELETED);
   (existsb (flag_set fl) others || bool_decide (0 < length kws)%nat, ACL_RIGHT_WRITE)].

(** ** APPEND *)

(** The arguments behind the name: the flags, and what is left. *)
Definition append_flags (l : list cstr) : list cstr * list cstr :=
  match l with
  | a :: l' =>
      if bool_decide (char_at a 0 = "("%char) then
        let n := match list_find (fun a => char_at a 0 = ")"%char) l' with Some (n, _) => n | None => length l' end in
        (take n l', drop (S n) l')
      else ([], l)
  | [] => ([], [])
  end.

(** The message is stored; what is left is to show it to this session. *)
Definition append_stored (p : stateptr) (message : cstr) (date : option cstr) (mboxid message_id : Z) (fl : list Z) (kws : list cstr) : IM Z :=
  s ← self;
  m ← (if negb (message_id =? 0) && (state s =? CLIENTSTATE_SELECTED) then m ← the_mailbox; mret (mbx_id m =? mboxid)
       else mret false);
  when m (dbmail_imap_session_mailbox_status true);;
  let info := mkinfo message_id 0 0 (<[IMAP_FLAG_RECENT := 1]> fl) kws 0 (strlen message) 0
    (take (IMAP_INTERNALDATE_LEN - 1) (default (lit "01-Jan-1970 00:00:01 +0100") date)) 0 0 in
  upd_state p (fun d M => @MailboxState_addMsginfo _ d M message_id info);;
  SESSION_OK_WITH_RESP_CODE (lit "APPENDUID " ++ dec_of mboxid ++ SP :: dec_of message_id);;
  mret 0.

Definition _ic_append_enter : IM Z :=
  s ← self;
  let l := args_from (args s) in
  name ← arg_str 0;
  r ← run_db (fun d => db_findmailbox d name (userid s));
  r ← (if (r.1 =? 0) && is_inbox name then
         c ← run_db (fun d => db_createmailbox d (lit "INBOX") (userid s)); mret (0, c.2)
       else mret r);
  let mboxid := r.2 in
  if (r.1 =? 0) && (mboxid =? 0) then no 1 (lit "[TRYCREATE]")
  else
    p ← dbmail_imap_session_mbxinfo_lookup mboxid;
    result ← imap_session_mailbox_check_acl mboxid ACL_RIGHT_INSERT;
    if negb (result =? 0) then mret result
    else
      let '(flags, rest) := append_flags (drop 1 l) in
      let '(fl, kws) := foldl add_flag (no_flags, []) flags in
      match rest with
      | [] => bad (lit "invalid arguments specified to APPEND")
      | a :: rest =>
          result ← check_rights p (store_rights fl kws [IMAP_FLAG_ANSWERED; IMAP_FLAG_FLAGGED; IMAP_FLAG_RECENT; IMAP_FLAG_DRAFT]);
          if negb (result =? 0) then mret result
          else
            let '(date, message) := match rest with b :: _ => (Some a, b) | [] => (None, a) end in
            r ← run_db (fun d => db_append_msg d message mboxid (userid s) date);
            let '(st, message_id) := r in
            if st =? -1 then bye 1 (lit "internal dbase error storing message")
            else if st =? -2 then no 1 (lit "not enough quotum left")
            else if st =? 1 then no 1 (lit "invalid message specified")
            else
              (if (st =? 0) && negb (bool_decide (flags = [])) then
                 n ← run_db (fun d => db_set_msgflag d message_id fl kws IMAPFA_ADD 0);
                 if n <? 0 then skip else _ ← run_db (fun d => db_mailbox_seq_update d mboxid message_id); skip
               else skip);;
              r ← append_stored p message date mboxid message_id fl kws;
              mret st
      end.

(** ** CHECK, CLOSE, UNSELECT, EXPUNGE *)
Definition _ic_check_enter : IM Z := dbmail_imap_session_mailbox_status true;; ok.

Definition ok_modseq (modseq : Z) : IM Z :=
  s ← self;
  (if en_qresync s && negb (modseq =? 0) then SESSION_OK_WITH_RESP_CODE (lit "HIGHESTMODSEQ " ++ dec_of modseq)
   else SESSION_OK);;
  mret 0.

Definition _ic_close_enter : IM Z :=
  s ← self;
  p ← mbstate;
  result ← on_state p (fun d M => acl_has_right (H0 := d) M (userid s) ACL_RIGHT_EXPUNGE);
  if result <? 0 then bye result (lit "Internal database error")
  else
    modseq ← (if result =? 1 then
                perm ← on_state p (fun d M => @MailboxState_getPermission _ d M);
                r ← (if perm =? IMAPPERM_READWRITE then dbmail_imap_session_mailbox_expunge None else mret (0, 0));
                imap_session_mailbox_close;;
                mret r.2
              else mret 0);
    _ ← dbmail_imap_session_set_state CLIENTSTATE_AUTHENTICATED;
    ok_modseq modseq.

Definition _ic_unselect_enter : IM Z := imap_session_mailbox_close;; ok.

Definition _ic_expunge_enter : IM Z :=
  s ← self;
  p ← mbstate;
  result ← mailbox_check_acl p ACL_RIGHT_EXPUNGE;
  if negb (result =? 0) then mret result
  else
    set ← (if use_uid s then t ← arg0; mret (Some t) else mret None);
    r ← dbmail_imap_session_mailbox_expunge set;
    if negb (r.1 =? DM_SUCCESS) then bye DM_EQUERY (lit "expunge failed") else ok_modseq r.2.

(** ** SEARCH, SORT, THREAD *)
Definition search_name (o : search_order) : cstr :=
  match o with SEARCH_SORTED => lit "SORT" | SEARCH_UNORDERED => lit "SEARCH" | _ => lit "THREAD" end.

(** The result of an operation on the search of a mailbox; a NULL pointer that is followed is
    undefined behaviour. *)
Definition of_search {A} (x : A) (r : pout A) : IM A := match r with Done y => mret y | _ => undefined;; mret x end.

(** The arguments of the command are added to the tree of the mailbox. A charset that is left
    from an earlier command points into arguments that were freed. *)
Definition parse_search (keys : list cstr) (o : search_order) : IM Z :=
  m ← the_mailbox;
  let ss := mbx_search m in
  let q := mkq (ss_search ss) 0 (free_arg (ss_charset ss)) (mbx_modseq m) (mbx_condstore m) in
  r ← of_search (-1, q) (dbmail_mailbox_build_imap_search keys o q);
  let '(result, q) := r in
  upd_mailbox (fun m => m <| mbx_modseq := q_modseq q |> <| mbx_condstore := q_condstore q |>
    <| mbx_search ::= fun ss => ss <| ss_search := q_search q |> <| ss_charset := q_charset q |> |>);;
  upd (fun s => s <| args_idx ::= Nat.add (q_idx q) |>);;
  mret result.

Definition run_search : IM unit :=
  m ← the_mailbox;
  p ← mbstate;
  M ← get_state p;
  d ← database;
  r ← of_search (M, mbx_search m)
        (@dbmail_mailbox_search _ _ _ (search_answers d) _ (mbx_id m) (mbx_modseq m) M (mbx_search m));
  upd_state p (fun _ _ => r.1);;
  upd_mailbox (fun m => m <| mbx_search := r.2 |>).

(** The text behind the name of the response, if there is one. *)
Definition search_result (o : search_order) : IM (option cstr) :=
  s ← self;
  m ← the_mailbox;
  p ← mbstate;
  M ← get_state p;
  d ← database;
  let by_uid := use_uid s in
  let found := ss_found (mbx_search m) in
  match o with
  | SEARCH_SORTED =>
      ss ← of_search (mbx_search m) (@dbmail_mailbox_sort _ (search_answers d) (mbx_id m) (mbx_search m));
      upd_mailbox (fun m => m <| mbx_search := ss |>);;
      mret (dbmail_mailbox_sorted_as_string by_uid (ss_sorted ss) (ss_found ss))
  | SEARCH_UNORDERED =>
      t ← of_search None (dbmail_mailbox_ids_as_string (mbx_modseq m) M by_uid found [SP]);
      modseq ← of_search None (dbmail_mailbox_imap_modseq_as_string (mbx_modseq m) M by_uid found);
      mret ((fun t => t ++ default [] modseq) <$> t)
  | SEARCH_THREAD_ORDEREDSUBJECT =>
      match found with
      | Some t => mret (@dbmail_mailbox_orderedsubject _ (search_answers d) (mbx_id m) by_uid t)
      | None => mret None
      end
  | SEARCH_THREAD_REFERENCES => mret None
  end.

(** The listing of a search; [false]: the arguments are invalid. *)
Definition search_listing (o : search_order) (keys : list cstr) : IM bool :=
  result ← parse_search keys o;
  if result <? 0 then mret false
  else
    run_search;;
    r ← search_result o;
    buff_printf (lit "* " ++ search_name o ++ match r with Some t => SP :: t | None => [] end ++ crlf);;
    mret true.

Definition sorted_search_enter : IM Z :=
  s ← self;
  p ← mbstate;
  result ← mailbox_check_acl p ACL_RIGHT_READ;
  if negb (result =? 0) then mret result
  else
    when (state s =? CLIENTSTATE_SELECTED) (dbmail_imap_session_mailbox_status true);;
    p ← mbstate;
    e ← on_state p (fun _ M => MailboxState_getExists M);
    if e =? 0 then buff_printf (lit "* " ++ search_name (order s) ++ crlf);; ok
    else
      valid ← search_listing (order s) (args_from (drop (args_idx s) (args s)));
      if valid : bool then ok else bad (lit "invalid arguments to " ++ search_name (order s)).

(** ** Sets of messages *)
Definition _dm_imapsession_get_ids (set : cstr) : IM Z :=
  s ← self;
  t ← dbmail_mailbox_get_set set (use_uid s);
  let l := g_tree_keys <$> t in
  upd (fun s => s <| ids := l |>);;
  let found := negb (bool_decide (default [] l = [])) in
  if negb (use_uid s) && negb found then BAD (lit "invalid sequence in msn set [" ++ set ++ lit "]");; mret DM_EGENERAL
  else if use_uid s && negb (bool_decide (is_Some l)) then
    BAD (lit "invalid sequence in uid set [" ++ set ++ lit "]");; mret DM_EGENERAL
  else mret DM_SUCCESS.

(** ** FETCH *)
Definition _ic_fetch_enter : IM Z :=
  upd_items (fun f => f <| bodyfetch := Some p_list_new |>);;
  s ← self;
  upd_items (fun f => f <| getUID := use_uid s |>);;
  let setidx := args_idx s in
  next_arg;;
  failed ← fetch_parse_loop (S MAX_ARGS);
  if failed : bool then bad (lit "invalid argument list to fetch")
  else
    f ← the_items;
    if vanished f && (changedsince f =? 0) then bad (lit "invalid argument list to fetch")
    else
      (if vanished f then
         upd (fun s => s <| qresync ::= fun q => q <| modseq := changedsince f |> |>);;
         s ← self;
         p ← mbstate;
         v ← MailboxState_getExpunged p (qresync s);
         when (bool_decide (0 < v.1)%nat) (buff_printf (lit "* VANISHED (EARLIER) " ++ v.2 ++ crlf))
       else skip);;
      dbmail_imap_session_mailbox_status false;;
      set ← arg_str setidx;
      result ← _dm_imapsession_get_ids set;
      result ← (if result =? DM_SUCCESS then
                  upd (fun s => s <| ids_list := default [] (ids s) |>);; dbmail_imap_session_fetch_get_items
                else mret result);
      dbmail_imap_session_fetch_free;;
      dbmail_imap_session_args_free;;
      p ← mbstate;
      flush_recent p;;
      if negb (result =? 0) then mret result else ok.

(** ** STORE *)
Record store_parse := mkstore {
  sp_action : flag_action; sp_silent : bool; sp_need : bool; sp_start : nat; sp_end : nat; sp_unchanged : Z; sp_condstore : bool }.
#[local] Instance store_settable : Settable store_parse := fun r =>
  mkstore (sp_action r) (sp_silent r) (sp_need r) (sp_start r) (sp_end r) (sp_unchanged r) (sp_condstore r).

Definition store_action (t : cstr) : option (flag_action * bool) :=
  if strcaseeq t (lit "flags") then Some (IMAPFA_REPLACE, false)
  else if strcaseeq t (lit "flags.silent") then Some (IMAPFA_REPLACE, true)
  else if strcaseeq t (lit "+flags") then Some (IMAPFA_ADD, false)
  else if strcaseeq t (lit "+flags.silent") then Some (IMAPFA_ADD, true)
  else if strcaseeq t (lit "-flags") then Some (IMAPFA_REMOVE, false)
  else if strcaseeq t (lit "-flags.silent") then Some (IMAPFA_REMOVE, true)
  else None.
Definition no_action (st : store_parse) : bool := match sp_action st with IMAPFA_NONE => true | _ => false end.

(** The loop over the arguments from number [k]: the number at its end and what was found.
    [condstore] is the capability. *)
Fixpoint store_loop (condstore : bool) (fuel k : nat) (l : list cstr) (st : store_parse) : nat * store_parse :=
  match fuel, l !! k with
  | S fuel, Some t =>
      let next k st := store_loop condstore fuel (S k) l st in
      match (if no_action st then store_action t else None) with
      | Some (a, silent) => next k (st <| sp_action := a |> <| sp_silent := silent |> <| sp_need := true |>)
      | None =>
          let open := strcaseeq t (lit "(") in
          if sp_need st && (sp_start st =? 0)%nat then next k (st <| sp_start := if open then S k else k |>)
          else
            let st := if sp_need st && (strcaseeq t (lit ")") || open)
                      then st <| sp_need := false |> <| sp_end := pred k |> else st in
            if negb (sp_need st) && open then
              match l !! (k + 1)%nat, l !! (k + 2)%nat with
              | Some word, Some n =>
                  if negb condstore || negb (strcaseeq word (lit "UNCHANGEDSINCE")) then (k, st <| sp_action := IMAPFA_NONE |>)
                  else
                    let '(v, rest) := dm_strtoull n in
                    let st := st <| sp_unchanged := v |> in
                    if bool_decide (rest = n) then (k, st <| sp_action := IMAPFA_NONE |>)
                    else next (k + 2)%nat (st <| sp_condstore := true |>)
              | _, _ => next k st
              end
            else next k st
      end
  | _, _ => (k, st)
  end.

Record cmd_t := mkcmd { cmd_silent : bool; cmd_action : flag_action; cmd_flags : list Z; cmd_keywords : list cstr; cmd_seq : Z; cmd_unchanged : Z }.

Definition store_flag (c : cmd_t) (j : nat) (old : Z) : Z :=
  if (j =? IMAP_FLAG_RECENT)%nat then old
  else
    let given := negb (default 0 (cmd_flags c !! j) =? 0) in
    match cmd_action c with
    | IMAPFA_ADD => if given then 1 else old
    | IMAPFA_REMOVE => if given then 0 else old
    | IMAPFA_REPLACE => if given then 1 else 0
    | IMAPFA_NONE => old
    end.
Definition store_info (c : cmd_t) (info : MessageInfo) : MessageInfo :=
  info <| flags ::= imap (store_flag c) |>
       <| mi_keywords ::= fun kws => g_list_merge strcaseeq kws (cmd_keywords c) (cmd_action c) |>.

(** [_do_store] for one message: whether the walk goes on, and the status. *)
Definition _do_store (p : stateptr) (c : cmd_t) (u : Z) : IM (bool * Z) :=
  M ← get_state p;
  match g_tree_lookup (msginfo M) u with
  | None => mret (false, 0)
  | Some info =>
      perm ← on_state p (fun d M => @MailboxState_getPermission _ d M);
      let writable := perm =? IMAPPERM_READWRITE in
      changed ← (if writable then run_db (fun d => db_set_msgflag d u (cmd_flags c) (cmd_keywords c) (cmd_action c) (cmd_unchanged c))
                 else mret 0);
      if changed <? 0 then buff_printf (crlf ++ lit "* BYE internal dbase error" ++ crlf);; mret (false, 1)
      else
        (if 0 <? changed then run_db (fun d => (db_message_set_seq d u (cmd_seq c), tt))
         else when writable (upd (fun s => s <| ids_list ::= cons u |>)));;
        let info := if 0 <? changed then info <| mi_seq := cmd_seq c |> else info in
        upd_state p (fun _ M => M <| msginfo ::= fun t => g_tree_insert t u (store_info c info) |>);;
        m ← the_mailbox;
        when (negb (cmd_silent c) || (0 <? changed))
          (_fetch_update p u ((0 <? changed) && (negb (cmd_unchanged c =? 0) || mbx_condstore m))
             (negb (cmd_silent c) || ((conf_ignore_silent =? 1) && (0 <? changed))));;
        mret (true, 0)
  end.
Fixpoint store_all (p : stateptr) (c : cmd_t) (uids : list Z) : IM Z :=
  match uids with
  | [] => mret 0
  | u :: uids => r ← _do_store p c u; if r.1 : bool then store_all p c uids else mret r.2
  end.

(** A keyword that the mailbox does not know yet becomes known. *)
Fixpoint new_keywords (p : stateptr) (kws : list cstr) (update : bool) : IM bool :=
  match kws with
  | [] => mret update
  | kw :: kws =>
      M ← get_state p;
      if MailboxState_hasKeyword M kw then new_keywords p kws update
      else upd_state p (fun _ M => MailboxState_addKeyword M kw);; new_keywords p kws true
  end.
(** The flags up to the first \Recent, which is not allowed; whether there is one. *)
Definition before_recent (l : list cstr) : list cstr * bool :=
  match list_find (fun a => strcaseeq a (lit "\Recent") = true) l with
  | Some (n, _) => (take n l, true)
  | None => (l, false)
  end.

Definition store_answer : IM Z :=
  s ← self;
  match ids_list s with
  | [] => ok
  | l => upd (fun s => s <| ids_list := [] |>);; SESSION_OK_WITH_RESP_CODE (lit "MODIFIED " ++ g_list_join_u64 (lit ",") l);; mret 0
  end.

Definition store_checked (p : stateptr) (c : cmd_t) (update : bool) : IM Z :=
  (if update then
     _ ← run_db (fun d => db_mailbox_seq_update d p.1 0);
     M ← get_state p;
     flags_responses (MailboxState_flags M)
   else skip);;
  set ← arg0;
  result ← _dm_imapsession_get_ids set;
  if negb (result =? DM_SUCCESS) then mret result
  else
    s ← self;
    st ← match ids s with
         | Some l => seq ← run_db (fun d => db_mailbox_seq_update d p.1 0);
                     store_all p (mkcmd (cmd_silent c) (cmd_action c) (cmd_flags c) (cmd_keywords c) seq (cmd_unchanged c)) l
         | None => mret 0
         end;
    if negb (st =? 0) then mret st else store_answer.

Definition _ic_store_enter : IM Z :=
  s ← self;
  p ← mbstate;
  let l := args_from (args s) in
  let '(k, st) := store_loop (Capa_match (capa s) (lit "CONDSTORE")) (length l) (S (args_idx s)) l
                    (mkstore IMAPFA_NONE false false 0 0 0 false) in
  when (sp_condstore st) (upd_mailbox (fun m => m <| mbx_condstore := true |>));;
  let last := if (sp_end st =? 0)%nat then pred k else sp_end st in
  if no_action st then bad (lit "invalid STORE action specified")
  else if sp_need st && (sp_start st =? 0)%nat then bad (lit "invalid argument(s) to STORE")
  else
    let '(flags, recent) := before_recent (drop (sp_start st) (take (S last) l)) in
    let '(fl, kws) := foldl add_flag (no_flags, []) flags in
    update ← new_keywords p kws false;
    if recent then bad (lit "invalid flag list to STORE command")
    else
      result ← check_rights p (store_rights fl kws [IMAP_FLAG_ANSWERED; IMAP_FLAG_FLAGGED; IMAP_FLAG_DRAFT]);
      if negb (result =? 0) then no result (lit "access denied")
      else store_checked p (mkcmd (sp_silent st) (sp_action st) fl kws 0 (sp_unchanged st)) update.

(** ** COPY *)

(** The copies of some messages: one that is not in the mailbox or cannot be copied is left
    out; the walk ends when the quota is exceeded. *)
Fixpoint copy_all (p : stateptr) (dest seq : Z) (uids : list Z) : IM unit :=
  match uids with
  | [] => skip
  | u :: uids =>
      M ← get_state p;
      match g_tree_lookup (msginfo M) u with
      | None => copy_all p dest seq uids
      | Some _ =>
          s ← self;
          r ← run_db (fun d => db_copymsg d u dest (userid s));
          run_db (fun d => (db_message_set_seq d u seq, tt));;
          if r.1 =? -1 then copy_all p dest seq uids
          else if r.1 =? -2 then NO (lit "quota would be exceeded")
          else upd (fun s => s <| new_ids ::= cons r.2 |>);; copy_all p dest seq uids
      end
  end.

Definition _ic_copy_enter : IM Z :=
  s ← self;
  src ← arg0;
  dst ← arg1;
  r ← run_db (fun d => db_findmailbox d dst (userid s));
  if r.1 =? 0 then no 1 (lit "[TRYCREATE] specified mailbox does not exist")
  else
    let dest := r.2 in
    p ← mbstate;
    result ← mailbox_check_acl p ACL_RIGHT_READ;
    if negb (result =? 0) then mret result
    else
      k ← dbmail_imap_session_mbxinfo_lookup dest;
      result ← mailbox_check_acl k ACL_RIGHT_INSERT;
      if negb (result =? 0) then mret result
      else
        result ← _dm_imapsession_get_ids src;
        if negb (result =? DM_SUCCESS) then mret result
        else
          s ← self;
          (match ids s with
           | Some l => seq ← run_db (fun d => db_mailbox_seq_update d dest 0); copy_all p dest seq l
           | None => skip
           end);;
          when (p.1 =? dest) (dbmail_imap_session_mailbox_status true);;
          s ← self;
          let new := reverse (new_ids s) in
          SESSION_OK_WITH_RESP_CODE (lit "COPYUID " ++ dec_of dest ++ SP :: g_list_join_u64 (lit ",") (default [] (ids s)) ++
                                     SP :: g_list_join_u64 (lit ",") new);;
          upd (fun s => s <| new_ids := [] |>);;
          mret 0.
End messages.
