(* ===== verification/ImapDispatch.v ===== *)
(** * imapcommands.c: the commands

    A command checks the state of the session and the number of its arguments. Most commands
    then hand a job to the thread pool and return 0; an error is answered at once and returns
    1. [handler] is the table [imap_handler_functions], [run_job] what a worker executes. *)
From S2P Require Import Prelude.
From S2P Require Import CLib.
From S2P Require Import GLib.
From S2P Require Import Tree.
From S2P Require Import ListT.
From S2P Require Import ClientBase.
From S2P Require Import ClientSession.
From S2P Require Import GListUtil.
From S2P Require Import MailboxState.
From S2P Require Import MiscText.
From S2P Require Import SearchKeys.
From S2P Require Import Acl.
From S2P Require Import Cidr.
From S2P Require Import Capa.
From S2P Require Import Auth.
From S2P Require Import ImapText.
From S2P Require Import ImapSession.
From S2P Require Import ImapMailbox.
From S2P Require Import ImapCommands.
From S2P Require Import ImapFolders.
From S2P Require Import Mime.
From S2P Require Import ImapFetch.
From S2P Require Import ImapMessages.

Section dispatch.
Context `{ImapDB} `{!ImapStore} `{!ImapSearch} `{!FetchDB} `{GMimeLib} `{GLibStr} `{ServerConf} `{ImapConf} `{GLibBase64} `{Digests}
  `{AuthTables} `{SocketLib} `{AuthNames}.

(** ** Jobs *)
Definition enter (j : job) : IM Z :=
  match j with
  | ic_capability => _ic_capability_enter
  | ic_noop => _ic_noop_enter
  | ic_id => _ic_id_enter
  | ic_authenticate => _ic_authenticate_enter
  | ic_select => _ic_select_enter
  | ic_enable => _ic_enable_enter
  | ic_create => _ic_create_enter
  | ic_delete => _ic_delete_enter
  | ic_rename => _ic_rename_enter
  | ic_subscribe => _ic_subscribe_enter
  | ic_list => _ic_list_enter
  | ic_status => _ic_status_enter
  | ic_append => _ic_append_enter
  | ic_check => _ic_check_enter
  | ic_close => _ic_close_enter
  | ic_unselect => _ic_unselect_enter
  | ic_expunge => _ic_expunge_enter
  | ic_search => sorted_search_enter
  | ic_fetch => _ic_fetch_enter
  | ic_store => _ic_store_enter
  | ic_copy => _ic_copy_enter
  | ic_getquotaroot => _ic_getquotaroot_enter
  | ic_getquota => _ic_getquota_enter
  | ic_setacl => _ic_setacl_enter
  | ic_deleteacl => _ic_deleteacl_enter
  | ic_getacl => _ic_getacl_enter
  | ic_listrights => _ic_listrights_enter
  | ic_myrights => _ic_myrights_enter
  | ic_namespace => _ic_namespace_enter
  end.

(** [dm_thread_dispatch] *)
Definition run_job (j : job) : IM unit :=
  s ← self;
  if state s =? CLIENTSTATE_QUIT_QUEUED then skip
  else st ← enter j; SESSION_RETURN st.

(** ** Commands that only start a job *)
Definition checked (minargs maxargs : nat) (required : Z) (k : IM Z) : IM Z :=
  okay ← check_state_and_args minargs maxargs required;
  if okay : bool then k else mret 1.
Definition start (j : job) : IM Z := dm_thread_data_push j;; mret 0.

Definition _ic_capability : IM Z := checked 0 0 CLIENTSTATE_ANY (start ic_capability).
Definition _ic_noop : IM Z := checked 0 0 CLIENTSTATE_ANY (start ic_noop).
Definition _ic_id : IM Z := checked 1 0 CLIENTSTATE_ANY (start ic_id).
Definition _ic_select : IM Z := checked 1 0 CLIENTSTATE_AUTHENTICATED (start ic_select).
Definition _ic_examine : IM Z := _ic_select.
Definition _ic_enable : IM Z := checked 1 0 CLIENTSTATE_AUTHENTICATED (start ic_enable).
Definition _ic_create : IM Z := checked 1 1 CLIENTSTATE_AUTHENTICATED (start ic_create).
Definition _ic_delete : IM Z := checked 1 1 CLIENTSTATE_AUTHENTICATED (start ic_delete).
Definition _ic_rename : IM Z := checked 2 2 CLIENTSTATE_AUTHENTICATED (start ic_rename).
Definition _ic_subscribe : IM Z := checked 1 1 CLIENTSTATE_AUTHENTICATED (start ic_subscribe).
Definition _ic_unsubscribe : IM Z := _ic_subscribe.
Definition _ic_list : IM Z := checked 2 2 CLIENTSTATE_AUTHENTICATED (start ic_list).
Definition _ic_lsub : IM Z := _ic_list.
Definition _ic_status : IM Z := checked 3 0 CLIENTSTATE_AUTHENTICATED (start ic_status).
Definition _ic_append : IM Z := checked 2 0 CLIENTSTATE_AUTHENTICATED (start ic_append).
Definition _ic_check : IM Z := checked 0 0 CLIENTSTATE_SELECTED (start ic_check).
Definition _ic_close : IM Z := checked 0 0 CLIENTSTATE_SELECTED (start ic_close).
Definition _ic_unselect : IM Z := checked 0 0 CLIENTSTATE_SELECTED (start ic_unselect).
Definition _ic_fetch : IM Z := checked 2 0 CLIENTSTATE_SELECTED (start ic_fetch).
Definition _ic_store : IM Z := checked 2 0 CLIENTSTATE_SELECTED (start ic_store).
Definition _ic_copy : IM Z := checked 2 2 CLIENTSTATE_SELECTED (start ic_copy).
Definition _ic_getquotaroot : IM Z := checked 1 1 CLIENTSTATE_AUTHENTICATED (start ic_getquotaroot).
Definition _ic_getquota : IM Z := checked 1 1 CLIENTSTATE_AUTHENTICATED (start ic_getquota).
Definition _ic_setacl : IM Z := checked 3 3 CLIENTSTATE_AUTHENTICATED (start ic_setacl).
Definition _ic_deleteacl : IM Z := checked 2 2 CLIENTSTATE_AUTHENTICATED (start ic_deleteacl).
Definition _ic_getacl : IM Z := checked 1 1 CLIENTSTATE_AUTHENTICATED (start ic_getacl).
Definition _ic_listrights : IM Z := checked 2 2 CLIENTSTATE_AUTHENTICATED (start ic_listrights).
Definition _ic_myrights : IM Z := checked 1 1 CLIENTSTATE_AUTHENTICATED (start ic_myrights).
Definition _ic_namespace : IM Z := checked 0 0 CLIENTSTATE_AUTHENTICATED (start ic_namespace).

(** ** Commands with work of their own *)
Definition run_ci {A} (f : ClientBase_T -> ClientBase_T * A) : IM A :=
  fun w => let '(c, x) := f (ci (session w)) in (w <| session ::= fun s => s <| ci := c |> |>, x).
Definition ci_print (f : cstr) (args : list farg) : IM Z := run_ci (fun c => ci_write c f args).

Definition _ic_starttls : IM Z :=
  checked 0 0 CLIENTSTATE_ANY
    (s ← self;
     let answer t := ci_print (lit "%s " ++ t ++ crlf) [FS (tag_str s)] in
     if negb conf_ssl then _ ← answer (lit "NO TLS not available"); mret 1
     else if negb (ssl_state (ci s) =? 0) then _ ← answer (lit "NO TLS already active"); mret 1
     else
       _ ← answer (lit "OK Begin TLS now");
       i ← run_ci ci_starttls;
       if Z.max i 0 =? 0 then dbmail_imap_session_encrypted;; mret 3 else mret i).

Definition _ic_logout : IM Z :=
  checked 0 0 CLIENTSTATE_ANY (_ ← dbmail_imap_session_set_state CLIENTSTATE_LOGOUT; mret 2).

(** The mechanisms that are announced. *)
Definition mechanism_ok (s : ImapSession) (m : cstr) : bool :=
  existsb (fun name => strcaseeq m name && Capa_match (preauth_capa s) (lit "AUTH=" ++ name))
    [lit "LOGIN"; lit "PLAIN"; lit "CRAM-MD5"].
Definition login_allowed (k : IM Z) : IM Z :=
  s ← self;
  if Capa_match (preauth_capa s) (lit "LOGINDISABLED") && (ssl_state (ci s) =? 0)
  then NO (lit "try STARTTLS first");; mret 1
  else k.
Definition _ic_authenticate : IM Z :=
  s ← self;
  if (command_type s =? IMAP_COMM_AUTH)%nat then
    checked 1 3 CLIENTSTATE_NON_AUTHENTICATED
      (m ← arg0;
       if negb (mechanism_ok s m) then NO (lit "Invalid authentication mechanism specified");; mret 1
       else upd (fun s => s <| args_idx ::= S |>);; login_allowed (start ic_authenticate))
  else checked 2 2 CLIENTSTATE_NON_AUTHENTICATED (login_allowed (start ic_authenticate)).
Definition _ic_login : IM Z := _ic_authenticate.

Definition _ic_expunge : IM Z :=
  s ← self;
  let n := if use_uid s then 1%nat else 0%nat in
  checked n n CLIENTSTATE_SELECTED
    (p ← mbstate;
     perm ← on_state p (fun d M => @MailboxState_getPermission _ d M);
     if negb (perm =? IMAPPERM_READWRITE) then NO (lit "you do not have write permission on this folder");; mret 1
     else start ic_expunge).

Definition sorted_search (o : search_order) : IM Z :=
  checked 1 0 CLIENTSTATE_SELECTED (upd (fun s => s <| order := o |>);; start ic_search).
Definition _ic_search : IM Z := sorted_search SEARCH_UNORDERED.
Definition _ic_sort : IM Z := sorted_search SEARCH_SORTED.
Definition _ic_thread : IM Z :=
  t ← arg0;
  if strcaseeq t (lit "ORDEREDSUBJECT") then sorted_search SEARCH_THREAD_ORDEREDSUBJECT
  else
    when (strcaseeq t (lit "REFERENCES")) (BAD (lit "THREAD=REFERENCES not supported"));; mret 1.

Definition atoi (t : cstr) : Z := to_int32 (strtoll t).
Definition IDLE_TIMEOUT : Z := 30.
Definition _ic_idle : IM Z :=
  checked 0 0 CLIENTSTATE_AUTHENTICATED
    (updci ci_cork;;
     let t := match conf_idle_timeout with [] => IDLE_TIMEOUT | v => if atoi v <=? 0 then IDLE_TIMEOUT else atoi v end in
     upd (fun s => s <| command_state := IDLE |>);;
     buff_printf (lit "+ idling" ++ crlf);;
     dbmail_imap_session_mailbox_status true;;
     dbmail_imap_session_buff_flush;;
     updci (fun c => ci_uncork (c <| tv_sec := t |>));;
     mret 0).

(** UID: the command that follows is executed with UIDs. *)
Definition uid_commands : list (cstr * IM Z) :=
  [(lit "fetch", _ic_fetch); (lit "copy", _ic_copy); (lit "store", _ic_store); (lit "search", _ic_search);
   (lit "sort", _ic_sort); (lit "thread", _ic_thread); (lit "expunge", _ic_expunge)].
Definition _ic_uid : IM Z :=
  s ← self;
  if negb (state s =? CLIENTSTATE_SELECTED) then BAD (lit "UID command received in invalid state");; mret 1
  else
    match arg_at s 0, arg_at s (args_idx s) with
    | Some _, Some c =>
        upd (fun s => s <| use_uid := true |>);;
        match snd <$> list_find (fun x => strcaseeq c x.1 = true) uid_commands with
        | Some (_, f) => dbmail_imap_session_set_command c;; upd (fun s => s <| args_idx ::= S |>);; f
        | None => BAD (lit "invalid UID command");; upd (fun s => s <| use_uid := false |>);; mret 1
        end
    | _, _ => BAD (lit "missing argument(s) to UID");; mret 1
    end.

(** ** The table *)
Definition imap_handler_functions : list (IM Z) :=
  [mret (-1); _ic_capability; _ic_noop; _ic_logout; _ic_authenticate; _ic_login; _ic_select; _ic_examine; _ic_enable;
   _ic_create; _ic_delete; _ic_rename; _ic_subscribe; _ic_unsubscribe; _ic_list; _ic_lsub; _ic_status; _ic_append;
   _ic_check; _ic_close; _ic_expunge; _ic_search; _ic_fetch; _ic_store; _ic_copy; _ic_uid; _ic_sort; _ic_getquotaroot;
   _ic_getquota; _ic_setacl; _ic_deleteacl; _ic_getacl; _ic_listrights; _ic_myrights; _ic_namespace; _ic_thread;
   _ic_unselect; _ic_idle; _ic_starttls; _ic_id].
(** The number of a command, compared without case; the first entry is not a command. *)
Definition command_lookup (c : cstr) : nat :=
  match list_find (fun n => strcaseeq c n = true) (take IMAP_COMM_LAST IMAP_COMMANDS) with
  | Some (j, _) => j
  | None => IMAP_COMM_LAST
  end.
Definition handler (j : nat) : IM Z :=
  match imap_handler_functions !! j with Some f => f | None => undefined;; mret (-1) end.
End dispatch.
