(* ===== verification/ImapServer.v ===== *)
(** * imap4.c, server.c: the IMAP server

    What the main thread does on the events of one connection, and the queue over which the
    workers talk to it. [event] lists what can happen; [handle] executes one event and is
    [None] when it cannot happen now. *)
From S2P Require Import Prelude.
From S2P Require Import CLib.
From S2P Require Import GLib.
From S2P Require Import Tree.
From S2P Require Import DmString.
From S2P Require Import ListT.
From S2P Require Import ClientBase.
From S2P Require Import ClientSession.
From S2P Require Import GListUtil.
From S2P Require Import MailboxState.
From S2P Require Import MiscText.
From S2P Require Import Acl.
From S2P Require Import Cidr.
From S2P Require Import Capa.
From S2P Require Import Auth.
From S2P Require Import ImapText.
From S2P Require Import ImapSession.
From S2P Require Import ImapTokenizer.
From S2P Require Import ImapMailbox.
From S2P Require Import ImapCommands.
From S2P Require Import ImapFolders.
From S2P Require Import Mime.
From S2P Require Import ImapFetch.
From S2P Require Import ImapMessages.
From S2P Require Import ImapDispatch.

Definition MAX_FAULTY_RESPONSES : Z := 5.
Definition DEFERRED_MAX_LOOP : Z := 100.
Definition IMAP_TIMEOUT_MSG : cstr := lit "* BYE dbmail IMAP4 server signing off due to timeout" ++ crlf.

Section server.
Context `{ImapDB} `{!ImapStore} `{!ImapSearch} `{!FetchDB} `{GMimeLib} `{GLibStr} `{ServerConf} `{ImapConf} `{GLibBase64} `{Digests}
  `{AuthTables} `{SocketLib} `{AuthNames}.

(** ** Ends of a session *)
Definition imap_session_bailout : IM unit :=
  same ← dbmail_imap_session_set_state CLIENTSTATE_QUIT_QUEUED;
  if same : bool then skip else push QCleanup.

Definition imap_session_reset : IM unit :=
  upd (fun s => s <| tag := [] |> <| command := [] |> <| use_uid := false |> <| command_type := IMAP_COMM_NONE |>
                  <| command_state := FALSE |> <| parser_state := FALSE |>);;
  dbmail_imap_session_args_free;;
  s ← self;
  let t := if (state s =? CLIENTSTATE_AUTHENTICATED) || (state s =? CLIENTSTATE_SELECTED) then conf_timeout else conf_login_timeout in
  updci (fun c => ci_uncork (c <| tv_sec := Z.of_nat t |>)).

Definition imap_handle_abort : IM unit :=
  same ← dbmail_imap_session_set_state CLIENTSTATE_ERROR;
  if same : bool then skip else imap_session_reset;; imap_session_bailout.

(** [imap_session_printf] of a text: the response buffer is overwritten, and the text is the
    format of the write. *)
Definition imap_session_printf (text : cstr) : IM unit :=
  e ← run_ci (fun c => ci_write c text []);
  if e <? 0 then upd (fun s => s <| buff := text |>);; imap_handle_abort
  else upd (fun s => s <| buff := [] |>).

(** ** Line by line *)

(** [imap4_tokenizer]: the state of the parser. *)
Definition imap4_tokenizer (buffer : cstr) : IM Z :=
  s ← self;
  match buffer with
  | [] => mret 0
  | _ =>
      let parse args :=
        r ← imap4_tokenizer_main args;
        upd (fun s => s <| parser_state := r |>);; mret r in
      let reject t :=
        imap_session_printf t;;
        upd (fun s => s <| error_count ::= Z.succ |> <| command_state := TRUE |>);; mret 0 in
      if negb (bool_decide (head (tag s) = None)) then parse buffer
      else if bool_decide (buffer = [LF]) || bool_decide (take 2 buffer = crlf) || bool_decide (head buffer = Some LF) then mret 0
      else
        upd (fun s => s <| parser_state := 0 |>);;
        let i := stridx buffer SP in
        if bool_decide (i = length buffer) then
          reject (if checktag buffer then buffer ++ lit " BAD No command specified" ++ crlf
                  else lit "* BAD Invalid tag specified" ++ crlf)
        else
          upd (fun s => s <| tag ::= fun old => strncpy_field old buffer (Nat.min i FIELD16) |>);;
          s ← self;
          if negb (checktag (tag_str s)) then reject (lit "* BAD Invalid tag specified" ++ crlf)
          else
            let rest := drop (S i) buffer in
            let j := stridx rest SP in
            upd (fun s => s <| command ::= fun old => strip_crlf (strncpy_field old rest (Nat.min j FIELD16)) |>);;
            parse (drop j rest)
  end.

Definition unescaped_commands : list nat :=
  [IMAP_COMM_EXAMINE; IMAP_COMM_SELECT; IMAP_COMM_SEARCH; IMAP_COMM_CREATE; IMAP_COMM_DELETE; IMAP_COMM_RENAME;
   IMAP_COMM_SUBSCRIBE; IMAP_COMM_UNSUBSCRIBE; IMAP_COMM_STATUS; IMAP_COMM_COPY; IMAP_COMM_LOGIN].
(** [p_string_unescape] of the arguments up to the first NULL. *)
Fixpoint unescape_list (l : list (option cstr)) : list (option cstr) :=
  match l with Some t :: l => Some (unescape false t) :: unescape_list l | _ => l end.
Definition imap_unescape_args : IM unit :=
  s ← self;
  when (bool_decide (command_type s ∈ unescaped_commands)) (upd (fun s => s <| args ::= unescape_list |>)).

(** [imap4]: the command is looked up and its handler is called. *)
Definition imap4 : IM Z :=
  d ← database;
  if negb (dm_db_ping d) then imap_handle_abort;; mret DM_EQUERY
  else
    s ← self;
    if command_state s =? TRUE then mret 0
    else
      upd (fun s => s <| command_state := TRUE |>);;
      if bool_decide (tag s = []) || bool_decide (command s = []) then mret 1
      else
        let j := command_lookup (command_str s) in
        if (j =? IMAP_COMM_NONE)%nat || (IMAP_COMM_LAST <=? j)%nat then
          imap_session_printf (tag_str s ++ lit " BAD no valid command" ++ crlf);; mret 1
        else
          upd (fun s => s <| error_count := 0 |> <| command_type := j |> <| command_state := FALSE |>);;
          imap_unescape_args;;
          handler j.

(** ** What follows a command *)
Definition imap_handle_retry : IM unit :=
  s ← self;
  if has_flag (client_state (ci s)) CLIENT_EOF then imap_session_bailout
  else
    upd (fun s => s <| command_state := TRUE |>);;
    dbmail_imap_session_buff_flush;;
    upd (fun s => s <| error_count ::= Z.succ |>);;
    imap_session_reset.

Definition imap_handle_done : IM unit :=
  imap_session_printf (lit "* BYE Requested" ++ crlf);;
  s ← self;
  imap_session_printf (tag_str s ++ lit " OK LOGOUT completed" ++ crlf);;
  imap_session_bailout.

(** How the work on the buffered input ended: by itself, or because the bound of the loop was
    used up. The functions of the source return nothing; the result is there to tell the two
    apart. *)
Inductive ending := Ended | NoFuel.
Definition fin (m : IM unit) : IM ending := m;; mret Ended.

(** [imap_handle_continue]; [input] is what it calls for the input that is buffered. *)
Definition imap_handle_continue (input : IM ending) : IM ending :=
  let pending_input :=
    s ← self;
    if bool_decide (read_buffer (ci s) = []) then mret Ended else input in
  let after_write :=
    s ← self;
    when (bool_decide (write_buffer_offset (ci s) < length (default [] (write_buffer (ci s))))%nat)
      (_ ← run_ci (fun c => ci_write_msg c None); skip);;
    when (command_state s =? TRUE) imap_session_reset;;
    pending_input in
  s ← self;
  if state s <? CLIENTSTATE_LOGOUT then
    if bool_decide (buff s = []) then after_write
    else
      e ← ci_print (lit "%s") [FS (buff s)];
      if e <? 0 then fin imap_handle_abort
      else dbmail_imap_session_buff_clear;; after_write
  else dbmail_imap_session_buff_clear;; pending_input.

Definition imap_handle_exit (input : IM ending) (status : Z) : IM ending :=
  if status =? -1 then fin imap_handle_abort
  else if status =? 0 then imap_handle_continue input
  else if status =? 1 then fin imap_handle_retry
  else if status =? 2 then fin imap_handle_done
  else if status =? 3 then fin imap_session_reset
  else mret Ended.

(** ** Input *)

(** What is read in one pass of the loop: a line, or the rest of a literal; the first
    component is the number of bytes, the second the stack buffer and the third the input. *)
Definition read_input : IM (nat * cstr * cstr) :=
  s ← self;
  if rbuff_size (ci s) <=? 0 then
    l ← run_ci ci_readln;
    mret (length l, l, l)
  else
    b ← run_ci (fun c => ci_read c (Z.to_nat (rbuff_size c)));
    let b := default [] b in
    mret (length b, [], cstring_of b).

Inductive pass := Again | Stop | Exit (status : Z).
Definition idling (s : ImapSession) : bool := (command_type s =? IMAP_COMM_IDLE)%nat && (command_state s =? IDLE).

Definition input_pass : IM pass :=
  r ← read_input;
  let '(l, line, input) := r in
  if (l =? 0)%nat then mret Stop
  else
    s ← self;
    if MAX_FAULTY_RESPONSES <=? error_count s then
      imap_session_printf (lit "* BYE [TRY RFC]" ++ crlf);; imap_handle_abort;; mret Stop
    else if idling s then
      imap_session_printf (tag_str s ++ (if (4 <? length line)%nat && strcaseeq (take 4 line) (lit "DONE")
                                         then lit " OK IDLE terminated" else lit " BAD Expecting DONE") ++ crlf);;
      upd (fun s => s <| command_state := TRUE |>);;
      imap_session_reset;;
      mret Again
    else
      t ← imap4_tokenizer input;
      s ← self;
      if t =? 0 then mret Again
      else if parser_state s <? 0 then
        imap_session_printf (tag_str s ++ lit " BAD parse error" ++ crlf);; imap_handle_retry;; mret Stop
      else
        result ← imap4;
        s ← self;
        mret (if negb (result =? 0) || idling s then Exit result else Stop).

(** The part of [imap_handle_input] in front of the loop: whether the loop is entered. *)
Definition input_prologue : IM bool :=
  s ← self;
  when (negb (bool_decide (default [] (write_buffer (ci s)) = []))) (_ ← run_ci (fun c => ci_write_msg c None); skip);;
  s ← self;
  if bool_decide (read_buffer (ci s) = []) then mret false
  else if (command_state s =? FALSE) && (parser_state s =? TRUE) then mret false
  else when (command_state s =? TRUE) imap_session_reset;; mret true.

(** The loop. Every pass that goes on takes at least one byte from the read buffer, so that
    the bytes that are unread bound the passes, those of the nested calls included. *)
Fixpoint input_loop (fuel : nat) : IM ending :=
  match fuel with
  | O => mret NoFuel
  | S fuel =>
      r ← input_pass;
      match r with
      | Again => input_loop fuel
      | Stop => mret Ended
      | Exit status =>
          imap_handle_exit (go ← input_prologue; if go : bool then input_loop fuel else mret Ended) status
      end
  end.
Definition handle_input (fuel : nat) : IM ending :=
  go ← input_prologue; if go : bool then input_loop fuel else mret Ended.
Definition input_fuel (s : ImapSession) : nat := S (length (unread (ci s))).
Definition imap_handle_input : IM ending := s ← self; handle_input (input_fuel s).

(** ** Callbacks *)

(** [_ic_cb_leave] *)
Definition _ic_cb_leave (status : Z) : IM unit :=
  s ← self;
  if errored (ci s) then imap_handle_abort
  else updci ci_uncork;; _ ← imap_handle_exit imap_handle_input status; skip.

Definition dm_thread_data_sendmessage (text : cstr) : IM unit := _ ← ci_print (lit "%s") [FS text]; skip.

(** [ci_close] and [dbmail_imap_session_delete]: the events are freed, then the session. *)
Definition dbmail_imap_session_delete : IM unit := fun w => (w <| deleted := true |>, tt).
Definition session_delete : IM unit := updci ci_cork;; dbmail_imap_session_delete.
Definition imap_cleanup_deferred : IM unit :=
  upd (fun s => s <| deferred ::= Z.succ |>);;
  updci (fun c => c <| rev_on := false |>);;
  n ← run_ci ci_wbuf_len;
  s ← self;
  if negb (n =? 0) && negb (errored (ci s)) && (deferred s <? DEFERRED_MAX_LOOP)
  then updci ci_write_cb;; push QCleanup
  else session_delete.

Definition cb_leave (q : qitem) : IM unit :=
  fun w => if deleted w then undefined w else
    match q with
    | QMessage t => dm_thread_data_sendmessage t w
    | QLeave st => _ic_cb_leave st w
    | QCleanup => imap_cleanup_deferred w
    end.

(** [dm_queue_drain]: items are taken and executed until there is none. The loop is grouped
    into rounds of the items that are there when a round starts; a cleanup that is deferred is
    put back at most a hundred times. *)
Definition pop : IM (option qitem) :=
  fun w => match queue w with [] => (w, None) | q :: l => (w <| queue := l |>, Some q) end.
Fixpoint drain_items (n : nat) : IM unit :=
  match n with
  | O => skip
  | S n => q ← pop; match q with Some q => cb_leave q | None => skip end;; drain_items n
  end.
Fixpoint drain_rounds (fuel : nat) : IM unit :=
  match fuel with
  | O => skip
  | S fuel => fun w => match queue w with [] => (w, tt) | l => (drain_items (length l);; drain_rounds fuel) w end
  end.
Definition DRAIN_ROUNDS : nat := Z.to_nat (DEFERRED_MAX_LOOP + 4).
Definition dm_queue_drain : IM unit := drain_rounds DRAIN_ROUNDS.

Definition imap_cb_time : IM unit :=
  s ← self;
  if idling s then
    let i := atoi conf_idle_interval in
    let interval := if (0 <? i) && (i <? 1000) then i else 10 in
    updci ci_cork;;
    upd (fun s => s <| loop := to_int32 (loop s + 1) |>);;
    s ← self;
    when (Z.rem (loop s) interval =? 0) (imap_session_printf (lit "* OK Still here" ++ crlf));;
    dbmail_imap_session_mailbox_status true;;
    dbmail_imap_session_buff_flush;;
    updci ci_uncork
  else
    _ ← dbmail_imap_session_set_state CLIENTSTATE_ERROR;
    imap_session_printf IMAP_TIMEOUT_MSG;;
    imap_session_bailout.

Definition imap_cb_read : IM unit :=
  updci ci_read_cb;;
  s ← self;
  let have := Z.of_nat (length (read_buffer (ci s))) in
  let need := rbuff_size (ci s) in
  let enough := if 0 <? need then need <=? have else 0 <? have in
  if errored (ci s) then imap_session_bailout
  else if has_flag (client_state (ci s)) CLIENT_EOF then
    updci ci_cork;; (if enough then (_ ← imap_handle_input; skip) else imap_session_bailout)
  else when (0 <? have) (_ ← imap_handle_input; skip).

Definition socket_read_cb (timeout : bool) : IM unit :=
  (if timeout then imap_cb_time else imap_cb_read);; dm_queue_drain.
Definition socket_write_cb : IM unit :=
  s ← self;
  (if state s =? CLIENTSTATE_QUIT_QUEUED then skip
   else if state s =? CLIENTSTATE_LOGOUT then imap_session_bailout
   else if state s =? CLIENTSTATE_ERROR then imap_handle_abort
   else updci ci_write_cb);;
  dm_queue_drain.

(** ** A connection *)
Definition send_greeting : IM unit :=
  t ← preauth_string;
  imap_session_printf (lit "* OK [CAPABILITY " ++ t ++ lit "] " ++
    (match conf_banner with [] => lit "dbmail " ++ conf_version ++ lit " ready." | b => b end) ++ crlf);;
  _ ← dbmail_imap_session_set_state CLIENTSTATE_NON_AUTHENTICATED; skip.
Definition disconnect_user : IM unit :=
  imap_session_printf (lit "* BYE [Service unavailable.]" ++ crlf);; imap_handle_abort.
Definition reset_callbacks : IM unit :=
  updci (fun c => ci_uncork (c <| tv_sec := Z.of_nat conf_login_timeout |>)).

(** [imap_handle_connection] for a client, and the answer of [check_fd_headroom]. *)
Definition imap_handle_connection (c : ClientBase_T) (sock : cstr) (d : db) (headroom : Z) : world :=
  let w := mkworld (dbmail_imap_session_new (ci_cork c) sock) d [] None false in
  let setup : IM unit :=
    when (negb conf_ssl || (ssl_state c =? 1)) dbmail_imap_session_encrypted;;
    (if (headroom =? -1) || (headroom =? 0) then disconnect_user else send_greeting);;
    reset_callbacks in
  (setup w).1.

(** ** Events

    The socket can be read or written or the read timed out, as far as the event is
    scheduled; the main thread drains the queue; a worker runs the job of the pool; the
    network and the data base change by themselves. *)
Inductive event :=
  | EvRead | EvTimeout | EvWrite | EvQueue | EvWorker
  | EvNetwork (ws : list wres) (rs : list rres) (ts : list tres)
  | EvDatabase (d : db).

Definition worker (j : job) : IM unit := fun w => run_job j (w <| pool := None |>).
Definition arrive (ws : list wres) (rs : list rres) (ts : list tres) (c : ClientBase_T) : ClientBase_T :=
  c <| wscript ::= fun l => l ++ ws |> <| rscript ::= fun l => l ++ rs |> <| tscript ::= fun l => l ++ ts |>.

Definition handle (e : event) (w : world) : option world :=
  let c := ci (session w) in
  match e with
  | EvRead => if rev_on c then Some (socket_read_cb false w).1 else None
  | EvTimeout => if rev_on c then Some (socket_read_cb true w).1 else None
  | EvWrite => if wev_on c then Some (socket_write_cb (w <| session ::= fun s => s <| ci ::= fun c => c <| wev_on := false |> |> |>)).1
               else None
  | EvQueue => Some (dm_queue_drain w).1
  | EvWorker => match pool w with Some j => Some (worker j w).1 | None => None end
  | EvNetwork ws rs ts => Some (updci (arrive ws rs ts) w).1
  | EvDatabase d => Some (w <| wdb := d |>)
  end.
Fixpoint handle_all (es : list event) (w : world) : option world :=
  match es with [] => Some w | e :: es => w ← handle e w; handle_all es w end.

(** The states that a connection can reach. *)
Inductive reachable : world -> Prop :=
  | reach_start caddr_len fd sst ws rs ts sock d headroom :
      reachable (imap_handle_connection (client_init caddr_len fd sst ws rs ts) sock d headroom)
  | reach_step e w w' : reachable w -> handle e w = Some w' -> reachable w'.
End server.
