(* ===== verification/ImapExample.v ===== *)
(** * An example server

    A small data base with two users and two mailboxes, and a session on it: the input of the
    examples of the IMAP theorems. *)
From S2P Require Import Prelude.
From S2P Require Import CLib.
From S2P Require Import GLib.
From S2P Require Import Tree.
From S2P Require Import DmString.
From S2P Require Import ListT.
From S2P Require Import ClientBase.
From S2P Require Import ClientSession.
From S2P Require Import GListUtil.
From S2P Require Import MailboxState.
From S2P Require Import MiscText.
From S2P Require Import Iconv.
From S2P Require Import SqlFragment.
From S2P Require Import SearchRun.
From S2P Require Import Acl.
From S2P Require Import AclFacts.
From S2P Require Import Cidr.
From S2P Require Import Capa.
From S2P Require Import Auth.
From S2P Require Import AuthExample.
From S2P Require Import ImapText.
From S2P Require Import ImapSession.
From S2P Require Import ImapTokenizer.
From S2P Require Import ImapMailbox.
From S2P Require Import ImapCommands.
From S2P Require Import ImapFolders.
From S2P Require Import ImapMessages.
From S2P Require Import Mime.
From S2P Require Import MimeFacts.
From S2P Require Import ImapFetch.
From S2P Require Import ImapDispatch.
From S2P Require Import ImapServer.

#[export] Instance example_names : AuthNames := {|
  Acl.auth_user_exists name := if bool_decide (name = lit "joe") then Some 7 else None;
  Acl.auth_get_userid i := if i =? 7 then Some (lit "joe") else None;
|}.
#[export] Instance example_imap_conf : ImapConf := {|
  conf_cram_md5 := [];
  conf_capability := lit "IMAP4rev1 AUTH=LOGIN AUTH=PLAIN AUTH=CRAM-MD5 ACL IDLE STARTTLS ID";
  conf_max_message_size := 0; conf_idle_interval := []; conf_idle_timeout := []; conf_authdriver := lit "SQL";
  conf_version := lit "3"; conf_os := (lit "Linux", lit "6"); conf_update_strategy := 1; conf_before_smtp := false;
  conf_allow_unseen := 0; conf_ignore_silent := 0 |}.

(** The INBOX of joe is mailbox 4; mailbox 5 belongs to user 1. *)
Record exdb := mkexdb { ex_acl : acldb; ex_seq : Z; ex_removed : list Z }.
Definition example_info (u st : Z) : MessageInfo := mkinfo u 0 st [0; 0; 0; 0; 0; 0] [] 0 11 (100 + u) (lit "2024-05-01 10:20:30") 0 0.
Definition example_state (d : exdb) (id : Z) : option MailboxState_T :=
  owner ← owners (ex_acl d) !! id;
  Some (MailboxState_remap
    (mkstate id owner 2 2 0 0 30 (ex_seq d) []
       (list_to_map [(4, example_info 4 0); (9, example_info 9 0)] : gmap Z MessageInfo) ∅ ∅ ∅ (lit "INBOX") false false true 0 0)).
#[export] Instance example_imapdb : ImapDB := {|
  db := exdb;
  dm_db_ping _ := true;
  mailbox_answers d := acl_mailboxdb (ex_acl d) (fun _ => Some (ex_seq d)) (fun _ => Some IMAPPERM_READWRITE);
  MailboxState_new d id := example_state d id;
  auth_getencryption _ _ := Some [];
  db_log_ip d := d;
  MailboxState_update d M := M' ← example_state d (mb_id M); Some (M, M');
  db_mailbox_seq_update d _ _ := (mkexdb (ex_acl d) (ex_seq d + 1) (ex_removed d), ex_seq d + 1);
  db_update_recent d _ _ := d;
  db_mark_deleted d m := (mkexdb (ex_acl d) (ex_seq d) (m :: ex_removed d), true);
  db_get_mailbox_size d _ _ := (d, Some 0);
  dm_quota_user_dec d _ _ := (d, true);
  generate_message_id d := (d, lit "<1@x>");
|}.
#[export] Instance example_store : ImapStore := {|
  db_findmailbox d name _ := (d, if strcaseeq name (lit "INBOX") then (1, 4) else if streq name (lit "other") then (1, 5) else (0, 0));
  db_createmailbox d _ _ := (d, (-1, 0));
  db_mailbox_create_with_parents d _ _ := (d, (-1, lit "read only"));
  db_listmailboxchildren d _ _ := (d, (0, []));
  db_isselectable d _ := (d, 1);
  mailbox_is_writable d _ := (d, true);
  db_purge_mailbox d _ := (d, true);
  db_delete_mailbox d _ := (d, 0);
  db_setmailboxname d _ _ := (d, 0);
  db_movemsg d _ _ := (d, 0);
  db_subscribe d _ _ := (d, 0);
  db_unsubscribe d _ _ := (d, 0);
  db_findmailbox_by_regex d _ _ _ := (d, (0, [4]));
  db_getmailboxname d _ _ := (d, (0, lit "INBOX"));
  MailboxState_info d M := (d, (0, M));
  MailboxState_count d M := (d, M);
  auth_getmaxmailsize d _ := (d, (0, 0));
  dm_quota_user_get d _ := (d, (0, 0));
  acl_tables d := ex_acl d;
  with_acl_tables d a := mkexdb a (ex_seq d) (ex_removed d);
|}.
#[export] Existing Instance example_mime.
#[export] Instance example_fetch : FetchDB := {|
  dbmail_message_retrieve _ id := Some (example_message (lit "hello") example_mixed);
  db_get_msgflag_seen _ _ := 0;
  db_set_msgflag d _ _ _ _ _ := (d, 1);
  envelope_rows _ _ _ _ := ([], true);
  headername_ids _ _ := ([1], true);
  header_rows _ _ _ _ _ _ _ := ([], true);
|}.
(** Converters that know nothing, and a data base in which message 4 has been seen, message 9
    has a subject, and both were sent to somebody. *)
#[export] Instance example_iconv : IconvLib := {|
  iconv_t := unit;
  g_mime_iconv_open _ _ := None;
  g_mime_iconv_strdup _ _ := None;
  g_utf8_invalid s := fst <$> list_find (fun c => eight_bit c = true) s;
  g_mime_locale_charset := lit "UTF-8";
  g_mime_utils_header_encode_text s := s;
  g_mime_utils_header_decode_text s := s;
  g_mime_utils_header_decode_phrase s := s;
  conf_encoding := lit "UTF-8";
  conf_default_msg_encoding := lit "UTF-8";
|}.
#[export] Instance example_iconv_laws : IconvLaws.
Proof.
  split; cbn [g_utf8_invalid example_iconv].
  - intros s Hs. rewrite fmap_None. apply list_find_None. eapply Forall_impl; [exact Hs|]. intros c E. by rewrite E.
  - intros a b Ha Hb. rewrite fmap_None in *. rewrite list_find_None in *. by apply Forall_app.
  - intros s i E. apply fmap_Some in E as ([j c] & Ef & ->). apply list_find_Some in Ef as (El & _ & Hf). cbn [fst].
    split; [by apply lookup_lt_Some in El|]. rewrite fmap_None. apply list_find_None, Forall_lookup_2.
    intros k d Hk. apply lookup_take_Some in Hk as [Hk Hlt]. by apply (Hf k d).
Qed.
Definition example_rows (s : search_stmt) : list Z :=
  match s with
  | SOther cond => if streq cond (lit "seen_flag=1") then [4] else if streq cond (lit "seen_flag=0") then [9] else []
  | SHdr name _ => if streq name (lit "subject") then [9] else [4; 9]
  | _ => [4; 9]
  end.
Definition example_answers : SearchAnswers := {|
  search_rows _ s inset := (match inset with Some l => filter (fun u => u ∈ l) (example_rows s) | None => example_rows s end, true);
  sort_rows _ _ _ := ([9; 4], true);
  subject_roots _ := ([], true);
  subject_rows _ := ([], true);
|}.
#[export] Instance example_search : ImapSearch := {|
  db_append_msg d _ _ _ _ := (d, (0, 10));
  db_message_set_seq d _ _ := d;
  db_copymsg d _ _ _ := (d, (1, 11));
  search_answers _ := example_answers;
  search_iconv := example_iconv;
  search_sql := {| db_params_driver := DM_DRIVER_SQLITE; DBPFX := lit "dbmail_" |};
  search_conf := {| mailbox_search_strategy := 1 |};
|}.

Definition example_db : exdb := mkexdb (mkacldb ∅ (list_to_map [(4, 7); (5, 1)]) []) 5 [].
(** A connection on which [input] arrives in one piece, and whose output is never blocked. *)
Definition example_start (input : cstr) : world :=
  imap_handle_connection (client_init 16 7 0 (replicate 60 (Accept 400)) [Data input] []) (lit "inet") example_db 1.
(** Input, then a worker and the queue for each of [n] commands. *)
Definition example_events (n : nat) : list event := EvRead :: concat (replicate n [EvWorker; EvQueue]).
Definition example_run (input : cstr) (n : nat) : option world := handle_all (example_events n) (example_start input).
