(* ===== verification/ImapFrame.v ===== *)
(** * What a computation leaves alone

    [keeps R m] says that every run of [m] relates the world before it to the world after it
    by [R]. The rules follow the structure of a computation; the tactic [keep] applies them
    and the lemmas of the hint data base [keeps] about the functions that are called. A
    relation that allows every operation of a command, apart from those that start a job, end
    one or log a user in, is an instance of [Frame]. *)
From S2P Require Import Prelude.
From S2P Require Import CLib.
From S2P Require Import GLib.
From S2P Require Import Tree.
From S2P Require Import ListT.
From S2P Require Import ClientBase.
From S2P Require Import ClientSession.
From S2P Require Import GListUtil.
From S2P Require Import MailboxState.
From S2P Require Import MiscText.
From S2P Require Import Acl.
From S2P Require Import Cidr.
From S2P Require Import Capa.
From S2P Require Import Auth.
From S2P Require Import ImapSession.

Create HintDb keeps discriminated.

(** ** The part of a connection that only the main thread works on *)
Definition io (c : ClientBase_T) : ClientBase_T :=
  c <| rev_on := false |> <| wev_on := false |> <| tv_sec := 0 |> <| fault := false |> <| rbuff_size := 0 |>.
Definition corked (c : ClientBase_T) : Prop := rev_on c = false /\ wev_on c = false.
Definition same_events (c c' : ClientBase_T) : Prop := rev_on c' = rev_on c /\ wev_on c' = wev_on c.
Definition uncorks (c c' : ClientBase_T) : Prop :=
  (rev_on c' = true -> rev_on c = true) /\ (wev_on c' = true -> wev_on c = true).

Section frame.
Context `{ImapDB}.

Definition keeps (R : relation world) {A} (m : IM A) : Prop := forall w, R w (m w).1.

(** The equations of a sequence of computations. *)
Lemma bind_eq {A B} (m : IM A) (k : A -> IM B) w : (m ≫= k) w = k (m w).2 (m w).1.
Proof. unfold mbind, IM_bind. by destruct (m w). Qed.
Lemma bind_self {A} (k : ImapSession -> IM A) w : (self ≫= k) w = k (session w) w.
Proof. done. Qed.

(** What identifies a session, and its cleanup counter. *)
Definition core (s : ImapSession) : ClientBase_T * Z * cstr * Z := (io (ci s), userid s, clientsock s, deferred s).

(** A change of the session that a frame allows. *)
Definition benign (f : ImapSession -> ImapSession) : Prop :=
  forall s, core (f s) = core s /\ state (f s) = state s /\ same_events (ci s) (ci (f s)).

Class Frame (R : relation world) := {
  frame_preorder :: PreOrder R;
  frame_session w f : benign f -> R w (w <| session ::= f |>);
  frame_db w d : R w (w <| wdb := d |>);
  frame_message w t :
    state (session w) < CLIENTSTATE_LOGOUT -> R w (w <| queue ::= fun l => l ++ [QMessage t] |>);
}.

(** ** Rules *)
Section rules.
Context (R : relation world) `{!PreOrder R}.

Lemma keeps_ret {A} (x : A) : keeps R (mret x).
Proof. intros w. reflexivity. Qed.
Lemma keeps_bind {A B} (m : IM A) (k : A -> IM B) : keeps R m -> (forall x, keeps R (k x)) -> keeps R (m ≫= k).
Proof.
  intros Hm Hk w. unfold mbind, IM_bind. specialize (Hm w). destruct (m w) as [w1 x]. simpl in Hm.
  etransitivity; [exact Hm|apply Hk].
Qed.
Lemma keeps_skip : keeps R skip.
Proof. apply keeps_ret. Qed.
Lemma keeps_when b m : (b = true -> keeps R m) -> keeps R (when b m).
Proof. destruct b; [auto|intros _; apply keeps_skip]. Qed.
Lemma keeps_for_each {A} (f : A -> IM unit) l : (forall x, keeps R (f x)) -> keeps R (for_each f l).
Proof. intros Hf. induction l as [|x l IH]; [apply keeps_skip|]. apply keeps_bind; [apply Hf|intros _; apply IH]. Qed.
Lemma keeps_self : keeps R self.
Proof. intros w. reflexivity. Qed.
Lemma keeps_database : keeps R database.
Proof. intros w. reflexivity. Qed.
End rules.

Section frame_rules.
Context (R : relation world) `{!Frame R}.
Lemma keeps_upd f : benign f -> keeps R (upd f).
Proof. intros Hf w. apply frame_session, Hf. Qed.
Lemma keeps_undefined : keeps R undefined.
Proof. apply keeps_upd. intros s. by repeat split. Qed.
Lemma keeps_run_db {A} (f : db -> db * A) : keeps R (run_db f).
Proof. intros w. unfold run_db. destruct (f (wdb w)). apply frame_db. Qed.
End frame_rules.
End frame.

#[export] Hint Resolve keeps_ret keeps_skip keeps_self keeps_database keeps_undefined keeps_run_db : keeps.

(** Proves that an update of fields is [benign]. *)
Ltac benign := intros ?; repeat split; solve [done | auto].

(** The steps of [keep] that follow the structure of a computation. *)
Ltac keep_step :=
  lazymatch goal with
  | |- keeps _ (let _ := _ in _) => cbv zeta
  | |- keeps _ (mbind _ _) => apply keeps_bind; [typeclasses eauto| |intros ?]
  | |- keeps _ (when _ _) => apply keeps_when; [typeclasses eauto|intros ?]
  | |- keeps _ (for_each _ _) => apply keeps_for_each; [typeclasses eauto|intros ?]
  | |- keeps _ (upd _) => first [apply keeps_upd; [typeclasses eauto|benign] | solve [auto with keeps]]
  | |- keeps _ (updci _) => first [apply keeps_upd; [typeclasses eauto|benign] | solve [auto with keeps]]
  | |- keeps _ (match ?x with _ => _ end) => destruct x
  | |- _ => solve [auto with keeps typeclass_instances]
  end.
(** A function without a lemma is unfolded. *)
Ltac keep_unfold :=
  lazymatch goal with |- keeps _ ?m => let rec go t := lazymatch t with ?f _ => go f | _ => unfold t end in go m end.
Ltac keep := repeat first [keep_step | progress keep_unfold].

Section session.
Context `{ImapDB} `{ServerConf} `{ImapConf}.
Context (R : relation world) `{!Frame R}.

Lemma keeps_arg_str i : keeps R (arg_str i).
Proof. unfold arg_str. keep. Qed.
Lemma keeps_set_arg i t : keeps R (set_arg i t).
Proof. unfold set_arg. keep. Qed.
Hint Resolve keeps_set_arg : keeps.
Lemma keeps_add_arg t : keeps R (add_arg t).
Proof. unfold add_arg. keep. Qed.
Lemma keeps_args_free : keeps R dbmail_imap_session_args_free.
Proof. unfold dbmail_imap_session_args_free. keep. Qed.
Lemma keeps_buff_clear : keeps R dbmail_imap_session_buff_clear.
Proof. unfold dbmail_imap_session_buff_clear. keep. Qed.
Lemma keeps_buff_flush : keeps R dbmail_imap_session_buff_flush.
Proof.
  intros w. unfold dbmail_imap_session_buff_flush, self, mbind, IM_bind.
  destruct (_ <=? _) eqn:L; [reflexivity|]. case_bool_decide; [reflexivity|].
  etransitivity; [apply (frame_session w (fun s => s <| buff := [] |>)); by intros s|].
  apply frame_message. simpl. bool_lia.
Qed.
Hint Resolve keeps_buff_flush : keeps.
Lemma keeps_buff_printf t : keeps R (buff_printf t).
Proof. unfold buff_printf. keep. Qed.
Hint Resolve keeps_buff_printf : keeps.
Lemma keeps_encrypted : keeps R dbmail_imap_session_encrypted.
Proof. unfold dbmail_imap_session_encrypted. keep. Qed.
Lemma keeps_set_command c : keeps R (dbmail_imap_session_set_command c).
Proof. unfold dbmail_imap_session_set_command. keep. Qed.
Lemma keeps_preauth_string : keeps R preauth_string.
Proof. unfold preauth_string. keep. Qed.
Hint Resolve keeps_preauth_string : keeps.
Lemma keeps_capa_string : keeps R capa_string.
Proof. unfold capa_string. keep. Qed.
Lemma keeps_prompt `{GLibBase64} t : keeps R (dbmail_imap_session_prompt t).
Proof. unfold dbmail_imap_session_prompt. keep. Qed.
Lemma keeps_cram_username a : keeps R (cram_username a).
Proof. unfold cram_username. keep. Qed.
Lemma keeps_withdraw_cram uid : keeps R (withdraw_cram uid).
Proof. unfold withdraw_cram. keep. Qed.
End session.

#[export] Hint Resolve keeps_arg_str keeps_set_arg keeps_add_arg keeps_args_free keeps_buff_clear keeps_buff_flush
  keeps_buff_printf keeps_encrypted keeps_set_command keeps_preauth_string keeps_capa_string keeps_prompt
  keeps_cram_username keeps_withdraw_cram : keeps.

(** ** Changes of state *)

(** The states a command leads to. *)
Definition command_states : list Z := [CLIENTSTATE_AUTHENTICATED; CLIENTSTATE_SELECTED].
Class StateFrame `{ImapDB} `{ServerConf} (R : relation world) := {
  state_frame :: Frame R;
  frame_set_state st : st ∈ command_states -> keeps R (dbmail_imap_session_set_state st);
}.
Lemma keeps_set_authenticated `{StateFrame} : keeps R (dbmail_imap_session_set_state CLIENTSTATE_AUTHENTICATED).
Proof. apply frame_set_state. left. Qed.
Lemma keeps_set_selected `{StateFrame} : keeps R (dbmail_imap_session_set_state CLIENTSTATE_SELECTED).
Proof. apply frame_set_state. right. left. Qed.
#[export] Hint Resolve keeps_set_authenticated keeps_set_selected : keeps.
