(* ===== verification/ImapTokenizerFacts.v ===== *)
(** * The IMAP tokenizer: what it makes of a command line

    A line that is written from a list of atoms, quoted strings and parentheses, in the way the
    protocol allows, is read back as that list; the arguments of a line fit the array; and a
    literal, read when all of it is there, becomes an argument with exactly its octets. *)
From S2P Require Import Prelude.
From S2P Require Import CLib.
From S2P Require Import GLib.
From S2P Require Import Tree.
From S2P Require Import DmString.
From S2P Require Import ListT.
From S2P Require Import ClientBase.
From S2P Require Import ClientFrame.
From S2P Require Import ClientSession.
From S2P Require Import GListUtil.
From S2P Require Import MailboxState.
From S2P Require Import MiscText.
From S2P Require Import Acl.
From S2P Require Import Cidr.
From S2P Require Import Capa.
From S2P Require Import Auth.
From S2P Require Import AuthExample.
From S2P Require Import ImapText.
From S2P Require Import ImapSession.
From S2P Require Import ImapTokenizer.
From S2P Require Import ImapMailbox.
From S2P Require Import ImapCommands.
From S2P Require Import ImapFolders.
From S2P Require Import ImapMessages.
From S2P Require Import ImapDispatch.
From S2P Require Import ImapServer.
From S2P Require Import ImapExample.
From S2P Require Import ImapFrame.

(** ** Writing a command line *)
Inductive token := Atom (t : cstr) | Quoted (t : cstr) | Paren (c : ascii).
Definition token_arg (t : token) : cstr := match t with Atom t | Quoted t => t | Paren c => [c] end.
Definition token_text (t : token) : cstr := match t with Atom t => t | Quoted t => DQUOTE :: t ++ [DQUOTE] | Paren c => [c] end.
(** Tokens with the number of spaces in front of each. *)
Definition render (l : list (nat * token)) : cstr := concat (map (fun x => replicate x.1 SP ++ token_text x.2) l).

Definition atom_ok (t : cstr) : bool :=
  negb (bool_decide (t = [])) && negb (bool_decide (head t = Some "{"%char)) &&
  forallb (fun c => negb (delimiter c) && negb (is_char c DQUOTE)) t.
(** A quote inside a string is escaped by a backslash, which also must not end the string. *)
Fixpoint quoted_ok (prev : option ascii) (t : cstr) : bool :=
  match t with
  | [] => negb (is_prev prev BACKSLASH)
  | c :: t => negb (is_char c DQUOTE && negb (is_prev prev BACKSLASH)) && quoted_ok (Some c) t
  end.
Definition token_ok (t : token) : bool :=
  match t with Atom t => atom_ok t | Quoted t => quoted_ok (Some DQUOTE) t | Paren c => in_set (lit "()[]") c end.
Definition is_atom (t : token) : bool := match t with Atom _ => true | _ => false end.
Definition is_paren (t : token) : bool := match t with Paren _ => true | _ => false end.
(** Behind an atom, another atom or a string needs a space. *)
Fixpoint line_ok (after_atom : bool) (l : list (nat * token)) : bool :=
  match l with
  | [] => true
  | (k, t) :: l => token_ok t && (negb after_atom || (0 <? k)%nat || is_paren t) && line_ok (is_atom t) l
  end.
(** The parentheses that are open at the end. *)
Fixpoint nesting (open : list bool) (l : list (nat * token)) : option (list bool) :=
  match l with
  | [] => Some open
  | (_, Paren c) :: l => open ← parenthesis c open; nesting open l
  | _ :: l => nesting open l
  end.

(** ** Lemmas *)
Lemma is_prev_spec p c : is_prev p c = true <-> p = Some c.
Proof. unfold is_prev. by rewrite bool_decide_eq_true. Qed.

Lemma tokens_spaces k fuel prev s room open :
  (0 < room)%nat ->
  tokens (k + fuel) prev (replicate k SP ++ s) room None open =
  tokens fuel (match k with O => prev | S _ => Some SP end) s room None open.
Proof.
  revert prev. induction k as [|k IH]; intros prev R; [done|]. destruct room as [|room]; [lia|].
  simpl. rewrite IH by lia. by destruct k.
Qed.

Definition plain_char (c : ascii) : bool := negb (delimiter c) && negb (is_char c DQUOTE).
Lemma plain_char_spec c : plain_char c = true -> delimiter c = false /\ is_char c DQUOTE = false.
Proof. unfold plain_char. intros A. apply andb_true_iff in A as [A1 A2]. by apply negb_true_iff in A1, A2. Qed.

Lemma atom_len_app prev t s :
  forallb plain_char t = true -> (s = [] \/ exists c s', s = c :: s' /\ delimiter c = true) ->
  atom_len prev (t ++ s) = length t.
Proof.
  intros A S. revert prev. induction t as [|c t IH]; intros prev.
  - destruct S as [->|(c & s' & -> & D)]; [done|]. simpl. by rewrite D.
  - simpl in A. apply andb_true_iff in A as [A1 A2]. apply plain_char_spec in A1 as [D Q].
    simpl. rewrite D, Q. simpl. by rewrite IH.
Qed.

(** The text of a string up to its closing quote. *)
Lemma tokens_in_quote f prev c s room q open :
  is_char c DQUOTE && negb (is_prev prev BACKSLASH) = false ->
  tokens (S f) prev (c :: s) (S room) (Some q) open = tokens f (Some c) s (S room) (Some (q ++ [c])) open.
Proof. intros E. cbn [tokens]. by rewrite E. Qed.
Lemma tokens_quoted t fuel prev q s room open :
  (0 < room)%nat -> quoted_ok prev t = true ->
  tokens (S (length t + fuel)) prev (t ++ DQUOTE :: s) room (Some q) open =
  let r := tokens fuel (Some DQUOTE) s (pred room) None open in ((q ++ t) :: r.1, r.2).
Proof.
  intros R. revert prev q. destruct room as [|room]; [lia|]. induction t as [|c t IH]; intros prev q A.
  - simpl in A. apply negb_true_iff in A. simpl. rewrite A. simpl. by rewrite app_nil_r.
  - simpl in A. apply andb_true_iff in A as [A1 A2]. apply negb_true_iff in A1. 
    rewrite (tokens_in_quote (length (c :: t) + fuel) prev c (t ++ DQUOTE :: s)) by done.
    change (length (c :: t) + fuel)%nat with (S (length t + fuel)). rewrite IH by done. simpl. by rewrite <- app_assoc.
Qed.

Lemma delimiter_paren c : in_set (lit "()[]") c = true -> delimiter c = true.
Proof. unfold delimiter, in_set. rewrite !bool_decide_eq_true. set_solver. Qed.
Lemma paren_not_quote c : in_set (lit "()[]") c = true -> is_char c DQUOTE = false.
Proof.
  unfold in_set, is_char. rewrite bool_decide_eq_true, bool_decide_eq_false. intros E ->.
  by apply (bool_decide_eq_true_2 _) in E.
Qed.
Lemma plain_not_special c : plain_char c = true -> in_set (lit "()[]") c = false /\ is_char c SP = false.
Proof.
  intros P. apply plain_char_spec in P as [D _]. unfold delimiter, in_set, is_char in *.
  rewrite bool_decide_eq_false in D. rewrite !bool_decide_eq_false. split; [|intros ->]; set_solver.
Qed.

(** The rest of a line behind an atom starts with a delimiter. *)
Lemma render_stop l : line_ok true l = true -> render l = [] \/ exists c s, render l = c :: s /\ delimiter c = true.
Proof.
  destruct l as [|[[|k] t] l]; simpl; intros O; [by left|..]; right.
  - apply andb_true_iff in O as [O _]. apply andb_true_iff in O as [O P]. destruct t as [| |c]; try done.
    exists c, (render l). split; [done|]. by apply delimiter_paren.
  - eexists _, _. split; [reflexivity|done].
Qed.

Lemma length_render_cons k t l : length (render ((k, t) :: l)) = (k + length (token_text t) + length (render l))%nat.
Proof. unfold render. simpl. rewrite !length_app, length_replicate. lia. Qed.

Lemma tokens_render l : forall fuel prev after room open open',
  line_ok after l = true -> (after = true \/ prev <> Some BACKSLASH) -> nesting open l = Some open' ->
  (length l < room)%nat -> (length (render l) <= fuel)%nat ->
  tokens fuel prev (render l) room None open = (map (fun x => token_arg x.2) l, TokEnd open').
Proof.
  induction l as [|[k t] l IH]; intros fuel prev after room open open' O P N R F.
  { simpl in N. injection N as ->. by destruct fuel. }
  rewrite length_render_cons in F. simpl in R. cbn [line_ok] in O.
  apply andb_true_iff in O as [O O3]. apply andb_true_iff in O as [O1 O2].
  change (render ((k, t) :: l)) with ((replicate k SP ++ token_text t) ++ render l). rewrite <- app_assoc.
  replace fuel with (k + (fuel - k))%nat by lia. rewrite tokens_spaces by lia.
  set (prev' := match k with O => prev | S _ => Some SP end).
  assert (is_atom t || is_paren t = false -> prev' <> Some BACKSLASH) as P'.
  { destruct k; subst prev'; [|done]. destruct P as [->|P]; [|done]. simpl in O2. by destruct t. }
  destruct (fuel - k)%nat as [|f] eqn:Ef.
  { destruct t as [t|t|c]; simpl in F; try lia. destruct t; [|simpl in F; lia]. done. }
  destruct room as [|room]; [lia|]. destruct t as [t|t|c].
  - (* an atom *)
    simpl in O1. unfold atom_ok in O1. apply andb_true_iff in O1 as [O1 Hp]. apply andb_true_iff in O1 as [Hn Hb].
    rewrite negb_true_iff, bool_decide_eq_false in Hn, Hb. destruct t as [|c t]; [done|]. simpl in F.
    pose proof (atom_len_app prev' (c :: t) (render l) Hp (render_stop l O3)) as L.
    assert (plain_char c = true) as Hc by (simpl in Hp; by apply andb_true_iff in Hp as [Hp _]).
    destruct (plain_char_spec c Hc) as [_ Q]. destruct (plain_not_special c Hc) as [S1 S2].
    cbn [token_text app tokens]. cbn [app] in L. rewrite Q, S1, S2, L. cbn [andb].
    assert (is_char c "{" = false) as -> by (unfold is_char; apply bool_decide_eq_false; intros ->; done).
    change (c :: t ++ render l) with ((c :: t) ++ render l). rewrite take_app_length, drop_app_length.
    rewrite (IH f _ true room open open'); [done|done|by left|exact N|lia|lia].
  - (* a quoted string *)
    simpl in O1, F. rewrite length_app in F. simpl in F. cbn [token_text app tokens].
    assert (is_prev prev' BACKSLASH = false) as ->.
    { apply not_true_iff_false. rewrite is_prev_spec. by apply P'. }
    change (is_char DQUOTE DQUOTE) with true. cbn [andb negb].
    replace f with (S (length t + (f - S (length t))))%nat by lia.
    rewrite <- app_assoc. cbn [app]. rewrite tokens_quoted by (lia || done). cbv zeta. cbn [pred app].
    rewrite (IH (f - S (length t))%nat _ false room open open'); [done|done|by right|exact N|lia|lia].
  - (* a parenthesis *)
    change (in_set (lit "()[]") c = true) in O1. simpl in F, N. cbn [token_text app tokens].
    rewrite (paren_not_quote c O1), O1. cbn [andb].
    destruct (parenthesis c open) as [open1|]; [|done]. simpl in N.
    rewrite (IH f _ false room open1 open'); [done|done|right|exact N|lia|lia].
    intros [= ->]. by vm_compute in O1.
Qed.

(** At most as many arguments as there is room for. *)
Lemma tokens_room fuel : forall prev s room quote open, (length (tokens fuel prev s room quote open).1 <= room)%nat.
Proof.
  induction fuel as [|fuel IH]; intros prev s room quote open; [simpl; lia|].
  destruct s as [|c s]; [simpl; lia|]. destruct room as [|room]; [simpl; lia|]. cbn [tokens].
  destruct (_ && _); [destruct quote; [cbn [fst length]; specialize (IH (Some c) s room None open); lia|apply IH]|].
  destruct quote; [apply IH|]. destruct (in_set _ c).
  - destruct (parenthesis c open); [|simpl; lia]. cbn [fst length]. specialize (IH (Some c) s room None l). lia.
  - destruct (is_char c SP); [apply IH|].
    destruct (if is_char c "{" then _ else _) as [[]|]; [simpl; lia|]. cbn [fst length].
    match goal with |- context [tokens fuel ?a ?b ?c ?d ?e] => specialize (IH a b c d e) end. lia.
Qed.

(** ** The arguments *)
Section arguments.
Context `{ImapDB} `{ServerConf} `{ImapConf} `{GLibStr} `{GLibBase64} `{Digests} `{AuthTables} `{SocketLib}.

Definition put_args (i : nat) (ts : list cstr) (s : ImapSession) : ImapSession :=
  s <| args ::= list_inserts i (Some <$> ts) |> <| args_idx := (i + length ts)%nat |>.
Abbreviation with_args w i ts := (w <| session ::= put_args i ts |>).
Lemma put_args_cons i t ts s : put_args (S i) ts (put_args i [t] s) = put_args i (t :: ts) s.
Proof.
  unfold put_args. cbn [fmap list_fmap length list_inserts]. unfold set_field. simpl.
  by rewrite list_insert_inserts_lt, Nat.add_succ_r by lia.
Qed.
Lemma put_args_nil i s : args_idx s = i -> put_args i [] s = s.
Proof. intros <-. unfold put_args. simpl. rewrite Nat.add_0_r. by destruct s. Qed.
Lemma session_upd w f : session (w <| session ::= f |>) = f (session w).
Proof. done. Qed.
Lemma world_eq w f g : f (session w) = g (session w) -> w <| session ::= f |> = w <| session ::= g |>.
Proof. unfold set_field; simpl. by intros ->. Qed.
Lemma world_session_id w f : f (session w) = session w -> w <| session ::= f |> = w.
Proof. destruct w as [s d q p x]. unfold set_field; simpl. by intros ->. Qed.

Lemma add_arg_eq t w i :
  args_idx (session w) = i -> (i < MAX_ARGS)%nat -> add_arg t w = (with_args w i [t], tt).
Proof.
  intros E L. unfold add_arg, self, set_arg, upd, mbind, IM_bind, when. rewrite E, bool_decide_eq_false_2 by lia. cbn [skip].
  f_equal. apply (world_eq w (fun s => s <| args ::= <[i := Some t]> |> <| args_idx ::= S |>)). unfold put_args, set_field. simpl.
  by rewrite E, Nat.add_1_r.
Qed.
Lemma add_args ts w i :
  args_idx (session w) = i -> (i + length ts <= MAX_ARGS)%nat ->
  for_each add_arg ts w = (with_args w i ts, tt).
Proof.
  revert w i. induction ts as [|t ts IH]; intros w i E L.
  - change (for_each add_arg [] w) with (w, tt). f_equal. symmetry. by apply world_session_id, put_args_nil.
  - simpl in L. cbn [for_each]. unfold mbind at 1, IM_bind at 1. rewrite (add_arg_eq t w i) by (done || lia).
    rewrite (IH _ (S i)) by (simpl; lia). f_equal. apply (world_eq w (fun s => put_args (S i) ts (put_args i [t] s))), put_args_cons.
Qed.

(** The array from the first argument of a line to the NULL behind the last. *)
Lemma args_from_inserts i ts l :
  (i + length ts < length l)%nat ->
  args_from (drop i (<[(i + length ts)%nat := None]> (list_inserts i (Some <$> ts) l))) = ts.
Proof.
  intros L. assert (drop i (<[(i + length ts)%nat := None]> (list_inserts i (Some <$> ts) l)) =
                    (Some <$> ts) ++ None :: drop (S (i + length ts)) l) as ->.
  { apply list_eq. intros j. rewrite lookup_drop. destruct (decide (j < length ts)%nat) as [J|J].
    - rewrite list_lookup_insert_ne by lia. rewrite list_lookup_inserts by (rewrite ?length_fmap; lia).
      rewrite lookup_app_l by (rewrite length_fmap; lia). by replace (i + j - i)%nat with j by lia.
    - rewrite lookup_app_r by (rewrite length_fmap; lia). rewrite length_fmap.
      destruct (decide (j = length ts)) as [->|J2].
      + rewrite Nat.sub_diag, list_lookup_insert_eq; [done|]. rewrite length_inserts. lia.
      + replace (j - length ts)%nat with (S (j - length ts - 1)) by lia. rewrite list_lookup_insert_ne by lia.
        rewrite list_lookup_inserts_ge by (rewrite length_fmap; lia).
        change ((None :: ?k) !! S ?n) with (k !! n). rewrite lookup_drop. f_equal. lia. }
  generalize (drop (S (i + length ts)) l). intros k. clear L. induction ts as [|t ts IH]; [done|]. exact (f_equal (cons t) IH).
Qed.
End arguments.

Section theorems.
Context `{ImapDB} `{ServerConf} `{ImapConf} `{GLibStr} `{GLibBase64} `{Digests} `{AuthTables} `{SocketLib}.

(** The arguments are one that names an authentication mechanism, which starts a dialogue. *)
Definition names_mechanism (l : list (option cstr)) : bool :=
  match l with
  | [Some t] => existsb (strcaseeq t) [lit "LOGIN"; lit "PLAIN"; lit "CRAM-MD5"]
  | _ => false
  end.
Lemma take_list_inserts {A} (l k : list A) i : (i + length k <= length l)%nat -> take (i + length k) (list_inserts i k l) = take i l ++ k.
Proof.
  intros L. apply list_eq. intros j. destruct (decide (j < i)%nat) as [Hi|Hi].
  - rewrite lookup_take_lt, list_lookup_inserts_lt, lookup_app_l, lookup_take_lt by (done || rewrite ?length_take; lia). done.
  - rewrite lookup_app_r, length_take by (rewrite length_take; lia). replace (j - i `min` length l)%nat with (j - i)%nat by lia.
    destruct (decide (j < i + length k)%nat) as [Hj|Hj].
    + rewrite lookup_take_lt, list_lookup_inserts by lia. done.
    + by rewrite lookup_take_ge, lookup_ge_None_2 by lia.
Qed.
Lemma finalize_eq w :
  names_mechanism (take (args_idx (session w)) (args (session w))) = false ->
  (args_idx (session w) < MAX_ARGS)%nat -> length (args (session w)) = MAX_ARGS ->
  finalize w = (w <| session ::= fun s => s <| args ::= <[args_idx s := None]> |> <| args_idx := 0%nat |> |>, 1).
Proof.
  intros N L A. unfold finalize, self, set_arg, upd, mbind, IM_bind, when, mret, IM_ret.
  assert (forall c name, (args_idx (session w) =? 1)%nat && (c && matches (arg_at (session w) 0) name) = true ->
    name ∈ [lit "LOGIN"; lit "PLAIN"; lit "CRAM-MD5"] -> False) as X.
  { intros c name [E%Nat.eqb_eq [_ M]%andb_true_iff]%andb_true_iff Hn. rewrite E in N.
    unfold matches, arg_at in M. destruct (args (session w)) as [|[t|] l]; [done| |done]. simpl in M.
    cbn [take] in N. unfold names_mechanism in N. apply not_true_iff_false in N. apply N, existsb_exists.
    exists name. split; [by apply list_elem_of_In|exact M]. }
  repeat match goal with |- context [if (?a =? 1)%nat && (?c && ?m) then _ else _] =>
    let E := fresh in destruct ((a =? 1)%nat && (c && m)) eqn:E; [destruct (X _ _ E); repeat (first [by left|right])|] end.
  by rewrite bool_decide_eq_false_2 by lia.
Qed.


(** ** Bounds *)

(** The arguments still fit the array, and no place outside of it was written. *)
Definition fits (w w' : world) : Prop :=
  length (args (session w)) = MAX_ARGS -> (args_idx (session w) < MAX_ARGS)%nat ->
  length (args (session w')) = MAX_ARGS /\ (args_idx (session w') < MAX_ARGS)%nat /\
  fault (ci (session w')) = fault (ci (session w)).
#[local] Instance fits_preorder : PreOrder fits.
Proof.
  split; [by intros w|]. intros w1 w2 w3 A B L I. destruct (A L I) as (L2 & I2 & F). destruct (B L2 I2) as (L3 & I3 & F3).
  split_and!; [done..|congruence].
Qed.
Lemma fits_upd f :
  (forall s, args (f s) = args s /\ args_idx (f s) = args_idx s /\ fault (ci (f s)) = fault (ci s)) -> keeps fits (upd f).
Proof. intros Hf w L I. destruct (Hf (session w)) as (A & B & C). simpl. by rewrite A, B. Qed.
Hint Extern 2 (keeps fits (upd _)) => (apply fits_upd; intros ?; repeat split) : keeps.
Hint Extern 2 (keeps fits (updci _)) => (apply fits_upd; intros ?; repeat split) : keeps.
Lemma fits_run_db {A} (f : db -> db * A) : keeps fits (run_db f).
Proof. intros w L I. unfold run_db. by destruct (f (wdb w)). Qed.
Lemma fits_push q : keeps fits (push q).
Proof. by intros w L I. Qed.
Hint Resolve fits_run_db fits_push : keeps.

Lemma fits_finalize : keeps fits finalize.
Proof.
  intros w L I. unfold finalize. rewrite (bind_self _ w).
  assert (forall n, keeps fits (dbmail_imap_session_prompt n;; mret 0)) as P by (intros n; keep).
  assert (keeps fits (challenge ← run_db generate_message_id;
    upd (fun s => s <| auth := Auth (mkcram challenge None []) |>);;
    buff_printf (lit "+ " ++ g_base64_encode challenge ++ crlf);; dbmail_imap_session_buff_flush;; mret 0)) as C by keep.
  destruct (_ && _); [by apply P|]. destruct (_ && _); [by apply P|]. destruct (_ && _); [by apply C|].
  unfold set_arg. rewrite bool_decide_eq_false_2 by lia. simpl. rewrite length_insert. unfold MAX_ARGS in *. split_and!; [done|lia|done].
Qed.
Lemma fits_announce octets sync : keeps fits (announce_literal octets sync).
Proof. keep. Qed.

(** Whatever a command line holds, the arguments it adds fit the array of 512, with room for
    the NULL behind the last, and nothing outside of the array is written. *)
Theorem imap_arguments_fit line w :
  length (args (session w)) = MAX_ARGS -> (args_idx (session w) < MAX_ARGS)%nat ->
  let w' := (tokenize_line line w).1 in
  length (args (session w')) = MAX_ARGS /\ (args_idx (session w') < MAX_ARGS)%nat /\
  fault (ci (session w')) = fault (ci (session w)).
Proof.
  intros L I. cut (fits w (tokenize_line line w).1); [intros F; by apply F|]. unfold tokenize_line. rewrite (bind_self _ w).
  pose proof (tokens_room (length line) None line (MAX_ARGS - 1 - args_idx (session w)) None []) as R.
  destruct (tokens _ _ _ _ _ _) as [ts e]. cbn [fst] in R. unfold mbind at 1, IM_bind at 1.
  rewrite (add_args ts w (args_idx (session w))) by (done || lia).
  set (w1 := w <| session ::= put_args (args_idx (session w)) ts |>).
  assert (fits w w1) as F.
  { intros _ _. unfold w1, set_field. simpl. rewrite length_inserts. split_and!; [done|lia|done]. }
  assert (forall m : IM Z, keeps fits m -> fits w (m w1).1) as K by (intros m Km; etransitivity; [exact F|apply Km]).
  pose proof fits_finalize. pose proof fits_announce.
  apply K. keep.
Qed.

(** ** Literals *)

Lemma literal_part_eq w bs :
  rbuff_size (ci (session w)) = strlen bs -> (args_idx (session w) < MAX_ARGS)%nat ->
  arg_at (session w) (args_idx (session w)) = None ->
  literal_part bs w =
    (w <| session ::= fun s => s <| args ::= <[args_idx s := Some bs]> |> <| ci ::= fun c => c <| rbuff_size := 0 |> |>
                               <| args_idx ::= S |> |>, 0).
Proof.
  intros R I A. unfold literal_part, self, set_arg, updci, upd, mbind, IM_bind, when, mret, IM_ret, skip.
  rewrite R, Z.ltb_irrefl, A, bool_decide_eq_false_2 by lia. simpl. rewrite R, Z.sub_diag. simpl.
  f_equal. unfold set_field. simpl. by rewrite R, Z.sub_diag.
Qed.

Lemma read_input_short w n :
  0 < rbuff_size (ci (session w)) -> n = Z.to_nat (rbuff_size (ci (session w))) ->
  (read_buffer_offset (ci (session w)) <= length (read_buffer (ci (session w))))%nat -> (length (unread (ci (session w))) < n)%nat ->
  read_input w = (w <| session ::= fun s => s <| ci ::= fun c => c <| len := 0 |> |> |>, (0%nat, [], [])).
Proof.
  intros P -> W L. rewrite length_unread in L. unfold read_input. rewrite (bind_self _ w), (proj2 (Z.leb_gt _ _)) by lia. rewrite bind_eq.
  unfold run_ci, ci_read. rewrite decide_False by (simpl; lia). done.
Qed.
Lemma literal_read w bs rest :
  unread (ci (session w)) = bs ++ rest -> (read_buffer_offset (ci (session w)) <= length (read_buffer (ci (session w))))%nat ->
  bs <> [] -> NUL ∉ bs -> rbuff_size (ci (session w)) = Z.of_nat (length bs) ->
  exists c, read_input w = (w <| session ::= fun s => s <| ci := c |> |>, (length bs, [], bs)) /\
    rbuff_size c = rbuff_size (ci (session w)) /\ unread c = rest.
Proof.
  intros U W N Z S. set (c := ci (session w)) in *.
  assert (length (unread c) = (length bs + length rest)%nat) as Lu by by rewrite U, length_app.
  rewrite length_unread in Lu. assert (length bs <> 0%nat) as N0 by by destruct bs.
  assert (exists c1, ci_read c (length bs) = (c1, Some bs) /\ rbuff_size c1 = rbuff_size c /\ unread c1 = rest) as (c1 & R & S1 & U1).
  { unfold ci_read. rewrite decide_True by (simpl; lia). eexists. split; [simpl|split].
    - change (drop (read_buffer_offset c) (read_buffer c)) with (unread c). rewrite U, take_app_length. reflexivity.
    - unfold client_rbuf_scale. by case_decide.
    - set (c0 := c <| len := 0 |> <| read_buffer_offset ::= _ |> <| len := _ |>).
      destruct (client_rbuf_scale_unread c0) as [E _]; [unfold read_wf, c0; simpl; lia|]. rewrite E. unfold unread, c0. simpl.
      rewrite <- drop_drop. change (drop (read_buffer_offset c) (read_buffer c)) with (unread c). by rewrite U, drop_app_length. }
  exists c1. split; [|by split]. unfold read_input. rewrite (bind_self _ w). fold c. rewrite S, (proj2 (Z.leb_gt _ _)) by lia. rewrite bind_eq.
  unfold run_ci. fold c. rewrite S, Nat2Z.id, R. simpl. by rewrite cstring_of_id.
Qed.

(** C21. A literal that was announced, however its octets arrive: as long as one of them is missing a
    read takes nothing from the input; when all of them are there, one read takes exactly these,
    the tokenizer stores them as the argument that was announced, octet for octet, the next
    argument follows, and the input behind the literal is read as lines again. (The literal holds
    no zero byte.) *)
Theorem imap_literal_received w n :
  let c := ci (session w) in
  0 < rbuff_size c -> n = Z.to_nat (rbuff_size c) -> (read_buffer_offset c <= length (read_buffer c))%nat ->
  NUL ∉ take n (unread c) ->
  (args_idx (session w) < MAX_ARGS)%nat -> length (args (session w)) = MAX_ARGS ->
  arg_at (session w) (args_idx (session w)) = None ->
  if bool_decide (length (unread c) < n)%nat then
    read_input w = (w <| session ::= fun s => s <| ci ::= fun c => c <| len := 0 |> |> |>, (0%nat, [], []))
  else
    exists w1 w2, read_input w = (w1, (n, [], take n (unread c))) /\ imap4_tokenizer_main (take n (unread c)) w1 = (w2, 0) /\
      arg_at (session w2) (args_idx (session w)) = Some (take n (unread c)) /\ args_idx (session w2) = S (args_idx (session w)) /\
      rbuff_size (ci (session w2)) = 0 /\ unread (ci (session w2)) = drop n (unread c).
Proof.
  intros c P En W Z I L A. case_bool_decide as Ln; [by apply (read_input_short w n)|].
  set (bs := take n (unread c)) in *. assert (length bs = n) as Lb by (unfold bs; rewrite length_take; lia).
  assert (rbuff_size c = Z.of_nat (length bs)) as S by lia. assert (bs <> []) as N by (intros E; rewrite E in Lb; simpl in Lb; lia).
  destruct (literal_read w bs (drop n (unread c))) as (c1 & R & S1 & U1); [by unfold bs; rewrite take_drop|done..|].
  clearbody bs. destruct bs as [|b bs']; [done|].
  exists (w <| session ::= fun s => s <| ci := c1 |> |>). eexists. split; [by rewrite <- Lb|split].
  - unfold imap4_tokenizer_main. rewrite bind_self.
    cbn [session ci set_field]. rewrite (proj2 (Z.eqb_neq (rbuff_size c1) 0)) by (unfold c in *; lia). cbn [negb].
    apply literal_part_eq; [simpl; unfold strlen, c in *; congruence|exact I|exact A].
  - rewrite !session_upd. revert I L. clear - S1 U1. generalize (session w). intros s I L. split; [|by split].
    unfold arg_at. change (args _) with (<[args_idx s := Some (b :: bs')]> (args s)). by rewrite list_lookup_insert_eq by lia.
Qed.
End theorems.

(** ** Examples *)
Definition example_line : list (nat * token) :=
  [(0%nat, Paren "("); (0%nat, Atom (lit "FLAGS")); (1%nat, Quoted (lit "a b")); (0%nat, Paren ")"); (2%nat, Quoted [])].

Lemma imap_arguments_fit_witness :
  let w' := (tokenize_line (lit "(FLAGS {12") (example_start [])).1 in
  length (args (session w')) = MAX_ARGS /\ (args_idx (session w') < MAX_ARGS)%nat /\
  fault (ci (session w')) = fault (ci (session (example_start []))).
Proof. apply imap_arguments_fit; [vm_compute; reflexivity|apply Nat.ltb_lt; vm_compute; reflexivity]. Defined.

(** A literal of five octets with a line break, and what follows it. *)
Definition example_literal : world :=
  (upd (fun s => s <| ci ::= fun c => c <| rbuff_size := 5 |> <| read_buffer := lit "ab" ++ crlf ++ lit "c" ++ lit " d" ++ crlf |> |>)
     (example_start [])).1.
Lemma imap_literal_received_witness :
  exists w1 w2, read_input example_literal = (w1, (5%nat, [], lit "ab" ++ crlf ++ lit "c")) /\
    arg_at (session w2) 0 = Some (lit "ab" ++ crlf ++ lit "c") /\ unread (ci (session w2)) = lit " d" ++ crlf.
Proof.
  pose proof (imap_literal_received example_literal 5 ltac:(vm_compute; reflexivity) ltac:(vm_compute; reflexivity)
    ltac:(apply Nat.leb_le; vm_compute; reflexivity) ltac:(apply (bool_decide_unpack _); vm_compute; exact I)
    ltac:(apply Nat.ltb_lt; vm_compute; reflexivity) ltac:(vm_compute; reflexivity) ltac:(vm_compute; reflexivity)) as T.
  assert (unread (ci (session example_literal)) = (lit "ab" ++ crlf ++ lit "c") ++ lit " d" ++ crlf) as U by (vm_compute; reflexivity).
  rewrite U in T. cbv zeta in T. rewrite bool_decide_eq_false_2 in T by (vm_compute; lia).
  destruct T as (w1 & w2 & R & _ & A & _ & _ & U2). exists w1, w2. split; [exact R|]. split; [|exact U2].
  replace (args_idx (session example_literal)) with 0%nat in A; [exact A|]. vm_compute; reflexivity.
Defined.
