(* ===== verification/ImapKeeps.v ===== *)
(** * Commands and frames

    Every job apart from AUTHENTICATE keeps a frame that allows the changes of state of the
    commands; the tokenizer, the unsolicited responses and the jobs of any state keep every
    frame. *)
From S2P Require Import Prelude.
From S2P Require Import CLib.
From S2P Require Import GLib.
From S2P Require Import Tree.
From S2P Require Import ListT.
From S2P Require Import ClientBase.
From S2P Require Import ClientSession.
From S2P Require Import GListUtil.
From S2P Require Import MailboxState.
From S2P Require Import MiscText.
From S2P Require Import Acl.
From S2P Require Import Cidr.
From S2P Require Import Capa.
From S2P Require Import Auth.
From S2P Require Import ImapText.
From S2P Require Import ImapSession.
From S2P Require Import ImapTokenizer.
From S2P Require Import ImapMailbox.
From S2P Require Import ImapCommands.
From S2P Require Import ImapFolders.
From S2P Require Import Mime.
From S2P Require Import ImapFetch.
From S2P Require Import ImapMessages.
From S2P Require Import ImapDispatch.
From S2P Require Import ImapFrame.

(** ** Mailboxes and tokenizer *)
Section frame.
Context `{ImapDB} `{GLibStr} `{ServerConf} `{ImapConf} `{GLibBase64} `{Digests} `{AuthTables} `{SocketLib}.
Context (R : relation world) `{!Frame R}.

Lemma keeps_on_state {A} p (f : MailboxDB -> MailboxState_T -> MailboxState_T * A) : keeps R (on_state p f).
Proof. unfold on_state. keep. Qed.
Lemma keeps_upd_mailbox f : keeps R (upd_mailbox f).
Proof. unfold upd_mailbox. keep. Qed.
Hint Resolve keeps_on_state keeps_upd_mailbox : keeps.
Lemma keeps_lookup id : keeps R (dbmail_imap_session_mbxinfo_lookup id).
Proof. keep. Qed.
Lemma keeps_get_set set by_uid : keeps R (dbmail_mailbox_get_set set by_uid).
Proof. keep. Qed.
Lemma keeps_notify_fetch_all N uids : keeps R (notify_fetch_all N uids).
Proof. revert N. induction uids; intros N; simpl; keep. Qed.
Hint Resolve keeps_lookup keeps_get_set keeps_notify_fetch_all : keeps.
Lemma keeps_status update : keeps R (dbmail_imap_session_mailbox_status update).
Proof. keep. Qed.
Lemma keeps_expunge set : keeps R (dbmail_imap_session_mailbox_expunge set).
Proof. keep. Qed.
Lemma keeps_tokenizer_main buffer : keeps R (imap4_tokenizer_main buffer).
Proof. keep. Qed.
End frame.
#[export] Hint Resolve keeps_on_state keeps_upd_mailbox keeps_lookup keeps_get_set keeps_status keeps_expunge
  keeps_tokenizer_main : keeps.

(** ** Commands *)
Section commands.
Context `{ImapDB} `{!ImapStore} `{!ImapSearch} `{!FetchDB} `{GMimeLib} `{GLibStr} `{ServerConf} `{ImapConf} `{GLibBase64} `{Digests}
  `{AuthTables} `{SocketLib} `{AuthNames}.

Section any_state.
Context (R : relation world) `{!Frame R}.
Lemma keeps_check minargs maxargs required : keeps R (check_state_and_args minargs maxargs required).
Proof. keep. Qed.
Lemma keeps_fetch_updates p uids : keeps R (fetch_updates p uids).
Proof. induction uids; simpl; keep. Qed.
Lemma keeps_list_loop pattern l a b : keeps R (list_loop pattern l a b).
Proof. revert a b. induction l; intros; simpl; keep. Qed.
Lemma keeps_status_items M l items : keeps R (status_items M l items).
Proof. revert items. induction l; intros; simpl; keep. Qed.
Lemma keeps_rename_children l name n : keeps R (rename_children l name n).
Proof. induction l; simpl; keep. Qed.
Lemma keeps_check_rights p l : keeps R (check_rights p l).
Proof. induction l; simpl; keep. Qed.
Lemma keeps_store_all p c uids : keeps R (store_all p c uids).
Proof. induction uids; simpl; keep. Qed.
Lemma keeps_new_keywords p kws update : keeps R (new_keywords p kws update).
Proof. revert update. induction kws; intros; simpl; keep. Qed.
Lemma keeps_copy_all p dest seq uids : keeps R (copy_all p dest seq uids).
Proof. induction uids; simpl; keep. Qed.

Lemma keeps_upd_items f : keeps R (upd_items f).
Proof. unfold upd_items, upd_fetch. keep. Qed.
Lemma keeps_upd_fetch f : keeps R (upd_fetch f).
Proof. unfold upd_fetch. keep. Qed.
Hint Resolve keeps_upd_items keeps_upd_fetch : keeps.
Lemma keeps_find_paren fuel : keeps R (find_paren fuel).
Proof. induction fuel; simpl; keep. Qed.
Hint Resolve keeps_find_paren : keeps.
Lemma keeps_parse_loop fuel : keeps R (fetch_parse_loop fuel).
Proof. induction fuel; simpl; keep. Qed.
Lemma keeps_send_pieces fuel t : keeps R (send_pieces fuel t).
Proof. revert t. induction fuel; intros t; simpl; keep. Qed.
Hint Resolve keeps_send_pieces : keeps.
Lemma keeps_send_part part b type : keeps R (_imap_send_part part b type).
Proof. keep. Qed.
Lemma keeps_fetch_headers k b : keeps R (_fetch_headers k b).
Proof. keep. Qed.
Hint Resolve keeps_send_part keeps_fetch_headers : keeps.
Lemma keeps_show_sections k l : keeps R (show_sections k l).
Proof. revert k. induction l; intros k; simpl; keep. Qed.
Hint Resolve keeps_show_sections : keeps.
Lemma keeps_get_items u : keeps R (_fetch_get_items u).
Proof. keep. Qed.
Hint Resolve keeps_get_items : keeps.
Lemma keeps_fetch_all uids : keeps R (fetch_all uids).
Proof. induction uids; simpl; keep. Qed.

(** The jobs that run in any state. *)
Definition any_state_job (j : job) : Prop := j = ic_capability \/ j = ic_noop \/ j = ic_id.
Lemma keeps_enter_any j : any_state_job j -> keeps R (enter j).
Proof. intros [->|[->| ->]]; simpl; keep. Qed.
End any_state.
#[local] Hint Resolve keeps_upd_items keeps_upd_fetch keeps_parse_loop keeps_fetch_all keeps_check keeps_fetch_updates keeps_list_loop keeps_status_items keeps_rename_children
  keeps_check_rights keeps_store_all keeps_new_keywords keeps_copy_all : keeps.

Lemma keeps_enter (R : relation world) `{!StateFrame R} j : j <> ic_authenticate -> keeps R (enter j).
Proof. assert (Frame R) by apply state_frame. destruct j; intros Hj; try done; simpl; keep. Qed.
End commands.
#[export] Hint Resolve keeps_check : keeps.
