(* ===== verification/ImapMoves.v ===== *)
(** * The relations of the server proofs

    [steady]: the session is in the same state, and nothing was done that only the main thread
    may do. [quiet]: the same for a job, which can change the state of the session as the
    commands do. [moved]: what the main thread does,
    up to the start of a job; [active]: the same by a computation after which the events of the
    socket are scheduled if they were before ([listens]); [rouses]: they are, whatever was before. *)
From S2P Require Import Prelude.
From S2P Require Import CLib.
From S2P Require Import GLib.
From S2P Require Import Tree.
From S2P Require Import DmString.
From S2P Require Import ListT.
From S2P Require Import ClientBase.
From S2P Require Import ClientFrame.
From S2P Require Import ClientSession.
From S2P Require Import GListUtil.
From S2P Require Import MailboxState.
From S2P Require Import MiscText.
From S2P Require Import Acl.
From S2P Require Import Cidr.
From S2P Require Import Capa.
From S2P Require Import Auth.
From S2P Require Import ImapText.
From S2P Require Import ImapSession.
From S2P Require Import ImapTokenizer.
From S2P Require Import ImapMailbox.
From S2P Require Import ImapCommands.
From S2P Require Import ImapFolders.
From S2P Require Import ImapMessages.
From S2P Require Import ImapDispatch.
From S2P Require Import ImapServer.
From S2P Require Import ImapFrame.
From S2P Require Import ImapKeeps.

Section moves.
Context `{ImapDB} `{ServerConf} `{ImapConf}.

(** The state of the session as a relation of two worlds. *)
Abbreviation st w := (state (session w)).

(** ** Jobs *)
Record moves (P : Z -> Z -> Prop) (w w' : world) : Prop := {
  m_pool : pool w' = pool w;
  m_deleted : deleted w' = deleted w;
  m_queue : exists ts, queue w' = queue w ++ (QMessage <$> ts);
  m_core : core (session w') = core (session w);
  m_events : uncorks (ci (session w)) (ci (session w'));
  m_state : P (st w) (st w');
}.
#[export] Instance moves_refl P : Reflexive P -> Reflexive (moves P).
Proof. intros HP w. split; try done. exists []. by rewrite app_nil_r. Qed.
#[export] Instance moves_trans P : Transitive P -> Transitive (moves P).
Proof.
  intros HP w1 w2 w3 [A1 A2 (ts & A3) A4 [A5 A5'] A6] [B1 B2 (us & B3) B4 [B5 B5'] B6]. split; try congruence.
  - exists (ts ++ us). by rewrite B3, A3, fmap_app, app_assoc.
  - split; auto.
  - by etransitivity.
Qed.
#[export] Instance moves_frame P : Reflexive P -> Transitive P -> Frame (moves P).
Proof.
  intros HR HT. split; [split; typeclasses eauto|..].
  - intros w f Hf. destruct (Hf (session w)) as (A & B & C1 & C2). split; simpl; try done.
    + exists []. by rewrite app_nil_r.
    + unfold uncorks. by rewrite C1, C2.
    + by rewrite B.
  - intros w d. split; simpl; try done. exists []. by rewrite app_nil_r.
  - intros w t _. split; simpl; try done. by exists [t].
Qed.

Definition steady : relation world := moves eq.
Definition command_move (a b : Z) : Prop := b = a \/ (a <> CLIENTSTATE_QUIT_QUEUED /\ b ∈ command_states).
#[export] Instance command_move_refl : Reflexive command_move.
Proof. by left. Qed.
#[export] Instance command_move_trans : Transitive command_move.
Proof. intros a b c [->|[A B]] [->|[C D]]; unfold command_move; auto. Qed.
Definition quiet : relation world := moves command_move.

Lemma set_state_eq s0 w :
  dbmail_imap_session_set_state s0 w =
    if (st w =? s0) || (st w =? CLIENTSTATE_QUIT_QUEUED) then (w, true)
    else (w <| session ::= fun s =>
            s <| ci ::= fun c =>
                   let c := if s0 =? CLIENTSTATE_ERROR then c <| wev_on := false |> else c in
                   let c := if (s0 =? CLIENTSTATE_ERROR) || (s0 =? CLIENTSTATE_LOGOUT) then c <| rev_on := false |> else c in
                   if s0 =? CLIENTSTATE_AUTHENTICATED then c <| tv_sec := Z.of_nat conf_timeout |> else c |>
              <| state := s0 |> |>, false).
Proof.
  unfold dbmail_imap_session_set_state, self, mbind, IM_bind. destruct (_ || _); [done|].
  unfold when, updci, upd, skip, mret, IM_ret. destruct w as [[] ? ? ? ?]; simpl.
  destruct (s0 =? CLIENTSTATE_ERROR), (s0 =? CLIENTSTATE_LOGOUT), (s0 =? CLIENTSTATE_AUTHENTICATED); done.
Qed.

#[export] Instance quiet_state_frame : StateFrame quiet.
Proof.
  split; [unfold quiet; typeclasses eauto|]. intros s0 Hs w. rewrite set_state_eq.
  destruct (_ || _) eqn:E; simpl; [apply moves_refl, command_move_refl|]. to_prop.
  split; simpl; try done.
  - exists []. by rewrite app_nil_r.
  - unfold core; simpl. destruct (s0 =? CLIENTSTATE_AUTHENTICATED); unfold command_states in Hs;
      repeat (apply elem_of_cons in Hs as [->|Hs]; [done|]); by apply elem_of_nil in Hs.
  - unfold command_states in Hs. repeat (apply elem_of_cons in Hs as [->|Hs]; [done|]); by apply elem_of_nil in Hs.
  - right. split; done.
Qed.

(** ** The main thread *)
Definition user_state (s : Z) : Prop := s = CLIENTSTATE_AUTHENTICATED \/ s = CLIENTSTATE_SELECTED.

Record moved (w w' : world) : Prop := {
  a_pool : pool w' = pool w;
  a_deleted : deleted w' = deleted w;
  a_id : userid (session w') = userid (session w) /\ clientsock (session w') = clientsock (session w) /\
         deferred (session w') = deferred (session w);
  a_quit : st w = CLIENTSTATE_QUIT_QUEUED -> st w' = CLIENTSTATE_QUIT_QUEUED /\ queue w' = queue w;
  a_queue : st w <> CLIENTSTATE_QUIT_QUEUED ->
    exists ts, queue w' = queue w ++ (QMessage <$> ts) ++
      (if decide (st w' = CLIENTSTATE_QUIT_QUEUED) then [QCleanup] else []);
  a_state : user_state (st w') -> user_state (st w);
  a_reads : shrinks (ci (session w)) (ci (session w'));
}.
#[export] Instance moved_refl : Reflexive moved.
Proof. intros w. split; try done. intros Hq. exists []. by rewrite decide_False, app_nil_r. Qed.
#[export] Instance moved_trans : Transitive moved.
Proof.
  intros w1 w2 w3 [A1 A2 (A3 & A4 & A5) A6 A7 A8 A9] [B1 B2 (B3 & B4 & B5) B6 B7 B8 B9].
  split; try congruence; try tauto.
  - split_and!; congruence.
  - intros Q. destruct (A6 Q) as [Q2 E2]. destruct (B6 Q2) as [Q3 E3]. split; congruence.
  - intros Q. destruct (A7 Q) as (ts & E). destruct (decide (st w2 = CLIENTSTATE_QUIT_QUEUED)) as [Q2|Q2].
    + destruct (B6 Q2) as [Q3 E3]. exists ts. by rewrite E3, decide_True.
    + destruct (B7 Q2) as (us & E3). exists (ts ++ us). by rewrite E3, E, !app_nil_r, fmap_app, <- !app_assoc.
  - by etransitivity.
Qed.

(** A change of the session alone. *)
Lemma moved_session w f :
  (forall s, core (f s) = (io (ci (f s)), userid s, clientsock s, deferred s)) ->
  (forall s, state (f s) = state s) -> (forall s, shrinks (ci s) (ci (f s))) -> moved w (w <| session ::= f |>).
Proof.
  intros C S R. specialize (C (session w)). specialize (S (session w)). unfold core in C.
  assert (userid (f (session w)) = userid (session w) /\ clientsock (f (session w)) = clientsock (session w) /\
          deferred (f (session w)) = deferred (session w)) as D by (injection C; auto).
  split; simpl; rewrite ?S; auto. intros Q. exists []. by rewrite decide_False, app_nil_r.
Qed.
#[export] Instance moved_frame : Frame moved.
Proof.
  split; [split; typeclasses eauto|..].
  - intros w f Hf. assert (forall s, io (ci (f s)) = io (ci s) /\ core (f s) = core s) as C.
    { intros s. destruct (Hf s) as (E & _ & _). split; [|done]. exact (f_equal (fun x => x.1.1.1) E). }
    apply moved_session.
    + intros s. destruct (C s) as [C1 C2]. rewrite C2. unfold core. by rewrite C1.
    + intros s. apply (Hf s).
    + intros s. destruct (C s) as [E _]. apply shrinks_same.
      * apply (f_equal read_buffer) in E. exact E.
      * apply (f_equal read_buffer_offset) in E. exact E.
  - intros w d. split; simpl; try done. intros Q. exists []. by rewrite decide_False, app_nil_r.
  - intros w t Q. split; simpl; try done.
    + intros Q'. rewrite Q' in Q. done.
    + intros Q'. exists [t]. by rewrite decide_False.
Qed.

(** A frame of the main thread. *)
Class MainFrame (R : relation world) := { main_frame :: Frame R; main_moved w w' : R w w' -> moved w w' }.
#[export] Instance moved_main : MainFrame moved.
Proof. split; [typeclasses eauto|done]. Qed.

Lemma moved_updci f : (forall c, shrinks c (f c)) -> keeps moved (updci f).
Proof. intros Hf w. apply moved_session; intros s; [done..|apply Hf]. Qed.
Lemma moved_run_ci {A} (f : ClientBase_T -> ClientBase_T * A) :
  (forall c, shrinks c (f c).1) -> keeps moved (run_ci f).
Proof.
  intros Hf w. unfold run_ci. specialize (Hf (ci (session w))). destruct (f (ci (session w))) as [c x]. simpl in *.
  split; simpl; try done. intros Q. exists []. by rewrite decide_False, app_nil_r.
Qed.
Lemma moved_set_state s0 :
  s0 <> CLIENTSTATE_QUIT_QUEUED -> ~ user_state s0 -> keeps moved (dbmail_imap_session_set_state s0).
Proof.
  intros N U w. rewrite set_state_eq. destruct (_ || _) eqn:E; [done|]. to_prop. split; simpl; try done.
  - intros Q. exists []. rewrite decide_False; [by rewrite app_nil_r|done].
  - apply shrinks_same; by destruct (s0 =? CLIENTSTATE_ERROR), (s0 =? CLIENTSTATE_LOGOUT), (s0 =? CLIENTSTATE_AUTHENTICATED).
Qed.
Lemma moved_bailout : keeps moved imap_session_bailout.
Proof.
  intros w. unfold imap_session_bailout, mbind, IM_bind. rewrite set_state_eq. destruct (_ || _) eqn:E; [done|].
  to_prop. split; simpl; try done.
  - intros _. by exists [].
  - by intros [U|U].
Qed.

(** ** What the main thread does for the end of a command

    The events of the connection that are scheduled stay scheduled, or the session ends. *)
Definition listens (w : world) : Prop :=
  st w = CLIENTSTATE_QUIT_QUEUED \/ attended (CLIENTSTATE_LOGOUT <= st w) (ci (session w)).
Record active (w w' : world) : Prop := { a_moved :> moved w w'; a_listens : listens w -> listens w' }.
#[export] Instance active_preorder : PreOrder active.
Proof.
  split; [by intros w; split|]. intros w1 w2 w3 [A1 A2] [B1 B2]. split; [by etransitivity|auto].
Qed.
#[export] Instance active_frame : Frame active.
Proof.
  split; [typeclasses eauto|..].
  - intros w f Hf. split; [by apply frame_session|]. destruct (Hf (session w)) as (C & S & R & W).
    unfold listens. simpl. rewrite S. intros [Q|A]; [by left|right]. revert A.
    assert (io (ci (f (session w))) = io (ci (session w))) as I by exact (f_equal (fun x => x.1.1.1) C).
    apply same_stays; [exact W|exact R|exact (f_equal client_state I)].
  - intros w d. split; [by apply frame_db|done].
  - intros w t Q. split; [by apply frame_message|done].
Qed.
#[export] Instance active_main : MainFrame active.
Proof. split; [typeclasses eauto|by intros w w' []]. Qed.
Lemma active_moved {A} (m : IM A) : keeps active m -> keeps moved m.
Proof. intros Hm w. apply Hm. Qed.

Lemma active_updci f : (forall c, shrinks c (f c)) -> (forall c, stays c (f c)) -> keeps active (updci f).
Proof.
  intros Hf Hs w. split; [by apply moved_updci|]. intros [Q|L]; [by left|right]. apply Hs, L.
Qed.
Lemma active_run_ci {A} (f : ClientBase_T -> ClientBase_T * A) :
  (forall c, shrinks c (f c).1) -> (forall c, stays c (f c).1) -> keeps active (run_ci f).
Proof.
  intros Hf Hs w. split; [by apply moved_run_ci|]. unfold run_ci. specialize (Hs (ci (session w))).
  destruct (f (ci (session w))) as [c x]. intros [Q|L]; [by left|right; by apply Hs].
Qed.
Lemma active_logout : keeps active (dbmail_imap_session_set_state CLIENTSTATE_LOGOUT).
Proof.
  intros w. split; [by apply moved_set_state; [done|intros [?|?]]|]. rewrite set_state_eq. destruct (_ || _) eqn:E; [done|].
  intros [Q|[A|[A B]]]; right; simpl; [|by left|right; simpl; split; [done|by right; right]].
  apply orb_false_iff in E as [_ E]. to_prop. by destruct (E Q).
Qed.
(** A computation that ends with the events scheduled. *)
Definition rouses {A} (m : IM A) : Prop := forall w, listens (m w).1.
Lemma rouses_bind {A B} (m : IM A) (k : A -> IM B) : (forall x, rouses (k x)) -> rouses (m ≫= k).
Proof. intros Hk w. rewrite bind_eq. apply Hk. Qed.
Lemma rouses_uncork {A} (f : ClientBase_T -> ClientBase_T) (x : A) : rouses (updci (fun c => ci_uncork (f c));; mret x).
Proof. intros w. rewrite bind_eq. right. apply uncork_attended. Qed.
Lemma active_rouses {A} (m : IM A) : keeps moved m -> rouses m -> keeps active m.
Proof. intros M R w. split; [apply M|intros _; apply R]. Qed.
Lemma rouses_bailout : rouses imap_session_bailout.
Proof.
  intros w. left. unfold imap_session_bailout. rewrite bind_eq, set_state_eq. destruct (_ || _) eqn:E; [|done].
  simpl. apply orb_true_iff in E as [E|E]; by to_prop.
Qed.
Lemma active_bailout : keeps active imap_session_bailout.
Proof. apply active_rouses; [apply moved_bailout|apply rouses_bailout]. Qed.
Lemma active_wrote {A} (f : ClientBase_T -> ClientBase_T * A) : (forall c, wrote c (f c).1) -> keeps active (run_ci f).
Proof. intros W. apply active_run_ci; intros c; [apply wrote_shrinks|apply wrote_stays]; apply W. Qed.
Lemma active_ci_print f a : keeps active (ci_print f a).
Proof. apply active_wrote. intros c. apply wrote_write. Qed.
Lemma active_flush_output : keeps active (run_ci (fun c => ci_write_msg c None)).
Proof. apply active_wrote. intros c. apply wrote_write_msg. Qed.
End moves.

#[export] Hint Resolve active_bailout active_ci_print active_flush_output : keeps.
#[export] Hint Resolve active_logout moved_bailout : keeps.
#[export] Hint Extern 2 (keeps moved (dbmail_imap_session_set_state _)) =>
  (apply moved_set_state; [done|by intros [?|?]]) : keeps.
#[export] Hint Extern 2 (keeps moved (updci _)) =>
  (apply moved_updci; intros ?;
    first [apply shrinks_same; reflexivity | etransitivity; [|apply shrinks_uncork]; apply shrinks_same; reflexivity]) : keeps.
#[export] Hint Extern 2 (keeps active (updci _)) =>
  (apply active_updci; intros ?;
    [first [apply shrinks_same; reflexivity | etransitivity; [|apply shrinks_uncork]; apply shrinks_same; reflexivity]
    |first [apply same_stays; reflexivity | intros ? _; apply uncork_attended]]) : keeps.
