(* ===== verification/ImapHandlers.v ===== *)
(** * What a command handler does

    A handler of the table starts one job as its last action and returns 0, and only in a
    state in which that job is allowed, or it starts none. *)
From S2P Require Import Prelude.
From S2P Require Import CLib.
From S2P Require Import GLib.
From S2P Require Import Tree.
From S2P Require Import DmString.
From S2P Require Import ListT.
From S2P Require Import ClientBase.
From S2P Require Import ClientFrame.
From S2P Require Import ClientSession.
From S2P Require Import GListUtil.
From S2P Require Import MailboxState.
From S2P Require Import MiscText.
From S2P Require Import Acl.
From S2P Require Import Cidr.
From S2P Require Import Capa.
From S2P Require Import Auth.
From S2P Require Import ImapText.
From S2P Require Import ImapSession.
From S2P Require Import ImapTokenizer.
From S2P Require Import ImapMailbox.
From S2P Require Import ImapCommands.
From S2P Require Import ImapFolders.
From S2P Require Import Mime.
From S2P Require Import ImapFetch.
From S2P Require Import ImapMessages.
From S2P Require Import ImapDispatch.
From S2P Require Import ImapServer.
From S2P Require Import ImapFrame.
From S2P Require Import ImapKeeps.
From S2P Require Import ImapMoves.

Section handlers.
Context `{ImapDB} `{!ImapStore} `{!ImapSearch} `{!FetchDB} `{GMimeLib} `{GLibStr} `{ServerConf} `{ImapConf} `{GLibBase64} `{Digests}
  `{AuthTables} `{SocketLib} `{AuthNames}.

Definition job_allowed (j : job) (s : Z) : Prop :=
  any_state_job j \/ (j = ic_authenticate /\ s = CLIENTSTATE_NON_AUTHENTICATED) \/ (j <> ic_authenticate /\ user_state s).

(** The job [j] was put into the pool. *)
Record started (j : job) (w w' : world) : Prop := {
  s_pool : pool w = None;
  s_state : state (session w) <> CLIENTSTATE_QUIT_QUEUED;
  s_allowed : job_allowed j (state (session w));
  s_world : w' = w <| session ::= fun s => s <| ci ::= ci_cork |> <| command_state := FALSE |> |> <| pool := Some j |>;
}.
Definition begins (w w' : world) : Prop := exists j w1, active w w1 /\ started j w1 w'.

(** From a state of [S] the computation starts nothing, or starts a job and returns 0. *)
Definition outcome (S : Z -> Prop) (m : IM Z) : Prop :=
  forall w, pool w = None -> S (state (session w)) -> active w (m w).1 \/ ((m w).2 = 0 /\ begins w (m w).1).

Lemma outcome_active S m : keeps active m -> outcome S m.
Proof. intros Hm w _ _. left. apply Hm. Qed.

(** What every frame allows does not change the state. *)
Lemma outcome_frame {A} S (m : IM A) (k : A -> IM Z) :
  (forall R, Frame R -> keeps R m) -> (forall x, outcome S (k x)) -> outcome S (m ≫= k).
Proof.
  intros Hm Hk w P HS. unfold mbind, IM_bind.
  pose proof (Hm steady _ w) as [A1 _ _ _ _ A2]. pose proof (Hm active _ w) as A3.
  destruct (m w) as [w1 x]. simpl in *. destruct (Hk x w1) as [B|[E (j & w2 & B & C)]].
  - congruence.
  - by rewrite <- A2.
  - left. by etransitivity.
  - right. split; [done|]. exists j, w2. split; [by etransitivity|done].
Qed.
(** What the main thread may do besides leads to a state that is not known. *)
Lemma outcome_bind {A} S (m : IM A) (k : A -> IM Z) :
  keeps active m -> (forall x, outcome (fun _ => True) (k x)) -> outcome S (m ≫= k).
Proof.
  intros Hm Hk w P _. unfold mbind, IM_bind. pose proof (Hm w) as Am. destruct (m w) as [w1 x]. simpl in *.
  destruct (Hk x w1) as [B|[E (j & w2 & B & C)]]; [by rewrite (a_pool _ _ Am)|done| |].
  - left. by etransitivity.
  - right. split; [done|]. exists j, w2. split; [by etransitivity|done].
Qed.
Lemma outcome_weaken (S T : Z -> Prop) m : (forall s, S s -> T s) -> outcome T m -> outcome S m.
Proof. intros HST Hm w P HS. apply Hm; auto. Qed.

(** The check of the state. *)
Lemma check_state_true minargs maxargs required w :
  (check_state_and_args minargs maxargs required w).2 = true ->
  (check_state_and_args minargs maxargs required w).1 = w /\ state_allowed required (state (session w)) = true.
Proof.
  unfold check_state_and_args, self, mbind, IM_bind. destruct (_ =? _); [done|].
  destruct (state_allowed _ _); [|simpl; by destruct (BAD _ _)]. simpl.
  case_bool_decide; [by destruct (BAD _ _)|]. case_bool_decide; [by destruct (BAD _ _)|done].
Qed.
Lemma outcome_checked S minargs maxargs required k :
  outcome (fun s => state_allowed required s = true) k -> outcome S (checked minargs maxargs required k).
Proof.
  intros Hk w P _. unfold checked, mbind, IM_bind.
  pose proof (check_state_true minargs maxargs required w) as T.
  pose proof (keeps_check active minargs maxargs required w) as A.
  destruct (check_state_and_args minargs maxargs required w) as [w1 [|]]; simpl in *; [|by left].
  destruct T as [-> T]; [done|]. by apply Hk.
Qed.

Lemma outcome_start (S : Z -> Prop) j : (forall s, S s -> job_allowed j s) -> outcome S (start j).
Proof.
  intros HS w P Hs. unfold start, dm_thread_data_push, updci, upd, self, pool_push, mbind, IM_bind, skip, mret, IM_ret.
  simpl. destruct (_ =? _) eqn:E; to_prop; simpl.
  - left. split; [apply moved_session; try done; intros s; by apply shrinks_same|]. intros _. by left.
  - rewrite P. simpl. right. split; [done|]. exists j, w. split; [done|]. split; auto.
Qed.

Lemma selected_user s : state_allowed CLIENTSTATE_SELECTED s = true -> user_state s.
Proof. unfold state_allowed. simpl. rewrite orb_false_r. intros E. right. by to_prop. Qed.
Lemma authenticated_user s : state_allowed CLIENTSTATE_AUTHENTICATED s = true -> user_state s.
Proof. unfold state_allowed. simpl. intros E. apply orb_true_iff in E as [E|E]; to_prop; [by left|by right]. Qed.
Lemma not_authenticated s : state_allowed CLIENTSTATE_NON_AUTHENTICATED s = true -> s = CLIENTSTATE_NON_AUTHENTICATED.
Proof. unfold state_allowed. simpl. rewrite orb_false_r. intros E. by to_prop. Qed.
Hint Resolve selected_user authenticated_user not_authenticated : core.
End handlers.

#[export] Hint Resolve selected_user authenticated_user not_authenticated : keeps.

(** The steps along a handler. *)
Ltac job_allowed :=
  intros ? ?; first [left; unfold any_state_job; tauto
    | right; left; split; [reflexivity|auto with keeps] | right; right; split; [discriminate|auto with keeps]].
Ltac handler_step :=
  lazymatch goal with
  | |- outcome _ (let _ := _ in _) => cbv zeta
  | |- outcome _ (checked _ _ _ _) => apply outcome_checked
  | |- outcome _ (start _) => apply outcome_start; job_allowed
  | |- outcome _ (mbind _ _) =>
      first [ apply outcome_frame; [intros ? ?; solve [keep]|intros ?] | apply outcome_bind; [solve [keep]|intros ?] ]
  | |- outcome _ (match ?x with _ => _ end) => destruct x
  | |- outcome _ (mret _) => apply outcome_active; keep
  | |- outcome _ ?m => let rec go t := lazymatch t with ?f _ => go f | _ => unfold t end in go m
  end.
Ltac handler := repeat handler_step.

Section table.
Context `{ImapDB} `{!ImapStore} `{!ImapSearch} `{!FetchDB} `{GMimeLib} `{GLibStr} `{ServerConf} `{ImapConf} `{GLibBase64} `{Digests}
  `{AuthTables} `{SocketLib} `{AuthNames}.

Lemma active_run_starttls : keeps active (run_ci ci_starttls).
Proof. apply active_wrote, wrote_starttls. Qed.
Hint Resolve active_run_starttls : keeps.

(** The commands behind UID are handlers too. *)
Lemma outcome_uid_command c x : list_find (fun x => strcaseeq c x.1 = true) uid_commands = Some x -> outcome (fun _ => True) x.2.2.
Proof.
  destruct x as [i y]. intros E. apply list_find_Some in E as (E & _). apply list_elem_of_lookup_2, list_elem_of_In in E.
  unfold uid_commands in E. simpl in E. repeat (destruct E as [<-|E]; [simpl; solve [handler]|]). done.
Qed.
Lemma outcome_uid : outcome (fun _ => True) _ic_uid.
Proof.
  unfold _ic_uid. apply outcome_frame; [intros ? ?; keep|intros s]. destruct (negb _); [handler|].
  destruct (arg_at s 0); [|handler]. destruct (arg_at s (args_idx s)) as [c|]; [|handler].
  apply outcome_frame; [intros ? ?; keep|intros _].
  destruct (list_find _ _) as [[i [n f]]|] eqn:E; simpl; [|handler].
  do 2 (apply outcome_frame; [intros ? ?; keep|intros _]). exact (outcome_uid_command c _ E).
Qed.

Lemma outcome_idle S : outcome S _ic_idle.
Proof.
  apply outcome_checked, outcome_active, active_rouses; [keep|]. do 5 (apply rouses_bind; intros _). apply rouses_uncork.
Qed.

Lemma outcome_commands m : In m imap_handler_functions -> outcome (fun _ => True) m.
Proof.
  unfold imap_handler_functions. simpl. intros Hm.
  repeat (destruct Hm as [<-|Hm]; [first [exact outcome_uid|apply outcome_idle|solve [handler]]|]). done.
Qed.
Lemma outcome_handler j : outcome (fun _ => True) (handler j).
Proof.
  unfold handler. destruct (imap_handler_functions !! j) as [m|] eqn:E; [|handler].
  apply outcome_commands, list_elem_of_In. by eapply list_elem_of_lookup_2.
Qed.
End table.
