(* ===== verification/ImapInvariant.v ===== *)
(** * The invariant of an IMAP connection

    Between two events a connection is [Free] (no command is in progress), [Busy] with a job,
    [Done] with one whose result waits in the queue, or [Dead]. Every event preserves this, so
    that a command is never started while another is in progress, nothing is done with a
    session after it was deleted, and a session acts for a user only if [auth_validate] has
    accepted him. *)
From S2P Require Import Prelude.
From S2P Require Import CLib.
From S2P Require Import GLib.
From S2P Require Import Tree.
From S2P Require Import DmString.
From S2P Require Import ListT.
From S2P Require Import ClientBase.
From S2P Require Import ClientFrame.
From S2P Require Import ClientSession.
From S2P Require Import GListUtil.
From S2P Require Import MailboxState.
From S2P Require Import MiscText.
From S2P Require Import Acl.
From S2P Require Import Cidr.
From S2P Require Import Capa.
From S2P Require Import Auth.
From S2P Require Import ImapText.
From S2P Require Import ImapSession.
From S2P Require Import ImapTokenizer.
From S2P Require Import ImapMailbox.
From S2P Require Import ImapCommands.
From S2P Require Import ImapFolders.
From S2P Require Import Mime.
From S2P Require Import ImapFetch.
From S2P Require Import ImapMessages.
From S2P Require Import ImapDispatch.
From S2P Require Import ImapServer.
From S2P Require Import ImapFrame.
From S2P Require Import ImapKeeps.
From S2P Require Import ImapMoves.
From S2P Require Import ImapHandlers.

Section invariant.
Context `{ImapDB} `{!ImapStore} `{!ImapSearch} `{!FetchDB} `{GMimeLib} `{GLibStr} `{ServerConf} `{ImapConf} `{GLibBase64} `{Digests}
  `{AuthTables} `{SocketLib} `{AuthNames}.
Abbreviation st w := (state (session w)).
Abbreviation conn w := (ci (session w)).

(** [auth_validate] has accepted the user of the session on this connection. *)
Definition granted (s : ImapSession) : Prop :=
  exists cram u p v, auth_validate cram (clientsock s) u p = Some v /\ valid v = 1 /\ user_idnr v = userid s.
Definition user_ok (w : world) : Prop := user_state (st w) -> granted (session w).
Definition quit (w : world) : Prop := st w = CLIENTSTATE_QUIT_QUEUED.
#[export] Instance quit_dec w : Decision (quit w).
Proof. unfold quit. apply _. Defined.

Record Free (w : world) : Prop := {
  f_pool : pool w = None;
  f_deleted : deleted w = false;
  f_count : 0 <= deferred (session w);
  f_user : user_ok w;
  f_queue : exists ts, queue w = (QMessage <$> ts) ++ (if decide (quit w) then [QCleanup] else []);
}.
Record Busy (j : job) (w : world) : Prop := {
  b_pool : pool w = Some j;
  b_deleted : deleted w = false;
  b_count : 0 <= deferred (session w);
  b_user : user_ok w;
  b_queue : exists ts, queue w = QMessage <$> ts;
  b_state : ~ quit w;
  b_cork : corked (conn w);
  b_allowed : job_allowed j (st w);
}.
Record Done (w : world) : Prop := {
  d_pool : pool w = None;
  d_deleted : deleted w = false;
  d_count : 0 <= deferred (session w);
  d_user : user_ok w;
  d_queue : exists ts r, queue w = (QMessage <$> ts) ++ [QLeave r];
  d_state : ~ quit w;
  d_cork : corked (conn w);
}.
Record Dead (w : world) : Prop := {
  x_deleted : deleted w = true;
  x_pool : pool w = None;
  x_queue : queue w = [];
  x_state : quit w;
  x_cork : corked (conn w);
}.
Definition Running (w : world) : Prop := Free w \/ exists j, Busy j w.
Definition Inv (w : world) : Prop := Running w \/ Done w \/ Dead w.

(** ** Callbacks *)
Lemma granted_same s s' : userid s' = userid s -> clientsock s' = clientsock s -> granted s -> granted s'.
Proof. unfold granted. by intros -> ->. Qed.

Lemma Free_moved w w' : Free w -> moved w w' -> Free w'.
Proof.
  intros [F1 F2 F3 F4 (ts & F5)] [A1 A2 (A3 & A4 & A5) A6 A7 A8 _]. split; try congruence.
  - intros U. eapply granted_same; eauto.
  - unfold quit in *. destruct (decide (st w = CLIENTSTATE_QUIT_QUEUED)) as [Q|Q].
    + destruct (A6 Q) as [Q' ->]. exists ts. by rewrite (decide_True _ _ Q').
    + destruct (A7 Q) as (us & E). exists (ts ++ us). rewrite E, F5, app_nil_r, fmap_app, <- app_assoc. done.
Qed.

(** A job is started, and more than nothing was read before. *)
Definition begun (w w' : world) : Prop :=
  exists j w1, moved w w1 /\ started j w1 w' /\ (length (unread (conn w1)) < length (unread (conn w)))%nat.

Lemma started_Busy j w w' : Free w -> started j w w' -> Busy j w'.
Proof.
  intros [_ F2 F3 F4 (ts & F5)] [S1 S2 S3 ->]. rewrite decide_False, app_nil_r in F5 by exact S2.
  split; simpl; try done. by exists ts.
Qed.
Lemma begun_Busy w w' : Free w -> begun w w' -> exists j, Busy j w'.
Proof. intros F (j & w1 & A & S & _). exists j. eapply started_Busy; [by eapply Free_moved|exact S]. Qed.
Lemma begun_after w1 w2 w3 : moved w1 w2 -> begun w2 w3 -> begun w1 w3.
Proof.
  intros A (j & w & B & S & L). exists j, w. split; [by etransitivity|]. split; [done|].
  pose proof (a_reads _ _ A) as R. unfold shrinks in R. lia.
Qed.

(** A callback does what the main thread may do, and may start a job as its last action. *)
Definition callback (R : relation world) {A} (m : IM A) : Prop :=
  forall w, pool w = None -> R w (m w).1 \/ begun w (m w).1.

Section callbacks.
Context (R : relation world) `{!MainFrame R}.
Lemma callback_keeps {A} (m : IM A) : keeps R m -> callback R m.
Proof. intros Hm w _. left. apply Hm. Qed.
Lemma callback_bind {A B} (m : IM A) (k : A -> IM B) : keeps R m -> (forall x, callback R (k x)) -> callback R (m ≫= k).
Proof.
  intros Hm Hk w P. unfold mbind, IM_bind. pose proof (Hm w) as Am. destruct (m w) as [w1 x]. simpl in *.
  pose proof (main_moved _ _ Am) as Mm.
  destruct (Hk x w1) as [B1|B1]; [by rewrite (a_pool _ _ Mm)|left; by etransitivity|right; by eapply begun_after].
Qed.
Lemma callback_then {A B} (m : IM A) (k : A -> IM B) : callback R m -> (forall x, keeps eq (k x)) -> callback R (m ≫= k).
Proof.
  intros Hm Hk w P. rewrite bind_eq. pose proof (Hk (m w).2 (m w).1) as E. simpl in E. rewrite <- E. by apply Hm.
Qed.
Lemma callback_when b m : callback R m -> callback R (when b m).
Proof. intros Hm. destruct b; [exact Hm|]. apply callback_keeps. simpl. keep. Qed.

Lemma callback_run {A} (m : IM A) w : callback R m -> Free w -> Running (m w).1.
Proof.
  intros C F. destruct (C w (f_pool _ F)) as [X|B].
  - left. eapply Free_moved; [exact F|]. by apply main_moved.
  - right; by eapply begun_Busy.
Qed.
End callbacks.
Lemma callback_moved {A} (m : IM A) : callback active m -> callback moved m.
Proof. intros C w P. destruct (C w P) as [X|X]; [left; apply X|by right]. Qed.

(** ** The input loop *)
Lemma keeps_reset : keeps active imap_session_reset.
Proof. keep. Qed.
Hint Resolve keeps_reset : keeps.
Lemma keeps_abort : keeps active imap_handle_abort.
Proof.
  intros w. split.
  - cut (keeps moved imap_handle_abort); [intros K; apply K|].
    unfold imap_handle_abort. assert (keeps moved imap_session_reset) by apply active_moved, keeps_reset. keep.
  - unfold imap_handle_abort. rewrite bind_eq, set_state_eq. destruct (_ || _); [done|]. intros _.
    apply rouses_bind. intros _. apply rouses_bailout.
Qed.
Hint Resolve keeps_abort : keeps.
Lemma keeps_printf t : keeps active (imap_session_printf t).
Proof. unfold imap_session_printf. change (run_ci (fun c => ci_write c t [])) with (ci_print t []). keep. Qed.
Hint Resolve keeps_printf : keeps.
Lemma keeps_tokenizer b : keeps active (imap4_tokenizer b).
Proof. unfold imap4_tokenizer. keep. Qed.
Hint Resolve keeps_tokenizer : keeps.

Lemma keeps_fin m : keeps active m -> keeps active (fin m).
Proof. intros K. unfold fin. keep. Qed.
Hint Resolve keeps_fin : keeps.
Lemma keeps_retry : keeps active imap_handle_retry.
Proof. keep. Qed.
Lemma keeps_done : keeps active imap_handle_done.
Proof. keep. Qed.
Hint Resolve keeps_retry keeps_done : keeps.

Lemma callback_exit input status : callback active input -> callback active (imap_handle_exit input status).
Proof.
  intros Hi. unfold imap_handle_exit.
  destruct (_ =? -1); [apply callback_keeps; keep|].
  destruct (_ =? 0); [|repeat (case_match; [apply callback_keeps; keep|]); apply callback_keeps; keep].
  assert (callback active (s ← self; if bool_decide (read_buffer (ci s) = []) then mret Ended else input)) as P.
  { apply callback_bind; [typeclasses eauto|keep|intros s]. case_bool_decide; [apply callback_keeps; keep|exact Hi]. }
  unfold imap_handle_continue. apply callback_bind; [typeclasses eauto|keep|intros s].
  assert (callback active (s ← self;
    when (bool_decide (write_buffer_offset (ci s) < length (default [] (write_buffer (ci s))))%nat)
      (_ ← run_ci (fun c => ci_write_msg c None); skip);;
    when (command_state s =? TRUE) imap_session_reset;;
    s ← self; if bool_decide (read_buffer (ci s) = []) then mret Ended else input)) as W.
  { apply callback_bind; [typeclasses eauto|keep|intros z]. do 2 (apply callback_bind; [typeclasses eauto|keep|intros _]). exact P. }
  destruct (_ <? _).
  - case_bool_decide; [exact W|]. apply callback_bind; [typeclasses eauto|keep|intros e].
    destruct (e <? 0); [apply callback_keeps; keep|].
    apply callback_bind; [typeclasses eauto|keep|intros _; exact W].
  - apply callback_bind; [typeclasses eauto|keep|intros _; exact P].
Qed.

(** One line or literal. *)
Lemma keeps_readln : keeps active (run_ci ci_readln).
Proof.
  apply active_run_ci; [|apply stays_readln]. intros c. destruct (ci_readln c) as [c' l] eqn:E. apply ci_readln_takes in E.
  unfold shrinks. simpl. lia.
Qed.
Lemma keeps_read : keeps active (run_ci (fun c => ci_read c (Z.to_nat (rbuff_size c)))).
Proof.
  apply active_run_ci; [|intros c; apply stays_read]. intros c. destruct (ci_read c _) as [c' l] eqn:E. apply ci_read_takes in E.
  unfold shrinks. simpl. lia.
Qed.
Hint Resolve keeps_readln keeps_read : keeps.
Lemma keeps_read_input : keeps active read_input.
Proof. unfold read_input. keep. Qed.
Lemma read_input_takes w w' l b i :
  read_input w = (w', (l, b, i)) -> (l + length (unread (conn w')) <= length (unread (conn w)))%nat.
Proof.
  unfold read_input, self, mbind, IM_bind, run_ci. destruct (_ <=? _).
  - destruct (ci_readln (conn w)) as [c t] eqn:E. apply ci_readln_takes in E. by intros [= <- <- <- <-].
  - destruct (ci_read (conn w) _) as [c t] eqn:E. apply ci_read_takes in E. by intros [= <- <- <- <-].
Qed.

(** A pass that goes on has read something; one that has started a job ends the loop. *)
Definition pass_ok (w : world) (x : world * pass) : Prop :=
  (active w x.1 /\ (x.2 <> Stop -> (length (unread (conn x.1)) < length (unread (conn w)))%nat)) \/
  (x.2 = Stop /\ begun w x.1).
Lemma pass_end (m : IM pass) w1 w2 :
  keeps active m -> active w1 w2 -> (length (unread (conn w2)) < length (unread (conn w1)))%nat ->
  pass_ok w1 (m w2).
Proof.
  intros K A L. left. pose proof (K w2) as B. split; [by etransitivity|]. intros _.
  pose proof (a_reads _ _ B) as R. unfold shrinks in R. lia.
Qed.

Lemma imap4_outcome : outcome (fun _ => True) imap4.
Proof.
  unfold imap4. apply outcome_frame; [intros ? ?; keep|intros d].
  destruct (negb _); [apply outcome_bind; [keep|intros _; handler]|].
  apply outcome_frame; [intros ? ?; keep|intros s]. destruct (_ =? _); [handler|].
  apply outcome_frame; [intros ? ?; keep|intros _]. destruct (_ || _); [handler|]. cbv zeta.
  destruct (_ || _); [apply outcome_bind; [keep|intros _; handler]|].
  do 2 (apply outcome_frame; [intros ? ?; keep|intros _]). apply outcome_handler.
Qed.

(** The end of a pass that has a complete command. *)
Definition execute : IM pass :=
  result ← imap4; s ← self; mret (if negb (result =? 0) || idling s then Exit result else Stop).
Lemma execute_ok w1 w2 :
  pool w2 = None -> active w1 w2 -> (length (unread (conn w2)) < length (unread (conn w1)))%nat ->
  pass_ok w1 (execute w2).
Proof.
  intros P A L. unfold execute, self, mbind, IM_bind, mret, IM_ret. pose proof (imap4_outcome w2 P I) as O.
  destruct (imap4 w2) as [w3 r]. simpl in *. destruct O as [B|(-> & j & w4 & B & S)].
  - left. split; [by etransitivity|]. intros _. pose proof (a_reads _ _ B) as R. unfold shrinks in R. simpl. lia.
  - right. assert (idling (session w3) = false) as ->.
    { rewrite (s_world _ _ _ S). unfold idling. simpl. by rewrite andb_false_r. }
    split; [done|]. exists j, w4. split; [by transitivity w2; [apply A|apply B]|]. split; [done|].
    pose proof (a_reads _ _ B) as R. unfold shrinks in R. lia.
Qed.

Lemma input_pass_ok w : pool w = None -> pass_ok w (input_pass w).
Proof.
  intros P. unfold input_pass, mbind at 1, IM_bind at 1. pose proof (keeps_read_input w) as A.
  destruct (read_input w) as [w1 [[l b] i]] eqn:E. apply read_input_takes in E. simpl in A.
  destruct (l =? 0)%nat eqn:L0; [left; by split|]. apply Nat.eqb_neq in L0.
  assert (length (unread (conn w1)) < length (unread (conn w)))%nat as L by lia.
  rewrite (bind_self _ w1). destruct (_ <=? _); [apply pass_end; [keep|done..]|].
  destruct (idling _); [apply pass_end; [keep|done..]|].
  unfold mbind at 1, IM_bind at 1. pose proof (keeps_tokenizer i w1) as B. destruct (imap4_tokenizer i w1) as [w2 t].
  simpl in B. assert (active w w2) as C by (by etransitivity).
  assert (length (unread (conn w2)) < length (unread (conn w)))%nat as L2.
  { pose proof (a_reads _ _ B) as R. unfold shrinks in R. lia. }
  rewrite (bind_self _ w2). destruct (t =? 0); [left; by split|].
  destruct (_ <? 0); [apply pass_end; [keep|done..]|]. apply execute_ok; [|done..]. by rewrite (a_pool _ _ C).
Qed.

Lemma keeps_prologue : keeps active input_prologue.
Proof. unfold input_prologue. keep. Qed.
Hint Resolve keeps_prologue : keeps.

Lemma callback_loop fuel : callback active (input_loop fuel).
Proof.
  induction fuel as [|fuel IH]; [apply callback_keeps; simpl; keep|]. intros w P. simpl. rewrite bind_eq.
  pose proof (input_pass_ok w P) as O. destruct (input_pass w) as [w1 r]. unfold pass_ok in O. simpl in O.
  destruct O as [[A L]|[-> B]]; [|right; exact B]. assert (pool w1 = None) as P1 by (by rewrite (a_pool _ _ A)).
  assert (forall m : IM ending, callback active m -> active w (m w1).1 \/ begun w (m w1).1) as K.
  { intros m C. destruct (C w1 P1) as [B|B]; [left; by etransitivity|right; eapply begun_after; [apply A|exact B]]. }
  destruct r; [apply K, IH|left; exact A|].
  apply K, callback_exit, callback_bind; [typeclasses eauto|keep|intros [|]; [exact IH|apply callback_keeps; keep]].
Qed.
Lemma callback_input : callback active imap_handle_input.
Proof.
  unfold imap_handle_input, handle_input. do 2 (apply callback_bind; [typeclasses eauto|keep|intros ?]).
  case_match; [apply callback_loop|apply callback_keeps; keep].
Qed.

Lemma callback_leave status : callback active (_ic_cb_leave status).
Proof.
  unfold _ic_cb_leave. apply callback_bind; [typeclasses eauto|keep|intros s]. destruct (errored _); [apply callback_keeps; keep|].
  apply callback_bind; [typeclasses eauto|keep|intros _].
  apply callback_then; [apply callback_exit, callback_input|by intros x w].
Qed.
End invariant.
#[export] Hint Resolve keeps_reset keeps_abort keeps_printf keeps_tokenizer keeps_read_input keeps_prologue : keeps.
