(* ===== verification/ImapEvents.v ===== *)
(** * The events of an IMAP connection keep its invariant

    The worker takes a connection from [Busy] to [Done]; the callbacks of the socket run when it
    is [Free]; the queue is drained in every state. *)
From S2P Require Import Prelude.
From S2P Require Import CLib.
From S2P Require Import GLib.
From S2P Require Import Tree.
From S2P Require Import DmString.
From S2P Require Import ListT.
From S2P Require Import ClientBase.
From S2P Require Import ClientFrame.
From S2P Require Import ClientSession.
From S2P Require Import GListUtil.
From S2P Require Import MailboxState.
From S2P Require Import MiscText.
From S2P Require Import Acl.
From S2P Require Import Cidr.
From S2P Require Import Capa.
From S2P Require Import Auth.
From S2P Require Import ImapText.
From S2P Require Import ImapSession.
From S2P Require Import ImapTokenizer.
From S2P Require Import ImapMailbox.
From S2P Require Import ImapCommands.
From S2P Require Import ImapFolders.
From S2P Require Import Mime.
From S2P Require Import ImapFetch.
From S2P Require Import ImapMessages.
From S2P Require Import ImapDispatch.
From S2P Require Import ImapServer.
From S2P Require Import ImapFrame.
From S2P Require Import ImapKeeps.
From S2P Require Import ImapMoves.
From S2P Require Import ImapHandlers.
From S2P Require Import ImapInvariant.

Section events.
Context `{ImapDB} `{!ImapStore} `{!ImapSearch} `{!FetchDB} `{GMimeLib} `{GLibStr} `{ServerConf} `{ImapConf} `{GLibBase64} `{Digests}
  `{AuthTables} `{SocketLib} `{AuthNames}.
Abbreviation st w := (state (session w)).
Abbreviation conn w := (ci (session w)).

(** ** The worker *)

(** What AUTHENTICATE and LOGIN may do. *)
Record grants (w w' : world) : Prop := {
  g_pool : pool w' = pool w;
  g_deleted : deleted w' = deleted w;
  g_queue : exists ts, queue w' = queue w ++ (QMessage <$> ts);
  g_id : clientsock (session w') = clientsock (session w) /\ deferred (session w') = deferred (session w);
  g_events : uncorks (conn w) (conn w');
  g_quit : ~ quit w -> ~ quit w';
  g_user : user_ok w -> user_ok w';
  g_reads : shrinks (conn w) (conn w');
}.
#[local] Instance grants_refl : Reflexive grants.
Proof. intros w. split; try done. exists []. by rewrite app_nil_r. Qed.
#[local] Instance grants_trans : Transitive grants.
Proof.
  intros w1 w2 w3 [A1 A2 (ts & A3) [A4 A4'] [A5 A5'] A6 A7 A8] [B1 B2 (us & B3) [B4 B4'] [B5 B5'] B6 B7 B8].
  split; try congruence; try tauto.
  - exists (ts ++ us). by rewrite B3, A3, fmap_app, app_assoc.
  - split; congruence.
  - split; auto.
  - by etransitivity.
Qed.
Lemma core_reads s s' : core s' = core s -> shrinks (ci s) (ci s').
Proof.
  intros E. assert (io (ci s') = io (ci s)) as I by exact (f_equal (fun x => x.1.1.1) E).
  apply shrinks_same; [exact (f_equal read_buffer I)|exact (f_equal read_buffer_offset I)].
Qed.
Lemma core_fields s s' :
  core s' = core s -> userid s' = userid s /\ clientsock s' = clientsock s /\ deferred s' = deferred s.
Proof.
  intros E. split_and!; [exact (f_equal (fun x => x.1.1.2) E)|exact (f_equal (fun x => x.1.2) E)|exact (f_equal (fun x => x.2) E)].
Qed.
Lemma steady_grants w w' : steady w w' -> grants w w'.
Proof.
  intros [A1 A2 A3 A4 A5 A6]. pose proof (core_reads _ _ A4). apply core_fields in A4 as (U & C & D). split; auto.
  - unfold quit. by rewrite <- A6.
  - unfold user_ok. rewrite <- A6. intros G X. eapply granted_same; eauto.
Qed.
#[local] Instance grants_frame : Frame grants.
Proof.
  split; [split; typeclasses eauto|..].
  - intros w f Hf. apply steady_grants. unfold steady. by apply frame_session.
  - intros w d. apply steady_grants. unfold steady. by apply frame_db.
  - intros w t L. apply steady_grants. unfold steady. by apply frame_message.
Qed.

(** A computation that keeps the relation, in one world. *)
Ltac at_world := match goal with |- grants ?w (?m ?w).1 => cut (keeps grants m); [intros K; apply K|keep] end.

Lemma grants_login cram u p v w :
  auth_validate cram (clientsock (session w)) u p = Some v -> valid v = 1 ->
  grants w (((upd (fun s => s <| userid := user_idnr v |>);;
             _ ← dbmail_imap_session_set_state CLIENTSTATE_AUTHENTICATED; mret 0) : IM Z) w).1.
Proof.
  intros E V. rewrite !bind_eq, set_state_eq. simpl.
  assert (granted ((session w) <| userid := user_idnr v |>)) as G by (by exists cram, u, p, v).
  destruct (_ || _) eqn:B.
  - split; simpl; try done; [exists []; by rewrite app_nil_r|intros _ _; exact G].
  - apply orb_false_iff in B as [_ B]. to_prop.
    split; simpl; try done; [exists []; by rewrite app_nil_r|intros _ _; exact G|by apply shrinks_same].
Qed.
Lemma grants_handle_auth u p : keeps grants (dbmail_imap_session_handle_auth u p).
Proof.
  intros w. unfold dbmail_imap_session_handle_auth. rewrite (bind_self _ w), bind_eq.
  set (m := if has_auth _ then _ else _). assert (forall R, Frame R -> keeps R m) as K by (subst m; intros R HR; keep).
  pose proof (K grants _ w) as G. destruct (K steady _ w) as [_ _ _ E _ _]. apply core_fields in E as (_ & E & _).
  destruct (m w) as [w1 x]. simpl in *. etransitivity; [exact G|]. clear m K. rewrite <- E.
  destruct (auth_validate _ _ x p) as [v|] eqn:V; [|at_world].
  destruct (valid v =? -1); [at_world|]. destruct (valid v =? 0); [at_world|].
  destruct (valid v =? 1) eqn:V1; [|reflexivity]. to_prop. by eapply grants_login.
Qed.
Hint Resolve grants_handle_auth : keeps.
Lemma grants_authenticate : keeps grants _ic_authenticate_enter.
Proof. keep. Qed.

Lemma job_grants j w : job_allowed j (st w) -> user_ok w -> ~ quit w -> grants w (enter j w).1.
Proof.
  intros [A|[[-> _]|[N U]]] G Q.
  - apply steady_grants. apply (keeps_enter_any steady j A w).
  - apply grants_authenticate.
  - destruct (keeps_enter quiet j N w) as [A1 A2 A3 A4 A5 A6]. pose proof (core_reads _ _ A4). apply core_fields in A4 as (I & C & D).
    split; auto.
    + intros _. unfold quit in *. destruct A6 as [->|[_ X]]; [done|]. intros E. rewrite E in X. unfold command_states in X.
      repeat (apply elem_of_cons in X as [X|X]; [done|]). by apply elem_of_nil in X.
    + intros _ _. eapply granted_same; [exact I|exact C|]. by apply G.
Qed.

Lemma worker_done j w : Busy j w -> Done (worker j w).1.
Proof.
  intros [B1 B2 B3 B4 (ts & B5) B6 [B7 B8] B9]. unfold worker, run_job. set (w0 := w <| pool := None |>).
  rewrite (bind_self _ w0). destruct (_ =? _) eqn:E; to_prop; [done|]. rewrite bind_eq.
  destruct (job_grants j w0 B9 B4 B6) as [A1 A2 (us & A3) [A4 A5] [A6 A6'] A7 A8 _].
  destruct (enter j w0) as [w1 r]. simpl in *. split; simpl; try done.
  - congruence.
  - by rewrite A5.
  - intros U. apply A8; [exact B4|exact U].
  - exists (ts ++ us), r. by rewrite A3, B5, fmap_app.
  - by apply A7.
  - split; apply not_true_is_false; [intros X; apply A6 in X|intros X; apply A6' in X]; congruence.
Qed.

Lemma worker_reads j w : Busy j w -> shrinks (conn w) (conn (worker j w).1).
Proof.
  intros [B1 B2 B3 B4 _ B6 _ B9]. unfold worker, run_job. set (w0 := w <| pool := None |>).
  rewrite (bind_self _ w0). destruct (_ =? _) eqn:E; to_prop; [done|]. rewrite bind_eq.
  apply (g_reads _ _ (job_grants j w0 B9 B4 B6)).
Qed.

(** ** The queue *)

(** A message is sent. *)
Record sends (w w' : world) : Prop := {
  n_pool : pool w' = pool w;
  n_deleted : deleted w' = deleted w;
  n_queue : queue w' = queue w;
  n_id : userid (session w') = userid (session w) /\ clientsock (session w') = clientsock (session w) /\
         deferred (session w') = deferred (session w);
  n_state : st w' = st w;
  n_cork : rev_on (conn w') = rev_on (conn w) /\ wev_on (conn w') = wev_on (conn w);
  n_reads : shrinks (conn w) (conn w');
  n_stays : stays (conn w) (conn w');
}.
Lemma sends_message t w : deleted w = false -> sends w (cb_leave (QMessage t) w).1.
Proof.
  intros D. unfold cb_leave. rewrite D. unfold dm_thread_data_sendmessage, ci_print, run_ci, mbind, IM_bind.
  pose proof (wrote_write (conn w) (lit "%s") [FS t]) as W. destruct (ci_write (conn w) _ _) as [c e]. simpl in *.
  split; simpl; try done; [split; apply W|by apply wrote_shrinks|by apply wrote_stays].
Qed.

Lemma sends_user w w' : sends w w' -> user_ok w -> user_ok w'.
Proof. intros [_ _ _ (A & B & _) S _ _ _] U X. rewrite S in X. eapply granted_same; [exact A|exact B|by apply U]. Qed.

(** [w] with another queue: the item in front of it was taken. *)
Abbreviation requeue w l := (w <| queue := l |>).

Lemma drain_step q l n w :
  queue w = q :: l -> drain_items (S n) w = drain_items n (cb_leave q (requeue w l)).1.
Proof. intros E. simpl. rewrite bind_eq. unfold pop. rewrite E. simpl. by rewrite bind_eq. Qed.

(** The messages at the front of the queue are sent. *)
Lemma drain_messages ts l n w :
  deleted w = false -> queue w = (QMessage <$> ts) ++ l ->
  exists w', drain_items (length ts + n) w = drain_items n w' /\ sends (requeue w l) w'.
Proof.
  revert w. induction ts as [|t ts IH]; intros w D E.
  - exists w. split; [done|]. simpl in E. destruct w as [s d q p x]; simpl in *; subst. split; done || auto.
  - simpl length. change (S (length ts) + n)%nat with (S (length ts + n)). simpl in E. rewrite (drain_step _ _ _ _ E).
    set (w1 := requeue w ((QMessage <$> ts) ++ l)). pose proof (sends_message t w1 D) as S1.
    destruct (IH (cb_leave (QMessage t) w1).1) as (w2 & E2 & S2); [by rewrite (n_deleted _ _ S1)|by rewrite (n_queue _ _ S1)|].
    exists w2. split; [exact E2|]. destruct S1 as [A1 A2 A3 (A4 & A5 & A6) A7 [A8 A9] A10 A11], S2 as [B1 B2 B3 (B4 & B5 & B6) B7 [B8 B9] B10 B11].
    simpl in *. split; simpl; try congruence; try (split_and!; congruence).
    + unfold shrinks in *. simpl in *. lia.
    + by etransitivity.
Qed.

(** The rounds that are left. *)
Definition rank (w : world) : nat :=
  match last (queue w) with
  | None => 0
  | Some (QMessage _) => 1
  | Some QCleanup => S (Z.to_nat (DEFERRED_MAX_LOOP - deferred (session w)))
  | Some (QLeave _) => S (S (Z.to_nat DEFERRED_MAX_LOOP))
  end.
Lemma rank_messages w ts : queue w = QMessage <$> ts -> (rank w <= 1)%nat.
Proof. unfold rank. intros ->. rewrite fmap_last. destruct (last ts); simpl; lia. Qed.
Lemma rank_cleanup w l : queue w = l ++ [QCleanup] -> rank w = S (Z.to_nat (DEFERRED_MAX_LOOP - deferred (session w))).
Proof. unfold rank. intros ->. by rewrite last_snoc. Qed.
Lemma rank_leave w l r : queue w = l ++ [QLeave r] -> rank w = S (S (Z.to_nat DEFERRED_MAX_LOOP)).
Proof. unfold rank. intros ->. by rewrite last_snoc. Qed.
Lemma rank_running w : Running w -> (rank w <= S (Z.to_nat DEFERRED_MAX_LOOP))%nat.
Proof.
  intros [F|[j B]].
  - destruct (f_queue _ F) as (ts & E). destruct (decide (quit w)).
    + rewrite (rank_cleanup _ _ E). pose proof (f_count _ F). lia.
    + rewrite app_nil_r in E. apply rank_messages in E. unfold DEFERRED_MAX_LOOP. lia.
  - destruct (b_queue _ _ B) as (ts & E). apply rank_messages in E. unfold DEFERRED_MAX_LOOP. lia.
Qed.

(** The deferred cleanup puts itself back, or the session ends. *)
Lemma cleanup_spec w :
  Free w -> quit w -> queue w = [QCleanup] ->
  let w' := (cb_leave QCleanup (requeue w [])).1 in
  quit w' /\ (Dead w' \/ (Free w' /\ (rank w' < rank w)%nat)) /\ (length (unread (conn w')) <= length (unread (conn w)))%nat.
Proof.
  intros [F1 F2 F3 F4 F5] Q E w'. subst w'. unfold cb_leave. simpl. rewrite F2. unfold imap_cleanup_deferred.
  rewrite !bind_eq. unfold upd, updci, run_ci. simpl.
  set (c0 := (conn w) <| rev_on := false |>). pose proof (wrote_shrinks _ _ (wrote_wbuf_len c0)) as L.
  destruct (ci_wbuf_len _) as [c n]. unfold shrinks in L. cbn [fst snd] in *. destruct (_ && _) eqn:C; simpl in C.
  - to_prop. rewrite bind_eq. split; [exact Q|split; [right|]].
    2:{ pose proof (shrinks_write_cb c) as L2. unfold shrinks in L2. simpl. change (unread c0) with (unread (conn w)) in L. lia. }
    split.
    + split; simpl; try done; [lia|]. exists []. by rewrite decide_True.
    + rewrite (rank_cleanup w [] E). rewrite (rank_cleanup _ []) by done. simpl. lia.
  - unfold session_delete. rewrite bind_eq. split; [exact Q|split; [by left|exact L]].
Qed.

(** ** Rounds *)

(** A command is in progress, or the connection is attended to. *)
Definition roused (w : world) : Prop := listens w \/ Done w \/ exists j, Busy j w.
Lemma sends_listens w w' l : sends (requeue w l) w' -> listens w -> listens w'.
Proof.
  intros S [Q|L]; unfold listens; rewrite (n_state _ _ S); [by left|right]. by apply (n_stays _ _ S).
Qed.
Lemma not_Done w : Running w \/ Dead w -> ~ Done w.
Proof.
  intros C [D1 _ _ _ (ts & r & D2) D3 _]. destruct C as [[F|[j B]]|X].
  - destruct (f_queue _ F) as (us & E). rewrite decide_False, app_nil_r, D2 in E by done.
    apply (f_equal last) in E. rewrite last_snoc, fmap_last in E. by destruct (last us).
  - destruct B. congruence.
  - destruct X. destruct ts; simpl in D2; congruence.
Qed.
Lemma Free_not_Busy w j : Free w -> Busy j w -> False.
Proof. intros [F _ _ _ _] [B _ _ _ _ _ _ _]. congruence. Qed.
Lemma Free_roused w : Free w -> roused w -> listens w.
Proof.
  intros F [L|[D|[j B]]]; [done|by apply not_Done in D; [|left; left]|by destruct (Free_not_Busy _ _ F B)].
Qed.
Lemma leave_roused st w : pool w = None -> listens (_ic_cb_leave st w).1 \/ begun w (_ic_cb_leave st w).1.
Proof.
  intros P. unfold _ic_cb_leave. rewrite (bind_self _ w). destruct (errored _) eqn:E.
  - left. apply (keeps_abort w). right. by left.
  - rewrite bind_eq. set (w1 := (updci ci_uncork w).1). assert (listens w1) as L by (right; apply uncork_attended).
    assert (callback active (_ ← imap_handle_exit imap_handle_input st; skip)) as C.
    { apply callback_then; [apply callback_exit, callback_input|by intros x w2]. }
    destruct (C w1) as [A|B]; [done|left; by apply A|right]. eapply begun_after; [|exact B].
    assert (keeps moved (updci ci_uncork)) as K by keep. apply K.
Qed.

Definition backlog (w : world) : nat := length (unread (conn w)).
Lemma worker_backlog j w : Busy j w -> (backlog (worker j w).1 <= backlog w)%nat.
Proof. apply worker_reads. Qed.

(** What a round does: the invariant holds, the rank sinks, no input is added, and if a command
    is in progress at its end then it was there before or some input was read for it. *)
Record round (w w' : world) : Prop := {
  r_inv : Running w' \/ Dead w';
  r_rank : (rank w' < rank w)%nat;
  r_backlog : (backlog w' <= backlog w)%nat;
  r_roused : roused w -> roused w';
  r_busy j : Busy j w' -> Busy j w \/ (Done w /\ (backlog w' < backlog w)%nat);
}.

Lemma Free_sends w w' l :
  Free w -> sends (requeue w l) w' ->
  (exists ts, l = (QMessage <$> ts) ++ (if decide (quit w) then [QCleanup] else [])) -> Free w'.
Proof.
  intros [F1 F2 F3 F4 _] S (ts & E). pose proof (sends_user _ _ S F4). destruct S as [A1 A2 A3 (_ & _ & A6) A7 _ _ _].
  simpl in *. split; try (congruence || assumption). exists ts. rewrite A3, E. unfold quit in *.
  destruct (decide (st w = _)), (decide (st w' = _)); congruence.
Qed.
Lemma sends_rank w w' ts : sends (requeue w []) w' -> queue w = QMessage <$> ts -> ts <> [] -> (rank w' < rank w)%nat.
Proof.
  intros S E N. unfold rank. rewrite (n_queue _ _ S), E. simpl. rewrite fmap_last.
  destruct (last ts) eqn:L; simpl; [lia|]. by apply last_None in L.
Qed.
Lemma sends_backlog w w' l : sends (requeue w l) w' -> (backlog w' <= backlog w)%nat.
Proof. intros S. apply (n_reads _ _ S). Qed.

Lemma round_cleanup ts w :
  Free w -> quit w -> queue w = (QMessage <$> ts) ++ [QCleanup] -> round w (drain_items (length (queue w)) w).1.
Proof.
  intros F Q E. destruct (drain_messages ts [QCleanup] 1 w (f_deleted _ F) E) as (w1 & E1 & S1).
  rewrite E, length_app, length_fmap. simpl length. rewrite E1.
  assert (queue w1 = [QCleanup]) as E2 by by rewrite (n_queue _ _ S1).
  assert (Free w1) as F1 by (eapply Free_sends; [exact F|exact S1|exists []; by rewrite decide_True]).
  assert (quit w1) as Q1 by (unfold quit in *; by rewrite (n_state _ _ S1)).
  rewrite (drain_step _ _ _ _ E2). cbn [drain_items].
  assert (rank w1 = rank w) as R.
  { rewrite (rank_cleanup _ [] E2), (rank_cleanup _ _ E). by destruct (n_id _ _ S1) as (_ & _ & ->). }
  pose proof (sends_backlog _ _ _ S1) as L1. destruct (cleanup_spec w1 F1 Q1 E2) as (Q2 & C & L).
  change ((skip ?w).1) with w. set (w2 := (cb_leave QCleanup (requeue w1 [])).1) in *.
  assert (backlog w2 <= backlog w)%nat by (unfold backlog in *; lia). destruct C as [C|[C R2]]; split; try done.
  - by right.
  - unfold rank at 1. simpl. rewrite (x_queue _ C), <- R, (rank_cleanup _ [] E2). simpl. lia.
  - intros _. left. by left.
  - intros j [B _ _ _ _ _ _ _]. rewrite (x_pool _ C) in B. done.
  - by left; left.
  - by rewrite <- R.
  - intros _. left. by left.
  - intros j B. by destruct (Free_not_Busy _ _ C B).
Qed.
Lemma round_free w : Free w -> queue w <> [] -> round w (drain_items (length (queue w)) w).1.
Proof.
  intros F N. destruct (f_queue _ F) as (ts & E). destruct (decide (quit w)) as [Q|Q]; [by eapply round_cleanup|].
  rewrite app_nil_r in E. destruct (drain_messages ts [] 0 w (f_deleted _ F)) as (w1 & E1 & S1); [by rewrite app_nil_r|].
  rewrite E, length_fmap. rewrite Nat.add_0_r in E1. rewrite E1. cbn [drain_items]. change ((skip ?w).1) with w.
  assert (Free w1) as F1 by (eapply Free_sends; [exact F|exact S1|exists []; by rewrite decide_False]).
  split; [by left; left| |by eapply sends_backlog| |intros j B; by destruct (Free_not_Busy _ _ F1 B)].
  2:{ intros X. left. eapply sends_listens; [exact S1|]. by apply Free_roused. }
  eapply sends_rank; [exact S1|exact E|]. intros ->. by rewrite E in N.
Qed.
Lemma round_busy j w : Busy j w -> queue w <> [] -> round w (drain_items (length (queue w)) w).1.
Proof.
  intros B N. destruct (b_queue _ _ B) as (ts & E).
  destruct (drain_messages ts [] 0 w (b_deleted _ _ B)) as (w1 & E1 & S1); [by rewrite app_nil_r|].
  rewrite E, length_fmap. rewrite Nat.add_0_r in E1. rewrite E1. cbn [drain_items]. change ((skip ?w).1) with w.
  assert (Busy j w1) as B1.
  { pose proof (sends_user _ _ S1 (b_user _ _ B)).
    destruct S1 as [A1 A2 A3 (A4 & A5 & A6) A7 [A8 A9] _ _], B as [C1 C2 C3 C4 C5 C6 [C7 C8] C9].
    simpl in *. split; try (congruence || assumption); [by exists []|split; congruence]. }
  split; [by left; right; exists j| |by eapply sends_backlog|intros _; right; right; by exists j|].
  - eapply sends_rank; [exact S1|exact E|]. intros ->. by rewrite E in N.
  - intros k [C _ _ _ _ _ _ _]. left. destruct B1 as [B1 _ _ _ _ _ _ _]. assert (k = j) as -> by congruence. exact B.
Qed.
Lemma round_done w : Done w -> round w (drain_items (length (queue w)) w).1.
Proof.
  intros D. destruct (d_queue _ D) as (ts & r & E).
  destruct (drain_messages ts [QLeave r] 1 w (d_deleted _ D) E) as (w1 & E1 & S1).
  rewrite E, length_app, length_fmap. simpl length. rewrite E1.
  assert (queue w1 = [QLeave r]) as E2 by by rewrite (n_queue _ _ S1).
  rewrite (drain_step _ _ _ _ E2). cbn [drain_items]. set (w2 := requeue w1 []).
  pose proof (sends_user _ _ S1 (d_user _ D)) as U. pose proof (sends_backlog _ _ _ S1) as L. unfold backlog in L.
  assert (Free w2) as F2.
  { destruct S1 as [A1 A2 A3 (A4 & A5 & A6) A7 _ _ _], D as [D1 D2 D3 _ _ D5 _]. simpl in *. split; simpl; try (congruence || assumption).
    exists []. unfold quit in *. simpl. rewrite decide_False; [done|by rewrite A7]. }
  change ((skip ?w).1) with w. unfold cb_leave at 1. rewrite (f_deleted _ F2).
  pose proof (callback_run active _ w2 (callback_leave r) F2) as R.
  assert (backlog w1 = backlog w2) as L2 by done. unfold backlog in L2.
  assert (roused (_ic_cb_leave r w2).1) as X.
  { destruct (leave_roused r w2 (f_pool _ F2)) as [X|X]; [by left|]. right; right. by eapply begun_Busy. }
  split; [by left|apply rank_running in R; rewrite (rank_leave _ _ _ E); lia| |intros _; exact X|];
    destruct (callback_leave r w2 (f_pool _ F2)) as [A|(k & w3 & A & S & L3)].
  - pose proof (a_reads _ _ A) as L4. unfold shrinks in L4. unfold backlog. lia.
  - unfold backlog. rewrite (s_world _ _ _ S). simpl. change (unread (ci_cork ?c)) with (unread c). lia.
  - intros j B. destruct (Free_not_Busy _ _ (Free_moved _ _ F2 A) B).
  - intros j B. right. split; [done|]. unfold backlog. rewrite (s_world _ _ _ S). simpl.
    change (unread (ci_cork ?c)) with (unread c). lia.
Qed.

Lemma round_inv w : Inv w -> queue w <> [] -> round w (drain_items (length (queue w)) w).1.
Proof.
  intros [[F|[j B]]|[D|X]] N; [by apply round_free|by eapply round_busy|by apply round_done|].
  by rewrite (x_queue _ X) in N.
Qed.

(** Draining empties the queue. *)
Record drained (w w' : world) : Prop := {
  e_inv : Running w' \/ Dead w';
  e_roused : roused w -> listens w' \/ exists j, Busy j w';
  e_queue : queue w' = [];
  e_backlog : (backlog w' <= backlog w)%nat;
  e_busy j : Busy j w' -> Busy j w \/ (Done w /\ (backlog w' < backlog w)%nat);
}.
Lemma drain_rounds_inv fuel w : Inv w -> (rank w < fuel)%nat -> drained w (drain_rounds fuel w).1.
Proof.
  revert w. induction fuel as [|fuel IH]; intros w I R; [lia|]. cbn [drain_rounds].
  destruct (queue w) as [|q l] eqn:E.
  - assert (Running w \/ Dead w) as C.
    { destruct I as [I|[D|I]]; [by left| |by right]. destruct (d_queue _ D) as (ts & r & E2). rewrite E in E2. by destruct ts. }
    split; simpl; [done| |done..|by left]. intros [?|[D|?]]; [by left| |by right]. by apply not_Done in D.
  - rewrite bind_eq. pose proof (round_inv w I) as Rd. rewrite E in Rd. destruct Rd as [I1 R1 L1 X1 B1]; [done|].
    set (w1 := (drain_items (length (q :: l)) w).1) in *.
    destruct (IH w1) as [I2 X2 E2 L2 B2]; [destruct I1 as [?|?]; [by left|by right; right]|lia|].
    split; [done|by intros X; apply X2, X1|done|lia|]. intros j B. destruct (B2 j B) as [B3|[D _]]; [|by apply not_Done in D].
    destruct (B1 j B3) as [?|[? ?]]; [by left|]. right. split; [done|lia].
Qed.
Lemma drain_inv w : Inv w -> drained w (dm_queue_drain w).1.
Proof.
  intros I. apply drain_rounds_inv; [done|]. unfold DRAIN_ROUNDS. destruct I as [R|[D|X]].
  - apply rank_running in R. unfold DEFERRED_MAX_LOOP in *. lia.
  - destruct (d_queue _ D) as (ts & r & E). rewrite (rank_leave _ _ _ E). unfold DEFERRED_MAX_LOOP. lia.
  - unfold rank. rewrite (x_queue _ X). simpl. unfold DEFERRED_MAX_LOOP. lia.
Qed.
End events.
