(* ===== verification/ImapServerFacts.v ===== *)
(** * The IMAP server: what holds of every connection

    The invariant of all reachable states, and the theorems about the server that follow from
    it: who a session acts for, how commands and callbacks exclude each other, that every
    command is completed, and that the loop over the input ends. *)
From S2P Require Import Prelude.
From S2P Require Import CLib.
From S2P Require Import GLib.
From S2P Require Import Tree.
From S2P Require Import DmString.
From S2P Require Import ListT.
From S2P Require Import ClientBase.
From S2P Require Import ClientFrame.
From S2P Require Import ClientSession.
From S2P Require Import GListUtil.
From S2P Require Import MailboxState.
From S2P Require Import MiscText.
From S2P Require Import Acl.
From S2P Require Import Cidr.
From S2P Require Import Capa.
From S2P Require Import Auth.
From S2P Require Import AuthExample.
From S2P Require Import ImapText.
From S2P Require Import ImapSession.
From S2P Require Import ImapTokenizer.
From S2P Require Import ImapMailbox.
From S2P Require Import ImapCommands.
From S2P Require Import ImapFolders.
From S2P Require Import Mime.
From S2P Require Import ImapFetch.
From S2P Require Import ImapMessages.
From S2P Require Import ImapDispatch.
From S2P Require Import ImapServer.
From S2P Require Import ImapFrame.
From S2P Require Import ImapKeeps.
From S2P Require Import ImapMoves.
From S2P Require Import ImapHandlers.
From S2P Require Import ImapInvariant.
From S2P Require Import ImapEvents.
From S2P Require Import ImapExample.

Section facts.
Context `{ImapDB} `{!ImapStore} `{!ImapSearch} `{!FetchDB} `{GMimeLib} `{GLibStr} `{ServerConf} `{ImapConf} `{GLibBase64} `{Digests}
  `{AuthTables} `{SocketLib} `{AuthNames}.
Abbreviation st w := (state (session w)).
Abbreviation conn w := (ci (session w)).

(** ** Reachable states *)
Lemma Inv_running w : Running w \/ Dead w -> Inv w.
Proof. intros [R|D]; [by left|by right; right]. Qed.
Lemma drain_Inv w : Inv w -> Inv (dm_queue_drain w).1.
Proof. intros I. apply Inv_running, (drain_inv w I). Qed.

Lemma Free_session w f :
  Free w -> (forall s, userid (f s) = userid s /\ clientsock (f s) = clientsock s /\ deferred (f s) = deferred s /\ state (f s) = state s) ->
  Free (w <| session ::= f |>).
Proof.
  intros [F1 F2 F3 F4 F5] Hf. destruct (Hf (session w)) as (A & B & C & D). split; simpl; try done.
  - by rewrite C.
  - intros U. simpl in U. rewrite D in U. eapply granted_same; [exact A|exact B|by apply F4].
  - destruct F5 as (ts & E). exists ts. simpl. rewrite E. unfold quit in *; simpl in *.
    destruct (decide (st w = _)), (decide (state (f (session w)) = _)); congruence.
Qed.
(** A callback behind a change of the connection. *)
Lemma Free_callback w (f : ClientBase_T -> ClientBase_T) (m : IM unit) :
  Free w -> callback moved m -> Inv ((updci f;; m;; dm_queue_drain) w).1.
Proof.
  intros F C. rewrite !bind_eq. apply drain_Inv. left. eapply callback_run; [typeclasses eauto|exact C|]. by apply Free_session.
Qed.

Lemma callback_read : callback moved
  (s ← self;
   let have := Z.of_nat (length (read_buffer (ci s))) in
   let need := rbuff_size (ci s) in
   let enough := if 0 <? need then need <=? have else 0 <? have in
   if errored (ci s) then imap_session_bailout
   else if has_flag (client_state (ci s)) CLIENT_EOF then
     updci ci_cork;; (if enough then (_ ← imap_handle_input; skip) else imap_session_bailout)
   else when (0 <? have) (_ ← imap_handle_input; skip)).
Proof.
  assert (callback moved (_ ← imap_handle_input; skip)) as I.
  { apply callback_moved, callback_then; [apply callback_input|by intros x w]. }
  apply callback_bind; [typeclasses eauto|keep|intros s]. cbv zeta. destruct (errored _); [apply callback_keeps; keep|].
  destruct (has_flag _ _); [|apply callback_when; [typeclasses eauto|exact I]].
  apply callback_bind; [typeclasses eauto|keep|intros _].
  match goal with |- callback _ (if ?b then _ else _) => destruct b end; [exact I|apply callback_keeps; keep].
Qed.
Lemma callback_time : callback moved imap_cb_time.
Proof.
  apply callback_keeps. unfold imap_cb_time.
  assert (forall t, keeps moved (imap_session_printf t)) by (intros t; apply active_moved, keeps_printf). keep.
Qed.
Lemma callback_write : callback moved
  (s ← self;
   if state s =? CLIENTSTATE_QUIT_QUEUED then skip
   else if state s =? CLIENTSTATE_LOGOUT then imap_session_bailout
   else if state s =? CLIENTSTATE_ERROR then imap_handle_abort
   else updci ci_write_cb).
Proof.
  apply callback_keeps. assert (keeps moved (updci ci_write_cb)) by apply moved_updci, shrinks_write_cb.
  assert (keeps moved imap_handle_abort) by apply active_moved, keeps_abort. keep.
Qed.

Lemma Inv_uncorked w : Inv w -> ~ corked (conn w) -> Free w.
Proof.
  intros [[F|[j B]]|[D|X]] N; [done|by destruct (N (b_cork _ _ B))|by destruct (N (d_cork _ D))|by destruct (N (x_cork _ X))].
Qed.

Lemma handle_inv e w w' : Inv w -> handle e w = Some w' -> Inv w'.
Proof.
  intros I. destruct e; simpl; intros E.
  - destruct (rev_on (conn w)) eqn:R; [|done]. injection E as <-.
    assert (Free w) as F by (apply Inv_uncorked; [done|]; intros [C _]; congruence).
    pose proof (Free_callback w ci_read_cb _ F callback_read) as T. unfold socket_read_cb, imap_cb_read.
    rewrite !bind_eq in *. exact T.
  - destruct (rev_on (conn w)) eqn:R; [|done]. injection E as <-.
    assert (Free w) as F by (apply Inv_uncorked; [done|]; intros [C _]; congruence).
    unfold socket_read_cb. rewrite bind_eq. apply drain_Inv. left. eapply callback_run; [typeclasses eauto|apply callback_time|done].
  - destruct (wev_on (conn w)) eqn:R; [|done]. injection E as <-.
    assert (Free w) as F by (apply Inv_uncorked; [done|]; intros [_ C]; congruence).
    pose proof (Free_callback w (fun c => c <| wev_on := false |>) _ F callback_write) as T. unfold socket_write_cb.
    rewrite !bind_eq in *. exact T.
  - injection E as <-. by apply drain_Inv.
  - destruct (pool w) as [j|] eqn:P; [|done]. injection E as <-. right; left. apply worker_done.
    destruct I as [[[F _ _ _ _]|[k B]]|[[D _ _ _ _ _ _]|[_ X _ _ _]]]; try congruence.
    destruct B as [B]. assert (k = j) as -> by congruence. by split.
  - injection E as <-. destruct I as [[F|[j B]]|[D|X]].
    + left; left. by apply Free_session.
    + left; right. exists j. destruct B. by split.
    + right; left. destruct D. by split.
    + right; right. destruct X. by split.
  - injection E as <-. destruct I as [[F|[j B]]|[D|X]].
    + left; left. destruct F. by split.
    + left; right. exists j. destruct B. by split.
    + right; left. destruct D. by split.
    + right; right. destruct X. by split.
Qed.

Lemma new_session c sock :
  state (dbmail_imap_session_new c sock) = CLIENTSTATE_NON_AUTHENTICATED /\ deferred (dbmail_imap_session_new c sock) = 0.
Proof. unfold dbmail_imap_session_new. by destruct conf_ssl. Qed.

Lemma reachable_inv w : reachable w -> Inv w.
Proof.
  induction 1 as [caddr_len fd sst ws rs ts sock d headroom|e w w' _ IH E]; [|by eapply handle_inv].
  left; left. unfold imap_handle_connection.
  match goal with |- Free (?m ?w0).1 => set (w := w0); cut (keeps moved m) end.
  - intros K. eapply Free_moved; [|apply K]. split; simpl; try done.
    + by rewrite (proj2 (new_session _ _)).
    + intros U. simpl in U. rewrite (proj1 (new_session _ _)) in U. by destruct U.
    + exists []. rewrite decide_False; [done|]. unfold quit. simpl. by rewrite (proj1 (new_session _ _)).
  - assert (forall t, keeps moved (imap_session_printf t)) by (intros t; apply active_moved, keeps_printf).
    assert (keeps moved imap_handle_abort) by apply active_moved, keeps_abort. keep.
Qed.

Lemma reachable_handle_all es w w' : reachable w -> handle_all es w = Some w' -> reachable w'.
Proof.
  revert w. induction es as [|e es IH]; intros w R E; simpl in E; [by injection E as <-|].
  destruct (handle e w) as [w1|] eqn:E1; [|done]. apply (IH w1); [by eapply reach_step|exact E].
Qed.

(** ** Who a session acts for *)

(** C2. A session is authenticated, has a mailbox selected, or has a job in the thread pool that
    needs a user only if [auth_validate] accepted a name and a password (or a CRAM-MD5
    response) on this connection, for the very user the session acts for. *)
Theorem imap_authenticated w :
  reachable w ->
  user_state (st w) \/ (exists j, pool w = Some j /\ ~ any_state_job j /\ j <> ic_authenticate) ->
  exists cram u p v,
    auth_validate cram (clientsock (session w)) u p = Some v /\ valid v = 1 /\ user_idnr v = userid (session w).
Proof.
  intros R D. apply reachable_inv in R. destruct D as [U|(j & P & N & A)].
  - destruct R as [[F|[j B]]|[D|X]]; [by apply F|by apply B|by apply D|].
    unfold user_state in U. rewrite (x_state _ X) in U. by destruct U.
  - destruct R as [[F|[k B]]|[D|X]]; [destruct F|destruct B as [B1 B2 B3 B4 B5 B6 B7 B8]|destruct D|destruct X]; try congruence.
    assert (k = j) as -> by congruence. apply B4. by destruct B8 as [?|[[? _]|[_ ?]]].
Qed.

(** ** One command at a time *)
Definition is_leave (q : qitem) : bool := match q with QLeave _ => true | _ => false end.
Definition is_cleanup (q : qitem) : bool := match q with QCleanup => true | _ => false end.
(** The commands in progress: a job in the pool, or the results of jobs in the queue. *)
Definition in_progress (w : world) : nat :=
  ((if pool w then 1 else 0) + length (filter (fun q => is_leave q = true) (queue w)))%nat.
Definition cleanups (w : world) : nat := length (filter (fun q => is_cleanup q = true) (queue w)).
(** The events of the environment that can happen now: reading, writing, timeout. *)
Definition socket_event (e : event) : Prop := e = EvRead \/ e = EvTimeout \/ e = EvWrite.

Lemma filter_messages (P : qitem -> Prop) `{!forall q, Decision (P q)} ts l :
  (forall t, ~ P (QMessage t)) -> filter P ((QMessage <$> ts) ++ l) = filter P l.
Proof.
  intros N. rewrite filter_app. replace (filter P (QMessage <$> ts)) with (@nil qitem); [done|].
  induction ts as [|t ts IH]; [done|]. simpl. rewrite filter_cons_False by apply N. exact IH.
Qed.
Lemma corked_no_event w e : corked (conn w) -> socket_event e -> handle e w = None.
Proof. intros [C1 C2] [->|[->| ->]]; simpl; by rewrite ?C1, ?C2. Qed.

(** C3. At most one command of a connection is in progress, and while one is, no event of the
    socket is handled, so that no input is read and no second command starts. The clean-up is
    queued exactly once when the session is to end, never while a command is in progress, and
    after the session's memory is given back nothing is left that could touch it. *)
Theorem imap_one_command w :
  reachable w ->
  (in_progress w <= 1)%nat /\
  (in_progress w = 1%nat ->
     cleanups w = 0%nat /\ deleted w = false /\ forall e, socket_event e -> handle e w = None) /\
  cleanups w = (if decide (st w = CLIENTSTATE_QUIT_QUEUED) then if deleted w then 0%nat else 1%nat else 0%nat) /\
  (deleted w = true -> queue w = [] /\ pool w = None /\ forall e, socket_event e -> handle e w = None).
Proof.
  intros R. apply reachable_inv in R. unfold in_progress, cleanups.
  destruct R as [[F|[j B]]|[D|X]].
  - destruct F as [F1 F2 _ _ (ts & F5)]. rewrite F1, F2, F5, !filter_messages by done.
    destruct (decide (quit w)) as [Q|Q]; [rewrite decide_True by exact Q|rewrite decide_False by exact Q];
      simpl; split_and!; try done; lia.
  - destruct B as [B1 B2 _ _ (ts & B5) B6 B7 _]. unfold quit in B6.
    rewrite B1, B2, B5, <- (app_nil_r (QMessage <$> ts)), !filter_messages, decide_False by done.
    split_and!; try done. intros _. split_and!; try done. intros e. by apply corked_no_event.
  - destruct D as [D1 D2 _ _ (ts & r & D5) D6 D7]. unfold quit in D6.
    rewrite D1, D2, D5, !filter_messages, decide_False by done.
    split_and!; try done. intros _. split_and!; try done. intros e. by apply corked_no_event.
  - destruct X as [X1 X2 X3 X4 X5]. rewrite X1, X2, X3, decide_True by done.
    split_and!; try done; [simpl; lia|]. intros _. split_and!; try done. intros e. by apply corked_no_event.
Qed.

(** ** Every command is completed *)
Definition job_event (e : event) : Prop := e = EvWorker \/ e = EvQueue.

(** The workers and the queue alone come to rest: in [n] steps nothing is left in the pool and
    in the queue, and if a command was in progress then the connection is attended to. *)
Definition comes_to_rest (n : nat) (w : world) : Prop :=
  exists es w', Forall job_event es /\ (length es <= n)%nat /\ handle_all es w = Some w' /\ pool w' = None /\ queue w' = [] /\
    (roused w -> listens w').
Lemma rest_step e n w w1 :
  job_event e -> handle e w = Some w1 -> (roused w -> roused w1) -> comes_to_rest n w1 -> comes_to_rest (S n) w.
Proof.
  intros J E X (es & w' & F & L & E' & P & Q & Y). exists (e :: es), w'.
  split_and!; try done; [by constructor|simpl; lia|simpl; by rewrite E|auto].
Qed.
Lemma rest_more n m w : (n <= m)%nat -> comes_to_rest n w -> comes_to_rest m w.
Proof. intros L (es & w' & F & L2 & R). exists es, w'. split_and!; [exact F|lia|apply R..]. Qed.

Lemma drained_completes n w :
  (forall w, Running w \/ Dead w -> queue w = [] -> (backlog w < n)%nat -> comes_to_rest (2 * n) w) ->
  Done w -> (backlog w <= n)%nat -> comes_to_rest (2 * n + 1) w.
Proof.
  intros IH D L. destruct (drain_inv w) as [I X Q B Y]; [by right; left|]. set (w1 := (dm_queue_drain w).1) in *.
  rewrite Nat.add_1_r. apply (rest_step EvQueue _ _ w1); [by right|done|intros R; destruct (X R); [by left|by right; right]|].
  destruct (decide (pool w1 = None)) as [P|P].
  - exists [], w1. split_and!; try done; [simpl; lia|]. intros R. destruct X as [X|[j B1]]; [by right; left|done|].
    destruct B1; congruence.
  - assert (exists j, Busy j w1) as [j B1].
    { destruct I as [[[? _ _ _ _]|?]|[_ ? _ _ _]]; done. }
    destruct (Y j B1) as [[? _ _ _ _ _ _ _]|[_ B2]]; [destruct D; congruence|].
    apply IH; [by left; right; exists j|done|lia].
Qed.
Lemma running_completes n w :
  Running w \/ Dead w -> queue w = [] -> (backlog w < n)%nat -> comes_to_rest (2 * n) w.
Proof.
  revert w. induction n as [|n IH]; intros w R Q L; [lia|]. destruct (pool w) as [j|] eqn:P.
  - assert (Busy j w) as B.
    { destruct R as [[[? _ _ _ _]|[k B]]|[_ ? _ _ _]]; try congruence. pose proof (b_pool _ _ B). by assert (k = j) as <- by congruence. }
    pose proof (worker_done _ _ B) as D. pose proof (worker_backlog _ _ B) as L2.
    apply (rest_more (S (2 * n + 1))); [lia|].
    apply (rest_step EvWorker _ _ (worker j w).1); [by left|simpl; by rewrite P|intros _; by right; left|].
    apply drained_completes; [exact IH|exact D|lia].
  - exists [], w. split_and!; try done; [simpl; lia|]. intros X. destruct R as [[F|[j B]]|D]; [|destruct B; congruence|].
    + by apply Free_roused.
    + left. apply (x_state _ D).
Qed.

Lemma in_progress_roused w : Inv w -> in_progress w = 1%nat -> roused w.
Proof.
  unfold in_progress. intros [[F|[j B]]|[D|X]]; [|by right; right; exists j|by right; left|].
  - destruct F as [F1 _ _ _ (ts & F5)]. rewrite F1, F5, filter_messages by done. by destruct (decide (quit w)).
  - by rewrite (x_pool _ X), (x_queue _ X).
Qed.
Lemma rest_quit w : Inv w -> queue w = [] -> quit w -> deleted w = true.
Proof.
  intros [[F|[j B]]|[D|X]] Q E; [|by destruct (b_state _ _ B)|by destruct (d_state _ D)|by apply X].
  destruct (f_queue _ F) as (ts & E2). rewrite decide_True, Q in E2 by done. by destruct ts.
Qed.

(** C4. From every state of a connection the workers and the queue alone, in a number of steps
    that the unread input bounds, bring every command in progress, and those that the buffered
    input starts, to their end: nothing is left in the thread pool or in the queue, and the
    callback that a command leaves through has run, for where a command was in progress the
    events that it had switched off are scheduled again - that of reading too, unless the client
    has closed the connection or logged out -, or the connection is marked broken, or the session
    is deleted. *)
Theorem imap_completes w :
  reachable w ->
  exists es w', Forall job_event es /\ (length es <= 2 * backlog w + 3)%nat /\
    handle_all es w = Some w' /\ pool w' = None /\ queue w' = [] /\
    (in_progress w = 1%nat -> deleted w' = true \/ attended (CLIENTSTATE_LOGOUT <= st w') (conn w')).
Proof.
  intros R0. pose proof (reachable_inv w R0) as R. destruct (drain_inv w R) as [I X Q B _]. set (w1 := (dm_queue_drain w).1) in *.
  assert (comes_to_rest (2 * backlog w + 3) w) as (es & w' & F & L & E & P & Q' & Y).
  { apply (rest_more (S (2 * S (backlog w1)))); [lia|].
    apply (rest_step EvQueue _ _ w1); [by right|done|intros Y; destruct (X Y); [by left|by right; right]|].
    apply running_completes; [exact I|exact Q|lia]. }
  exists es, w'. split_and!; try done. intros G. destruct (Y (in_progress_roused w R G)) as [Z|Z]; [left|by right].
  apply rest_quit; [|done|exact Z]. by eapply reachable_inv, reachable_handle_all.
Qed.

(** ** The loop over the input ends *)
Lemma bind_ext {A B} (m : IM A) (k k' : A -> IM B) w :
  keeps active m -> (forall x w', active w w' -> k x w' = k' x w') -> (m ≫= k) w = (m ≫= k') w.
Proof. intros Hm Hk. rewrite !bind_eq. apply Hk, Hm. Qed.

(** What follows a command is the same for two ways to go on with the input that agree. *)
Lemma handle_exit_ext (m1 m2 : IM ending) status w :
  (forall w', active w w' -> m1 w' = m2 w') -> imap_handle_exit m1 status w = imap_handle_exit m2 status w.
Proof.
  intros E. unfold imap_handle_exit. destruct (_ =? _); [done|]. destruct (_ =? 0); [|done].
  assert (forall w1, active w w1 ->
    (s ← self; if bool_decide (read_buffer (ci s) = []) then mret Ended else m1) w1 =
    (s ← self; if bool_decide (read_buffer (ci s) = []) then mret Ended else m2) w1) as E1.
  { intros w1 A. rewrite !bind_self. case_bool_decide; [done|]. by apply E. }
  unfold imap_handle_continue. rewrite !(bind_self _ w).
  assert (forall w1, active w w1 ->
    (s ← self;
     when (bool_decide (write_buffer_offset (ci s) < length (default [] (write_buffer (ci s))))%nat)
       (_ ← run_ci (fun c => ci_write_msg c None); skip);;
     when (command_state s =? TRUE) imap_session_reset;;
     s ← self; if bool_decide (read_buffer (ci s) = []) then mret Ended else m1) w1 =
    (s ← self;
     when (bool_decide (write_buffer_offset (ci s) < length (default [] (write_buffer (ci s))))%nat)
       (_ ← run_ci (fun c => ci_write_msg c None); skip);;
     when (command_state s =? TRUE) imap_session_reset;;
     s ← self; if bool_decide (read_buffer (ci s) = []) then mret Ended else m2) w1) as E2.
  { intros w1 A. rewrite !(bind_self _ w1). apply bind_ext; [keep|intros _ w2 B]. apply bind_ext; [keep|intros _ w3 C].
    apply E1. by do 2 (etransitivity; [eassumption|]). }
  destruct (_ <? _).
  - case_bool_decide; [by apply E2|]. apply bind_ext; [keep|intros e w1 A]. destruct (e <? 0); [done|].
    apply bind_ext; [keep|intros _ w2 B]. apply E2. by etransitivity.
  - apply bind_ext; [keep|intros _ w1 A]. by apply E1.
Qed.

(** [m] ends by itself. *)
Definition ends (m : IM ending) (w : world) : Prop := (m w).2 = Ended.
Lemma finishes_bind {A} (m : IM A) (k : A -> IM ending) w :
  keeps active m -> (forall x w', active w w' -> ends (k x) w') -> ends (m ≫= k) w.
Proof. intros Hm Hk. unfold ends. rewrite bind_eq. apply Hk, Hm. Qed.
Lemma ends_fin m w : ends (fin m) w.
Proof. unfold ends, fin. by rewrite bind_eq. Qed.
Lemma ends_exit m status w : (forall w', active w w' -> ends m w') -> ends (imap_handle_exit m status) w.
Proof.
  intros E. unfold imap_handle_exit. destruct (_ =? -1); [apply ends_fin|]. destruct (_ =? 0).
  2:{ repeat (case_match; [apply ends_fin|]). done. }
  assert (forall w1, active w w1 -> ends (s ← self; if bool_decide (read_buffer (ci s) = []) then mret Ended else m) w1) as E1.
  { intros w1 A. apply finishes_bind; [keep|intros s w2 B]. case_bool_decide; [done|]. apply E. by etransitivity. }
  unfold imap_handle_continue. apply finishes_bind; [keep|intros s w1 A].
  assert (forall w2, active w w2 -> ends
    (s ← self;
     when (bool_decide (write_buffer_offset (ci s) < length (default [] (write_buffer (ci s))))%nat)
       (_ ← run_ci (fun c => ci_write_msg c None); skip);;
     when (command_state s =? TRUE) imap_session_reset;;
     s ← self; if bool_decide (read_buffer (ci s) = []) then mret Ended else m) w2) as E2.
  { intros w2 B. apply finishes_bind; [keep|intros s2 w3 C]. do 2 (apply finishes_bind; [keep|intros ???]). apply E1.
    by do 3 (etransitivity; [eassumption|]). }
  destruct (_ <? _).
  - case_bool_decide; [by apply E2|]. apply finishes_bind; [keep|intros e w2 B]. destruct (e <? 0); [apply ends_fin|].
    apply finishes_bind; [keep|intros _ w3 C]. apply E2. by do 2 (etransitivity; [eassumption|]).
  - apply finishes_bind; [keep|intros _ w2 B]. apply E1. by etransitivity.
Qed.

(** The worlds behind a pass. *)
Lemma backlog_active w w' : active w w' -> (backlog w' <= backlog w)%nat.
Proof. intros A. apply (a_reads _ _ A). Qed.

Lemma input_loop_ends fuel w : pool w = None -> (backlog w < fuel)%nat -> ends (input_loop fuel) w.
Proof.
  revert w. induction fuel as [|fuel IH]; intros w P L; [lia|]. unfold ends. cbn [input_loop]. rewrite bind_eq.
  destruct (input_pass_ok w P) as [[A LA]|[-> _]]; [|done].
  assert (pool (input_pass w).1 = None) as P1 by by rewrite (a_pool _ _ A).
  unfold backlog in *. destruct ((input_pass w).2) eqn:R; [|done|]; specialize (LA ltac:(done)).
  - apply IH; [done|lia].
  - apply ends_exit. intros w1 B. apply finishes_bind; [keep|intros go w2 C]. destruct go; [|done].
    apply IH; [by rewrite (a_pool _ _ C), (a_pool _ _ B)|].
    pose proof (backlog_active _ _ B). pose proof (backlog_active _ _ C). unfold backlog in *. lia.
Qed.
Lemma input_loop_fuel f1 f2 w :
  pool w = None -> (backlog w < f1)%nat -> (backlog w < f2)%nat -> input_loop f1 w = input_loop f2 w.
Proof.
  revert f2 w. induction f1 as [|f1 IH]; intros f2 w P L1 L2; [lia|]. destruct f2 as [|f2]; [lia|]. cbn [input_loop].
  rewrite !bind_eq. destruct (input_pass_ok w P) as [[A L]|[-> _]]; [|done].
  assert (pool (input_pass w).1 = None) as P1 by by rewrite (a_pool _ _ A).
  unfold backlog in *. destruct ((input_pass w).2) eqn:R; [|done|]; specialize (L ltac:(done)).
  - apply IH; [done|lia..].
  - apply handle_exit_ext. intros w1 B. apply bind_ext; [keep|intros go w2 C].
    destruct go; [|done]. pose proof (backlog_active _ _ B). pose proof (backlog_active _ _ C). unfold backlog in *.
    apply IH; [by rewrite (a_pool _ _ C), (a_pool _ _ B)|lia..].
Qed.

(** C22. The work on the buffered input ends by itself: the loop, its calls of itself through the
    end of a command included, never uses up its bound, which is one pass for every unread byte
    and one more, and a larger bound changes nothing. *)
Theorem imap_input_terminates w fuel :
  pool w = None -> (backlog w < fuel)%nat ->
  (imap_handle_input w).2 = Ended /\ handle_input fuel w = imap_handle_input w.
Proof.
  intros P L. unfold imap_handle_input, handle_input. rewrite (bind_self _ w). split.
  - apply finishes_bind; [keep|intros go w1 A]. destruct go; [|done].
    apply input_loop_ends; [by rewrite (a_pool _ _ A)|]. pose proof (backlog_active _ _ A). unfold backlog, input_fuel in *. lia.
  - apply bind_ext; [keep|intros go w1 A]. destruct go; [|done]. pose proof (backlog_active _ _ A).
    apply input_loop_fuel; [by rewrite (a_pool _ _ A)|lia|unfold backlog, input_fuel in *; lia].
Qed.
End facts.

(** ** A session *)
Lemma example_reachable input n w : example_run input n = Some w -> reachable w.
Proof.
  unfold example_run. generalize (example_events n). intros es. apply reachable_handle_all. unfold example_start. exact (reach_start _ _ _ _ _ _ _ _ _).
Qed.

Definition example_login : cstr := lit "a LOGIN joe secret" ++ crlf ++ lit "b NOOP" ++ crlf.

(** What can be computed of the end of a run. *)
Lemma run_find {A} (o : option A) (P : A -> bool) :
  match o with Some x => P x | None => false end = true -> exists x, o = Some x /\ P x = true.
Proof. destruct o as [x|]; [|done]. by exists x. Qed.

(** After the login the second command waits for a worker. *)
Lemma imap_authenticated_witness :
  exists w, example_run example_login 1 = Some w /\ state (session w) = CLIENTSTATE_AUTHENTICATED /\
    exists cram u p v,
      auth_validate cram (clientsock (session w)) u p = Some v /\ valid v = 1 /\ user_idnr v = userid (session w).
Proof.
  destruct (run_find (example_run example_login 1) (fun w => state (session w) =? CLIENTSTATE_AUTHENTICATED)) as (w & E & S);
    [vm_compute; reflexivity|].
  apply Z.eqb_eq in S. exists w. split; [exact E|]. split; [exact S|].
  apply imap_authenticated; [exact (example_reachable _ _ _ E)|]. left; left. exact S.
Defined.

Lemma imap_one_command_witness :
  exists w, example_run example_login 1 = Some w /\ in_progress w = 1%nat /\ handle EvRead w = None.
Proof.
  destruct (run_find (example_run example_login 1) (fun w => in_progress w =? 1)%nat) as (w & E & P);
    [vm_compute; reflexivity|].
  apply Nat.eqb_eq in P. exists w. split; [exact E|]. split; [exact P|].
  destruct (imap_one_command w) as (_ & C & _); [exact (example_reachable _ _ _ E)|]. apply C; [exact P|by left].
Defined.

Lemma imap_completes_witness :
  exists w, example_run example_login 1 = Some w /\ in_progress w = 1%nat /\
    exists es w', Forall job_event es /\ (length es <= 2 * backlog w + 3)%nat /\ handle_all es w = Some w' /\
      pool w' = None /\ queue w' = [] /\
      (deleted w' = true \/ attended (CLIENTSTATE_LOGOUT <= state (session w')) (ci (session w'))).
Proof.
  destruct (run_find (example_run example_login 1) (fun w => in_progress w =? 1)%nat) as (w & E & P);
    [vm_compute; reflexivity|].
  apply Nat.eqb_eq in P. exists w. split; [exact E|]. split; [exact P|].
  destruct (imap_completes w) as (es & w' & F & L & H & R1 & R2 & C); [exact (example_reachable _ _ _ E)|].
  exists es, w'. repeat (split; [assumption|]). by apply C.
Defined.

Lemma imap_input_terminates_witness :
  let w := (updci ci_read_cb (example_start example_login)).1 in
  (imap_handle_input w).2 = Ended /\ handle_input 100 w = imap_handle_input w.
Proof. intros w. apply imap_input_terminates; [vm_compute; reflexivity|apply Nat.ltb_lt; vm_compute; reflexivity]. Defined.
