(* ===== verification/ImapCommandFacts.v ===== *)
(** * IMAP commands: what they check before they act

    A command in a state that it is not meant for changes nothing; a mailbox can only be
    selected with the right to read it. *)
From S2P Require Import Prelude.
From S2P Require Import CLib.
From S2P Require Import GLib.
From S2P Require Import Tree.
From S2P Require Import DmString.
From S2P Require Import ListT.
From S2P Require Import ClientBase.
From S2P Require Import ClientFrame.
From S2P Require Import ClientSession.
From S2P Require Import GListUtil.
From S2P Require Import MailboxState.
From S2P Require Import MiscText.
From S2P Require Import Acl.
From S2P Require Import Cidr.
From S2P Require Import Capa.
From S2P Require Import Auth.
From S2P Require Import AuthExample.
From S2P Require Import ImapText.
From S2P Require Import ImapSession.
From S2P Require Import ImapTokenizer.
From S2P Require Import ImapMailbox.
From S2P Require Import ImapCommands.
From S2P Require Import ImapFolders.
From S2P Require Import Mime.
From S2P Require Import ImapFetch.
From S2P Require Import ImapMessages.
From S2P Require Import ImapDispatch.
From S2P Require Import ImapServer.
From S2P Require Import ImapExample.
From S2P Require Import ImapFrame.
From S2P Require Import ImapKeeps.

Section checks.
Context `{ImapDB} `{!ImapStore} `{!ImapSearch} `{!FetchDB} `{GMimeLib} `{GLibStr} `{ServerConf} `{ImapConf} `{GLibBase64} `{Digests}
  `{AuthTables} `{SocketLib} `{AuthNames}.
Abbreviation st w := (state (session w)).

(** What the client has been told: what waits in the queue and in the response buffer. *)
Definition item_text (q : qitem) : cstr := match q with QMessage t => t | _ => [] end.
Definition said (w : world) : cstr := concat (item_text <$> queue w) ++ buff (session w).

(** Nothing but the answer is different. *)
Record inert (w w' : world) : Prop := {
  i_db : wdb w' = wdb w;
  i_pool : pool w' = pool w;
  i_deleted : deleted w' = deleted w;
  i_state : st w' = st w;
  i_user : userid (session w') = userid (session w);
  i_mailbox : mailbox (session w') = mailbox (session w);
  i_mbxinfo : mbxinfo (session w') = mbxinfo (session w);
  i_queue : exists ts, queue w' = queue w ++ (QMessage <$> ts);
}.
#[local] Instance inert_preorder : PreOrder inert.
Proof.
  split.
  - intros w. split; try done. exists []. by rewrite app_nil_r.
  - intros w1 w2 w3 [A1 A2 A3 A4 A5 A6 A7 (ts & A8)] [B1 B2 B3 B4 B5 B6 B7 (us & B8)]. split; try congruence.
    exists (ts ++ us). by rewrite B8, A8, fmap_app, app_assoc.
Qed.
Lemma inert_upd f :
  (forall s, state (f s) = state s /\ userid (f s) = userid s /\ mailbox (f s) = mailbox s /\ mbxinfo (f s) = mbxinfo s) ->
  keeps inert (upd f).
Proof. intros Hf w. destruct (Hf (session w)) as (A & B & C & D). split; try done. exists []. by rewrite app_nil_r. Qed.
Hint Extern 2 (keeps inert (upd _)) => (apply inert_upd; intros ?; repeat split) : keeps.
Hint Extern 2 (keeps inert (updci _)) => (apply inert_upd; intros ?; repeat split) : keeps.
Lemma inert_push t : keeps inert (push (QMessage t)).
Proof. intros w. split; try done. by exists [t]. Qed.
Hint Resolve inert_push : keeps.

Lemma said_flush w : said (dbmail_imap_session_buff_flush w).1 = said w.
Proof.
  unfold dbmail_imap_session_buff_flush. rewrite bind_self. destruct (_ <=? _); [done|]. case_bool_decide; [done|].
  rewrite bind_eq. unfold said, upd, push. simpl. rewrite fmap_app, concat_app, app_nil_r. simpl. by rewrite app_nil_r.
Qed.
Lemma said_printf t w : said (buff_printf t w).1 = said w ++ t.
Proof.
  unfold buff_printf. rewrite bind_eq, bind_self. unfold when.
  assert (said (upd (fun s => s <| buff ::= fun b => b ++ t |>) w).1 = said w ++ t) as E by (unfold said, upd; simpl; by rewrite app_assoc).
  case_bool_decide; [by rewrite said_flush|exact E].
Qed.
Lemma said_BAD t w : said (BAD t w).1 = said w ++ tag_str (session w) ++ lit " BAD " ++ t ++ crlf.
Proof. unfold BAD. rewrite bind_self. apply said_printf. Qed.

(** ** Commands in a state they are not meant for *)

(** The state a command needs. *)
Definition required_state (j : nat) : Z :=
  if existsb (Nat.eqb j) [IMAP_COMM_CAPABILITY; IMAP_COMM_NOOP; IMAP_COMM_LOGOUT; IMAP_COMM_STARTTLS; IMAP_COMM_ID] then CLIENTSTATE_ANY
  else if existsb (Nat.eqb j) [IMAP_COMM_AUTH; IMAP_COMM_LOGIN] then CLIENTSTATE_NON_AUTHENTICATED
  else if existsb (Nat.eqb j) [IMAP_COMM_CHECK; IMAP_COMM_CLOSE; IMAP_COMM_EXPUNGE; IMAP_COMM_SEARCH; IMAP_COMM_FETCH;
                          IMAP_COMM_STORE; IMAP_COMM_COPY; IMAP_COMM_UID; IMAP_COMM_SORT; IMAP_COMM_THREAD; IMAP_COMM_UNSELECT]
  then CLIENTSTATE_SELECTED
  else CLIENTSTATE_AUTHENTICATED.

(** The command is refused. *)
Record refused (w w' : world) (r : Z) : Prop := {
  rf_result : r = 1;
  rf_inert : inert w w';
  rf_answer : st w <> CLIENTSTATE_ERROR -> exists t, said w' = said w ++ tag_str (session w) ++ lit " BAD " ++ t ++ crlf;
}.
Lemma inert_BAD t : keeps inert (BAD t).
Proof. keep. Qed.
Lemma refused_BAD w t : refused w (BAD t w).1 1.
Proof. split; [done|apply inert_BAD|]. intros _. exists t. apply said_BAD. Qed.
Lemma check_refused minargs maxargs required w :
  state_allowed required (st w) = false ->
  exists w', check_state_and_args minargs maxargs required w = (w', false) /\ refused w w' 1.
Proof.
  intros N. unfold check_state_and_args. rewrite bind_self. destruct (_ =? _) eqn:E.
  - to_prop. exists w. split; [done|]. split; [done|reflexivity|by intros X].
  - rewrite N. cbn [negb]. rewrite bind_eq.
    match goal with |- context [BAD ?t w] => exists (BAD t w).1 end. split; [reflexivity|apply refused_BAD].
Qed.
Definition refuses (w : world) (m : IM Z) : Prop := refused w (m w).1 (m w).2.
Lemma checked_refused minargs maxargs required k w :
  state_allowed required (st w) = false -> refuses w (checked minargs maxargs required k).
Proof.
  intros N. unfold refuses, checked. destruct (check_refused minargs maxargs required w N) as (w' & E & R).
  rewrite bind_eq, E. exact R.
Qed.

Lemma handler_eq j m : imap_handler_functions !! j = Some m -> handler j = m.
Proof. unfold handler. by intros ->. Qed.
Lemma seq_refused (m : IM unit) w : refused w (m w).1 1 -> refuses w (m;; mret 1).
Proof. unfold refuses. rewrite bind_eq. by destruct (m w). Qed.
Lemma BAD_refused t w : refuses w (BAD t;; mret 1).
Proof. apply seq_refused, refused_BAD. Qed.
Lemma self_refused (k : ImapSession -> IM Z) w : refuses w (k (session w)) -> refuses w (self ≫= k).
Proof. done. Qed.

(** One entry of the table. *)
Ltac refuse N :=
  first [ by (unfold required_state, state_allowed in N; simpl in N) | exact (checked_refused _ _ _ _ _ N)
        | apply self_refused; cbv beta zeta; first [exact (checked_refused _ _ _ _ _ N) | case_match; exact (checked_refused _ _ _ _ _ N)] ].

Lemma uid_refused w : state_allowed (required_state IMAP_COMM_UID) (st w) = false -> refuses w (handler IMAP_COMM_UID).
Proof.
  intros N. rewrite (handler_eq IMAP_COMM_UID _ic_uid) by reflexivity. apply self_refused.
  unfold required_state, state_allowed in N. simpl in N. rewrite orb_false_r in N. rewrite N. apply BAD_refused.
Qed.
Lemma refuses_all j w :
  (IMAP_COMM_NONE < j < IMAP_COMM_LAST)%nat -> j <> IMAP_COMM_THREAD ->
  state_allowed (required_state j) (st w) = false -> refuses w (handler j).
Proof.
  intros L T N. destruct (decide (j = IMAP_COMM_UID)) as [->|U]; [by apply uid_refused|].
  unfold IMAP_COMM_NONE, IMAP_COMM_LAST, IMAP_COMM_THREAD, IMAP_COMM_UID in *.
  do 40 (destruct j as [|j]; [first [exfalso; lia|erewrite handler_eq by reflexivity; refuse N]|]). lia.
Qed.

(** C23. A command other than THREAD that the state of the session does not allow returns 1 and
    changes neither the data base nor the state, the user, the selected mailbox or the mailbox
    states of the session, and starts no job; unless the session is in its error state, the client
    is told BAD with the tag of the command. (THREAD looks at its first argument before the state.) *)
Theorem imap_command_refused j w :
  (IMAP_COMM_NONE < j < IMAP_COMM_LAST)%nat -> j <> IMAP_COMM_THREAD ->
  state_allowed (required_state j) (st w) = false -> refused w (handler j w).1 (handler j w).2.
Proof.
  intros L T N. exact (refuses_all j w L T N).
Qed.

(** ** Selecting a mailbox *)

(** The equations of the operations on a known world. *)
Lemma run_db_eq {A} (f : db -> db * A) w d x : f (wdb w) = (d, x) -> run_db f w = (w <| wdb := d |>, x).
Proof. unfold run_db. by intros ->. Qed.
Lemma upd_eq f w : upd f w = (w <| session ::= f |>, tt).
Proof. done. Qed.
Lemma bind_run {A B} (m : IM A) (k : A -> IM B) w w' x : m w = (w', x) -> (m ≫= k) w = k x w'.
Proof. intros E. by rewrite bind_eq, E. Qed.
Lemma on_state_eq {A} p (f : MailboxDB -> MailboxState_T -> MailboxState_T * A) w M N x :
  mbxinfo (session w) !! p.1 = Some (p.2, M) -> f (mailbox_answers (wdb w)) M = (N, x) ->
  on_state p f w = (w <| session ::= fun s => s <| mbxinfo ::= <[p.1 := (p.2, N)]> |> |>, x).
Proof.
  intros L E. unfold on_state. rewrite bind_self. rewrite (bind_run database _ w w (wdb w)) by done.
  rewrite L, E, Nat.eqb_refl. done.
Qed.
(** The state of a mailbox that the session does not have yet is loaded. *)
Lemma lookup_loads w id M :
  selected_state (session w) id = None -> mbxinfo (session w) !! id = None -> id <> 0 ->
  MailboxState_new (wdb w) id = Some M ->
  dbmail_imap_session_mbxinfo_lookup id w =
    (w <| session ::= fun s => s <| mbxinfo ::= <[id := (generation s, M)]> |> <| generation ::= S |> |>,
     (id, generation (session w))).
Proof.
  intros S L N E. unfold dbmail_imap_session_mbxinfo_lookup. rewrite bind_self, S, L. unfold load_state, cache_state.
  rewrite (bind_run _ _ w w M); [done|]. rewrite (bind_run database _ w w (wdb w)) by done.
  by rewrite (proj2 (Z.eqb_neq _ _) N), E.
Qed.

(** What the rest of SELECT leaves alone. *)
Definition same_selection (w w' : world) : Prop :=
  st w' = st w /\ mbx_id <$> mailbox (session w') = mbx_id <$> mailbox (session w).
#[local] Instance same_selection_preorder : PreOrder same_selection.
Proof. split; [by intros w|]. intros w1 w2 w3 [A B] [C D]. split; congruence. Qed.
Lemma same_selection_upd f :
  (forall s, state (f s) = state s /\ mbx_id <$> mailbox (f s) = mbx_id <$> mailbox s) -> keeps same_selection (upd f).
Proof. intros Hf w. apply Hf. Qed.
Hint Extern 2 (keeps same_selection (upd _)) =>
  (apply same_selection_upd; intros s; split; [done|simpl; try by destruct (mailbox s)]) : keeps.
Hint Extern 2 (keeps same_selection (updci _)) => (by apply same_selection_upd) : keeps.
Lemma same_selection_push t : keeps same_selection (push t).
Proof. by intros w. Qed.
Lemma same_selection_db {A} (f : db -> db * A) : keeps same_selection (run_db f).
Proof. intros w. unfold run_db. by destruct (f (wdb w)). Qed.
Hint Resolve same_selection_push same_selection_db : keeps.
Lemma same_selection_on_state {A} p (f : MailboxDB -> MailboxState_T -> MailboxState_T * A) : keeps same_selection (on_state p f).
Proof. unfold on_state. keep. Qed.
Hint Resolve same_selection_on_state : keeps.
Lemma same_selection_updates p l : keeps same_selection (fetch_updates p l).
Proof. induction l; simpl; keep. Qed.
Hint Resolve same_selection_updates : keeps.
Lemma same_selection_report p : keeps same_selection (qresync_report p).
Proof. unfold qresync_report. keep. Qed.

(** A computation with a known result. *)
Definition returns {A} (x : A) (m : IM A) : Prop := forall w, (m w).2 = x.
Lemma returns_bind {A B} (x : B) (m : IM A) k : (forall a, returns x (k a)) -> returns x (m ≫= k).
Proof. intros K w. rewrite bind_eq. apply K. Qed.

(** The session of the first SELECT: nothing is selected, no state is cached, and the name is
    the only argument. *)
Record fresh_select (w : world) (name : cstr) : Prop := {
  fs_state : st w = CLIENTSTATE_AUTHENTICATED;
  fs_mailbox : mailbox (session w) = None;
  fs_mbxinfo : mbxinfo (session w) = ∅;
  fs_args : exists rest, args (session w) = Some name :: None :: rest;
  fs_idx : args_idx (session w) = 0%nat;
}.

(** The world in which the right to read was looked at: the mailbox is the selected one, and its
    state is in the cache. *)
Definition opened (w : world) (d : db) (id : Z) (M M' : MailboxState_T) : world :=
  w <| wdb := d |>
    <| session ::= fun s => s <| mailbox := Some (dbmail_mailbox_new id) |> |>
    <| session ::= fun s => s <| mbxinfo ::= <[id := (generation s, M)]> |> <| generation ::= S |> |>
    <| session ::= fun s => s <| mailbox ::= fmap (fun m => m <| mbx_state := Some (id, generation (session w)) |>) |> |>
    <| session ::= fun s => s <| mbxinfo ::= <[id := (generation (session w), M')]> |> |>.

Lemma set_state_same s0 w : st w = s0 -> dbmail_imap_session_set_state s0 w = (w, true).
Proof. intros E. unfold dbmail_imap_session_set_state. rewrite bind_self, E, Z.eqb_refl. done. Qed.

(** What is left of opening it, once the right to read was looked up. *)
Definition open_rest (s : ImapSession) (p : stateptr) (access : Z) : IM Z :=
  access ← acl_answer access;
  if access =? 1 then _ ← dbmail_imap_session_set_state CLIENTSTATE_AUTHENTICATED; mret DM_EGENERAL
  else
    upd_state p (fun _ M => MailboxState_setPermission M
      (if (command_type s =? IMAP_COMM_SELECT)%nat then IMAPPERM_READWRITE else IMAPPERM_READ));;
    M ← get_state p;
    if no_select M then mret DM_EGENERAL
    else
      upd_state p (fun d M => @MailboxState_build_recent _ d M);;
      upd_mailbox (fun m => m <| mbx_condstore := en_condstore s |> <| mbx_qresync := en_qresync s |>);;
      mret 0.

Lemma mailbox_open_checks w name d found id M M' access :
  fresh_select w name -> db_findmailbox (wdb w) name (userid (session w)) = (d, (found, id)) -> id <> 0 ->
  MailboxState_new d id = Some M ->
  acl_has_right (H0 := mailbox_answers d) M (userid (session w)) ACL_RIGHT_READ = (M', access) ->
  imap_session_mailbox_open name w = open_rest (session w) (id, generation (session w)) access (opened w d id M M').
Proof.
  intros [F1 F2 F3 F4 F5] E N L A. unfold imap_session_mailbox_open, upd_mailbox. rewrite (bind_self _ w).
  erewrite bind_run; [|apply run_db_eq, E]. cbn [fst snd]. rewrite (proj2 (Z.eqb_neq id 0) N). cbn [andb].
  set (w1 := w <| wdb := d |>). rewrite (bind_run _ _ w1 w1 (found, id)) by done. cbn [fst snd].
  rewrite (proj2 (Z.eqb_neq id 0) N). rewrite (bind_run _ _ _ _ _ (upd_eq _ _)).
  set (w2 := w1 <| session ::= _ |>). erewrite bind_run; [|apply (lookup_loads w2 id M); [done| |done|exact L]].
  2:{ unfold w2, w1; simpl. by rewrite F3. }
  rewrite (bind_run _ _ _ _ _ (upd_eq _ _)). set (w3 := _ <| session ::= _ |>).
  change (generation (session w2)) with (generation (session w)). unfold open_rest, upd_mailbox.
  match goal with |- (_ ≫= ?k1) _ = (_ ≫= ?k2) _ => generalize k1 end. intros k. rewrite !bind_eq.
  assert (mailbox_check_acl (id, generation (session w)) ACL_RIGHT_READ w3 = acl_answer access (opened w d id M M')) as ->; [|done].
  unfold mailbox_check_acl. rewrite bind_self.
  assert (mbxinfo (session w3) !! id = Some (generation (session w), M)) as L3 by (unfold w3, w2, w1; simpl; by rewrite lookup_insert_eq).
  erewrite bind_run; [|apply (on_state_eq (id, generation (session w)) _ w3 M M' access L3); exact A]. reflexivity.
Qed.

(** What the steps behind need to know of that world. *)
Record reads (w v : world) (id : Z) (g : nat) (M : MailboxState_T) : Prop := {
  rd_state : st v = CLIENTSTATE_AUTHENTICATED;
  rd_said : said v = said w;
  rd_tag : tag_str (session v) = tag_str (session w);
  rd_mailbox : mbx_id <$> mailbox (session v) = Some id;
  rd_state_of : mbxinfo (session v) !! id = Some (g, M);
}.
Lemma lookup_stored w id x :
  mbxinfo (session (w <| session ::= fun s => s <| mbxinfo ::= <[id := x]> |> |>)) !! id = Some x.
Proof. change (<[id := x]> (mbxinfo (session w)) !! id = Some x). apply lookup_insert_eq. Qed.
Lemma opened_reads w d id M M' :
  st w = CLIENTSTATE_AUTHENTICATED -> reads w (opened w d id M M') id (generation (session w)) M'.
Proof.
  intros E. split; [exact E|reflexivity|reflexivity|reflexivity|]. apply lookup_stored.
Qed.

Lemma said_NO t w : said (NO t w).1 = said w ++ tag_str (session w) ++ lit " NO " ++ t ++ crlf.
Proof. unfold NO. rewrite bind_self. apply said_printf. Qed.
Lemma same_selection_NO t : keeps same_selection (NO t).
Proof. keep. Qed.
Lemma acl_answer_denied v : acl_answer 0 v = ((NO (lit "permission denied") v).1, 1).
Proof. unfold acl_answer, no. cbn [Z.ltb Z.eqb Z.compare]. rewrite bind_eq. by destruct (NO _ v). Qed.
Lemma open_rest_denied s p w v id g M :
  reads w v id g M ->
  let '(v', r) := open_rest s p 0 v in
  r = DM_EGENERAL /\ same_selection v v' /\
  said v' = said w ++ tag_str (session w) ++ lit " NO permission denied" ++ crlf.
Proof.
  intros [R1 R2 R3 R4 R5]. unfold open_rest. rewrite (bind_run _ _ _ _ _ (acl_answer_denied v)).
  pose proof (same_selection_NO (lit "permission denied") v) as K. pose proof (said_NO (lit "permission denied") v) as S.
  destruct (NO (lit "permission denied") v) as [v1 []]. cbn [fst snd Z.eqb Pos.eqb] in *.
  rewrite (bind_run _ _ _ _ _ (set_state_same CLIENTSTATE_AUTHENTICATED v1 ltac:(destruct K; congruence))).
  refine (conj eq_refl (conj K _)). by rewrite S, R2, R3.
Qed.
Lemma get_state_eq id g M v : mbxinfo (session v) !! id = Some (g, M) ->
  exists v', get_state (id, g) v = (v', M) /\ same_selection v v' /\ mbxinfo (session v') !! id = Some (g, M).
Proof.
  intros L. eexists. split; [eapply on_state_eq; [exact L|done]|]. split; [done|]. apply lookup_stored.
Qed.
Lemma upd_state_eq id g f M v : mbxinfo (session v) !! id = Some (g, M) ->
  exists v', upd_state (id, g) f v = (v', tt) /\ same_selection v v' /\
             mbxinfo (session v') !! id = Some (g, f (mailbox_answers (wdb v)) M).
Proof.
  intros L. eexists. split; [eapply on_state_eq; [exact L|done]|]. split; [done|]. apply lookup_stored.
Qed.
Definition same_states (w w' : world) : Prop := same_selection w w' /\ mbxinfo (session w') = mbxinfo (session w).
#[local] Instance same_states_preorder : PreOrder same_states.
Proof. split; [by intros w|]. intros w1 w2 w3 [A B] [C D]. split; [by etransitivity|congruence]. Qed.
Hint Extern 2 (keeps same_states (updci _)) => (by intros ?) : keeps.
Hint Extern 2 (keeps same_states (upd _)) => (by intros ?) : keeps.
Lemma same_states_push t : keeps same_states (push t).
Proof. by intros w. Qed.
Hint Resolve same_states_push : keeps.
Lemma answer_granted access : access <> 0 -> keeps same_states (acl_answer access) /\ forall v, (acl_answer access v).2 <> 1.
Proof.
  intros N. unfold acl_answer. rewrite (proj2 (Z.eqb_neq access 0) N). destruct (access <? 0).
  - unfold bye. split; [keep|]. intros v. rewrite bind_eq. done.
  - split; [keep|done].
Qed.
Lemma open_rest_granted s access w v id g M :
  access <> 0 -> reads w v id g M ->
  let '(v', r) := open_rest s (id, g) access v in
  r = (if no_select M then DM_EGENERAL else 0) /\ same_selection v v'.
Proof.
  intros N [R1 R2 R3 R4 R5]. destruct (answer_granted access N) as [K U]. unfold open_rest.
  rewrite bind_eq. specialize (K v). specialize (U v). destruct (acl_answer access v) as [v1 a]. cbn [fst snd] in *.
  destruct K as [S1 I1]. rewrite (proj2 (Z.eqb_neq a 1) U). rewrite <- I1 in R5.
  destruct (upd_state_eq id g (fun _ M => MailboxState_setPermission M
      (if (command_type s =? IMAP_COMM_SELECT)%nat then IMAPPERM_READWRITE else IMAPPERM_READ)) M v1 R5) as (v2 & E2 & S2 & I2).
  rewrite (bind_run _ _ _ _ _ E2).
  destruct (get_state_eq _ _ _ _ I2) as (v3 & E3 & S3 & I3). rewrite (bind_run _ _ _ _ _ E3).
  assert (same_selection v v3) as S by (etransitivity; [exact S1|etransitivity; [exact S2|exact S3]]).
  change (no_select (MailboxState_setPermission M _)) with (no_select M). destruct (no_select M); [done|].
  destruct (upd_state_eq id g (fun d M => @MailboxState_build_recent _ d M) _ v3 I3) as (v4 & E4 & S4 & I4).
  rewrite (bind_run _ _ _ _ _ E4). unfold upd_mailbox. rewrite (bind_run _ _ _ _ _ (upd_eq _ _)). split; [done|].
  etransitivity; [exact S|]. etransitivity; [exact S4|]. split; [done|].
  unfold set_field. simpl. by destruct (mailbox (session v4)).
Qed.

(** Entering the selected state. *)
Lemma set_state_selected w : st w = CLIENTSTATE_AUTHENTICATED ->
  exists v, dbmail_imap_session_set_state CLIENTSTATE_SELECTED w = (v, false) /\ st v = CLIENTSTATE_SELECTED /\
            mailbox (session v) = mailbox (session w).
Proof.
  intros E. unfold dbmail_imap_session_set_state. rewrite bind_self, E. eexists. split; [reflexivity|]. done.
Qed.
(** C19. The first SELECT or EXAMINE of a session, for a mailbox that exists: if the check of the
    right to read it answers no, the client is told NO and the session stays authenticated, with
    status 1; if it answers yes, or if its query fails, which the code takes for a yes, the session
    goes to the selected state with this mailbox, unless the mailbox cannot be selected, in which
    case the status is 1 and there is no answer at all. *)
Theorem imap_select_right w name d found id M M' access :
  fresh_select w name -> db_findmailbox (wdb w) name (userid (session w)) = (d, (found, id)) -> id <> 0 ->
  MailboxState_new d id = Some M ->
  acl_has_right (H0 := mailbox_answers d) M (userid (session w)) ACL_RIGHT_READ = (M', access) ->
  let '(w', r) := _ic_select_enter w in
  if access =? 0 then
    r = 1 /\ st w' = CLIENTSTATE_AUTHENTICATED /\
    said w' = said w ++ tag_str (session w) ++ lit " NO permission denied" ++ crlf
  else if no_select M' then
    r = 1 /\ st w' = CLIENTSTATE_AUTHENTICATED
  else
    r = 0 /\ st w' = CLIENTSTATE_SELECTED /\ mbx_id <$> mailbox (session w') = Some id.
Proof.
  intros F E N L A. unfold _ic_select_enter. pose proof (mailbox_open_checks _ _ _ _ _ _ _ _ F E N L A) as O.
  destruct F as [F1 F2 F3 (rest & F4) F5].
  rewrite (bind_run _ _ w w false).
  2:{ unfold _ic_select_parse_args. by rewrite bind_self, F4. }
  rewrite (bind_run imap_session_mailbox_close _ w w tt).
  2:{ unfold imap_session_mailbox_close. rewrite (bind_run _ _ _ _ _ (set_state_same _ _ F1)), bind_self, F2. done. }
  rewrite (bind_run arg0 _ w w name).
  2:{ unfold arg0, arg_str. rewrite bind_self, F5. rewrite bind_self. unfold arg_at. by rewrite F4. }
  rewrite bind_eq, O. clear O. pose proof (opened_reads w d id M M' F1) as R.
  generalize dependent (opened w d id M M'). intros v R. destruct (Z.eqb_spec access 0) as [->|NA].
  { pose proof (open_rest_denied (session w) (id, generation (session w)) _ _ _ _ _ R) as D.
    destruct (open_rest _ _ _ _) as [v1 r]. destruct D as (-> & [S _] & T). cbn [fst snd]. 
    split; [done|]. split; [|exact T]. change (st v1 = CLIENTSTATE_AUTHENTICATED). rewrite S. apply R. }
  pose proof (open_rest_granted (session w) access w v id _ M' NA R) as G.
  destruct (open_rest _ _ _ _) as [v1 r]. destruct G as (-> & [S1 S2]). cbn [fst snd].
  rewrite (rd_state _ _ _ _ _ R) in S1. rewrite (rd_mailbox _ _ _ _ _ R) in S2.
  destruct (no_select M'); [done|]. cbn [Z.eqb negb].
  destruct (set_state_selected v1 S1) as (v2 & E2 & T & X). rewrite (bind_run _ _ _ _ _ E2). rewrite <- X in S2.
  match goal with |- context [(mbstate ≫= ?k) v2] =>
    assert (keeps same_selection (mbstate ≫= k)) as K; [|assert (returns 0 (mbstate ≫= k)) as Z; [|generalize dependent (mbstate ≫= k)]]
  end.
  { pose proof same_selection_report. keep. }
  { repeat (apply returns_bind; intros ?). by intros x. }
  intros m K Z. specialize (K v2). specialize (Z v2). destruct (m v2) as [v3 r]. cbn [fst snd] in *.
  destruct K as [K1 K2]. split; [exact Z|]. split; congruence.
Qed.
End checks.

(** A session in which joe has logged in and sends SELECT with the name of a mailbox. *)
Definition example_select (name : cstr) : world :=
  (example_start []) <| session ::= fun s => s <| state := CLIENTSTATE_AUTHENTICATED |> <| userid := 7 |>
    <| tag := lit "a" |> <| command_type := IMAP_COMM_SELECT |> <| args := [Some name; None] |> |>.
Definition example_mailbox (id : Z) : MailboxState_T := default MailboxState_zero (example_state example_db id).
Definition example_access (id : Z) : MailboxState_T * Z :=
  acl_has_right (H0 := mailbox_answers example_db) (example_mailbox id) 7 ACL_RIGHT_READ.
Lemma example_fresh name : fresh_select (example_select name) name.
Proof. by split; try done; exists []. Qed.

Lemma imap_command_refused_witness :
  state (session (handler IMAP_COMM_SELECT (example_start [])).1) = CLIENTSTATE_NON_AUTHENTICATED.
Proof.
  pose proof (imap_command_refused IMAP_COMM_SELECT (example_start []) ltac:(unfold IMAP_COMM_NONE, IMAP_COMM_LAST, IMAP_COMM_SELECT; lia)
    ltac:(done) ltac:(vm_compute; reflexivity)) as R.
  exact (i_state _ _ (rf_inert _ _ _ R)).
Defined.

Lemma imap_select_right_witness :
  (exists w', _ic_select_enter (example_select (lit "INBOX")) = (w', 0) /\ state (session w') = CLIENTSTATE_SELECTED) /\
  (exists w', _ic_select_enter (example_select (lit "other")) = (w', 1) /\ state (session w') = CLIENTSTATE_AUTHENTICATED).
Proof.
  split.
  - pose proof (imap_select_right (example_select (lit "INBOX")) (lit "INBOX") example_db 1 4 (example_mailbox 4)
      (example_access 4).1 (example_access 4).2 (example_fresh _) eq_refl ltac:(done) eq_refl (surjective_pairing _)) as R.
    destruct (_ic_select_enter _) as [w' r]. exists w'.
    assert ((example_access 4).2 = 1 /\ no_select (example_access 4).1 = false) as [E F] by (split; vm_compute; reflexivity).
    rewrite E, F in R. by destruct R as (-> & R & _).
  - pose proof (imap_select_right (example_select (lit "other")) (lit "other") example_db 1 5 (example_mailbox 5)
      (example_access 5).1 (example_access 5).2 (example_fresh _) eq_refl ltac:(done) eq_refl (surjective_pairing _)) as R.
    destruct (_ic_select_enter _) as [w' r]. exists w'.
    assert ((example_access 5).2 = 0) as E by (vm_compute; reflexivity).
    rewrite E in R. by destruct R as (-> & R & _).
Defined.
