(* ===== verification/ImapFetchFacts.v ===== *)
(** * FETCH: what its parser and its formatter do

    The items of FETCH are read as they were meant, up to the first octet range; a FETCH whose
    items only peek leaves the data base alone; the literals of the response. *)
From S2P Require Import Prelude CLib GLib Tree ListT ClientBase ClientSession GListUtil MailboxState MiscText Acl Cidr Capa Auth.
From S2P Require Import AuthExample ImapText Mime ImapSession ImapTokenizer ImapMailbox ImapFetch ImapCommands ImapFolders ImapMessages.
From S2P Require Import ImapDispatch ImapServer ImapExample ImapFrame ImapKeeps ImapCommandFacts.

(** ** The items that a client can ask for *)
Inductive section_text := SAll | SText | SHeader | SMime | SFields (not : bool) (names : list cstr).
Inductive fetch_item :=
  | ISimple (name : cstr)
  | IBody
  | ITotal (peek : bool)
  | ISection (peek : bool) (part : list Z) (t : section_text).

Definition body_name (peek : bool) : cstr := if peek then lit "BODY.PEEK" else lit "BODY".
Definition part_dots (part : list Z) : cstr := concat ((fun n => dec_of n ++ lit ".") <$> part).
(** The part number of a section: with a dot at its end if a text follows. *)
Definition part_text (part : list Z) (t : section_text) : cstr :=
  match t with SAll => take (length (part_dots part) - 1) (part_dots part) | _ => part_dots part end.
Definition text_name (t : section_text) : cstr :=
  match t with
  | SAll => [] | SText => lit "TEXT" | SHeader => lit "HEADER" | SMime => lit "MIME"
  | SFields false _ => lit "HEADER.FIELDS" | SFields true _ => lit "HEADER.FIELDS.NOT"
  end.
Definition text_args (t : section_text) : list cstr :=
  match t with SFields _ names => lit "(" :: names ++ [lit ")"] | _ => [] end.
(** The arguments that the tokenizer makes of an item. *)
Definition item_args (i : fetch_item) : list cstr :=
  match i with
  | ISimple name => [name]
  | IBody => [lit "BODY"]
  | ITotal peek => [body_name peek; lit "["; lit "]"]
  | ISection peek part t => [body_name peek; lit "["; part_text part t ++ text_name t] ++ text_args t ++ [lit "]"]
  end.
Definition items_args (l : list fetch_item) : list cstr := concat (item_args <$> l).

Definition text_wf (part : list Z) (t : section_text) : Prop :=
  match t with
  | SAll | SMime => part <> []
  | SText | SHeader => True
  | SFields _ names => names <> [] /\ Forall (fun n => strcaseeq n (lit ")") = false) names
  end.
Definition item_wf (i : fetch_item) : Prop :=
  match i with
  | ISimple name => is_Some (simple_item name)
  | IBody | ITotal _ => True
  | ISection _ part t => Forall (fun n => 0 <= n < 2 ^ 64) part /\ (length (part_text part t) < IMAP_MAX_PARTSPEC_LEN)%nat /\ text_wf part t
  end.

(** What the items mean: their settings, for an item whose first argument has the number [at]. *)
Definition text_type (t : section_text) : body_item :=
  match t with
  | SAll => BFIT_ALL | SText => BFIT_TEXT | SHeader => BFIT_HEADER | SMime => BFIT_MIME
  | SFields false _ => BFIT_HEADER_FIELDS | SFields true _ => BFIT_HEADER_FIELDS_NOT
  end.
Definition section_body (idx : nat) (part : list Z) (t : section_text) : body_fetch :=
  let b := body_new <| itemtype := text_type t |> <| partspec := part_text part t |> in
  match t with SFields _ names => b <| argstart := (idx + 4)%nat |> <| argcnt := length names |> | _ => b end.
Definition add_body (b : body_fetch) (f : ImapSession.fetch_items) : ImapSession.fetch_items :=
  f <| bodyfetch ::= fmap (fun L => p_list_append L (Some b)) |>.
Definition item_sets (idx : nat) (i : fetch_item) (f : ImapSession.fetch_items) : ImapSession.fetch_items :=
  match i with
  | ISimple name => match simple_item name with Some g => g f | None => f end
  | IBody => add_body body_new f <| msgparse_needed := true |> <| getMIME_IMB_noextension := true |>
  | ITotal true => add_body body_new f <| msgparse_needed := true |> <| getBodyTotalPeek := true |>
  | ITotal false => add_body body_new f <| msgparse_needed := true |> <| getBodyTotal := true |>
  | ISection peek part t =>
      let f := add_body (section_body idx part t) f in
      let f := if peek then f <| noseen := true |> else f in
      match t with SFields _ _ => f | _ => f <| msgparse_needed := true |> end
  end.
Fixpoint items_set (idx : nat) (l : list fetch_item) (f : ImapSession.fetch_items) : ImapSession.fetch_items :=
  match l with
  | [] => f
  | i :: l => items_set (idx + length (item_args i)) l (item_sets idx i f)
  end.

(** A range of octets behind the last item. *)
Definition range_arg (r : Z * Z) : cstr := lit "<" ++ dec_of r.1 ++ lit "." ++ dec_of r.2 ++ lit ">".
Definition range_wf (r : Z * Z) : Prop := 0 <= r.1 < 2 ^ 64 /\ 0 <= r.2 < 2 ^ 63.
Definition takes_range (i : fetch_item) : Prop := match i with ITotal _ | ISection _ _ _ => True | _ => False end.
Definition set_range (r : Z * Z) (f : ImapSession.fetch_items) : ImapSession.fetch_items :=
  f <| msgparse_needed := true |>
    <| bodyfetch ::= fmap (fun L => p_list_update L (fun b => b <| octetstart := r.1 |> <| octetcnt := r.2 |>)) |>.

(** ** Texts *)
Lemma length_dec_aux k z acc : (length (dec_aux k z acc) <= k + length acc)%nat.
Proof.
  revert z acc. induction k as [|k IH]; intros z acc; cbn [dec_aux]; [done|]. cbv zeta.
  destruct (_ <? _); cbn [length]; [lia|]. specialize (IH (z / 10) (ascii_of_code (48 + z mod 10) :: acc)). cbn [length] in IH. lia.
Qed.
Lemma length_dec_of z : (length (dec_of z) <= 20)%nat.
Proof. exact (length_dec_aux 20 z []). Qed.
Lemma scan_digits ds t b :
  Forall (fun c => isdigit c = true) ds -> ds <> [] ->
  partspec_scan (ds ++ t) b = '(j, x) ← partspec_scan t true; Some ((length ds + j)%nat, x).
Proof.
  intros F. revert b. induction F as [|c ds Fc F IH]; intros b N; [done|]. cbn [app partspec_scan]. rewrite Fc.
  destruct ds as [|d ds].
  - cbn [app]. by destruct (partspec_scan t true) as [[]|].
  - rewrite IH by done. by destruct (partspec_scan t true) as [[]|].
Qed.
Lemma scan_dots part t :
  Forall (fun n => 0 <= n < 2 ^ 64) part ->
  partspec_scan (part_dots part ++ t) false = '(j, x) ← partspec_scan t false; Some ((length (part_dots part) + j)%nat, x).
Proof.
  induction 1 as [|n part Hn F IH]; [cbn; by destruct (partspec_scan t false) as [[]|]|].
  destruct (dec_of_digits n Hn) as (Fd & _ & N). unfold part_dots. rewrite fmap_cons. cbn [concat]. fold (part_dots part).
  rewrite <- !app_assoc, scan_digits by done. cbn [app lit String.list_ascii_of_string partspec_scan].
  replace (isdigit ".") with false by reflexivity. rewrite bool_decide_true by done. rewrite IH, !length_app. simpl.
  destruct (partspec_scan t false) as [[j x]|]; simpl; [|done]. do 2 f_equal. lia.
Qed.
Lemma part_dots_app p q : part_dots (p ++ q) = part_dots p ++ part_dots q.
Proof. unfold part_dots. by rewrite fmap_app, concat_app. Qed.
Lemma part_text_all init n : part_text (init ++ [n]) SAll = part_dots init ++ dec_of n.
Proof.
  unfold part_text. rewrite part_dots_app. replace (part_dots [n]) with (dec_of n ++ lit ".") by (unfold part_dots; cbn; by rewrite app_nil_r).
  rewrite app_assoc, take_app_length'; [done|]. rewrite (length_app _ (lit ".")). cbn. lia.
Qed.
(** The scan of a section finds its part number. *)
Lemma scan_section part t :
  Forall (fun n => 0 <= n < 2 ^ 64) part -> text_wf part t ->
  partspec_scan (part_text part t ++ text_name t) false = Some (length (part_text part t), match t with SAll => true | _ => false end) .
Proof.
  intros F W. destruct t as [| | | |[] names]; cbn [text_name].
  1: { destruct part as [|n init] using rev_ind; [done|]. clear IHinit. rewrite part_text_all, app_nil_r.
    apply Forall_app in F as [F Fn]. apply Forall_inv in Fn. destruct (dec_of_digits n Fn) as (Fd & _ & N).
    rewrite scan_dots by done. rewrite <- (app_nil_r (dec_of n)) at 1. rewrite scan_digits by done. simpl.
    rewrite length_app. do 2 f_equal. lia. }
  all: unfold part_text; rewrite scan_dots by done;
    match goal with |- context [partspec_scan ?x false] => replace (partspec_scan x false) with (Some (O, false)) by reflexivity end;
    simpl; do 2 f_equal; lia.
Qed.

Definition parsed_text (t : section_text) : bool := match t with SFields _ _ => false | _ => true end.
Lemma item_of_text t : item_of (text_name t) = Some (text_type t, parsed_text t).
Proof. by destruct t as [| | | |[] names]. Qed.
Lemma part_not_empty n part : length (part_dots (n :: part)) <> 0%nat.
Proof. unfold part_dots. rewrite fmap_cons. cbn [concat]. rewrite !length_app. cbn. lia. Qed.

(** An octet range is read back. *)
Lemma str_index_digits ds c t :
  Forall (fun c => isdigit c = true) ds -> isdigit c = false -> str_index (ds ++ c :: t) c = Some (length ds).
Proof.
  intros F N. induction F as [|d ds Fd F IH]; cbn [app str_index length]; [by rewrite bool_decide_true|].
  rewrite bool_decide_false by (intros ->; congruence). by rewrite IH.
Qed.
Lemma all_digits ds : Forall (fun c => isdigit c = true) ds -> forallb isdigit ds = true.
Proof. induction 1 as [|c ds Fc F IH]; [done|]. simpl. by rewrite Fc. Qed.
Lemma strtoll_dec_of z : 0 <= z < 2 ^ 63 -> wrap64 (strtoll (dec_of z)) = z.
Proof.
  intros Hz. destruct (dec_of_digits z) as (F & V & N); [lia|]. unfold strtoll, scan_int. destruct (dec_of z) as [|x s]; [done|].
  pose proof F as G. apply Forall_cons in G as [Fx _]. simpl drop_lead. rewrite (isdigit_not_space _ Fx).
  destruct (isdigit_not_sign _ Fx). rewrite !bool_decide_eq_false_2 by done. rewrite V. unfold wrap64. rewrite Z.mod_small; lia.
Qed.
Lemma octet_range_arg r : range_wf r -> octet_range (range_arg r) = Some r.
Proof.
  destruct r as [a b]. intros [A B]. cbn [fst snd] in *. unfold octet_range, range_arg. cbn [fst snd].
  destruct (dec_of_digits a) as (Fa & _ & Na); [lia|]. destruct (dec_of_digits b) as (Fb & _ & Nb); [lia|].
  assert (lit "<" ++ dec_of a ++ lit "." ++ dec_of b ++ lit ">" = ("<"%char :: dec_of a ++ "."%char :: dec_of b) ++ [">"%char]) as E
    by (cbn [app lit String.list_ascii_of_string]; by rewrite <- app_assoc).
  rewrite E, last_snoc, bool_decide_true by done. cbn [negb]. rewrite length_app.
  rewrite take_app_length' by (simpl; lia). cbn [skipn]. rewrite drop_0. unfold split_at.
  rewrite str_index_digits by done. simpl. rewrite take_app_length.
  assert (drop (S (length (dec_of a))) (dec_of a ++ "."%char :: dec_of b) = dec_of b) as D.
  { rewrite (cons_middle "."%char), app_assoc. apply drop_app_length'. rewrite length_app. simpl. lia. }
  rewrite D, !bool_decide_eq_false_2 by done. cbn [orb]. rewrite !all_digits by done. cbn [negb orb].
  by rewrite strtoull_dec_of, strtoll_dec_of by lia.
Qed.

(** ** The session while the items are read *)
Section parser.
Context `{ImapDB} `{!FetchDB} `{GLibStr} `{ServerConf} `{ImapConf} `{GMimeLib} `{AuthNames}.

(** The items [f] are read up to argument [i]. *)
Definition reading (w : world) (i : nat) (f : ImapSession.fetch_items) : world :=
  w <| session ::= fun s => s <| args_idx := i |> <| fetch ::= fun z => z <| fi := f |> |> |>.
Definition arg_is (w : world) (i : nat) (t : cstr) : Prop := arg_at (session w) i = Some t.

Lemma reading_self {A} (k : ImapSession -> IM A) w i f : (self ≫= k) (reading w i f) = k (session (reading w i f)) (reading w i f).
Proof. done. Qed.
Lemma reading_items {A} (k : ImapSession.fetch_items -> IM A) w i f : (the_items ≫= k) (reading w i f) = k f (reading w i f).
Proof. done. Qed.
Lemma reading_upd {A} g (k : unit -> IM A) w i f : (upd_items g ≫= k) (reading w i f) = k tt (reading w i (g f)).
Proof. done. Qed.
Lemma reading_next {A} (k : unit -> IM A) w i f : (next_arg ≫= k) (reading w i f) = k tt (reading w (S i) f).
Proof. done. Qed.
Lemma reading_arg {A} (k : cstr -> IM A) w i f j t : arg_is w j t -> (arg_str j ≫= k) (reading w i f) = k t (reading w i f).
Proof.
  intros E. apply bind_run. unfold arg_str. rewrite reading_self. change (arg_at (session (reading w i f)) j) with (arg_at (session w) j).
  by rewrite E.
Qed.
(** The last body_fetch of [f] is [b]. *)
Definition ends_with (f : ImapSession.fetch_items) (L : plist body_fetch) (b : body_fetch) : Prop :=
  bodyfetch f = Some (p_list_append L (Some b)).
Lemma append_data (L : plist body_fetch) b : p_list_data (p_list_append L (Some b)) = Some b.
Proof.
  unfold p_list_append, p_list_data. destruct (ISEMPTY L); [done|]. simpl. by rewrite list_lookup_middle.
Qed.
Lemma append_update (L : plist body_fetch) b g : p_list_update (p_list_append L (Some b)) g = p_list_append L (Some (g b)).
Proof.
  unfold p_list_append, p_list_update. destruct (ISEMPTY L); [done|]. simpl. by rewrite alter_middle.
Qed.
Lemma reading_body {A} (k : body_fetch -> IM A) w i f L b :
  ends_with f L b -> (the_body ≫= k) (reading w i f) = k b (reading w i f).
Proof. intros E. apply bind_run. unfold the_body. rewrite reading_items, E. simpl. by rewrite append_data. Qed.
Lemma reading_upd_body {A} g (k : unit -> IM A) w i f L b :
  ends_with f L b ->
  (upd_body g ≫= k) (reading w i f) = k tt (reading w i (f <| bodyfetch := Some (p_list_append L (Some (g b))) |>)).
Proof.
  intros E. apply bind_run. unfold upd_body. erewrite reading_body by exact E.
  assert (fmap (fun L => p_list_update L g) (bodyfetch f) = Some (p_list_append L (Some (g b)))) as U by (rewrite E; simpl; by rewrite append_update).
  rewrite <- U. done.
Qed.

(** The arguments [l] start at [i]. *)
Definition args_at (w : world) (i : nat) (l : list cstr) : Prop := forall k t, l !! k = Some t -> arg_is w (i + k) t.
Lemma args_at_cons w i t l : args_at w i (t :: l) <-> arg_is w i t /\ args_at w (S i) l.
Proof.
  split.
  - intros A. split; [specialize (A 0%nat t eq_refl); by rewrite Nat.add_0_r in A|].
    intros k x Hx. specialize (A (S k) x Hx). by rewrite Nat.add_succ_comm.
  - intros [A B] [|k] x Hx; [injection Hx as <-; by rewrite Nat.add_0_r|]. rewrite <- Nat.add_succ_comm. by apply B.
Qed.
Lemma args_at_app w i l m : args_at w i (l ++ m) <-> args_at w i l /\ args_at w (i + length l) m.
Proof.
  revert i. induction l as [|t l IH]; intros i; simpl.
  - rewrite Nat.add_0_r. split; [intros A; split; [by intros k x Hx|done]|by intros [_ A]].
  - rewrite !args_at_cons, IH, Nat.add_succ_comm. tauto.
Qed.

Lemma reading_paren names fuel w i f :
  Forall (fun n => strcaseeq n (lit ")") = false) names -> args_at w i (names ++ [lit ")"]) -> (length names < fuel)%nat ->
  find_paren fuel (reading w i f) = (reading w (i + length names) f, tt).
Proof.
  intros F. revert i fuel. induction F as [|n names Fn F IH]; intros i [|fuel] A L; simpl in L; try lia;
    simpl in A; apply args_at_cons in A as [A B]; cbn [find_paren]; rewrite reading_self.
  all: change (args_idx (session (reading w i f))) with i; change (arg_at (session (reading w i f)) i) with (arg_at (session w) i); rewrite A.
  - simpl. by rewrite Nat.add_0_r.
  - rewrite Fn. change ((next_arg ≫= (fun _ => find_paren fuel)) (reading w i f) = (reading w (i + length (n :: names)) f, tt)).
    rewrite reading_next, IH by (done || lia). simpl. do 2 f_equal. lia.
Qed.
Lemma reading_names names w i f L b :
  names <> [] -> Forall (fun n => strcaseeq n (lit ")") = false) names -> (length names < MAX_ARGS)%nat ->
  args_at w (S i) (lit "(" :: names ++ [lit ")"; lit "]"]) -> ends_with f L b ->
  parse_header_list (reading w i f) =
    (reading w (i + 2 + length names) (f <| bodyfetch := Some (p_list_append L (Some (b <| argstart := (i + 2)%nat |> <| argcnt := length names |>))) |>), 0).
Proof.
  intros N F Len A E. apply args_at_cons in A as [A1 A2]. unfold parse_header_list.
  rewrite reading_next, reading_self. erewrite reading_arg by exact A1.
  assert (exists t, arg_is w (S (S i)) t) as (t2 & A3) by (destruct names as [|n names]; [done|]; exists n; by apply args_at_cons in A2 as [? _]).
  erewrite reading_arg by exact A3. replace (negb (strcaseeq (lit "(") (lit "("))) with false by reflexivity. cbv match.
  rewrite reading_next, reading_self. erewrite reading_upd_body by exact E.
  assert (names ++ [lit ")"; lit "]"] = (names ++ [lit ")"]) ++ [lit "]"]) as Sp by (by rewrite <- app_assoc).
  rewrite Sp in A2. apply args_at_app in A2 as [A2 A4]. pose proof A2 as A5. apply args_at_app in A5 as [_ A5].
  rewrite length_app in A4. apply args_at_cons in A4 as [A4 _]. apply args_at_cons in A5 as [A5 _].
  replace (S (S i) + _)%nat with (S (S (S i) + length names)) in A4 by (simpl; lia).
  erewrite bind_run by (apply reading_paren; done). rewrite reading_self.
  erewrite reading_arg by exact A5. erewrite reading_arg by exact A4.
  erewrite reading_upd_body by reflexivity. erewrite reading_body by reflexivity.
  change (args_idx (session (reading w ?i ?f))) with i. replace (i + 2)%nat with (S (S i)) by lia.
  change (argstart b <| argstart := S (S i) |>) with (S (S i)).
  replace (S (S i) + length names - S (S i))%nat with (length names) by lia.
  destruct names as [|n names]; [done|reflexivity].
Qed.


Abbreviation last_is f L b := (f <| bodyfetch := Some (p_list_append L (Some b)) |>).
Lemma last_is_same f L b : ends_with f L b -> last_is f L b = f.
Proof. unfold ends_with. destruct f. simpl. by intros ->. Qed.
Lemma reading_part {A} p x w i f L (k : unit -> IM A) :
  ends_with f L body_new ->
  (when (bool_decide (0 < length p)%nat) (upd_body (fun b => b <| partspec := take (length p) (p ++ x) |>)) ≫= k) (reading w i f) =
  k tt (reading w i (last_is f L (body_new <| partspec := p |>))).
Proof.
  intros E. rewrite take_app_length. unfold when. case_bool_decide as P; [by erewrite reading_upd_body|].
  destruct p; [|simpl in P; lia]. change (body_new <| partspec := [] |>) with body_new. by rewrite last_is_same.
Qed.

(** A section is read as it is meant. *)
Lemma reading_section idx part t w f L :
  Forall (fun n => 0 <= n < 2 ^ 64) part -> (length (part_text part t) < IMAP_MAX_PARTSPEC_LEN)%nat -> text_wf part t ->
  (length (text_args t) <= MAX_ARGS)%nat -> ends_with f L body_new ->
  args_at w (idx + 2) ((part_text part t ++ text_name t) :: text_args t ++ [lit "]"]) ->
  _imap_session_fetch_parse_partspec (reading w (idx + 2) f) =
    (reading w (idx + 2 + length (text_args t))
       (let f := last_is f L (section_body idx part t) in if parsed_text t then f <| msgparse_needed := true |> else f), 0).
Proof.
  intros F Len W Few E A. apply args_at_cons in A as [A1 A2]. unfold _imap_session_fetch_parse_partspec.
  rewrite reading_self. erewrite reading_arg by exact A1.
  assert (exists x, arg_is w (S (idx + 2)) x) as (x & A3).
  { destruct (text_args t ++ [lit "]"]) as [|x l] eqn:X; [by destruct (text_args t)|]. exists x. by apply args_at_cons in A2 as [? _]. }
  erewrite reading_arg by exact A3. rewrite scan_section by done. rewrite drop_app_length.
  match goal with |- context [if ?c then mret (-2) else _] => replace c with false end.
  2: { rewrite (bool_decide_eq_false_2 (_ <= _)%nat) by lia. destruct t; simpl; by rewrite ?andb_false_r. }
  rewrite (reading_part _ _ _ _ _ L) by done.
  set (b := body_new <| partspec := part_text part t |>).
  rewrite item_of_text.
  match goal with |- context [if ?c then mret (-2) else _] => replace c with false end.
  2: { destruct t as [| | | |[] names]; try done. cbn. symmetry. apply bool_decide_eq_false. destruct part; [by destruct W|]. apply part_not_empty. }

  destruct (parsed_text t) eqn:P.
  - assert (text_args t = []) as Ta by (by destruct t). rewrite Ta in A2 |- *. apply args_at_cons in A2 as [A2 _].
    assert (x = lit "]") as -> by (unfold arg_is in *; congruence).
    cbn [when]. unfold need_message. rewrite reading_upd. erewrite reading_upd_body by reflexivity. cbn [length].
    rewrite Nat.add_0_r. by destruct t.
  - destruct t as [| | | |not names]; try done. destruct W as [W1 W2]. cbn [text_args] in *. cbn [when length] in *.
    rewrite length_app in Few |- *. cbn [length] in *.
    erewrite (bind_run skip) by reflexivity.
    erewrite reading_upd_body by reflexivity. cbn [app] in A2. rewrite <- app_assoc in A2. cbn [app] in A2.
    rewrite (reading_names names w (idx + 2) _ L (b <| itemtype := text_type (SFields not names) |>)) by first [done | lia].
    replace (idx + 2 + S (length names + 1))%nat with (idx + 2 + 2 + length names)%nat by lia.
    replace (idx + 2 + 2)%nat with (idx + 4)%nat by lia. by destruct not.
Qed.

(** ** Octet ranges *)

(** What may stand behind an item. *)
Definition goes_on (w : world) (n : nat) : Prop :=
  match arg_at (session w) n with
  | Some (c :: t) => c <> "<"%char /\ c :: t <> lit "["
  | Some [] => False
  | None => True
  end.
Lemma reading_range r w i f L b :
  range_wf r -> ends_with f L b -> arg_is w i (range_arg r) ->
  _imap_session_fetch_parse_octet_range (reading w i f) = (reading w (S i) (set_range r f), 0).
Proof.
  intros R E A. unfold _imap_session_fetch_parse_octet_range. rewrite reading_self.
  change (arg_at (session (reading w i f)) (args_idx (session (reading w i f)))) with (arg_at (session w) i). rewrite A.
  pose proof (length_dec_of r.1). pose proof (length_dec_of r.2).
  assert (take (RANGESIZE - 1) (range_arg r) = range_arg r) as T.
  { apply take_ge. unfold range_arg, RANGESIZE. rewrite !length_app. cbn [length lit String.list_ascii_of_string]. lia. }
  change (take (RANGESIZE - 1) <$> Some (range_arg r)) with (Some (take (RANGESIZE - 1) (range_arg r))). rewrite T.
  pose proof (octet_range_arg r R) as O. unfold range_arg at 1. cbn [app lit String.list_ascii_of_string]. cbv iota.
  rewrite bool_decide_true by done. change ("<"%char :: dec_of r.1 ++ "."%char :: dec_of r.2 ++ [">"%char]) with (range_arg r).
  rewrite O. destruct r as [start cnt]. unfold need_message. rewrite reading_upd.
  erewrite reading_upd_body by exact E. rewrite reading_next.
  assert (set_range (start, cnt) f =
    last_is (f <| msgparse_needed := true |>) L (b <| octetstart := start |> <| octetcnt := cnt |>)) as ->; [|done].
  unfold ends_with in E. transitivity (f <| msgparse_needed := true |>
    <| bodyfetch := (fun L => p_list_update L (fun b => b <| octetstart := start |> <| octetcnt := cnt |>)) <$> bodyfetch f |>); [done|].
  rewrite E. cbn [fmap option_fmap option_map]. by rewrite append_update.
Qed.
Lemma reading_no_range w i f :
  goes_on w i -> (1 < i)%nat ->
  exists j st, _imap_session_fetch_parse_octet_range (reading w i f) = (reading w j f, st) /\ 0 <= st /\
    (0 < st -> S j = i) /\ (st = 0 -> arg_at (session w) i = None).
Proof.
  unfold goes_on. intros G I. unfold _imap_session_fetch_parse_octet_range. rewrite reading_self.
  change (arg_at (session (reading w i f)) (args_idx (session (reading w i f)))) with (arg_at (session w) i).
  destruct (arg_at (session w) i) as [[|c t]|]; [done| |].
  - destruct G as [G _]. replace (take (RANGESIZE - 1) <$> Some (c :: t)) with (Some (c :: take (RANGESIZE - 2) t)) by reflexivity.
    rewrite bool_decide_false by done. exists (pred i), (Z.of_nat (pred i)).
    split; [reflexivity|]. lia.
  - exists i, 0. repeat split; lia.
Qed.

(** ** Items *)
Lemma parse_args_eq w i f t :
  arg_is w i t -> char_at t 0 <> ")"%char -> char_at t 0 <> "("%char ->
  dbmail_imap_session_fetch_parse_args (reading w i f) =
    match simple_item t with
    | Some g => (reading w i (g f), 1)
    | None => (if strcaseeq t (lit "body") then parse_body false
               else if strcaseeq t (lit "body.peek") then parse_body true else parse_extension t) (reading w i f)
    end.
Proof.
  intros A N1 N2. unfold dbmail_imap_session_fetch_parse_args. rewrite reading_self.
  change (arg_at (session (reading w i f)) (args_idx (session (reading w i f)))) with (arg_at (session w) i). rewrite A.
  rewrite (bool_decide_eq_false_2 _ N1). cbn [andb]. rewrite (bool_decide_eq_false_2 _ N2). by destruct (simple_item t).
Qed.
Lemma parse_args_body w i f peek :
  arg_is w i (body_name peek) -> dbmail_imap_session_fetch_parse_args (reading w i f) = parse_body peek (reading w i f).
Proof. intros A. rewrite (parse_args_eq w i f (body_name peek)) by (done || by destruct peek). by destruct peek. Qed.
Lemma parse_body_open w i f L peek :
  bodyfetch f = Some L -> arg_is w (S i) (lit "[") ->
  parse_body peek (reading w i f) =
    (s ← self;
     if matches_arg (arg_at s (args_idx s)) "]" then
       upd_items (fun f => if peek then f <| msgparse_needed := true |> <| getBodyTotalPeek := true |>
                           else f <| msgparse_needed := true |> <| getBodyTotal := true |>);;
       next_arg;; _imap_session_fetch_parse_octet_range
     else
       when peek (upd_items (fun f => f <| noseen := true |>));;
       r ← _imap_session_fetch_parse_partspec;
       if r <? 0 then mret (-2) else next_arg;; next_arg;; _imap_session_fetch_parse_octet_range)
    (reading w (i + 2) (add_body body_new f)).
Proof.
  intros E A. unfold parse_body. rewrite reading_upd, reading_self.
  change (arg_at (session (reading w i ?f)) (S (args_idx (session (reading w i ?f))))) with (arg_at (session w) (S i)). rewrite A.
  replace (negb (matches_arg (Some (lit "[")) "[")) with false by reflexivity. cbv iota. rewrite !reading_next.
  by replace (i + 2)%nat with (S (S i)) by lia.
Qed.
Lemma closes_eq x : strcaseeq x (lit "]") = true -> x = lit "]".
Proof.
  unfold strcaseeq. intros E. to_prop. destruct x as [|c [|d x]]; [done| |done]. injection E as E. f_equal.
  by destruct c as [[] [] [] [] [] [] [] []].
Qed.
Lemma opens_eq x : strcaseeq x (lit "[") = true -> x = lit "[".
Proof.
  unfold strcaseeq. intros E. to_prop. destruct x as [|c [|d x]]; [done| |done]. injection E as E. f_equal.
  by destruct c as [[] [] [] [] [] [] [] []].
Qed.
Lemma section_open part t :
  Forall (fun n => 0 <= n < 2 ^ 64) part -> text_wf part t -> strcaseeq (part_text part t ++ text_name t) (lit "]") = false.
Proof.
  intros F W. apply not_true_iff_false. intros E. apply closes_eq in E. pose proof (scan_section part t F W) as S.
  rewrite E in S. injection S as L T. destruct (part_text part t); [|done]. by destruct t as [| | | |[] names].
Qed.
Definition same_args (w : world) : Prop := (length (args (session w)) <= MAX_ARGS)%nat.
Lemma arg_lt w i t : same_args w -> arg_is w i t -> (i < MAX_ARGS)%nat.
Proof.
  unfold same_args, arg_is, arg_at. intros L A. destruct (args (session w) !! i) eqn:E; [|done].
  apply lookup_lt_Some in E. lia.
Qed.

Lemma add_body_eq f L b : bodyfetch f = Some L -> add_body b f = last_is f L b.
Proof. intros E. transitivity (f <| bodyfetch := fmap (fun L => p_list_append L (Some b)) (bodyfetch f) |>); [done|]. by rewrite E. Qed.

(** BODY[...] is read up to its octet range. *)
Lemma reading_open i w idx f L :
  takes_range i -> item_wf i -> same_args w -> bodyfetch f = Some L -> args_at w idx (item_args i) ->
  dbmail_imap_session_fetch_parse_args (reading w idx f) =
    _imap_session_fetch_parse_octet_range (reading w (idx + length (item_args i)) (item_sets idx i f)) /\
  exists b, ends_with (item_sets idx i f) L b.
Proof.
  intros T W Few E A. destruct i as [| |peek|peek part t]; try done; cbn [item_args] in A.
  - apply args_at_cons in A as [A1 A]. apply args_at_cons in A as [A2 A]. apply args_at_cons in A as [A3 _].
    split; [|exists body_new; unfold ends_with; by destruct peek; simpl; rewrite E].
    rewrite (parse_args_body _ _ _ peek) by done. rewrite (parse_body_open _ _ _ L) by done. rewrite reading_self.
    change (arg_at (session (reading w ?i ?f)) (args_idx (session (reading w ?i ?f)))) with (arg_at (session w) (idx + 2)).
    replace (idx + 2)%nat with (S (S idx)) by lia. rewrite A3.
    replace (matches_arg (Some (lit "]")) "]") with true by reflexivity. cbv iota. rewrite reading_upd, reading_next.
    by replace (idx + length (item_args (ITotal peek)))%nat with (S (S (S idx))) by (simpl; lia); destruct peek.
  - destruct W as (F & Len & W). cbn [app] in A. apply args_at_cons in A as [A1 A]. apply args_at_cons in A as [A2 A].
    replace (S (S idx)) with (idx + 2)%nat in A by lia. pose proof A as A3. apply args_at_cons in A3 as [A3 A4].
    assert (length (text_args t) <= MAX_ARGS)%nat as Tl.
    { apply args_at_app in A4 as [_ A4]. apply args_at_cons in A4 as [A4 _]. apply arg_lt in A4; [lia|done]. }
    split; [|exists (section_body idx part t); unfold ends_with; cbn [item_sets]; by rewrite (add_body_eq _ L) by done; destruct peek, t].
    rewrite (parse_args_body _ _ _ peek) by done. rewrite (parse_body_open _ _ _ L) by done. rewrite reading_self.
    change (arg_at (session (reading w ?i ?f)) (args_idx (session (reading w ?i ?f)))) with (arg_at (session w) (idx + 2)).
    rewrite A3. unfold matches_arg at 1. rewrite section_open by done.
    set (f1 := if peek then (add_body body_new f) <| noseen := true |> else add_body body_new f).
    erewrite (bind_run _ _ _ (reading w (idx + 2) f1)) by (by destruct peek).
    assert (ends_with f1 L body_new) as E1.
    { unfold f1. rewrite (add_body_eq _ L) by done. by destruct peek. }
    erewrite bind_run by (apply reading_section; done). change (0 <? 0) with false. cbv iota. rewrite !reading_next. cbn [item_args app length].
    rewrite (length_app (text_args t)). cbn [length].
    assert (item_sets idx (ISection peek part t) f =
      (let f := last_is f1 L (section_body idx part t) in if parsed_text t then f <| msgparse_needed := true |> else f)) as ->.
    { cbn [item_sets]. unfold f1. rewrite !(add_body_eq _ L) by done. by destruct peek, t. }
    match goal with |- _ (reading w ?i _) = _ (reading w ?j _) => by replace j with i by lia end.
Qed.

(** The arguments that an item can begin with, and the closing parenthesis. *)
Definition opens (t : cstr) : Prop := exists c u, t = c :: u /\ c <> "<"%char /\ t <> lit "[".
Lemma opens_goes_on w n t : arg_is w n t -> opens t -> goes_on w n.
Proof. unfold goes_on. intros -> (c & u & -> & ? & ?). done. Qed.
Lemma simple_head t g : simple_item t = Some g -> opens t /\ char_at t 0 <> ")"%char /\ char_at t 0 <> "("%char.
Proof.
  intros E. destruct t as [|c t]; [done|]. cbn [char_at lookup list_lookup].
  assert (forall d, c = d -> d ∉ ["<"; ")"; "("; "["]%char) as N.
  { intros d <- I. repeat (apply elem_of_cons in I as [->|I]; [vm_compute in E; discriminate|]). by apply elem_of_nil in I. }
  specialize (N c eq_refl). split; [exists c, t|]; set_solver.
Qed.
Lemma item_opens i : item_wf i -> exists t l, item_args i = t :: l /\ opens t.
Proof.
  intros W. destruct i as [name| |peek|peek part x]; simpl in *.
  - destruct W as [g W]. apply simple_head in W as [W _]. eauto.
  - exists (lit "BODY"), []. split; [done|]. by eexists _, _.
  - eexists _, _. split; [done|]. destruct peek; by eexists _, _.
  - eexists _, _. split; [done|]. destruct peek; by eexists _, _.
Qed.
Lemma reading_item i w idx f L :
  item_wf i -> same_args w -> bodyfetch f = Some L -> args_at w idx (item_args i) -> goes_on w (idx + length (item_args i)) ->
  exists j st, dbmail_imap_session_fetch_parse_args (reading w idx f) = (reading w j (item_sets idx i f), st) /\ 0 <= st /\
    (0 < st -> S j = (idx + length (item_args i))%nat) /\ (st = 0 -> arg_at (session w) (idx + length (item_args i)) = None).
Proof.
  intros W Few E A G. destruct i as [name| |peek|peek part t].
  - destruct W as [g W]. apply simple_head in W as X. destruct X as (_ & N1 & N2). cbn [item_args] in *.
    apply args_at_cons in A as [A _]. exists idx, 1. rewrite (parse_args_eq w idx f name) by done. cbn [item_sets]. rewrite W.
    repeat split; simpl; lia.
  - cbn [item_args] in *. apply args_at_cons in A as [A _]. exists idx, 1. rewrite (parse_args_body w idx f false) by done.
    unfold parse_body. rewrite reading_upd, reading_self.
    change (arg_at (session (reading w idx ?f)) (S (args_idx (session (reading w idx ?f))))) with (arg_at (session w) (S idx)).
    replace (matches_arg (arg_at (session w) (S idx)) "[") with false; [by repeat split; simpl; lia|].
    symmetry. unfold goes_on in G. cbn [length] in G. replace (idx + 1)%nat with (S idx) in G by lia.
    destruct (arg_at (session w) (S idx)) as [[|c u]|]; [done| |done]. destruct G as [_ G]. cbn [matches_arg].
    apply not_true_iff_false. intros X. by apply opens_eq in X.
  - destruct (reading_open (ITotal peek) w idx f L) as [-> _]; try done. apply reading_no_range; [done|]. simpl. lia.
  - destruct (reading_open (ISection peek part t) w idx f L) as [-> _]; try done. apply reading_no_range; [done|]. simpl. lia.
Qed.
Lemma item_sets_body idx i f L : bodyfetch f = Some L -> item_wf i -> exists L', bodyfetch (item_sets idx i f) = Some L'.
Proof.
  intros E W. destruct i as [name| |[]|[] part t]; cbn [item_sets].
  - destruct W as [g W]. rewrite W. exists L. rewrite <- E. revert W. unfold simple_item.
    repeat (destruct (strcaseeq name _); [by intros [= <-]|]). done.
  - simpl. rewrite E. by eexists.
  - simpl. rewrite E. by eexists.
  - simpl. rewrite E. by eexists.
  - destruct t; simpl; rewrite E; by eexists.
  - destruct t; simpl; rewrite E; by eexists.
Qed.
Lemma loop_step fuel w i f j f' st :
  dbmail_imap_session_fetch_parse_args (reading w i f) = (reading w j f', st) -> st <> -2 ->
  fetch_parse_loop (S fuel) (reading w i f) = if 0 <? st then fetch_parse_loop fuel (reading w (S j) f') else (reading w (S j) f', false).
Proof.
  intros E N. cbn [fetch_parse_loop]. erewrite bind_run by exact E. destruct (st =? -2) eqn:X; [bool_lia|].
  rewrite reading_next. by destruct (0 <? st).
Qed.

(** Items in front of another argument. *)
Lemma reading_run l t w idx f L fuel :
  Forall item_wf l -> same_args w -> bodyfetch f = Some L -> args_at w idx (items_args l ++ [t]) -> opens t ->
  fetch_parse_loop (length l + fuel) (reading w idx f) = fetch_parse_loop fuel (reading w (idx + length (items_args l)) (items_set idx l f)) /\
  exists L', bodyfetch (items_set idx l f) = Some L'.
Proof.
  intros F Few. revert idx f L. induction F as [|i l W F IH]; intros idx f L E A O.
  - cbn. rewrite Nat.add_0_r. eauto.
  - unfold items_args in *. rewrite fmap_cons in *. cbn [concat] in *. rewrite <- app_assoc in A. apply args_at_app in A as [A1 A2].
    destruct (item_sets_body idx i f L E W) as [L' E'].
    assert (exists u, arg_is w (idx + length (item_args i)) u /\ opens u) as (u & U & Ou).
    { destruct F as [|i' l W' F]; [apply args_at_cons in A2 as [A2 _]; eauto|].
      destruct (item_opens i' W') as (u & us & X & Ou). exists u. split; [|done]. simpl in A2. rewrite X in A2.
      by apply args_at_cons in A2 as [A2 _]. }
    destruct (reading_item i w idx f L) as (j & st & R & S0 & S1 & S2); try done; [by eapply opens_goes_on|].
    destruct (decide (st = 0)) as [->|N]; [unfold arg_is in U; rewrite S2 in U; done|].
    cbn [length Nat.add]. rewrite (loop_step _ _ _ _ _ _ _ R) by lia. replace (0 <? st) with true by lia. rewrite S1 by lia.
    destruct (IH (idx + length (item_args i))%nat (item_sets idx i f) L') as [-> X]; try done.
    cbn [items_set]. split; [|exact X]. by rewrite length_app, Nat.add_assoc.
Qed.

(** The arguments of FETCH behind the set of messages. *)
Definition fetch_args (paren : bool) (l : list fetch_item) (r : option (Z * Z)) : list cstr :=
  (if paren then [lit "("] else []) ++ items_args l ++ match r with Some r => [range_arg r] | None => if paren then [lit ")"] else [] end.
Definition fetch_wf (l : list fetch_item) (r : option (Z * Z)) : Prop :=
  Forall item_wf l /\ match r with Some r => range_wf r /\ exists l' i, l = l' ++ [i] /\ takes_range i | None => True end.
(** Nothing follows, unless there is a range. *)
Definition fetch_end (w : world) (n : nat) (r : option (Z * Z)) : Prop :=
  match r with Some _ => True | None => arg_at (session w) n = None end.
Definition fetch_set (idx : nat) (l : list fetch_item) (r : option (Z * Z)) (f : ImapSession.fetch_items) : ImapSession.fetch_items :=
  match r with Some r => set_range r (items_set idx l f) | None => items_set idx l f end.

Lemma items_set_app idx l i f : items_set idx (l ++ [i]) f = item_sets (idx + length (items_args l)) i (items_set idx l f).
Proof.
  revert idx f. induction l as [|k l IH]; intros idx f; [by cbn; rewrite Nat.add_0_r|]. cbn [app items_set]. rewrite IH.
  unfold items_args. rewrite fmap_cons. cbn [concat]. by rewrite length_app, Nat.add_assoc.
Qed.
Lemma items_args_app l i : items_args (l ++ [i]) = items_args l ++ item_args i.
Proof. unfold items_args. rewrite fmap_app, concat_app. cbn. by rewrite app_nil_r. Qed.
Lemma items_args_long l : Forall item_wf l -> (length l <= length (items_args l))%nat.
Proof.
  induction 1 as [|i l W F IH]; [done|]. unfold items_args in *. rewrite fmap_cons. cbn [concat length]. rewrite length_app.
  destruct (item_opens i W) as (t & u & -> & _). simpl. lia.
Qed.
(** Where the items end. *)
Lemma loop_end fuel w i f :
  arg_at (session w) i = None \/ arg_is w i (lit ")") /\ arg_at (session w) (S i) = None ->
  fetch_parse_loop (S fuel) (reading w i f) = (reading w (S i) f, false).
Proof.
  intros E. rewrite (loop_step fuel w i f i f (-1)); [done| |done]. unfold dbmail_imap_session_fetch_parse_args. rewrite reading_self.
  change (arg_at (session (reading w i f)) (args_idx (session (reading w i f)))) with (arg_at (session w) i).
  change (arg_at (session (reading w i f)) (S (args_idx (session (reading w i f))))) with (arg_at (session w) (S i)).
  destruct E as [E|[E1 E2]]; [by rewrite E|]. by rewrite E1, E2.
Qed.
Lemma reading_items_end l r w idx f L m :
  fetch_wf l r -> same_args w -> bodyfetch f = Some L ->
  args_at w idx (items_args l ++ match r with Some r => [range_arg r] | None => [] end) ->
  match r with Some _ => True | None => arg_at (session w) (idx + length (items_args l)) = None end ->
  exists j, fetch_parse_loop (length l + S (S m)) (reading w idx f) = (reading w j (fetch_set idx l r f), false).
Proof.
  intros [F R] Few E A N. destruct l as [|i l _] using rev_ind.
  - destruct r; [by destruct R as (_ & l' & i & X & _); destruct l'|]. exists (S idx). apply loop_end. left. cbn in N.
    by rewrite Nat.add_0_r in N.
  - rewrite items_args_app in *. apply Forall_app in F as [F Wi]. apply Forall_inv in Wi.
    rewrite <- app_assoc in A. pose proof A as B. apply args_at_app in B as [A1 A2].
    destruct (item_opens i Wi) as (t & u & X & O).
    destruct (reading_run l t w idx f L (S (S (S m)))) as (Run & L' & E'); try done.
    { apply args_at_app. split; [done|]. rewrite X in A2. cbn [app] in A2. apply args_at_cons in A2 as [A2 _].
      apply args_at_cons. split; [done|]. by intros k y. }
    rewrite length_app. replace (length l + length [i] + S (S m))%nat with (length l + S (S (S m)))%nat by (simpl; lia). rewrite Run.
    unfold fetch_set. rewrite items_set_app. apply args_at_app in A2 as [A2 A3]. rewrite length_app, Nat.add_assoc in N.
    destruct r as [r|].
    + destruct R as (R & l' & i' & Y & T). apply app_inj_tail in Y as [_ <-].
      destruct (reading_open i w (idx + length (items_args l)) (items_set idx l f) L') as (Op & b & Eb); try done.
      apply args_at_cons in A3 as [A3 _]. erewrite reading_range in Op by done.
      rewrite (loop_step _ _ _ _ _ _ _ Op) by lia. by eexists.
    + destruct (reading_item i w (idx + length (items_args l)) (items_set idx l f) L') as (j & st & Rd & S0 & S1 & S2); try done.
      { unfold goes_on. by rewrite N. }
      rewrite (loop_step _ _ _ _ _ _ _ Rd) by lia. destruct (0 <? st) eqn:St; [|by eexists].
      rewrite S1 by lia. eexists. apply loop_end. by left.
Qed.

Lemma reading_id w : reading w (args_idx (session w)) (fi (fetch (session w))) = w.
Proof. unfold reading. destruct w as [s ? ? ? ?]. destruct s as [? ? ? ? ? ? ? ? ? ? ? ? ? ? ? ? ? ? ? ? ? ? ? ? ? ? ? ? ? fs]. by destruct fs. Qed.
Lemma args_at_short w i l : same_args w -> args_at w i l -> l <> [] -> (i + length l <= MAX_ARGS)%nat.
Proof.
  intros Few A N. destruct l as [|t l _] using rev_ind; [done|]. apply args_at_app in A as [_ A]. apply args_at_cons in A as [A _].
  apply arg_lt in A; [|done]. rewrite length_app. simpl. lia.
Qed.

Lemma fetch_args_read w paren l r L :
  fetch_wf l r -> same_args w -> (0 < args_idx (session w))%nat -> bodyfetch (fi (fetch (session w))) = Some L ->
  args_at w (args_idx (session w)) (fetch_args paren l r) ->
  fetch_end w (args_idx (session w) + length (fetch_args paren l r)) r ->
  exists j, fetch_parse_loop (S MAX_ARGS) w =
    (reading w j (fetch_set (args_idx (session w) + if paren then 1 else 0) l r (fi (fetch (session w)))), false).
Proof.
  intros W Few I E A N. pose proof (reading_id w) as Id. set (f := fi (fetch (session w))) in *. set (i := args_idx (session w)) in *.
  replace (fetch_parse_loop (S MAX_ARGS) w) with (fetch_parse_loop (S MAX_ARGS) (reading w i f)) by (by rewrite Id).
  pose proof (items_args_long l (proj1 W)) as Long. unfold fetch_args in *. destruct paren.
  - cbn [app length] in *. apply args_at_cons in A as [A0 A]. rewrite Nat.add_succ_r, <- Nat.add_succ_l in N.
    assert (dbmail_imap_session_fetch_parse_args (reading w i f) = (reading w i f, 1)) as Open.
    { unfold dbmail_imap_session_fetch_parse_args. rewrite reading_self.
      change (arg_at (session (reading w i f)) (args_idx (session (reading w i f)))) with (arg_at (session w) i). by rewrite A0. }
    rewrite (loop_step _ _ _ _ _ _ _ Open) by lia. cbv iota. change (0 <? 1) with true. cbv iota. rewrite Nat.add_1_r.
    pose proof (args_at_short w (S i) _ Few A) as Sh. rewrite length_app in Sh.
    destruct r as [r|].
    + replace MAX_ARGS with (length l + S (S (MAX_ARGS - length l - 2)))%nat by (cbn [length] in Sh; specialize (Sh ltac:(by destruct (items_args l))); lia).
      by apply (reading_items_end l (Some r) w (S i) f L).
    + replace MAX_ARGS with (length l + S (MAX_ARGS - length l - 1))%nat by (cbn [length] in Sh; specialize (Sh ltac:(by destruct (items_args l))); lia).
      destruct (reading_run l (lit ")") w (S i) f L (S (MAX_ARGS - length l - 1))) as (-> & L' & _); [apply W|done..|by eexists _, _|].
      apply args_at_app in A as [_ A]. apply args_at_cons in A as [A _]. eexists. apply loop_end. right. split; [done|].
      cbn in N. rewrite length_app in N. cbn [length] in N. by replace (S (S i + length (items_args l)))%nat with (S i + (length (items_args l) + 1))%nat by lia.
  - cbn [app] in *. rewrite Nat.add_0_r.
    assert (length l < MAX_ARGS)%nat as Sh.
    { destruct (decide (items_args l = [])) as [X|X]; [rewrite X in Long; unfold MAX_ARGS; simpl in *; lia|].
      apply args_at_app in A as [A _]. apply args_at_short in A; [lia|done..]. }
    replace (S MAX_ARGS) with (length l + S (S (MAX_ARGS - length l - 1)))%nat by lia.
    apply (reading_items_end l r w i f L); try done. destruct r; [done|]. by rewrite app_nil_r in N.
Qed.

(** C24. The parser of FETCH reads what a client means: for every list of items, in parentheses
    or not, with an octet range behind the last of them or not, the arguments that stand for the
    items set exactly what the items mean - each BODY[...] with its part number, its text, its
    header names and its range - and nothing else of the session but the argument index changes.
    Behind an octet range, whatever follows is ignored. *)
Theorem fetch_items_read w paren l r L :
  fetch_wf l r -> same_args w -> (0 < args_idx (session w))%nat -> bodyfetch (fi (fetch (session w))) = Some L ->
  args_at w (args_idx (session w)) (fetch_args paren l r) ->
  fetch_end w (args_idx (session w) + length (fetch_args paren l r)) r ->
  exists j, fetch_parse_loop (S MAX_ARGS) w =
    (reading w j (fetch_set (args_idx (session w) + if paren then 1 else 0) l r (fi (fetch (session w)))), false).
Proof. apply fetch_args_read. Qed.
End parser.

(** The session of the example server in which FETCH has arguments [l] behind its set. *)
Definition example_fetching (l : list cstr) : world :=
  (example_start []) <| session ::= fun s => s <| args := Some (lit "1") :: (Some <$> l) |> <| args_idx := 1%nat |>
    <| fetch ::= fun z => z <| fi := items_zero <| bodyfetch := Some p_list_new |> |> |> |>.
Definition example_items : list fetch_item :=
  [ISimple (lit "UID"); ISection true [1; 2] SText; ISection false [] (SFields true [lit "from"; lit "to"])].

Definition example_asked : list cstr := fetch_args true example_items (Some (5, 10)) ++ [lit "FLAGS"; lit ")"].
Definition asked_bodies (f : ImapSession.fetch_items) : list (option (body_item * cstr * nat * Z * Z)) :=
  match bodyfetch f with
  | Some L => fmap (M := option) (fun b => (itemtype b, partspec b, argcnt b, octetstart b, octetcnt b)) <$> items L
  | None => []
  end.

Lemma fetch_items_read_witness :
  exists j f, fetch_parse_loop (S MAX_ARGS) (example_fetching example_asked) = (reading (example_fetching example_asked) j f, false) /\
    getUID f = true /\ getFlags f = false /\ noseen f = true /\
    asked_bodies f = [Some (BFIT_TEXT, lit "1.2.", 0%nat, 0, 0); Some (BFIT_HEADER_FIELDS_NOT, [], 2%nat, 5, 10)].
Proof.
  set (w := example_fetching example_asked).
  assert (args_idx (session w) = 1%nat) as I by reflexivity.
  destruct (fetch_items_read w true example_items (Some (5, 10)) p_list_new) as [j E].
  - split.
    + repeat constructor; try done; try (by eexists).
    + split; [done|]. by eexists [_; _], _.
  - vm_compute. lia.
  - rewrite I. lia.
  - reflexivity.
  - intros k t E. unfold arg_is. rewrite I. unfold arg_at. cbn [Nat.add].
    change (mjoin ((Some <$> example_asked) !! k) = Some t). unfold example_asked.
    rewrite list_lookup_fmap, lookup_app_l by by eapply lookup_lt_Some. by rewrite E.
  - exact Logic.I.
  - eexists j, _. split; [exact E|]. rewrite I. vm_compute. auto.
Defined.
