(* ===== verification/ImapFetchReply.v ===== *)
(** * FETCH: what its response does

    A FETCH whose items only peek changes nothing; the literals that are announced are sent. *)
From S2P Require Import Prelude CLib GLib Tree ListT ClientBase ClientSession GListUtil MailboxState MiscText SearchKeys Acl Cidr Capa Auth.
From S2P Require Import AuthExample ImapText Mime ImapSession ImapTokenizer ImapMailbox ImapFetch ImapCommands ImapFolders ImapMessages.
From S2P Require Import ImapDispatch ImapServer ImapExample ImapFrame ImapKeeps ImapCommandFacts ImapFetchFacts.

Section peek.
Context `{ImapDB} `{!FetchDB} `{GLibStr} `{ServerConf} `{ImapConf} `{GMimeLib} `{AuthNames}.

(** ** Items that only peek *)
Definition no_section (b : option body_fetch) : Prop := match b with Some b => itemtype b = BFIT_NONE | None => True end.
(** Nothing asks for the flag; either [noseen] is set, or there is no BODY[...] with a text. *)
Record quiet (n : bool) (f : ImapSession.fetch_items) : Prop := {
  q_setseen : setseen f = false;
  q_rfc822 : getRFC822 f = false;
  q_text : getRFC822Text f = false;
  q_total : getBodyTotal f = false;
  q_sections : if n then noseen f = true else forall L, bodyfetch f = Some L -> Forall no_section (items L);
}.
Abbreviation items_of w := (fi (fetch (session w))).
(** Neither the data base nor the state of a mailbox is different. *)
Definition leaves (n : bool) (w w' : world) : Prop :=
  quiet n (items_of w) -> quiet n (items_of w') /\ wdb w' = wdb w /\ mbxinfo (session w') = mbxinfo (session w).

Section rel.
Context (n : bool).
#[local] Instance leaves_preorder : PreOrder (leaves n).
Proof.
  split; [by intros w Q|]. intros w1 w2 w3 A B Q. destruct (A Q) as (Q2 & D2 & M2). destruct (B Q2) as (Q3 & D3 & M3).
  split; [done|]. split; congruence.
Qed.
Lemma leaves_upd f :
  (forall s, mbxinfo (f s) = mbxinfo s) -> (forall s, quiet n (fi (fetch s)) -> quiet n (fi (fetch (f s)))) -> keeps (leaves n) (upd f).
Proof. intros M Q w Qw. split; [apply Q, Qw|]. split; [done|apply M]. Qed.
Hint Extern 2 (keeps (leaves n) (upd _)) => (apply leaves_upd; [by intros ?|by intros ? []]) : keeps.
Hint Extern 2 (keeps (leaves n) (updci _)) => (apply leaves_upd; [by intros ?|by intros ? []]) : keeps.
Hint Extern 2 (keeps (leaves n) (upd_fetch _)) => (apply leaves_upd; [by intros ?|by intros ? []]) : keeps.
Hint Extern 2 (keeps (leaves n) (upd_items _)) => (apply leaves_upd; [by intros ?|by intros ? []]) : keeps.
Lemma leaves_items {A} (k : ImapSession.fetch_items -> IM A) :
  (forall f, quiet n f -> keeps (leaves n) (k f)) -> keeps (leaves n) (the_items ≫= k).
Proof. intros K w Q. exact (K (items_of w) Q w Q). Qed.
Lemma leaves_push t : keeps (leaves n) (push (QMessage t)).
Proof. by intros w. Qed.
Hint Resolve leaves_push : keeps.
Ltac quiet_step := lazymatch goal with |- keeps _ (mbind _ the_items) => apply leaves_items; intros ? ?Q | |- _ => keep_step end.
Ltac quietly := repeat first [quiet_step | progress keep_unfold].

Lemma leaves_nth k g : (forall b, itemtype (g b) = itemtype b) -> keeps (leaves n) (upd_nth k g).
Proof.
  intros G. apply leaves_upd; [by intros|]. intros s []. split; try done. destruct n; [done|]. cbn. intros L E.
  destruct (bodyfetch _) as [L'|]; [|done]. injection E as <-. apply Forall_alter; [by apply q_sections0|].
  intros [b|]; [|done]. cbn. by rewrite G.
Qed.
Hint Extern 2 (keeps (leaves n) (upd_nth _ _)) => (apply leaves_nth; by intros ?) : keeps.
Lemma leaves_printf t : keeps (leaves n) (buff_printf t).
Proof. quietly. Qed.
Hint Resolve leaves_printf : keeps.
Lemma leaves_send_pieces fuel t : keeps (leaves n) (send_pieces fuel t).
Proof. revert t. induction fuel; intros t; cbn [send_pieces]; quietly. Qed.
Hint Resolve leaves_send_pieces : keeps.
Lemma leaves_get_state p : keeps (leaves n) (get_state p).
Proof.
  intros w Q. unfold get_state, on_state. rewrite bind_self. unfold database, mbind, IM_bind.
  destruct (mbxinfo (session w) !! p.1) as [[g M]|] eqn:E; [|by destruct Q].
  destruct (negb _); destruct Q; (split; [by split|]); (split; [done|]); cbn; by apply insert_id.
Qed.
Hint Resolve leaves_get_state : keeps.
Lemma leaves_load : keeps (leaves n) dbmail_imap_session_message_load.
Proof. quietly. Qed.
Lemma leaves_headers k b : keeps (leaves n) (_fetch_headers k b).
Proof. quietly. Qed.
Lemma leaves_part part b type : keeps (leaves n) (_imap_send_part part b type).
Proof. quietly. Qed.
Hint Resolve leaves_load leaves_headers leaves_part : keeps.

Lemma leaves_section k b : n = true \/ itemtype b = BFIT_NONE -> keeps (leaves n) (_imap_show_body_section k b).
Proof.
  intros C. unfold _imap_show_body_section. apply keeps_bind; [typeclasses eauto|quietly|]. intros s. apply leaves_items. intros f Q.
  destruct (bool_decide (itemtype b = BFIT_NONE)) eqn:T; [quietly|].
  destruct C as [C|C]; [|by rewrite C in T]. pose proof (q_sections _ _ Q) as Ns. rewrite C in Ns. rewrite Ns. change (negb true) with false. cbn [when]. quietly.
Qed.
Lemma leaves_sections k l : n = true \/ Forall no_section l -> keeps (leaves n) (show_sections k l).
Proof.
  revert k. induction l as [|[b|] l IH]; intros k C; cbn [show_sections]; [quietly| |].
  - apply keeps_bind; [typeclasses eauto| |intros _].
    + apply leaves_section. destruct C as [|C]; [by left|]. right. by apply Forall_inv in C.
    + apply IH. destruct C as [|C]; [by left|]. right. by apply Forall_inv_tail in C.
  - apply IH. destruct C as [|C]; [by left|]. right. by apply Forall_inv_tail in C.
Qed.
Lemma leaves_show : keeps (leaves n) _imap_show_body_sections.
Proof.
  apply leaves_items. intros f Q. destruct (bodyfetch f) as [L|] eqn:E; [|quietly]. apply leaves_sections.
  pose proof (q_sections _ _ Q) as Ns. destruct (n) eqn:N; [by left|]. right. by apply Ns.
Qed.
Lemma leaves_total stream : keeps (leaves n) (send_total stream).
Proof. quietly. apply leaves_upd; [by intros|]. intros s Q. cbn. by rewrite (q_total _ _ Q). Qed.
Hint Resolve leaves_show leaves_total : keeps.
Lemma leaves_info p info : keeps (leaves n) (send_info p info).
Proof. quietly. Qed.
Lemma leaves_structure name ext e : keeps (leaves n) (send_structure name ext e).
Proof. quietly. Qed.
Lemma leaves_envelopes : keeps (leaves n) _fetch_envelopes.
Proof. quietly. Qed.
Hint Resolve leaves_info leaves_structure leaves_envelopes : keeps.
Lemma leaves_texts stream : keeps (leaves n) (send_texts stream).
Proof.
  unfold send_texts. apply leaves_items. intros f [Q1 Q2 Q3 Q4 Q5]. rewrite Q2, Q3. cbn [when]. quietly.
Qed.
Lemma leaves_seen p u : keeps (leaves n) (set_seen p u).
Proof. unfold set_seen. apply leaves_items. intros f [Q1 Q2 Q3 Q4 Q5]. rewrite Q1. cbn [andb]. quietly. Qed.
Hint Resolve leaves_texts leaves_seen : keeps.
Lemma leaves_get_items u : keeps (leaves n) (_fetch_get_items u).
Proof. quietly. Qed.
Lemma leaves_fetch_all uids : keeps (leaves n) (fetch_all uids).
Proof. induction uids; simpl; quietly; auto using leaves_get_items. Qed.
Lemma leaves_fetch : keeps (leaves n) dbmail_imap_session_fetch_get_items.
Proof. unfold dbmail_imap_session_fetch_get_items. quietly; auto using leaves_fetch_all. Qed.
End rel.

(** An item that does not ask for the flag. *)
Definition peeks (i : fetch_item) : Prop :=
  match i with
  | ISimple name => strcaseeq name (lit "rfc822") = false /\ strcaseeq name (lit "rfc822.text") = false
  | IBody => True
  | ITotal peek | ISection peek _ _ => peek = true
  end.
Lemma quiet_add n b f : quiet n f -> itemtype b = BFIT_NONE \/ n = true -> quiet n (add_body b f).
Proof.
  intros [] C. split; try done. destruct n; [done|]. destruct C as [C|C]; [|done]. cbn. intros L E.
  destruct (bodyfetch f) as [L'|] eqn:E'; [|done]. cbn in E. injection E as <-. specialize (q_sections0 _ eq_refl).
  unfold p_list_append. destruct (ISEMPTY L'); cbn; [by repeat constructor|]. apply Forall_app. split; [done|]. by repeat constructor.
Qed.
Lemma quiet_item n idx i f : quiet n f -> peeks i -> exists m, quiet m (item_sets idx i f).
Proof.
  intros Q P. destruct i as [name| |peek|peek part x]; cbn [item_sets peeks] in *; subst.
  - exists n. destruct P as [P1 P2]. unfold simple_item. rewrite P1, P2. destruct Q.
    repeat (destruct (strcaseeq name _); [by split|]). done.
  - exists n. apply (quiet_add n body_new) in Q; [|by left]. by destruct Q.
  - exists n. apply (quiet_add n body_new) in Q; [|by left]. by destruct Q.
  - exists true. destruct Q. by destruct x.
Qed.
Lemma quiet_items n idx l f : quiet n f -> Forall peeks l -> exists m, quiet m (items_set idx l f).
Proof.
  intros Q F. revert n idx f Q. induction F as [|i l P F IH]; intros n idx f Q; cbn [items_set]; [by exists n|].
  destruct (quiet_item n idx i f Q P) as [m Qm]. exact (IH m _ _ Qm).
Qed.
Lemma quiet_range n r f : quiet n f -> quiet n (set_range r f).
Proof.
  intros []. split; try done. destruct n; [done|]. cbn. intros L E. destruct (bodyfetch f) as [L'|]; [|done]. injection E as <-.
  apply Forall_alter; [by apply q_sections0|]. by intros [b|].
Qed.

(** C25. A plain FETCH whose items only peek - no RFC822, RFC822.TEXT,
    BODY[...] without PEEK - changes nothing: whatever messages are chosen between the two steps,
    after its items are read the responses are sent without a change of the data base or of the
    state of a mailbox. *)
Theorem fetch_peek_safe w v paren l r :
  fetch_wf l r -> Forall peeks l -> same_args w -> (0 < args_idx (session w))%nat ->
  fi (fetch (session w)) = items_zero <| bodyfetch := Some p_list_new |> ->
  args_at w (args_idx (session w)) (fetch_args paren l r) ->
  fetch_end w (args_idx (session w) + length (fetch_args paren l r)) r ->
  fi (fetch (session v)) = fi (fetch (session (fetch_parse_loop (S MAX_ARGS) w).1)) ->
  let v' := (dbmail_imap_session_fetch_get_items v).1 in
  wdb v' = wdb v /\ mbxinfo (session v') = mbxinfo (session v).
Proof.
  intros W P Few I Z A N V. destruct (fetch_args_read w paren l r p_list_new) as [j E]; try done; [by rewrite Z|].
  assert (exists n, quiet n (fi (fetch (session v)))) as [n Q].
  { rewrite V, E, Z. cbn [fst].
    destruct (quiet_items false (args_idx (session w) + if paren then 1 else 0) l (items_zero <| bodyfetch := Some p_list_new |>)) as [n Q]; [|done|].
    - split; try done. intros L [= <-]. by repeat constructor.
    - exists n. destruct r; [by apply quiet_range|done]. }
  exact (proj2 (leaves_fetch n v Q)).
Qed.
End peek.

(** ** Literals *)
Section literals.
Context `{ImapDB} `{!FetchDB} `{GLibStr} `{ServerConf} `{ImapConf} `{GMimeLib} `{AuthNames}.
Abbreviation items_of w := (fi (fetch (session w))).

(** A literal: the number of its octets in front of them. *)
Definition literal (t : cstr) : cstr := lit "{" ++ dec_of (strlen t) ++ lit "}" ++ crlf ++ t.
(** The octets of a text that a client asks for. *)
Definition octets (start cnt : Z) (t : cstr) : cstr := if cnt =? 0 then t else take (Z.to_nat cnt) (drop (Z.to_nat start) t).
Definition range_text (start cnt : Z) : cstr := if cnt =? 0 then [] else lit "<" ++ dec_of start ++ lit ">".

(** A computation that tells the client [t]. *)
Definition tells (m : IM unit) (w : world) (t : cstr) : Prop := said (m w).1 = said w ++ t.
Lemma tells_printf t w : tells (buff_printf t) w t.
Proof. apply said_printf. Qed.
Lemma tells_bind m k w t u : tells m w t -> tells (k tt) (m w).1 u -> tells (m ≫= k) w (t ++ u).
Proof. unfold tells. rewrite bind_eq. destruct (m w) as [w1 []]. cbn. intros A B. by rewrite B, A, app_assoc. Qed.
Lemma tells_nil m w : said (m w).1 = said w -> tells m w [].
Proof. unfold tells. by rewrite app_nil_r. Qed.
Definition space (f : ImapSession.fetch_items) : cstr := if isfirstfetchout f then [] else [SP].
Lemma tells_space w : tells SEND_SPACE w (space (items_of w)).
Proof.
  unfold SEND_SPACE, space. unfold tells. change ((the_items ≫= ?k) w) with (k (items_of w) w). cbv beta.
  destruct (isfirstfetchout _); [by rewrite app_nil_r|apply said_printf].
Qed.

Lemma tells_pieces fuel t w : (length t <= fuel)%nat -> tells (send_pieces fuel t) w t.
Proof.
  revert t w. induction fuel as [|fuel IH]; intros t w L.
  - destruct t; [by apply tells_nil|simpl in L; lia].
  - cbn [send_pieces]. destruct t as [|c t]; [by apply tells_nil|].
    match goal with |- tells ?m w _ => assert (tells m w (take (SEND_BUF_SIZE - 1) (c :: t) ++ drop (SEND_BUF_SIZE - 1) (c :: t))) as X end;
      [|by rewrite take_drop in X].
    apply tells_bind; [apply tells_printf|]. apply IH. rewrite length_drop. cbn [length] in *.
    assert (1 <= SEND_BUF_SIZE - 1)%nat by (apply Nat.leb_le; vm_compute; reflexivity). lia.
Qed.
Lemma tells_data stream off len w :
  0 <= off -> 0 <= len -> off + len < 2 ^ 64 -> off + len <= strlen stream \/ len = 0 ->
  tells (send_data stream off len) w (take (Z.to_nat len) (drop (Z.to_nat off) stream)).
Proof.
  intros O N B C. unfold send_data, wrap64. rewrite Z.mod_small by lia. destruct (_ <? _) eqn:E.
  - destruct C as [C|C]; [bool_lia|]. subst len. simpl. by apply tells_nil.
  - by apply tells_pieces.
Qed.

Lemma printf_fetch t w : fetch (session (buff_printf t w).1) = fetch (session w).
Proof.
  unfold buff_printf, dbmail_imap_session_buff_flush, when. rewrite bind_eq, bind_self. case_bool_decide; [|done].
  rewrite bind_self. destruct (_ <=? _); [done|]. by case_bool_decide.
Qed.
Lemma space_body w : bodyfetch (items_of (SEND_SPACE w).1) = bodyfetch (items_of w).
Proof.
  unfold SEND_SPACE. change ((the_items ≫= ?k) w) with (k (items_of w) w). cbv beta.
  destruct (isfirstfetchout _); [done|by rewrite printf_fetch].
Qed.
Lemma body_run {A} (k : body_fetch -> IM A) w b :
  (L ← bodyfetch (items_of w); p_list_data L) = Some b -> (the_body ≫= k) w = k b w.
Proof. intros E. apply bind_run. unfold the_body. change ((the_items ≫= ?k) w) with (k (items_of w) w). cbv beta. by rewrite E. Qed.
Lemma tells_body k w b t :
  (L ← bodyfetch (items_of w); p_list_data L) = Some b -> tells (k b) w t -> tells (the_body ≫= k) w t.
Proof. intros E. unfold tells. by rewrite (body_run _ _ _ E). Qed.
(** How many octets there are from [start] on, up to [cnt]. *)
Lemma octets_length start cnt t :
  0 <= start -> 0 <= cnt -> cnt <> 0 ->
  strlen (octets start cnt t) = Z.max 0 (Z.min cnt (strlen t - start)).
Proof.
  intros S0 C0 N. unfold octets, strlen. destruct (_ =? _) eqn:X; [bool_lia|]. rewrite length_take, length_drop. lia.
Qed.
Lemma octets_take start cnt t :
  0 <= start -> 0 <= cnt -> cnt <> 0 ->
  octets start cnt t = take (Z.to_nat (strlen (octets start cnt t))) (drop (Z.to_nat start) t).
Proof.
  intros S0 C0 N. unfold octets, strlen. destruct (_ =? _) eqn:X; [bool_lia|].
  rewrite Nat2Z.id, length_take. by rewrite <- take_take, (take_ge (drop _ _) (length (drop _ _))).
Qed.

(** BODY[]: the literal holds the octets that its number announces, and they are the octets
    [start, start + count) of the message as the client asked for them - all of them without a
    range, none behind the end of the message. *)
Theorem body_total_octets stream w b :
  strlen stream < 2 ^ 63 -> 0 <= octetstart b -> 0 <= octetcnt b -> octetstart b + octetcnt b < 2 ^ 64 ->
  (L ← bodyfetch (items_of w); p_list_data L) = Some b ->
  said (send_total stream w).1 =
    said w ++ space (items_of w) ++ lit "BODY[]" ++ range_text (octetstart b) (octetcnt b) ++ SP ::
      literal (octets (octetstart b) (octetcnt b) stream).
Proof.
  intros Sz S0 C0 B E. unfold send_total. apply tells_bind; [apply tells_space|].
  apply (tells_body _ _ b); [by rewrite space_body|]. set (w1 := (SEND_SPACE w).1).
  rewrite <- (app_nil_r (lit "BODY[]" ++ _)). apply tells_bind; [|by apply tells_nil]. unfold range_text, literal.
  destruct (octetcnt b =? 0) eqn:C.
  - unfold octets. rewrite C. pose proof (Zle_0_nat (length stream)) as P. fold (strlen stream) in P.
    pose proof (tells_printf (lit "BODY[] {" ++ dec_of (strlen stream) ++ lit "}" ++ crlf) w1) as T1.
    pose proof (tells_bind _ (fun _ => send_data stream 0 (strlen stream)) _ _ _ T1
      (tells_data stream 0 (strlen stream) _ ltac:(lia) ltac:(lia) ltac:(lia) ltac:(left; lia))) as T.
    rewrite drop_0, take_ge in T by (unfold strlen; lia). unfold tells in *. rewrite T. by rewrite <- !app_assoc.
  - apply Z.eqb_neq in C. pose proof (octets_length (octetstart b) (octetcnt b) stream S0 C0 C) as O.
    unfold wrap64. rewrite Z.mod_small by lia.
    set (len := if octetstart b <=? strlen stream then _ else 0).
    assert (len = strlen (octets (octetstart b) (octetcnt b) stream)) as Ln.
    { rewrite O. unfold len. destruct (_ <=? _) eqn:X; [|bool_lia]. destruct (strlen stream <? _) eqn:Y; bool_lia. }
    pose proof (tells_printf (lit "BODY[]<" ++ dec_of (octetstart b) ++ lit "> {" ++ dec_of len ++ lit "}" ++ crlf) w1) as T1.
    pose proof (tells_bind _ (fun _ => send_data stream (octetstart b) len) _ _ _ T1
      (tells_data stream (octetstart b) len _ ltac:(lia) ltac:(lia) ltac:(lia) ltac:(lia))) as T.
    rewrite Ln, <- octets_take in T by done. unfold tells in *. rewrite <- Ln in T. rewrite T, <- Ln. by rewrite <- !app_assoc.
Qed.

(** RFC822.HEADER and RFC822.TEXT. *)
Lemma logical_octets name part w i o :
  message (fetch (session w)) = Some (i, o) ->
  tells (send_logical name part) w
    (space (items_of w) ++ lit name ++ SP :: literal (imap_get_logical_part o (Some (lit part)))).
Proof.
  intros E. apply tells_bind; [apply tells_space|].
  assert (message (fetch (session (SEND_SPACE w).1)) = Some (i, o)) as E1.
  { unfold SEND_SPACE. change ((the_items ≫= ?k) w) with (k (items_of w) w). cbv beta.
    destruct (isfirstfetchout _); [done|by rewrite printf_fetch]. }
  unfold tells. erewrite bind_run; [|unfold loaded_message; rewrite bind_self, E1; reflexivity].
  by rewrite said_printf.
Qed.

(** The range that [get_dumpsize] gets wrong: it begins in the text and ends behind it, and is
    shorter than its start and the text together. *)
Definition overlong (start cnt len : Z) : Prop := start <= len /\ len < start + cnt /\ cnt < start + len.
#[export] Instance overlong_dec start cnt len : Decision (overlong start cnt len).
Proof. unfold overlong. apply _. Defined.
(** The number that is announced in front of the octets. *)
Definition announced (start cnt : Z) (t : cstr) : Z :=
  if decide (overlong start cnt (strlen t)) then cnt else strlen (octets start cnt t).
Lemma octets_short start cnt t : 0 <= start -> overlong start cnt (strlen t) -> strlen (octets start cnt t) < cnt.
Proof.
  intros S0 (O1 & O2 & O3). unfold octets. replace (cnt =? 0) with false by lia. unfold strlen in *. rewrite length_take, length_drop. lia.
Qed.
Lemma dumpsize_octets b t :
  0 <= octetstart b -> 0 < octetcnt b -> octetstart b + strlen t < 2 ^ 64 ->
  let cnt := get_dumpsize b (strlen t) in
  cnt = announced (octetstart b) (octetcnt b) t /\
  take (Z.to_nat cnt) (drop (Z.to_nat (octetstart b `min` strlen t)) t) = octets (octetstart b) (octetcnt b) t.
Proof.
  intros S0 C0 B cnt. unfold cnt, get_dumpsize, announced, wrap64, overlong, octets. rewrite Z.mod_small by (unfold strlen in *; lia).
  replace (octetcnt b =? 0) with false by lia. set (start := octetstart b) in *. set (n := octetcnt b) in *.
  assert (forall m, strlen (take m (drop (Z.to_nat start) t)) = Z.of_nat (m `min` (length t - Z.to_nat start))) as Ls
    by (intros m; unfold strlen; by rewrite length_take, length_drop).
  destruct (strlen t <? start) eqn:E1; [|destruct (n <? start + strlen t) eqn:E2]; to_prop; unfold strlen in *.
  - rewrite decide_False, Ls by lia. split; [lia|]. rewrite Z2Nat.inj_0, take_0. by rewrite drop_ge, take_nil by lia.
  - rewrite Z.min_l by lia. split; [|done]. case_decide; [done|]. rewrite Ls. lia.
  - rewrite Z.min_l by lia. rewrite decide_False, Ls by lia. split; [lia|]. rewrite !take_ge; [done|rewrite length_drop; lia..].
Qed.

(** What a section of a message shows: the answer for one that is not there or empty, or the
    range, the number that is announced, and the octets. *)
Definition section_text (start cnt : Z) (t : cstr) : cstr :=
  match t with
  | [] => lit "] NIL"
  | _ => lit "]" ++ range_text start cnt ++ lit " {" ++ dec_of (announced start cnt t) ++ lit "}" ++ crlf ++ octets start cnt t
  end.

End literals.

(** ** Examples *)

(** The session of joe with his INBOX selected, and a FETCH in it. *)
Definition example_selected : world :=
  (example_start []) <| session ::= fun s => s <| state := CLIENTSTATE_SELECTED |> <| userid := 7 |> <| tag := lit "a" |>
    <| mailbox := Some (mkmailbox 4 0 false false (Some (4, 0%nat)) search_new) |> <| mbxinfo := {[4 := (0%nat, example_mailbox 4)]} |>
    <| generation := 1%nat |> <| fetch ::= fun z => z <| physids := {[4 := 104]} |> |> |>.
Definition with_args (l : list string) (w : world) : world :=
  w <| session ::= fun s => s <| args := (Some ∘ lit <$> l) ++ replicate 20 None |> <| args_idx := 0%nat |> <| command_type := IMAP_COMM_FETCH |> |>.
Definition fetch_of (l : list string) (w : world) : world * Z := _ic_fetch_enter (with_args l w).
Definition faulty (r : world * Z) : bool := fault (ci (session r.1)).
Definition says (r : world * Z) (t : string) : bool := bool_decide (is_Some (strstr (said r.1) (lit t))).

(** A FETCH that fails keeps the items that were read: the next one answers them as well, and
    BODY[] without a body_fetch follows a NULL pointer. *)
Lemma failed_fetch_keeps_items :
  let r := fetch_of ["1"; "("; "BODY"; "["; "]"; "BODY.PEEK"; ")"]%string example_selected in
  let r' := fetch_of ["1"; "FLAGS"]%string r.1 in
  r.2 = 1 /\ faulty r = false /\ says r' "FETCH (FLAGS () BODY[] {" = true /\ faulty r' = true.
Proof. vm_compute. auto. Qed.
(** A quoted parenthesis among the header names: the search for the closing one leaves the
    arguments. *)
Lemma quoted_parenthesis_faults : faulty (fetch_of ["1"; "BODY"; "["; "HEADER.FIELDS"; "("; "a"; "]"]%string example_selected) = true.
Proof. vm_compute. reflexivity. Qed.
(** One BODY.PEEK section keeps \Seen from being set for a BODY section of the same FETCH. *)
Lemma peek_hides_body :
  ex_seq (wdb (fetch_of ["1"; "BODY"; "["; "HEADER"; "]"]%string example_selected).1) = 6 /\
  ex_seq (wdb (fetch_of ["1"; "("; "BODY.PEEK"; "["; "TEXT"; "]"; "BODY"; "["; "HEADER"; "]"; ")"]%string example_selected).1) = 5.
Proof. vm_compute. auto. Qed.
(** An item that is not known is passed over. *)
Lemma unknown_item_ignored :
  let r := fetch_of ["1"; "NONSENSE"]%string example_selected in r.2 = 0 /\ says r "* 1 FETCH ()" = true.
Proof. vm_compute. auto. Qed.
(** SELECT with QRESYNC leaves its sequence in the mailbox: messages that were not changed behind it
    can no longer be named. *)
Definition after_qresync : world :=
  example_selected <| session ::= fun s => s <| mailbox ::= fmap (fun m => m <| mbx_modseq := 3 |>) |> |>.
Lemma qresync_hides_messages :
  (fetch_of ["1"; "FLAGS"]%string example_selected).2 = 0 /\
  says (fetch_of ["1"; "FLAGS"]%string after_qresync) "BAD invalid sequence in msn set [1]" = true.
Proof. vm_compute. auto. Qed.

Definition example_body (t : string) : gmime := GPart (mkmime None [] None [] (Some (lit t)) [] None None None).
Definition example_range (start cnt : Z) : body_fetch :=
  body_new <| itemtype := BFIT_TEXT |> <| octetstart := start |> <| octetcnt := cnt |>.

Definition example_asking (b : body_fetch) : world :=
  example_selected <| session ::= fun s => s <| fetch ::= fun z => z <| fi := items_zero <| bodyfetch := Some (p_list_append p_list_new (Some b)) |> |> |> |>.
Lemma body_total_octets_witness :
  said (send_total (lit "octets") (example_asking (example_range 2 3))).1 = said (example_asking (example_range 2 3)) ++ lit " BODY[]<2> {3}" ++ crlf ++ lit "tet".
Proof. apply (body_total_octets (lit "octets") (example_asking (example_range 2 3)) (example_range 2 3)); [vm_compute; done..|reflexivity]. Defined.

Definition peek_items : list fetch_item := [ISimple (lit "UID"); ISection true [] SText; ITotal true].
Definition peek_world : world := example_fetching (fetch_args true peek_items (Some (2, 3))).
Definition chosen (f : ImapSession.fetch_items) : world :=
  example_selected <| session ::= fun s => s <| ids := Some [4] |> <| ids_list := [4] |> <| fetch ::= fun z => z <| fi := f |> |> |>.
Lemma chosen_items f : fi (fetch (session (chosen f))) = f.
Proof. reflexivity. Qed.
Definition peek_chosen : world := chosen (fi (fetch (session (fetch_parse_loop (S MAX_ARGS) peek_world).1))).
Lemma fetch_peek_safe_witness :
  let v' := (dbmail_imap_session_fetch_get_items peek_chosen).1 in
  wdb v' = wdb peek_chosen /\ mbxinfo (session v') = mbxinfo (session peek_chosen) /\
  bool_decide (is_Some (strstr (said v') (lit "* 1 FETCH (UID 4 BODY[]<2> {0}"))) = true.
Proof.
  assert (args_idx (session peek_world) = 1%nat) as I by reflexivity.
  assert (let v' := (dbmail_imap_session_fetch_get_items peek_chosen).1 in
    wdb v' = wdb peek_chosen /\ mbxinfo (session v') = mbxinfo (session peek_chosen)) as [A B].
  - apply (fetch_peek_safe peek_world peek_chosen true peek_items (Some (2, 3))).
    + split; [repeat constructor; try done; by eexists|]. split; [done|]. by exists (take 2 peek_items), (ITotal true).
    + repeat constructor.
    + vm_compute. lia.
    + rewrite I. lia.
    + reflexivity.
    + intros k t E. unfold arg_is. rewrite I. unfold arg_at. cbn [Nat.add].
      change (mjoin ((Some <$> fetch_args true peek_items (Some (2, 3))) !! k) = Some t). by rewrite list_lookup_fmap, E.
    + exact Logic.I.
    + apply chosen_items.
  - split; [exact A|]. split; [exact B|]. vm_compute. reflexivity.
Defined.
