(* ===== verification/SearchReply.v ===== *)
(** * SEARCH from the arguments to the reply

    The parser, the walks and the listing together: the reply to a SEARCH names exactly the
    messages that satisfy the query, and the next search of the mailbox starts afresh. *)
From S2P Require Import Prelude CLib GLib Tree ListT ClientBase ClientSession GListUtil MailboxState MiscText MiscDate Iconv SqlFragment.
From S2P Require Import SearchKeys SearchRun SearchParse SearchFacts Acl Cidr Capa Auth AuthExample ImapText Mime ImapSession ImapTokenizer.
From S2P Require Import ImapMailbox ImapFetch ImapCommands ImapFolders ImapMessages ImapDispatch ImapServer ImapFrame ImapKeeps.
From S2P Require Import ImapCommandFacts.

(** ** The messages as a list *)
Section lists.
Context `{GTreeLaws}.

Lemma narrowed_keys (f f' : gtree Z) P : narrowed f P f' -> g_tree_keys f' = filter (fun u => P u = true) (g_tree_keys f).
Proof.
  intros Hn. apply sorted_unique; [apply g_tree_traverse_sorted|apply sorted_filter, g_tree_traverse_sorted|].
  intros u. rewrite list_elem_of_filter, !g_tree_keys_elem, Hn. destruct (P u); [tauto|]. split; [by intros [? ?]|by intros [? _]].
Qed.
Lemma values_of_keys (t : gtree Z) : g_tree_values t = omap (g_tree_lookup t) (g_tree_keys t).
Proof.
  unfold g_tree_values, g_tree_keys.
  assert (forall kv, kv ∈ g_tree_traverse t -> g_tree_lookup t kv.1 = Some kv.2) as Ht
    by (intros [k v] Hin; by apply g_tree_traverse_elem in Hin).
  induction (g_tree_traverse t) as [|[k v] l IH]; [done|]. rewrite !fmap_cons. cbn [omap list_omap fst snd].
  pose proof (Ht (k, v) ltac:(left)) as E. cbn [fst snd] in E. rewrite E. f_equal. apply IH. intros kv Hkv. apply Ht. by right.
Qed.
Lemma omap_ext_in (g g' : Z -> option Z) (l : list Z) : (forall u, u ∈ l -> g u = g' u) -> omap g l = omap g' l.
Proof.
  induction l as [|u l IH]; intros E; [done|]. cbn [omap list_omap]. rewrite (E u ltac:(left)).
  destruct (g' u); [f_equal|]; apply IH; intros; apply E; by right.
Qed.

(** The numbers that a reply shows. *)
Definition numbers_of (by_uid : bool) (t : gtree Z) (P : Z -> bool) : list Z :=
  let l := filter (fun u => P u = true) (g_tree_keys t) in if by_uid then l else omap (g_tree_lookup t) l.
Lemma narrowed_shown by_uid (f f' : gtree Z) P : narrowed f P f' -> shown_ids by_uid f' = numbers_of by_uid f P.
Proof.
  intros Hn. unfold shown_ids, numbers_of. rewrite values_of_keys, <- (narrowed_keys f f' P Hn). destruct by_uid; [done|].
  apply omap_ext_in. intros u Hu. rewrite (narrowed_keys f f' P Hn) in Hu. apply list_elem_of_filter in Hu as [Hu _]. by rewrite Hn, Hu.
Qed.
Lemma nothing_shown by_uid (f : gtree Z) : nothing_found (Some f) = true <-> shown_ids by_uid f = [].
Proof.
  unfold nothing_found. rewrite bool_decide_eq_true. unfold g_tree_nnodes, shown_ids, g_tree_keys, g_tree_values.
  destruct by_uid, (g_tree_traverse f); cbn; split; done.
Qed.
End lists.

(** ** Text *)
Section text.
Context `{GLibStrLaws}.

Lemma strchomp_id s c : last s = Some c -> g_ascii_isspace c = false -> g_strchomp s = s.
Proof.
  intros Hl Hc. destruct (g_strchomp_spec s) as (post & E & Hp & _).
  destruct post as [|x post] using rev_ind; [by rewrite app_nil_r in E|].
  rewrite E, app_assoc, last_snoc in Hl. apply (inj Some) in Hl as ->.
  apply Forall_app in Hp as [_ Hp]. inversion_clear Hp. congruence.
Qed.
Lemma dec_aux_acc n z acc : exists s, dec_aux n z acc = s ++ acc.
Proof.
  revert z acc. induction n as [|n IH]; intros z acc; cbn [dec_aux]; [by exists []|].
  destruct (z <? 10); [by exists [ascii_of_code (48 + z mod 10)]|]. destruct (IH (z / 10) (ascii_of_code (48 + z mod 10) :: acc)) as [s ->].
  exists (s ++ [ascii_of_code (48 + z mod 10)]). by rewrite <- app_assoc.
Qed.
Lemma last_dec z : exists c, last (dec_of z) = Some c /\ isspace c = false.
Proof.
  exists (ascii_of_code (48 + z mod 10)). split.
  - unfold dec_of. cbn [dec_aux]. destruct (z <? 10); [done|].
    destruct (dec_aux_acc 19 (z / 10) [ascii_of_code (48 + z mod 10)]) as [s E]. cbn [dec_aux] in E. rewrite E. by rewrite last_snoc.
  - pose proof (Z.mod_pos_bound z 10 ltac:(lia)) as B. unfold isspace. rewrite code_ascii_of_code by lia. lia.
Qed.
Lemma last_app_some {A} (a b : list A) c : last b = Some c -> last (a ++ b) = Some c.
Proof. rewrite last_app. by intros ->. Qed.
Lemma last_join sep u l : exists c, last (g_list_join_u64 sep (u :: l)) = Some c /\ isspace c = false.
Proof.
  cbn [g_list_join_u64]. assert (forall s, (exists c, last s = Some c /\ isspace c = false) ->
    exists c, last (foldl (fun s y => s ++ sep ++ dec_of y) s l) = Some c /\ isspace c = false) as Hf.
  { induction l as [|v l IH]; intros s Hs; [done|]. cbn [foldl]. apply IH. destruct (last_dec v) as (c & E & Ec).
    exists c. split; [by apply last_app_some, last_app_some|done]. }
  apply Hf, last_dec.
Qed.
Lemma chomp_join sep u l : g_strchomp (g_list_join_u64 sep (u :: l)) = g_list_join_u64 sep (u :: l).
Proof.
  destruct (last_join sep u l) as (c & E & Ec). apply (strchomp_id _ c E).
  destruct (g_ascii_isspace c) eqn:Es; [|done]. by rewrite (g_isspace_isspace c Es) in Ec.
Qed.
Lemma chomp_nil : g_strchomp [] = [].
Proof. destruct (g_strchomp_spec []) as (post & E & _). by destruct (g_strchomp []). Qed.
End text.

(** ** The command *)
Section command.
Context `{ImapDB} `{!ImapSearch} `{!GTreeLaws} `{GLibStrLaws}.

(** A session whose selected mailbox [m] has the state [M], and is ready for a search. *)
Record search_ready (w : world) (p : stateptr) (m : DbmailMailbox) (M : MailboxState_T) : Prop := {
  sr_mailbox : mailbox (session w) = Some m;
  sr_pointer : mbx_state m = Some p;
  sr_state : mbxinfo (session w) !! p.1 = Some (p.2, M);
  sr_exists : (MailboxState_getExists M).1 = M;
  sr_infos : forall u, is_Some (g_tree_lookup (MailboxState.ids M) u) -> is_Some (g_tree_lookup (msginfo M) u);
  sr_settled : settled (ss_search (mbx_search m));
}.

(** Nothing but the text that waits is different. *)
Definition quiet (w w' : world) : Prop :=
  wdb w' = wdb w /\ mailbox (session w') = mailbox (session w) /\ mbxinfo (session w') = mbxinfo (session w) /\ ci (session w') = ci (session w).
#[local] Instance quiet_preorder : PreOrder quiet.
Proof. split; [by intros w|]. intros w1 w2 w3 (A1 & A2 & A3 & A4) (B1 & B2 & B3 & B4). unfold quiet. repeat split; congruence. Qed.
Hint Extern 2 (keeps quiet (upd _)) => (intros ?; repeat split) : keeps.
Lemma quiet_push q : keeps quiet (push q).
Proof. by intros w. Qed.
Hint Resolve quiet_push : keeps.
Lemma quiet_printf t : keeps quiet (buff_printf t).
Proof. keep. Qed.

Lemma mailbox_eq w m : mailbox (session w) = Some m -> the_mailbox w = (w, m).
Proof. intros E. unfold the_mailbox. by rewrite bind_self, E. Qed.
Lemma mbstate_eq w m p : mailbox (session w) = Some m -> mbx_state m = Some p -> mbstate w = (w, p).
Proof. intros E Ep. unfold mbstate. rewrite bind_self, E. cbn. by rewrite Ep. Qed.
Lemma with_same_states w g : g (mbxinfo (session w)) = mbxinfo (session w) ->
  w <| session ::= fun s => s <| mbxinfo ::= g |> |> = w.
Proof.
  intros E. assert ((session w) <| mbxinfo ::= g |> = session w) as Es.
  { unfold set_field. rewrite E. by destruct (session w). }
  unfold set_field at 1. rewrite Es. by destruct w.
Qed.
Lemma on_state_same {A} p (f : MailboxDB -> MailboxState_T -> MailboxState_T * A) w M x :
  mbxinfo (session w) !! p.1 = Some (p.2, M) -> f (mailbox_answers (wdb w)) M = (M, x) -> on_state p f w = (w, x).
Proof.
  intros L E. rewrite (on_state_eq p f w M M x L E), with_same_states; [done|]. by apply insert_id.
Qed.

(** The mailbox is another one, and the rest of what matters is the same. *)
Record carries (w w' : world) (m : DbmailMailbox) : Prop := {
  ca_db : wdb w' = wdb w;
  ca_mailbox : mailbox (session w') = Some m;
  ca_states : mbxinfo (session w') = mbxinfo (session w);
  ca_ci : ci (session w') = ci (session w);
  ca_uid : use_uid (session w') = use_uid (session w);
  ca_said : said w' = said w;
}.
Lemma carries_trans w w' w'' m m' : carries w w' m -> carries w' w'' m' -> carries w w'' m'.
Proof. intros [A1 A2 A3 A4 A5 A6] [B1 B2 B3 B4 B5 B6]. split; congruence. Qed.
Lemma upd_mailbox_eq f w m : mailbox (session w) = Some m -> exists w', upd_mailbox f w = (w', tt) /\ carries w w' (f m).
Proof.
  intros E. eexists. split; [reflexivity|]. split; try done.
  change (fmap f (mailbox (session w)) = Some (f m)). by rewrite E.
Qed.
Lemma parse_search_eq keys o w m r q :
  mailbox (session w) = Some m ->
  dbmail_mailbox_build_imap_search keys o
    (mkq (ss_search (mbx_search m)) 0 (free_arg (ss_charset (mbx_search m))) (mbx_modseq m) (mbx_condstore m)) = Done (r, q) ->
  exists w', parse_search keys o w = (w', r) /\
    carries w w' (m <| mbx_modseq := q_modseq q |> <| mbx_condstore := q_condstore q |>
      <| mbx_search ::= fun ss => ss <| ss_search := q_search q |> <| ss_charset := q_charset q |> |>).
Proof.
  intros E Eq. unfold parse_search. rewrite (bind_run _ _ _ _ _ (mailbox_eq w m E)). cbv zeta. rewrite Eq.
  rewrite (bind_run _ _ w w (r, q)) by done.
  match goal with |- context [upd_mailbox ?f] => destruct (upd_mailbox_eq f w m E) as (w1 & E1 & C1) end.
  rewrite (bind_run _ _ _ _ _ E1), (bind_run _ _ _ _ _ (upd_eq _ _)). eexists. split; [reflexivity|]. by destruct C1.
Qed.
Lemma run_search_eq w p m M ss :
  mailbox (session w) = Some m -> mbx_state m = Some p -> mbxinfo (session w) !! p.1 = Some (p.2, M) ->
  @dbmail_mailbox_search _ _ _ (search_answers (wdb w)) _ (mbx_id m) (mbx_modseq m) M (mbx_search m) = Done (M, ss) ->
  exists w', run_search w = (w', tt) /\ carries w w' (m <| mbx_search := ss |>).
Proof.
  intros R1 R2 R3 E. unfold run_search. rewrite (bind_run _ _ _ _ _ (mailbox_eq w m R1)).
  rewrite (bind_run _ _ _ _ _ (mbstate_eq w m p R1 R2)).
  assert (get_state p w = (w, M)) as Eg by (by apply (on_state_same p _ w M M R3)). rewrite (bind_run _ _ _ _ _ Eg).
  rewrite (bind_run database _ w w (wdb w)) by done. rewrite E. rewrite (bind_run _ _ w w (M, ss)) by done.
  assert (upd_state p (fun _ _ => M) w = (w, tt)) as Eu by (by apply (on_state_same p _ w M tt R3)).
  rewrite (bind_run _ _ _ _ _ Eu). by apply (upd_mailbox_eq (fun m => m <| mbx_search := ss |>)).
Qed.
Lemma search_result_eq w p m M f :
  mailbox (session w) = Some m -> mbx_state m = Some p -> mbxinfo (session w) !! p.1 = Some (p.2, M) ->
  mbx_modseq m = 0 -> ss_found (mbx_search m) = Some f ->
  search_result SEARCH_UNORDERED w =
    (w, match shown_ids (use_uid (session w)) f with [] => None | ns => Some (g_list_join_u64 [SP] ns) end).
Proof.
  intros R1 R2 R3 Hm Hf. unfold search_result. rewrite bind_self, (bind_run _ _ _ _ _ (mailbox_eq w m R1)).
  rewrite (bind_run _ _ _ _ _ (mbstate_eq w m p R1 R2)).
  assert (get_state p w = (w, M)) as Eg by (by apply (on_state_same p _ w M M R3)). rewrite (bind_run _ _ _ _ _ Eg).
  rewrite (bind_run database _ w w (wdb w)) by done. cbv zeta. rewrite Hf, Hm.
  unfold dbmail_mailbox_ids_as_string, dbmail_mailbox_imap_modseq_as_string, shown_seq. change (0 =? 0) with true. cbv iota.
  destruct (nothing_found (Some f)) eqn:En.
  - pose proof (proj1 (nothing_shown (use_uid (session w)) f) En) as ->. done.
  - destruct (shown_ids (use_uid (session w)) f) as [|u ns] eqn:Es; [apply nothing_shown in Es; congruence|].
    cbn [mbind pout_bind]. rewrite chomp_join, chomp_nil. rewrite (bind_run _ _ w w (Some (g_list_join_u64 [SP] (u :: ns)))) by done.
    rewrite (bind_run _ _ w w (Some [])) by done. cbn [default fmap option_fmap option_map]. by rewrite app_nil_r.
Qed.

(** The reply names the messages that satisfy the query, in order. *)
Definition search_line (ns : list Z) : cstr :=
  lit "* SEARCH" ++ match ns with [] => [] | _ => SP :: g_list_join_u64 [SP] ns end ++ crlf.
Definition satisfies (w : world) (m : DbmailMailbox) (M : MailboxState_T) (q : query) : Z -> bool :=
  @sat _ _ _ (search_answers (wdb w)) _ (mbx_id m) (mbx_modseq m) M q.
Definition can_search (w : world) (m : DbmailMailbox) (M : MailboxState_T) (q : query) : Prop :=
  @searchable _ _ _ (search_answers (wdb w)) _ (mbx_id m) (mbx_modseq m) M q.

End command.
