(* ===== verification/SearchExamples.v ===== *)
(** * Searches of an example mailbox

    The INBOX of joe has the messages 4 and 9. A query that is answered as it means, and the
    arguments for which SEARCH does something else. *)
From S2P Require Import Prelude CLib GLib Tree ListT ClientBase ClientSession GListUtil MailboxState MiscText MiscDate Iconv SqlFragment.
From S2P Require Import SearchKeys SearchRun SearchParse SearchFacts Acl Cidr Capa Auth AuthExample ImapText Mime ImapSession ImapTokenizer.
From S2P Require Import ImapMailbox ImapFetch ImapCommands ImapFolders ImapMessages ImapDispatch ImapServer ImapExample ImapFrame ImapKeeps.
From S2P Require Import ImapCommandFacts ImapFetchReply SearchReply.

#[export] Instance example_laws : @SearchLaws (search_answers (wdb example_selected)).
Proof.
  split; [done|]. intros id s l u. change (u ∈ filter (fun u => u ∈ l) (example_rows s) <-> u ∈ example_rows s /\ u ∈ l). rewrite list_elem_of_filter. tauto.
Qed.

Definition search_of (o : search_order) (l : list string) (w : world) : world * bool := search_listing o (lit <$> l) w.
Definition listing (r : world * bool) : cstr := said r.1.
Definition broken (r : world * bool) : bool := fault (ci (session r.1)).
Definition after (w : world) (r : world * bool) : cstr := drop (length (said w)) (listing r).
Definition answers (l : list string) (t : string) : bool :=
  streq (after example_selected (search_of SEARCH_UNORDERED l example_selected)) (lit t ++ crlf).
(** What a second search of the same session answers. *)
Definition then_answers (l l' : list string) (t : string) : bool :=
  let w := (search_of SEARCH_UNORDERED l example_selected).1 in
  streq (after w (search_of SEARCH_UNORDERED l' w)) (lit t ++ crlf).

(** ** A query *)

(** NOT (UNSEEN) OR UID 1:5 (SUBJECT hello) *)
Definition example_query : list query :=
  [QNot (QGroup None [QKey [lit "UNSEEN"] (typed_key IST_FLAG (lit "seen_flag=0"))]);
   QOr (QKey [lit "UID"; lit "1:5"] (typed_key IST_UIDSET (lit "1:5")))
       (QGroup None [QKey [lit "SUBJECT"; lit "hello"] (text_leaf IST_HDR (lit "subject") (lit "hello"))])].
Definition example_mbx : DbmailMailbox := mkmailbox 4 0 false false (Some (4, 0%nat)) search_new.

Lemma example_printable : printable (QGroup None example_query).
Proof.
  split; [done|]. split; [split; [done|split; [done|split; [by apply reads_flag|done]]]|].
  split; [split; [by apply reads_uid|split; [done|split; [by apply reads_text|done]]]|done].
Qed.
(** Every key of the query is possible. *)
Definition done_key (k : search_key) : bool :=
  match @key_tree _ _ _ example_answers _ 4 0 (example_mailbox 4) g_tree_new k with Done _ => true | _ => false end.
Lemma done_searchable k : is_leaf_type (sk_type k) && negb (searched k) && negb (merged k) && done_key k = true ->
  @searchable_key _ _ _ example_answers _ 4 0 (example_mailbox 4) k.
Proof.
  rewrite !andb_true_iff, !negb_true_iff. intros [[[Hl Hs] Hm] Hd]. split_and!; [done..|]. unfold done_key in Hd.
  destruct (key_tree _ _ _ _ _) as [t| |]; [by exists t|done..].
Qed.
Lemma example_searchable : can_search example_selected example_mbx (example_mailbox 4) (QGroup None example_query).
Proof. repeat split; apply done_searchable; vm_compute; reflexivity. Qed.
Lemma example_ready : search_ready example_selected (4, 0%nat) example_mbx (example_mailbox 4).
Proof.
  split; [done|done|reflexivity| | |by left].
  - vm_compute. reflexivity.
  - intros u Hu. destruct (decide (u ∈ [4; 9])) as [Hin|Hin].
    + repeat (apply elem_of_cons in Hin as [->|Hin]; [vm_compute; by eexists|]). by apply elem_of_nil in Hin.
    + exfalso. apply g_tree_keys_elem in Hu. replace (g_tree_keys (MailboxState.ids (example_mailbox 4))) with [4; 9] in Hu by (vm_compute; reflexivity).
      done.
Qed.


(** ** What is not answered as it means *)

(** An operand of OR that is a NOT or an OR has found nothing when the OR is merged, and its keys
    are then merged with the whole result. *)
Lemma or_with_not_is_wrong :
  numbers_of false (MailboxState.ids (example_mailbox 4)) (satisfies example_selected example_mbx (example_mailbox 4)
    (QOr (QNot (QKey [] (text_leaf IST_HDR (lit "subject") (lit "x")))) (QKey [] (typed_key IST_FLAG (lit "seen_flag=0"))))) = [1; 2] /\
  answers ["OR"; "NOT"; "SUBJECT"; "x"; "UNSEEN"] "* SEARCH 2" = true.
Proof. vm_compute. auto. Qed.
(** An OR with one operand follows a NULL pointer. *)
Lemma or_of_one_faults : broken (search_of SEARCH_UNORDERED ["OR"; "SEEN"]%string example_selected) = true.
Proof. vm_compute. reflexivity. Qed.
(** An error below NOT or OR leaves the cursor there: later searches of the mailbox are negated. *)
Lemma error_negates_later_searches :
  (search_of SEARCH_UNORDERED ["NOT"; "BOGUS"]%string example_selected).2 = false /\
  then_answers ["NOT"; "BOGUS"] ["SEEN"] "* SEARCH 2" = true /\ then_answers ["NOT"; "BOGUS"] ["ALL"] "* SEARCH" = true.
Proof. vm_compute. auto. Qed.
(** A set that is not valid stops the walks: everything is found, by this and by later searches. *)
Lemma bad_set_finds_all : answers ["0"] "* SEARCH 1 2" = true /\ then_answers ["0"] ["SEEN"] "* SEARCH 1 2" = true.
Proof. vm_compute. auto. Qed.
(** The number of a MODSEQ stays in the mailbox. *)
Lemma modseq_stays : then_answers ["MODSEQ"; "100"] ["ALL"] "* SEARCH" = true.
Proof. vm_compute. reflexivity. Qed.
(** MODSEQ without a number follows a NULL pointer, as does THREAD without a charset. *)
Lemma modseq_faults : broken (search_of SEARCH_UNORDERED ["MODSEQ"; "x"]%string example_selected) = true.
Proof. vm_compute. reflexivity. Qed.
Lemma thread_faults : broken (search_of SEARCH_THREAD_ORDEREDSUBJECT ["ORDEREDSUBJECT"]%string example_selected) = true.
Proof. vm_compute. reflexivity. Qed.
(** The charset of an earlier search is read after it was freed. *)
Lemma charset_is_freed :
  broken (search_of SEARCH_UNORDERED ["SUBJECT"; String "200" EmptyString]%string
    (search_of SEARCH_UNORDERED ["CHARSET"; "X"; "ALL"]%string example_selected).1) = true.
Proof. vm_compute. reflexivity. Qed.
(** What stands behind a closing parenthesis is not read. *)
Lemma stray_parenthesis_ends : answers ["SEEN"; ")"; "BOGUS"] "* SEARCH 1" = true.
Proof. vm_compute. reflexivity. Qed.
(** The name of a header goes into the statement as it is. *)
Lemma header_name_is_sql :
  bool_decide (strstr (stmt_text (SHdr (lit "x' OR 1=1 -- ") (lit "a")) []) (lit "n.headername = 'x' OR 1=1 -- '") = None) = false.
Proof. vm_compute. reflexivity. Qed.
(** NOT NEW is not the negation of NEW: a message that is neither seen nor recent is in neither. *)
Lemma not_new_is_wrong : keyword_lookup not_flag_keys (lit "NEW") = Some (lit "(seen_flag=1 AND recent_flag=0)").
Proof. reflexivity. Qed.
(** The seconds of OLDER and YOUNGER are printed as 32-bit numbers. *)
Lemma seconds_wrap : within_cond " < " (2 ^ 32 + 5) = within_cond " < " 5.
Proof. vm_compute. reflexivity. Qed.
(** A search in the state for OLDER writes outside of its buffer. *)
Lemma older_overflows : key_test (key_zero <| sk_type := IST_IDATE |> <| sk_search := within_cond " < " 3600 |>) = Undef.
Proof. vm_compute. reflexivity. Qed.
(** SINCE leaves out a message of the first second of its day. *)
Definition since_finds (date internaldate : string) : pout bool :=
  match key_test (key_zero <| sk_type := IST_IDATE |> <| sk_search := compare_date " > " (default [] (date_imap2sql (lit date))) |>) with
  | Done (Some f) => Done (f (mkinfo 1 1 0 [] [] 0 0 0 (lit internaldate) 0 0))
  | _ => Undef
  end.
Lemma since_misses_midnight :
  since_finds "01-May-2024" "2024-05-01 00:00:00" = Done false /\ since_finds "01-May-2024" "2024-05-01 00:00:01" = Done true.
Proof. vm_compute. auto. Qed.
